(* ===== verification/_CoqProject ===== *)
-Q . S2P
Prelude.v
Lts.v
Json.v
GoJson.v
Protos.v
Wire.v
Helpers.v
Base64.v
Badger.v
Channel.v
Store.v
Race.v
Reader.v
Delivery.v
Sync.v
Wakeup.v
Server.v
Vault.v
VaultSpec.v
Client.v
Crypto.v
Keyring.v
KeyFile.v
P2P.v
TopicLoop.v
HostLoop.v
Relay.v
RelayReaders.v
RelaySpec.v
RelayFollowers.v
Config.v
Main.v
