(* ===== verification/Prelude.v ===== *)
(** * plan-vault-libp2p: a verification development

    The vault keeps the feeds ("channels") of a PLAN community.  A client
    talks to it over one gRPC stream; entries are kept in a badger database;
    vaults exchange entries and each other's addresses over libp2p.  This
    library models the Go code under src/ as Gallina functions and proves what
    the code promises of feeds, subscriptions, sessions and keys.

    ** The program and the files

    - [Prelude]: bytes, slices, machine integers, errors and outcomes, the
      order of byte strings, and the lemmas and hints everything shares.
    - [Lts]: labelled transition systems, what the files that interleave
      goroutines share.
    - [Json], [GoJson]: what [config] uses of [encoding/json]: JSON texts, and
      how a tagged structure is read and written.
    - [Protos] (protos/vault.pb.go, protos/internal.pb.go): messages,
      enumerations, getters.  The wire format is the interface [ProtoCodec],
      with [ProtoLaws]; [RefCodec] is an instance, for examples.
    - [Wire] (the tags in protos/vault.pb.go, protos/internal.pb.go): the
      messages that are stored or relayed as protobuf documents them, unknown
      fields included; another instance.
    - [Helpers] (helpers/func.go): channel ids, entry ids, timestamps, UUIDs.
    - [Base64]: what [keyring] uses of [encoding/base64].
    - [Badger]: the database the store calls, as an interface: [Badger] lists
      the operations, [BadgerLaws] says what they do, [BadgerReliable] that
      they do not fail.  [MemDB] is an instance.
    - [Channel] (store/store.go): stream options, the key schema, channels.
    - [Store] (store/store.go): the channel registry, [Append], [Get],
      [Upsert], [lastKey], [watch].
    - [Race] (store/store.go): appends whose transactions overlap.
    - [Reader] (store/store.go): [read] and [readFromIndex] as state machines,
      [Subscribe], [unsubscribe], and the invariant of every run.
    - [Delivery] (store/store.go): the theorems about what readers deliver.
    - [Sync] (store/store.go): the goroutines of a channel interleaved: the
      callback of [watch], [Subscribe], [reset], [notify], [unsubscribe] and
      the readers, at [sLock] and the unbuffered channels.
    - [Wakeup] (store/store.go): the theorems about those interleavings.
    - [Server] (server/server.go): sessions and their handlers.
    - [Vault] (server/server.go over store/store.go): the vault as a whole, all
      sessions and the goroutines of all channels on one database; [VaultSpec]:
      the theorems about it.
    - [Client] (client/client.go, tests/main.go): the client, client and server
      together, and the test program.
    - [Crypto]: NaCl and libp2p keys, as interfaces, with [RefCrypto].
    - [Keyring] (keyring/keyring.go, keyring/types.go): key sets, key rings,
      the encoding of entries.
    - [KeyFile] (keyring/file.go): the identity key on disk.
    - [P2P] (p2p/host.go, p2p/topic_handler.go, p2p/discovery_channel.go,
      p2p/discovery_mdns.go): the host's peers and topics, the discovery
      channel, mDNS, snapshot and restore, over libp2p as the interface
      [LibP2P], with [RefNet].
    - [TopicLoop] (p2p/topic_handler.go): the goroutine of [watchTopic], and
      [Done].
    - [HostLoop] (p2p/host.go, p2p/topic_handler.go): the goroutines of a host,
      interleaved at its lock and at [snapshotUpdateCh].
    - [Relay] (p2p/topic_handler.go on several vaults): a channel that peers
      relay to each other; [RelayReaders]: the same over the goroutines of
      [Sync], a relay handler publishing what its store's reader hands to it;
      [RelaySpec] and [RelayFollowers]: the theorems about that.
    - [Config] (config/config.go and the config.go of store, server, p2p and
      metrics): flags, the configuration file, what each service is handed.
    - [Main] (main.go, [Run] of server/server.go and metrics/metrics.go): how a
      vault starts and stops.

    The server calls the store's [Store_Channel], [Append] and [Subscribe];
    [Subscribe] starts a reader, which runs against the database as it is at
    each of its steps; a committed append makes [watch] notify the readers of
    its channel.  [Vault] puts these together: a request is [dispatch] of [Server],
    run on the store that shows what the goroutines of [Sync] have
    ([store_of]), and the moves it causes there ([request_move]: the locked part
    of [Subscribe], the cancellation, the commit; [request_coherent] says that
    both views of the request are the same); what a reader
    publishes goes to the connection of its stream ([deliver]).  The client's
    requests are the server's turns.  The host learns
    of new channels from the store ([ChannelUpdate]), verifies what it hears on
    the discovery channel with the key ring, and keeps its snapshot in the
    store's database under a key of its own.  [main_start] puts the parts
    together: [NewConfig], then [Store.New], [P2P.New] and [server_Run].

    ** How code becomes definitions

    A function that changes state takes the state and returns it.  A method
    that fails returns an [outcome]: a value, an error, or a panic; a
    dereference of nil, an index out of range and a call that panics are
    [Panic].  Integers are [Z], with the conversions [to_i32], [to_u64], ...
    where the code can leave a width.  A [[]byte] is a [slice], nil being
    [None].  A goroutine that loops is a step function on its state and what
    its [select] picks ([read_step]), so that a theorem can say what happens
    under any interleaving of database states and events ([run]).  Where
    goroutines block each other the whole of them is one state with a step
    for each thing that can happen ([sync_step], [vault_step], [race_step],
    [host_step], [topic_step], [gossip_step], [net_step], [life_step], [test_step]), a
    schedule being a list of labels ([play]).  Configuring a vault can also end the
    process, which is the monad [prog].  The one
    function that needs fuel, the reverse scan [last_key_loop], gets one more
    than [It_bound], the number of items a snapshot can have left, and
    [lastKey_max] proves that this is enough; the JSON reader's fuel grows with
    the text, and [cost_bound] proves that for what the vault prints.  The clock, random bytes and
    what a library call returns are arguments.

    Code that is not under src/ is a class with named laws, each stating
    documented behaviour: badger (snapshots, prefix iteration, serializable
    commits), protobuf, sha256, NaCl, libp2p keys and hosts.  A message keeps
    what it was read with of fields its type does not have ([unknownFields]).  A theorem with such a
    hypothesis has a witness on the instances [MemDB], [RefCodec],
    [RefHash], [RefCrypto], [RefNet]; [Wire] proves the laws of the format that
    the vault really uses, as far as it is documented (no groups, which are
    deprecated).

    Assumptions that are the model's own: a lock makes a method atomic, except
    [sLock] in [Sync] and the host's in [HostLoop], where blocking under it
    matters; a request is one step of [Vault], up to its response, for which
    [Race] and the locks are the reason; an [OpenFeed] with [DontStream] ends
    the process and is no step there.  [Subscribe] sends the
    options of a re-opened stream on [resetRx] and waits until the reader takes
    them: in [Sync] and [Vault] that is a state ([resetting], [held]), and
    [Server], which follows one session, is told whether the reader takes them
    ([turn], [InReset], [Hanging]).  badger reports to [watch] what is
    committed after [watch]'s goroutine has subscribed ([watching]); the
    theorems about followers assume that no entry is committed to a channel that
    somebody reads before that moment (the labels that [label_ok] and
    [under_watch] allow; [strict] in the invariants of [Wakeup] and [Vault] says
    whether they are restricted so), and [unwatched_commit_missed] shows what
    happens otherwise.  A seek id that a client gives is not a key of the store,
    so that a reader which has published nothing yet may have a key that sorts
    before those of its channel; the theorems that need it not to say so
    ([seek_ok]), and [seek_by_entry_id] shows what such a reader does.  A key
    that [item.Key()] returned keeps its value (badger promises that only
    until [Next], and the code keeps it longer); nothing writes through a
    pointer to a key; [conn.Send]'s failures are, as in the code, ignored.

    ** What is proved

    - Feeds.  [feed] reads an abstract, append-only feed store off the
      database.  [append_all_refines] and [append_spec] say that appends
      implement insertion into it on every branch; [appends_linearize] that
      concurrent appends do what they do one after another, in the order they
      return; [append_race] that two of a key cannot both commit; [append_index_ok] that the arrival
      index lists exactly the entries; [append_get_roundtrip] and
      [lastKey_max] the rest.  The key schema is [key_roundtrip], with
      [key_order] and [key_spaces_disjoint]; entry ids sort by time
      ([NewEntryID_time_order], [timestamp_exact]).
    - Subscriptions.  [reader_safe] holds of any run: only entries of the
      channel, never more than asked for, no panic.  [read_delivers] says what
      an undisturbed pass delivers and that it ends, [reader_follows] that complete
      passes over a growing channel, one after another, lose and repeat
      nothing, [append_grows]
      when a channel is growing, [late_entry_missed] what is not delivered,
      [index_delivers] the arrival order.  [sync_type_invariant] holds of every
      interleaving of a channel's goroutines; [no_lost_wakeup] that a reader
      which waits, nobody being about to notify it, has no entry left to
      deliver (if its key is in the channel and the watch was on in time),
      [comes_to_rest] that the goroutines stop or deadlock when requests do,
      [newest_entry_delivered] that without a deadlock a follower has then had
      the newest entry.
      [reopen_deadlocks] and [limit_deadlocks] are the deadlocks: re-opening a
      stream that waits, and a limit reached while a commit is announced.  [reset_restarts] and
      [seek_by_entry_id] describe what re-opening and seeking really do.
    - Sessions.  [session_refines]: a session implements the abstract feeds
      and answers each request once, in order, under its id, up to a re-opening
      whose reader does not take the reset, where it hangs.
      [session_invariant], [session_no_panic] (no panic; a turn that does not
      complete is such a re-opening), [append_accepted],
      [append_refused], [newStreamOpts_spec], [close_idempotent]; the
      surprises are [open_dont_stream_panics] and [reopen_keeps_first].
    - The whole vault.  [vault_refines]: all clients together see one
      append-only store, in the order their requests are handled.
      [follower_gets_entry]: a new entry reaches whoever
      follows its channel, under the right id, once badger reports the channel's
      commits.  [vault_comes_to_rest]: left alone the vault comes to rest, in at
      most [vault_energy] moves, every request answered but where a channel is
      in a deadlock.  [reopen_hangs_session] is the defect at this level.
    - Client.  [client_ids_unique], and [client_close_cancels], end to end:
      closing a URI cancels at the server what opening it started.
    - Keys.  [encode_decode] (what a member encodes another decodes),
      [decode_outcomes] (exactly when a body, which error, or a panic comes out),
      [removed_member_refused], [restart_same_identity],
      [existing_file_kept]; [short_entry_panics] and
      [restored_ring_cannot_decode] are defects.

    - Peers.  [snapshot_roundtrip]: what the host writes it reads back, and the
      feeds are untouched.  [host_relays_nothing] and
      [unreachable_peer_blocks_start] are defects: no channel gets a topic of
      its own, and one peer that is offline keeps a vault from starting.  As a
      consequence [host_never_snapshots]; were channels named,
      [join_deadlocks_loop] and [snapshot_misses_entry] would be next.
    - Replication.  [replicas_converge]: vaults that relay a channel to each
      other never disagree on an entry, have only entries a client of one of
      them wrote, and have the same ones when everything has arrived.
      [relay_refines]: the handlers over their stores' readers implement that.
      [ordered_entries_spread]: entries written in key order, no two of one id,
      get to every vault; [entries_reach_remote_followers]: and, once, to whoever follows the
      channel at any of them; [late_entry_never_leaves]: one that is not may stay where
      it is.  [wire_roundtrip]: marshalling and reading an entry at each hop
      does not change it, nor lose the fields of a later version.  [done_handler_spins]: the goroutine of a handler
      never ends.
    - Configuration and process.  [printed_config_roundtrip]: what [-print]
      writes configures the next vault.  [null_section_crashes] and
      [certificate_stays_with_flag] are surprises of the file.  [start_wiring]:
      host, store and server are wired as the configuration says.
      [interrupt_kills]: the shutdown that main.go intends does not happen.

    ** What is not modelled

    Listeners and dialling, TLS, the debug server's sink, logging and the
    adapter from badger's logger to it, the gRPC stubs, protobuf descriptors
    and reflection: input and output, or generated.  What libp2p does to make a
    host and route messages is behind [LibP2P].  [HostLoop]'s deadlock, [Relay]
    and the files over it are about channels with a URI, which [Store.Channel]
    does not set: they say what the relay code does once it is reached.  A vault
    of [RelayReaders] has the goroutines of one channel, and its clients'
    appends are steps of their own: the sessions of [Vault] are not put into
    that network, as requests on one vault's store do not depend on the others
    but through what [Hears] commits.  Timers (the ticks of the snapshot, of
    mDNS) are labels or arguments, not durations that pass. *)
From stdpp Require Export prelude gmap sorting list_numbers strings.
From Stdlib Require Export Strings.Byte.

#[global] Set Default Goal Selector "!".
#[global] Open Scope Z_scope.

(* ------------------------------------------------------------------ *)
(** * Go data *)

Abbreviation bytes := (list byte).
(** A Go [string] is an immutable byte sequence. *)
Abbreviation gostring := (list byte) (only parsing).
(** A Go [[]byte]: [None] is the nil slice, which the code distinguishes
    from an empty one. *)
Abbreviation slice := (option (list byte)).

Definition str (s : string) : gostring := String.list_byte_of_string s.

#[global] Instance byte_eq_dec : EqDecision byte := Byte.byte_eq_dec.

#[global] Program Instance byte_countable : Countable byte :=
  inj_countable Byte.to_N Byte.of_N _.
Next Obligation. intros b. apply Byte.of_to_N. Qed.

#[global] Instance byte_inhabited : Inhabited byte := populate x00.

Definition byte_Z (b : byte) : Z := Z.of_N (Byte.to_N b).

(** The conversion [byte(z)]: the low eight bits. *)
Definition byte_of_Z (z : Z) : byte :=
  default x00 (Byte.of_N (Z.to_N (z `mod` 256))).

(** A hexadecimal digit, in lower case. *)
Definition hex_byte (z : Z) : byte := byte_of_Z (if z <? 10 then 48 + z else 87 + z).

(** Contents of a slice: what [len], [range] and [copy] see. *)
Definition sbytes (s : slice) : bytes := default [] s.

Definition zeros (n : nat) : bytes := replicate n x00.

(** [copy(dst[off:], src)]: as many bytes as fit, nothing else changes. *)
Definition copy_at (dst : bytes) (off : nat) (src : bytes) : bytes :=
  let n := ((length dst - off) `min` length src)%nat in
  take off dst ++ take n src ++ drop (off + n) dst.

(** [k[i] = b] for an index in range. *)
Definition set_byte (k : bytes) (i : nat) (b : byte) : bytes := <[i:=b]> k.

(** [bytes.Equal]: a nil argument is equivalent to an empty one. *)
Definition slice_equal (a b : slice) : bool := bool_decide (sbytes a = sbytes b).

(** ** Machine integers *)

Definition to_u8 (z : Z) : Z := z `mod` 2 ^ 8.
Definition to_u16 (z : Z) : Z := z `mod` 2 ^ 16.
Definition to_u32 (z : Z) : Z := z `mod` 2 ^ 32.
Definition to_u64 (z : Z) : Z := z `mod` 2 ^ 64.
Definition to_i32 (z : Z) : Z := (z + 2 ^ 31) `mod` 2 ^ 32 - 2 ^ 31.
Definition to_i64 (z : Z) : Z := (z + 2 ^ 63) `mod` 2 ^ 64 - 2 ^ 63.

(** ** Errors and outcomes *)

(** [Sentinel] is a package-level [errors.New] value, identified by its
    variable; [Foreign] an error a library returned; [Wrapped] is
    [fmt.Errorf] with [%w]. *)
Inductive error :=
  | Sentinel (var text : gostring)
  | Foreign (text : gostring)
  | Wrapped (text : gostring) (inner : error).

#[global] Instance error_eq_dec : EqDecision error.
Proof. solve_decision. Defined.

(** [err.Error()] *)
Fixpoint Error (e : error) : gostring :=
  match e with
  | Sentinel _ t | Foreign t => t
  | Wrapped t e' => t ++ str ": "%string ++ Error e'
  end.

(** What a Go function body does: return a value, return an error, or
    panic. *)
Inductive outcome (A : Type) :=
  | Ok (a : A)
  | Err (e : error)
  | Panic.
Arguments Ok {_} _. Arguments Err {_} _. Arguments Panic {_}.

#[global] Instance Ok_inj {A} : Inj (=) (=) (@Ok A).
Proof. congruence. Qed.

#[global] Instance outcome_ret : MRet outcome := @Ok.
#[global] Instance outcome_bind : MBind outcome := λ A B f m,
  match m with Ok a => f a | Err e => Err e | Panic => Panic end.

(** ** Byte-string order and prefixes *)

(** [bytes.Compare(a, b) <= 0] *)
Fixpoint bytes_leb (a b : bytes) : bool :=
  match a, b with
  | [], _ => true
  | _ :: _, [] => false
  | x :: a', y :: b' =>
      if byte_Z x <? byte_Z y then true
      else if byte_Z y <? byte_Z x then false
      else bytes_leb a' b'
  end.

Definition bytes_le (a b : bytes) : Prop := bytes_leb a b = true.
Definition bytes_lt (a b : bytes) : Prop := bytes_leb b a = false.

(** [bytes.HasPrefix(k, p)] *)
Fixpoint has_prefix (p k : bytes) : bool :=
  match p, k with
  | [], _ => true
  | x :: p', y :: k' => bool_decide (x = y) && has_prefix p' k'
  | _ :: _, [] => false
  end.

Fixpoint take_while {A} (P : A → bool) (l : list A) : list A :=
  match l with
  | [] => []
  | x :: l' => if P x then x :: take_while P l' else []
  end.

(** The [n] low bytes of [t], most significant first. *)
Fixpoint be_bytes (n : nat) (t : Z) : bytes :=
  match n with
  | O => []
  | S n' => byte_of_Z (Z.shiftr t (8 * Z.of_nat n')) :: be_bytes n' t
  end.

#[global] Instance bytes_le_dec : RelDecision bytes_le :=
  λ a b, bool_eq_dec (bytes_leb a b) true.
#[global] Instance bytes_lt_dec : RelDecision bytes_lt :=
  λ a b, bool_eq_dec (bytes_leb b a) false.

(** The keys of a finite key/value map in ascending byte order. *)
Definition sorted_keys {V} (m : gmap bytes V) : list bytes :=
  merge_sort bytes_le (elements (dom m)).

(* ------------------------------------------------------------------ *)
(** * Automation *)

Create HintDb vault discriminated.
Create Rewrite HintDb vlen.

(** Split every [match]/[if] of a hypothesis or of the goal, then clean up. *)
Ltac go_split :=
  repeat (case_match || simplify_eq/= || destruct_and?).

(** Arithmetic with [div]/[mod] on top of [lia]. *)
Ltac zlia := Z.div_mod_to_equations; nia.

(** Lengths of the byte strings the code builds. *)
Ltac len := autorewrite with vlen in *; simpl in *; try lia.

(* ------------------------------------------------------------------ *)
(** * Bytes *)

Lemma byte_Z_range b : 0 ≤ byte_Z b < 256.
Proof. unfold byte_Z. pose proof (Byte.to_N_bounded b). lia. Qed.

#[global] Instance byte_Z_inj : Inj (=) (=) byte_Z.
Proof.
  intros a b Hab. apply N2Z.inj in Hab.
  pose proof (Byte.of_to_N a) as Ha. rewrite Hab, Byte.of_to_N in Ha. congruence.
Qed.

Lemma byte_Z_of_Z z : byte_Z (byte_of_Z z) = z `mod` 256.
Proof.
  unfold byte_of_Z, byte_Z.
  assert (0 ≤ z `mod` 256 < 256) as Hr by (apply Z.mod_pos_bound; lia).
  destruct (Byte.of_N _) as [b|] eqn:Hb; simpl.
  - apply Byte.to_of_N in Hb. rewrite Hb. lia.
  - apply Byte.of_N_None_iff in Hb. lia.
Qed.

Lemma hex_byte_inj x y : 0 ≤ x < 16 → 0 ≤ y < 16 → hex_byte x = hex_byte y → x = y.
Proof.
  unfold hex_byte. intros Hx Hy He%(f_equal byte_Z). rewrite !byte_Z_of_Z in He.
  destruct (Z.ltb_spec x 10), (Z.ltb_spec y 10); rewrite !Z.mod_small in He by lia; lia.
Qed.

Lemma byte_of_Z_byte_Z b : byte_of_Z (byte_Z b) = b.
Proof.
  apply (inj byte_Z). rewrite byte_Z_of_Z.
  apply Z.mod_small, byte_Z_range.
Qed.

#[export] Hint Resolve byte_Z_range : vault.

(* ------------------------------------------------------------------ *)
(** * Byte-string order *)

Lemma bytes_leb_refl a : bytes_leb a a = true.
Proof.
  induction a as [|x a IH]; simpl; [done|].
  rewrite !(proj2 (Z.ltb_ge _ _)) by lia. done.
Qed.

Lemma bytes_leb_app p a b : bytes_leb (p ++ a) (p ++ b) = bytes_leb a b.
Proof.
  induction p as [|x p IH]; simpl; [done|].
  rewrite !(proj2 (Z.ltb_ge _ _)) by lia. done.
Qed.

#[global] Instance bytes_le_preorder : PreOrder bytes_le.
Proof.
  split; [intros a; apply bytes_leb_refl|].
  intros a; unfold bytes_le; induction a as [|x a IH]; intros [|y b] [|z c] H1 H2;
    simpl in *; try done.
  repeat case_match; rewrite ?Z.ltb_lt, ?Z.ltb_ge in *; try done; try lia.
  eapply IH; eauto.
Qed.

#[global] Instance bytes_le_antisymm : AntiSymm (=) bytes_le.
Proof.
  intros a; unfold bytes_le; induction a as [|x a IH]; intros [|y b] H1 H2; simpl in *; try done.
  repeat case_match; rewrite ?Z.ltb_lt, ?Z.ltb_ge in *; try done; try lia.
  f_equal; [apply (inj byte_Z); lia|eauto].
Qed.

#[global] Instance bytes_le_total : Total bytes_le.
Proof.
  intros a; unfold bytes_le; induction a as [|x a IH]; intros [|y b]; simpl; auto.
  repeat case_match; rewrite ?Z.ltb_lt, ?Z.ltb_ge in *; auto; lia.
Qed.

Lemma bytes_lt_alt a b : bytes_lt a b ↔ bytes_le a b ∧ a ≠ b.
Proof.
  unfold bytes_lt, bytes_le. split.
  - intros H. split.
    + destruct (total bytes_le a b) as [|Hb]; [done|]. unfold bytes_le in Hb. congruence.
    + intros ->. by rewrite bytes_leb_refl in H.
  - intros [H Hne]. destruct (bytes_leb b a) eqn:Hb; [|done].
    destruct Hne. by apply (anti_symm bytes_le).
Qed.

Lemma bytes_not_le a b : ¬ bytes_le a b ↔ bytes_lt b a.
Proof. unfold bytes_le, bytes_lt. destruct (bytes_leb a b); naive_solver. Qed.

#[global] Instance bytes_lt_strict : StrictOrder bytes_lt.
Proof.
  split.
  - intros a. unfold complement. rewrite bytes_lt_alt. naive_solver.
  - intros a b c. rewrite !bytes_lt_alt. intros [H1 N1] [H2 N2]. split; [by etrans|].
    intros ->. destruct N1. by apply (anti_symm bytes_le).
Qed.

Lemma bytes_lt_le a b : bytes_lt a b → bytes_le a b.
Proof. rewrite bytes_lt_alt. tauto. Qed.

Lemma bytes_lt_le_trans a b c : bytes_lt a b → bytes_le b c → bytes_lt a c.
Proof.
  rewrite !bytes_lt_alt. intros [H1 N] H2. split; [by etrans|].
  intros ->. destruct N. by apply (anti_symm bytes_le).
Qed.

Lemma bytes_le_nil a : bytes_le [] a.
Proof. done. Qed.

Lemma bytes_le_app_r p a : bytes_le p (p ++ a).
Proof. rewrite <-(app_nil_r p) at 1. unfold bytes_le. by rewrite bytes_leb_app. Qed.

Lemma bytes_le_take n p a : bytes_le (take n p) (p ++ a).
Proof. rewrite <-(take_drop n p) at 2. rewrite <-app_assoc. apply bytes_le_app_r. Qed.

Lemma bytes_lt_app p a b : bytes_lt (p ++ a) (p ++ b) ↔ bytes_lt a b.
Proof. unfold bytes_lt. by rewrite bytes_leb_app. Qed.

(** Two strings of the same length compare by their heads first. *)
Lemma bytes_lt_app_same_length p q a b :
  length p = length q → bytes_lt p q → bytes_lt (p ++ a) (q ++ b).
Proof.
  unfold bytes_lt. revert q; induction p as [|x p IH]; intros [|y q] Hl; simpl in *; try done.
  intros H. repeat case_match; rewrite ?Z.ltb_lt, ?Z.ltb_ge in *; try done. apply IH; [lia|done].
Qed.

#[export] Hint Resolve bytes_le_nil bytes_le_app_r bytes_lt_le : vault.

(* ------------------------------------------------------------------ *)
(** * Prefixes *)

Lemma has_prefix_spec p k : has_prefix p k = true ↔ ∃ r, k = p ++ r.
Proof.
  revert k; induction p as [|x p IH]; intros k; simpl; [naive_solver|].
  destruct k as [|y k]; simpl; [naive_solver|].
  rewrite andb_true_iff, bool_decide_eq_true, IH. naive_solver.
Qed.

Lemma has_prefix_app p r : has_prefix p (p ++ r) = true.
Proof. apply has_prefix_spec; eauto. Qed.

Lemma has_prefix_le p k : has_prefix p k = true → bytes_le p k.
Proof. rewrite has_prefix_spec. intros [r ->]. auto with vault. Qed.

(** The keys with a given prefix are contiguous in the order. *)
Lemma has_prefix_convex p k k' :
  bytes_le p k → bytes_le k k' → has_prefix p k' = true → has_prefix p k = true.
Proof.
  rewrite has_prefix_spec. intros Hp Hk [r ->].
  revert k Hp Hk; induction p as [|x p IH]; intros [|y k]; unfold bytes_le; simpl; try done.
  intros H1 H2. repeat case_match; rewrite ?Z.ltb_lt, ?Z.ltb_ge in *; try done; try lia.
  assert (x = y) as -> by (apply (inj byte_Z); lia).
  rewrite bool_decide_true by done. apply IH; done.
Qed.

(** Prefixes of the same length are equal or disjoint. *)
Lemma has_prefix_inj p q k :
  length p = length q → has_prefix p k = true → has_prefix q k = true → p = q.
Proof.
  rewrite !has_prefix_spec. intros Hl [r ->] [r' Heq].
  by apply app_inj_1 in Heq as [? _].
Qed.

#[export] Hint Resolve has_prefix_app has_prefix_le : vault.

Lemma filter_none {A} (P : A → Prop) `{!∀ x, Decision (P x)} (l : list A) :
  Forall (λ x, ¬ P x) l → filter P l = [].
Proof. induction 1; [done|]. rewrite filter_cons. by rewrite decide_False. Qed.

Lemma filter_all {A} (P : A → Prop) `{!∀ x, Decision (P x)} (l : list A) :
  Forall P l → filter P l = l.
Proof. induction 1 as [|x l Hx _ IH]; [done|]. rewrite filter_cons, decide_True by done. by rewrite IH. Qed.

(** Over sorted keys that start at or after the prefix, stopping at the first
    key outside the prefix loses nothing. *)
Lemma elem_of_take_while {A} (P : A → bool) (l : list A) x :
  x ∈ take_while P l → x ∈ l ∧ P x = true.
Proof.
  induction l as [|y l IH]; simpl; [by intros ?%not_elem_of_nil|].
  destruct (P y) eqn:Hy; [|by intros ?%not_elem_of_nil].
  intros [->|Hx]%elem_of_cons; [by split; [left|]|]. apply IH in Hx as [??]. by split; [right|].
Qed.

Lemma some_of_bool {A} (o : option A) : (if o is Some _ then true else false) = true → ∃ a, o = Some a.
Proof. destruct o; [eauto|done]. Qed.

Lemma ok_of_bool {A} (o : outcome A) : (if o is Ok _ then true else false) = true → ∃ a, o = Ok a.
Proof. destruct o; [eauto|done..]. Qed.

Lemma geb_true a b : b ≤ a → (a >=? b) = true.
Proof. intros. by rewrite Z.geb_leb, Z.leb_le. Qed.

Lemma geb_false a b : a < b → (a >=? b) = false.
Proof. intros. by rewrite Z.geb_leb, Z.leb_gt. Qed.

Lemma take_while_filter_sorted p (l : list bytes) k0 :
  StronglySorted bytes_le l → Forall (bytes_le k0) l → bytes_le p k0 →
  take_while (has_prefix p) l = filter (λ k, has_prefix p k = true) l.
Proof.
  intros Hs Hk0 Hp; induction Hs as [|k l Hs IH Hall]; [done|].
  apply Forall_cons in Hk0 as [Hk Hl]. rewrite filter_cons; cbn [take_while].
  destruct (decide (has_prefix p k = true)) as [Hpk|Hpk].
  - rewrite Hpk. f_equal. auto.
  - rewrite (not_true_is_false _ Hpk). symmetry. apply filter_none.
    apply Forall_forall. intros k' Hk' Hpk'.
    rewrite Forall_forall in Hall. specialize (Hall _ Hk').
    destruct Hpk.
    eapply (has_prefix_convex p k k'); [by etrans|done|done].
Qed.

(* ------------------------------------------------------------------ *)
(** * Copies into fixed-size buffers *)

(** [src] cut or zero-padded to [n] bytes: what a [copy] into a fresh
    [n]-byte buffer leaves there. *)
Definition fit (n : nat) (src : bytes) : bytes :=
  take n src ++ zeros (n - length src).

Lemma length_zeros n : length (zeros n) = n.
Proof. apply length_replicate. Qed.

Lemma length_fit n src : length (fit n src) = n.
Proof. unfold fit. rewrite length_app, length_take, length_zeros. lia. Qed.

Lemma length_copy_at dst off src :
  (off ≤ length dst)%nat → length (copy_at dst off src) = length dst.
Proof. intros H. unfold copy_at. rewrite !length_app, !length_take, length_drop. lia. Qed.

Lemma length_set_byte k i b : length (set_byte k i b) = length k.
Proof. apply length_insert. Qed.

#[export] Hint Rewrite length_zeros length_fit length_set_byte
  @length_app @length_take @length_drop @length_cons : vlen.

Lemma fit_exact n src : length src = n → fit n src = src.
Proof.
  intros <-. unfold fit, zeros. rewrite Nat.sub_diag, take_ge by lia.
  by rewrite app_nil_r.
Qed.

Lemma fit_fit n src : fit n (fit n src) = fit n src.
Proof. apply fit_exact, length_fit. Qed.

Lemma copy_at_zeros p n src :
  copy_at (p ++ zeros n) (length p) src = p ++ fit n src.
Proof.
  unfold copy_at, fit. rewrite length_app, length_zeros, take_app_length.
  f_equal. f_equal.
  - replace (length p + n - length p)%nat with n by lia.
    destruct (decide (n ≤ length src)%nat).
    + rewrite Nat.min_l by lia. done.
    + rewrite Nat.min_r, !take_ge by lia. done.
  - rewrite <-drop_drop, drop_app_length. unfold zeros. rewrite drop_replicate. f_equal. lia.
Qed.

Lemma copy_zeros n src : copy_at (zeros n) 0 src = fit n src.
Proof. apply (copy_at_zeros []). Qed.

(* ------------------------------------------------------------------ *)
(** * Big-endian timestamps *)

Lemma length_be_bytes n t : length (be_bytes n t) = n.
Proof. induction n; simpl; congruence. Qed.

#[export] Hint Rewrite length_be_bytes : vlen.

Lemma shiftr_mod_256 n t :
  Z.shiftr t (8 * Z.of_nat n) `mod` 256 = (t `mod` 2 ^ (8 * Z.of_nat (S n))) `div` 2 ^ (8 * Z.of_nat n).
Proof.
  rewrite Z.shiftr_div_pow2 by lia.
  replace (8 * Z.of_nat (S n)) with (8 * Z.of_nat n + 8) by lia.
  rewrite Z.pow_add_r by lia. change (2 ^ 8) with 256.
  assert (0 < 2 ^ (8 * Z.of_nat n)) by (apply Z.pow_pos_nonneg; lia).
  rewrite Z.rem_mul_r by lia.
  rewrite (Z.mul_comm (2 ^ (8 * Z.of_nat n))), Z.div_add by lia.
  rewrite (Z.div_small (t `mod` _)) by (apply Z.mod_pos_bound; lia). lia.
Qed.

Lemma be_bytes_mod n t : be_bytes n (t `mod` 2 ^ (8 * Z.of_nat n)) = be_bytes n t.
Proof.
  assert (∀ m, (n ≤ m)%nat → be_bytes n (t `mod` 2 ^ (8 * Z.of_nat m)) = be_bytes n t) as H; [|by apply H].
  intros m; induction n as [|n IH]; intros Hnm; [done|]. cbn [be_bytes]. f_equal.
  - apply (inj byte_Z). rewrite !byte_Z_of_Z, !shiftr_mod_256. f_equal.
    replace (8 * Z.of_nat m) with (8 * Z.of_nat (S n) + 8 * Z.of_nat (m - S n)) by lia.
    rewrite Z.pow_add_r by lia.
    assert (0 < 2 ^ (8 * Z.of_nat (S n))) by (apply Z.pow_pos_nonneg; lia).
    assert (0 < 2 ^ (8 * Z.of_nat (m - S n))) by (apply Z.pow_pos_nonneg; lia).
    rewrite Z.rem_mul_r by lia.
    rewrite (Z.mul_comm (2 ^ (8 * Z.of_nat (S n)))), Z.mod_add, Z.mod_mod by lia. done.
  - apply IH. lia.
Qed.

(** Big-endian encoding is strictly monotone, so byte order is time order. *)
Lemma be_bytes_lt n a b :
  0 ≤ a < b → b < 2 ^ (8 * Z.of_nat n) → bytes_lt (be_bytes n a) (be_bytes n b).
Proof.
  revert a b; induction n as [|n IH]; intros a b Hab Hb.
  { change (2 ^ (8 * Z.of_nat 0)) with 1 in Hb. lia. }
  assert (0 < 2 ^ (8 * Z.of_nat n)) as Hpos by (apply Z.pow_pos_nonneg; lia).
  unfold bytes_lt. cbn [be_bytes bytes_leb].
  rewrite !byte_Z_of_Z, !shiftr_mod_256, !(Z.mod_small _ (2 ^ _)) by lia.
  set (P := 2 ^ (8 * Z.of_nat n)) in *.
  pose proof (Z.div_le_mono a b P Hpos ltac:(lia)) as Hle.
  rewrite (proj2 (Z.ltb_ge _ _)) by lia.
  destruct (a `div` P <? b `div` P) eqn:Hlt; [done|]. apply Z.ltb_ge in Hlt.
  rewrite <-(be_bytes_mod n a), <-(be_bytes_mod n b). fold P.
  apply IH; pose proof (Z.mod_pos_bound a P Hpos); pose proof (Z.mod_pos_bound b P Hpos);
    pose proof (Z.div_mod a P); pose proof (Z.div_mod b P); nia.
Qed.

Lemma be_bytes_inj n a b :
  0 ≤ a < 2 ^ (8 * Z.of_nat n) → 0 ≤ b < 2 ^ (8 * Z.of_nat n) →
  be_bytes n a = be_bytes n b → a = b.
Proof.
  intros Ha Hb Heq. destruct (Z.lt_trichotomy a b) as [H|[H|H]]; [|done|].
  - destruct (irreflexivity bytes_lt (be_bytes n b)). rewrite <-Heq at 1. apply be_bytes_lt; lia.
  - destruct (irreflexivity bytes_lt (be_bytes n a)). rewrite Heq at 1. apply be_bytes_lt; lia.
Qed.

(* ------------------------------------------------------------------ *)
(** * Sorted keys of a map *)

Section sorted_keys.
Context {V : Type}.
Implicit Types m : gmap bytes V.

Lemma sorted_keys_sorted m : StronglySorted bytes_le (sorted_keys m).
Proof. apply (StronglySorted_merge_sort _); apply _. Qed.

Lemma elem_of_sorted_keys m k : k ∈ sorted_keys m ↔ is_Some (m !! k).
Proof.
  unfold sorted_keys. rewrite (merge_sort_Permutation _ _).
  by rewrite elem_of_elements, elem_of_dom.
Qed.

Lemma NoDup_sorted_keys m : NoDup (sorted_keys m).
Proof. unfold sorted_keys. rewrite (merge_sort_Permutation _ _). apply NoDup_elements. Qed.

(** The sorted, duplicate-free list with given members is unique. *)
Lemma sorted_keys_unique m (l : list bytes) :
  StronglySorted bytes_le l → NoDup l → (∀ k, k ∈ l ↔ is_Some (m !! k)) → l = sorted_keys m.
Proof.
  intros Hs Hn Hl. apply (StronglySorted_unique bytes_le); [done|apply sorted_keys_sorted|].
  apply NoDup_Permutation; [done|apply NoDup_sorted_keys|].
  intros k. by rewrite Hl, elem_of_sorted_keys.
Qed.

Lemma StronglySorted_filter (P : bytes → Prop) `{!∀ x, Decision (P x)} (l : list bytes) :
  StronglySorted bytes_le l → StronglySorted bytes_le (filter P l).
Proof.
  induction 1 as [|k l Hs IH Hall]; [constructor|]. rewrite filter_cons.
  destruct (decide (P k)); [|done]. constructor; [done|].
  rewrite Forall_forall in *. intros k' [_ Hk']%list_elem_of_filter. auto.
Qed.
End sorted_keys.

(* ------------------------------------------------------------------ *)
(** * Finite maps *)

Section maps.
Context {A : Type}.
Implicit Types (f : A → nat) (m : gmap bytes A).

(** The sum of a measure over a map. *)
Definition map_sum f m : nat := map_fold (λ _ a n, f a + n)%nat 0%nat m.

Lemma map_sum_delete f m k a : m !! k = Some a → map_sum f m = (f a + map_sum f (delete k m))%nat.
Proof. intros Hk. unfold map_sum. apply (map_fold_delete_L (λ _ a n, f a + n)%nat 0%nat k a m); [intros; lia|done]. Qed.

Lemma map_sum_insert f m k a a' :
  m !! k = Some a → (map_sum f (<[k:=a']> m) + f a = map_sum f m + f a')%nat.
Proof.
  intros Hk. rewrite (map_sum_delete f m k a Hk), (map_sum_delete f (<[k:=a']> m) k a') by apply lookup_insert_eq.
  rewrite delete_insert_eq. lia.
Qed.

(** Everywhere [P], or somewhere [Q]. *)
Lemma map_Forall_or_exists (P Q : bytes → A → Prop) m :
  (∀ k a, m !! k = Some a → P k a ∨ Q k a) → map_Forall P m ∨ ∃ k a, m !! k = Some a ∧ Q k a.
Proof.
  induction m as [|k a m Hk IH] using map_ind; intros Hall; [left; apply map_Forall_empty|].
  destruct (Hall k a) as [HP|HQ]; [by rewrite lookup_insert_eq| |right; exists k, a; by rewrite lookup_insert_eq].
  destruct IH as [Hm|(k' & a' & Hk' & HQ)].
  - intros k' a' Hk'. apply Hall. rewrite lookup_insert_ne; [done|congruence].
  - left. by apply map_Forall_insert_2.
  - right. exists k', a'. rewrite lookup_insert_ne; [done|congruence].
Qed.
End maps.
