(* ===== verification/Lts.v ===== *)
(** Labelled transition systems: what the files that interleave goroutines
    share.

    A system is an executable partial step function; a label says which
    goroutine moves and what the environment supplies, so that a list of
    labels is a schedule.  [play] runs a schedule; the lemmas carry an
    invariant along it, bound its length by a measure, and extend it until
    nothing can move. *)
From S2P Require Import Prelude.

Section lts.
Context {S L : Type} (step : L → S → option S).

Fixpoint play (ls : list L) (s : S) : option S :=
  match ls with
  | [] => Some s
  | l :: ls => s ← step l s; play ls s
  end.

Lemma play_app ls ls' s : play (ls ++ ls') s = (s' ← play ls s; play ls' s').
Proof.
  revert s; induction ls as [|l ls IH]; intros s; simpl; [done|].
  destruct (step l s) as [s'|]; simpl; [apply IH|done].
Qed.

Lemma play_one l s : play [l] s = step l s.
Proof. simpl. by destruct (step l s). Qed.

(** The rest of a schedule starts where its beginning ends. *)
Lemma play_rest ls ls' s s1 r : play ls s = Some s1 → play (ls ++ ls') s = r → play ls' s1 = r.
Proof. intros Hs. by rewrite play_app, Hs. Qed.

(** What the labels [ok] allow preserves [I]. *)
Definition preserved (ok : S → L → Prop) (I : S → Prop) : Prop :=
  ∀ l s s', I s → ok s l → step l s = Some s' → I s'.

Lemma play_invariant (ok : L → Prop) (I : S → Prop) ls s s' :
  preserved (λ _, ok) I → Forall ok ls → I s → play ls s = Some s' → I s'.
Proof.
  intros HI Hls. revert s; induction Hls as [|l ls Hl _ IH]; intros s Hs; simpl; [by intros [= <-]|].
  destruct (step l s) as [s1|] eqn:Hstep; [|done]. simpl. eapply IH, HI; done.
Qed.

(** A schedule each of whose labels [ok] allows where it is played. *)
Fixpoint allowed (ok : S → L → Prop) (ls : list L) (s : S) : Prop :=
  match ls with
  | [] => True
  | l :: ls => ok s l ∧ ∀ s', step l s = Some s' → allowed ok ls s'
  end.

Lemma play_allowed (ok : S → L → Prop) (I : S → Prop) ls s s' :
  preserved ok I → allowed ok ls s → I s → play ls s = Some s' → I s'.
Proof.
  intros HI. revert s; induction ls as [|l ls IH]; intros s; simpl; [by intros _ ? [= <-]|].
  intros [Hl Hls] Hs. destruct (step l s) as [s1|] eqn:Hstep; [|done]. simpl.
  apply IH; [by apply Hls|]. by eapply HI.
Qed.

Lemma allowed_app (ok : S → L → Prop) ls ls' s s1 :
  play ls s = Some s1 → allowed ok ls s → allowed ok ls' s1 → allowed ok (ls ++ ls') s.
Proof.
  revert s; induction ls as [|l ls IH]; intros s; simpl; [by intros [= ->]|].
  destruct (step l s) as [s2|]; [|done]. simpl. intros Hp [Hl Hls] Hls'. split; [done|].
  intros s' [= <-]. by apply IH; [|apply Hls|].
Qed.

Lemma allowed_prefix (ok : S → L → Prop) ls ls' s : allowed ok (ls ++ ls') s → allowed ok ls s.
Proof.
  revert s; induction ls as [|l ls IH]; intros s; simpl; [done|]. intros [Hl Hls]. split; [done|].
  intros s' Hs. by eapply IH, Hls.
Qed.

Lemma allowed_under (ok : S → L → Prop) (ok' : L → Prop) (J : S → Prop) ls s :
  preserved (λ _ _, True) J → (∀ s l, J s → ok' l → ok s l) → Forall ok' ls → J s → allowed ok ls s.
Proof.
  intros HJ Hok Hls. revert s; induction Hls as [|l ls Hl _ IH]; intros s Hs; simpl; [done|].
  split; [by apply Hok|]. intros s' Hstep. by eapply IH, HJ.
Qed.

Lemma play_forever (I : S → Prop) ls s s' :
  preserved (λ _ _, True) I → I s → play ls s = Some s' → I s'.
Proof. intros HI. apply (play_invariant (λ _, True)); [done|]. by apply Forall_true. Qed.

(** If every move lowers [μ], a schedule is no longer than [μ] of its start. *)
Lemma play_bounded (ok : L → Prop) (I : S → Prop) (μ : S → nat) ls s s' :
  preserved (λ _, ok) I →
  (∀ l s s', ok l → I s → step l s = Some s' → (μ s' < μ s)%nat) →
  Forall ok ls → I s → play ls s = Some s' → (length ls + μ s' ≤ μ s)%nat.
Proof.
  intros HI Hμ Hls. revert s; induction Hls as [|l ls Hl _ IH]; intros s Hs; simpl; [by intros [= ->]|].
  destruct (step l s) as [s1|] eqn:Hstep; [|done]. simpl. intros Hp.
  specialize (IH s1 (HI _ _ _ Hs Hl Hstep) Hp). specialize (Hμ _ _ _ Hl Hs Hstep). lia.
Qed.

(** Moving for as long as anything can move. *)
Lemma play_to_rest (ok : L → Prop) (I R : S → Prop) (μ : S → nat) s :
  preserved (λ _, ok) I →
  (∀ l s s', ok l → I s → step l s = Some s' → (μ s' < μ s)%nat) →
  (∀ s, I s → R s ∨ ∃ l s', ok l ∧ step l s = Some s') →
  I s → ∃ ls s', Forall ok ls ∧ play ls s = Some s' ∧ I s' ∧ R s'.
Proof.
  intros HI Hμ Hprog. remember (μ s) as n eqn:Hn. revert s Hn.
  induction (Nat.lt_wf_0 n) as [n _ IH]. intros s -> Hs.
  destruct (Hprog s Hs) as [HR|(l & s1 & Hl & Hstep)]; [by exists [], s|].
  destruct (IH (μ s1) (Hμ _ _ _ Hl Hs Hstep) s1 eq_refl (HI _ _ _ Hs Hl Hstep))
    as (ls & s' & Hls & Hp & HR).
  exists (l :: ls), s'. split; [by constructor|]. simpl. by rewrite Hstep.
Qed.
End lts.
