(* ===== verification/Json.v ===== *)
(** What [config/config.go] uses of [encoding/json]: the values of a JSON
    text, their indented form, and back.

    [parse] is the reading half of [json.Unmarshal], [print] is
    [json.MarshalIndent] with no prefix and two spaces.  A number stays the
    text it is in the input, as Go decodes it only when it knows the type of
    the field.  Strings are bytes: reading replaces what is not UTF-8, as
    [unquote] does. *)
From S2P Require Import Prelude.

#[local] Unset Elimination Schemes.
Inductive json :=
  | JNull
  | JBool (b : bool)
  | JNum (raw : bytes)
  | JStr (s : bytes)
  | JArr (l : list json)
  | JObj (kvs : list (bytes * json)).
#[local] Set Elimination Schemes.

(* ------------------------------------------------------------------ *)
(** * Reading *)

Definition is_space (b : byte) : bool :=
  match b with x20 | x09 | x0a | x0d => true | _ => false end.

Fixpoint skip_ws (s : bytes) : bytes :=
  match s with b :: r => if is_space b then skip_ws r else s | [] => [] end.

Definition in_range (lo hi : Z) (b : byte) : bool := (lo <=? byte_Z b) && (byte_Z b <=? hi).
Definition is_digit : byte → bool := in_range 48 57.

(** ** Strings *)

Definition hex_digit (b : byte) : option Z :=
  if is_digit b then Some (byte_Z b - 48)
  else if in_range 97 102 b then Some (byte_Z b - 87)
  else if in_range 65 70 b then Some (byte_Z b - 55)
  else None.

Definition hex4 (a b c d : byte) : option Z :=
  a ← hex_digit a; b ← hex_digit b; c ← hex_digit c; d ← hex_digit d;
  Some (((a * 16 + b) * 16 + c) * 16 + d).

Definition utf8_encode (r : Z) : bytes :=
  if r <? 128 then [byte_of_Z r]
  else if r <? 2048 then [byte_of_Z (192 + r / 64); byte_of_Z (128 + r `mod` 64)]
  else if r <? 65536 then
    [byte_of_Z (224 + r / 4096); byte_of_Z (128 + (r / 64) `mod` 64); byte_of_Z (128 + r `mod` 64)]
  else [byte_of_Z (240 + r / 262144); byte_of_Z (128 + (r / 4096) `mod` 64);
        byte_of_Z (128 + (r / 64) `mod` 64); byte_of_Z (128 + r `mod` 64)].

(** The replacement character, U+FFFD. *)
Definition replacement : bytes := [xef; xbf; xbd].

Definition is_cont : byte → bool := in_range 128 191.

(** The second byte of a sequence after [b1], per the table of [unicode/utf8]. *)
Definition two_ok (b1 b2 : byte) : bool := in_range 194 223 b1 && is_cont b2.
Definition three_ok (b1 b2 b3 : byte) : bool :=
  in_range 224 239 b1 && is_cont b3 &&
  (if byte_Z b1 =? 224 then in_range 160 191 b2
   else if byte_Z b1 =? 237 then in_range 128 159 b2 else is_cont b2).
Definition four_ok (b1 b2 b3 b4 : byte) : bool :=
  in_range 240 244 b1 && is_cont b3 && is_cont b4 &&
  (if byte_Z b1 =? 240 then in_range 144 191 b2
   else if byte_Z b1 =? 244 then in_range 128 143 b2 else is_cont b2).

(** Every byte that does not belong to a valid sequence is replaced. *)
Fixpoint to_utf8 (s : bytes) : bytes :=
  match s with
  | [] => []
  | b1 :: r1 =>
      if byte_Z b1 <? 128 then b1 :: to_utf8 r1
      else match r1 with
           | b2 :: r2 =>
               if two_ok b1 b2 then b1 :: b2 :: to_utf8 r2
               else match r2 with
                    | b3 :: r3 =>
                        if three_ok b1 b2 b3 then b1 :: b2 :: b3 :: to_utf8 r3
                        else match r3 with
                             | b4 :: r4 =>
                                 if four_ok b1 b2 b3 b4 then b1 :: b2 :: b3 :: b4 :: to_utf8 r4
                                 else replacement ++ to_utf8 r1
                             | [] => replacement ++ to_utf8 r1
                             end
                    | [] => replacement ++ to_utf8 r1
                    end
           | [] => replacement ++ to_utf8 r1
           end
  end.

(** The rune of a [\u] escape; of a surrogate pair, if [hi] and [lo] are one. *)
Definition surrogate_pair (hi lo : Z) : option Z :=
  if (55296 <=? hi) && (hi <? 56320) && (56320 <=? lo) && (lo <? 57344)
  then Some ((hi - 55296) * 1024 + (lo - 56320) + 65536) else None.
Definition is_surrogate (r : Z) : bool := (55296 <=? r) && (r <? 57344).

Definition escape (b : byte) : option byte :=
  match b with
  | x22 | x5c | x2f => Some b
  | x62 => Some x08 | x66 => Some x0c | x6e => Some x0a | x72 => Some x0d | x74 => Some x09
  | _ => None
  end.

(** A string after its opening quote, escapes resolved, and the input after
    its closing quote. *)
Fixpoint string_body (s : bytes) : option (bytes * bytes) :=
  match s with
  | [] => None
  | x22 :: r => Some ([], r)
  | x5c :: x75 :: a :: b :: c :: d :: r =>
      u ← hex4 a b c d;
      if is_surrogate u then
        match r with
        | x5c :: x75 :: a' :: b' :: c' :: d' :: r' =>
            match (u' ← hex4 a' b' c' d'; surrogate_pair u u') with
            | Some z => '(t, rest) ← string_body r'; Some (utf8_encode z ++ t, rest)
            | None => '(t, rest) ← string_body r; Some (replacement ++ t, rest)
            end
        | _ => '(t, rest) ← string_body r; Some (replacement ++ t, rest)
        end
      else '(t, rest) ← string_body r; Some (utf8_encode u ++ t, rest)
  | x5c :: e :: r => e ← escape e; '(t, rest) ← string_body r; Some (e :: t, rest)
  | b :: r =>
      if byte_Z b <? 32 then None
      else '(t, rest) ← string_body r; Some (b :: t, rest)
  end.

Definition parse_string (s : bytes) : option (bytes * bytes) :=
  '(t, rest) ← string_body s; Some (to_utf8 t, rest).

(** ** Numbers *)

Definition num_char (b : byte) : bool :=
  is_digit b || match b with x2b | x2d | x2e | x65 | x45 => true | _ => false end.

Fixpoint span (P : byte → bool) (s : bytes) : bytes * bytes :=
  match s with
  | b :: r => if P b then let (p, q) := span P r in (b :: p, q) else ([], s)
  | [] => ([], [])
  end.

Definition valid_exp (s : bytes) : bool :=
  match s with
  | x65 :: r | x45 :: r =>
      let r := match r with x2b :: r' | x2d :: r' => r' | _ => r end in
      match span is_digit r with (_ :: _, []) => true | _ => false end
  | [] => true
  | _ => false
  end.

Definition valid_frac (s : bytes) : bool :=
  match s with
  | x2e :: r => match span is_digit r with (_ :: _, r) => valid_exp r | _ => false end
  | _ => valid_exp s
  end.

Definition valid_number (s : bytes) : bool :=
  let s := match s with x2d :: r => r | _ => s end in
  match s with
  | x30 :: r => valid_frac r
  | _ => match span is_digit s with (_ :: _, r) => valid_frac r | _ => false end
  end.

(** ** Values *)

(** [maxNestingDepth] *)
Definition max_depth : Z := 10000.

(** The next token is the byte [b]. *)
Definition starts (b : byte) (s : bytes) : bool :=
  match skip_ws s with b' :: _ => bool_decide (b' = b) | [] => false end.

Fixpoint parse_value (fuel : nat) (depth : Z) (s : bytes) : option (json * bytes) :=
  match fuel with
  | O => None
  | S fuel =>
      match skip_ws s with
      | x7b :: r =>
          if max_depth <=? depth then None
          else if starts x7d r then Some (JObj [], tail (skip_ws r))
          else '(kvs, r) ← parse_members fuel (depth + 1) r; Some (JObj kvs, r)
      | x5b :: r =>
          if max_depth <=? depth then None
          else if starts x5d r then Some (JArr [], tail (skip_ws r))
          else '(l, r) ← parse_elements fuel (depth + 1) r; Some (JArr l, r)
      | x22 :: r => '(t, r) ← parse_string r; Some (JStr t, r)
      | x74 :: x72 :: x75 :: x65 :: r => Some (JBool true, r)
      | x66 :: x61 :: x6c :: x73 :: x65 :: r => Some (JBool false, r)
      | x6e :: x75 :: x6c :: x6c :: r => Some (JNull, r)
      | s => let (raw, r) := span num_char s in
             if valid_number raw then Some (JNum raw, r) else None
      end
  end
with parse_members (fuel : nat) (depth : Z) (s : bytes) : option (list (bytes * json) * bytes) :=
  match fuel with
  | O => None
  | S fuel =>
      match skip_ws s with
      | x22 :: r =>
          '(k, r) ← parse_string r;
          match skip_ws r with
          | x3a :: r =>
              '(v, r) ← parse_value fuel depth r;
              match skip_ws r with
              | x2c :: r => '(kvs, r) ← parse_members fuel depth r; Some ((k, v) :: kvs, r)
              | x7d :: r => Some ([(k, v)], r)
              | _ => None
              end
          | _ => None
          end
      | _ => None
      end
  end
with parse_elements (fuel : nat) (depth : Z) (s : bytes) : option (list json * bytes) :=
  match fuel with
  | O => None
  | S fuel =>
      '(v, r) ← parse_value fuel depth s;
      match skip_ws r with
      | x2c :: r => '(l, r) ← parse_elements fuel depth r; Some (v :: l, r)
      | x5d :: r => Some ([v], r)
      | _ => None
      end
  end.

(** A JSON text: one value and nothing but space around it. *)
Definition parse (s : bytes) : option json :=
  '(v, r) ← parse_value (2 * length s + 2) 0 s;
  match skip_ws r with [] => Some v | _ => None end.

(* ------------------------------------------------------------------ *)
(** * Writing *)

(** How a byte of a string is written, [<], [>] and [&] escaped for HTML. *)
Definition quote_byte (b : byte) : bytes :=
  match b with
  | x22 => [x5c; x22]
  | x5c => [x5c; x5c]
  | x0a => [x5c; x6e]
  | x0d => [x5c; x72]
  | x09 => [x5c; x74]
  | _ =>
      if (byte_Z b <? 32) || match b with x3c | x3e | x26 => true | _ => false end
      then [x5c; x75; x30; x30; hex_byte (byte_Z b / 16); hex_byte (byte_Z b `mod` 16)]
      else [b]
  end.

(** The line separators U+2028 and U+2029. *)
Definition line_separator (b1 b2 b3 : byte) : bool :=
  (byte_Z b1 =? 226) && (byte_Z b2 =? 128) && in_range 168 169 b3.

(** The line separators are escaped too; a byte that belongs to no valid
    sequence is written as the escape of the replacement character. *)
Fixpoint quote_bytes (s : bytes) : bytes :=
  match s with
  | [] => []
  | b1 :: r1 =>
      if byte_Z b1 <? 128 then quote_byte b1 ++ quote_bytes r1
      else match r1 with
           | b2 :: r2 =>
               if two_ok b1 b2 then b1 :: b2 :: quote_bytes r2
               else match r2 with
                    | b3 :: r3 =>
                        if three_ok b1 b2 b3 then
                          (if line_separator b1 b2 b3
                           then str "\u202" ++ [hex_byte (byte_Z b3 `mod` 16)] else [b1; b2; b3])
                          ++ quote_bytes r3
                        else match r3 with
                             | b4 :: r4 =>
                                 if four_ok b1 b2 b3 b4 then b1 :: b2 :: b3 :: b4 :: quote_bytes r4
                                 else str "\ufffd" ++ quote_bytes r1
                             | [] => str "\ufffd" ++ quote_bytes r1
                             end
                    | [] => str "\ufffd" ++ quote_bytes r1
                    end
           | [] => str "\ufffd" ++ quote_bytes r1
           end
  end.

Definition quote (s : bytes) : bytes := x22 :: quote_bytes s ++ [x22].

(** A new line at indentation [n]. *)
Definition newline (n : nat) : bytes := x0a :: replicate (2 * n) x20.

(** What follows the first element, the first member. *)
Definition elements_tail (p : json → bytes) (n : nat) : list json → bytes :=
  fix go l := match l with [] => [] | v :: l => x2c :: newline (S n) ++ p v ++ go l end.
Definition members_tail (p : json → bytes) (n : nat) : list (bytes * json) → bytes :=
  fix go kvs :=
    match kvs with
    | [] => []
    | (k, v) :: kvs => x2c :: newline (S n) ++ quote k ++ str ": " ++ p v ++ go kvs
    end.

Fixpoint print (n : nat) (j : json) : bytes :=
  match j with
  | JNull => str "null"
  | JBool true => str "true"
  | JBool false => str "false"
  | JNum raw => raw
  | JStr s => quote s
  | JArr [] => str "[]"
  | JArr (v :: l) =>
      x5b :: newline (S n) ++ print (S n) v ++ elements_tail (print (S n)) n l ++ newline n ++ [x5d]
  | JObj [] => str "{}"
  | JObj ((k, v) :: kvs) =>
      x7b :: newline (S n) ++ quote k ++ str ": " ++ print (S n) v ++
      members_tail (print (S n)) n kvs ++ newline n ++ [x7d]
  end.

(* ------------------------------------------------------------------ *)
(** * Reading what was written *)

Fixpoint json_ind (P : json → Prop) (Hn : P JNull) (Hb : ∀ b, P (JBool b)) (Hr : ∀ raw, P (JNum raw))
    (Hs : ∀ s, P (JStr s)) (Ha : ∀ l, Forall P l → P (JArr l))
    (Ho : ∀ kvs, Forall (λ kv, P kv.2) kvs → P (JObj kvs)) (j : json) : P j :=
  match j with
  | JNull => Hn
  | JBool b => Hb b
  | JNum raw => Hr raw
  | JStr s => Hs s
  | JArr l => Ha l ((fix go l := match l return Forall P l with
                                 | [] => Forall_nil_2 _
                                 | v :: l => Forall_cons_2 _ _ _ (json_ind P Hn Hb Hr Hs Ha Ho v) (go l)
                                 end) l)
  | JObj kvs => Ho kvs ((fix go kvs := match kvs return Forall (λ kv, P kv.2) kvs with
                                       | [] => Forall_nil_2 _
                                       | kv :: kvs => Forall_cons_2 _ _ _ (json_ind P Hn Hb Hr Hs Ha Ho kv.2) (go kvs)
                                       end) kvs)
  end.

(** Every byte belongs to a valid UTF-8 sequence. *)
Definition valid_utf8 (s : bytes) : bool := bool_decide (to_utf8 s = s).

(** Texts that survive: UTF-8 strings, numbers that are numbers. *)
Fixpoint printable (j : json) : bool :=
  match j with
  | JNull | JBool _ => true
  | JNum raw => valid_number raw && forallb num_char raw
  | JStr s => valid_utf8 s
  | JArr l => forallb printable l
  | JObj kvs => forallb (λ kv, valid_utf8 kv.1 && printable kv.2) kvs
  end.

Fixpoint height (j : json) : nat :=
  match j with
  | JArr l => S (foldr Nat.max 0 (height <$> l))
  | JObj kvs => S (foldr Nat.max 0 ((λ kv, height kv.2) <$> kvs))
  | _ => 0
  end%nat.

(** The fuel [parse_value] spends. *)
Fixpoint cost (j : json) : nat :=
  match j with
  | JArr l => S (foldr Nat.add 0 ((λ v, S (cost v)) <$> l))
  | JObj kvs => S (foldr Nat.add 0 ((λ kv, S (cost kv.2)) <$> kvs))
  | _ => 1
  end%nat.

(** What can follow a number. *)
Definition delimited (s : bytes) : Prop := match s with [] => True | b :: _ => num_char b = false end.

Lemma string_body_quote_byte b s :
  (byte_Z b <? 128) = true →
  string_body (quote_byte b ++ s) = ('(t, rest) ← string_body s; Some (b :: t, rest)).
Proof. destruct b; first [discriminate|reflexivity]. Qed.

Lemma string_body_high b s :
  (byte_Z b <? 128) = false → string_body (b :: s) = ('(t, rest) ← string_body s; Some (b :: t, rest)).
Proof. destruct b; first [discriminate|reflexivity]. Qed.

Lemma in_range_high lo hi b : in_range lo hi b = true → 128 ≤ lo → (byte_Z b <? 128) = false.
Proof. unfold in_range. lia. Qed.

Lemma two_ok_high b1 b2 : two_ok b1 b2 = true → (byte_Z b2 <? 128) = false.
Proof. unfold two_ok, is_cont. intros [_ H]%andb_true_iff. eapply in_range_high; [done|lia]. Qed.

Lemma three_ok_high b1 b2 b3 :
  three_ok b1 b2 b3 = true → (byte_Z b2 <? 128) = false ∧ (byte_Z b3 <? 128) = false.
Proof. unfold three_ok, is_cont, in_range. intros H. repeat case_match; lia. Qed.

Lemma four_ok_high b1 b2 b3 b4 :
  four_ok b1 b2 b3 b4 = true →
  (byte_Z b2 <? 128) = false ∧ (byte_Z b3 <? 128) = false ∧ (byte_Z b4 <? 128) = false.
Proof. unfold four_ok, is_cont, in_range. intros H. repeat case_match; lia. Qed.

Lemma line_separator_bytes b1 b2 b3 :
  line_separator b1 b2 b3 = true → b1 = xe2 ∧ b2 = x80 ∧ (b3 = xa8 ∨ b3 = xa9).
Proof.
  unfold line_separator, in_range. intros H.
  split; [|split]; [apply (inj byte_Z); vm_compute (byte_Z xe2); lia
    |apply (inj byte_Z); vm_compute (byte_Z x80); lia|].
  destruct (decide (byte_Z b3 = 168)); [left|right]; apply (inj byte_Z); [done|].
  vm_compute (byte_Z xa9); lia.
Qed.

Lemma string_body_separator b3 s :
  b3 = xa8 ∨ b3 = xa9 →
  string_body (str "\u202" ++ [hex_byte (byte_Z b3 `mod` 16)] ++ s)
  = ('(t, rest) ← string_body s; Some (xe2 :: x80 :: b3 :: t, rest)).
Proof. by intros [-> | ->]. Qed.

(** A quoted string reads back with what is not UTF-8 replaced. *)
Lemma string_body_quote s rest :
  string_body (quote_bytes s ++ x22 :: rest) = Some (to_utf8 s, rest).
Proof.
  induction s as [s IH] using (induction_ltof1 _ length). unfold ltof in IH.
  destruct s as [|b1 r1]; [done|]. cbn [quote_bytes to_utf8].
  assert (string_body ((str "\ufffd" ++ quote_bytes r1) ++ x22 :: rest)
          = Some (replacement ++ to_utf8 r1, rest)) as Hbad.
  { rewrite <-app_assoc. change (str "\ufffd" ++ ?t) with (x5c :: x75 :: x66 :: x66 :: x66 :: x64 :: t).
    cbn [string_body]. change (hex4 x66 x66 x66 x64) with (Some 65533).
    cbn [mbind option_bind is_surrogate]. rewrite IH by (simpl; lia). done. }
  destruct (byte_Z b1 <? 128) eqn:H1.
  { rewrite <-app_assoc, string_body_quote_byte, IH by (simpl; lia || done). done. }
  destruct r1 as [|b2 r2]; [done|]. destruct (two_ok b1 b2) eqn:H2.
  { pose proof (two_ok_high _ _ H2). cbn [app].
    rewrite !string_body_high, IH by (simpl; lia || done). done. }
  destruct r2 as [|b3 r3]; [done|]. destruct (three_ok b1 b2 b3) eqn:H3.
  { pose proof (three_ok_high _ _ _ H3) as [??]. rewrite <-app_assoc.
    destruct (line_separator b1 b2 b3) eqn:Hl.
    - apply line_separator_bytes in Hl as (-> & -> & Hb3).
      rewrite <-app_assoc, string_body_separator, IH by (simpl; lia || done). done.
    - cbn [app]. rewrite !string_body_high, IH by (simpl; lia || done). done. }
  destruct r3 as [|b4 r4]; [done|]. destruct (four_ok b1 b2 b3 b4) eqn:H4; [|done].
  pose proof (four_ok_high _ _ _ _ H4) as (? & ? & ?). cbn [app].
  rewrite !string_body_high, IH by (simpl; lia || done). done.
Qed.

Lemma parse_string_quote s rest :
  valid_utf8 s = true → parse_string (quote_bytes s ++ x22 :: rest) = Some (s, rest).
Proof.
  intros Hs%bool_decide_eq_true. unfold parse_string. rewrite string_body_quote. cbn. by rewrite !Hs.
Qed.

Lemma skip_ws_newline n s : skip_ws (newline n ++ s) = skip_ws s.
Proof. unfold newline. simpl. induction (n + (n + 0))%nat as [|m IH]; [done|]. simpl. done. Qed.

Lemma span_all P (s rest : bytes) :
  forallb P s = true → match rest with [] => True | b :: _ => P b = false end → span P (s ++ rest) = (s, rest).
Proof.
  induction s as [|b s IH]; simpl.
  - intros _. destruct rest as [|b rest]; [done|]. simpl. by intros ->.
  - intros [-> Hs]%andb_true_iff Hr. by rewrite IH.
Qed.

Lemma parse_value_number f d b s :
  num_char b = true →
  parse_value (S f) d (b :: s) =
    let (raw, r) := span num_char (b :: s) in if valid_number raw then Some (JNum raw, r) else None.
Proof. destruct b; first [discriminate|reflexivity]. Qed.

Lemma parse_value_space f d s s' : skip_ws s = skip_ws s' → parse_value f d s = parse_value f d s'.
Proof. intros Hs. destruct f; [done|]. simpl. by rewrite Hs. Qed.

(** A member of an object, up to its value. *)
Lemma parse_member f d n k s :
  valid_utf8 k = true →
  parse_members (S f) d (newline n ++ quote k ++ str ": " ++ s) =
    ('(v, r) ← parse_value f d s;
     match skip_ws r with
     | x2c :: r => '(kvs, r) ← parse_members f d r; Some ((k, v) :: kvs, r)
     | x7d :: r => Some ([(k, v)], r)
     | _ => None
     end).
Proof.
  intros Hk. cbn [parse_members]. rewrite skip_ws_newline. unfold quote. cbn [app skip_ws is_space].
  rewrite <-app_assoc. cbn [app]. rewrite parse_string_quote by done.
  cbn [mbind option_bind]. change (skip_ws (str ": " ++ s)) with (x3a :: x20 :: s).
  cbn match beta. by rewrite (parse_value_space f d (x20 :: s) s).
Qed.

(** [parse_value] reads [j] back, wherever it is. *)
Definition reads (j : json) : Prop := ∀ f d n rest,
  printable j = true → delimited rest → (cost j ≤ f)%nat → d + Z.of_nat (height j) ≤ max_depth →
  parse_value f d (print n j ++ rest) = Some (j, rest).

Lemma members_tail_delimited p n kvs rest : delimited (members_tail p n kvs ++ newline n ++ rest).
Proof. by destruct kvs as [|[k v] kvs]. Qed.

Lemma elements_tail_delimited p n l rest : delimited (elements_tail p n l ++ newline n ++ rest).
Proof. by destruct l. Qed.

Lemma parse_members_print kvs k v f d n rest :
  Forall (λ kv, reads kv.2) ((k, v) :: kvs) → printable (JObj ((k, v) :: kvs)) = true →
  (cost (JObj ((k, v) :: kvs)) ≤ S f)%nat → d + Z.of_nat (height (JObj ((k, v) :: kvs))) ≤ max_depth + 1 →
  parse_members f d (newline (S n) ++ quote k ++ str ": " ++ print (S n) v ++
    members_tail (print (S n)) n kvs ++ newline n ++ x7d :: rest) = Some ((k, v) :: kvs, rest).
Proof.
  revert k v f. induction kvs as [|[k' v'] kvs IH]; intros k v f Hall Hp Hf Hd;
    apply Forall_cons in Hall as [Hv Hall]; simpl in Hv;
    cbn [printable forallb fst snd] in Hp; apply andb_true_iff in Hp as [[Hk Hpv]%andb_true_iff Hp];
    cbn [cost fmap list_fmap foldr snd] in Hf; cbn [height fmap list_fmap foldr snd] in Hd;
    (destruct f as [|f]; [lia|]); rewrite parse_member by done;
    rewrite Hv by (done || apply members_tail_delimited || lia); cbn [mbind option_bind].
  - cbn [members_tail app]. by rewrite skip_ws_newline.
  - cbn [members_tail app skip_ws is_space]. fold (members_tail (print (S n)) n).
    rewrite <-!app_assoc. rewrite IH; [done..|cbn [cost fmap list_fmap foldr snd]; lia|
      cbn [height fmap list_fmap foldr snd]; lia].
Qed.

Lemma parse_elements_print l v f d n rest :
  Forall reads (v :: l) → printable (JArr (v :: l)) = true →
  (cost (JArr (v :: l)) ≤ S f)%nat → d + Z.of_nat (height (JArr (v :: l))) ≤ max_depth + 1 →
  parse_elements f d (newline (S n) ++ print (S n) v ++
    elements_tail (print (S n)) n l ++ newline n ++ x5d :: rest) = Some (v :: l, rest).
Proof.
  revert v f. induction l as [|v' l IH]; intros v f Hall Hp Hf Hd;
    apply Forall_cons in Hall as [Hv Hall];
    cbn [printable forallb] in Hp; apply andb_true_iff in Hp as [Hpv Hp];
    cbn [cost fmap list_fmap foldr] in Hf; cbn [height fmap list_fmap foldr] in Hd;
    (destruct f as [|f]; [lia|]); cbn [parse_elements];
    rewrite (parse_value_space f d _ (print (S n) v ++ elements_tail (print (S n)) n _ ++ newline n ++ x5d :: rest))
      by apply skip_ws_newline;
    rewrite Hv by (done || apply elements_tail_delimited || lia); cbn [mbind option_bind].
  - cbn [elements_tail app]. by rewrite skip_ws_newline.
  - cbn [elements_tail app skip_ws is_space]. fold (elements_tail (print (S n)) n).
    rewrite <-!app_assoc. rewrite IH; [done..|cbn [cost fmap list_fmap foldr]; lia|
      cbn [height fmap list_fmap foldr]; lia].
Qed.

Lemma valid_number_cons raw : valid_number raw = true → raw ≠ [].
Proof. by destruct raw. Qed.

(** No value begins with a closing bracket. *)
Lemma print_starts n j s : printable j = true → starts x5d (print n j ++ s) = false.
Proof.
  destruct j as [|[]|raw|t|[|v l]|[|[k v] kvs]]; try done. cbn [printable].
  intros [Hv Hc]%andb_true_iff. pose proof (valid_number_cons raw Hv). destruct raw as [|b raw]; [done|].
  cbn [print app]. apply andb_true_iff in Hc as [Hb _]. by destruct b.
Qed.

Lemma starts_newline b n s : starts b (newline n ++ s) = starts b s.
Proof. unfold starts. by rewrite skip_ws_newline. Qed.

Lemma reads_all j : reads j.
Proof.
  induction j as [|b|raw|s|l IH|kvs IH] using json_ind; intros f d n rest Hp Hrest Hf Hd;
    (destruct f as [|f]; [cbn [cost] in Hf; lia|]).
  - done.
  - by destruct b.
  - cbn [printable] in Hp. apply andb_true_iff in Hp as [Hv Hc].
    pose proof (valid_number_cons raw Hv). destruct raw as [|b raw]; [done|].
    cbn [print app]. rewrite parse_value_number by (by apply andb_true_iff in Hc as [? _]).
    change (b :: raw ++ rest) with ((b :: raw) ++ rest). rewrite span_all by done. by rewrite Hv.
  - cbn [print]. unfold quote. cbn [app parse_value skip_ws is_space]. rewrite <-app_assoc. cbn [app].
    by rewrite parse_string_quote.
  - assert ((max_depth <=? d) = false) as Hmd by (cbn [height] in Hd; lia).
    destruct l as [|v l]; [cbn [print str app parse_value skip_ws is_space]; by rewrite Hmd|].
    pose proof (parse_elements_print l v f (d + 1) n rest IH Hp Hf ltac:(lia)) as He.
    cbn [print app parse_value skip_ws is_space]. rewrite Hmd, <-!app_assoc, starts_newline.
    rewrite print_starts by (cbn [printable forallb] in Hp; by apply andb_true_iff in Hp as [? _]).
    cbn [app]. by rewrite He.
  - assert ((max_depth <=? d) = false) as Hmd by (cbn [height] in Hd; lia).
    destruct kvs as [|[k v] kvs]; [cbn [print str app parse_value skip_ws is_space]; by rewrite Hmd|].
    pose proof (parse_members_print kvs k v f (d + 1) n rest IH Hp Hf ltac:(lia)) as He.
    cbn [print app parse_value skip_ws is_space]. rewrite Hmd, <-!app_assoc, starts_newline.
    cbn [app]. by rewrite He.
Qed.

(** [parse]'s fuel is enough. *)
Lemma cost_bound n j : printable j = true → (cost j ≤ 2 * length (print n j))%nat.
Proof.
  revert n. induction j as [|b|raw|s|l IH|kvs IH] using json_ind; intros n Hp.
  - simpl; lia.
  - destruct b; simpl; lia.
  - cbn [printable] in Hp. apply andb_true_iff in Hp as [Hv _].
    pose proof (valid_number_cons raw Hv). destruct raw; [done|]. simpl; lia.
  - simpl. lia.
  - destruct l as [|v l]; [simpl; lia|]. cbn [printable forallb] in Hp. apply andb_true_iff in Hp as [Hpv Hp].
    apply Forall_cons in IH as [Hv IH]. specialize (Hv (S n) Hpv).
    cbn [cost fmap list_fmap foldr print length]. rewrite !length_app. unfold newline at 1 2. cbn [length].
    enough (foldr Nat.add 0 ((λ v, S (cost v)) <$> l) ≤ 2 * length (elements_tail (print (S n)) n l))%nat
      by (unfold fmap in *; lia).
    clear Hv Hpv. induction IH as [|v' l Hv' _ IHl]; [simpl; lia|].
    cbn [forallb] in Hp. apply andb_true_iff in Hp as [Hpv' Hp]. specialize (IHl Hp). specialize (Hv' (S n) Hpv').
    cbn [fmap list_fmap foldr elements_tail length]. fold (elements_tail (print (S n)) n).
    rewrite !length_app. unfold newline. cbn [length]. unfold fmap in *. lia.
  - destruct kvs as [|[k v] kvs]; [simpl; lia|]. cbn [printable forallb] in Hp.
    apply andb_true_iff in Hp as [[_ Hpv]%andb_true_iff Hp].
    apply Forall_cons in IH as [Hv IH]. specialize (Hv (S n) Hpv). cbn [snd] in Hv.
    cbn [cost fmap list_fmap foldr print length snd]. rewrite !length_app. unfold newline at 1 2. cbn [length].
    enough (foldr Nat.add 0 ((λ kv, S (cost kv.2)) <$> kvs) ≤ 2 * length (members_tail (print (S n)) n kvs))%nat
      by (unfold fmap in *; lia).
    clear Hv Hpv. induction IH as [|[k' v'] kvs Hv' _ IHl]; [simpl; lia|].
    cbn [forallb] in Hp. apply andb_true_iff in Hp as [[_ Hpv']%andb_true_iff Hp]. specialize (IHl Hp).
    specialize (Hv' (S n) Hpv'). cbn [snd] in Hv'.
    cbn [fmap list_fmap foldr members_tail length snd]. fold (members_tail (print (S n)) n).
    rewrite !length_app. unfold newline. cbn [length]. unfold fmap in *. lia.
Qed.

Lemma space_delimited s : forallb is_space s = true → delimited s.
Proof. destruct s as [|b s]; [done|]. simpl. intros [Hb _]%andb_true_iff. by destruct b. Qed.

Lemma skip_ws_space s : forallb is_space s = true → skip_ws s = [].
Proof. induction s as [|b s IH]; [done|]. simpl. intros [-> Hs]%andb_true_iff. auto. Qed.

(** What is written is read back, from any indentation and with any space
    after it. *)
Lemma parse_print n j sp :
  printable j = true → Z.of_nat (height j) ≤ max_depth → forallb is_space sp = true →
  parse (print n j ++ sp) = Some j.
Proof.
  intros Hp Hh Hsp. unfold parse. pose proof (cost_bound n j Hp).
  rewrite reads_all by (rewrite ?length_app; auto using space_delimited; lia).
  cbn. by rewrite skip_ws_space.
Qed.
