(* ===== verification/GoJson.v ===== *)
(** How [encoding/json] reads a JSON value into a Go value and writes one, for
    the types [config/config.go] declares: strings, booleans, [int],
    structures with [json:"name"] tags, and pointers to them.

    [GoJson] is what the decoder and the encoder do for a type; [unmarshal]
    takes the value that is there before, which reading changes only where the
    JSON says something.  [GoJsonLaws] is the promise a structure's theorems
    use: what was written reads back over anything. *)
From Stdlib Require Import DecimalN DecimalFacts.
From S2P Require Import Prelude Json.

Class GoJson (A : Type) := {
  unmarshal : json → A → option A;
  marshal : A → json;
  zero_value : A;
}.

(* ------------------------------------------------------------------ *)
(** * Strings, booleans, integers *)

(** [null] leaves a value that is no pointer alone; any other mismatch is an
    [UnmarshalTypeError]. *)
#[global] Instance string_json : GoJson bytes := {
  unmarshal j old := match j with JStr s => Some s | JNull => Some old | _ => None end;
  marshal := JStr;
  zero_value := [];
}.

#[global] Instance bool_json : GoJson bool := {
  unmarshal j old := match j with JBool b => Some b | JNull => Some old | _ => None end;
  marshal := JBool;
  zero_value := false;
}.

(** Decimal digits, as [strconv] reads and writes them. *)
Fixpoint uint_bytes (d : Decimal.uint) : bytes :=
  match d with
  | Decimal.Nil => []
  | Decimal.D0 d => x30 :: uint_bytes d
  | Decimal.D1 d => x31 :: uint_bytes d
  | Decimal.D2 d => x32 :: uint_bytes d
  | Decimal.D3 d => x33 :: uint_bytes d
  | Decimal.D4 d => x34 :: uint_bytes d
  | Decimal.D5 d => x35 :: uint_bytes d
  | Decimal.D6 d => x36 :: uint_bytes d
  | Decimal.D7 d => x37 :: uint_bytes d
  | Decimal.D8 d => x38 :: uint_bytes d
  | Decimal.D9 d => x39 :: uint_bytes d
  end.

Fixpoint bytes_uint (s : bytes) : option Decimal.uint :=
  match s with
  | [] => Some Decimal.Nil
  | b :: r =>
      d ← bytes_uint r;
      match b with
      | x30 => Some (Decimal.D0 d) | x31 => Some (Decimal.D1 d) | x32 => Some (Decimal.D2 d)
      | x33 => Some (Decimal.D3 d) | x34 => Some (Decimal.D4 d) | x35 => Some (Decimal.D5 d)
      | x36 => Some (Decimal.D6 d) | x37 => Some (Decimal.D7 d) | x38 => Some (Decimal.D8 d)
      | x39 => Some (Decimal.D9 d)
      | _ => None
      end
  end.

Definition int_ok (z : Z) : bool := (- 2 ^ 63 <=? z) && (z <? 2 ^ 63).

(** [strconv.ParseInt(s, 10, 64)] of the text of a JSON number. *)
Definition ParseInt (s : bytes) : option Z :=
  let (neg, ds) := match s with x2d :: r => (true, r) | _ => (false, s) end in
  match ds with
  | [] => None
  | _ =>
      d ← bytes_uint ds;
      let n := Z.of_N (N.of_uint d) in
      let z := if neg : bool then - n else n in
      if int_ok z then Some z else None
  end.

(** [strconv.AppendInt(nil, z, 10)] *)
Definition FormatInt (z : Z) : bytes :=
  let ds := uint_bytes (N.to_uint (Z.to_N (Z.abs z))) in
  if z <? 0 then x2d :: ds else ds.

#[global] Instance int_json : GoJson Z := {
  unmarshal j old := match j with JNum raw => ParseInt raw | JNull => Some old | _ => None end;
  marshal z := JNum (FormatInt z);
  zero_value := 0;
}.

(* ------------------------------------------------------------------ *)
(** * Pointers and structures *)

(** [null] makes a pointer nil; anything else is read into what it points to,
    a new zero value if it is nil. *)
#[global] Instance pointer_json {A} `{GoJson A} : GoJson (option A) := {
  unmarshal j p := match j with JNull => Some None | _ => Some <$> unmarshal j (default zero_value p) end;
  marshal p := match p with None => JNull | Some a => marshal a end;
  zero_value := None;
}.

(** A field of a structure: its tag, and how it is read and written. *)
Record field (S : Type) := Field {
  f_name : gostring;
  f_read : json → S → option S;
  f_write : S → json;
}.
Arguments Field {_} _ _ _. Arguments f_name {_} _. Arguments f_read {_} _ _ _. Arguments f_write {_} _ _.

Definition mk_field {S A} `{GoJson A} (name : string) (get : S → A) (set : A → S → S) : field S :=
  Field (str name) (λ j s, a ← unmarshal j (get s); Some (set a s)) (λ s, marshal (get s)).

Definition to_lower (b : byte) : byte :=
  if (65 <=? byte_Z b) && (byte_Z b <=? 90) then byte_of_Z (byte_Z b + 32) else b.

(** [equalFold]: a key is a field's if they differ in case only; the Kelvin
    sign (U+212A) is a [k], the long s (U+017F) an [s]. *)
Fixpoint equal_fold (name key : bytes) : bool :=
  match name with
  | [] => match key with [] => true | _ => false end
  | b :: name =>
      match key with
      | xe2 :: x84 :: xaa :: key => bool_decide (to_lower b = x6b) && equal_fold name key
      | xc5 :: xbf :: key => bool_decide (to_lower b = x73) && equal_fold name key
      | k :: key => bool_decide (to_lower b = to_lower k) && equal_fold name key
      | [] => false
      end
  end.

(** The field a key is for: of that name, or the first that differs in case. *)
Definition find_field {S} (fs : list (field S)) (key : bytes) : option (field S) :=
  match find (λ f, bool_decide (f_name f = key)) fs with
  | Some f => Some f
  | None => find (λ f, equal_fold (f_name f) key) fs
  end.

(** A key that is no field's is skipped. *)
Definition read_member {S} (fs : list (field S)) (s : S) (kv : bytes * json) : option S :=
  match find_field fs kv.1 with Some f => f_read f kv.2 s | None => Some s end.

Fixpoint read_members {S} (fs : list (field S)) (kvs : list (bytes * json)) (s : S) : option S :=
  match kvs with [] => Some s | kv :: kvs => s ← read_member fs s kv; read_members fs kvs s end.

Definition struct_json {S} (fs : list (field S)) (zero : S) : GoJson S := {|
  unmarshal j s := match j with JObj kvs => read_members fs kvs s | JNull => Some s | _ => None end;
  marshal s := JObj ((λ f, (f_name f, f_write f s)) <$> fs);
  zero_value := zero;
|}.

(** [json.Unmarshal(data, p)] *)
Definition Unmarshal {A} `{GoJson A} (data : bytes) (a : A) : option A :=
  j ← parse data; unmarshal j a.

(** [json.MarshalIndent(a, "", "  ")] *)
Definition MarshalIndent {A} `{GoJson A} (a : A) : bytes := print 0 (marshal a).

(* ------------------------------------------------------------------ *)
(** * What was written reads back *)

(** [faithful]: the values that JSON can carry. *)
Class GoJsonLaws (A : Type) `{GoJson A} (faithful : A → bool) (deep : nat) := {
  unmarshal_marshal a old : faithful a = true → unmarshal (marshal a) old = Some a;
  marshal_printable a : faithful a = true → printable (marshal a) = true;
  marshal_height a : (height (marshal a) ≤ deep)%nat;
}.

#[global] Instance string_laws : GoJsonLaws bytes valid_utf8 0.
Proof. by split. Qed.

#[global] Instance bool_laws : GoJsonLaws bool (λ _, true) 0.
Proof. by split. Qed.

Lemma bytes_uint_bytes d : bytes_uint (uint_bytes d) = Some d.
Proof. induction d as [|d IH|d IH|d IH|d IH|d IH|d IH|d IH|d IH|d IH|d IH]; cbn; by rewrite ?IH. Qed.

Lemma uint_bytes_digits d : forallb is_digit (uint_bytes d) = true.
Proof. by induction d. Qed.

Lemma to_uint_not_nil n : N.to_uint n ≠ Decimal.Nil.
Proof.
  intros H. pose proof (Unsigned.to_of (N.to_uint n)) as Hu.
  rewrite Unsigned.of_to, H in Hu. done.
Qed.

Lemma nzhead_not_zero u d : Decimal.nzhead u ≠ Decimal.D0 d.
Proof. by induction u. Qed.

(** No leading zero. *)
Lemma to_uint_zero n d : N.to_uint n = Decimal.D0 d → d = Decimal.Nil.
Proof.
  intros H. pose proof (Unsigned.to_of (N.to_uint n)) as Hu. rewrite Unsigned.of_to, H in Hu.
  unfold Decimal.unorm in Hu. destruct (Decimal.nzhead (Decimal.D0 d)) eqn:Hd; simplify_eq; try done.
  by apply nzhead_not_zero in Hd.
Qed.

Lemma span_digits (s : bytes) : forallb is_digit s = true → span is_digit s = (s, []).
Proof. intros Hs. rewrite <-(app_nil_r s) at 1. by apply span_all. Qed.

Lemma valid_number_digits n : valid_number (uint_bytes (N.to_uint n)) = true.
Proof.
  pose proof (uint_bytes_digits (N.to_uint n)) as Hd. pose proof (to_uint_zero n) as Hz.
  pose proof (to_uint_not_nil n). destruct (N.to_uint n) as [|d|d|d|d|d|d|d|d|d|d]; 
    [done|by rewrite (Hz d)|..]; cbn [uint_bytes valid_number] in *; by rewrite span_digits.
Qed.

Lemma valid_FormatInt z : valid_number (FormatInt z) && forallb num_char (FormatInt z) = true.
Proof.
  assert (∀ s, forallb is_digit s = true → forallb num_char s = true) as Hnum.
  { intros s. induction s as [|b s IH]; [done|]. simpl. intros [Hb Hs]%andb_true_iff.
    apply andb_true_iff. split; [unfold num_char; by rewrite Hb|auto]. }
  unfold FormatInt. set (n := Z.to_N (Z.abs z)).
  pose proof (valid_number_digits n) as Hv. pose proof (Hnum _ (uint_bytes_digits (N.to_uint n))) as Hc.
  destruct (z <? 0); [|by rewrite Hv, Hc].
  apply andb_true_iff. split; [|done].
  destruct (N.to_uint n) as [|d|d|d|d|d|d|d|d|d|d] eqn:Hn; [by apply to_uint_not_nil in Hn|..]; exact Hv.
Qed.

Lemma ParseInt_FormatInt z : int_ok z = true → ParseInt (FormatInt z) = Some z.
Proof.
  intros Hz. unfold ParseInt, FormatInt. set (n := Z.to_N (Z.abs z)).
  pose proof (bytes_uint_bytes (N.to_uint n)) as Hb. pose proof (Unsigned.of_to n) as Ho.
  assert (uint_bytes (N.to_uint n) ≠ [] ∧ ∀ r, uint_bytes (N.to_uint n) ≠ x2d :: r) as [Hnil Hminus].
  { pose proof (to_uint_not_nil n). by destruct (N.to_uint n). }
  destruct (Z.ltb_spec z 0).
  - destruct (uint_bytes (N.to_uint n)) eqn:Hu; [done|]. rewrite Hb. cbn. rewrite Ho.
    replace (- Z.of_N n) with z by lia. by rewrite Hz.
  - destruct (uint_bytes (N.to_uint n)) as [|b s] eqn:Hu; [done|].
    assert ((match b :: s with x2d :: r => (true, r) | _ => (false, b :: s) end) = (false, b :: s)) as ->.
    { destruct b; try done. by destruct (Hminus s). }
    rewrite Hb. cbn. rewrite Ho. replace (Z.of_N n) with z by lia. by rewrite Hz.
Qed.

#[global] Instance int_laws : GoJsonLaws Z int_ok 0.
Proof.
  split; [intros a old Ha; apply ParseInt_FormatInt, Ha|intros a _; apply valid_FormatInt|done].
Qed.

Definition pointer_ok {A} (ok : A → bool) (p : option A) : bool :=
  match p with Some a => ok a | None => true end.

Lemma pointer_laws {A} `{GoJsonLaws A faithful deep} :
  (∀ a, marshal a ≠ JNull) →
  GoJsonLaws (option A) (pointer_ok faithful) deep.
Proof.
  intros Hnn. split.
  - intros [a|] old Ha; [|done]. cbn. specialize (Hnn a).
    pose proof (unmarshal_marshal a (default zero_value old) Ha) as Hu.
    destruct (marshal a); try done; cbn in *; by rewrite Hu.
  - intros [a|] Ha; [|done]. cbn. by apply (marshal_printable a).
  - intros [a|]; [apply (marshal_height a)|cbn; lia].
Qed.

Section fields.
Context {S A} `{GoJsonLaws A faithful deep} (name : string) (get : S → A) (set : A → S → S).
#[local] Abbreviation f := (mk_field name get set).

Lemma read_field a s : faithful (get a) = true → f_read f (f_write f a) s = Some (set (get a) s).
Proof. intros Ha. cbn. by rewrite unmarshal_marshal. Qed.

Lemma print_field a : faithful (get a) = true → printable (f_write f a) = true.
Proof. intros Ha. cbn. by apply (marshal_printable (get a)). Qed.

Lemma height_field a : (height (f_write f a) ≤ deep)%nat.
Proof. apply marshal_height. Qed.
End fields.

Section structures.
Context {S : Type} (fs : list (field S)).

(** A field's own name finds it. *)
Lemma find_field_self f : NoDup (f_name <$> fs) → f ∈ fs → find_field fs (f_name f) = Some f.
Proof.
  intros Hnd Hf. unfold find_field.
  enough (find (λ g, bool_decide (f_name g = f_name f)) fs = Some f) as -> by done.
  induction fs as [|g gs IH]; [by apply not_elem_of_nil in Hf|]. simpl.
  rewrite fmap_cons in Hnd. apply NoDup_cons in Hnd as [Hg Hnd].
  apply elem_of_cons in Hf as [-> |Hf]; [by rewrite bool_decide_true|].
  rewrite bool_decide_false; [by apply IH|]. intros Hn. apply Hg. rewrite Hn.
  by apply list_elem_of_fmap_2.
Qed.

(** A structure reads what it wrote one field after the other. *)
Lemma read_members_self (a : S) gs s :
  NoDup (f_name <$> fs) → (∀ f, f ∈ gs → f ∈ fs) →
  read_members fs ((λ f, (f_name f, f_write f a)) <$> gs) s
  = foldr (λ f k s, f_read f (f_write f a) s ≫= k) Some gs s.
Proof.
  intros Hnd. revert s. induction gs as [|g gs IH]; intros s Hgs; [done|].
  cbn [fmap list_fmap read_members foldr]. unfold read_member. cbn [fst snd].
  rewrite find_field_self by (done || apply Hgs; left).
  destruct (f_read g (f_write g a) s) as [s'|]; [|done]. cbn [mbind option_bind].
  apply IH. intros f Hf. apply Hgs. by right.
Qed.

Lemma find_field_elem key f : find_field fs key = Some f → f ∈ fs.
Proof.
  unfold find_field. intros Hf. apply list_elem_of_In.
  case_match; simplify_eq; eapply find_some; done.
Qed.

Lemma read_members_app kvs1 kvs2 s :
  read_members fs (kvs1 ++ kvs2) s = (s ← read_members fs kvs1 s; read_members fs kvs2 s).
Proof.
  revert s. induction kvs1 as [|kv kvs1 IH]; intros s; cbn; [done|].
  destruct (read_member fs s kv); [apply IH|done].
Qed.

(** A structure is lawful if its fields are and its names differ. *)
Lemma struct_laws zero ok deep :
  NoDup (f_name <$> fs) →
  forallb valid_utf8 (f_name <$> fs) = true →
  (∀ a old, ok a = true → foldr (λ f k s, f_read f (f_write f a) s ≫= k) Some fs old = Some a) →
  (∀ a, ok a = true → forallb (λ f, printable (f_write f a)) fs = true) →
  (∀ a, Forall (λ f, height (f_write f a) ≤ deep)%nat fs) →
  @GoJsonLaws S (struct_json fs zero) ok (Datatypes.S deep).
Proof.
  intros Hnd Hnames Hread Hprint Hheight. split.
  - intros a old Ha. cbn. rewrite read_members_self by done. by apply Hread.
  - intros a Ha. cbn. specialize (Hprint a Ha). clear Hnd Hread Hheight.
    induction fs as [|f gs IH]; [done|]. cbn in *. repeat rewrite andb_true_iff in *. intuition.
  - intros a. cbn. apply le_n_S. specialize (Hheight a). clear Hnd Hnames Hread Hprint.
    induction Hheight as [|f gs Hf _ IH]; cbn; lia.
Qed.

(** What every member preserves holds at the end. *)
Lemma read_members_ind (I : S → Prop) kvs s s' :
  (∀ kv f s1 s2, kv ∈ kvs → find_field fs kv.1 = Some f → I s1 → f_read f kv.2 s1 = Some s2 → I s2) →
  I s → read_members fs kvs s = Some s' → I s'.
Proof.
  revert s. induction kvs as [|kv kvs IH]; intros s Hstep HI; simpl; [by intros [= <-]|].
  unfold read_member at 1. destruct (find_field fs kv.1) as [f|] eqn:Hf; cbn [mbind option_bind].
  - destruct (f_read f kv.2 s) as [s1|] eqn:Hr; [|done]. cbn. apply IH.
    + intros. eapply Hstep; [by right|done..].
    + eapply Hstep; [left|done..].
  - apply IH; [|done]. intros. eapply Hstep; [by right|done..].
Qed.
End structures.

(** Whatever was there before, what was printed reads back. *)
Lemma Unmarshal_MarshalIndent {A} `{GoJsonLaws A faithful deep} (a old : A) sp :
  Z.of_nat deep ≤ max_depth → faithful a = true → forallb is_space sp = true →
  Unmarshal (MarshalIndent a ++ sp) old = Some a.
Proof.
  intros Hd Ha Hsp. unfold Unmarshal, MarshalIndent. pose proof (marshal_height a).
  rewrite parse_print by (done || lia || by apply marshal_printable). by apply unmarshal_marshal.
Qed.
