(* ===== verification/Protos.v ===== *)
(** The messages and enumerations of [protos/vault.pb.go] and
    [protos/internal.pb.go].

    A message is a record of its fields, a [*Msg] an [option]; the getters
    are the generated nil-safe ones.  Of the fields that the runtime keeps for
    itself, [unknownFields] is there: the encodings of what the message was
    read with and this version of the protocol has no field for, which
    marshalling writes back; no code of the repository touches it ([state] and
    [sizeCache] are caches and hold nothing of the message).  Enumerations are open in proto3, so an
    enumeration type is its [int32] and its values are constants.  The wire
    format belongs to the protobuf runtime: [ProtoCodec] is the interface the
    code uses, [ProtoLaws] what it relies on. *)
From S2P Require Import Prelude.

(* ------------------------------------------------------------------ *)
(** * Enumerations *)

Definition Const_EntryIDSz : Z := 30.
Definition Const_DefaultGrpcServicePort : Z := 5190.

Definition ReqOp_InvalidEntry : Z := 0.
Definition ReqOp_AppendEntry : Z := 1.
Definition ReqOp_ChannelGenesis : Z := 2.
Definition ReqOp_CancelReq : Z := 10.
Definition ReqOp_OpenFeed : Z := 30.

Definition MsgOp_FeedEntry : Z := 0.
Definition MsgOp_ReqComplete : Z := 1.
Definition MsgOp_ReqDiscarded : Z := 3.
Definition MsgOp_FeedReqStatus : Z := 4.

Definition StreamMode_DontStream : Z := 0.
Definition StreamMode_FromGenesis : Z := 1.
Definition StreamMode_AtEntry : Z := 4.
Definition StreamMode_AfterEntry : Z := 5.
Definition StreamMode_AfterHead : Z := 7.
Definition StreamMode_FromIndex : Z := 9.

Definition StatusCode_InfoMsg : Z := 0.
Definition StatusCode_WarningMsg : Z := 1.
Definition StatusCode_Working : Z := 64.
Definition StatusCode_FindingPeers : Z := 65.
Definition StatusCode_ConnectingToPeers : Z := 66.
Definition StatusCode_SearchingForFeed : Z := 67.
Definition StatusCode_TransferringFeed : Z := 68.
Definition StatusCode_Stalled : Z := 128.

Definition ErrCode_NoErr : Z := 0.
Definition ErrCode_UnnamedErr : Z := 5000.
Definition ErrCode_ReqCanceled : Z := 5001.
Definition ErrCode_InsufficientPermissions : Z := 5101.
Definition ErrCode_ReqNotFound : Z := 5010.
Definition ErrCode_ReqInUse : Z := 5011.
Definition ErrCode_InvalidFeedURI : Z := 5020.
Definition ErrCode_FeedNotFound : Z := 5021.
Definition ErrCode_FeedAlreadyExists : Z := 5022.
Definition ErrCode_UnrecognizedVaultCtx : Z := 5030.
Definition ErrCode_InvalidRequest : Z := 5040.
Definition ErrCode_DatabaseError : Z := 6000.

Definition PeerUpdateOp_Nothing : Z := 0.
Definition PeerUpdateOp_Upsert : Z := 10.
Definition PeerUpdateOp_RemovePermanently : Z := 20.

(* ------------------------------------------------------------------ *)
(** * Messages *)

Module EntryHeader.
Record t := make {
  EntryID : slice;
  MemberID : slice;
  ParentID : slice;
  EntryCodec : gostring;
  FeedURI : gostring;
  unknownFields : bytes;
}.
#[global] Instance eq_dec : EqDecision t.
Proof. solve_decision. Defined.

(** [&pb.EntryHeader{...}]; the fields that are not named are zero. *)
Definition mk EntryID_ MemberID_ ParentID_ EntryCodec_ FeedURI_ : t :=
  make EntryID_ MemberID_ ParentID_ EntryCodec_ FeedURI_ [].

(** [&pb.EntryHeader{}] *)
Definition empty : t := mk None None None [] [].

Definition GetEntryID (x : option t) : slice := x ≫= EntryID.
Definition GetMemberID (x : option t) : slice := x ≫= MemberID.
Definition GetFeedURI (x : option t) : gostring := default [] (FeedURI <$> x).
End EntryHeader.

Module ReqStatus.
Record t := make {
  ReqID : Z;
  Code : Z;
  Msg : gostring;
  EntryID : slice;
  BytesRemaining : Z;
  SecsRemaining : Z;
  unknownFields : bytes;
}.
#[global] Instance eq_dec : EqDecision t.
Proof. solve_decision. Defined.

(** [&pb.ReqStatus{...}]; the fields that are not named are zero. *)
Definition mk ReqID_ Code_ Msg_ EntryID_ BytesRemaining_ SecsRemaining_ : t :=
  make ReqID_ Code_ Msg_ EntryID_ BytesRemaining_ SecsRemaining_ [].

(** [&pb.ReqStatus{Code: c}] *)
Definition of_code (c : Z) : t := mk 0 c [] None 0 0.

Definition GetCode (x : option t) : Z := default StatusCode_InfoMsg (Code <$> x).
End ReqStatus.

Module ReqErr.
Record t := make {
  Code : Z;
  Msg : gostring;
  unknownFields : bytes;
}.
#[global] Instance eq_dec : EqDecision t.
Proof. solve_decision. Defined.

(** [&pb.ReqErr{...}]; the fields that are not named are zero. *)
Definition mk Code_ Msg_ : t :=
  make Code_ Msg_ [].

Definition GetCode (x : option t) : Z := default ErrCode_NoErr (Code <$> x).
End ReqErr.

Module Msg.
Record t := make {
  Op : Z;
  ReqID : Z;
  EntryHeader : option EntryHeader.t;
  Body : slice;
  Status : option ReqStatus.t;
  Err : option ReqErr.t;
  unknownFields : bytes;
}.
#[global] Instance eq_dec : EqDecision t.
Proof. solve_decision. Defined.

(** [&pb.Msg{...}]; the fields that are not named are zero. *)
Definition mk Op_ ReqID_ EntryHeader_ Body_ Status_ Err_ : t :=
  make Op_ ReqID_ EntryHeader_ Body_ Status_ Err_ [].

(** [&pb.Msg{}] *)
Definition empty : t := mk MsgOp_FeedEntry 0 None None None None.

Definition GetOp (x : option t) : Z := default MsgOp_FeedEntry (Op <$> x).
Definition GetReqID (x : option t) : Z := default 0 (ReqID <$> x).
Definition GetEntryHeader (x : option t) : option EntryHeader.t := x ≫= EntryHeader.
Definition GetBody (x : option t) : slice := x ≫= Body.
Definition GetStatus (x : option t) : option ReqStatus.t := x ≫= Status.
Definition GetErr (x : option t) : option ReqErr.t := x ≫= Err.

(** [msg.ReqID = id], as [Stream.Publish] assigns it. *)
Definition set_ReqID (id : Z) (m : t) : t :=
  make (Op m) id (EntryHeader m) (Body m) (Status m) (Err m) (unknownFields m).
End Msg.

Module OpenFeedReq.
Record t := make {
  FeedURI : gostring;
  StreamMode : Z;
  SeekEntryID : slice;
  MaxEntriesToSend : Z;
  SendEntryIDsOnly : bool;
  unknownFields : bytes;
}.
#[global] Instance eq_dec : EqDecision t.
Proof. solve_decision. Defined.

(** [&pb.OpenFeedReq{...}]; the fields that are not named are zero. *)
Definition mk FeedURI_ StreamMode_ SeekEntryID_ MaxEntriesToSend_ SendEntryIDsOnly_ : t :=
  make FeedURI_ StreamMode_ SeekEntryID_ MaxEntriesToSend_ SendEntryIDsOnly_ [].

Definition GetFeedURI (x : option t) : gostring := default [] (FeedURI <$> x).
Definition GetStreamMode (x : option t) : Z := default StreamMode_DontStream (StreamMode <$> x).
Definition GetSeekEntryID (x : option t) : slice := x ≫= SeekEntryID.
Definition GetMaxEntriesToSend (x : option t) : Z := default 0 (MaxEntriesToSend <$> x).
Definition GetSendEntryIDsOnly (x : option t) : bool := default false (SendEntryIDsOnly <$> x).
End OpenFeedReq.

Module FeedReq.
Record t := make {
  ReqOp : Z;
  ReqID : Z;
  OpenFeed : option OpenFeedReq.t;
  NewEntry : option Msg.t;
  unknownFields : bytes;
}.
#[global] Instance eq_dec : EqDecision t.
Proof. solve_decision. Defined.

(** [&pb.FeedReq{...}]; the fields that are not named are zero. *)
Definition mk ReqOp_ ReqID_ OpenFeed_ NewEntry_ : t :=
  make ReqOp_ ReqID_ OpenFeed_ NewEntry_ [].

Definition GetReqOp (x : option t) : Z := default ReqOp_InvalidEntry (ReqOp <$> x).
Definition GetReqID (x : option t) : Z := default 0 (ReqID <$> x).
Definition GetOpenFeed (x : option t) : option OpenFeedReq.t := x ≫= OpenFeed.
Definition GetNewEntry (x : option t) : option Msg.t := x ≫= NewEntry.
End FeedReq.

Module Peer.
Record t := make {
  Op : Z;
  ID : gostring;
  Key : slice;
  Multiaddrs : list bytes;
  unknownFields : bytes;
}.
#[global] Instance eq_dec : EqDecision t.
Proof. solve_decision. Defined.

(** [&pb.Peer{...}]; the fields that are not named are zero. *)
Definition mk Op_ ID_ Key_ Multiaddrs_ : t :=
  make Op_ ID_ Key_ Multiaddrs_ [].

Definition GetOp (x : option t) : Z := default PeerUpdateOp_Nothing (Op <$> x).
Definition GetID (x : option t) : gostring := default [] (ID <$> x).
End Peer.

Module TopicPointer.
Record t := make {
  ID : gostring;
  LastEntryPublished : slice;
  unknownFields : bytes;
}.
#[global] Instance eq_dec : EqDecision t.
Proof. solve_decision. Defined.

(** [&pb.TopicPointer{...}]; the fields that are not named are zero. *)
Definition mk ID_ LastEntryPublished_ : t :=
  make ID_ LastEntryPublished_ [].
End TopicPointer.

Module PubsubState.
Record t := make {
  Topics : list TopicPointer.t;
  Peers : list Peer.t;
  unknownFields : bytes;
}.
#[global] Instance eq_dec : EqDecision t.
Proof. solve_decision. Defined.

(** [&pb.PubsubState{...}]; the fields that are not named are zero. *)
Definition mk Topics_ Peers_ : t :=
  make Topics_ Peers_ [].

(** [&pb.PubsubState{}] *)
Definition empty : t := mk [] [].
End PubsubState.

(* ------------------------------------------------------------------ *)
(** * The protobuf runtime *)

(** [proto.Marshal] and [proto.Unmarshal] for one message type.  Unmarshal
    fills the message it is given, and leaves something there even when it
    fails: it returns both. *)
Class ProtoCodec (M : Type) := {
  Marshal : M → outcome bytes;
  Unmarshal : bytes → M * option error;
}.

(** Proto3 does not put an empty [bytes] field on the wire, and the Go
    runtime reads an absent one as nil. *)
Definition canon_slice (s : slice) : slice :=
  match s with Some [] => None | _ => s end.

Definition canon_EntryHeader (h : EntryHeader.t) : EntryHeader.t :=
  EntryHeader.make (canon_slice (EntryHeader.EntryID h)) (canon_slice (EntryHeader.MemberID h))
    (canon_slice (EntryHeader.ParentID h)) (EntryHeader.EntryCodec h) (EntryHeader.FeedURI h)
    (EntryHeader.unknownFields h).

Definition canon_ReqStatus (s : ReqStatus.t) : ReqStatus.t :=
  ReqStatus.make (ReqStatus.ReqID s) (ReqStatus.Code s) (ReqStatus.Msg s)
    (canon_slice (ReqStatus.EntryID s)) (ReqStatus.BytesRemaining s) (ReqStatus.SecsRemaining s)
    (ReqStatus.unknownFields s).

Definition canon_Msg (m : Msg.t) : Msg.t :=
  Msg.make (Msg.Op m) (Msg.ReqID m) (canon_EntryHeader <$> Msg.EntryHeader m)
    (canon_slice (Msg.Body m)) (canon_ReqStatus <$> Msg.Status m) (Msg.Err m) (Msg.unknownFields m).

(** What a message looks like after a trip over the wire. *)
Class Canonical (M : Type) := canon : M → M.
#[global] Instance Msg_canonical : Canonical Msg.t := canon_Msg.
#[global] Instance Peer_canonical : Canonical Peer.t := λ p,
  Peer.make (Peer.Op p) (Peer.ID p) (canon_slice (Peer.Key p)) (Peer.Multiaddrs p) (Peer.unknownFields p).
#[global] Instance PubsubState_canonical : Canonical PubsubState.t := λ s,
  PubsubState.make
    ((λ p, TopicPointer.make (TopicPointer.ID p) (canon_slice (TopicPointer.LastEntryPublished p))
             (TopicPointer.unknownFields p)) <$> PubsubState.Topics s)
    (canon <$> PubsubState.Peers s) (PubsubState.unknownFields s).

(** The runtime returns an error or bytes, never panics, and the bytes it
    returned decode to the message. *)
Class ProtoLaws (M : Type) `{ProtoCodec M, Canonical M} := {
  Marshal_no_panic m : Marshal m ≠ Panic;
  Unmarshal_Marshal m b : Marshal m = Ok b → Unmarshal b = (canon m, None);
}.

Lemma canon_slice_idemp s : canon_slice (canon_slice s) = canon_slice s.
Proof. by destruct s as [[|]|]. Qed.

Lemma canon_slice_bytes s : sbytes (canon_slice s) = sbytes s.
Proof. by destruct s as [[|]|]. Qed.

(* ------------------------------------------------------------------ *)
(** * A codec that satisfies the laws *)

(** Not the wire format: it numbers the messages and writes the number in
    unary-width bits.  It shows the laws consistent and runs the examples. *)
Module RefCodec.
#[export] Instance EntryHeader_countable : Countable EntryHeader.t.
Proof.
  refine (inj_countable'
    (λ h, (EntryHeader.EntryID h, EntryHeader.MemberID h, EntryHeader.ParentID h, EntryHeader.EntryCodec h, EntryHeader.FeedURI h, EntryHeader.unknownFields h))
    (λ '(a, b, c, d, e, f), EntryHeader.make a b c d e f) _).
  by intros [].
Defined.

#[export] Instance ReqStatus_countable : Countable ReqStatus.t.
Proof.
  refine (inj_countable'
    (λ s, (ReqStatus.ReqID s, ReqStatus.Code s, ReqStatus.Msg s, ReqStatus.EntryID s, ReqStatus.BytesRemaining s, ReqStatus.SecsRemaining s, ReqStatus.unknownFields s))
    (λ '(a, b, c, d, e, f, g), ReqStatus.make a b c d e f g) _).
  by intros [].
Defined.

#[export] Instance ReqErr_countable : Countable ReqErr.t.
Proof.
  refine (inj_countable'
    (λ r, (ReqErr.Code r, ReqErr.Msg r, ReqErr.unknownFields r))
    (λ '(a, b, c), ReqErr.make a b c) _).
  by intros [].
Defined.

#[export] Instance Msg_countable : Countable Msg.t.
Proof.
  refine (inj_countable'
    (λ m, (Msg.Op m, Msg.ReqID m, Msg.EntryHeader m, Msg.Body m, Msg.Status m, Msg.Err m, Msg.unknownFields m))
    (λ '(a, b, c, d, e, f, g), Msg.make a b c d e f g) _).
  by intros [].
Defined.

#[export] Instance Peer_countable : Countable Peer.t.
Proof.
  refine (inj_countable'
    (λ p, (Peer.Op p, Peer.ID p, Peer.Key p, Peer.Multiaddrs p, Peer.unknownFields p))
    (λ '(a, b, c, d, e), Peer.make a b c d e) _).
  by intros [].
Defined.

#[export] Instance TopicPointer_countable : Countable TopicPointer.t.
Proof.
  refine (inj_countable'
    (λ p, (TopicPointer.ID p, TopicPointer.LastEntryPublished p, TopicPointer.unknownFields p))
    (λ '(a, b, c), TopicPointer.make a b c) _).
  by intros [].
Defined.

#[export] Instance PubsubState_countable : Countable PubsubState.t.
Proof.
  refine (inj_countable'
    (λ s, (PubsubState.Topics s, PubsubState.Peers s, PubsubState.unknownFields s))
    (λ '(a, b, c), PubsubState.make a b c) _).
  by intros [].
Defined.

Fixpoint bits (p : positive) : bytes :=
  match p with
  | xH => [x01]
  | xO p => x00 :: bits p
  | xI p => x01 :: bits p
  end.

Fixpoint unbits (b : bytes) : positive :=
  match b with
  | [] | [_] => xH
  | x :: b => if bool_decide (x = x00) then xO (unbits b) else xI (unbits b)
  end.

Lemma unbits_bits p : unbits (bits p) = p.
Proof. induction p as [p IH|p IH|]; simpl; [..|done]; (destruct (bits p) eqn:Hp; [by destruct p|by rewrite IH]). Qed.

Definition bad_wire : error := Foreign (str "proto: cannot parse invalid wire-format data").

#[export] Instance codec (M : Type) `{Countable M, Canonical M, Inhabited M} : ProtoCodec M := {|
  Marshal m := Ok (bits (encode m));
  Unmarshal b :=
    match decode (unbits b) with
    | Some m => (canon m, None)
    | None => (inhabitant, Some bad_wire)
    end;
|}.

#[export] Instance laws (M : Type) `{Countable M, Canonical M, Inhabited M} : ProtoLaws M.
Proof.
  split; [done|]. intros m b [= <-]. simpl. by rewrite unbits_bits, decode_encode.
Qed.

#[export] Instance Msg_inhabited : Inhabited Msg.t := populate Msg.empty.
#[export] Instance PubsubState_inhabited : Inhabited PubsubState.t := populate PubsubState.empty.
#[export] Instance Peer_inhabited : Inhabited Peer.t := populate (Peer.mk 0 [] None []).
End RefCodec.
