(* ===== verification/Wire.v ===== *)
(** The wire format of the messages of [protos/vault.pb.go] and
    [protos/internal.pb.go]: the field numbers and types are those of the
    structures' tags, the encoding is the one that protobuf documents.

    A message is a list of numbered fields ([fields]), which are varints or
    byte strings, and what it keeps of fields it does not know ([unknown]).
    Reading sets the fields one by one ([set_known]), so that the last one of a
    number counts and an embedded message that comes twice is merged; of a field
    that is unknown, or of the wrong wire type, it keeps the encoding.  Writing
    puts the known fields and then those encodings.  [WireCodec] makes this an
    instance of [ProtoCodec], for which [ProtoLaws] are proved.  The runtime
    itself is not part of the repository; the groups of the old wire format
    (wire types 3 and 4) are not modelled. *)
From S2P Require Import Prelude Protos Json.

(* ------------------------------------------------------------------ *)
(** * Varints *)

(** Seven bits to a byte, the low ones first; the top bit says that more
    follow.  Ten bytes hold 64 bits. *)
Fixpoint put_varint (n : nat) (z : Z) : bytes :=
  match n with
  | O => []
  | S n => if z <? 128 then [byte_of_Z z] else byte_of_Z (128 + z `mod` 128) :: put_varint n (z `div` 128)
  end.

Fixpoint get_varint (n : nat) (b : bytes) : option (Z * bytes) :=
  match n, b with
  | S n, x :: b =>
      if byte_Z x <? 128 then Some (byte_Z x, b)
      else '(z, b) ← get_varint n b; Some (byte_Z x - 128 + 128 * z, b)
  | _, _ => None
  end.

Definition varint (z : Z) : bytes := put_varint 10 z.
Definition read_varint (b : bytes) : option (Z * bytes) :=
  '(z, b) ← get_varint 10 b; if z <? 2 ^ 64 then Some (z, b) else None.

Lemma put_varint_S n z :
  put_varint (S n) z = if z <? 128 then [byte_of_Z z] else byte_of_Z (128 + z `mod` 128) :: put_varint n (z `div` 128).
Proof. done. Qed.

Lemma get_varint_S n x (b : bytes) :
  get_varint (S n) (x :: b) = if byte_Z x <? 128 then Some (byte_Z x, b)
    else '(z, b) ← get_varint n b; Some (byte_Z x - 128 + 128 * z, b).
Proof. done. Qed.

Lemma get_put_varint n z rest :
  0 ≤ z < 128 ^ Z.of_nat (S n) → get_varint (S n) (put_varint (S n) z ++ rest) = Some (z, rest).
Proof.
  revert z. induction n as [|n IH]; intros z Hz; rewrite put_varint_S; destruct (Z.ltb_spec z 128) as [Hlt|Hlt]; cbn [app];
    rewrite get_varint_S, byte_Z_of_Z.
  - rewrite Z.mod_small by lia. by rewrite (proj2 (Z.ltb_lt z 128)) by lia.
  - change (128 ^ Z.of_nat 1) with 128 in Hz. lia.
  - rewrite Z.mod_small by lia. by rewrite (proj2 (Z.ltb_lt z 128)) by lia.
  - rewrite (Nat2Z.inj_succ (S n)), Z.pow_succ_r in Hz by lia.
    pose proof (Z.mod_pos_bound z 128 ltac:(lia)). rewrite (Z.mod_small (128 + _)) by lia.
    rewrite (proj2 (Z.ltb_ge (128 + z `mod` 128) 128)) by lia.
    rewrite IH by (split; [apply Z.div_pos; lia|apply Z.div_lt_upper_bound; lia]).
    cbn [mbind option_bind]. f_equal. f_equal. pose proof (Z.div_mod z 128). lia.
Qed.

Lemma read_varint_put z rest : 0 ≤ z < 2 ^ 64 → read_varint (varint z ++ rest) = Some (z, rest).
Proof.
  intros Hz. unfold read_varint, varint. rewrite get_put_varint by (split; [lia|]; etrans; [apply Hz|done]).
  simpl. by rewrite (proj2 (Z.ltb_lt z (2 ^ 64))) by lia.
Qed.

Lemma varint_cons z : ∃ x l, varint z = x :: l.
Proof. unfold varint. cbn [put_varint]. case_match; by eexists _, _. Qed.

(* ------------------------------------------------------------------ *)
(** * Fields *)

(** The value of a field by its wire type; fixed-width ones and unknown types
    are nobody's here. *)
Inductive wire_value :=
  | WInt (z : Z)
  | WFixed64 (b : bytes)
  | WBytes (b : bytes)
  | WFixed32 (b : bytes).

Abbreviation field := (Z * wire_value)%type.

Definition put_field (f : field) : bytes :=
  match f.2 with
  | WInt z => varint (f.1 * 8) ++ varint z
  | WFixed64 b => varint (f.1 * 8 + 1) ++ b
  | WBytes b => varint (f.1 * 8 + 2) ++ varint (Z.of_nat (length b)) ++ b
  | WFixed32 b => varint (f.1 * 8 + 5) ++ b
  end.

Definition take_bytes (n : nat) (b : bytes) : option (bytes * bytes) :=
  if decide (n ≤ length b)%nat then Some (take n b, drop n b) else None.

Definition get_value (wire_type : Z) (b : bytes) : option (wire_value * bytes) :=
  match wire_type with
  | 0 => '(z, b) ← read_varint b; Some (WInt z, b)
  | 1 => '(x, b) ← take_bytes 8 b; Some (WFixed64 x, b)
  | 2 => '(len, b) ← read_varint b; '(x, b) ← take_bytes (Z.to_nat len) b; Some (WBytes x, b)
  | 5 => '(x, b) ← take_bytes 4 b; Some (WFixed32 x, b)
  | _ => None
  end.

(** A field as it was read: with its tag and the bytes of its value. *)
Abbreviation raw_field := (field * bytes)%type.

Definition get_field (b : bytes) : option (raw_field * bytes) :=
  '(tag, b) ← read_varint b;
  let n := tag `div` 8 in
  if (n <? 1) || (2 ^ 29 - 1 <? n) then None
  else
    '(v, rest) ← get_value (tag `mod` 8) b;
    Some (((n, v), varint tag ++ take (length b - length rest) b), rest).

Definition put_fields (fs : list field) : bytes := concat (put_field <$> fs).

(** A field takes a byte at least, so that [length b] is enough fuel. *)
Fixpoint get_fields_fuel (fuel : nat) (b : bytes) : option (list raw_field) :=
  match b, fuel with
  | [], _ => Some []
  | _, O => None
  | _, S fuel => '(f, b) ← get_field b; fs ← get_fields_fuel fuel b; Some (f :: fs)
  end.
Definition get_fields (b : bytes) : option (list raw_field) := get_fields_fuel (length b) b.

(** What fits in a field. *)
Definition field_ok (f : field) : bool :=
  (1 <=? f.1) && (f.1 <? 2 ^ 29) &&
  match f.2 with
  | WInt z => (0 <=? z) && (z <? 2 ^ 64)
  | WFixed64 b => bool_decide (length b = 8%nat)
  | WBytes b => Z.of_nat (length b) <? 2 ^ 64
  | WFixed32 b => bool_decide (length b = 4%nat)
  end.

Lemma take_bytes_app (b rest : bytes) n : length b = n → take_bytes n (b ++ rest) = Some (b, rest).
Proof.
  intros <-. unfold take_bytes. rewrite decide_True by (rewrite length_app; lia).
  by rewrite take_app_length, drop_app_length.
Qed.

(** As it is written. *)
Definition encoded (f : field) : raw_field := (f, put_field f).

Lemma encoded_fst (fs : list field) : (encoded <$> fs).*1 = fs.
Proof. induction fs as [|f fs IH]; [done|]. by rewrite !fmap_cons, IH. Qed.

Lemma encoded_snd (fs : list field) : concat (encoded <$> fs).*2 = put_fields fs.
Proof. induction fs as [|f fs IH]; [done|]. rewrite !fmap_cons. cbn [concat]. by rewrite IH. Qed.

Lemma get_field_tag n k v payload rest :
  1 ≤ n < 2 ^ 29 → 0 ≤ k < 8 → get_value k (payload ++ rest) = Some (v, rest) →
  get_field ((varint (n * 8 + k) ++ payload) ++ rest) = Some (((n, v), varint (n * 8 + k) ++ payload), rest).
Proof.
  intros Hn Hk Hv. unfold get_field. rewrite <-app_assoc, read_varint_put by lia. cbn [mbind option_bind].
  assert ((n * 8 + k) `div` 8 = n) as -> by (rewrite Z.add_comm, Z.div_add, Z.div_small by lia; lia).
  assert ((n * 8 + k) `mod` 8 = k) as -> by (rewrite Z.add_comm, Z_mod_plus_full, Z.mod_small by lia; lia).
  assert ((n <? 1) || (2 ^ 29 - 1 <? n) = false) as -> by (apply orb_false_iff; rewrite !Z.ltb_ge; lia).
  rewrite Hv. cbn [mbind option_bind]. rewrite length_app.
  replace (length payload + length rest - length rest)%nat with (length payload) by lia. by rewrite take_app_length.
Qed.

Lemma get_put_field f rest : field_ok f = true → get_field (put_field f ++ rest) = Some (encoded f, rest).
Proof.
  destruct f as [n v]. unfold field_ok, encoded, put_field. cbn [fst snd].
  intros [[H1%Z.leb_le H2%Z.ltb_lt]%andb_true_iff Hv]%andb_true_iff.
  destruct v as [z|b|b|b].
  - rewrite <-(Z.add_0_r (n * 8)). apply get_field_tag; [lia|lia|]. simpl.
    apply andb_true_iff in Hv as [Hz1%Z.leb_le Hz2%Z.ltb_lt]. by rewrite read_varint_put by lia.
  - apply get_field_tag; [lia|lia|]. simpl. apply bool_decide_eq_true in Hv. by rewrite take_bytes_app.
  - apply get_field_tag; [lia|lia|]. simpl. apply Z.ltb_lt in Hv.
    rewrite <-app_assoc, read_varint_put by lia. cbn [mbind option_bind]. by rewrite take_bytes_app by lia.
  - apply get_field_tag; [lia|lia|]. simpl. apply bool_decide_eq_true in Hv. by rewrite take_bytes_app.
Qed.

Lemma put_field_cons f : ∃ x l, put_field f = x :: l.
Proof.
  unfold put_field. destruct f.2;
    match goal with |- context [varint ?z ++ ?r] => destruct (varint_cons z) as (x & l & ->); by eexists _, _ end.
Qed.

(** ** What follows does not matter *)

Lemma get_varint_app n (b c rest : bytes) z :
  get_varint n b = Some (z, rest) → get_varint n (b ++ c) = Some (z, rest ++ c) ∧ (length rest < length b)%nat.
Proof.
  revert b z rest. induction n as [|n IH]; intros b z rest; [done|]. destruct b as [|x b]; [done|].
  cbn [app]. rewrite !get_varint_S. case_match; [intros [= <- <-]; simpl; split; [done|lia]|].
  destruct (get_varint n b) as [[z1 r1]|] eqn:Hg; [|done]. cbn [mbind option_bind]. intros [= <- <-].
  destruct (IH b z1 r1 Hg) as [-> Hl]. simpl. split; [done|lia].
Qed.

Lemma read_varint_app (b c rest : bytes) z :
  read_varint b = Some (z, rest) → read_varint (b ++ c) = Some (z, rest ++ c) ∧ (length rest < length b)%nat.
Proof.
  unfold read_varint. destruct (get_varint 10 b) as [[z1 r1]|] eqn:Hg; [|done]. cbn [mbind option_bind].
  case_match eqn:Hz; [|done]. intros [= <- <-]. destruct (get_varint_app 10 b c r1 z1 Hg) as [-> Hl].
  cbn [mbind option_bind]. by rewrite Hz.
Qed.

Lemma take_bytes_more n (b c x rest : bytes) :
  take_bytes n b = Some (x, rest) → take_bytes n (b ++ c) = Some (x, rest ++ c) ∧ (length rest ≤ length b)%nat.
Proof.
  unfold take_bytes. case_decide as Hn; [|done]. intros [= <- <-].
  rewrite decide_True by (rewrite length_app; lia). rewrite take_app_le, drop_app_le by done.
  split; [done|]. rewrite length_drop. lia.
Qed.

Lemma get_value_app k (b c rest : bytes) v :
  get_value k b = Some (v, rest) → get_value k (b ++ c) = Some (v, rest ++ c) ∧ (length rest ≤ length b)%nat.
Proof.
  assert (∀ n (f : bytes → wire_value), ('(x, b) ← take_bytes n b; Some (f x, b)) = Some (v, rest) →
    ('(x, b) ← take_bytes n (b ++ c); Some (f x, b)) = Some (v, rest ++ c) ∧ (length rest ≤ length b)%nat) as Htake.
  { intros n f. destruct (take_bytes n b) as [[x r]|] eqn:Ht; [|done]. cbn [mbind option_bind]. intros [= <- <-].
    by destruct (take_bytes_more n b c x r Ht) as [-> Hl]. }
  assert (k = 0 ∨ k = 1 ∨ k = 2 ∨ k = 5 ∨ get_value k b = None) as [->|[->|[->|[->|Hk]]]]
    by (unfold get_value; repeat case_match; tauto).
  - simpl. destruct (read_varint b) as [[z b1]|] eqn:Hr; [|done]. cbn [mbind option_bind]. intros [= <- <-].
    destruct (read_varint_app b c b1 z Hr) as [-> Hl]. split; [done|lia].
  - apply Htake.
  - simpl. destruct (read_varint b) as [[len b1]|] eqn:Hr; [|done]. cbn [mbind option_bind].
    destruct (read_varint_app b c b1 len Hr) as [-> Hl]. cbn [mbind option_bind].
    destruct (take_bytes (Z.to_nat len) b1) as [[x r]|] eqn:Ht; [|done]. cbn [mbind option_bind]. intros [= <- <-].
    destruct (take_bytes_more _ b1 c x r Ht) as [-> Hl']. split; [done|lia].
  - apply Htake.
  - by rewrite Hk.
Qed.

Lemma get_field_app (b c rest : bytes) f :
  get_field b = Some (f, rest) → get_field (b ++ c) = Some (f, rest ++ c) ∧ (length rest < length b)%nat.
Proof.
  unfold get_field. destruct (read_varint b) as [[tag b1]|] eqn:Hr; [|done]. cbn [mbind option_bind].
  destruct (read_varint_app b c b1 tag Hr) as [-> Hl]. cbn [mbind option_bind]. case_match; [done|].
  destruct (get_value (tag `mod` 8) b1) as [[v r]|] eqn:Hv; [|done]. cbn [mbind option_bind]. intros [= <- <-].
  destruct (get_value_app _ b1 c r v Hv) as [-> Hl']. cbn [mbind option_bind]. split; [|lia].
  rewrite !length_app. replace (length b1 + length c - (length r + length c))%nat with (length b1 - length r)%nat by lia.
  by rewrite take_app_le by lia.
Qed.

Lemma get_fields_more (n m : nat) (b : bytes) fs :
  get_fields_fuel n b = Some fs → (n ≤ m)%nat → get_fields_fuel m b = Some fs.
Proof.
  revert m b fs. induction n as [|n IH]; intros m b fs; [destruct b; [by destruct m|done]|].
  destruct b as [|x b]; [by destruct m|]. destruct m as [|m]; [lia|]. cbn [get_fields_fuel].
  destruct (get_field (x :: b)) as [[f rest]|]; [|done]. cbn [mbind option_bind].
  destruct (get_fields_fuel n rest) as [gs|] eqn:Hg; [|done]. intros Hfs Hm. rewrite (IH m rest gs Hg) by lia. done.
Qed.

Lemma get_fields_fuel_app (n m : nat) (b c : bytes) fs gs :
  (length b ≤ n)%nat → (length (b ++ c) ≤ m)%nat → get_fields_fuel n b = Some fs → get_fields c = Some gs →
  get_fields_fuel m (b ++ c) = Some (fs ++ gs).
Proof.
  revert m b fs. induction n as [|n IH]; intros m b fs Hn Hm Hb Hc.
  - destruct b; [|simpl in Hn; lia]. injection Hb as <-. simpl in *. by apply (get_fields_more (length c)).
  - destruct b as [|x b]; [injection Hb as <-; simpl in *; by apply (get_fields_more (length c))|].
    destruct m as [|m]; [simpl in Hm; lia|]. cbn [get_fields_fuel app] in *.
    destruct (get_field (x :: b)) as [[f rest]|] eqn:Hf; [|done]. cbn [mbind option_bind] in Hb.
    destruct (get_field_app (x :: b) c rest f Hf) as [Hg Hl]. cbn [app] in Hg. rewrite Hg. cbn [mbind option_bind].
    destruct (get_fields_fuel n rest) as [fs1|] eqn:Hfs; [|done]. injection Hb as <-. simpl in Hn, Hm, Hl.
    rewrite length_app in Hm. rewrite (IH m rest fs1); [done|lia|rewrite length_app; lia|done|done].
Qed.

Lemma get_fields_app (b c : bytes) fs gs :
  get_fields b = Some fs → get_fields c = Some gs → get_fields (b ++ c) = Some (fs ++ gs).
Proof. intros Hb Hc. by apply (get_fields_fuel_app (length b)). Qed.

Lemma put_fields_app fs gs : put_fields (fs ++ gs) = put_fields fs ++ put_fields gs.
Proof. unfold put_fields. by rewrite fmap_app, concat_app. Qed.

(** What was put is got. *)
Lemma get_put_fields fs : forallb field_ok fs = true → get_fields (put_fields fs) = Some (encoded <$> fs).
Proof.
  induction fs as [|f fs IH]; [done|]. simpl. intros [Hf Hfs]%andb_true_iff.
  change (put_fields (f :: fs)) with (put_field f ++ put_fields fs).
  apply (get_fields_app _ _ [encoded f]); [|by apply IH]. unfold get_fields.
  pose proof (get_put_field f [] Hf) as Hg. rewrite app_nil_r in Hg.
  destruct (put_field_cons f) as (x & l & Heq). rewrite Heq in Hg |- *. cbn [length get_fields_fuel].
  rewrite Hg. by destruct (length l).
Qed.

(* ------------------------------------------------------------------ *)
(** * Messages *)

Definition bad_wire : error := Foreign (str "proto: cannot parse invalid wire-format data").
Definition bad_utf8 : error := Foreign (str "proto: string field contains invalid UTF-8").

(** A message type: its fields, how reading one changes a message ([None] for
    a number that the type does not have, or the wrong wire type), what it keeps
    of those, the message to start from, and which messages are within the types
    of their fields. *)
Class Wired (M : Type) := {
  fields : M → list field;
  set_known : M → field → option (outcome M);
  unknown : M → bytes;
  set_unknown : bytes → M → M;
  blank : M;
  fits : M → bool;
}.

Section messages.
Context {M : Type} `{!Wired M}.
Implicit Types (x y m : M) (fs : list field) (rs : list raw_field).

Definition set_field x (r : raw_field) : outcome M :=
  match set_known x r.1 with
  | Some y => y
  | None => Ok (set_unknown (unknown x ++ r.2) x)
  end.

Fixpoint set_fields x rs : outcome M :=
  match rs with
  | [] => Ok x
  | r :: rs => x ← set_field x r; set_fields x rs
  end.

Definition put_message m : bytes := put_fields (fields m) ++ unknown m.

(** A message that is there already is merged with what comes. *)
Definition merge x (b : bytes) : outcome M :=
  match get_fields b with Some rs => set_fields x rs | None => Err bad_wire end.

Lemma set_fields_app x rs ss : set_fields x (rs ++ ss) = y ← set_fields x rs; set_fields y ss.
Proof.
  revert x. induction rs as [|r rs IH]; intros x; simpl; [done|]. destruct (set_field x r); simpl; [apply IH|done..].
Qed.

(** Fields as they are written. *)
Definition set_each x fs : outcome M := set_fields x (encoded <$> fs).

Lemma set_each_app x fs gs : set_each x (fs ++ gs) = y ← set_each x fs; set_each y gs.
Proof. unfold set_each. by rewrite fmap_app, set_fields_app. Qed.

Lemma set_each_one x y f : set_known x f = Some (Ok y) → set_each x [f] = Ok y.
Proof. unfold set_each. simpl. unfold set_field. simpl. by intros ->. Qed.

(** A field of the zero value is left out. *)
Definition int_field (n z : Z) : list field := if z =? 0 then [] else [(n, WInt (to_u64 z))].
Definition bytes_field (n : Z) (b : bytes) : list field := match b with [] => [] | _ => [(n, WBytes b)] end.
Definition message_field n (m : option M) : list field :=
  match m with Some m => [(n, WBytes (put_message m))] | None => [] end.

(** The type has no such field. *)
Definition no_field (f : field) : bool := match set_known blank f with None => true | Some _ => false end.

(** What a message can have kept: whole fields that its type does not have, as
    they are read again. *)
Definition unknown_ok (b : bytes) : bool :=
  match get_fields b with
  | Some rs => forallb no_field rs.*1 && bool_decide (concat rs.*2 = b)
  | None => false
  end.

Definition nested_fits (m : option M) : bool :=
  match m with Some m => fits m && forallb field_ok (fields m) && unknown_ok (unknown m) | None => true end.
End messages.

Section one_field.
Context {M N : Type} `{!Wired M, !Wired N}.
Implicit Types (x y : M).

Lemma set_int_field x y n z :
  (z = 0 → x = y) → (z ≠ 0 → set_known x (n, WInt (to_u64 z)) = Some (Ok y)) → set_each x (int_field n z) = Ok y.
Proof.
  intros H0 Hn. unfold int_field. destruct (Z.eqb_spec z 0) as [Hz|Hz]; [unfold set_each; simpl; by rewrite H0|].
  by apply set_each_one, Hn.
Qed.

Lemma set_bytes_field x y n (b : bytes) :
  (b = [] → x = y) → (b ≠ [] → set_known x (n, WBytes b) = Some (Ok y)) → set_each x (bytes_field n b) = Ok y.
Proof.
  intros H0 Hn. unfold bytes_field. destruct b as [|c b]; [unfold set_each; simpl; by rewrite H0|]. by apply set_each_one, Hn.
Qed.

Lemma set_message_field x y n (m : option N) :
  (m = None → x = y) → (∀ m', m = Some m' → set_known x (n, WBytes (put_message m')) = Some (Ok y)) →
  set_each x (message_field n m) = Ok y.
Proof.
  intros H0 Hn. unfold message_field. destruct m as [m|]; [by apply set_each_one, Hn|]. unfold set_each. simpl. by rewrite H0.
Qed.
End one_field.

(** What a type promises: which fields it has does not depend on the message,
    [unknown] is a component of it, and its fields, read into the blank message,
    are the message without that component. *)
Class WiredLaws (M : Type) `{Wired M, Canonical M} := {
  known_any x y f : set_known x f = None → set_known y f = None;
  unknown_set u x : unknown (set_unknown u x) = u;
  set_unknown_same x : set_unknown (unknown x) x = x;
  set_unknown_twice u v x : set_unknown u (set_unknown v x) = set_unknown u x;
  unknown_canon m : unknown (canon m) = unknown m;
  set_fields_fields m : fits m = true → set_each blank (fields m) = Ok (set_unknown [] (canon m));
}.

Section laws.
Context `{WiredLaws M}.
Implicit Types (x m : M).

Lemma set_fields_unknown x (rs : list raw_field) :
  forallb no_field rs.*1 = true → set_fields x rs = Ok (set_unknown (unknown x ++ concat rs.*2) x).
Proof.
  revert x. induction rs as [|[f raw] rs IH]; intros x; simpl; [by rewrite app_nil_r, set_unknown_same|].
  intros [Hf Hrs]%andb_true_iff. unfold set_field. simpl. unfold no_field in Hf.
  rewrite (known_any blank x f) by by case_match. simpl. rewrite IH by done.
  by rewrite unknown_set, set_unknown_twice, app_assoc.
Qed.

Lemma get_fields_message m : nested_fits (Some m) = true →
  ∃ rs, get_fields (put_message m) = Some ((encoded <$> fields m) ++ rs)
    ∧ forallb no_field rs.*1 = true ∧ concat rs.*2 = unknown m.
Proof.
  intros [[_ Hf]%andb_true_iff Hu]%andb_true_iff. unfold unknown_ok in Hu. destruct (get_fields (unknown m)) as [rs|] eqn:Hg; [|done].
  apply andb_true_iff in Hu as [Hn Hc%bool_decide_eq_true]. exists rs. split_and!; [|done..].
  by apply get_fields_app; [apply get_put_fields|].
Qed.

(** A message is read as it was written, with what follows merged into it. *)
Lemma merge_put m (b : bytes) (ss : list raw_field) :
  nested_fits (Some m) = true → get_fields b = Some ss → merge blank (put_message m ++ b) = set_fields (canon m) ss.
Proof.
  intros Hm Hb. destruct (get_fields_message m Hm) as (rs & Hg & Hn & Hc). unfold merge.
  rewrite (get_fields_app _ _ _ _ Hg Hb), !set_fields_app. fold (set_each blank (fields m)).
  apply andb_true_iff in Hm as [[Hm _]%andb_true_iff _]. rewrite set_fields_fields by done. cbn [mbind outcome_bind].
  rewrite set_fields_unknown by done. cbn [mbind outcome_bind]. rewrite unknown_set, set_unknown_twice. cbn [app].
  by rewrite Hc, <-(unknown_canon m), set_unknown_same.
Qed.

Lemma merge_message m : nested_fits (Some m) = true → merge blank (put_message m) = Ok (canon m).
Proof. intros Hm. rewrite <-(app_nil_r (put_message m)). by rewrite (merge_put m [] []). Qed.

Lemma unknown_ok_app (b : bytes) (u : list field) :
  unknown_ok b = true → forallb field_ok u = true → forallb no_field u = true → unknown_ok (b ++ put_fields u) = true.
Proof.
  unfold unknown_ok. destruct (get_fields b) as [rs|] eqn:Hb; [|done].
  intros [Hn <-%bool_decide_eq_true]%andb_true_iff Hu Hnu. rewrite (get_fields_app _ _ _ _ Hb (get_put_fields u Hu)).
  rewrite !fmap_app, forallb_app, Hn, concat_app, encoded_fst, encoded_snd, Hnu. by apply bool_decide_eq_true.
Qed.
End laws.

Definition i32_ok (z : Z) : bool := (- 2 ^ 31 <=? z) && (z <? 2 ^ 31).
Definition i64_ok (z : Z) : bool := (- 2 ^ 63 <=? z) && (z <? 2 ^ 63).

Lemma to_i32_u64 z : i32_ok z = true → to_i32 (to_u64 z) = z.
Proof.
  unfold i32_ok, to_i32, to_u64. rewrite andb_true_iff, Z.leb_le, Z.ltb_lt. intros Hz. Z.div_mod_to_equations. lia.
Qed.

Lemma to_i64_u64 z : i64_ok z = true → to_i64 (to_u64 z) = z.
Proof.
  unfold i64_ok, to_i64, to_u64. rewrite andb_true_iff, Z.leb_le, Z.ltb_lt. intros Hz. Z.div_mod_to_equations. lia.
Qed.

(** A [string] must be UTF-8. *)
Definition utf8 {A} (b : bytes) (a : A) : outcome A := if valid_utf8 b then Ok a else Err bad_utf8.

Lemma utf8_Ok {A} (b : bytes) (a : A) : valid_utf8 b = true → utf8 b a = Ok a.
Proof. unfold utf8. by intros ->. Qed.

Lemma canon_slice_empty (s : slice) : sbytes s = [] → canon_slice s = None.
Proof. by destruct s as [[|]|]. Qed.

(** Of an empty byte string the runtime makes nil, if it is on the wire at all. *)
Definition read_slice (b : bytes) : slice := canon_slice (Some b).

Lemma read_slice_bytes (s : slice) : read_slice (sbytes s) = canon_slice s.
Proof. by destruct s as [[|]|]. Qed.

(** ** The types *)

#[export] Instance EntryHeader_canonical : Canonical EntryHeader.t := canon_EntryHeader.
#[export] Instance ReqStatus_canonical : Canonical ReqStatus.t := canon_ReqStatus.
#[export] Instance ReqErr_canonical : Canonical ReqErr.t := λ e, e.
#[export] Instance TopicPointer_canonical : Canonical TopicPointer.t := λ p,
  TopicPointer.make (TopicPointer.ID p) (canon_slice (TopicPointer.LastEntryPublished p)) (TopicPointer.unknownFields p).

Definition EntryHeader_fields (h : EntryHeader.t) : list field :=
  bytes_field 1 (sbytes (EntryHeader.EntryID h)) ++ bytes_field 2 (sbytes (EntryHeader.MemberID h))
  ++ bytes_field 10 (sbytes (EntryHeader.ParentID h)) ++ bytes_field 11 (EntryHeader.EntryCodec h)
  ++ bytes_field 15 (EntryHeader.FeedURI h).

Definition EntryHeader_set (h : EntryHeader.t) (f : field) : option (outcome EntryHeader.t) :=
  let '(EntryHeader.make id member parent codec uri u) := h in
  match f with
  | (1, WBytes b) => Some (Ok (EntryHeader.make (read_slice b) member parent codec uri u))
  | (2, WBytes b) => Some (Ok (EntryHeader.make id (read_slice b) parent codec uri u))
  | (10, WBytes b) => Some (Ok (EntryHeader.make id member (read_slice b) codec uri u))
  | (11, WBytes b) => Some (utf8 b (EntryHeader.make id member parent b uri u))
  | (15, WBytes b) => Some (utf8 b (EntryHeader.make id member parent codec b u))
  | _ => None
  end.

#[export] Instance EntryHeader_wired : Wired EntryHeader.t := {|
  fields := EntryHeader_fields;
  set_known := EntryHeader_set;
  unknown := EntryHeader.unknownFields;
  set_unknown u x := let '(EntryHeader.make id member parent codec uri _) := x in EntryHeader.make id member parent codec uri u;
  blank := EntryHeader.empty;
  fits h := valid_utf8 (EntryHeader.EntryCodec h) && valid_utf8 (EntryHeader.FeedURI h);
|}.

Definition ReqStatus_fields (s : ReqStatus.t) : list field :=
  int_field 1 (ReqStatus.ReqID s) ++ int_field 2 (ReqStatus.Code s) ++ bytes_field 3 (ReqStatus.Msg s)
  ++ bytes_field 4 (sbytes (ReqStatus.EntryID s)) ++ int_field 10 (ReqStatus.BytesRemaining s)
  ++ int_field 11 (ReqStatus.SecsRemaining s).

Definition ReqStatus_set (s : ReqStatus.t) (f : field) : option (outcome ReqStatus.t) :=
  let '(ReqStatus.make req code msg id bytes_ secs u) := s in
  match f with
  | (1, WInt z) => Some (Ok (ReqStatus.make (to_i32 z) code msg id bytes_ secs u))
  | (2, WInt z) => Some (Ok (ReqStatus.make req (to_i32 z) msg id bytes_ secs u))
  | (3, WBytes b) => Some (utf8 b (ReqStatus.make req code b id bytes_ secs u))
  | (4, WBytes b) => Some (Ok (ReqStatus.make req code msg (read_slice b) bytes_ secs u))
  | (10, WInt z) => Some (Ok (ReqStatus.make req code msg id (to_i64 z) secs u))
  | (11, WInt z) => Some (Ok (ReqStatus.make req code msg id bytes_ (to_i64 z) u))
  | _ => None
  end.

#[export] Instance ReqStatus_wired : Wired ReqStatus.t := {|
  fields := ReqStatus_fields;
  set_known := ReqStatus_set;
  unknown := ReqStatus.unknownFields;
  set_unknown u x := let '(ReqStatus.make req code msg id bytes_ secs _) := x in ReqStatus.make req code msg id bytes_ secs u;
  blank := ReqStatus.mk 0 0 [] None 0 0;
  fits s := i32_ok (ReqStatus.ReqID s) && i32_ok (ReqStatus.Code s) && valid_utf8 (ReqStatus.Msg s)
    && i64_ok (ReqStatus.BytesRemaining s) && i64_ok (ReqStatus.SecsRemaining s);
|}.

Definition ReqErr_fields (e : ReqErr.t) : list field := int_field 1 (ReqErr.Code e) ++ bytes_field 2 (ReqErr.Msg e).

Definition ReqErr_set (e : ReqErr.t) (f : field) : option (outcome ReqErr.t) :=
  let '(ReqErr.make code msg u) := e in
  match f with
  | (1, WInt z) => Some (Ok (ReqErr.make (to_i32 z) msg u))
  | (2, WBytes b) => Some (utf8 b (ReqErr.make code b u))
  | _ => None
  end.

#[export] Instance ReqErr_wired : Wired ReqErr.t := {|
  fields := ReqErr_fields;
  set_known := ReqErr_set;
  unknown := ReqErr.unknownFields;
  set_unknown u x := let '(ReqErr.make code msg _) := x in ReqErr.make code msg u;
  blank := ReqErr.mk 0 [];
  fits e := i32_ok (ReqErr.Code e) && valid_utf8 (ReqErr.Msg e);
|}.

Definition Msg_fields (m : Msg.t) : list field :=
  int_field 1 (Msg.Op m) ++ int_field 2 (Msg.ReqID m) ++ message_field 8 (Msg.EntryHeader m)
  ++ bytes_field 10 (sbytes (Msg.Body m)) ++ message_field 20 (Msg.Status m) ++ message_field 30 (Msg.Err m).

Definition Msg_set (m : Msg.t) (f : field) : option (outcome Msg.t) :=
  let '(Msg.make op req header body status err u) := m in
  match f with
  | (1, WInt z) => Some (Ok (Msg.make (to_i32 z) req header body status err u))
  | (2, WInt z) => Some (Ok (Msg.make op (to_i32 z) header body status err u))
  | (8, WBytes b) => Some (h ← merge (default blank header) b; Ok (Msg.make op req (Some h) body status err u))
  | (10, WBytes b) => Some (Ok (Msg.make op req header (read_slice b) status err u))
  | (20, WBytes b) => Some (s ← merge (default blank status) b; Ok (Msg.make op req header body (Some s) err u))
  | (30, WBytes b) => Some (e ← merge (default blank err) b; Ok (Msg.make op req header body status (Some e) u))
  | _ => None
  end.

#[export] Instance Msg_wired : Wired Msg.t := {|
  fields := Msg_fields;
  set_known := Msg_set;
  unknown := Msg.unknownFields;
  set_unknown u x := let '(Msg.make op req header body status err _) := x in Msg.make op req header body status err u;
  blank := Msg.empty;
  fits m := i32_ok (Msg.Op m) && i32_ok (Msg.ReqID m) && nested_fits (Msg.EntryHeader m)
    && nested_fits (Msg.Status m) && nested_fits (Msg.Err m);
|}.

Definition Peer_fields (p : Peer.t) : list field :=
  int_field 1 (Peer.Op p) ++ bytes_field 2 (Peer.ID p) ++ bytes_field 3 (sbytes (Peer.Key p))
  ++ ((λ a, (5, WBytes a)) <$> Peer.Multiaddrs p).

Definition Peer_set (p : Peer.t) (f : field) : option (outcome Peer.t) :=
  let '(Peer.make op id key addrs u) := p in
  match f with
  | (1, WInt z) => Some (Ok (Peer.make (to_i32 z) id key addrs u))
  | (2, WBytes b) => Some (utf8 b (Peer.make op b key addrs u))
  | (3, WBytes b) => Some (Ok (Peer.make op id (read_slice b) addrs u))
  | (5, WBytes b) => Some (Ok (Peer.make op id key (addrs ++ [b]) u))
  | _ => None
  end.

#[export] Instance Peer_wired : Wired Peer.t := {|
  fields := Peer_fields;
  set_known := Peer_set;
  unknown := Peer.unknownFields;
  set_unknown u x := let '(Peer.make op id key addrs _) := x in Peer.make op id key addrs u;
  blank := Peer.mk 0 [] None [];
  fits p := i32_ok (Peer.Op p) && valid_utf8 (Peer.ID p);
|}.

Definition TopicPointer_fields (p : TopicPointer.t) : list field :=
  bytes_field 1 (TopicPointer.ID p) ++ bytes_field 2 (sbytes (TopicPointer.LastEntryPublished p)).

Definition TopicPointer_set (p : TopicPointer.t) (f : field) : option (outcome TopicPointer.t) :=
  let '(TopicPointer.make id last u) := p in
  match f with
  | (1, WBytes b) => Some (utf8 b (TopicPointer.make b last u))
  | (2, WBytes b) => Some (Ok (TopicPointer.make id (read_slice b) u))
  | _ => None
  end.

#[export] Instance TopicPointer_wired : Wired TopicPointer.t := {|
  fields := TopicPointer_fields;
  set_known := TopicPointer_set;
  unknown := TopicPointer.unknownFields;
  set_unknown u x := let '(TopicPointer.make id last _) := x in TopicPointer.make id last u;
  blank := TopicPointer.mk [] None;
  fits p := valid_utf8 (TopicPointer.ID p);
|}.

Definition PubsubState_fields (s : PubsubState.t) : list field :=
  ((λ p, (1, WBytes (put_message p))) <$> PubsubState.Topics s)
  ++ ((λ p, (2, WBytes (put_message p))) <$> PubsubState.Peers s).

Definition PubsubState_set (s : PubsubState.t) (f : field) : option (outcome PubsubState.t) :=
  let '(PubsubState.make topics peers u) := s in
  match f with
  | (1, WBytes b) => Some (p ← merge blank b; Ok (PubsubState.make (topics ++ [p]) peers u))
  | (2, WBytes b) => Some (p ← merge blank b; Ok (PubsubState.make topics (peers ++ [p]) u))
  | _ => None
  end.

#[export] Instance PubsubState_wired : Wired PubsubState.t := {|
  fields := PubsubState_fields;
  set_known := PubsubState_set;
  unknown := PubsubState.unknownFields;
  set_unknown u x := let '(PubsubState.make topics peers _) := x in PubsubState.make topics peers u;
  blank := PubsubState.empty;
  fits s := forallb (λ p, nested_fits (Some p)) (PubsubState.Topics s)
    && forallb (λ p, nested_fits (Some p)) (PubsubState.Peers s);
|}.

(** ** The laws *)

#[local] Arguments sbytes : simpl never.
#[local] Arguments canon_slice : simpl never.
#[local] Arguments i32_ok : simpl never.
#[local] Arguments to_i32 : simpl never.
#[local] Arguments to_u64 : simpl never.
#[local] Arguments to_i64 : simpl never.

(** One field after another: what the message is once it has been read. *)
Ltac next_field x := rewrite set_each_app;
  first [rewrite (set_int_field _ x) | rewrite (set_bytes_field _ x) | rewrite (set_message_field _ x)];
  cbn [mbind outcome_bind].
Ltac field_done := simpl; let Hx := fresh in intros Hx; try rewrite (canon_slice_empty _ Hx);
  rewrite ?read_slice_bytes, ?utf8_Ok, ?to_i32_u64, ?to_i64_u64 by done; first [reflexivity | congruence | subst; reflexivity].
Ltac component := simpl; first [by intros ? [] | by intros ? ? [] | by intros []].
Ltac any_message := intros [] [] [n v]; simpl; repeat case_match; done.

#[export] Instance EntryHeader_laws : WiredLaws EntryHeader.t.
Proof.
  split; [any_message|component..|].
  intros [id member parent codec uri u] [Hc Hu]%andb_true_iff. simpl in Hc, Hu. simpl fields. unfold EntryHeader_fields. simpl.
  next_field (EntryHeader.mk (canon_slice id) None None [] []); [|field_done..].
  next_field (EntryHeader.mk (canon_slice id) (canon_slice member) None [] []); [|field_done..].
  next_field (EntryHeader.mk (canon_slice id) (canon_slice member) (canon_slice parent) [] []); [|field_done..].
  next_field (EntryHeader.mk (canon_slice id) (canon_slice member) (canon_slice parent) codec []); [|field_done..].
  apply set_bytes_field; field_done.
Qed.

#[export] Instance ReqStatus_laws : WiredLaws ReqStatus.t.
Proof.
  split; [any_message|component..|].
  intros [req code msg id left secs u]. simpl. rewrite !andb_true_iff. intros [[[[Hr Hc] Hm] Hb] Hs]. unfold ReqStatus_fields. simpl.
  next_field (ReqStatus.mk req 0 [] None 0 0); [|field_done..].
  next_field (ReqStatus.mk req code [] None 0 0); [|field_done..].
  next_field (ReqStatus.mk req code msg None 0 0); [|field_done..].
  next_field (ReqStatus.mk req code msg (canon_slice id) 0 0); [|field_done..].
  next_field (ReqStatus.mk req code msg (canon_slice id) left 0); [|field_done..].
  apply set_int_field; field_done.
Qed.

#[export] Instance ReqErr_laws : WiredLaws ReqErr.t.
Proof.
  split; [any_message|component..|].
  intros [code msg u]. simpl. rewrite !andb_true_iff. intros [Hc Hm]. unfold ReqErr_fields. simpl.
  next_field (ReqErr.mk code []); [|field_done..]. apply set_bytes_field; field_done.
Qed.

(** An embedded message. *)
Ltac nested_done := intros ? ->;
  match goal with Hn : nested_fits (Some _) = true |- _ => apply merge_message in Hn; simpl in Hn |- *; rewrite Hn end;
  reflexivity.

#[export] Instance Msg_laws : WiredLaws Msg.t.
Proof.
  split; [any_message|component..|].
  intros [op req header body status err u]. simpl. rewrite !andb_true_iff. intros [[[[Ho Hr] Hh] Hs] He]. unfold Msg_fields. simpl.
  next_field (Msg.mk op 0 None None None None); [|field_done..].
  next_field (Msg.mk op req None None None None); [|field_done..].
  next_field (Msg.mk op req (canon <$> header) None None None); [|field_done|nested_done].
  next_field (Msg.mk op req (canon <$> header) (canon_slice body) None None); [|field_done..].
  next_field (Msg.mk op req (canon <$> header) (canon_slice body) (canon <$> status) None); [|field_done|nested_done].
  apply set_message_field; [field_done|nested_done].
Qed.

(** The elements of a repeated field come one by one. *)
Lemma set_repeated {M A} `{!Wired M} (put : A → field) (add : M → A → M) (l : list A) (x : M) :
  (∀ x a, a ∈ l → set_known x (put a) = Some (Ok (add x a))) → set_each x (put <$> l) = Ok (foldl add x l).
Proof.
  revert x. induction l as [|a l IH]; intros x Hl; [done|].
  change (set_each x ([put a] ++ (put <$> l)) = Ok (foldl add (add x a) l)).
  rewrite set_each_app, (set_each_one _ _ _ (Hl x a ltac:(left))). cbn [mbind outcome_bind].
  apply IH. intros y b Hb. apply Hl. by right.
Qed.

Lemma foldl_snoc {M A B} (add : M → A → M) (mk : list B → M) (g : A → B) (l : list A) (acc : list B) :
  (∀ acc a, add (mk acc) a = mk (acc ++ [g a])) → foldl add (mk acc) l = mk (acc ++ (g <$> l)).
Proof.
  intros Hadd. revert acc. induction l as [|a l IH]; intros acc; simpl; [by rewrite app_nil_r|].
  by rewrite Hadd, IH, <-app_assoc.
Qed.

#[export] Instance TopicPointer_laws : WiredLaws TopicPointer.t.
Proof.
  split; [any_message|component..|].
  intros [id last u]. simpl. intros Hi. unfold TopicPointer_fields. simpl.
  next_field (TopicPointer.mk id None); [|field_done..].
  apply set_bytes_field; field_done.
Qed.

#[export] Instance Peer_laws : WiredLaws Peer.t.
Proof.
  split; [any_message|component..|].
  intros [op id key addrs u]. simpl. rewrite andb_true_iff. intros [Ho Hi]. unfold Peer_fields. simpl.
  next_field (Peer.mk op [] None []); [|field_done..].
  next_field (Peer.mk op id None []); [|field_done..].
  next_field (Peer.mk op id (canon_slice key) []); [|field_done..].
  rewrite (set_repeated _ (λ p a, Peer.make (Peer.Op p) (Peer.ID p) (Peer.Key p) (Peer.Multiaddrs p ++ [a]) (Peer.unknownFields p)))
    by by intros [].
  f_equal. rewrite (foldl_snoc _ (Peer.mk op id (canon_slice key)) (λ a, a)) by done. simpl. by rewrite list_fmap_id.
Qed.

#[export] Instance PubsubState_laws : WiredLaws PubsubState.t.
Proof.
  split; [any_message|component..|].
  intros [topics peers u]. cbn [fits PubsubState_wired PubsubState.Topics PubsubState.Peers]. rewrite andb_true_iff, !forallb_forall. intros [Ht Hp].
  cbn [fields PubsubState_wired]. unfold PubsubState_fields.
  rewrite set_each_app. simpl.
  rewrite (set_repeated _ (λ s p, PubsubState.make (PubsubState.Topics s ++ [canon p]) (PubsubState.Peers s) (PubsubState.unknownFields s))).
  2: { intros [ts ps v] p Hin%list_elem_of_In. apply Ht, merge_message in Hin. simpl in Hin |- *. by rewrite Hin. }
  simpl. rewrite (set_repeated _ (λ s p, PubsubState.make (PubsubState.Topics s) (PubsubState.Peers s ++ [canon p]) (PubsubState.unknownFields s))).
  2: { intros [ts ps v] p Hin%list_elem_of_In. apply Hp, merge_message in Hin. simpl in Hin |- *. by rewrite Hin. }
  f_equal. rewrite (foldl_snoc _ (λ ts, PubsubState.mk ts []) canon topics []) by done.
  by rewrite (foldl_snoc _ (PubsubState.mk ([] ++ (canon <$> topics))) canon peers []).
Qed.

(** The canonical message is written in the same way. *)
Lemma EntryHeader_canon_fields (h : EntryHeader.t) : fields (canon h) = fields h.
Proof. destruct h. simpl. unfold EntryHeader_fields. simpl. by rewrite !canon_slice_bytes. Qed.

Lemma ReqStatus_canon_fields (s : ReqStatus.t) : fields (canon s) = fields s.
Proof. destruct s. simpl. unfold ReqStatus_fields. simpl. by rewrite canon_slice_bytes. Qed.

Lemma message_field_canon `{WiredLaws M} n (m : option M) :
  (∀ x : M, fields (canon x) = fields x) → message_field n (canon <$> m) = message_field n m.
Proof. intros Hc. destruct m as [m|]; [|done]. simpl. unfold put_message. by rewrite Hc, unknown_canon. Qed.

Lemma Msg_canon_fields (m : Msg.t) : fields (canon m) = fields m.
Proof.
  destruct m as [op req header body status err u].
  assert (message_field 8 (canon_EntryHeader <$> header) = message_field 8 header) as H8
    by exact (message_field_canon 8 header EntryHeader_canon_fields).
  assert (message_field 20 (canon_ReqStatus <$> status) = message_field 20 status) as H20
    by exact (message_field_canon 20 status ReqStatus_canon_fields).
  simpl. unfold Msg_fields. simpl. by rewrite canon_slice_bytes, H8, H20.
Qed.

Lemma nested_fits_canon `{WiredLaws M} (m : option M) :
  (∀ x : M, fields (canon x) = fields x) → (∀ x : M, fits (canon x) = fits x) → nested_fits (canon <$> m) = nested_fits m.
Proof. intros Hc Hf. destruct m as [m|]; [|done]. simpl. by rewrite Hc, Hf, unknown_canon. Qed.

Lemma Msg_canon_fits (m : Msg.t) : fits (canon m) = fits m.
Proof.
  destruct m as [op req header body status err u]. cbn [fits Msg_wired]. simpl. f_equal. f_equal; [f_equal|].
  - apply (nested_fits_canon header EntryHeader_canon_fields). by intros [].
  - apply (nested_fits_canon status ReqStatus_canon_fields). by intros [].
Qed.

Lemma Msg_canon_nested_fits (m : Msg.t) : nested_fits (Some (canon m)) = nested_fits (Some m).
Proof. exact (nested_fits_canon (Some m) Msg_canon_fields Msg_canon_fits). Qed.

(* ------------------------------------------------------------------ *)
(** * The codec *)

Module WireCodec.
(** Marshalling fails for strings that are not UTF-8; numbers beyond the width
    of their fields, and byte strings beyond that of a length, are no Go values. *)
#[export] Instance codec (M : Type) `{Wired M} : ProtoCodec M := {|
  Marshal m := if nested_fits (Some m) then Ok (put_message m) else Err bad_utf8;
  Unmarshal b := match merge blank b with
                 | Ok m => (m, None)
                 | Err e => (blank, Some e)
                 | Panic => (blank, Some bad_wire)
                 end;
|}.

#[export] Instance laws (M : Type) `{WiredLaws M} : ProtoLaws M.
Proof.
  split; cbn [Marshal Unmarshal codec]; intros m; [by case_match|]. intros b. case_match eqn:Hm; [|done]. intros [= <-].
  by rewrite merge_message.
Qed.

Lemma Marshal_canon (m : Msg.t) : Marshal (canon m) = Marshal m.
Proof. cbn [Marshal codec]. rewrite Msg_canon_nested_fits. unfold put_message. by rewrite Msg_canon_fields, unknown_canon. Qed.
End WireCodec.

(** With more that it keeps, a message is as good, and is written with that. *)
Lemma nested_fits_more (m : Msg.t) (u : list field) :
  nested_fits (Some m) = true → forallb field_ok u = true → forallb (no_field (M:=Msg.t)) u = true →
  let m' := set_unknown (unknown m ++ put_fields u) m in
  nested_fits (Some m') = true ∧ put_message m' = put_message m ++ put_fields u.
Proof.
  destruct m as [op req header body status err k]. intros [Hm Hu]%andb_true_iff Hf Hn m'. split.
  - apply andb_true_iff. split; [exact Hm|]. by apply unknown_ok_app.
  - unfold put_message. by rewrite <-app_assoc.
Qed.

(* ------------------------------------------------------------------ *)
(** * Property *)

Import WireCodec.


(* ------------------------------------------------------------------ *)
(** * Witness *)

Module WireExamples.
Definition m0 : Msg.t :=
  Msg.mk MsgOp_ReqComplete (-1) (Some (EntryHeader.mk (Some [x0a]) (Some []) None (str "v1") [])) (Some (str "hi")) None None.

(** As protobuf documents it: tags 08, 10, 42 and 52, a negative number in ten bytes. *)
Example wire_bytes : Marshal m0 = Ok
  [x08; x01; x10; xff; xff; xff; xff; xff; xff; xff; xff; xff; x01;
   x42; x07; x0a; x01; x0a; x5a; x02; x76; x31; x52; x02; x68; x69].
Proof. vm_compute. reflexivity. Qed.

(** The last of two values counts; what is cut short is refused; a known number
    of another wire type is kept with its bytes. *)
Example wire_twice : Unmarshal (M:=Msg.t) [x08; x01; x08; x03] = (Msg.mk 3 0 None None None None, None).
Proof. vm_compute. reflexivity. Qed.
Example wire_short : Unmarshal (M:=Msg.t) [x52; x02; x68] = (Msg.empty, Some bad_wire).
Proof. vm_compute. reflexivity. Qed.
Example wire_other_type : Unmarshal (M:=Msg.t) [x0a; x01; x07; x08; x01] =
  (Msg.make 1 0 None None None None [x0a; x01; x07], None).
Proof. vm_compute. reflexivity. Qed.

(** Two fields of a later version, one of them read before, and what is kept of them. *)
Definition m1 : Msg.t :=
  Msg.make MsgOp_ReqComplete (-1) (Msg.EntryHeader m0) (Some (str "hi")) None None [x78; x01].

End WireExamples.
