(* ===== verification/Helpers.v ===== *)
(** [helpers/func.go]: channel ids, entry ids and their timestamps.

    The clock ([time.Now]), the random source ([crypto/rand]) and the hash
    ([crypto/sha256]) are arguments: the theorems hold for every clock
    reading and every random string.  An entry id is thirty bytes, an
    eight-byte big-endian timestamp in 1/65536 s followed by a random suffix,
    so that byte order is time order. *)
From S2P Require Import Prelude Protos.

(** [sha256.Sum256]: a 32-byte digest. *)
Class Sha256 := {
  Sum256 : bytes → bytes;
  Sum256_length b : length (Sum256 b) = 32%nat;
}.

(** A 32-byte function, for the examples. *)
Module RefHash.
#[export, refine] Instance hash : Sha256 := {| Sum256 b := copy_at (zeros 32) 0 b |}.
Proof. intros b. apply (length_copy_at (zeros 32)). simpl. lia. Defined.
End RefHash.

(** A [time.Now()]: seconds since the epoch and the nanosecond in [0, 10^9). *)
Record Time := mkTime { Unix : Z; Nanosecond : Z }.

Definition time_ok (t : Time) : Prop :=
  0 ≤ Unix t < 2 ^ 47 ∧ 0 ≤ Nanosecond t < 1000000000.

#[global] Instance time_ok_dec t : Decision (time_ok t).
Proof. unfold time_ok. apply _. Defined.

Definition ChannelURItoChannelID `{Sha256} (feedURI : gostring) : bytes :=
  Sum256 feedURI.

(** [type UUID string] *)
Abbreviation UUID := (list byte) (only parsing).

(** [fmt.Sprintf] with the verb [%x], of bytes: two digits each. *)
Definition hex (b : bytes) : gostring :=
  concat (map (λ x, [hex_byte (byte_Z x / 16); hex_byte (byte_Z x `mod` 16)]) b).

(** [NewUUID()], with what [crand.Read] of sixteen bytes returned. *)
Definition NewUUID (read : outcome bytes) : outcome UUID :=
  match read with
  | Ok rnd => Ok (hex (fit 16 rnd))
  | _ => Panic
  end.

(** [timestamp()]: seconds and a sixteen-bit binary fraction. *)
Definition timestamp (t : Time) : Z :=
  let timeFS := to_i64 (Z.shiftl (Unix t) 16) in
  let frac := to_u16 (Z.shiftr (to_u32 (2199 * Z.shiftr (to_u32 (Nanosecond t)) 10)) 15) in
  to_i64 (Z.lor timeFS frac).

(** [NewEntryID()], at time [now] and with [rnd] what [crand.Read] put in
    [id[8:]]. *)
Definition NewEntryID (now : Time) (rnd : bytes) : bytes :=
  let id := zeros 30 in
  let t := timestamp now in
  let id := set_byte id 0 (byte_of_Z (Z.shiftr t 56)) in
  let id := set_byte id 1 (byte_of_Z (Z.shiftr t 48)) in
  let id := set_byte id 2 (byte_of_Z (Z.shiftr t 40)) in
  let id := set_byte id 3 (byte_of_Z (Z.shiftr t 32)) in
  let id := set_byte id 4 (byte_of_Z (Z.shiftr t 24)) in
  let id := set_byte id 5 (byte_of_Z (Z.shiftr t 16)) in
  let id := set_byte id 6 (byte_of_Z (Z.shiftr t 8)) in
  let id := set_byte id 7 (byte_of_Z t) in
  copy_at id 8 rnd.

(** [NewEntry(msg)] *)
Definition NewEntry (now : Time) (rnd : bytes) (msg : gostring) : Msg.t :=
  Msg.mk MsgOp_FeedEntry 0
    (Some (EntryHeader.mk (Some (NewEntryID now rnd)) None None [] []))
    (Some msg) None None.

(* ------------------------------------------------------------------ *)
(** * Lemmas *)

Lemma to_i64_small z : - 2 ^ 63 ≤ z < 2 ^ 63 → to_i64 z = z.
Proof. intros H. unfold to_i64. rewrite Z.mod_small by lia. lia. Qed.

(** No step of the fraction overflows its Go type, and the fraction is the
    nanosecond count in units of 2^25/2199 ns: it never reaches 2^16. *)
Lemma frac_exact ns :
  0 ≤ ns < 1000000000 →
  to_u16 (Z.shiftr (to_u32 (2199 * Z.shiftr (to_u32 ns) 10)) 15)
    = (2199 * (ns `div` 1024)) `div` 32768
  ∧ 0 ≤ (2199 * (ns `div` 1024)) `div` 32768 < 65536.
Proof.
  intros Hns. unfold to_u16, to_u32. rewrite !Z.shiftr_div_pow2 by lia.
  change (2 ^ 10) with 1024. change (2 ^ 15) with 32768.
  rewrite (Z.mod_small ns) by lia.
  assert (0 ≤ ns `div` 1024 ≤ 976562) as Hq by (Z.div_mod_to_equations; lia).
  rewrite (Z.mod_small (2199 * _)) by lia.
  assert (0 ≤ (2199 * (ns `div` 1024)) `div` 32768 < 65536) by (Z.div_mod_to_equations; lia).
  by rewrite Z.mod_small by lia.
Qed.

Lemma lor_low_bits a b n :
  0 ≤ n → 0 ≤ b < 2 ^ n → Z.lor (Z.shiftl a n) b = a * 2 ^ n + b.
Proof.
  intros Hn Hb. rewrite <-Z.shiftl_mul_pow2 by lia.
  assert (Z.land (Z.shiftl a n) b = 0) as Hz; [|pose proof (Z.add_lor_land (Z.shiftl a n) b); lia].
  apply Z.bits_inj'. intros i Hi. rewrite Z.land_spec, Z.bits_0.
  destruct (decide (i < n)).
  - by rewrite Z.shiftl_spec_low.
  - rewrite <-(Z.mod_small b (2 ^ n)) by done.
    rewrite Z.mod_pow2_bits_high by lia. by rewrite andb_false_r.
Qed.

Lemma timestamp_value t :
  time_ok t →
  timestamp t = Unix t * 65536 + (2199 * (Nanosecond t `div` 1024)) `div` 32768
  ∧ 0 ≤ timestamp t < 2 ^ 63.
Proof.
  intros [Hs Hn]. destruct (frac_exact _ Hn) as [Hf Hr].
  assert (timestamp t = Unix t * 65536 + (2199 * (Nanosecond t `div` 1024)) `div` 32768) as Heq.
  { unfold timestamp. rewrite Hf. rewrite (to_i64_small (Z.shiftl _ _)).
    - rewrite lor_low_bits by lia. rewrite to_i64_small by lia. lia.
    - rewrite Z.shiftl_mul_pow2 by lia. lia. }
  split; [done|]. rewrite Heq. lia.
Qed.

(** The bytes of an entry id. *)
Lemma NewEntryID_bytes now rnd :
  NewEntryID now rnd = be_bytes 8 (timestamp now) ++ fit 22 rnd.
Proof.
  unfold NewEntryID, set_byte. generalize (timestamp now); intros t.
  change 30%nat with (8 + 22)%nat. unfold zeros. rewrite replicate_add. fold (zeros 22).
  cbn [replicate app insert list_insert Nat.pred].
  apply (copy_at_zeros (be_bytes 8 t)).
Qed.

Lemma length_NewEntryID now rnd : length (NewEntryID now rnd) = 30%nat.
Proof. rewrite NewEntryID_bytes. by len. Qed.

#[export] Hint Rewrite length_NewEntryID : vlen.

#[export] Instance hex_inj : Inj (=) (=) hex.
Proof.
  intros a. induction a as [|x a IH]; intros [|y b]; [done|discriminate..|].
  unfold hex. simpl. intros [= Hd Hm He]. apply IH in He as ->. f_equal.
  pose proof (byte_Z_range x). pose proof (byte_Z_range y).
  apply hex_byte_inj in Hd, Hm; try (Z.div_mod_to_equations; lia).
  apply (inj byte_Z). Z.div_mod_to_equations; lia.
Qed.

(** ** Properties *)

(** Ids are as distinct as the random bytes they are made of, and a source
    that fails ends the process. *)
Lemma NewUUID_distinct (a b : bytes) id :
  length a = 16%nat → length b = 16%nat → NewUUID (Ok a) = Ok id → NewUUID (Ok b) = Ok id → a = b.
Proof. unfold NewUUID. intros Ha Hb. rewrite !fit_exact by done. intros [= <-] [= He]. by apply (inj hex). Qed.

(** The timestamp never overflows its int64 nor its uint16 fraction,
    and is the time in 1/65536 s, rounded down by less than two units. *)
Lemma timestamp_exact (t : Time) :
  time_ok t →
  0 ≤ timestamp t < 2 ^ 63 ∧
  timestamp t `div` 65536 = Unix t ∧
  0 ≤ Nanosecond t * 65536 - (timestamp t `mod` 65536) * 1000000000 < 2 * 1000000000.
Proof.
  intros Ht. destruct (timestamp_value t Ht) as [Heq Hr]. destruct Ht as [Hs Hn].
  destruct (frac_exact _ Hn) as [_ Hf].
  set (f := (2199 * (Nanosecond t `div` 1024)) `div` 32768) in *.
  assert (timestamp t `div` 65536 = Unix t) as Hd by (rewrite Heq; Z.div_mod_to_equations; lia).
  assert (timestamp t `mod` 65536 = f) as Hm by (rewrite Heq; Z.div_mod_to_equations; lia).
  split; [done|]. split; [done|]. rewrite Hm. subst f. Z.div_mod_to_equations. lia.
Qed.

(** Entry ids sort by time of creation: two ids made at least 16384 ns
    apart compare as their times do, whatever their random suffixes. *)
Lemma NewEntryID_time_order (t1 t2 : Time) (r1 r2 : bytes) :
  time_ok t1 → time_ok t2 →
  (Unix t1 < Unix t2 ∨ Unix t1 = Unix t2 ∧ Nanosecond t1 + 16384 ≤ Nanosecond t2) →
  bytes_lt (NewEntryID t1 r1) (NewEntryID t2 r2).
Proof.
  intros H1 H2 Hlt. rewrite !NewEntryID_bytes.
  destruct (timestamp_value t1 H1) as [E1 R1]. destruct (timestamp_value t2 H2) as [E2 R2].
  apply bytes_lt_app_same_length; [by len|]. apply be_bytes_lt; [|lia].
  split; [lia|]. rewrite E1, E2.
  destruct H1 as [S1 N1]. destruct H2 as [S2 N2].
  pose proof (proj2 (frac_exact _ N1)). pose proof (proj2 (frac_exact _ N2)).
  destruct Hlt as [Hlt|[Heq Hlt]]; [lia|]. rewrite Heq.
  Z.div_mod_to_equations. lia.
Qed.

(* ------------------------------------------------------------------ *)
(** * Witnesses *)

Module HelpersExamples.
Lemma timestamp_exact_witness : timestamp (mkTime 1600000000 999999999) `div` 65536 = 1600000000.
Proof. apply (timestamp_exact (mkTime 1600000000 999999999)). split; simpl; lia. Defined.

Lemma NewEntryID_time_order_witness :
  bytes_lt (NewEntryID (mkTime 1600000000 0) (str "zz")) (NewEntryID (mkTime 1600000000 16384) (str "aa")).
Proof.
  apply (NewEntryID_time_order (mkTime 1600000000 0) (mkTime 1600000000 16384));
    [split; simpl; lia..|right; simpl; lia].
Defined.
End HelpersExamples.
