(* ===== verification/Base64.v ===== *)
(** [encoding/base64]'s [StdEncoding], as [keyring/types.go] uses it: the
    alphabet of RFC 4648 with padding, line breaks ignored, and the bits that a
    padded group leaves over not looked at.  The error has the offset of the
    byte at fault in its text, which the model leaves out. *)
From S2P Require Import Prelude.

Definition CorruptInputError : error := Foreign (str "illegal base64 data").

Definition pad : byte := x3d.

(** The digit a character stands for. *)
Definition digit (b : byte) : option Z :=
  let z := byte_Z b in
  if (65 <=? z) && (z <=? 90) then Some (z - 65)
  else if (97 <=? z) && (z <=? 122) then Some (z - 71)
  else if (48 <=? z) && (z <=? 57) then Some (z + 4)
  else if z =? 43 then Some 62
  else if z =? 47 then Some 63
  else None.

Definition char (d : Z) : byte :=
  byte_of_Z (if d <? 26 then d + 65 else if d <? 52 then d + 71 else if d <? 62 then d - 4
             else if d =? 62 then 43 else 47).

Definition newline (b : byte) : bool := bool_decide (b = x0a ∨ b = x0d).

(** The three bytes of four digits. *)
Definition three (a b c d : Z) : bytes :=
  [byte_of_Z (a * 4 + b / 16); byte_of_Z (b * 16 + c / 4); byte_of_Z (c * 64 + d)].

Fixpoint decode_groups (s : bytes) : option bytes :=
  match s with
  | [] => Some []
  | a :: b :: c :: d :: s =>
      x ← digit a; y ← digit b;
      match digit c, digit d with
      | Some z, Some w => r ← decode_groups s; Some (three x y z w ++ r)
      | Some z, None => if bool_decide (d = pad ∧ s = []) then Some (take 2 (three x y z 0)) else None
      | None, _ => if bool_decide (c = pad ∧ d = pad ∧ s = []) then Some (take 1 (three x y 0 0)) else None
      end
  | _ => None
  end.

(** [base64.StdEncoding.DecodeString(s)] *)
Definition DecodeString (s : gostring) : outcome bytes :=
  match decode_groups (filter (λ b, negb (newline b)) s) with
  | Some b => Ok b
  | None => Err CorruptInputError
  end.

(** [base64.StdEncoding.EncodeToString(b)], of which it is the inverse. *)
Fixpoint EncodeToString (s : bytes) : gostring :=
  match s with
  | [] => []
  | [a] => let x := byte_Z a in [char (x / 4); char (x `mod` 4 * 16); pad; pad]
  | [a; b] =>
      let x := byte_Z a in let y := byte_Z b in
      [char (x / 4); char (x `mod` 4 * 16 + y / 16); char (y `mod` 16 * 4); pad]
  | a :: b :: c :: s =>
      let x := byte_Z a in let y := byte_Z b in let z := byte_Z c in
      char (x / 4) :: char (x `mod` 4 * 16 + y / 16) :: char (y `mod` 16 * 4 + z / 64) :: char (z `mod` 64)
        :: EncodeToString s
  end.

(* ------------------------------------------------------------------ *)
(** * Decoding what was encoded *)

Lemma digit_char d : 0 ≤ d < 64 → digit (char d) = Some d.
Proof.
  intros Hd. assert (forallb (λ n, bool_decide (digit (char (Z.of_nat n)) = Some (Z.of_nat n))) (seq 0 64) = true) as Hall
    by (vm_compute; reflexivity).
  rewrite forallb_forall in Hall. specialize (Hall (Z.to_nat d)). rewrite in_seq, Z2Nat.id in Hall by lia.
  apply (bool_decide_eq_true_1 _), Hall. lia.
Qed.

Lemma newline_char d : 0 ≤ d < 64 → newline (char d) = false.
Proof.
  intros Hd%digit_char. destruct (newline (char d)) eqn:Hn; [|done].
  apply bool_decide_eq_true in Hn as [Hn|Hn]; by rewrite Hn in Hd.
Qed.

(** Three bytes by induction. *)
Lemma bytes_by_three (P : bytes → Prop) :
  P [] → (∀ a, P [a]) → (∀ a b, P [a; b]) → (∀ a b c s, P s → P (a :: b :: c :: s)) → ∀ s, P s.
Proof. intros H0 H1 H2 H3. fix go 1. intros [|a [|b [|c s]]]; [done|done|done|]. apply H3, go. Qed.

Ltac digits :=
  repeat match goal with
    | |- context [byte_Z ?b] =>
        lazymatch goal with
        | _ : 0 ≤ byte_Z b < 256 |- _ => fail
        | _ => pose proof (byte_Z_range b)
        end
    end;
  Z.div_mod_to_equations; lia.

Lemma encoded_lines s : filter (λ b, negb (newline b)) (EncodeToString s) = EncodeToString s.
Proof.
  induction s as [|a|a b|a b c s IH] using bytes_by_three; cbn [EncodeToString];
    repeat (rewrite filter_cons_True; [|rewrite newline_char; [done|digits]]); [done| |done|by rewrite IH].
  done.
Qed.

Lemma three_bytes a b c :
  three (byte_Z a / 4) (byte_Z a `mod` 4 * 16 + byte_Z b / 16) (byte_Z b `mod` 16 * 4 + byte_Z c / 64) (byte_Z c `mod` 64)
    = [a; b; c].
Proof.
  unfold three. pose proof (byte_Z_range a). pose proof (byte_Z_range b). pose proof (byte_Z_range c).
  repeat f_equal; apply (inj byte_Z); rewrite byte_Z_of_Z; Z.div_mod_to_equations; lia.
Qed.

Lemma decode_encoded s : decode_groups (EncodeToString s) = Some s.
Proof.
  induction s as [|a|a b|a b c s IH] using bytes_by_three; cbn [EncodeToString]; [done|..].
  - pose proof (three_bytes a x00 x00) as Ht. cbn [decode_groups]. rewrite !digit_char by digits. simpl.
    change (byte_Z x00) with 0 in Ht. rewrite !Z.div_0_l, !Z.mod_0_l, !Z.add_0_r in Ht by lia. simpl in Ht.
    unfold three in Ht |- *. simpl in Ht. by injection Ht as ->.
  - pose proof (three_bytes a b x00) as Ht. cbn [decode_groups]. rewrite !digit_char by digits. simpl.
    change (byte_Z x00) with 0 in Ht. rewrite !Z.div_0_l, !Z.mod_0_l, !Z.add_0_r in Ht by lia.
    unfold three in Ht |- *. simpl in Ht |- *. by injection Ht as -> -> _.
  - cbn [decode_groups]. rewrite !digit_char by digits. simpl. rewrite IH. simpl. f_equal.
    exact (f_equal (λ x, x ++ s) (three_bytes a b c)).
Qed.

Lemma DecodeString_EncodeToString s : DecodeString (EncodeToString s) = Ok s.
Proof. unfold DecodeString. by rewrite encoded_lines, decode_encoded. Qed.
