(* ===== verification/Badger.v ===== *)
(** The key/value store under [store/store.go]: the part of
    [github.com/dgraph-io/badger/v2] that the code calls.

    Badger is not part of the repository, so it is an interface.  [Badger]
    lists the operations the code calls; [BadgerLaws] is their documented
    behaviour, in terms of what a database holds, what a transaction sees and
    what an iterator has left; [BadgerReliable] adds that no operation fails,
    for the theorems that promise a result.  [MemDB] is a database in memory
    that satisfies both: it shows the laws consistent and is what the
    witnesses run on. *)
From S2P Require Import Prelude.

(** The fields of [badger.IteratorOptions] the code sets. *)
Record IteratorOptions := mkIterOpts {
  PrefetchValues : bool;
  PrefetchSize : Z;
  Reverse : bool;
  Prefix : bytes;
}.

(** [badger.DefaultIteratorOptions] *)
Definition DefaultIteratorOptions : IteratorOptions := mkIterOpts true 100 false [].

(** [txn.Get]: an item (with what [item.Value] reads), [ErrKeyNotFound], or
    another error. *)
Inductive GetResult :=
  | Found (value : outcome bytes)
  | KeyNotFound
  | GetErr (e : error).

Class Badger := {
  DB : Type;
  Txn : Type;
  Iterator : Type;
  (** [db.NewTransaction(update)] *)
  NewTransaction : DB → bool → outcome Txn;
  Txn_Get : Txn → bytes → GetResult * Txn;
  Txn_SetEntry : Txn → bytes → bytes → outcome Txn;
  (** commit against the database as it is by now *)
  Txn_Commit : DB → Txn → outcome DB;
  NewIterator : Txn → IteratorOptions → Iterator;
  It_Seek : Iterator → bytes → Iterator;
  It_Rewind : Iterator → Iterator;
  It_Valid : Iterator → bool;
  It_ValidForPrefix : Iterator → bytes → bool;
  It_Next : Iterator → Iterator;
  It_Key : Iterator → bytes;
  It_Value : Iterator → outcome bytes;
  (** a bound on the items left: a snapshot is finite *)
  It_bound : Iterator → nat;
}.

Section derived.
Context `{Badger}.

(** [db.View(fn)]: run [fn] in a read-only transaction. *)
Definition View {A} (d : DB) (fn : Txn → outcome A) : outcome A :=
  t ← NewTransaction d false; fn t.

(** [db.Update(fn)]: run [fn] in a transaction, commit if it succeeds and
    discard it otherwise.  The database afterwards, and the outcome. *)
Definition Update (d : DB) (fn : Txn → outcome Txn) : DB * outcome unit :=
  match (t ← NewTransaction d true; t' ← fn t; Txn_Commit d t') with
  | Ok d' => (d', Ok tt)
  | Err e => (d, Err e)
  | Panic => (d, Panic)
  end.
End derived.

(** What a position is after [Seek(k)]: the keys of the snapshot from [k] on,
    the empty key standing for the iterator's prefix. *)
Definition seek_keys {V} (m : gmap bytes V) (p k : bytes) : list bytes :=
  let k' := match k with [] => p | _ => k end in
  filter (bytes_le k') (sorted_keys m).

Class BadgerLaws `{Badger} := {
  contents : DB → gmap bytes bytes;
  (** a transaction: the snapshot it began with, its pending writes, the keys
      it has read *)
  base : Txn → gmap bytes bytes;
  writes : Txn → gmap bytes bytes;
  reads : Txn → gset bytes;
  NewTransaction_spec d u t : NewTransaction d u = Ok t →
    base t = contents d ∧ writes t = ∅ ∧ reads t = ∅;
  NewTransaction_no_panic d u : NewTransaction d u ≠ Panic;
  Txn_Get_state t k :
    base (Txn_Get t k).2 = base t ∧ writes (Txn_Get t k).2 = writes t
    ∧ reads (Txn_Get t k).2 = {[k]} ∪ reads t;
  Txn_Get_found t k v : (Txn_Get t k).1 = Found v →
    ∃ x, (writes t ∪ base t) !! k = Some x ∧ (v = Ok x ∨ ∃ e, v = Err e);
  Txn_Get_not_found t k : (Txn_Get t k).1 = KeyNotFound → (writes t ∪ base t) !! k = None;
  Txn_SetEntry_spec t k v t' : Txn_SetEntry t k v = Ok t' →
    base t' = base t ∧ writes t' = <[k:=v]> (writes t) ∧ reads t' = reads t;
  Txn_SetEntry_no_panic t k v : Txn_SetEntry t k v ≠ Panic;
  (** serializable snapshot isolation: a commit succeeds only if nothing the
      transaction read has changed *)
  Txn_Commit_spec d t d' : Txn_Commit d t = Ok d' →
    contents d' = writes t ∪ contents d
    ∧ ∀ k, k ∈ reads t → contents d !! k = base t !! k;
  Txn_Commit_no_panic d t : Txn_Commit d t ≠ Panic;
  (** an iterator: its options, its snapshot, the keys it has left *)
  it_opts : Iterator → IteratorOptions;
  it_view : Iterator → gmap bytes bytes;
  it_rest : Iterator → list bytes;
  NewIterator_spec t o : it_opts (NewIterator t o) = o ∧ it_view (NewIterator t o) = writes t ∪ base t;
  It_Seek_state it k : it_opts (It_Seek it k) = it_opts it ∧ it_view (It_Seek it k) = it_view it;
  It_Seek_rest it k : Reverse (it_opts it) = false →
    it_rest (It_Seek it k) = seek_keys (it_view it) (Prefix (it_opts it)) k;
  It_Rewind_state it : it_opts (It_Rewind it) = it_opts it ∧ it_view (It_Rewind it) = it_view it;
  It_Rewind_rest it : Reverse (it_opts it) = true → Prefix (it_opts it) = [] →
    it_rest (It_Rewind it) = reverse (sorted_keys (it_view it));
  It_Next_state it : it_opts (It_Next it) = it_opts it ∧ it_view (It_Next it) = it_view it
    ∧ it_rest (It_Next it) = tail (it_rest it);
  It_Valid_spec it :
    It_Valid it = match it_rest it with [] => false | k :: _ => has_prefix (Prefix (it_opts it)) k end;
  It_ValidForPrefix_spec it p :
    It_ValidForPrefix it p = It_Valid it && match it_rest it with [] => false | k :: _ => has_prefix p k end;
  It_Key_spec it k l : it_rest it = k :: l → It_Key it = k;
  It_Value_spec it k l v : it_rest it = k :: l → It_Value it = Ok v → it_view it !! k = Some v;
  It_Value_no_panic it : It_Value it ≠ Panic;
  It_bound_spec it : (length (it_rest it) ≤ It_bound it)%nat;
}.

(** No operation fails: the disk and the database are up, and a commit is
    refused only for a conflict. *)
Class BadgerReliable `{BadgerLaws} := {
  NewTransaction_ok d u : is_Some (match NewTransaction d u with Ok t => Some t | _ => None end);
  Txn_Get_ok t k : match (Txn_Get t k).1 with
                   | Found (Ok _) | KeyNotFound => True
                   | _ => False
                   end;
  Txn_SetEntry_ok t k v : is_Some (match Txn_SetEntry t k v with Ok t' => Some t' | _ => None end);
  Txn_Commit_ok d t : (∀ k, k ∈ reads t → contents d !! k = base t !! k) →
    is_Some (match Txn_Commit d t with Ok d' => Some d' | _ => None end);
  It_Value_ok it k l : it_rest it = k :: l →
    is_Some (match It_Value it with Ok v => Some v | _ => None end);
}.

(* ------------------------------------------------------------------ *)
(** * A database in memory *)

Lemma elem_of_seek_keys {V} (m : gmap bytes V) p k k' :
  k' ∈ seek_keys m p k → is_Some (m !! k').
Proof. unfold seek_keys. by intros [_ ?%elem_of_sorted_keys]%list_elem_of_filter. Qed.

Module MemDB.
Record txn := mkTxn { t_base : gmap bytes bytes; t_writes : gmap bytes bytes; t_reads : list bytes }.

(** The keys an iterator has left are keys of its snapshot. *)
Record iter := mkIter {
  i_opts : IteratorOptions;
  i_view : gmap bytes bytes;
  i_rest : list bytes;
  i_ok : ∀ k, k ∈ i_rest → is_Some (i_view !! k);
}.

Definition get (t : txn) (k : bytes) : GetResult * txn :=
  (match (t_writes t ∪ t_base t) !! k with Some v => Found (Ok v) | None => KeyNotFound end,
   mkTxn (t_base t) (t_writes t) (k :: t_reads t)).

Definition conflict : error := Foreign (str "Transaction Conflict. Please retry").

Definition commit (d : gmap bytes bytes) (t : txn) : outcome (gmap bytes bytes) :=
  if forallb (λ k, bool_decide (d !! k = t_base t !! k)) (t_reads t)
  then Ok (t_writes t ∪ d) else Err conflict.

Program Definition new_iter (t : txn) (o : IteratorOptions) : iter :=
  mkIter o (t_writes t ∪ t_base t) [] _.
Next Obligation. intros t o k Hk. by apply not_elem_of_nil in Hk. Qed.

Program Definition seek (it : iter) (k : bytes) : iter :=
  mkIter (i_opts it) (i_view it) (seek_keys (i_view it) (Prefix (i_opts it)) k) _.
Next Obligation. intros it k k' Hk'. by eapply elem_of_seek_keys. Qed.

Program Definition rewind (it : iter) : iter :=
  mkIter (i_opts it) (i_view it)
    (if Reverse (i_opts it) then reverse (sorted_keys (i_view it)) else sorted_keys (i_view it)) _.
Next Obligation.
  intros it k Hk. apply elem_of_sorted_keys. destruct (Reverse _); [|done].
  by apply elem_of_reverse.
Qed.

Program Definition next (it : iter) : iter :=
  mkIter (i_opts it) (i_view it) (tail (i_rest it)) _.
Next Obligation.
  intros it k Hk. apply (i_ok it). destruct (i_rest it); [done|]. by right.
Qed.

Definition valid_for (it : iter) (p : bytes) : bool :=
  match i_rest it with [] => false | k :: _ => has_prefix p k end.

Definition valid (it : iter) : bool := valid_for it (Prefix (i_opts it)).

Definition value (it : iter) : outcome bytes :=
  Ok (default [] (head (i_rest it) ≫= λ k, i_view it !! k)).

#[export] Instance mem_badger : Badger := {|
  DB := gmap bytes bytes;
  Txn := txn;
  Iterator := iter;
  NewTransaction d _ := Ok (mkTxn d ∅ []);
  Txn_Get := get;
  Txn_SetEntry t k v := Ok (mkTxn (t_base t) (<[k:=v]> (t_writes t)) (t_reads t));
  Txn_Commit := commit;
  NewIterator := new_iter;
  It_Seek := seek;
  It_Rewind := rewind;
  It_Valid := valid;
  It_ValidForPrefix it p := valid it && valid_for it p;
  It_Next := next;
  It_Key it := default [] (head (i_rest it));
  It_Value := value;
  It_bound it := length (i_rest it);
|}.

Lemma commit_inv d t d' :
  commit d t = Ok d' →
  d' = t_writes t ∪ d ∧ ∀ k, k ∈ t_reads t → d !! k = t_base t !! k.
Proof.
  unfold commit. destruct (forallb _ _) eqn:Hf; [|done]. intros [= <-]. split; [done|].
  intros k Hk. rewrite forallb_forall in Hf. apply list_elem_of_In, Hf in Hk.
  by apply bool_decide_eq_true in Hk.
Qed.

#[export] Instance mem_laws : BadgerLaws.
Proof.
  refine {|
    contents := id : DB → gmap bytes bytes;
    base := t_base; writes := t_writes; reads t := list_to_set (t_reads t);
    it_opts := i_opts; it_view := i_view; it_rest := i_rest;
  |}; simpl; try (intros; naive_solver).
  - intros t k v. destruct (_ !! k) eqn:Hk; intros [= <-]. eauto.
  - intros t k. by destruct (_ !! k) eqn:Hk.
  - intros d t d' Hc. apply commit_inv in Hc as [-> Hr]. split; [done|].
    intros k. rewrite elem_of_list_to_set. apply Hr.
  - intros d t. unfold commit. by destruct (forallb _ _).
  - intros it Hr _. by rewrite Hr.
  - intros it k l Hk. by rewrite Hk.
  - intros it k l v Hk. unfold value. rewrite Hk. simpl.
    destruct (i_ok it k) as [x Hx]; [rewrite Hk; left|]. rewrite Hx. by intros [= <-].
Defined.

#[export] Instance mem_reliable : BadgerReliable.
Proof.
  split; simpl; try (intros; eauto; fail).
  - intros t k. by destruct (_ !! k).
  - intros d t Hr. unfold commit. rewrite (proj2 (forallb_forall _ _)); [eauto|].
    intros k Hk. apply bool_decide_eq_true, Hr, elem_of_list_to_set, list_elem_of_In, Hk.
Qed.
End MemDB.

(* ------------------------------------------------------------------ *)
(** * Lemmas *)

Section laws.
Context `{BadgerLaws}.

Lemma View_ok {A} d (fn : Txn → outcome A) a :
  View d fn = Ok a → ∃ t, NewTransaction d false = Ok t ∧ base t = contents d
    ∧ writes t = ∅ ∧ fn t = Ok a.
Proof.
  unfold View, mbind, outcome_bind. destruct (NewTransaction d false) as [t| |] eqn:Ht; [|done..].
  intros Hf. apply NewTransaction_spec in Ht as Hs. exists t. naive_solver.
Qed.

(** The view of a read-only transaction is the database's contents. *)
Lemma fresh_view t d : base t = contents d → writes t = ∅ → writes t ∪ base t = contents d.
Proof. intros -> ->. apply (left_id_L ∅ (∪)). Qed.

Lemma seek_keys_sorted {V} (m : gmap bytes V) p k : StronglySorted bytes_le (seek_keys m p k).
Proof. apply StronglySorted_filter, sorted_keys_sorted. Qed.

Lemma NoDup_seek_keys {V} (m : gmap bytes V) p k : NoDup (seek_keys m p k).
Proof. apply NoDup_filter, NoDup_sorted_keys. Qed.
End laws.
