(* ===== verification/Channel.v ===== *)
(** Channels of [store/store.go]: their keys, stream options and subscribers.

    Badger has one key space, so every key of a channel starts with the
    channel id and a table byte.  An entry key is the 33-byte prefix and the
    30-byte entry id; an arrival-index key has the arrival time, six
    big-endian bytes of unix seconds, between the two. *)
From S2P Require Import Prelude Protos Helpers.

(* ------------------------------------------------------------------ *)
(** * Stream options *)

Definition Tail : Z := 2 ^ 64 - 1.

(** [type StreamOptFlags uint8]; [iota] is 1 on the line of [OptKeysOnly]. *)
Definition OptNone : Z := 0.
Definition OptKeysOnly : Z := Z.shiftl 1 1.
Definition OptSkipFirst : Z := Z.shiftl 1 2.
Definition OptFromHead : Z := Z.shiftl 1 3.
Definition OptFromGenesis : Z := Z.shiftl 1 4.
Definition OptFromIndex : Z := Z.shiftl 1 5.

Record StreamOpts := mkStreamOpts {
  Seek : slice;
  Max : Z;
  Flags : Z;
}.
#[global] Instance StreamOpts_eq_dec : EqDecision StreamOpts.
Proof. solve_decision. Defined.

Definition has_flag (f : Z) (opts : StreamOpts) : bool :=
  negb (Z.land (Flags opts) f =? 0).

Definition keysOnly (opts : StreamOpts) : bool := has_flag OptKeysOnly opts.
Definition skipFirst (opts : StreamOpts) : bool := has_flag OptSkipFirst opts.
Definition fromHead (opts : StreamOpts) : bool := has_flag OptFromHead opts.
Definition fromGenesis (opts : StreamOpts) : bool := has_flag OptFromGenesis opts.
Definition fromIndex (opts : StreamOpts) : bool := has_flag OptFromIndex opts.

(** [opts.Seek = k] *)
Definition set_Seek (k : slice) (opts : StreamOpts) : StreamOpts :=
  mkStreamOpts k (Max opts) (Flags opts).

(* ------------------------------------------------------------------ *)
(** * Channels *)

Definition keySpaceEntries : byte := x01.
Definition keySpaceArrival : byte := x02.

(** [type subscriber]: its contexts and Go channels belong to the goroutine
    that reads for it (see [Reader.v]). *)
Record subscriber (T : Type) := mkSubscriber {
  sub_id : UUID;
  target : T;
}.
Arguments mkSubscriber {_} _ _.
Arguments sub_id {_} _.
Arguments target {_} _.

(** [type Channel]; [T] is the type of subscription targets. *)
Record Channel (T : Type) := mkChannel {
  c_id : bytes;
  c_uri : gostring;
  prefix : bytes;
  indexPrefix : bytes;
  subscribers : gmap UUID (subscriber T);
}.
Arguments mkChannel {_} _ _ _ _ _.
Arguments c_id {_} _.
Arguments c_uri {_} _.
Arguments prefix {_} _.
Arguments indexPrefix {_} _.
Arguments subscribers {_} _.

Section keys.
Context {T : Type}.
Implicit Type c : Channel T.

Definition URI c : gostring := c_uri c.

Definition EntryKey c (entryID : bytes) : bytes :=
  let k := zeros 63 in
  let k := copy_at k 0 (prefix c) in
  copy_at k 33 entryID.

(** [now] is the [time.Now()] of the call. *)
Definition arrivalKey c (now : Time) (entryID : bytes) : bytes :=
  let k := zeros 69 in
  let k := copy_at k 0 (indexPrefix c) in
  let ts := to_i64 (Z.shiftl (Unix now) 16) in
  let k := set_byte k 33 (byte_of_Z (Z.shiftr ts 56)) in
  let k := set_byte k 34 (byte_of_Z (Z.shiftr ts 48)) in
  let k := set_byte k 35 (byte_of_Z (Z.shiftr ts 40)) in
  let k := set_byte k 36 (byte_of_Z (Z.shiftr ts 32)) in
  let k := set_byte k 37 (byte_of_Z (Z.shiftr ts 24)) in
  let k := set_byte k 38 (byte_of_Z (Z.shiftr ts 16)) in
  copy_at k 39 entryID.

(** The slice expression [b[lo:]], which panics past the end. *)
Definition slice_from (lo : nat) (b : bytes) : outcome bytes :=
  if decide (lo ≤ length b)%nat then Ok (drop lo b) else Panic.

Definition entryKeyFromIndex c (index : bytes) : outcome bytes :=
  let k := copy_at (zeros 63) 0 (prefix c) in
  id ← slice_from 39 index; Ok (copy_at k 33 id).

Definition entryIDFromIndex (index : bytes) : outcome bytes :=
  id ← slice_from 39 index; Ok (copy_at (zeros 30) 0 id).

Definition entryIDFromKey (key : bytes) : outcome bytes := slice_from 33 key.

Definition firstKey c : bytes := copy_at (zeros 30) 0 (prefix c).

(** A channel as [Store.Channel] builds it. *)
Definition channel_ok c : Prop :=
  length (c_id c) = 32%nat
  ∧ prefix c = c_id c ++ [keySpaceEntries]
  ∧ indexPrefix c = c_id c ++ [keySpaceArrival].

#[global] Instance channel_ok_dec c : Decision (channel_ok c).
Proof. unfold channel_ok. apply _. Defined.

(* ------------------------------------------------------------------ *)
(** * The key schema *)

Lemma slice_from_app lo (a b : bytes) : length a = lo → slice_from lo (a ++ b) = Ok b.
Proof.
  intros <-. unfold slice_from. rewrite decide_True by (rewrite length_app; lia).
  by rewrite drop_app_length.
Qed.

Lemma length_prefix c : channel_ok c → length (prefix c) = 33%nat.
Proof. intros (Hl & -> & _). rewrite length_app; simpl; lia. Qed.

Lemma length_indexPrefix c : channel_ok c → length (indexPrefix c) = 33%nat.
Proof. intros (Hl & _ & ->). rewrite length_app; simpl; lia. Qed.

Lemma copy_prefix p (n : nat) :
  length p = 33%nat → copy_at (zeros (33 + n)) 0 p = p ++ zeros n.
Proof.
  intros Hp. rewrite copy_zeros. unfold fit, zeros. rewrite Hp, take_ge by lia.
  do 2 f_equal. lia.
Qed.

Lemma copy_prefix_32 id : length id = 32%nat → copy_at (zeros 33) 0 id = id ++ [x00].
Proof.
  intros Hl. rewrite copy_zeros. unfold fit. rewrite Hl, take_ge by lia. done.
Qed.

Lemma EntryKey_bytes c id : channel_ok c → EntryKey c id = prefix c ++ fit 30 id.
Proof.
  intros Hc%length_prefix. unfold EntryKey. rewrite (copy_prefix _ 30) by done.
  rewrite <-Hc. apply copy_at_zeros.
Qed.

Lemma shiftr_ts u i : 0 ≤ u < 2 ^ 47 → 0 ≤ i →
  Z.shiftr (to_i64 (Z.shiftl u 16)) (16 + i) = Z.shiftr u i.
Proof.
  intros Hu Hi. rewrite to_i64_small by (rewrite Z.shiftl_mul_pow2; lia).
  rewrite <-Z.shiftr_shiftr by lia. by rewrite Z.shiftr_shiftl_l, Z.shiftl_0_r by lia.
Qed.

Lemma arrivalKey_bytes c now id :
  channel_ok c → time_ok now →
  arrivalKey c now id = indexPrefix c ++ be_bytes 6 (Unix now) ++ fit 30 id.
Proof.
  intros Hc%length_indexPrefix [Hu _]. unfold arrivalKey. rewrite (copy_prefix _ 36) by done.
  rewrite (shiftr_ts _ 40), (shiftr_ts _ 32), (shiftr_ts _ 24), (shiftr_ts _ 16),
    (shiftr_ts _ 8), (shiftr_ts _ 0) by lia.
  unfold set_byte. repeat rewrite insert_app_r_alt by (rewrite ?Hc; lia). rewrite Hc.
  rewrite app_assoc, <-(copy_at_zeros (indexPrefix c ++ be_bytes 6 (Unix now)) 30 id).
  rewrite <-app_assoc, length_app, Hc, length_be_bytes. done.
Qed.

Lemma length_EntryKey c id : length (EntryKey c id) = 63%nat.
Proof. unfold EntryKey. by rewrite !length_copy_at by (rewrite ?length_copy_at, ?length_zeros by len; len). Qed.

Lemma arrivalKey_prefix c now id :
  channel_ok c → time_ok now → has_prefix (indexPrefix c) (arrivalKey c now id) = true.
Proof. intros Hc Hn. rewrite arrivalKey_bytes by done. auto with vault. Qed.

Lemma EntryKey_prefix c id : channel_ok c → has_prefix (prefix c) (EntryKey c id) = true.
Proof. intros Hc. rewrite EntryKey_bytes by done. auto with vault. Qed.

Lemma entryIDFromKey_EntryKey c id :
  channel_ok c → entryIDFromKey (EntryKey c id) = Ok (fit 30 id).
Proof.
  intros Hc. unfold entryIDFromKey. rewrite EntryKey_bytes by done.
  apply slice_from_app, length_prefix, Hc.
Qed.

Lemma slice_from_arrivalKey c now id :
  channel_ok c → time_ok now → slice_from 39 (arrivalKey c now id) = Ok (fit 30 id).
Proof.
  intros Hc Hn. rewrite arrivalKey_bytes, app_assoc by done.
  apply slice_from_app. rewrite length_app, length_be_bytes, length_indexPrefix by done. done.
Qed.

Lemma entryKeyFromIndex_arrivalKey c now id :
  channel_ok c → time_ok now →
  entryKeyFromIndex c (arrivalKey c now id) = Ok (EntryKey c id).
Proof.
  intros Hc Hn. unfold entryKeyFromIndex. rewrite slice_from_arrivalKey by done. simpl.
  change (copy_at (copy_at (zeros 63) 0 (prefix c)) 33 (fit 30 id)) with (EntryKey c (fit 30 id)).
  by rewrite !EntryKey_bytes, fit_fit by done.
Qed.

Lemma entryIDFromIndex_arrivalKey c now id :
  channel_ok c → time_ok now →
  entryIDFromIndex (arrivalKey c now id) = Ok (fit 30 id).
Proof.
  intros Hc Hn. unfold entryIDFromIndex. rewrite slice_from_arrivalKey by done. simpl.
  by rewrite copy_zeros, fit_fit.
Qed.

(** Two channels agree on a key only if they are the same channel. *)
Lemma app_key_inj (i1 i2 r1 r2 : bytes) (b1 b2 : byte) :
  length i1 = length i2 → (i1 ++ [b1]) ++ r1 = (i2 ++ [b2]) ++ r2 →
  i1 = i2 ∧ b1 = b2 ∧ r1 = r2.
Proof.
  intros Hl Heq. rewrite <-!app_assoc in Heq. apply app_inj_1 in Heq as [? ?]; [|done].
  by simplify_eq/=.
Qed.

Lemma EntryKey_inj c1 c2 id1 id2 :
  channel_ok c1 → channel_ok c2 → EntryKey c1 id1 = EntryKey c2 id2 →
  c_id c1 = c_id c2 ∧ fit 30 id1 = fit 30 id2.
Proof.
  intros H1 H2. rewrite !EntryKey_bytes by done.
  destruct H1 as (L1 & -> & _), H2 as (L2 & -> & _).
  intros (? & _ & ?)%app_key_inj; [done|congruence].
Qed.

Lemma arrivalKey_not_entry c1 c2 now id :
  channel_ok c1 → channel_ok c2 → time_ok now →
  has_prefix (prefix c1) (arrivalKey c2 now id) = false.
Proof.
  intros H1 H2 Hn. apply not_true_is_false. rewrite has_prefix_spec, arrivalKey_bytes by done.
  destruct H1 as (L1 & -> & _), H2 as (L2 & _ & ->).
  intros [r (_ & ? & _)%app_key_inj]; [done|congruence].
Qed.

Lemma EntryKey_not_arrival c1 c2 id :
  channel_ok c1 → channel_ok c2 → has_prefix (indexPrefix c1) (EntryKey c2 id) = false.
Proof.
  intros H1 H2. apply not_true_is_false. rewrite has_prefix_spec, EntryKey_bytes by done.
  destruct H1 as (L1 & _ & ->), H2 as (L2 & -> & _).
  intros [r (_ & ? & _)%app_key_inj]; [done|congruence].
Qed.

Lemma EntryKey_other_prefix c1 c2 id :
  channel_ok c1 → channel_ok c2 → c_id c1 ≠ c_id c2 →
  has_prefix (prefix c1) (EntryKey c2 id) = false.
Proof.
  intros H1 H2 Hne. apply not_true_is_false. rewrite has_prefix_spec, EntryKey_bytes by done.
  destruct H1 as (L1 & -> & _), H2 as (L2 & -> & _).
  intros [r (? & _)%app_key_inj]; congruence.
Qed.

Lemma EntryKey_order c id1 id2 :
  channel_ok c →
  (bytes_lt (EntryKey c id1) (EntryKey c id2) ↔ bytes_lt (fit 30 id1) (fit 30 id2)).
Proof. intros Hc. rewrite !EntryKey_bytes by done. apply bytes_lt_app. Qed.

(* ------------------------------------------------------------------ *)
(** ** Properties *)

(** The index key of an entry leads back to it: from an arrival key
    the code recovers the entry's key and its id, and from an entry key the
    id; an id of any length is recovered cut or zero-padded to 30 bytes. *)
Lemma key_roundtrip c (now : Time) (id : bytes) :
  channel_ok c → time_ok now →
  length (EntryKey c id) = 63%nat ∧ length (arrivalKey c now id) = 69%nat ∧
  entryKeyFromIndex c (arrivalKey c now id) = Ok (EntryKey c id) ∧
  entryIDFromIndex (arrivalKey c now id) = Ok (fit 30 id) ∧
  entryIDFromKey (EntryKey c id) = Ok (fit 30 id).
Proof.
  intros Hc Hn. split_and!;
    [apply length_EntryKey| |by apply entryKeyFromIndex_arrivalKey
    |by apply entryIDFromIndex_arrivalKey|by apply entryIDFromKey_EntryKey].
  rewrite arrivalKey_bytes by done. len. rewrite length_indexPrefix by done. lia.
Qed.

(** Distinct 30-byte entry ids, and distinct channels, never share a
    key, and no entry key is an index key of any channel nor the reverse. *)
Lemma key_spaces_disjoint c1 c2 (now : Time) (id1 id2 : bytes) :
  channel_ok c1 → channel_ok c2 → time_ok now →
  (length id1 = 30%nat → length id2 = 30%nat → EntryKey c1 id1 = EntryKey c2 id2 →
     c_id c1 = c_id c2 ∧ id1 = id2) ∧
  (c_id c1 ≠ c_id c2 → has_prefix (prefix c1) (EntryKey c2 id2) = false) ∧
  has_prefix (prefix c1) (arrivalKey c2 now id2) = false ∧
  has_prefix (indexPrefix c1) (EntryKey c2 id2) = false.
Proof.
  intros H1 H2 Hn. split_and!;
    [|by apply EntryKey_other_prefix|by apply arrivalKey_not_entry|by apply EntryKey_not_arrival].
  intros L1 L2 (? & Hid)%EntryKey_inj; [|done..]. rewrite !fit_exact in Hid by done. done.
Qed.

(** Badger's byte order is the order the schema promises: a channel's
    entry keys sort as their entry ids, its index keys by arrival second,
    and every entry key sorts after the channel's first key. *)
Lemma key_order c (t1 t2 : Time) (id1 id2 : bytes) :
  channel_ok c → time_ok t1 → time_ok t2 →
  (length id1 = 30%nat → length id2 = 30%nat →
     (bytes_lt (EntryKey c id1) (EntryKey c id2) ↔ bytes_lt id1 id2)) ∧
  (Unix t1 < Unix t2 → bytes_lt (arrivalKey c t1 id1) (arrivalKey c t2 id2)) ∧
  bytes_le (firstKey c) (EntryKey c id1).
Proof.
  intros Hc H1 H2. split_and!.
  - intros L1 L2. by rewrite EntryKey_order, !fit_exact by done.
  - intros Hlt. rewrite !arrivalKey_bytes by done. apply bytes_lt_app.
    apply bytes_lt_app_same_length; [by len|].
    destruct H1 as [? _], H2 as [? _]. apply be_bytes_lt; lia.
  - rewrite EntryKey_bytes by done. unfold firstKey. rewrite copy_zeros.
    unfold fit at 1. rewrite length_prefix by done. simpl. rewrite app_nil_r.
    apply bytes_le_take.
Qed.
End keys.
