(* ===== verification/Store.v ===== *)
(** [store/store.go]: the store, its channel registry, and the operations
    that write and read single keys.

    The store's locks make each registry operation atomic, so [Channel] is a
    function on the store; a [*Channel] is its id, the key it has in the
    registry.  A database transaction is atomic as badger promises;
    [append_txn] is the transaction body on its own, so that two of them can
    be interleaved.  Operations that return an error return it as [Err]: no
    caller looks at the value that comes with one. *)
From S2P Require Import Prelude Protos Helpers Badger Channel.

Definition ErrorInvalidEntryID : error :=
  Sentinel (str "store.ErrorInvalidEntryID") (str "invalid entry ID").
Definition ErrorKeyExists : error :=
  Sentinel (str "store.ErrorKeyExists") (str "entry ID already exists").
Definition ErrorKeyNotFound : error :=
  Sentinel (str "store.ErrorKeyNotFound") (str "key not found").

(** A pointer dereference. *)
Definition deref {A} (p : option A) : outcome A :=
  match p with Some a => Ok a | None => Panic end.

(** A function that returns a value and an error. *)
Definition checked {A} (r : A * option error) : outcome A :=
  match r with (a, None) => Ok a | (_, Some e) => Err e end.

Section store.
Context `{Badger} `{!ProtoCodec Msg.t} {T : Type}.

(** [type Store]; [updates] are the channels that goroutines are sending on
    [updateCh], the ones [Channel] spawned. *)
Record Store := mkStore {
  db : DB;
  updateCh : bool;
  updates : list bytes;
  channels : gmap bytes (Channel T);
}.

Definition set_db (d : DB) (s : Store) : Store :=
  mkStore d (updateCh s) (updates s) (channels s).

(** [New(ctx, cfg)], given what [badger.Open(cfg.DB)] returned. *)
Definition New (opened : outcome DB) (HasDiscovery : bool) : outcome Store :=
  d ← opened; Ok (mkStore d HasDiscovery [] ∅).

(** The [*Channel] that [Store.Channel] makes. *)
Definition new_channel (id : bytes) : Channel T :=
  let prefix := set_byte (copy_at (zeros 33) 0 id) 32 keySpaceEntries in
  let indexPrefix := set_byte (copy_at (zeros 33) 0 id) 32 keySpaceArrival in
  mkChannel id [] prefix indexPrefix ∅.

Definition Store_Channel (s : Store) (id : bytes) : Store * outcome (Channel T) :=
  match channels s !! id with
  | Some channel => (s, Ok channel)
  | None =>
      let channel := new_channel id in
      (mkStore (db s) (updateCh s) (updates s ++ if updateCh s then [id] else [])
         (<[id:=channel]> (channels s)),
       Ok channel)
  end.

(** [Store.ChannelUpdates()]: nil, or the channel that the goroutines of
    [updates] are sending on. *)
Definition ChannelUpdates (s : Store) : option (list bytes) := if updateCh s then Some (updates s) else None.

(** [Store.Get] *)
Definition Get (d : DB) (key : bytes) : outcome Msg.t :=
  View d (λ txn,
    match (Txn_Get txn key).1 with
    | Found value => val ← value; checked (Unmarshal val)
    | KeyNotFound => Err ErrorKeyNotFound
    | GetErr e => Err e
    end).

(** [Channel.Get(key)]; the channel's store is [s]. *)
Definition Channel_Get (s : Store) (c : Channel T) (key : bytes) : outcome Msg.t := Get (db s) key.

Definition Upsert (d : DB) (key : bytes) (entry : Msg.t) : DB * outcome unit :=
  match Marshal entry with
  | Ok m => Update d (λ txn, Txn_SetEntry txn key m)
  | Err e => (d, Err e)
  | Panic => (d, Panic)
  end.

(** The callback [watch] registers: a commit that writes a key of the channel
    notifies every subscriber. *)
Definition watch (c : Channel T) (written : list bytes) : list UUID :=
  if existsb (has_prefix (prefix c)) written then (map_to_list (subscribers c)).*1 else [].

(** The reverse scan of [lastKey]; [fuel] is more than the items left. *)
Fixpoint last_key_loop (fuel : nat) (p : bytes) (it : Iterator) : slice :=
  match fuel with
  | O => None
  | S fuel =>
      if It_Valid it then
        if It_ValidForPrefix it p then Some (It_Key it)
        else last_key_loop fuel p (It_Next it)
      else None
  end.

Definition lastKey (d : DB) (c : Channel T) : outcome slice :=
  View d (λ txn,
    let opts := mkIterOpts false (PrefetchSize DefaultIteratorOptions) true
                  (Prefix DefaultIteratorOptions) in
    let it := It_Rewind (NewIterator txn opts) in
    Ok (last_key_loop (S (It_bound it)) (prefix c) it)).

Definition entryID (entry : option Msg.t) : outcome bytes :=
  match EntryHeader.GetEntryID (Msg.GetEntryHeader entry) with
  | None => Err ErrorInvalidEntryID
  | Some id => Ok id
  end.

(** The body of the transaction in [Append]. *)
Definition append_txn (key m arrivalKey : bytes) (txn : Txn) : outcome Txn :=
  let (r, txn) := Txn_Get txn key in
  match r with
  | Found _ => Err ErrorKeyExists
  | GetErr e => Err e
  | KeyNotFound =>
      txn ← Txn_SetEntry txn key m;
      Txn_SetEntry txn arrivalKey []
  end.

(** [c.Append(entry)] at time [now]. *)
Definition Append (d : DB) (c : Channel T) (now : Time) (entry : option Msg.t) : DB * outcome bytes :=
  match (id ← entryID entry; e ← deref entry; m ← Marshal e; Ok (id, m)) with
  | Ok (id, m) =>
      let key := EntryKey c id in
      let arrivalKey := arrivalKey c now id in
      let (d', r) := Update d (append_txn key m arrivalKey) in
      (d', _ ← r; Ok arrivalKey)
  | Err e => (d, Err e)
  | Panic => (d, Panic)
  end.

(** ** What a feed is *)

(** An abstract feed store: the encoded entry of each channel and entry id.
    [feed] reads it off the database. *)
Definition AFeed := bytes → bytes → option bytes.

Definition feed (m : gmap bytes bytes) : AFeed :=
  λ cid eid, m !! (cid ++ [keySpaceEntries] ++ eid).

Definition feed_put (F : AFeed) (cid eid v : bytes) : AFeed :=
  λ cid' eid', if decide (cid' = cid ∧ eid' = eid) then Some v else F cid' eid'.

(** Append-only insertion. *)
Definition feed_append (F : AFeed) (cid eid v : bytes) : AFeed * outcome unit :=
  match F cid eid with
  | Some _ => (F, Err ErrorKeyExists)
  | None => (feed_put F cid eid v, Ok tt)
  end.

(** Feeds that agree on every channel. *)
Definition feed_equiv (F G : AFeed) : Prop :=
  ∀ cid eid, length cid = 32%nat → F cid eid = G cid eid.

(** ** Invariants *)

(** Every channel of the registry is well formed and filed under its id. *)
Definition store_ok (s : Store) : Prop :=
  map_Forall (λ id c, c_id c = id ∧ channel_ok c ∧ c_uri c = []) (channels s).

(** The arrival index of a channel lists exactly its entries. *)
Definition index_ok (c : Channel T) (m : gmap bytes bytes) : Prop :=
  (∀ k, is_Some (m !! k) → has_prefix (indexPrefix c) k = true →
     length k = 69%nat ∧ is_Some (m !! (prefix c ++ drop 39 k))) ∧
  (∀ eid, length eid = 30%nat → is_Some (m !! (prefix c ++ eid)) →
     ∃ ts, length ts = 6%nat ∧ is_Some (m !! (indexPrefix c ++ ts ++ eid))).

#[global] Instance feed_equiv_equivalence : Equivalence feed_equiv.
Proof.
  split; [by intros F|intros F G HFG cid eid Hl; symmetry; auto|].
  intros F G K HFG HGK cid eid Hl. rewrite HFG by done. auto.
Qed.
End store.
Arguments Store {_} _.

(* ------------------------------------------------------------------ *)
(** * Lemmas *)

Section lemmas.
Context `{BadgerLaws} `{!ProtoCodec Msg.t} {T : Type}.
Implicit Types (c : Channel T) (d : DB) (e : Msg.t) (now : Time) (id m k : bytes).

(** An update that succeeded committed what its body wrote, and what it read
    had not changed. *)
Lemma new_channel_ok id : length id = 32%nat → channel_ok (new_channel (T:=T) id).
Proof.
  intros Hl. unfold channel_ok, new_channel, set_byte; simpl. rewrite copy_prefix_32 by done.
  rewrite !insert_app_r_alt by lia. by rewrite Hl.
Qed.

(** [Append] uses the id of the channel only. *)
Lemma Append_same c c' d now entry :
  channel_ok c → channel_ok c' → c_id c = c_id c' → Append d c now entry = Append d c' now entry.
Proof.
  intros (_ & Hp & Hi) (_ & Hp' & Hi') Heq. unfold Append, EntryKey, arrivalKey.
  by rewrite Hp, Hi, Hp', Hi', Heq.
Qed.

Lemma Update_ok d fn d' :
  Update d fn = (d', Ok tt) → ∃ t t', NewTransaction d true = Ok t ∧ fn t = Ok t'
    ∧ base t = contents d ∧ writes t = ∅ ∧ contents d' = writes t' ∪ contents d.
Proof.
  unfold Update. destruct (NewTransaction d true) as [t| |] eqn:Ht; simpl; [|done..].
  destruct (fn t) as [t'| |] eqn:Hf; simpl; [|done..].
  destruct (Txn_Commit d t') as [d1| |] eqn:Hc; [|done..]. intros [= <-].
  apply NewTransaction_spec in Ht as (Hb & Hw & _). apply Txn_Commit_spec in Hc as [Hd _].
  exists t, t'. done.
Qed.

Lemma Update_fails d fn d' r : Update d fn = (d', r) → r ≠ Ok tt → d' = d.
Proof.
  unfold Update. destruct (NewTransaction d true) as [t| |]; simpl; [|naive_solver..].
  destruct (fn t) as [t'| |]; simpl; [|naive_solver..].
  destruct (Txn_Commit d t') as [d1| |]; naive_solver.
Qed.

(** An append transaction that ran to its end found the key free, read it, and
    has the entry and its index key to write. *)
Lemma append_txn_ok key m ak t t' :
  append_txn key m ak t = Ok t' →
  (writes t ∪ base t) !! key = None ∧ base t' = base t ∧ key ∈ reads t'
  ∧ writes t' = <[ak:=[]]> (<[key:=m]> (writes t)).
Proof.
  unfold append_txn. destruct (Txn_Get t key) as [r t1] eqn:Hg.
  pose proof (Txn_Get_state t key) as (Hb & Hw & Hr). rewrite Hg in Hb, Hw, Hr. simpl in *.
  destruct r as [v| |e]; [done| |done].
  assert ((writes t ∪ base t) !! key = None) as Hn by (apply Txn_Get_not_found; by rewrite Hg).
  unfold mbind, outcome_bind. destruct (Txn_SetEntry t1 key m) as [t2| |] eqn:H2; [|done..].
  intros H3. apply Txn_SetEntry_spec in H2 as (Hb2 & Hw2 & Hr2).
  apply Txn_SetEntry_spec in H3 as (Hb3 & Hw3 & Hr3).
  split; [done|]. split; [congruence|]. split.
  - rewrite Hr3, Hr2, Hr. set_solver.
  - by rewrite Hw3, Hw2, Hw.
Qed.

Lemma entryID_Some entry id : entryID entry = Ok id →
  ∃ e, entry = Some e ∧ Msg.EntryHeader e ≫= EntryHeader.EntryID = Some id.
Proof.
  unfold entryID. destruct entry as [e|]; [|done]. simpl.
  destruct (EntryHeader.GetEntryID (Msg.EntryHeader e)) eqn:Hid; [|done]. intros [= <-]. eauto.
Qed.

(** The branches of [Append]. *)
Lemma Append_cases d c now entry d' r :
  Append d c now entry = (d', r) →
  (d' = d ∧ ∀ k, r ≠ Ok k) ∨
  ∃ e id m, entry = Some e ∧ entryID entry = Ok id ∧ Marshal e = Ok m
    ∧ r = Ok (arrivalKey c now id)
    ∧ contents d !! EntryKey c id = None
    ∧ contents d' = <[arrivalKey c now id:=[]]> (<[EntryKey c id:=m]> (contents d)).
Proof.
  unfold Append. destruct (entryID entry) as [id|x|] eqn:Hid; simpl;
    [|intros [= <- <-]; left; by split..].
  destruct (entryID_Some _ _ Hid) as (e & -> & _). simpl.
  destruct (Marshal e) as [m|x|] eqn:Hm; simpl; [|intros [= <- <-]; left; by split..].
  destruct (Update d _) as [d1 r1] eqn:Hu. intros [= <- <-].
  destruct r1 as [[]|x|]; simpl; [|left; split; [by eapply Update_fails|done]..].
  right. exists e, id, m. apply Update_ok in Hu as (t & t' & _ & Ht & Hb & Hw & Hd).
  apply append_txn_ok in Ht as (Hn & _ & _ & Hw'). rewrite (fresh_view t d Hb Hw) in Hn.
  split_and!; try done. rewrite Hd, Hw', Hw, insert_empty.
  rewrite <-insert_union_l. by rewrite <-insert_union_singleton_l.
Qed.

Lemma Append_is_Some c now entry d d' r k :
  Append d c now entry = (d', r) → is_Some (contents d !! k) → is_Some (contents d' !! k).
Proof.
  intros [[-> _]|(e & id & m & _ & _ & _ & _ & _ & ->)]%Append_cases Hk; [done|].
  by apply lookup_insert_is_Some', or_intror, lookup_insert_is_Some', or_intror.
Qed.

(** The entries an append adds to the feeds. *)
Lemma feed_after_append c now id m (M : gmap bytes bytes) :
  channel_ok c → time_ok now →
  feed_equiv (feed (<[arrivalKey c now id:=[]]> (<[EntryKey c id:=m]> M)))
    (feed_put (feed M) (c_id c) (fit 30 id) m).
Proof.
  intros Hc Hn cid eid Hl. unfold feed, feed_put.
  assert (channel_ok (mkChannel cid [] (cid ++ [keySpaceEntries]) (cid ++ [keySpaceArrival]) (∅ : gmap bytes (subscriber T)))) as Hc'
    by done.
  rewrite lookup_insert_ne; [rewrite lookup_insert; case_decide as Hk; case_decide as Hk'; try done|].
  - destruct Hk'. rewrite EntryKey_bytes in Hk by done. destruct Hc as (Lc & Hp & _).
    rewrite Hp, app_assoc in Hk. apply app_key_inj in Hk; [|congruence]. naive_solver.
  - destruct Hk' as [-> ->]. destruct Hk. rewrite EntryKey_bytes by done.
    destruct Hc as (Lc & -> & _). by rewrite app_assoc.
  - intros Hk. pose proof (arrivalKey_not_entry _ c now id Hc' Hc Hn) as Hf. simpl in Hf.
    rewrite Hk, app_assoc, has_prefix_app in Hf. done.
Qed.

#[global] Instance feed_put_proper cid eid v :
  Proper (feed_equiv ==> feed_equiv) (λ F, feed_put F cid eid v).
Proof. intros F G HFG cid' eid' Hl. unfold feed_put. case_decide; [done|]. by apply HFG. Qed.

Lemma feed_EntryKey c (id : bytes) (M : gmap bytes bytes) :
  channel_ok c → feed M (c_id c) (fit 30 id) = M !! EntryKey c id.
Proof. intros Hc. rewrite EntryKey_bytes by done. destruct Hc as (_ & -> & _). unfold feed. by rewrite app_assoc. Qed.

(** The reverse scan finds the first matching key it has left. *)
Lemma last_key_loop_spec fuel p it :
  Prefix (it_opts it) = [] → (length (it_rest it) < fuel)%nat →
  last_key_loop fuel p it = head (filter (λ k, has_prefix p k = true) (it_rest it)).
Proof.
  revert it; induction fuel as [|fuel IH]; intros it Hp Hf; [lia|]. cbn [last_key_loop].
  rewrite It_ValidForPrefix_spec, It_Valid_spec, Hp.
  destruct (It_Next_state it) as (Ho & _ & Hr).
  destruct (it_rest it) as [|k l] eqn:Hl; simpl; [done|].
  rewrite filter_cons. destruct (has_prefix p k) eqn:Hpk.
  - rewrite decide_True by done. simpl. f_equal. by eapply It_Key_spec.
  - rewrite decide_False by congruence. simpl in Hf.
    rewrite IH; [by rewrite Hr, ?Hl|congruence|rewrite Hr, ?Hl; simpl; lia].
Qed.

Lemma lastKey_value c d r :
  lastKey d c = Ok r → r = last (filter (λ k, has_prefix (prefix c) k = true) (sorted_keys (contents d))).
Proof.
  unfold lastKey. intros (t & _ & Hb & Hw & <-%(inj Ok))%View_ok.
  set (o := mkIterOpts _ _ _ _). destruct (NewIterator_spec t o) as [Ho Hv].
  destruct (It_Rewind_state (NewIterator t o)) as [Ho' Hv'].
  rewrite last_key_loop_spec; [|by rewrite Ho', Ho|].
  2: { pose proof (It_bound_spec (It_Rewind (NewIterator t o))). lia. }
  rewrite It_Rewind_rest by (by rewrite Ho). rewrite Hv, (fresh_view t d Hb Hw).
  by rewrite filter_reverse, head_reverse.
Qed.
End lemmas.

(** ** When no operation fails *)

Section reliable.
Context `{BadgerReliable} `{!ProtoCodec Msg.t} {T : Type}.
Implicit Types (c : Channel T) (d : DB) (e : Msg.t) (now : Time) (id m k : bytes).

Lemma begin_ok d u : ∃ t, NewTransaction d u = Ok t ∧ base t = contents d ∧ writes t = ∅ ∧ reads t = ∅.
Proof.
  destruct (NewTransaction_ok d u) as [t Ht]. destruct (NewTransaction d u) eqn:Hn; simplify_eq.
  exists t. split; [done|]. by eapply NewTransaction_spec.
Qed.

Lemma set_ok t k v : ∃ t', Txn_SetEntry t k v = Ok t' ∧ base t' = base t
  ∧ writes t' = <[k:=v]> (writes t) ∧ reads t' = reads t.
Proof.
  destruct (Txn_SetEntry_ok t k v) as [t' Ht]. destruct (Txn_SetEntry t k v) eqn:Hn; simplify_eq.
  exists t'. split; [done|]. by eapply Txn_SetEntry_spec.
Qed.

Lemma commit_ok d t : (∀ k, k ∈ reads t → contents d !! k = base t !! k) →
  ∃ d', Txn_Commit d t = Ok d' ∧ contents d' = writes t ∪ contents d.
Proof.
  intros [d' Hd]%Txn_Commit_ok. destruct (Txn_Commit d t) eqn:Hn; simplify_eq.
  exists d'. split; [done|]. by eapply Txn_Commit_spec.
Qed.

Lemma get_ok t k :
  match (writes t ∪ base t) !! k with
  | Some x => (Txn_Get t k).1 = Found (Ok x)
  | None => (Txn_Get t k).1 = KeyNotFound
  end.
Proof.
  pose proof (Txn_Get_ok t k) as Ho. destruct ((Txn_Get t k).1) as [[v|x|]| |] eqn:Hg; try done.
  - apply Txn_Get_found in Hg as (x & -> & [[= ->]|[? ?]]); done.
  - by apply Txn_Get_not_found in Hg as ->.
Qed.

Lemma value_ok it k l : it_rest it = k :: l → ∃ v, It_Value it = Ok v ∧ it_view it !! k = Some v.
Proof.
  intros Hk. destruct (It_Value_ok it k l Hk) as [v Hv]. destruct (It_Value it) eqn:Hi; simplify_eq.
  exists v. split; [done|]. by eapply It_Value_spec.
Qed.

(** An append with a valid entry either finds the key taken and changes
    nothing, or adds the entry and its index key. *)
Lemma Append_reliable d c now e id m :
  entryID (Some e) = Ok id → Marshal e = Ok m →
  match contents d !! EntryKey c id with
  | Some _ => Append d c now (Some e) = (d, Err ErrorKeyExists)
  | None => ∃ d', Append d c now (Some e) = (d', Ok (arrivalKey c now id)) ∧
      contents d' = <[arrivalKey c now id:=[]]> (<[EntryKey c id:=m]> (contents d))
  end.
Proof.
  intros Hid Hm. unfold Append. rewrite Hid; simpl. rewrite Hm; simpl.
  destruct (begin_ok d true) as (t & Ht & Hb & Hw & Hr).
  unfold Update. rewrite Ht; simpl. unfold append_txn.
  destruct (Txn_Get t (EntryKey c id)) as [r t1] eqn:Hg.
  pose proof (get_ok t (EntryKey c id)) as Hok. rewrite Hg, (fresh_view t d Hb Hw) in Hok.
  pose proof (Txn_Get_state t (EntryKey c id)) as (Hb1 & Hw1 & Hr1). rewrite Hg in Hb1, Hw1, Hr1.
  simpl in *. destruct (contents d !! EntryKey c id) as [x|] eqn:Hx; simplify_eq/=; [done|].
  destruct (set_ok t1 (EntryKey c id) m) as (t2 & -> & Hb2 & Hw2 & Hr2); simpl.
  destruct (set_ok t2 (arrivalKey c now id) []) as (t3 & -> & Hb3 & Hw3 & Hr3); simpl.
  destruct (commit_ok d t3) as (d' & -> & Hd); [intros k _; congruence|].
  exists d'. split; [done|]. rewrite Hd, Hw3, Hw2, Hw1, Hw, insert_empty.
  rewrite <-insert_union_l. by rewrite <-insert_union_singleton_l.
Qed.

Lemma Get_reliable `{!ProtoLaws Msg.t} d k e b :
  contents d !! k = Some b → Marshal e = Ok b → Get d k = Ok (canon e).
Proof.
  intros Hk Hm. unfold Get, View.
  destruct (begin_ok d false) as (t & -> & Hb & Hw & _); simpl.
  pose proof (get_ok t k) as Hok. rewrite (fresh_view t d Hb Hw), Hk in Hok. rewrite Hok; simpl.
  by rewrite (Unmarshal_Marshal e b Hm).
Qed.

Lemma Get_absent d k : contents d !! k = None → Get d k = Err ErrorKeyNotFound.
Proof.
  intros Hk. unfold Get, View.
  destruct (begin_ok d false) as (t & -> & Hb & Hw & _); simpl.
  pose proof (get_ok t k) as Hok. rewrite (fresh_view t d Hb Hw), Hk in Hok. by rewrite Hok.
Qed.

Lemma lastKey_reliable d c :
  lastKey d c = Ok (last (filter (λ k, has_prefix (prefix c) k = true) (sorted_keys (contents d)))).
Proof.
  destruct (begin_ok d false) as (t & Ht & Hb & Hw & _).
  assert (∃ r, lastKey d c = Ok r) as [r Hr] by (unfold lastKey, View; rewrite Ht; simpl; eauto).
  rewrite Hr. f_equal. by apply lastKey_value.
Qed.

(** A run of appends on any channels, and its abstract counterpart. *)
Fixpoint append_all d (l : list (Channel T * Time * Msg.t)) : DB * list (outcome unit) :=
  match l with
  | [] => (d, [])
  | (c, now, e) :: l =>
      let (d, r) := Append d c now (Some e) in
      let (d, rs) := append_all d l in
      (d, (_ ← r; Ok tt) :: rs)
  end.

Fixpoint feed_append_all (F : AFeed) (l : list (bytes * bytes * bytes)) : AFeed * list (outcome unit) :=
  match l with
  | [] => (F, [])
  | (cid, eid, v) :: l =>
      let (F, r) := feed_append F cid eid v in
      let (F, rs) := feed_append_all F l in
      (F, r :: rs)
  end.

(** What an append request means for the feed: channel, entry id, encoding. *)
Definition append_means (a : Channel T * Time * Msg.t) (b : bytes * bytes * bytes) : Prop :=
  let '(c, now, e) := a in let '(cid, eid, v) := b in
  channel_ok c ∧ time_ok now ∧ cid = c_id c ∧ Marshal e = Ok v
  ∧ ∃ id, entryID (Some e) = Ok id ∧ eid = fit 30 id.

#[global] Instance feed_append_proper cid eid v :
  length cid = 32%nat →
  Proper (feed_equiv ==> prod_relation feed_equiv eq) (λ F, feed_append F cid eid v).
Proof.
  intros Hl F G HFG. unfold feed_append. rewrite (HFG cid eid Hl).
  destruct (G cid eid); split; simpl; try done. by apply feed_put_proper.
Qed.

Lemma feed_append_all_proper l F G :
  Forall (λ b, length b.1.1 = 32%nat) l → feed_equiv F G →
  prod_relation feed_equiv eq (feed_append_all F l) (feed_append_all G l).
Proof.
  revert F G; induction l as [|[[cid eid] v] l IH]; intros F G Hl HFG; [by split|].
  apply Forall_cons in Hl as [Hc Hl]. simpl in *.
  destruct (feed_append_proper cid eid v Hc F G HFG) as [HA HB].
  destruct (feed_append F cid eid v) as [F1 r1], (feed_append G cid eid v) as [G1 r2]; simpl in *.
  destruct (IH F1 G1 Hl HA) as [HC HD]. subst.
  destruct (feed_append_all F1 l), (feed_append_all G1 l); simpl in *. split; [done|by f_equal/=].
Qed.

(** One step of the refinement. *)
Lemma Append_step d c now e cid eid v :
  append_means (c, now, e) (cid, eid, v) →
  ∃ d' r, Append d c now (Some e) = (d', r)
    ∧ feed_equiv (feed (contents d')) (feed_append (feed (contents d)) cid eid v).1
    ∧ (_ ← r; Ok tt) = (feed_append (feed (contents d)) cid eid v).2.
Proof.
  intros (Hc & Hn & -> & Hm & id & Hid & ->).
  pose proof (Append_reliable d c now e id v Hid Hm) as Ha.
  unfold feed_append. rewrite feed_EntryKey by done.
  destruct (contents d !! EntryKey c id) as [x|] eqn:Hx.
  - exists d, (Err ErrorKeyExists). done.
  - destruct Ha as (d' & Ha & Hd). exists d', (Ok (arrivalKey c now id)).
    split_and!; [done| |done]. rewrite Hd. by apply feed_after_append.
Qed.
End reliable.

(* ------------------------------------------------------------------ *)
(** * Properties *)

Section properties.
Context `{BadgerReliable} `{!ProtoCodec Msg.t} {T : Type}.
Implicit Types (c : Channel T) (d : DB) (e : Msg.t) (now : Time) (id m k : bytes).

(** C17: any run of appends, on any channels, refines the append-only feed:
    the database's feeds are the abstract ones and each append reports what
    the abstract one does: success for a free entry id, [ErrorKeyExists] for
    a taken one. *)
Theorem append_all_refines d (l : list (Channel T * Time * Msg.t)) (al : list (bytes * bytes * bytes)) :
  Forall2 append_means l al →
  feed_equiv (feed (contents (append_all d l).1)) (feed_append_all (feed (contents d)) al).1
  ∧ (append_all d l).2 = (feed_append_all (feed (contents d)) al).2.
Proof.
  intros Hl. revert d; induction Hl as [|[[c now] e] [[cid eid] v] l al Hm Hl IH]; intros d; [done|].
  simpl. destruct (Append_step d c now e cid eid v Hm) as (d' & r & -> & Hf & Hr).
  destruct (feed_append (feed (contents d)) cid eid v) as [F r']; simpl in *. subst r'.
  destruct (IH d') as [IH1 IH2].
  assert (Forall (λ b, length b.1.1 = 32%nat) al) as Hal.
  { clear -Hl. induction Hl as [|[[? ?] ?] [[? ?] ?] l al Hm Hl IH]; constructor; [|done].
    by destruct Hm as ((? & _) & _ & -> & _). }
  destruct (feed_append_all_proper al _ _ Hal Hf) as [Hp1 Hp2].
  destruct (append_all d' l), (feed_append_all F al), (feed_append_all (feed (contents d')) al);
    simpl in *. split; [by etrans|congruence].
Qed.

(** Every branch of [Append] on a database that does not fail: an entry
    without an id and a taken id are refused and change nothing, a free id is
    stored with its index key, whose name is returned. *)
Lemma append_spec d c now (entry : option Msg.t) :
  match entry, entryID entry with
  | Some e, Ok id =>
      match Marshal e with
      | Ok m =>
          match contents d !! EntryKey c id with
          | Some _ => Append d c now entry = (d, Err ErrorKeyExists)
          | None => ∃ d', Append d c now entry = (d', Ok (arrivalKey c now id)) ∧
              contents d' = <[arrivalKey c now id:=[]]> (<[EntryKey c id:=m]> (contents d))
          end
      | Err x => Append d c now entry = (d, Err x)
      | Panic => Append d c now entry = (d, Panic)
      end
  | _, _ => Append d c now entry = (d, Err ErrorInvalidEntryID)
  end.
Proof.
  destruct entry as [e|]; [|done]. unfold entryID at 1.
  destruct (EntryHeader.GetEntryID _) as [id|] eqn:Hid.
  - assert (entryID (Some e) = Ok id) as Hid' by (unfold entryID; by rewrite Hid).
    destruct (Marshal e) as [m|x|] eqn:Hm; [by apply Append_reliable| |];
      unfold Append; rewrite Hid'; simpl; by rewrite Hm.
  - unfold Append, entryID. by rewrite Hid.
Qed.

(** An append never changes nor removes anything but index keys, on
    any database and whatever it returns; index keys stay present. *)
Lemma append_only d c now (entry : option Msg.t) d' r k v :
  channel_ok c → time_ok now → Append d c now entry = (d', r) → contents d !! k = Some v →
  (has_prefix (indexPrefix c) k = false → contents d' !! k = Some v) ∧ is_Some (contents d' !! k).
Proof.
  intros Hc Hn Ha Hk. split; [|by eapply Append_is_Some].
  intros Hp. apply Append_cases in Ha as [[-> _]|(e & id & m & _ & _ & _ & _ & Hnone & ->)]; [done|].
  rewrite lookup_insert_ne; [rewrite lookup_insert_ne; congruence|].
  intros <-. by rewrite arrivalKey_prefix in Hp.
Qed.

(** Two appends of the same key cannot both commit, however their
    transactions overlap: once one has, a transaction that checked an older
    snapshot is refused, as long as the key is still there.  The comment in
    [Append] fears that the check on a snapshot leaves a tight race open. *)
Lemma append_race (t1 t1' t2 t2' : Txn) (k m1 m2 a1 a2 : bytes) (d1 d1' d2 d2' : DB) :
  append_txn k m1 a1 t1 = Ok t1' → Txn_Commit d1 t1' = Ok d1' →
  append_txn k m2 a2 t2 = Ok t2' → contents d2 !! k = contents d1' !! k →
  Txn_Commit d2 t2' ≠ Ok d2'.
Proof.
  intros (_ & _ & _ & Hw1)%append_txn_ok [Hd1 _]%Txn_Commit_spec (Hn & Hb2 & Hr2 & _)%append_txn_ok Heq Hc.
  apply Txn_Commit_spec in Hc as [_ Hc]. specialize (Hc k Hr2).
  apply lookup_union_None in Hn as [_ Hn]. rewrite Hb2, Hn, Heq, Hd1, Hw1 in Hc.
  apply lookup_union_None in Hc as [Hc _].
  assert (is_Some (<[a1:=[]]> (<[k:=m1]> (writes t1)) !! k)) as [x Hx]; [|congruence].
  apply lookup_insert_is_Some', or_intror, lookup_insert_is_Some'. by left.
Qed.

Lemma Append_index d c c' now (entry : option Msg.t) d' r :
  channel_ok c → channel_ok c' → time_ok now → index_ok c' (contents d) →
  Append d c now entry = (d', r) → index_ok c' (contents d').
Proof.
  intros Hc Hc' Hn Hix Ha.
  assert (∀ k, is_Some (contents d !! k) → is_Some (contents d' !! k)) as Hmono
    by (intros k; by eapply Append_is_Some).
  apply Append_cases in Ha as [[-> _]|(e & id & m & _ & _ & _ & _ & _ & Hd)]; [done|].
  destruct Hix as [Hix1 Hix2]. split.
  - intros k Hk Hp. rewrite Hd, !lookup_insert_is_Some' in Hk.
    destruct Hk as [<-|[<-|Hk]]; [|by rewrite EntryKey_not_arrival in Hp|].
    2: { destruct (Hix1 k Hk Hp) as [? ?]. auto. }
    assert (prefix c' = prefix c) as Heq.
    { assert (indexPrefix c' = indexPrefix c) as Hi.
      { apply (has_prefix_inj _ _ (arrivalKey c now id)); [|done|by apply arrivalKey_prefix].
        by rewrite !length_indexPrefix. }
      destruct Hc as (_ & -> & Hi1), Hc' as (_ & -> & Hi2).
      rewrite Hi1, Hi2 in Hi. by apply app_inj_tail in Hi as [-> _]. }
    rewrite arrivalKey_bytes by done. split.
    { rewrite !length_app, length_be_bytes, length_fit, length_indexPrefix by done. done. }
    rewrite app_assoc, drop_app_length' by
      (rewrite length_app, length_be_bytes, length_indexPrefix by done; done).
    rewrite Hd, Heq, <-EntryKey_bytes by done.
    apply lookup_insert_is_Some', or_intror, lookup_insert_is_Some'. by left.
  - intros eid Hl Hk. rewrite Hd, !lookup_insert_is_Some' in Hk.
    destruct Hk as [Hk|[Hk|Hk]].
    + pose proof (arrivalKey_not_entry c' c now id Hc' Hc Hn) as Hf.
      by rewrite Hk, has_prefix_app in Hf.
    + exists (be_bytes 6 (Unix now)). split; [by len|].
      rewrite EntryKey_bytes in Hk by done.
      destruct Hc as (Lc & Hp & Hi) , Hc' as (Lc' & Hp' & Hi').
      rewrite Hp, Hp' in Hk. apply app_key_inj in Hk as (Heq & _ & Heid); [|congruence].
      rewrite Hd, Hi', <-Heq, <-Hi, <-Heid, <-arrivalKey_bytes by done.
      apply lookup_insert_is_Some'. by left.
    + destruct (Hix2 eid Hl Hk) as (ts & ? & ?). exists ts. auto.
Qed.

(** C28: through any run of appends, on any channels, accepted or refused,
    the arrival index of every channel keeps listing exactly its entries:
    each index key names a stored entry, and each entry has one. *)
Theorem append_index_ok d c' (l : list (Channel T * Time * Msg.t)) :
  channel_ok c' → Forall (λ a, channel_ok a.1.1 ∧ time_ok a.1.2) l →
  index_ok c' (contents d) → index_ok c' (contents (append_all d l).1).
Proof.
  intros Hc' Hl. revert d. induction Hl as [|[[c now] e] l [Hc Hn] _ IH]; intros d Hix; [done|].
  cbn [append_all]. destruct (Append d c now (Some e)) as [d1 r] eqn:Ha.
  specialize (IH d1 (Append_index _ _ _ _ _ _ _ Hc Hc' Hn Hix Ha)).
  by destruct (append_all d1 l).
Qed.

(** What was appended is what is read, by the entry's key and through
    the bookmark that [Append] returned, up to the nil/empty byte fields that
    the wire format does not tell apart. *)
Lemma append_get_roundtrip `{!ProtoLaws Msg.t} d c now e d' ak :
  channel_ok c → time_ok now → Append d c now (Some e) = (d', Ok ak) →
  ∃ id, entryID (Some e) = Ok id ∧ Get d' (EntryKey c id) = Ok (canon e) ∧
    ∃ k, entryKeyFromIndex c ak = Ok k ∧ Get d' k = Ok (canon e).
Proof.
  intros Hc Hn [[_ Hne]|(x & id & m & [= <-] & Hid & Hm & [= ->] & _ & Hd)]%Append_cases;
    [by destruct (Hne ak)|].
  assert (Get d' (EntryKey c id) = Ok (canon e)) as Hg.
  { eapply Get_reliable; [|done]. rewrite Hd, lookup_insert_ne, lookup_insert_eq; [done|].
    intros Hk. pose proof (EntryKey_prefix c id Hc) as Hp.
    by rewrite <-Hk, arrivalKey_not_entry in Hp. }
  exists id. split_and!; [done..|]. exists (EntryKey c id).
  by rewrite entryKeyFromIndex_arrivalKey.
Qed.

(** C10: [lastKey] finds where a reader from the head begins: its reverse
    scan, which skips the keys of other channels, the arrival index and the
    host's snapshot one by one, ends (the fuel of the loop is enough for any
    database), and returns nil exactly when the channel has no entry, and
    otherwise the greatest of its entry keys. *)
Theorem lastKey_max d c :
  ∃ r, lastKey d c = Ok r ∧
    match r with
    | None => ∀ k, is_Some (contents d !! k) → has_prefix (prefix c) k = false
    | Some k => is_Some (contents d !! k) ∧ has_prefix (prefix c) k = true ∧
        ∀ k', is_Some (contents d !! k') → has_prefix (prefix c) k' = true → bytes_le k' k
    end.
Proof.
  rewrite lastKey_reliable. eexists; split; [done|].
  set (l := filter _ _).
  assert (∀ k, k ∈ l ↔ has_prefix (prefix c) k = true ∧ is_Some (contents d !! k)) as Hl
    by (intros k; unfold l; by rewrite list_elem_of_filter, elem_of_sorted_keys).
  assert (StronglySorted bytes_le l) as Hs by apply StronglySorted_filter, sorted_keys_sorted.
  destruct (last l) as [k|] eqn:Hk.
  - apply last_Some in Hk as [l' Hk]. rewrite Hk in Hs.
    assert (k ∈ l) as [? ?]%Hl by (rewrite Hk; apply elem_of_app; right; by left).
    split_and!; [done..|].
    intros k' ? ?. assert (k' ∈ l) as Hin by (by apply Hl). rewrite Hk in Hin.
    apply elem_of_app in Hin as [Hin|Hin]; [|by apply list_elem_of_singleton in Hin as ->].
    eapply StronglySorted_app_1_elem_of; [done|done|by left].
  - apply last_None in Hk. intros k ?. apply not_true_is_false. intros ?.
    assert (k ∈ l) as Hin by (by apply Hl). rewrite Hk in Hin. by apply not_elem_of_nil in Hin.
Qed.

(** The registry: [Channel] registers an unknown id once, under its
    own keys and with its first announcement to the host, and returns the
    same channel from then on; no channel's URI is ever set. *)
Theorem Channel_registry (s : Store T) (id : bytes) :
  store_ok s → length id = 32%nat →
  let (s', r) := Store_Channel s id in
  store_ok s' ∧ db s' = db s ∧ Store_Channel s' id = (s', r) ∧
  (∃ c, r = Ok c ∧ channels s' !! id = Some c ∧ c_id c = id ∧ channel_ok c ∧ URI c = []) ∧
  (∀ id', id' ≠ id → channels s' !! id' = channels s !! id') ∧
  updates s' = updates s ++ (if updateCh s && bool_decide (channels s !! id = None) then [id] else []).
Proof.
  intros Hs Hl. unfold Store_Channel. destruct (channels s !! id) as [c|] eqn:Hc.
  - destruct (Hs id c Hc) as (? & ? & ?). rewrite Hc, andb_false_r, app_nil_r.
    split_and!; try done. eauto 10.
  - pose proof (new_channel_ok id Hl : channel_ok (new_channel (T:=T) id)) as Hok.
    rewrite bool_decide_true, andb_true_r by done. split_and!; simpl; try done.
    + apply map_Forall_insert_2; [done|]. simpl; done.
    + by rewrite lookup_insert_eq.
    + exists (new_channel id). rewrite lookup_insert_eq. done.
    + intros id' Hne. by rewrite lookup_insert_ne.
Qed.

(** A committed append notifies every subscriber of its channel, and
    no subscriber of another. *)
Theorem append_notifies c c' now id :
  channel_ok c → channel_ok c' → time_ok now →
  watch c' [EntryKey c id; arrivalKey c now id] =
    if decide (c_id c' = c_id c) then (map_to_list (subscribers c')).*1 else [].
Proof.
  intros Hc Hc' Hn. unfold watch. simpl. rewrite arrivalKey_not_entry, !orb_false_r by done.
  case_decide as Heq.
  - assert (prefix c' = prefix c) as -> by (destruct Hc as (_ & -> & _), Hc' as (_ & -> & _); congruence).
    by rewrite EntryKey_prefix.
  - by rewrite EntryKey_other_prefix.
Qed.

(** The host's snapshot key, shorter than any channel prefix, is
    private: writing it leaves every feed and every index as they were, wakes
    nobody, and reads back what was written. *)
Lemma upsert_private `{!ProtoLaws Msg.t} d (key : bytes) e m :
  (length key < 33)%nat → Marshal e = Ok m →
  ∃ d', Upsert d key e = (d', Ok tt) ∧ Get d' key = Ok (canon e) ∧
    feed_equiv (feed (contents d')) (feed (contents d)) ∧
    ∀ c, channel_ok c → watch c [key] = [] ∧ (index_ok c (contents d) → index_ok c (contents d')).
Proof.
  intros Hl Hm. unfold Upsert. rewrite Hm. unfold Update.
  destruct (begin_ok d true) as (t & -> & Hb & Hw & Hr); simpl.
  destruct (set_ok t key m) as (t' & -> & Hb' & Hw' & Hr'); simpl.
  destruct (commit_ok d t') as (d' & -> & Hd); [intros k _; congruence|].
  rewrite Hw', Hw, insert_empty, <-insert_union_singleton_l in Hd.
  assert (∀ p k, length p = 33%nat → has_prefix p k = true → key ≠ k) as Hne.
  { intros p k Hp [r ->]%has_prefix_spec ->. rewrite length_app in Hl. lia. }
  exists d'. split_and!; [done| | |].
  - eapply Get_reliable; [|done]. by rewrite Hd, lookup_insert_eq.
  - intros cid eid Hcid. unfold feed. rewrite Hd, lookup_insert_ne; [done|].
    apply (Hne (cid ++ [keySpaceEntries])); [len|]. rewrite app_assoc. apply has_prefix_app.
  - intros c Hc. pose proof (length_prefix c Hc). pose proof (length_indexPrefix c Hc). split.
    + unfold watch; simpl. destruct (has_prefix (prefix c) key) eqn:Hp; [|done].
      by destruct (Hne _ _ H2 Hp).
    + intros [Hi1 Hi2]. split; rewrite Hd.
      * intros k Hk Hp. rewrite lookup_insert_ne in Hk by eauto. destruct (Hi1 k Hk Hp) as [? Hs].
        split; [done|]. apply lookup_insert_is_Some'. by right.
      * intros eid Heid Hk. rewrite lookup_insert_ne in Hk by eauto with vault.
        destruct (Hi2 eid Heid Hk) as (ts & ? & ?). exists ts. split; [done|].
        apply lookup_insert_is_Some'. by right.
Qed.
End properties.

(* ------------------------------------------------------------------ *)
(** * Witnesses *)

(** A channel, two clock readings and two entries to run the theorems on, over
    the in-memory database and the reference codec. *)
Module StoreExamples.
Import MemDB RefCodec.

Definition ch (b : byte) : Channel unit :=
  let id := replicate 32 b in mkChannel id [] (id ++ [keySpaceEntries]) (id ++ [keySpaceArrival]) ∅.
Definition t0 : Time := mkTime 1600000000 5.
Definition t1 : Time := mkTime 1600000001 5.
Definition e0 : Msg.t := NewEntry t0 (str "rnd") (str "message 1").
Definition e1 : Msg.t := NewEntry t1 (str "rnd") (str "message 2").
Definition id0 : bytes := NewEntryID t0 (str "rnd").
Definition id1 : bytes := NewEntryID t1 (str "rnd").
Definition wire (e : Msg.t) : bytes := bits (encode e).
Definition d0 : DB := (∅ : gmap bytes bytes).
Definition dk : DB := ({[str "k" := str "v"]} : gmap bytes bytes).
Definition tx0 : Txn := mkTxn ∅ ∅ [].
Definition d1 : DB := (Append d0 (ch x00) t0 (Some e0)).1.

Lemma ch_ok b : channel_ok (ch b).
Proof. split; [apply length_replicate|done]. Qed.

Lemma t0_ok : time_ok t0.
Proof. split; simpl; lia. Qed.

Lemma t1_ok : time_ok t1.
Proof. split; simpl; lia. Qed.

Lemma d1_append : Append d0 (ch x00) t0 (Some e0) = (d1, Ok (arrivalKey (ch x00) t0 id0)).
Proof. reflexivity. Qed.

Lemma key_roundtrip_witness :
  channel_ok (ch x07) ∧ entryKeyFromIndex (ch x07) (arrivalKey (ch x07) t0 id0) = Ok (EntryKey (ch x07) id0).
Proof.
  split; [apply ch_ok|].
  apply (key_roundtrip (ch x07) t0 id0); [apply ch_ok|auto using t0_ok, t1_ok].
Defined.

Lemma key_spaces_disjoint_witness :
  has_prefix (prefix (ch x00)) (EntryKey (ch x01) id0) = false.
Proof.
  destruct (key_spaces_disjoint (ch x00) (ch x01) t0 id0 id0) as (_ & Hp & _);
    [apply ch_ok..|apply t0_ok|by apply Hp].
Defined.

Lemma key_order_witness : bytes_lt (arrivalKey (ch x00) t0 id1) (arrivalKey (ch x00) t1 id0).
Proof.
  destruct (key_order (ch x00) t0 t1 id1 id0) as (_ & Hlt & _);
    [apply ch_ok|apply t0_ok|apply t1_ok|by apply Hlt].
Defined.

Lemma append_all_refines_witness :
  feed_equiv (feed (contents (append_all d0 [(ch x00, t0, e0); (ch x00, t1, e0)]).1))
    (feed_append_all (feed (contents d0))
       [(c_id (ch x00), fit 30 id0, wire e0); (c_id (ch x00), fit 30 id0, wire e0)]).1.
Proof.
  apply (append_all_refines d0 [(ch x00, t0, e0); (ch x00, t1, e0)]).
  constructor; [|constructor; [|constructor]]; (split; [apply ch_ok|]);
    (split; [auto using t0_ok, t1_ok|]); split_and!; try done; by exists id0.
Defined.

Lemma append_spec_witness :
  ∃ d', Append d0 (ch x00) t0 (Some e0) = (d', Ok (arrivalKey (ch x00) t0 id0)).
Proof. pose proof (append_spec d0 (ch x00) t0 (Some e0)) as (d' & Hd & _). by exists d'. Defined.

Lemma append_only_witness :
  ∃ d', Append dk (ch x00) t0 (Some e0) = (d', Ok (arrivalKey (ch x00) t0 id0))
    ∧ contents d' !! str "k" = Some (str "v").
Proof.
  eexists; split; [reflexivity|].
  eapply (append_only dk (ch x00) t0 (Some e0));
    [apply ch_ok|auto using t0_ok, t1_ok|reflexivity|reflexivity|reflexivity].
Defined.

Lemma append_race_witness :
  ∃ ta tb da, append_txn (str "k") (str "1") (str "a") tx0 = Ok ta ∧
    append_txn (str "k") (str "2") (str "b") tx0 = Ok tb ∧
    Txn_Commit d0 ta = Ok da ∧ ∀ db, Txn_Commit da tb ≠ Ok db.
Proof.
  do 3 eexists. split; [reflexivity|]. split; [reflexivity|]. split; [reflexivity|]. intros db.
  eapply (append_race tx0 _ tx0 _ (str "k") (str "1") (str "2") (str "a") (str "b") d0);
    reflexivity.
Defined.

Lemma d0_index_ok : index_ok (ch x00) (contents d0).
Proof. split; [by intros ? [? ?]|by intros ? _ [? ?]]. Qed.

Lemma d1_index_ok : index_ok (ch x00) (contents d1).
Proof.
  apply (Append_index d0 (ch x00) (ch x00) t0 (Some e0) d1 (Ok (arrivalKey (ch x00) t0 id0)));
    [apply ch_ok..|apply t0_ok|apply d0_index_ok|apply d1_append].
Qed.

Lemma append_index_ok_witness :
  index_ok (ch x00) (contents (append_all d0 [(ch x00, t0, e0); (ch x01, t1, e1)]).1).
Proof.
  apply (append_index_ok d0 (ch x00) [(ch x00, t0, e0); (ch x01, t1, e1)]);
    [apply ch_ok| |apply d0_index_ok].
  constructor; [|constructor; [|constructor]]; (split; [apply ch_ok|]); [apply t0_ok|apply t1_ok].
Defined.

Lemma append_get_roundtrip_witness : ∃ id, Get d1 (EntryKey (ch x00) id) = Ok (canon e0).
Proof.
  destruct (append_get_roundtrip d0 (ch x00) t0 e0 d1 (arrivalKey (ch x00) t0 id0)) as (id & _ & Hg & _);
    [apply ch_ok|auto using t0_ok, t1_ok|apply d1_append|by exists id].
Defined.

Lemma lastKey_max_witness :
  ∃ k, lastKey d1 (ch x00) = Ok (Some k) ∧ has_prefix (prefix (ch x00)) k = true ∧ bytes_le (EntryKey (ch x00) id0) k.
Proof.
  assert (is_Some (contents d1 !! EntryKey (ch x00) id0)) as Hk
    by (apply (bool_decide_eq_true_1 _); vm_compute; reflexivity).
  assert (has_prefix (prefix (ch x00)) (EntryKey (ch x00) id0) = true) as Hp by (vm_compute; reflexivity).
  destruct (lastKey_max d1 (ch x00)) as ([k|] & Hr & Hmax).
  - destruct Hmax as (_ & Hpk & Hmax). exists k. split; [exact Hr|]. split; [exact Hpk|exact (Hmax _ Hk Hp)].
  - exfalso. pose proof (Hmax _ Hk) as Hf. rewrite Hp in Hf. discriminate Hf.
Defined.

Lemma Channel_registry_witness :
  let s := mkStore d0 true [] ∅ : Store unit in
  store_ok s ∧ updates (Store_Channel s (replicate 32 x09)).1 = [replicate 32 x09].
Proof.
  split; [apply map_Forall_empty|].
  pose proof (Channel_registry (mkStore d0 true [] ∅ : Store unit) (replicate 32 x09)) as Hr.
  apply Hr; [apply map_Forall_empty|apply length_replicate].
Defined.

Lemma append_notifies_witness :
  watch (ch x00) [EntryKey (ch x01) id0; arrivalKey (ch x01) t0 id0] = [].
Proof. apply (append_notifies (ch x01) (ch x00) t0 id0); [apply ch_ok..|auto using t0_ok, t1_ok]. Defined.

Lemma upsert_private_witness :
  ∃ d', Upsert d0 [x51; x90] e0 = (d', Ok tt) ∧ Get d' [x51; x90] = Ok (canon e0).
Proof.
  destruct (upsert_private (T:=unit) d0 [x51; x90] e0 (wire e0)) as (d' & Hu & Hg & _); [simpl; lia|done|].
  by exists d'.
Defined.
End StoreExamples.
