(* ===== verification/Race.v ===== *)
(** [store/store.go]: appends whose transactions overlap.

    [Append] of [Store.v] runs a transaction from its snapshot to its commit at
    one moment, and the files that interleave sessions and goroutines
    ([Sync.v], [Vault.v]) take an append for one step.  In the process many
    goroutines are in [db.Update] at once: the snapshot is taken and the body
    runs at one moment, the commit happens at another, and others may have
    committed in between.  Here the two are two steps; the theorem says that
    every interleaving of them stores what running the appends one after
    another, in the order they return, stores, each being accepted or refused
    as it would be there. *)
From S2P Require Import Prelude Protos Helpers Badger Channel Store Lts.

Section race.
Context `{Badger} `{!ProtoCodec Msg.t} {T : Type}.

(** A call of [Append]: the channel, the clock and the entry. *)
Record call := mkCall { ca_chan : Channel T; ca_now : Time; ca_entry : option Msg.t }.

(** The body of an append has run, on a snapshot, and the commit is to come. *)
Record inflight := mkInflight { fl_call : call; fl_txn : Txn; fl_key : bytes }.

(** The database, the calls between their two steps, and the calls that have
    returned, with what they returned, oldest first. *)
Record race := mkRace {
  r_db : DB;
  flying : gmap nat inflight;
  returned : list (call * outcome bytes);
}.

Inductive race_label :=
  | Body (n : nat) (a : call)     (* goroutine [n] calls [Append], up to the commit *)
  | Commit_ (n : nat).            (* its transaction commits, or does not *)

Definition return_ (a : call) (r : outcome bytes) (s : race) : race :=
  mkRace (r_db s) (flying s) (returned s ++ [(a, r)]).

(** [Append] up to the commit of [db.Update]: the transaction to commit and
    the key to return, or an error. *)
Definition append_body (d : DB) (a : call) : outcome (Txn * bytes) :=
  id ← entryID (ca_entry a);
  e ← deref (ca_entry a);
  m ← Marshal e;
  let ak := arrivalKey (ca_chan a) (ca_now a) id in
  t ← NewTransaction d true;
  t' ← append_txn (EntryKey (ca_chan a) id) m ak t;
  Ok (t', ak).

Definition race_step (l : race_label) (s : race) : option race :=
  match l with
  | Body n a =>
      match flying s !! n with
      | Some _ => None
      | None =>
          Some (match append_body (r_db s) a with
                | Ok (t, ak) => mkRace (r_db s) (<[n := mkInflight a t ak]> (flying s)) (returned s)
                | Err e => return_ a (Err e) s
                | Panic => return_ a Panic s
                end)
      end
  | Commit_ n =>
      f ← flying s !! n;
      let s' := mkRace (r_db s) (delete n (flying s)) (returned s) in
      Some (match Txn_Commit (r_db s) (fl_txn f) with
            | Ok d => return_ (fl_call f) (Ok (fl_key f)) (mkRace d (flying s') (returned s'))
            | Err e => return_ (fl_call f) (Err e) s'
            | Panic => return_ (fl_call f) Panic s'
            end)
  end.

Definition race_init (d : DB) : race := mkRace d ∅ [].

(** The same calls, one after another. *)
Fixpoint in_turn (d : DB) (l : list call) : DB * list (outcome bytes) :=
  match l with
  | [] => (d, [])
  | a :: l =>
      let (d, r) := Append d (ca_chan a) (ca_now a) (ca_entry a) in
      let (d, rs) := in_turn d l in (d, r :: rs)
  end.

Lemma in_turn_snoc d l a :
  in_turn d (l ++ [a]) =
    let (d1, rs) := in_turn d l in
    let (d2, r) := Append d1 (ca_chan a) (ca_now a) (ca_entry a) in (d2, rs ++ [r]).
Proof.
  revert d. induction l as [|b l IH]; intros d; simpl; [by destruct (Append _ _ _ _)|].
  destruct (Append d _ _ _) as [d1 r]. rewrite IH. destruct (in_turn d1 l) as [d2 rs].
  by destruct (Append d2 _ _ _).
Qed.
End race.
Arguments call _ : clear implicits.

(** Returned the same: the same key, or refused. *)
Definition same_verdict (r r' : outcome bytes) : Prop :=
  match r, r' with
  | Ok k, Ok k' => k = k'
  | Err _, Err _ => True
  | _, _ => False
  end.

(* ------------------------------------------------------------------ *)
(** * Linearizability *)

Section linearize.
Context `{BadgerReliable} `{!ProtoCodec Msg.t} `{!ProtoLaws Msg.t} {T : Type}.
Implicit Types (a : call T) (s : race (T:=T)) (d : DB).

(** A transaction that ran its body on some snapshot: the key was free there,
    and is among the keys it read, which are all. *)
Definition flying_ok (f : inflight (T:=T)) : Prop :=
  ∃ id e m, entryID (ca_entry (fl_call f)) = Ok id ∧ ca_entry (fl_call f) = Some e ∧ Marshal e = Ok m ∧
    let k := EntryKey (ca_chan (fl_call f)) id in
    fl_key f = arrivalKey (ca_chan (fl_call f)) (ca_now (fl_call f)) id ∧
    base (fl_txn f) !! k = None ∧ reads (fl_txn f) = {[k]} ∧
    writes (fl_txn f) = <[fl_key f := []]> {[k := m]}.

Lemma append_txn_reads key m ak (t t' : Txn) :
  append_txn key m ak t = Ok t' → reads t' = {[key]} ∪ reads t.
Proof.
  unfold append_txn. destruct (Txn_Get t key) as [r t1] eqn:Hg.
  pose proof (Txn_Get_state t key) as (_ & _ & Hr). rewrite Hg in Hr. simpl in Hr.
  destruct r as [v| |e]; [done| |done]. unfold mbind, outcome_bind.
  destruct (Txn_SetEntry t1 key m) as [t2| |] eqn:H2'; [|done..]. intros Hs.
  apply Txn_SetEntry_spec in H2' as (_ & _ & Hr2). apply Txn_SetEntry_spec in Hs as (_ & _ & ->). by rewrite Hr2.
Qed.

(** The body either refuses, as [Append] would at that moment, or leaves a
    transaction in flight. *)
Lemma append_body_cases d a :
  match append_body d a with
  | Ok (t, ak) => flying_ok (mkInflight a t ak)
  | Err _ => ∃ x, Append d (ca_chan a) (ca_now a) (ca_entry a) = (d, Err x)
  | Panic => False
  end.
Proof.
  unfold append_body. destruct (entryID (ca_entry a)) as [id|x|] eqn:Hid; simpl.
  2: { exists x. unfold Append. by rewrite Hid. }
  2: { unfold entryID in Hid. by destruct (EntryHeader.GetEntryID _). }
  destruct (entryID_Some _ _ Hid) as (e & He & _). rewrite He. simpl.
  destruct (Marshal e) as [m|x|] eqn:Hm; simpl.
  2: { exists x. unfold Append. rewrite He in Hid. rewrite Hid. simpl. by rewrite Hm. }
  2: { by destruct (Marshal_no_panic e). }
  destruct (begin_ok d true) as (t & -> & Hb & Hw & Hr). simpl.
  pose proof (Append_reliable d (ca_chan a) (ca_now a) e id m) as Ha. rewrite He in Hid. specialize (Ha Hid Hm).
  destruct (append_txn _ _ _ t) as [t'|x|] eqn:Ht; simpl.
  - exists id, e, m. pose proof (append_txn_reads _ _ _ _ _ Ht) as Hreads.
    apply append_txn_ok in Ht as (Hn & Hb' & _ & Hw'). rewrite (fresh_view t d Hb Hw) in Hn. simpl.
    rewrite He. split_and!; try done.
    + by rewrite Hb', Hb.
    + by rewrite Hreads, Hr, union_empty_r_L.
    + by rewrite Hw', Hw, insert_empty.
  - destruct (contents d !! _) as [w|] eqn:Hk; [by exists ErrorKeyExists|exfalso].
    revert Ht. unfold append_txn. pose proof (get_ok t (EntryKey (ca_chan a) id)) as Hg.
    rewrite (fresh_view t d Hb Hw), Hk in Hg. destruct (Txn_Get t _) as [r t1]. simpl in Hg. subst r.
    destruct (set_ok t1 (EntryKey (ca_chan a) id) m) as (t2 & -> & _). simpl.
    by destruct (set_ok t2 (arrivalKey (ca_chan a) (ca_now a) id) []) as (t3 & -> & _).
  - revert Ht. unfold append_txn. pose proof (get_ok t (EntryKey (ca_chan a) id)) as Hg.
    rewrite (fresh_view t d Hb Hw) in Hg. destruct (Txn_Get t _) as [r t1]. simpl in Hg.
    destruct (contents d !! _); subst r; [done|].
    destruct (set_ok t1 (EntryKey (ca_chan a) id) m) as (t2 & -> & _). simpl.
    by destruct (set_ok t2 (arrivalKey (ca_chan a) (ca_now a) id) []) as (t3 & -> & _).
Qed.

(** A commit does, to a database with the same contents, what [Append] does. *)
Lemma commit_verdict d d1 (f : inflight (T:=T)) :
  flying_ok f → contents d1 = contents d →
  let (d2, r) := Append d1 (ca_chan (fl_call f)) (ca_now (fl_call f)) (ca_entry (fl_call f)) in
  match Txn_Commit d (fl_txn f) with
  | Ok d' => contents d' = contents d2 ∧ r = Ok (fl_key f)
  | Err _ => d2 = d1 ∧ ∃ x, r = Err x
  | Panic => False
  end.
Proof.
  intros (id & e & m & Hid & He & Hm & Hk & Hb & Hr & Hw) Hd. rewrite He in Hid |- *.
  pose proof (Append_reliable d1 (ca_chan (fl_call f)) (ca_now (fl_call f)) e id m Hid Hm) as Ha.
  rewrite Hd in Ha. pose proof (Txn_Commit_no_panic d (fl_txn f)) as Hnp.
  destruct (Txn_Commit d (fl_txn f)) as [d'|x|] eqn:Hc; [| |done].
  - apply Txn_Commit_spec in Hc as [Hd' Hread].
    rewrite <-(Hread (EntryKey (ca_chan (fl_call f)) id)) in Hb by (rewrite Hr; set_solver).
    rewrite Hb in Ha. destruct Ha as (d2 & -> & Hd2). split; [|by rewrite Hk].
    rewrite Hd', Hd2, Hw, Hk. by rewrite <-insert_union_l, <-insert_union_singleton_l.
  - destruct (contents d !! EntryKey (ca_chan (fl_call f)) id) as [w|] eqn:Hx; [rewrite Ha; eauto|exfalso].
    destruct (commit_ok d (fl_txn f)) as (d' & Hd' & _); [|congruence].
    intros k. rewrite Hr, elem_of_singleton. intros ->. congruence.
Qed.

(** The state is what the calls that have returned make of the start. *)
Definition linear d s : Prop :=
  map_Forall (λ _ f, flying_ok f) (flying s) ∧
  let (d', rs) := in_turn d (returned s).*1 in
  contents (r_db s) = contents d' ∧ Forall2 same_verdict (returned s).*2 rs.

Lemma linear_return d s a r d2 r2 d1 rs :
  in_turn d (returned s).*1 = (d1, rs) → Append d1 (ca_chan a) (ca_now a) (ca_entry a) = (d2, r2) →
  Forall2 same_verdict (returned s).*2 rs → same_verdict r r2 →
  in_turn d (returned (return_ a r s)).*1 = (d2, rs ++ [r2])
  ∧ Forall2 same_verdict (returned (return_ a r s)).*2 (rs ++ [r2]).
Proof.
  intros Hin Ha Hrs Hr. unfold return_. simpl. rewrite !fmap_app. simpl. rewrite in_turn_snoc, Hin, Ha.
  split; [done|]. apply Forall2_app; [done|]. by repeat constructor.
Qed.

Lemma Append_contents d d1 a d2 r :
  contents d1 = contents d → Append d (ca_chan a) (ca_now a) (ca_entry a) = (d2, r) → (∃ x, r = Err x) →
  ∃ x, Append d1 (ca_chan a) (ca_now a) (ca_entry a) = (d1, Err x).
Proof.
  intros Hd Ha [x ->]. destruct (entryID (ca_entry a)) as [id|y|] eqn:Hid.
  - destruct (entryID_Some _ _ Hid) as (e & He & _). rewrite He in Hid, Ha |- *.
    destruct (Marshal e) as [m|y|] eqn:Hm.
    + pose proof (Append_reliable d (ca_chan a) (ca_now a) e id m Hid Hm) as H1'.
      pose proof (Append_reliable d1 (ca_chan a) (ca_now a) e id m Hid Hm) as H2'. rewrite Hd in H2'.
      destruct (contents d !! _); [eauto|]. destruct H1' as (d3 & Ha' & _). congruence.
    + exists y. unfold Append. rewrite Hid. simpl. by rewrite Hm.
    + by destruct (Marshal_no_panic e).
  - exists y. unfold Append. by rewrite Hid.
  - unfold entryID in Hid. by destruct (EntryHeader.GetEntryID _).
Qed.

Lemma race_linear d : preserved race_step (λ _ _, True) (linear d).
Proof.
  intros l s s' [Hfl Hlin] _ Hstep. destruct (in_turn d (returned s).*1) as [d1 rs] eqn:Hin.
  destruct Hlin as [Hdb Hrs]. destruct l as [n a|n]; simpl in Hstep.
  - destruct (flying s !! n) as [f|] eqn:Hn; [done|]. injection Hstep as <-.
    pose proof (append_body_cases (r_db s) a) as Hb. destruct (append_body (r_db s) a) as [[t ak]|x|]; [| |done].
    + split; [by apply map_Forall_insert_2|]. simpl. by rewrite Hin.
    + split; [done|]. destruct Hb as [y Hb].
      destruct (Append_contents _ d1 a _ _ (eq_sym Hdb) Hb) as [z Hz]; [eauto|].
      destruct (linear_return d s a (Err x) d1 (Err z) d1 rs Hin Hz Hrs) as [-> ?]; [done|]. done.
  - destruct (flying s !! n) as [f|] eqn:Hn; [|done]. simpl in Hstep. injection Hstep as <-.
    pose proof (commit_verdict (r_db s) d1 f (Hfl n f Hn) (eq_sym Hdb)) as Hc.
    destruct (Append d1 _ _ _) as [d2 r2] eqn:Ha.
    assert (map_Forall (λ _ f, flying_ok f) (delete n (flying s))) as Hfl' by by apply map_Forall_delete.
    destruct (Txn_Commit (r_db s) (fl_txn f)) as [d'|x|]; [| |done]; (split; [done|]).
    + destruct Hc as [Hd' ->]. destruct (linear_return d (mkRace d' (delete n (flying s)) (returned s)) (fl_call f)
        (Ok (fl_key f)) d2 (Ok (fl_key f)) d1 rs Hin Ha Hrs) as [-> ?]; done.
    + destruct Hc as [-> [z ->]]. destruct (linear_return d (mkRace (r_db s) (delete n (flying s)) (returned s)) (fl_call f)
        (Err x) d1 (Err z) d1 rs Hin Ha Hrs) as [-> ?]; done.
Qed.

(** C9: appends are linearizable: however the transactions of any number
    of concurrent appends overlap, the entries and index keys stored are those
    of the same appends run one after another in the order they return, each
    returning the same key there or being refused there too; a conflict is
    reported only where that order refuses the entry as already there, so that
    two appends under one key never both succeed and none is refused for
    nothing. *)
Theorem appends_linearize d ls s :
  play race_step ls (race_init d) = Some s →
  let (d', rs) := in_turn d (returned s).*1 in
  contents (r_db s) = contents d' ∧ Forall2 same_verdict (returned s).*2 rs.
Proof.
  intros Hp. assert (linear d s) as [_ Hl]; [|done].
  eapply (play_forever race_step); [apply race_linear| |exact Hp].
  split; [apply map_Forall_empty|]. by split; [|constructor].
Qed.
End linearize.

(* ------------------------------------------------------------------ *)
(** * Witnesses *)

(** Two appends of one entry whose transactions overlap. *)
Module RaceExamples.
Import MemDB RefCodec StoreExamples.

Definition twice : list race_label :=
  [Body 0 (mkCall (ch x00) t0 (Some e0)); Body 1 (mkCall (ch x00) t1 (Some e0)); Commit_ 1; Commit_ 0].
Definition raced : race (T:=unit) := default (race_init d0) (play race_step twice (race_init d0)).

Lemma twice_plays : play race_step twice (race_init d0) = Some raced.
Proof. unfold raced. reflexivity. Qed.

(** The one that commits first wins. *)
Example first_commit_wins :
  match (returned raced).*2 with [Ok _; Err _] => True | _ => False end.
Proof. vm_compute. exact I. Qed.

Lemma appends_linearize_witness :
  let (d', rs) := in_turn d0 (returned raced).*1 in contents (r_db raced) = contents d'.
Proof.
  pose proof (appends_linearize d0 twice raced twice_plays) as Hl.
  destruct (in_turn _ _) as [d' rs]. exact (proj1 Hl).
Defined.
End RaceExamples.
