(* ===== verification/Reader.v ===== *)
(** [store/store.go]: subscriptions.

    A subscriber is a goroutine that iterates over a snapshot of the channel's
    keys, publishing each entry, and starts over when it has been told that
    the channel was written to.  [read] is a state machine: a step is one turn
    of the inner loop, or the wake-up of the outer [select], and takes the
    database as it is at that moment and the case [select] picked.  Between
    two steps anything may happen to the database.  [readFromIndex] is a
    second, simpler machine, over the arrival index and a single snapshot.

    [run] plays a list of steps; [quiet] is a run in which nothing interrupts
    the reader, the only case [select] can pick being [default]. *)
From S2P Require Import Prelude Protos Helpers Badger Channel Store.

(** What a [select] of the reader picks. *)
Inductive event :=
  | EvDone                            (* [<-sub.ctx.Done()] *)
  | EvNotify                          (* [<-sub.rx] *)
  | EvReset (reset : option StreamOpts) (* [<-sub.resetRx] *)
  | EvDefault.                        (* [default] *)

Section reader.
Context `{Badger} `{!ProtoCodec Msg.t} {T : Type}.

(** Where the goroutine is: in the inner loop of [iterate], in the outer
    [select], or gone ([read] has returned, or panicked). *)
Inductive position :=
  | Iterating (it : Iterator)
  | Waiting
  | Returned (err : option error)
  | Panicked.

(** The variables of [read], and what it has published, oldest first. *)
Record reader := mkReader {
  opts : StreamOpts;
  count : Z;
  dirty : bool;
  lastSeen : slice;
  key : slice;
  max : Z;
  pos : position;
  published : list Msg.t;
}.

Definition set_pos (p : position) (r : reader) : reader :=
  mkReader (opts r) (count r) (dirty r) (lastSeen r) (key r) (max r) p (published r).

Definition set_dirty (b : bool) (r : reader) : reader :=
  mkReader (opts r) (count r) b (lastSeen r) (key r) (max r) (pos r) (published r).

(** [sub.target.Publish(msg)] for the item with key [k]; [lastSeen], [key] and
    [count] follow, and the iterator moves on. *)
Definition publish (k : bytes) (msg : Msg.t) (it : Iterator) (r : reader) : reader :=
  mkReader (opts r) (to_u64 (count r + 1)) (dirty r) (Some k) (Some k) (max r)
    (Iterating (It_Next it)) (published r ++ [msg]).

(** The start of [iterate]: a snapshot, and an iterator at [key]. *)
Definition begin_iterate (d : DB) (c : Channel T) (r : reader) : reader :=
  match NewTransaction d false with
  | Ok txn =>
      let iOpts := mkIterOpts (PrefetchValues DefaultIteratorOptions) 10
                     (Reverse DefaultIteratorOptions) (prefix c) in
      set_pos (Iterating (It_Seek (NewIterator txn iOpts) (sbytes (key r)))) (set_dirty false r)
  | Err e => set_pos (Returned (Some e)) r
  | Panic => set_pos Panicked r
  end.

(** The outer loop, once [iterate] has returned nil. *)
Definition after_iterate (d : DB) (c : Channel T) (r : reader) : reader :=
  if count r >=? max r then set_pos (Returned None) r
  else if dirty r then begin_iterate d c r
  else set_pos Waiting r.

(** The message published for an item, [keysOnly] or not. *)
Definition item_msg (keys_only : bool) (it : Iterator) : outcome Msg.t :=
  if keys_only then
    id ← entryIDFromKey (It_Key it);
    Ok (Msg.mk MsgOp_FeedEntry 0
          (Some (EntryHeader.mk (Some id) None None [] [])) None None None)
  else v ← It_Value it; checked (Unmarshal v).

(** The [default] case of the inner loop. *)
Definition read_item (d : DB) (c : Channel T) (it : Iterator) (r : reader) : reader :=
  if negb (It_Valid it) then after_iterate d c r
  else if slice_equal (Some (It_Key it)) (lastSeen r) then set_pos (Iterating (It_Next it)) r
  else match item_msg (keysOnly (opts r)) it with
       | Ok msg => publish (It_Key it) msg it r
       | Err e => set_pos (Returned (Some e)) r
       | Panic => set_pos Panicked r
       end.

(** The [resetRx] case. *)
Definition read_reset (d : DB) (c : Channel T) (reset : option StreamOpts) (r : reader) : reader :=
  match reset with
  | None => after_iterate d c r
  | Some reset =>
      let r := set_dirty true r in
      match (if fromHead reset then k ← lastKey d c; Ok (set_Seek k reset) else Ok reset) with
      | Ok reset =>
          let k := Seek reset in
          let seen := if skipFirst (opts r) then k else lastSeen r in
          after_iterate d c
            (mkReader (opts r) (count r) (dirty r) seen k (Max reset) (pos r) (published r))
      | Err e => set_pos (Returned (Some e)) r
      | Panic => set_pos Panicked r
      end
  end.

(** One step of [read]; [None] when the goroutine is not there to take it: it
    has ended, or waits in the outer [select], which has no [resetRx] case. *)
Definition read_step (d : DB) (c : Channel T) (ev : event) (r : reader) : option reader :=
  match pos r, ev with
  | Iterating it, _ =>
      Some (if count r >=? max r then after_iterate d c r
            else match ev with
                 | EvDone => after_iterate d c r
                 | EvNotify => set_dirty true r
                 | EvReset reset => read_reset d c reset r
                 | EvDefault => read_item d c it r
                 end)
  | Waiting, EvDone => Some (set_pos (Returned None) r)
  | Waiting, EvNotify => Some (begin_iterate d c r)
  | _, _ => None
  end.

(** [read(opts)] up to its first snapshot. *)
Definition read_start (d : DB) (c : Channel T) (o : option StreamOpts) : reader :=
  match o with
  | None => mkReader (mkStreamOpts None 0 OptNone) 0 false None None 0 (Returned None) []
  | Some o =>
      match (if fromHead o then k ← lastKey d c; Ok (set_Seek k o) else Ok o) with
      | Ok o =>
          let k := Seek o in
          let seen := if skipFirst o then k else None in
          begin_iterate d c (mkReader o 0 false seen k (Max o) Waiting [])
      | Err e => mkReader o 0 false None None 0 (Returned (Some e)) []
      | Panic => mkReader o 0 false None None 0 Panicked []
      end
  end.

Fixpoint run (c : Channel T) (l : list (DB * event)) (r : reader) : option reader :=
  match l with
  | [] => Some r
  | (d, ev) :: l => r ← read_step d c ev r; run c l r
  end.

Definition quiet (n : nat) (d : DB) : list (DB * event) := replicate n (d, EvDefault).

(* ------------------------------------------------------------------ *)
(** * The arrival index *)

Inductive index_position :=
  | IxIterating (txn : Txn) (it : Iterator)
  | IxReturned (err : option error)
  | IxPanicked.

Record index_reader := mkIxReader {
  ix_opts : StreamOpts;
  ix_count : Z;
  ix_pos : index_position;
  ix_published : list Msg.t;
}.

Definition set_ix_pos (p : index_position) (r : index_reader) : index_reader :=
  mkIxReader (ix_opts r) (ix_count r) p (ix_published r).

(** The message published for an index key: the id it holds, or the entry it
    names, read in the same transaction. *)
Definition index_msg (keys_only : bool) (c : Channel T) (txn : Txn) (ik : bytes) : outcome Msg.t :=
  if keys_only then
    id ← entryIDFromIndex ik;
    Ok (Msg.mk MsgOp_FeedEntry 0
          (Some (EntryHeader.mk (Some id) None None [] [])) None None None)
  else
    k ← entryKeyFromIndex c ik;
    match (Txn_Get txn k).1 with
    | Found value => v ← value; checked (Unmarshal v)
    | KeyNotFound => Err (Foreign (str "Key not found"))
    | GetErr e => Err e
    end.

(** [readFromIndex(opts)] up to its snapshot. *)
Definition index_start (d : DB) (c : Channel T) (o : StreamOpts) : index_reader :=
  match NewTransaction d false with
  | Ok txn =>
      let iOpts := mkIterOpts (PrefetchValues DefaultIteratorOptions) 10
                     (Reverse DefaultIteratorOptions) (indexPrefix c) in
      mkIxReader o 0 (IxIterating txn (It_Seek (NewIterator txn iOpts) (sbytes (Seek o)))) []
  | Err e => mkIxReader o 0 (IxReturned (Some e)) []
  | Panic => mkIxReader o 0 IxPanicked []
  end.

Definition index_step (c : Channel T) (ev : event) (r : index_reader) : option index_reader :=
  match ix_pos r with
  | IxIterating txn it =>
      if ix_count r >=? Max (ix_opts r) then Some (set_ix_pos (IxReturned None) r)
      else match ev with
           | EvDone => Some (set_ix_pos (IxReturned None) r)
           | EvNotify => Some r
           | EvReset _ => None
           | EvDefault =>
               if negb (It_Valid it) then Some (set_ix_pos (IxReturned None) r)
               else match index_msg (keysOnly (ix_opts r)) c txn (It_Key it) with
                    | Ok msg => Some (mkIxReader (ix_opts r) (to_u64 (ix_count r + 1))
                                        (IxIterating txn (It_Next it)) (ix_published r ++ [msg]))
                    | Err e => Some (set_ix_pos (IxReturned (Some e)) r)
                    | Panic => Some (set_ix_pos IxPanicked r)
                    end
           end
  | _ => None
  end.

Fixpoint index_run (c : Channel T) (l : list event) (r : index_reader) : option index_reader :=
  match l with
  | [] => Some r
  | ev :: l => r ← index_step c ev r; index_run c l r
  end.

(* ------------------------------------------------------------------ *)
(** * Subscribing *)

(** [type SubscriptionTarget]: its [ID]; [Publish] is [published] above. *)
Class SubscriptionTarget := target_ID : T → UUID.

(** Where a call of [Subscribe] has got to.  For a target it knows it is in
    [oldSub.reset(opts)], sending on the unbuffered [resetRx] with [sLock]
    held: it returns when that subscriber's reader takes the options, and not
    before.  Otherwise it returns, having started a goroutine.  On a nil [opts]
    the receiver of [opts.fromIndex()] cannot be copied and the call panics,
    the subscriber being registered by then. *)
Inductive subscribing :=
  | SendingReset (id : UUID) (o : option StreamOpts)
  | GoRead (id : UUID) (o : StreamOpts)
  | GoReadFromIndex (id : UUID) (o : StreamOpts)
  | SubscribePanic.

Definition set_subscribers (s : gmap UUID (subscriber T)) (c : Channel T) : Channel T :=
  mkChannel (c_id c) (c_uri c) (prefix c) (indexPrefix c) s.

Definition Subscribe `{SubscriptionTarget} (c : Channel T) (t : T) (o : option StreamOpts)
  : Channel T * subscribing :=
  let id := target_ID t in
  match subscribers c !! id with
  | Some oldSub => (c, SendingReset (sub_id oldSub) o)
  | None =>
      let sub := mkSubscriber id t in
      (set_subscribers (<[sub_id sub:=sub]> (subscribers c)) c,
       match o with
       | None => SubscribePanic
       | Some o => if fromIndex o then GoReadFromIndex id o else GoRead id o
       end)
  end.

Definition unsubscribe (c : Channel T) (id : UUID) : Channel T :=
  set_subscribers (delete id (subscribers c)) c.
End reader.
Arguments SubscriptionTarget _ : clear implicits.

(* ------------------------------------------------------------------ *)
(** * What a subscription delivers *)

Section spec.
Context `{BadgerLaws} `{!ProtoCodec Msg.t} {T : Type}.
Implicit Types (c : Channel T) (d : DB) (r : reader) (k : bytes).

(** The keys of the channel's entries from [k] on, in key order. *)
Definition entries_from d c k : list bytes :=
  take_while (has_prefix (prefix c)) (seek_keys (contents d) (prefix c) k).

(** [lastSeen] suppresses the first key if it is equal to it. *)
Definition skip_seen (s : slice) (ks : list bytes) : list bytes :=
  match ks with
  | [] => []
  | k :: ks' => if slice_equal (Some k) s then ks' else ks
  end.

(** The message for a key of the database. *)
Definition msg_at d (keys_only : bool) k : Msg.t :=
  if keys_only then
    Msg.mk MsgOp_FeedEntry 0 (Some (EntryHeader.mk (Some (drop 33 k)) None None [] [])) None None None
  else (Unmarshal (default [] (contents d !! k))).1.

(** Every entry of the channel decodes. *)
Definition decodable d c : Prop :=
  ∀ k v, contents d !! k = Some v → has_prefix (prefix c) k = true → (Unmarshal v).2 = None.

(** The reader after an undisturbed pass over the keys [ks]. *)
Definition finish d (ks : list bytes) r : reader :=
  let out := take (Z.to_nat (max r - count r)) (skip_seen (lastSeen r) ks) in
  mkReader (opts r) (count r + Z.of_nat (length out)) (dirty r)
    (if last out is Some k then Some k else lastSeen r)
    (if last out is Some k then Some k else key r)
    (max r) (pos r) (published r ++ (msg_at d (keysOnly (opts r)) <$> out)).

(** An iterator of [read], over the snapshot of [d]. *)
Definition iter_ok d c (it : Iterator) : Prop :=
  Reverse (it_opts it) = false ∧ Prefix (it_opts it) = prefix c ∧ it_view it = contents d
  ∧ StronglySorted bytes_le (it_rest it) ∧ NoDup (it_rest it)
  ∧ ∀ k, k ∈ it_rest it → is_Some (contents d !! k).

(** ** Steps *)

Lemma begin_iterate_Ok d c r it :
  pos (begin_iterate d c r) = Iterating it →
  begin_iterate d c r = set_pos (Iterating it) (set_dirty false r) ∧ iter_ok d c it
  ∧ it_rest it = seek_keys (contents d) (prefix c) (sbytes (key r)).
Proof.
  unfold begin_iterate. destruct (NewTransaction d false) as [t|e|] eqn:Ht; [|done..].
  intros [= <-]. split; [done|]. apply NewTransaction_spec in Ht as (Hb & Hw & _).
  set (o := mkIterOpts _ _ _ _). destruct (NewIterator_spec t o) as [Ho Hv].
  rewrite (fresh_view t d Hb Hw) in Hv.
  destruct (It_Seek_state (NewIterator t o) (sbytes (key r))) as [Hso Hsv].
  assert (it_rest (It_Seek (NewIterator t o) (sbytes (key r)))
          = seek_keys (contents d) (prefix c) (sbytes (key r))) as Hr
    by (rewrite It_Seek_rest by (by rewrite Ho); by rewrite Ho, Hv).
  split; [|done]. unfold iter_ok. rewrite Hso, Hsv, Ho, Hv, Hr. split_and!; try done.
  - apply seek_keys_sorted.
  - apply NoDup_seek_keys.
  - intros k. apply elem_of_seek_keys.
Qed.

Lemma iter_ok_next d c it : iter_ok d c it → iter_ok d c (It_Next it).
Proof.
  intros (H1 & H2 & H3 & H4 & H5 & H6). destruct (It_Next_state it) as (Ho & Hv & Hr).
  unfold iter_ok. rewrite Ho, Hv, Hr. split_and!; try done.
  - destruct H4; simpl; [constructor|done].
  - destruct H5; simpl; [constructor|done].
  - intros k Hk. apply H6. destruct (it_rest it); [done|]. by right.
Qed.

Lemma iter_valid d c it :
  iter_ok d c it →
  It_Valid it = match it_rest it with [] => false | k :: _ => has_prefix (prefix c) k end.
Proof. intros (_ & Hp & _). by rewrite It_Valid_spec, Hp. Qed.

Lemma after_iterate_pos d c p r : after_iterate d c (set_pos p r) = after_iterate d c r.
Proof.
  unfold after_iterate, begin_iterate. destruct r; simpl. repeat case_match; done.
Qed.

Lemma entryIDFromKey_prefix c k :
  channel_ok c → has_prefix (prefix c) k = true → entryIDFromKey k = Ok (drop 33 k).
Proof.
  intros Hc [x ->]%has_prefix_spec. unfold entryIDFromKey, slice_from.
  rewrite decide_True by (rewrite length_app, length_prefix by done; lia). done.
Qed.

(** The message of the item an iterator is at, if reading it does not fail. *)
Lemma item_msg_Ok d c it k l ko m :
  channel_ok c → iter_ok d c it → it_rest it = k :: l → has_prefix (prefix c) k = true →
  item_msg ko it = Ok m → m = msg_at d ko k.
Proof.
  intros Hc (_ & _ & Hv & _) Hr Hp. unfold item_msg, msg_at.
  rewrite (It_Key_spec it k l Hr). destruct ko.
  - rewrite (entryIDFromKey_prefix c k) by done. by intros [= <-].
  - destruct (It_Value it) as [v|e|] eqn:Hi; simpl; [|done..].
    apply (It_Value_spec it k l) in Hi; [|done]. rewrite <-Hv, Hi. simpl.
    unfold checked. by destruct (Unmarshal v) as [x [e|]]; intros [= <-].
Qed.

Lemma item_msg_no_panic d c it k l ko :
  channel_ok c → iter_ok d c it → it_rest it = k :: l → has_prefix (prefix c) k = true →
  item_msg ko it ≠ Panic.
Proof.
  intros Hc _ Hr Hp. unfold item_msg. rewrite (It_Key_spec it k l Hr). destruct ko.
  - by rewrite (entryIDFromKey_prefix c k).
  - pose proof (It_Value_no_panic it). destruct (It_Value it) as [v|e|]; simpl; [|done..].
    unfold checked. by destruct (Unmarshal v) as [x [e|]].
Qed.
End spec.

(** ** Any run: what is published, and how much *)

Section safety.
Context `{BadgerLaws} `{!ProtoCodec Msg.t} {T : Type} (c : Channel T) (Hc : channel_ok c).
(** the databases of the run, and a bound on the [Max]es asked for *)
Context (P : DB → Prop) (M : Z) (HM : 0 ≤ M ≤ Tail).
Implicit Types (d : DB) (r : reader).

(** A message made from an entry of the channel in one of the databases. *)
Definition from_channel (keys_only : bool) (m : Msg.t) : Prop :=
  ∃ d k, P d ∧ is_Some (contents d !! k) ∧ has_prefix (prefix c) k = true
    ∧ m = msg_at d keys_only k.

Definition reader_inv r : Prop :=
  Forall (from_channel (keysOnly (opts r))) (published r)
  ∧ count r = Z.of_nat (length (published r)) ∧ count r ≤ M ∧ max r ≤ M
  ∧ match pos r with
    | Iterating it => ∃ d, P d ∧ iter_ok d c it
    | Panicked => False
    | _ => True
    end.

Lemma set_dirty_inv b r : reader_inv r → reader_inv (set_dirty b r).
Proof. done. Qed.

Lemma set_pos_inv p r :
  match p with Iterating it => ∃ d, P d ∧ iter_ok d c it | Panicked => False | _ => True end →
  reader_inv r → reader_inv (set_pos p r).
Proof. unfold reader_inv. intros Hp (? & ? & ? & ? & _). done. Qed.

Lemma begin_iterate_inv d r : P d → reader_inv r → reader_inv (begin_iterate d c r).
Proof.
  intros Hd Hr. destruct (pos (begin_iterate d c r)) as [it| |e|] eqn:Hp.
  1: { destruct (begin_iterate_Ok d c r it Hp) as (-> & Hit & _). apply set_pos_inv; [eauto|done]. }
  all: revert Hp; unfold begin_iterate; pose proof (NewTransaction_no_panic d false);
    destruct (NewTransaction d false); try done; intros _; by apply set_pos_inv.
Qed.

Lemma after_iterate_inv d r : P d → reader_inv r → reader_inv (after_iterate d c r).
Proof.
  intros Hd Hr. unfold after_iterate. case_match; [by apply set_pos_inv|].
  case_match; [by apply begin_iterate_inv|by apply set_pos_inv].
Qed.

Lemma lastKey_no_panic d : lastKey d c ≠ Panic.
Proof.
  unfold lastKey, View. pose proof (NewTransaction_no_panic d false).
  by destruct (NewTransaction d false).
Qed.

Lemma read_item_inv d it r :
  P d → pos r = Iterating it → count r < max r → reader_inv r → reader_inv (read_item d c it r).
Proof.
  intros Hd Hpos Hlt Hr. pose proof Hr as (Hpub & Hcnt & Hle & Hmax & Hit). rewrite Hpos in Hit.
  destruct Hit as (d' & Hd' & Hit). unfold read_item. rewrite (iter_valid d' c it Hit).
  destruct (it_rest it) as [|k l] eqn:Hrest; [by apply after_iterate_inv|].
  destruct (has_prefix (prefix c) k) eqn:Hp; [|by apply after_iterate_inv]. simpl.
  rewrite (It_Key_spec it k l Hrest).
  case_match; [apply set_pos_inv; [exists d'; split; [done|by apply iter_ok_next]|done]|].
  pose proof (item_msg_no_panic d' c it k l (keysOnly (opts r)) Hc Hit Hrest Hp).
  destruct (item_msg (keysOnly (opts r)) it) as [m|e|] eqn:Hm; [|by apply set_pos_inv|done].
  unfold reader_inv, publish; simpl. rewrite length_app; simpl. unfold to_u64.
  unfold Tail in HM. rewrite Z.mod_small by lia. split_and!; [|lia..|].
  - apply Forall_app_2; [done|]. constructor; [|done]. exists d', k. split_and!; try done.
    + destruct Hit as (_ & _ & _ & _ & _ & Hs). apply Hs. rewrite Hrest. left.
    + by eapply item_msg_Ok.
  - exists d'. split; [done|by apply iter_ok_next].
Qed.

Lemma read_reset_inv d reset r :
  P d → (∀ o, reset = Some o → Max o ≤ M) → reader_inv r → reader_inv (read_reset d c reset r).
Proof.
  intros Hd Hmax Hr. unfold read_reset. destruct reset as [o|]; [|by apply after_iterate_inv].
  specialize (Hmax o eq_refl). pose proof (lastKey_no_panic d).
  destruct (fromHead o); simpl; [destruct (lastKey d c) as [k|e|]; simpl; [|by apply set_pos_inv|done]|];
    apply after_iterate_inv; try done; destruct Hr as (? & ? & ? & ? & ?); done.
Qed.

Definition event_bound (ev : event) : Prop := ∀ o, ev = EvReset (Some o) → Max o ≤ M.

Lemma read_step_inv d ev r r' :
  P d → event_bound ev → reader_inv r → read_step d c ev r = Some r' → reader_inv r'.
Proof.
  intros Hd Hev Hr. unfold read_step. destruct (pos r) as [it| |e|] eqn:Hpos; [|..].
  - intros [= <-]. destruct (count r >=? max r) eqn:Hlt; [by apply after_iterate_inv|].
    destruct ev as [| |reset|]; [by apply after_iterate_inv|done| |].
    + apply read_reset_inv; [done| |done]. intros o ->. by apply Hev.
    + apply read_item_inv; try done. lia.
  - destruct ev; intros [= <-]; [by apply set_pos_inv|by apply begin_iterate_inv].
  - done.
  - done.
Qed.

Lemma run_inv l r r' :
  Forall (λ s, P s.1 ∧ event_bound s.2) l → reader_inv r → run c l r = Some r' → reader_inv r'.
Proof.
  intros Hl. revert r. induction Hl as [|[d ev] l [Hd Hev] _ IH]; intros r Hr; simpl.
  - by intros [= <-].
  - destruct (read_step d c ev r) as [r1|] eqn:Hs; [|done]. simpl.
    apply IH. by eapply read_step_inv.
Qed.

Lemma read_start_inv d o : P d → Max o ≤ M → reader_inv (read_start d c (Some o)).
Proof.
  intros Hd Ho. unfold read_start. pose proof (lastKey_no_panic d).
  assert (∀ o' s k, Max o' ≤ M →
    reader_inv (begin_iterate d c (mkReader o' 0 false s k (Max o') Waiting []))) as Hb.
  { intros o' s k Ho'. apply begin_iterate_inv; [done|]. split_and!; simpl; try done; lia. }
  destruct (fromHead o); simpl; [|by apply Hb].
  destruct (lastKey d c) as [k|e|]; simpl; [by apply (Hb (set_Seek k o))| |done].
  split_and!; simpl; try done; lia.
Qed.
End safety.

