(* ===== verification/Delivery.v ===== *)
(** [store/store.go]: what a subscription delivers.

    The theorems about the reader of [Reader.v]: an undisturbed pass delivers
    the entries of its snapshot from the seek key on, up to the limit, and
    terminates; passes over growing snapshots deliver what one pass over the
    last of them would, nothing lost and nothing twice; an entry that lands
    behind the reader is not delivered; what a reset changes and what it does
    not; and what the arrival index adds. *)
From S2P Require Import Prelude Protos Helpers Badger Channel Store Reader.

(** ** Undisturbed runs *)

Section quiet.
Context `{BadgerReliable} `{!ProtoCodec Msg.t} {T : Type} (c : Channel T) (Hc : channel_ok c).
Implicit Types (d : DB) (r : reader) (k : bytes).

Lemma take_S_cons {A} (n : nat) (x : A) l : take (S n) (x :: l) = x :: take n l.
Proof. done. Qed.

Lemma run_app l1 l2 r : run c (l1 ++ l2) r = (r ← run c l1 r; run c l2 r).
Proof.
  revert r; induction l1 as [|[d ev] l1 IH]; intros r; simpl; [done|].
  destruct (read_step d c ev r) as [r1|]; simpl; [apply IH|done].
Qed.

Lemma slice_equal_spec a b : slice_equal a b = true ↔ sbytes a = sbytes b.
Proof. unfold slice_equal. by rewrite bool_decide_eq_true. Qed.

Lemma skip_seen_notin (s : slice) ks :
  ks ≠ [] → sbytes s ∉ ks → skip_seen s ks = ks.
Proof.
  destruct ks as [|k ks]; [done|]. intros _ Hs. simpl.
  destruct (slice_equal (Some k) s) eqn:He; [|done]. apply slice_equal_spec in He. simpl in He.
  destruct Hs. rewrite <-He. left.
Qed.

Lemma skip_seen_notin' (s : slice) ks : sbytes s ∉ ks → skip_seen s ks = ks.
Proof. destruct ks; [done|]. by apply skip_seen_notin. Qed.

(** The reader between two passes: where it stands does not matter. *)
Lemma finish_pos d ks p r : finish d ks (set_pos p r) = set_pos p (finish d ks r).
Proof. done. Qed.

Lemma item_msg_reliable d it k l ko :
  decodable d c → iter_ok d c it → it_rest it = k :: l → has_prefix (prefix c) k = true →
  item_msg ko it = Ok (msg_at d ko k).
Proof.
  intros Hdec Hit Hr Hp.
  assert (∃ m, item_msg ko it = Ok m) as [m Hm];
    [|by rewrite Hm; f_equal; eapply item_msg_Ok].
  unfold item_msg. rewrite (It_Key_spec it k l Hr). destruct ko.
  - rewrite (entryIDFromKey_prefix c k) by done. eauto.
  - destruct (value_ok it k l Hr) as (v & -> & Hv). simpl. unfold checked.
    destruct Hit as (_ & _ & Hview & _). rewrite Hview in Hv.
    specialize (Hdec k v Hv Hp). destruct (Unmarshal v) as [m e]. simpl in Hdec. subst. eauto.
Qed.

Lemma finish_nil d r : finish d [] r = r.
Proof. unfold finish. cbn [skip_seen]. rewrite take_nil. simpl. rewrite Z.add_0_r, app_nil_r. by destruct r. Qed.

Lemma finish_full d ks r : max r ≤ count r → finish d ks r = r.
Proof.
  intros Hle. unfold finish. replace (Z.to_nat (max r - count r)) with 0%nat by lia.
  simpl. rewrite Z.add_0_r, app_nil_r. by destruct r.
Qed.

(** What is left to deliver once an entry has been published. *)
Lemma finish_publish d k ks it r :
  slice_equal (Some k) (lastSeen r) = false → k ∉ ks → 0 ≤ count r → count r < max r → max r ≤ Tail →
  set_pos (pos r) (finish d ks (publish k (msg_at d (keysOnly (opts r)) k) it r)) = finish d (k :: ks) r.
Proof.
  intros Heq Hk' Hcnt Hlt Hmax.
  assert (to_u64 (count r + 1) = count r + 1) as Hc' by (unfold to_u64; unfold Tail in Hmax; apply Z.mod_small; lia).
  unfold finish, set_pos. simpl. rewrite Heq, Hc'.
  replace (Z.to_nat (max r - count r)) with (S (Z.to_nat (max r - (count r + 1)))) by lia.
  rewrite take_S_cons, skip_seen_notin' by done.
  set (out := take _ ks). cbn [length last fmap list_fmap].
  rewrite <-app_assoc. simpl.
  assert (last (k :: out) = Some (default k (last out))) as ->.
  { destruct out as [|x out']; [done|]. rewrite last_cons_cons.
    destruct (last (x :: out')) eqn:Hl; [done|]. by apply last_None in Hl. }
  f_equal; [lia| |]; by destruct (last out).
Qed.

(** One pass over the keys the iterator has left. *)
Lemma quiet_pass d d' it r :
  decodable d c → iter_ok d c it → pos r = Iterating it →
  0 ≤ count r → max r ≤ Tail →
  ∃ n, (n ≤ S (length (it_rest it)))%nat ∧
    run c (quiet n d') r
      = Some (after_iterate d' c (finish d (take_while (has_prefix (prefix c)) (it_rest it)) r)).
Proof.
  intros Hdec Hit. remember (it_rest it) as ks eqn:Hks.
  revert it r Hit Hks; induction ks as [|k ks IH]; intros it r Hit Hks Hpos Hcnt Hmax.
  { exists 1%nat. split; [done|]. simpl. unfold read_step. rewrite Hpos.
    rewrite finish_nil.
    destruct (count r >=? max r); [done|]. unfold read_item.
    by rewrite (iter_valid d c it), <-Hks. }
  destruct (count r >=? max r) eqn:Hlt.
  { exists 1%nat. split; [lia|]. simpl. unfold read_step. rewrite Hpos, Hlt.
    by rewrite finish_full by lia. }
  destruct (has_prefix (prefix c) k) eqn:Hp; cbn [take_while]; rewrite Hp.
  2: { exists 1%nat. split; [lia|]. simpl. unfold read_step. rewrite Hpos, Hlt.
    unfold read_item. rewrite (iter_valid d c it), <-Hks, Hp by done. by rewrite finish_nil. }
  pose proof Hit as (_ & _ & _ & _ & Hnd & _). rewrite <-Hks in Hnd. apply NoDup_cons in Hnd as [Hk Hnd].
  assert (it_rest (It_Next it) = ks) as Hks' by (destruct (It_Next_state it) as (_ & _ & ->); by rewrite <-Hks).
  assert (k ∉ take_while (has_prefix (prefix c)) ks) as Hk'
    by (by intros [Hin _]%elem_of_take_while).
  assert (read_step d' c EvDefault r = Some (read_item d' c it r)) as Hstep
    by (unfold read_step; by rewrite Hpos, Hlt).
  unfold read_item in Hstep.
  rewrite (iter_valid d c it), <-Hks, Hp, (It_Key_spec it k ks) in Hstep by done. simpl in Hstep.
  destruct (slice_equal (Some k) (lastSeen r)) eqn:Heq.
  - destruct (IH (It_Next it) (set_pos (Iterating (It_Next it)) r)) as (n & Hn & Hrun);
      [by apply iter_ok_next|done..|].
    exists (S n). split; [simpl; lia|]. cbn [quiet replicate run]. rewrite Hstep. simpl.
    unfold quiet in Hrun. rewrite Hrun, finish_pos, after_iterate_pos. do 2 f_equal.
    unfold finish. simpl. rewrite Heq. rewrite skip_seen_notin'; [done|].
    apply slice_equal_spec in Heq. simpl in Heq. by rewrite <-Heq.
  - rewrite (item_msg_reliable d it k ks) in Hstep by done.
    set (r' := publish k (msg_at d (keysOnly (opts r)) k) (It_Next it) r) in *.
    assert (count r' = count r + 1) as Hc'.
    { simpl. unfold to_u64. unfold Tail in Hmax. apply Z.mod_small. lia. }
    destruct (IH (It_Next it) (publish k (msg_at d (keysOnly (opts r)) k) it r)) as (n & Hn & Hrun);
      [by apply iter_ok_next|done..|simpl; unfold r' in Hc'; simpl in Hc'; lia|done|].
    exists (S n). split; [simpl; lia|]. cbn [quiet replicate run]. rewrite Hstep. simpl.
    unfold quiet in Hrun. rewrite Hrun.
    rewrite <-(finish_publish d k _ it r) by (done || lia). by rewrite after_iterate_pos.
Qed.

(** ** Reading and following *)

(** A seek key the store understands: none, or one that is not before the
    channel's keys. *)
Definition seek_ok (k : bytes) : Prop := k = [] ∨ bytes_le (prefix c) k.

Lemma entries_from_filter d k :
  seek_ok k →
  entries_from d c k = filter (λ k', has_prefix (prefix c) k' = true) (seek_keys (contents d) (prefix c) k).
Proof.
  intros Hk. unfold entries_from.
  apply (take_while_filter_sorted _ _ (match k with [] => prefix c | _ => k end)).
  - apply seek_keys_sorted.
  - apply Forall_forall. unfold seek_keys. by intros x [? _]%list_elem_of_filter.
  - destruct Hk as [->|Hk]; [done|]. by destruct k.
Qed.

Lemma elem_of_entries_from d k k' :
  seek_ok k →
  k' ∈ entries_from d c k ↔
    is_Some (contents d !! k') ∧ has_prefix (prefix c) k' = true ∧ bytes_le k k'.
Proof.
  intros Hk. rewrite entries_from_filter by done. unfold seek_keys.
  rewrite !list_elem_of_filter, elem_of_sorted_keys. destruct k as [|x k]; [|tauto].
  split; [|intros (? & ? & _)]; intuition auto with vault.
Qed.

Lemma entries_from_sorted d k : seek_ok k → StronglySorted bytes_le (entries_from d c k).
Proof. intros Hk. rewrite entries_from_filter by done. apply StronglySorted_filter, seek_keys_sorted. Qed.

Lemma NoDup_entries_from d k : seek_ok k → NoDup (entries_from d c k).
Proof. intros Hk. rewrite entries_from_filter by done. apply NoDup_filter, NoDup_seek_keys. Qed.

(** The channel grew from [d] to [d']: entries stay, new ones sort last. *)
Definition grows d d' : Prop :=
  (∀ k v, has_prefix (prefix c) k = true → contents d !! k = Some v → contents d' !! k = Some v) ∧
  (∀ k k', has_prefix (prefix c) k = true → has_prefix (prefix c) k' = true →
     is_Some (contents d !! k) → contents d !! k' = None → is_Some (contents d' !! k') → bytes_lt k k').

Lemma sorted_elems_eq (l l' : list bytes) :
  StronglySorted bytes_le l → StronglySorted bytes_le l' → NoDup l → NoDup l' →
  (∀ k, k ∈ l ↔ k ∈ l') → l = l'.
Proof.
  intros. apply (StronglySorted_unique bytes_le); [done..|]. by apply NoDup_Permutation.
Qed.

(** What is new in [d'] comes after what was there. *)
Lemma grows_entries d d' k :
  seek_ok k → grows d d' →
  ∃ new, entries_from d' c k = entries_from d c k ++ new ∧
    ∀ x y, x ∈ entries_from d c k → y ∈ new → bytes_lt x y.
Proof.
  intros Hk [Hold Hnew].
  exists (filter (λ x, contents d !! x = None) (entries_from d' c k)).
  assert (∀ x y, x ∈ entries_from d c k →
    y ∈ filter (λ x, contents d !! x = None) (entries_from d' c k) → bytes_lt x y) as Hlt.
  { intros x y. rewrite list_elem_of_filter, !elem_of_entries_from by done.
    intros (? & ? & _) (? & ? & ? & _). by apply Hnew. }
  split; [|done]. apply sorted_elems_eq.
  - by apply entries_from_sorted.
  - apply StronglySorted_app_2; [|by apply entries_from_sorted
      |by apply StronglySorted_filter, entries_from_sorted].
    intros x y Hx Hy. apply bytes_lt_le. by apply Hlt.
  - by apply NoDup_entries_from.
  - apply NoDup_app. split; [by apply NoDup_entries_from|].
    split; [|by apply NoDup_filter, NoDup_entries_from].
    intros x Hx Hx'. by destruct (irreflexivity bytes_lt x (Hlt x x Hx Hx')).
  - intros x. rewrite elem_of_app, list_elem_of_filter, !elem_of_entries_from by done.
    destruct (contents d !! x) as [v|] eqn:Hx; [|naive_solver].
    split; [intros (? & ? & ?); left; eauto|].
    intros [(_ & ? & ?)|(? & _)]; [|done]. split_and!; try done. exists v. by apply Hold.
Qed.

(** From the last entry of a snapshot on, the grown channel has that entry and
    what is new. *)
Lemma grows_from_last d d' k ks x :
  seek_ok k → grows d d' → entries_from d c k = ks ++ [x] →
  ∃ new, entries_from d' c k = (ks ++ [x]) ++ new ∧ entries_from d' c x = x :: new.
Proof.
  intros Hk Hg Hks. destruct (grows_entries d d' k Hk Hg) as (new & Heq & Hlt).
  rewrite Hks in Heq, Hlt. exists new. split; [done|].
  assert (∀ y, y ∈ entries_from d' c k ↔ y ∈ (ks ++ [x]) ++ new) as Hin by (by rewrite Heq).
  assert (x ∈ entries_from d' c k) as Hx
    by (apply Hin, elem_of_app; left; apply elem_of_app; right; by left).
  apply (elem_of_entries_from d' k x Hk) in Hx as (Hxs & Hxp & Hkx).
  assert (seek_ok x) as Hxk by (right; by apply has_prefix_le).
  pose proof (entries_from_sorted d' k Hk) as Hs. rewrite Heq, <-app_assoc in Hs. simpl in Hs.
  pose proof (NoDup_entries_from d' k Hk) as Hn. rewrite Heq, <-app_assoc in Hn. simpl in Hn.
  apply sorted_elems_eq.
  - by apply entries_from_sorted.
  - by apply StronglySorted_app_1_r in Hs.
  - by apply NoDup_entries_from.
  - by apply NoDup_app in Hn as (_ & _ & Hn).
  - intros y. rewrite elem_of_entries_from by done. split.
    + intros (Hys & Hyp & Hxy).
      assert (y ∈ (ks ++ [x]) ++ new) as Hy.
      { apply Hin, elem_of_entries_from; [done|]. split_and!; try done. by trans x. }
      apply elem_of_app in Hy as [Hy|Hy]; [|by right].
      apply elem_of_app in Hy as [Hy|Hy]; [|by apply list_elem_of_singleton in Hy as ->; left].
      assert (bytes_le y x) by (eapply StronglySorted_app_1_elem_of; [apply Hs|done|by left]).
      assert (y = x) as -> by (by apply (anti_symm bytes_le)). by left.
    + intros Hy. assert (y ∈ entries_from d' c k) as Hy'.
      { apply Hin. rewrite <-app_assoc. apply elem_of_app. by right. }
      apply (elem_of_entries_from d' k y Hk) in Hy' as (? & ? & ?). split_and!; try done.
      apply elem_of_cons in Hy as [->|Hy]; [done|]. apply bytes_lt_le, Hlt; [|done].
      apply elem_of_app. right. by left.
Qed.

(** ** A pass, from snapshot to select *)

(** What a pass over the snapshot of [d] leaves: everything wanted is
    delivered, and the reader returns or waits. *)
Definition pass d r : reader :=
  let r' := finish d (entries_from d c (sbytes (key r))) (set_dirty false r) in
  set_pos (if count r' >=? max r' then Returned None else Waiting) r'.

Lemma after_iterate_clean d r :
  dirty r = false →
  after_iterate d c r = set_pos (if count r >=? max r then Returned None else Waiting) r.
Proof. intros Hr. unfold after_iterate. rewrite Hr. by case_match. Qed.

Lemma begin_pass d r :
  decodable d c → 0 ≤ count r → max r ≤ Tail →
  ∃ n, run c (quiet n d) (begin_iterate d c r) = Some (pass d r).
Proof.
  intros Hdec Hcnt Hmax. destruct (begin_ok d false) as (t & Ht & _).
  assert (∃ it, pos (begin_iterate d c r) = Iterating it) as [it Hit]
    by (unfold begin_iterate; rewrite Ht; eauto).
  destruct (begin_iterate_Ok d c r it Hit) as (-> & Hok & Hrest).
  destruct (quiet_pass d d it (set_pos (Iterating it) (set_dirty false r))) as (n & _ & Hn); try done.
  exists n. rewrite Hn, finish_pos, after_iterate_pos, Hrest. by rewrite after_iterate_clean.
Qed.

(** It has come to the end of its pass: it waits or has returned. *)
Definition idle r : Prop := match pos r with Iterating _ => False | _ => True end.

(** Undisturbed, [r] comes to [r'] at the end of its pass. *)
Definition completes d r r' : Prop := ∃ n, run c (quiet n d) r = Some r' ∧ idle r'.

Lemma idle_quiet n d r r' : idle r → run c (quiet n d) r = Some r' → n = 0%nat ∧ r' = r.
Proof.
  intros Hr. destruct n as [|n]; [by intros [= ->]|]. simpl. unfold read_step, idle in *. by destruct (pos r).
Qed.

(** There is one end of a pass. *)
Lemma completes_unique d r r1 r2 : completes d r r1 → completes d r r2 → r1 = r2.
Proof.
  intros (n1 & Hn1 & Hi1) (n2 & Hn2 & Hi2). revert r n2 Hn1 Hn2. induction n1 as [|n1 IH]; intros r n2.
  - intros [= ->] Hr. by apply idle_quiet in Hr as [_ ->].
  - destruct n2 as [|n2]; [intros Hr [= ->]; by apply idle_quiet in Hr as [_ ->]|].
    simpl. destruct (read_step d c EvDefault r) as [r0|]; simpl; [apply IH|done].
Qed.

Lemma begin_completes d r :
  decodable d c → 0 ≤ count r → max r ≤ Tail → completes d (begin_iterate d c r) (pass d r).
Proof.
  intros Hdec Hcnt Hmax. destruct (begin_pass d r Hdec Hcnt Hmax) as [n Hn]. exists n. split; [done|].
  unfold idle, pass. simpl. by destruct (_ >=? _).
Qed.

(** A waiting reader has delivered all it could. *)
Lemma pass_waiting d r :
  pos (pass d r) = Waiting →
  let ks := skip_seen (lastSeen r) (entries_from d c (sbytes (key r))) in
  Z.of_nat (length ks) < max r - count r ∧ take (Z.to_nat (max r - count r)) ks = ks.
Proof.
  intros Hp ks. unfold pass in Hp. simpl in Hp. fold ks in Hp.
  destruct (_ >=? _) eqn:Hge; [done|]. rewrite Z.geb_leb, Z.leb_gt, length_take in Hge. split; [lia|].
  apply take_ge. lia.
Qed.

Lemma msg_at_grows d d' ko (ks : list bytes) :
  grows d d' → (∀ k, k ∈ ks → is_Some (contents d !! k) ∧ has_prefix (prefix c) k = true) →
  msg_at d ko <$> ks = msg_at d' ko <$> ks.
Proof.
  intros [Hg _] Hks. apply list_fmap_ext. intros i k Hk.
  destruct (Hks k) as [[v Hv] Hp]; [by eapply list_elem_of_lookup_2|].
  unfold msg_at. destruct ko; [done|]. by rewrite Hv, (Hg k v Hp Hv).
Qed.

Lemma elem_of_skip_seen s ks k : k ∈ skip_seen s ks → k ∈ ks.
Proof. destruct ks as [|x ks]; simpl; [done|]. case_match; [by right|done]. Qed.

Lemma skip_seen_app s ks new : ks ≠ [] → skip_seen s (ks ++ new) = skip_seen s ks ++ new.
Proof. destruct ks; [done|]. simpl. by case_match. Qed.

(** A second pass, over a snapshot that grew, makes up for the first. *)
Lemma pass_grows d d' r :
  seek_ok (sbytes (key r)) → grows d d' → 0 ≤ count r → pos (pass d r) = Waiting →
  pass d' (pass d r) = pass d' r.
Proof.
  intros Hk Hg Hcnt Hw. apply pass_waiting in Hw as [Hlen Hall].
  set (s := lastSeen r) in *. set (es := entries_from d c (sbytes (key r))) in *.
  unfold pass at 2. unfold finish. simpl. fold s es. rewrite Hall.
  destruct (last (skip_seen s es)) as [x|] eqn:Hlast.
  2: { apply last_None in Hlast. rewrite Hlast. simpl. rewrite Z.add_0_r, app_nil_r.
    unfold pass, finish. simpl. done. }
  assert (∃ ks, es = ks ++ [x]) as [ks Hes].
  { apply last_Some in Hlast as [l Hl]. destruct es as [|e es']; [by destruct l|]. simpl in Hl.
    case_match; [exists (e :: l)|exists l]; simpl; congruence. }
  destruct (grows_from_last d d' (sbytes (key r)) ks x Hk Hg Hes) as (new & He' & Hx).
  rewrite <-Hes in He'. assert (es ≠ []) as Hne by (rewrite Hes; by destruct ks).
  assert (slice_equal (Some x) (Some x) = true) as Hxx by by apply slice_equal_spec.
  unfold pass, finish. simpl. fold s. rewrite Hx, He', skip_seen_app by done. simpl. rewrite Hxx.
  rewrite take_app_ge by lia. rewrite last_app, fmap_app, length_app, app_assoc, Hlast.
  replace (Z.to_nat (max r - (count r + Z.of_nat (length (skip_seen s es)))))
    with (Z.to_nat (max r - count r) - length (skip_seen s es))%nat by lia.
  rewrite (msg_at_grows d d' (keysOnly (opts r)) (skip_seen s es) Hg).
  2: { intros k Hin%elem_of_skip_seen. unfold es in Hin.
    apply (elem_of_entries_from d _ k Hk) in Hin. tauto. }
  set (out := take _ new).
  replace (count r + Z.of_nat (length (skip_seen s es)) + Z.of_nat (length out))
    with (count r + Z.of_nat (length (skip_seen s es) + length out)) by lia.
  by destruct (last out).
Qed.

(** The wake-ups of a waiting reader: for each database a notification, and
    then no interruption until it waits again or returns. *)
Inductive woken : reader → list DB → reader → Prop :=
  | woken_nil r : woken r [] r
  | woken_cons d ds r r0 r' r'' :
      pos r = Waiting → read_step d c EvNotify r = Some r0 → completes d r0 r' →
      woken r' ds r'' → woken r (d :: ds) r''.

Lemma woken_unique ds r r1 r2 : woken r ds r1 → woken r ds r2 → r1 = r2.
Proof.
  intros Hr1. revert r2. induction Hr1 as [r|d ds r r0 r' r'' _ Hs Hcp Hw IH]; intros r2 Hr2.
  - by inversion Hr2.
  - inversion Hr2 as [|d' ds' x r0' r1' r1'' _ Hs' Hcp' Hw']; subst. apply IH.
    assert (r0' = r0) as -> by congruence. by rewrite (completes_unique d r0 r' r1').
Qed.

(** A channel that only grows, each snapshot but the last too small to
    satisfy a reader that starts at [k] and wants [m] entries. *)
Fixpoint history (k : bytes) (m : Z) d (ds : list DB) : Prop :=
  match ds with
  | [] => True
  | d' :: ds => grows d d' ∧ Z.of_nat (length (entries_from d c k)) < m ∧ history k m d' ds
  end.

Lemma notify_pass d r :
  decodable d c → 0 ≤ count r → max r ≤ Tail → pos r = Waiting →
  ∃ n, run c ((d, EvNotify) :: quiet n d) r = Some (pass d r).
Proof.
  intros Hdec Hcnt Hmax Hw. destruct (begin_pass d r Hdec Hcnt Hmax) as [n Hn].
  exists n. simpl. unfold read_step. by rewrite Hw.
Qed.

Lemma pass_small d r :
  Z.of_nat (length (entries_from d c (sbytes (key r)))) < max r - count r →
  pos (pass d r) = Waiting.
Proof.
  intros Hlt. unfold pass. simpl. rewrite length_take.
  assert (length (skip_seen (lastSeen r) (entries_from d c (sbytes (key r))))
          ≤ length (entries_from d c (sbytes (key r))))%nat
    by (destruct (entries_from _ _ _); simpl; [done|]; case_match; simpl; lia).
  destruct (_ >=? _) eqn:Hge; [|done]. rewrite Z.geb_leb, Z.leb_le in Hge. lia.
Qed.

Lemma pass_count d r :
  max r ≤ Tail → 0 ≤ count r → 0 ≤ count (pass d r) ∧ max (pass d r) ≤ Tail.
Proof. intros. simpl. lia. Qed.

(** A reader woken along a history ends as if it had begun with its end. *)
Lemma woken_history ds d r :
  seek_ok (sbytes (key r)) → 0 ≤ count r → max r ≤ Tail →
  history (sbytes (key r)) (max r - count r) d ds → Forall (λ d, decodable d c) ds →
  woken (pass d r) ds (pass (default d (last ds)) r).
Proof.
  intros Hk Hcnt Hmax. revert d. induction ds as [|d' ds IH]; intros d Hh Hdec; [constructor|].
  destruct Hh as (Hg & Hlt & Hh). apply Forall_cons in Hdec as [Hd' Hdec].
  pose proof (pass_small d r Hlt) as Hw.
  pose proof (begin_completes d' (pass d r) Hd' (proj1 (pass_count d r Hmax Hcnt)) (proj2 (pass_count d r Hmax Hcnt))) as Hn.
  rewrite pass_grows in Hn by done.
  replace (default d (last (d' :: ds))) with (default d' (last ds))
    by (destruct ds; [done|by rewrite last_cons_cons; destruct (last _) eqn:Hl; [|by apply last_None in Hl]]).
  apply (woken_cons d' _ _ (begin_iterate d' c (pass d r)) (pass d' r)); [done| |exact Hn|by apply IH].
  unfold read_step. by rewrite Hw.
Qed.

(** What [read] starts from. *)
Definition start_key d (o : StreamOpts) : slice :=
  if fromHead o then default None (match lastKey d c with Ok k => Some k | _ => None end) else Seek o.

Definition start_reader d (o : StreamOpts) : reader :=
  let k := start_key d o in
  let o := if fromHead o then set_Seek k o else o in
  mkReader o 0 false (if skipFirst o then k else None) k (Max o) Waiting [].

Lemma read_start_reader d o :
  read_start d c (Some o) = begin_iterate d c (start_reader d o).
Proof.
  unfold read_start, start_reader, start_key. destruct (fromHead o); [|done].
  by rewrite lastKey_reliable.
Qed.

Lemma keysOnly_start d o : keysOnly (opts (start_reader d o)) = keysOnly o.
Proof. unfold start_reader; simpl. by destruct (fromHead o). Qed.

Lemma seek_ok_start d o : seek_ok (sbytes (Seek o)) → seek_ok (sbytes (start_key d o)).
Proof.
  intros Ho. unfold start_key. destruct (fromHead o); [|done]. rewrite lastKey_reliable. simpl.
  destruct (last _) as [k|] eqn:Hl; [|by left]. right. apply last_Some in Hl as [l' Hl].
  assert (k ∈ l' ++ [k]) as Hin by (apply elem_of_app; right; by left).
  rewrite <-Hl in Hin. apply list_elem_of_filter in Hin as [? _]. by apply has_prefix_le.
Qed.
End quiet.

(* ------------------------------------------------------------------ *)
(** * The arrival index *)

Section index.
Context `{BadgerReliable} `{!ProtoCodec Msg.t} {T : Type} (c : Channel T) (Hc : channel_ok c).
Implicit Types (d : DB) (r : index_reader) (k ik : bytes).

(** The channel's index keys from [k] on, in arrival order. *)
Definition arrivals_from d k : list bytes :=
  take_while (has_prefix (indexPrefix c)) (seek_keys (contents d) (indexPrefix c) k).

(** The message for an index key: that of the entry it names. *)
Definition arrival_msg d (keys_only : bool) ik : Msg.t :=
  msg_at d keys_only (prefix c ++ drop 39 ik).

(** An iterator of [readFromIndex], over the snapshot of [d]. *)
Definition index_iter_ok d (txn : Txn) (it : Iterator) : Prop :=
  writes txn ∪ base txn = contents d ∧ Prefix (it_opts it) = indexPrefix c
  ∧ ∀ k, k ∈ it_rest it → is_Some (contents d !! k).

Lemma index_iter_next d txn it : index_iter_ok d txn it → index_iter_ok d txn (It_Next it).
Proof.
  intros (H2' & H3' & H4'). destruct (It_Next_state it) as (Ho & _ & Hr).
  unfold index_iter_ok. rewrite Ho, Hr. split_and!; try done.
  intros k Hk. apply H4'. destruct (it_rest it); [done|]. by right.
Qed.

Lemma msg_at_prefix d ko (e : bytes) : length e = 30%nat →
  msg_at d ko (prefix c ++ e)
  = if ko then Msg.mk MsgOp_FeedEntry 0 (Some (EntryHeader.mk (Some e) None None [] [])) None None None
    else (Unmarshal (default [] (contents d !! (prefix c ++ e)))).1.
Proof.
  intros He. unfold msg_at. destruct ko; [|done].
  rewrite drop_app_length' by (by rewrite length_prefix). done.
Qed.

(** Under the index invariant, reading the entry of an index key succeeds. *)
Lemma index_msg_ok d txn it ik l ko :
  decodable d c → index_ok c (contents d) → index_iter_ok d txn it →
  it_rest it = ik :: l → has_prefix (indexPrefix c) ik = true →
  index_msg ko c txn ik = Ok (arrival_msg d ko ik).
Proof.
  intros Hdec [Hix _] (Hv & _ & Hin) Hr Hp.
  destruct (Hix ik) as [Hlen [v Hk]]; [apply Hin; rewrite Hr; left|done|].
  assert (length (drop 39 ik) = 30%nat) as Hd by (rewrite length_drop; lia).
  unfold index_msg, arrival_msg, entryIDFromIndex, entryKeyFromIndex, slice_from.
  rewrite decide_True by lia. simpl. rewrite msg_at_prefix by done. destruct ko.
  - by rewrite copy_zeros, fit_exact by done.
  - change (copy_at (copy_at (zeros 63) 0 (prefix c)) 33 (drop 39 ik)) with (EntryKey c (drop 39 ik)).
    rewrite EntryKey_bytes, fit_exact by done. pose proof (get_ok txn (prefix c ++ drop 39 ik)) as Hg.
    rewrite Hv, Hk in Hg. rewrite Hg. simpl. rewrite Hk. simpl. unfold checked.
    specialize (Hdec _ v Hk (has_prefix_app _ _)). destruct (Unmarshal v) as [m e]. simpl in *.
    by subst.
Qed.

Lemma index_quiet d txn it r :
  decodable d c → index_ok c (contents d) → index_iter_ok d txn it →
  ix_pos r = IxIterating txn it → 0 ≤ ix_count r → Max (ix_opts r) ≤ Tail →
  let out := take (Z.to_nat (Max (ix_opts r) - ix_count r))
               (take_while (has_prefix (indexPrefix c)) (it_rest it)) in
  index_run c (replicate (S (length out)) EvDefault) r
  = Some (mkIxReader (ix_opts r) (ix_count r + Z.of_nat (length out)) (IxReturned None)
            (ix_published r ++ (arrival_msg d (keysOnly (ix_opts r)) <$> out))).
Proof.
  intros Hdec Hix Hit. remember (it_rest it) as ks eqn:Hks.
  revert it r Hit Hks; induction ks as [|k ks IH]; intros it r Hit Hks Hpos Hcnt Hmax out;
    pose proof Hit as (_ & Hp & _); pose proof (It_Valid_spec it) as Hval; rewrite <-Hks in Hval; try rewrite Hp in Hval.
  all: destruct (ix_count r >=? Max (ix_opts r)) eqn:Hlt.
  all: try (assert (out = []) as -> by
    (unfold out; by replace (Z.to_nat (Max (ix_opts r) - ix_count r)) with 0%nat by lia);
    simpl; unfold index_step; by rewrite Hpos, Hlt, Z.add_0_r, app_nil_r).
  - assert (out = []) as -> by (unfold out; cbn [take_while]; by rewrite take_nil).
    simpl. unfold index_step. by rewrite Hpos, Hlt, Hval, Z.add_0_r, app_nil_r.
  - unfold out. cbn [take_while]. destruct (has_prefix (indexPrefix c) k) eqn:Hpk.
    2: { rewrite take_nil. simpl. unfold index_step. by rewrite Hpos, Hlt, Hval, Z.add_0_r, app_nil_r. }
    replace (Z.to_nat (Max (ix_opts r) - ix_count r))
      with (S (Z.to_nat (Max (ix_opts r) - (ix_count r + 1)))) by lia.
    rewrite take_S_cons. cbn [length]. set (n := length _).
    assert (index_step c EvDefault r
      = Some (mkIxReader (ix_opts r) (ix_count r + 1) (IxIterating txn (It_Next it))
               (ix_published r ++ [arrival_msg d (keysOnly (ix_opts r)) k]))) as Hstep.
    { unfold index_step. rewrite Hpos, Hlt, Hval. simpl. rewrite (It_Key_spec it k ks) by done.
      rewrite (index_msg_ok d txn it k ks) by done. unfold to_u64.
      rewrite Z.mod_small by (unfold Tail in Hmax; lia). done. }
    cbn [replicate index_run]. rewrite Hstep. cbn [mbind option_bind].
    etrans; [apply (IH (It_Next it)); [by apply index_iter_next| |done|simpl; lia|done]|].
    { destruct (It_Next_state it) as (_ & _ & ->). by rewrite <-Hks. }
    simpl. rewrite <-app_assoc. do 2 f_equal. unfold n. lia.
Qed.
End index.

(* ------------------------------------------------------------------ *)
(** * Properties *)

Section safe.
Context `{BadgerLaws} `{!ProtoCodec Msg.t} {T : Type}.
Implicit Types (c : Channel T) (d : DB) (r : reader) (k : bytes).

Lemma begin_iterate_opts d c r : opts (begin_iterate d c r) = opts r.
Proof. unfold begin_iterate. by case_match. Qed.

Lemma after_iterate_opts d c r : opts (after_iterate d c r) = opts r.
Proof. unfold after_iterate. repeat case_match; try done. apply begin_iterate_opts. Qed.

Lemma read_step_opts d c ev r r' : read_step d c ev r = Some r' → opts r' = opts r.
Proof.
  unfold read_step. destruct (pos r), ev; intros [= <-]; try done;
    try (case_match; [apply after_iterate_opts|]); try done.
  - apply after_iterate_opts.
  - unfold read_reset. repeat case_match; try done; by rewrite after_iterate_opts.
  - unfold read_item. repeat case_match; try done; by rewrite after_iterate_opts.
  - apply begin_iterate_opts.
Qed.

Lemma run_opts c l r r' : run c l r = Some r' → opts r' = opts r.
Proof.
  revert r; induction l as [|[d ev] l IH]; intros r; simpl; [by intros [= <-]|].
  destruct (read_step d c ev r) as [r1|] eqn:Hs; [|done]. intros Hr%IH.
  apply read_step_opts in Hs. congruence.
Qed.

Lemma read_start_keysOnly d c o : keysOnly (opts (read_start d c (Some o))) = keysOnly o.
Proof.
  unfold read_start. destruct (fromHead o); simpl; [|by rewrite begin_iterate_opts].
  destruct (lastKey d c); simpl; [by rewrite begin_iterate_opts|done|done].
Qed.

(** C19: whatever interrupts it, and whatever happens to the database, a
    subscription publishes nothing but entries of its own channel, taken from
    the snapshots it read, with only the id when keys were asked for; it
    publishes at most the greatest limit it was ever given; and it never
    panics. *)
Theorem reader_safe c (M : Z) d (o : StreamOpts) (l : list (DB * event)) r :
  channel_ok c → Max o ≤ M ≤ Tail → 0 ≤ M → Forall (λ s, event_bound M s.2) l →
  run c l (read_start d c (Some o)) = Some r →
  Forall (from_channel c (λ d', d' ∈ d :: l.*1) (keysOnly o)) (published r)
  ∧ Z.of_nat (length (published r)) ≤ M ∧ pos r ≠ Panicked.
Proof.
  intros Hc Hm HM Hl Hr. set (P := λ d', d' ∈ d :: l.*1).
  assert (reader_inv c P M r) as (Hp & Hn & Hle & _ & Hpos).
  { apply (run_inv c Hc P M (conj HM (proj2 Hm)) l (read_start d c (Some o))); [| |done].
    - rewrite Forall_forall in Hl |- *. intros s Hs. split; [|by apply Hl].
      right. by apply list_elem_of_fmap_2.
    - apply read_start_inv; [lia|left|lia]. }
  pose proof (run_opts c l _ _ Hr) as Ho. rewrite Ho, read_start_keysOnly in Hp.
  split_and!; [done|lia|]. intros Hx. by rewrite Hx in Hpos.
Qed.
End safe.

Section delivery.
Context `{BadgerReliable} `{!ProtoCodec Msg.t} {T : Type}.
Implicit Types (c : Channel T) (d : DB) (r : reader) (k : bytes) (o : StreamOpts).

Lemma pos_of_counts (w : nat) (m : Z) :
  0 ≤ m →
  (if 0 + Z.of_nat (Z.to_nat m `min` w) >=? m then Returned None else Waiting : position)
  = if Z.of_nat w <? m then Waiting else Returned None.
Proof.
  intros Hm. rewrite Z.geb_leb. destruct (Z.leb_spec m (0 + Z.of_nat (Z.to_nat m `min` w)));
    destruct (Z.ltb_spec (Z.of_nat w) m); try done; lia.
Qed.

(** A subscription's first pass terminates and delivers exactly what
    was asked for: the entries of the channel from the seek key on (from the
    last entry, with [fromHead]), in key order and once each, but for the
    seek key itself if the first entry is to be skipped, at most [Max] of
    them; the reader then waits for more, or returns if it has had [Max]. *)
Lemma read_delivers c d o :
  channel_ok c → decodable d c → 0 ≤ Max o ≤ Tail → seek_ok c (sbytes (Seek o)) →
  ∃ (k : slice) n r, (if fromHead o then lastKey d c = Ok k else k = Seek o) ∧
    run c (quiet n d) (read_start d c (Some o)) = Some r ∧
    let es := entries_from d c (sbytes k) in
    let wanted := skip_seen (if skipFirst o then k else None) es in
    (∀ k', k' ∈ es ↔ is_Some (contents d !! k') ∧ has_prefix (prefix c) k' = true
                     ∧ bytes_le (sbytes k) k') ∧
    StronglySorted bytes_le es ∧ NoDup es ∧
    published r = msg_at d (keysOnly o) <$> take (Z.to_nat (Max o)) wanted ∧
    pos r = if Z.of_nat (length wanted) <? Max o then Waiting else Returned None.
Proof.
  intros Hc Hdec Hmax Hk. exists (start_key c d o).
  assert (max (start_reader c d o) = Max o) as Hm by (unfold start_reader; by destruct (fromHead o)).
  destruct (begin_pass c Hc d (start_reader c d o)) as [n Hn]; [done..|lia|].
  exists n. eexists. split; [unfold start_key; destruct (fromHead o); [by rewrite lastKey_reliable|done]|].
  rewrite read_start_reader. split; [done|]. pose proof (seek_ok_start c d o Hk) as Hs.
  split; [intros k'; by apply elem_of_entries_from|]. split; [by apply entries_from_sorted|].
  split; [by apply NoDup_entries_from|].
  replace (keysOnly o) with (keysOnly (opts (start_reader c d o))) by apply keysOnly_start.
  replace (if skipFirst o then _ else _) with (lastSeen (start_reader c d o))
    by (unfold start_reader; simpl; by destruct (fromHead o)).
  rewrite <-Hm. unfold pass, finish. simpl. rewrite Z.sub_0_r. split; [done|].
  rewrite length_take. set (w := length _). apply pos_of_counts. destruct (fromHead o); simpl; lia.
Qed.

(** Keys from a key that no channel key starts with: none of the channel's,
    or, when a key of the channel is the first to follow, all of them. *)
Definition first_is_own c d (k : bytes) : bool :=
  match head (filter (bytes_le k) (sorted_keys (contents d))) with
  | Some k' => has_prefix (prefix c) k'
  | None => false
  end.

Lemma entries_from_foreign c d k :
  has_prefix (prefix c) k = false → k ≠ [] →
  entries_from d c k = if first_is_own c d k then entries_from d c [] else [].
Proof.
  intros Hk Hne.
  assert (seek_keys (contents d) (prefix c) k = filter (bytes_le k) (sorted_keys (contents d))) as Heq
    by (unfold seek_keys; by destruct k).
  unfold first_is_own. rewrite <-Heq. unfold entries_from at 1.
  pose proof (seek_keys_sorted (contents d) (prefix c) k) as Hsort.
  destruct (seek_keys (contents d) (prefix c) k) as [|y l'] eqn:Hl; [done|]. cbn [take_while head].
  destruct (has_prefix (prefix c) y) eqn:Hy; [|done]. unfold entries_from.
  assert (seek_keys (contents d) (prefix c) [] = y :: l') as ->; [|cbn [take_while]; by rewrite Hy].
  assert (bytes_le k y ∧ is_Some (contents d !! y)) as [Hky Hyin].
  { rewrite <-elem_of_sorted_keys, <-list_elem_of_filter, <-Heq. left. }
  apply sorted_elems_eq; [apply seek_keys_sorted|done|apply NoDup_seek_keys|rewrite <-Hl; apply NoDup_seek_keys|].
  intros z. rewrite Heq. unfold seek_keys. rewrite !list_elem_of_filter.
  assert (z ∈ sorted_keys (contents d) → bytes_le (prefix c) z ↔ bytes_le k z) as Hiff; [|tauto].
  intros Hz. split; intros Hle.
  - destruct (total bytes_le k z) as [|Hzk]; [done|].
    assert (has_prefix (prefix c) k = true); [|congruence].
    apply (has_prefix_convex (prefix c) k y); [by trans z|done|done].
  - assert (z ∈ y :: l') as Hin by (rewrite Heq; by apply list_elem_of_filter).
    trans y; [by apply has_prefix_le|]. apply elem_of_cons in Hin as [->|Hin]; [done|].
    apply StronglySorted_inv in Hsort as [_ Hall]. rewrite Forall_forall in Hall. by apply Hall.
Qed.

(** C32: an entry id is not a seek key.  A stream that is to start at, or
    after, an entry, given its thirty-byte id as the protocol says, comes to
    the end of its first pass having published, up to its limit, all entries
    from the channel's first on, if the database's first key at or after the id
    is one of the channel's, and nothing otherwise: where the entry named is in
    the channel plays no part, and it is not skipped. *)
Theorem seek_by_entry_id c d o (id : bytes) :
  channel_ok c → decodable d c → 0 ≤ Max o ≤ Tail → fromHead o = false →
  Seek o = Some id → length id = 30%nat →
  (∃ r, completes c d (read_start d c (Some o)) r) ∧
  ∀ r, completes c d (read_start d c (Some o)) r →
    published r =
      if first_is_own c d id
      then msg_at d (keysOnly o) <$> take (Z.to_nat (Max o)) (entries_from d c [])
      else [].
Proof.
  intros Hc Hdec Hmax Hh Hs Hl.
  assert (start_reader c d o
    = mkReader o 0 false (if skipFirst o then Some id else None) (Some id) (Max o) Waiting []) as Hr
    by (unfold start_reader, start_key; by rewrite Hh, Hs).
  assert (completes c d (read_start d c (Some o)) (pass c d (start_reader c d o))) as Hcomp
    by (rewrite read_start_reader; apply begin_completes; [done|done|rewrite Hr; simpl; lia..]).
  split; [by eexists|]. intros r Hr'. rewrite <-(completes_unique c d _ _ _ Hcomp Hr').
  assert (has_prefix (prefix c) id = false) as Hp.
  { apply not_true_is_false. intros [x ->]%has_prefix_spec. rewrite length_app, length_prefix in Hl by done. lia. }
  rewrite Hr. unfold pass, finish. simpl. rewrite Z.sub_0_r, skip_seen_notin'.
  2: { destruct (skipFirst o); simpl; intros [_ Hin]%elem_of_take_while; [congruence|].
    apply has_prefix_spec in Hin as [x Hx]. apply (f_equal length) in Hx.
    rewrite length_app, length_prefix in Hx by done. simpl in Hx. lia. }
  rewrite (entries_from_foreign c d id Hp) by by destruct id.
  destruct (first_is_own c d id); [done|]. by rewrite take_nil.
Qed.

(** A subscription that waits for the end of its pass, and then of one pass
    for each of [ds] it is notified of. *)
Definition follows c d (ds : list DB) o r' : Prop :=
  ∃ r, completes c d (read_start d c (Some o)) r ∧ woken c r ds r'.

(** C13: following a channel loses nothing and repeats nothing: a
    subscription that does not start at the head, and whose seek key is none or
    not before the channel's keys, is there while entries are added at the
    channel's end; its reader comes to the end of its first pass and, notified
    of each growth, of one pass for each; as long as no snapshot but the last
    has all the entries it wants, it gets through them all, and has published
    then exactly what one subscription to the final snapshot publishes, in the
    same order. *)
Theorem reader_follows c d (ds : list DB) o :
  channel_ok c → fromHead o = false → seek_ok c (sbytes (Seek o)) → 0 ≤ Max o ≤ Tail →
  Forall (λ d, decodable d c) (d :: ds) → history c (sbytes (Seek o)) (Max o) d ds →
  let dl := default d (last ds) in
  let wanted := skip_seen (if skipFirst o then Seek o else None) (entries_from dl c (sbytes (Seek o))) in
  (∃ r, follows c d ds o r) ∧ (∃ r, follows c dl [] o r) ∧
  ∀ r r1, follows c d ds o r → follows c dl [] o r1 →
    published r = published r1 ∧ published r = msg_at dl (keysOnly o) <$> take (Z.to_nat (Max o)) wanted.
Proof.
  intros Hc Hh Hk Hmax [Hd Hds]%Forall_cons Hist dl wanted.
  set (r0 := mkReader o 0 false (if skipFirst o then Seek o else None) (Seek o) (Max o) Waiting []).
  assert (∀ d, decodable d c → completes c d (read_start d c (Some o)) (pass c d r0)) as Hstart.
  { intros d0 Hd0. rewrite read_start_reader.
    replace (start_reader c d0 o) with r0 by (unfold start_reader, start_key; by rewrite Hh).
    apply begin_completes; unfold r0; simpl; (done || lia). }
  assert (decodable dl c) as Hdl.
  { unfold dl. destruct (last ds) as [x|] eqn:Hx; [|exact Hd]. apply last_Some in Hx as [l Hx].
    rewrite Hx, Forall_app, Forall_singleton in Hds. exact (proj2 Hds). }
  assert (woken c (pass c d r0) ds (pass c dl r0)) as Hw
    by (apply (woken_history c Hc ds d); simpl; try done; try lia; by rewrite Z.sub_0_r).
  assert (∀ r, follows c d ds o r → r = pass c dl r0) as Hu.
  { intros r (r1 & Hr1 & Hr2). rewrite (completes_unique c d _ _ _ Hr1 (Hstart d Hd)) in Hr2. by eapply woken_unique. }
  assert (∀ r, follows c dl [] o r → r = pass c dl r0) as Hu1.
  { intros r (r1 & Hr1 & Hr2). inversion Hr2; subst. by eapply completes_unique; [exact Hr1|apply Hstart]. }
  split; [by eexists _, _; split; [by apply Hstart|]|]. split; [eexists _, _; split; [by apply Hstart|constructor]|].
  intros r r1 ->%Hu ->%Hu1. split; [done|]. unfold pass. simpl. by rewrite Z.sub_0_r.
Qed.

(** A waiting reader, notified, publishes only entries not before its
    last key: an entry that was appended with an older id than the one last
    delivered is not delivered to it, then or later.  (This is what the
    arrival index is for.) *)
Lemma late_entry_missed c d r :
  channel_ok c → decodable d c → 0 ≤ count r → max r ≤ Tail → pos r = Waiting →
  seek_ok c (sbytes (key r)) →
  ∃ n r' ks, run c ((d, EvNotify) :: quiet n d) r = Some r' ∧
    published r' = published r ++ (msg_at d (keysOnly (opts r)) <$> ks) ∧
    bytes_le (sbytes (key r)) (sbytes (key r')) ∧
    ∀ k, k ∈ ks → has_prefix (prefix c) k = true ∧ bytes_le (sbytes (key r)) k.
Proof.
  intros Hc Hdec Hcnt Hmax Hw Hk. destruct (notify_pass c Hc d r) as [n Hn]; [done..|].
  eexists n, _, _. split; [done|]. unfold pass, finish. simpl. split; [done|].
  set (out := take _ _).
  assert (∀ k, k ∈ out → has_prefix (prefix c) k = true ∧ bytes_le (sbytes (key r)) k) as Hout.
  { intros k Hin. unfold out in Hin. apply elem_of_take in Hin as (i & Hi & _).
    apply list_elem_of_lookup_2, elem_of_skip_seen, elem_of_entries_from in Hi; [tauto|done]. }
  split; [|done]. destruct (last out) as [k|] eqn:Hl; [|done]. apply Hout.
  apply last_Some in Hl as [l' ->]. apply elem_of_app. right. by left.
Qed.

(** A reset of an iterating reader changes where it reads and up to
    which count, nothing else: it goes on under the flags it was opened with,
    the count is not restarted, so a limit it has already reached ends it with
    nothing delivered, and the entry it saw last is still suppressed if the
    new range begins with it. *)
Lemma reset_restarts c d r it (o : StreamOpts) :
  channel_ok c → decodable d c → 0 ≤ count r < max r → max r ≤ Tail → Max o ≤ Tail →
  pos r = Iterating it → fromHead o = false →
  ∃ n r', run c ((d, EvReset (Some o)) :: quiet n d) r = Some r' ∧
    published r' = published r ++
      (msg_at d (keysOnly (opts r)) <$>
         take (Z.to_nat (Max o - count r))
           (skip_seen (if skipFirst (opts r) then Seek o else lastSeen r)
              (entries_from d c (sbytes (Seek o))))) ∧
    opts r' = opts r ∧ (Max o ≤ count r → n = 0%nat ∧ pos r' = Returned None).
Proof.
  intros Hc Hdec [Hcnt Hlt] Hmax Ho Hpos Hh.
  set (r1 := mkReader (opts r) (count r) true (if skipFirst (opts r) then Seek o else lastSeen r)
               (Seek o) (Max o) (pos r) (published r)).
  assert (read_step d c (EvReset (Some o)) r = Some (after_iterate d c r1)) as Hstep.
  { unfold read_step. rewrite Hpos, geb_false by lia.
    unfold read_reset. rewrite Hh. unfold r1. simpl. by case_match. }
  destruct (decide (Max o ≤ count r)) as [Hge|Hge].
  - exists 0%nat. eexists. simpl run. rewrite Hstep. split; [done|].
    unfold after_iterate. rewrite geb_true by (simpl; lia). simpl.
    replace (Z.to_nat (Max o - count r)) with 0%nat by lia. by rewrite app_nil_r.
  - destruct (begin_pass c Hc d r1) as [n Hn]; [done..|].
    exists n. eexists. split; [cbn [run]; rewrite Hstep; cbn; unfold after_iterate at 1;
      rewrite geb_false by (simpl; lia); exact Hn|].
    split; [done|]. split; [done|lia].
Qed.

(** A nil reset does not end a subscription: it only abandons the
    current snapshot, and the reader waits for the next write as if it had
    reached the end. *)
Theorem nil_reset_waits c d r it :
  pos r = Iterating it → count r < max r →
  read_step d c (EvReset None) r = Some (if dirty r then begin_iterate d c r else set_pos Waiting r).
Proof.
  intros Hpos Hlt. unfold read_step, read_reset, after_iterate.
  by rewrite Hpos, geb_false by lia.
Qed.

(** C26: reading by arrival terminates, never fails to find an entry that
    the index lists, and publishes the entries (or their ids) of the index
    keys from the seek key on, in arrival order, at most [Max] of them. *)
Theorem index_delivers c d o :
  channel_ok c → decodable d c → index_ok c (contents d) → 0 ≤ Max o ≤ Tail →
  let out := take (Z.to_nat (Max o)) (arrivals_from c d (sbytes (Seek o))) in
  ∃ r : index_reader, index_run c (replicate (S (length out)) EvDefault) (index_start d c o) = Some r ∧
    ix_pos r = IxReturned None ∧ ix_published r = arrival_msg c d (keysOnly o) <$> out ∧
    Forall (λ ik, is_Some (contents d !! ik) ∧ is_Some (contents d !! (prefix c ++ drop 39 ik))) out.
Proof.
  intros Hc Hdec Hix Hmax out. destruct (begin_ok d false) as (t & Ht & Hb & Hw & _).
  unfold index_start. rewrite Ht. set (io := mkIterOpts _ _ _ _).
  set (it := It_Seek (NewIterator t io) (sbytes (Seek o))).
  destruct (NewIterator_spec t io) as [Hio Hiv].
  destruct (It_Seek_state (NewIterator t io) (sbytes (Seek o))) as [Hso _].
  assert (it_rest it = seek_keys (contents d) (indexPrefix c) (sbytes (Seek o))) as Hrest
    by (unfold it; rewrite It_Seek_rest, Hiv, Hio, (fresh_view t d Hb Hw) by (by rewrite Hio); done).
  assert (index_iter_ok c d t it) as Hit.
  { split_and!; [by apply fresh_view|unfold it; by rewrite Hso, Hio|].
    intros k. rewrite Hrest. apply elem_of_seek_keys. }
  pose proof (index_quiet c Hc d t it (mkIxReader o 0 (IxIterating t it) []) Hdec Hix Hit eq_refl) as Hq.
  simpl in Hq. rewrite Z.sub_0_r, Hrest in Hq. fold (arrivals_from c d (sbytes (Seek o))) in Hq.
  fold out in Hq. eexists. split; [apply Hq; lia|]. split; [done|]. split; [done|].
  apply Forall_forall. intros ik Hin. unfold out in Hin.
  apply elem_of_take in Hin as (i & Hi & _). apply list_elem_of_lookup_2 in Hi.
  unfold arrivals_from in Hi. apply elem_of_take_while in Hi as [Hi Hp].
  apply elem_of_seek_keys in Hi. split; [done|]. by apply (proj1 Hix).
Qed.

(** What an append leaves under the prefix of a channel. *)
Lemma Append_lookup c c' d now e d' ak id :
  channel_ok c → channel_ok c' → time_ok now →
  Append d c now (Some e) = (d', Ok ak) → entryID (Some e) = Ok id →
  contents d !! EntryKey c id = None ∧ ∃ m, Marshal e = Ok m ∧
  ∀ k, has_prefix (prefix c') k = true →
    contents d' !! k = if decide (k = EntryKey c id) then Some m else contents d !! k.
Proof.
  intros Hc Hc' Hn [[_ Hne]|(x & id' & m & [= <-] & Hid & Hm & _ & Hnone & Hd)]%Append_cases Hid';
    [by destruct (Hne ak)|].
  rewrite Hid in Hid'. apply (inj Ok) in Hid' as <-. split; [done|]. exists m. split; [done|].
  pose proof (arrivalKey_not_entry c' c now id' Hc' Hc Hn) as Ha.
  intros k Hk. rewrite Hd, lookup_insert_ne by (intros <-; congruence).
  case_decide as He; [subst; by rewrite lookup_insert_eq|by rewrite lookup_insert_ne].
Qed.

Lemma Append_grows c c' d now e d' ak id :
  channel_ok c → channel_ok c' → time_ok now →
  Append d c now (Some e) = (d', Ok ak) → entryID (Some e) = Ok id →
  (c_id c' = c_id c → ∀ k, is_Some (contents d !! k) → has_prefix (prefix c) k = true →
     bytes_lt k (EntryKey c id)) →
  grows c' d d'.
Proof.
  intros Hc Hc' Hn Ha Hid Hlast.
  destruct (Append_lookup c c' d now e d' ak id) as (Hnone & m & _ & Hl); [done..|]. split.
  - intros k v Hk Hv. rewrite Hl by done. case_decide; [congruence|done].
  - intros k k' Hk Hk' Hin Hnew [v Hv]. rewrite Hl in Hv by done. case_decide; [|congruence]. subst k'.
    assert (c_id c' = c_id c) as Heq
      by (destruct (decide (c_id c' = c_id c)); [done|];
          by rewrite EntryKey_other_prefix in Hk').
    apply Hlast; [done..|]. replace (prefix c) with (prefix c'); [done|].
    destruct Hc as (_ & -> & _), Hc' as (_ & -> & _). by rewrite Heq.
Qed.

Lemma Append_decodable `{!ProtoLaws Msg.t} c c' d now e d' ak :
  channel_ok c → channel_ok c' → time_ok now →
  Append d c now (Some e) = (d', Ok ak) → decodable d c' → decodable d' c'.
Proof.
  intros Hc Hc' Hn Ha Hdec.
  pose proof Ha as [[_ Hne]|(x & id & _ & [= <-] & Hid & _)]%Append_cases; [by destruct (Hne ak)|].
  destruct (Append_lookup c c' d now e d' ak id) as (_ & m & Hm & Hl); [done..|].
  intros k v Hv Hk. rewrite Hl in Hv by done. case_decide; [|by eapply Hdec].
  simplify_eq. by rewrite (Unmarshal_Marshal e v Hm).
Qed.

(** An append makes every other channel's history grow (it does not
    change it), and its own as long as the new id sorts after those there,
    and every entry still decodes: the assumptions under which following a
    channel loses nothing. *)
Lemma append_grows `{!ProtoLaws Msg.t} c c' d now e d' ak id :
  channel_ok c → channel_ok c' → time_ok now →
  Append d c now (Some e) = (d', Ok ak) → entryID (Some e) = Ok id → decodable d c' →
  (c_id c' = c_id c → ∀ k, is_Some (contents d !! k) → has_prefix (prefix c) k = true →
     bytes_lt k (EntryKey c id)) →
  grows c' d d' ∧ decodable d' c'.
Proof. intros. split; [by apply (Append_grows c c' d now e d' ak id)|by apply (Append_decodable c c' d now e d' ak)]. Qed.
End delivery.

(* ------------------------------------------------------------------ *)
(** * Witnesses *)

(** The channel of [StoreExamples] with one entry, then with two. *)
Module DeliveryExamples.
Import MemDB RefCodec StoreExamples.

Definition d2 : DB := (Append d1 (ch x00) t1 (Some e1)).1.
Definition tail_opts : StreamOpts := mkStreamOpts None Tail OptNone.
Definition start : reader := read_start d1 (ch x00) (Some tail_opts).
Definition k0 : bytes := EntryKey (ch x00) id0.
Definition k1 : bytes := EntryKey (ch x00) id1.

Lemma d2_append : Append d1 (ch x00) t1 (Some e1) = (d2, Ok (arrivalKey (ch x00) t1 id1)).
Proof. reflexivity. Qed.

Lemma d0_decodable c : decodable (T:=unit) d0 c.
Proof. by intros k v [=]. Qed.

Lemma d1_decodable : decodable d1 (ch x00).
Proof.
  eapply (Append_decodable (ch x00)); [apply ch_ok..|apply t0_ok|apply d1_append|apply d0_decodable].
Qed.

Lemma d2_decodable : decodable d2 (ch x00).
Proof.
  eapply (Append_decodable (ch x00)); [apply ch_ok..|apply t1_ok|apply d2_append|apply d1_decodable].
Qed.

Lemma d1_last k : is_Some (contents d1 !! k) → has_prefix (prefix (ch x00)) k = true → bytes_lt k k1.
Proof.
  destruct (Append_lookup (ch x00) (ch x00) d0 t0 e0 d1 (arrivalKey (ch x00) t0 id0) id0)
    as (_ & m & _ & Hl); [apply ch_ok..|apply t0_ok|apply d1_append|done|].
  intros Hk Hp. rewrite Hl in Hk by done. case_decide as He; [by subst k|by destruct Hk].
Qed.

Lemma d1_grows : grows (ch x00) d1 d2.
Proof.
  apply (Append_grows (ch x00) (ch x00) d1 t1 e1 d2 (arrivalKey (ch x00) t1 id1) id1);
    [apply ch_ok..|apply t1_ok|apply d2_append|done|intros _; apply d1_last].
Qed.

Lemma append_grows_witness : grows (ch x00) d1 d2 ∧ decodable d2 (ch x00).
Proof.
  apply (append_grows (ch x00) (ch x00) d1 t1 e1 d2 (arrivalKey (ch x00) t1 id1) id1);
    [apply ch_ok..|apply t1_ok|apply d2_append|done|apply d1_decodable|intros _; apply d1_last].
Defined.

Lemma reader_safe_witness :
  ∃ r, run (ch x00) (quiet 2 d1 ++ [(d2, EvNotify); (d2, EvDone)]) start = Some r
    ∧ pos r ≠ Panicked.
Proof.
  destruct (some_of_bool (run (ch x00) (quiet 2 d1 ++ [(d2, EvNotify); (d2, EvDone)]) start))
    as [r Hr]; [vm_compute; reflexivity|].
  exists r. split; [exact Hr|].
  destruct (reader_safe (ch x00) Tail d1 tail_opts (quiet 2 d1 ++ [(d2, EvNotify); (d2, EvDone)]) r)
    as (_ & _ & Hp); [apply ch_ok|split; reflexivity..|done| |exact Hr|exact Hp].
  repeat constructor; by intros ? [= ].
Defined.

Lemma read_delivers_witness :
  ∃ n r, run (ch x00) (quiet n d1) start = Some r ∧ pos r = Waiting.
Proof.
  destruct (read_delivers (ch x00) d1 tail_opts) as (k & n & r & -> & Hr & _ & _ & _ & _ & Hp);
    [apply ch_ok|apply d1_decodable|done|by left|].
  exists n, r. split; [exact Hr|]. rewrite Hp. reflexivity.
Defined.

Lemma reader_follows_witness :
  ∃ r, follows (ch x00) d1 [d2] tail_opts r ∧ length (published r) = 2%nat.
Proof.
  destruct (reader_follows (ch x00) d1 [d2] tail_opts) as ([r Hr] & [r1 Hr1] & Hp);
    [apply ch_ok|done|by left|done|repeat constructor; [apply d1_decodable|apply d2_decodable]
    |split; [apply d1_grows|by split]|].
  exists r. split; [exact Hr|]. destruct (Hp r r1 Hr Hr1) as [_ ->]. rewrite length_fmap. reflexivity.
Defined.

Lemma late_entry_missed_witness :
  let r := mkReader tail_opts 1 false (Some k1) (Some k1) Tail Waiting [e1] in
  ∃ n r', run (ch x00) ((d2, EvNotify) :: quiet n d2) r = Some r' ∧
    bytes_le k1 (sbytes (key r')).
Proof.
  intros r. destruct (late_entry_missed (ch x00) d2 r) as (n & r' & ks & Hr & _ & Hk & _);
    [apply ch_ok|apply d2_decodable|done|done|done|right; by apply has_prefix_le|].
  exists n, r'. split; [exact Hr|exact Hk].
Defined.

Definition it0 : Iterator :=
  It_Seek (NewIterator tx0 (mkIterOpts true 10 false (prefix (ch x00)))) [].
Definition busy : reader := mkReader tail_opts 0 false None None Tail (Iterating it0) [].

Lemma reset_restarts_witness :
  ∃ n r', run (ch x00) ((d2, EvReset (Some (mkStreamOpts (Some k1) 1 OptKeysOnly))) :: quiet n d2) busy
    = Some r' ∧ length (published r') = 1%nat ∧ keysOnly (opts r') = false.
Proof.
  destruct (reset_restarts (ch x00) d2 busy it0 (mkStreamOpts (Some k1) 1 OptKeysOnly))
    as (n & r' & Hr & Hp & Ho & _); [apply ch_ok|apply d2_decodable|done..|].
  exists n, r'. split; [exact Hr|]. rewrite Hp, Ho, length_app, length_fmap. split; reflexivity.
Defined.

Lemma nil_reset_waits_witness :
  read_step d2 (ch x00) (EvReset None) busy = Some (set_pos Waiting busy).
Proof. apply (nil_reset_waits (ch x00) d2 busy it0); reflexivity. Defined.

Lemma index_delivers_witness :
  ∃ r : index_reader, index_run (ch x00) (replicate 2 EvDefault)
    (index_start d1 (ch x00) (mkStreamOpts None 1 OptFromIndex)) = Some r ∧
    ix_pos r = IxReturned None.
Proof.
  destruct (index_delivers (ch x00) d1 (mkStreamOpts None 1 OptFromIndex)) as (r & Hr & Hp & _);
    [apply ch_ok|apply d1_decodable|apply d1_index_ok|done|].
  exists r. split; [exact Hr|exact Hp].
Defined.

(** After the first of two entries, by its id: nothing comes; by an id that
    no entry has: the whole channel. *)
Lemma seek_by_entry_id_witness :
  let after id := read_start d2 (ch x00) (Some (mkStreamOpts (Some id) 7 OptSkipFirst)) in
  (∃ r, completes (ch x00) d2 (after id0) r ∧ published r = [])
  ∧ ∃ r, completes (ch x00) d2 (after (repeat x00 30)) r ∧ length (published r) = 2%nat.
Proof.
  intros after. split.
  - destruct (seek_by_entry_id (ch x00) d2 (mkStreamOpts (Some id0) 7 OptSkipFirst) id0)
      as [[r Hr] Hp]; [apply ch_ok|apply d2_decodable|done..|].
    exists r. split; [exact Hr|]. rewrite (Hp r Hr). vm_compute. reflexivity.
  - destruct (seek_by_entry_id (ch x00) d2 (mkStreamOpts (Some (repeat x00 30)) 7 OptSkipFirst) (repeat x00 30))
      as [[r Hr] Hp]; [apply ch_ok|apply d2_decodable|done..|].
    exists r. split; [exact Hr|]. rewrite (Hp r Hr). vm_compute. reflexivity.
Defined.
End DeliveryExamples.
