(* ===== verification/Sync.v ===== *)
(** [store/store.go]: the goroutines of a channel, interleaved.

    A channel has a lock, [sLock], and three kinds of goroutine meet at it.
    Badger's subscription calls the callback of [watch] after each commit: it
    takes the read lock and sends on the [rx] of every subscriber in turn.
    [Subscribe] takes the write lock; for a target it knows it sends on the
    old subscriber's [resetRx] with the lock held.  A reader that returns runs
    the deferred [unsubscribe], which takes the write lock.  The Go channels
    are unbuffered, so a send is a rendezvous with a reader that has the case
    in its [select].

    A state is a [system], and a step one of the [label]s below; the readers
    are those of [Reader.v].  The lock needs no field: the read lock is held
    by a callback that is [Notifying], the write lock by a [Subscribe] that is
    [resetting]; the other critical sections do not block and are one step.
    Go also makes a new read lock wait for a pending write lock, which only
    removes schedules. *)
From S2P Require Import Prelude Protos Helpers Badger Channel Store Reader Lts.

Section sync.
Context `{Badger} `{!ProtoCodec Msg.t} {T : Type} `{!SubscriptionTarget T}.
(** the fields of the channel that never change *)
Context (c : Channel T).

(** A goroutine [Subscribe] started, not yet scheduled or running [read] or
    [readFromIndex]; one that has returned is in its deferred [unsubscribe]. *)
Inductive goroutine :=
  | Started (o : StreamOpts)
  | Reading (r : reader)
  | Indexing (r : index_reader).

(** The callback of [watch]: the subscribers it has yet to notify. *)
Inductive callback :=
  | Idle
  | Notifying (l : list UUID).

(** [pending] are commits to the channel the callback has not been called
    for, [cancelled] the subscribers whose context is done; [watching] says
    that the goroutine [watch] starts has come to register with badger, which
    reports what is committed from then on. *)
Record system := mkSystem {
  sys_db : DB;
  subs : gmap UUID (subscriber T);
  pending : nat;
  watcher : callback;
  resetting : option (UUID * option StreamOpts);
  goroutines : gmap UUID goroutine;
  cancelled : gset UUID;
  watching : bool;
}.

Definition chan (s : system) : Channel T := set_subscribers (subs s) c.

Inductive label :=
  | Commit (c' : Channel T) (now : Time) (entry : option Msg.t) (* somebody appends to [c'] *)
  | Callback (n : nat) (l : list UUID)      (* badger reports [n] commits; [range] order [l] *)
  | Notify                                  (* [subscriber.notify] meets the reader *)
  | Release                                 (* the callback returns *)
  | Subscribed (t : T) (o : option StreamOpts)
  | ResetSent                               (* [oldSub.reset] meets the reader *)
  | Begin (id : UUID)                       (* a new goroutine is scheduled *)
  | Turn (id : UUID)                        (* a reader takes the [default] case *)
  | Cancel (id : UUID)
  | Done (id : UUID)                        (* a reader sees its context done *)
  | Unsubscribe (id : UUID)
  | Watch.                                  (* [db.Subscribe] is called *)

(** The keys a successful append writes. *)
Definition written (c' : Channel T) (entry : option Msg.t) (r : outcome bytes) : list bytes :=
  match entryID entry, r with
  | Ok id, Ok arrivalKey => [EntryKey c' id; arrivalKey]
  | _, _ => []
  end.

Definition set_goroutines (gs : gmap UUID goroutine) (s : system) : system :=
  mkSystem (sys_db s) (subs s) (pending s) (watcher s) (resetting s) gs (cancelled s) (watching s).
Definition set_goroutine (id : UUID) (g : goroutine) (s : system) : system :=
  set_goroutines (<[id:=g]> (goroutines s)) s.
Definition set_watcher (w : callback) (s : system) : system :=
  mkSystem (sys_db s) (subs s) (pending s) w (resetting s) (goroutines s) (cancelled s) (watching s).
Definition set_resetting (x : option (UUID * option StreamOpts)) (s : system) : system :=
  mkSystem (sys_db s) (subs s) (pending s) (watcher s) x (goroutines s) (cancelled s) (watching s).

(** Nobody holds [sLock]. *)
Definition unlocked (s : system) : bool :=
  match watcher s, resetting s with Idle, None => true | _, _ => false end.

(** The goroutine has returned and waits for the lock to unsubscribe. *)
Definition finished (g : goroutine) : bool :=
  match g with
  | Started _ => false
  | Reading r => match pos r with Returned _ => true | _ => false end
  | Indexing r => match ix_pos r with IxReturned _ => true | _ => false end
  end.

(** The goroutine with event [ev], if it is at a [select] that has the
    case: the inner [select] of [read] comes after the check of [count], the
    outer one has no [resetRx], and [readFromIndex] has none either. *)
Definition offer (d : DB) (ev : event) (g : goroutine) : option goroutine :=
  match g with
  | Started _ => None
  | Reading r =>
      if match pos r with Iterating _ => count r >=? max r | _ => false end then None
      else Reading <$> read_step d c ev r
  | Indexing r =>
      if ix_count r >=? Max (ix_opts r) then None else Indexing <$> index_step c ev r
  end.

(** What a goroutine does on its own, its context being done or not. *)
Definition turn (d : DB) (ev : event) (g : goroutine) : option goroutine :=
  match g with
  | Started o =>
      Some (if fromIndex o then Indexing (index_start d c o) else Reading (read_start d c (Some o)))
  | Reading r => Reading <$> read_step d c ev r
  | Indexing r => Indexing <$> index_step c ev r
  end.

Definition is_started (g : goroutine) : bool := match g with Started _ => true | _ => false end.

Definition sync_step (l : label) (s : system) : option system :=
  match l with
  | Commit c' now entry =>
      let (d, r) := Append (sys_db s) c' now entry in
      let hit := existsb (has_prefix (prefix c)) (written c' entry r) in
      Some (mkSystem d (subs s) (if hit && watching s then S (pending s) else pending s) (watcher s)
              (resetting s) (goroutines s) (cancelled s) (watching s))
  | Callback n l =>
      if decide ((0 < n ≤ pending s)%nat ∧ unlocked s = true
                 ∧ NoDup l ∧ list_to_set (C:=gset UUID) l = dom (subs s))
      then Some (mkSystem (sys_db s) (subs s) (pending s - n) (Notifying l) (resetting s)
                   (goroutines s) (cancelled s) (watching s))
      else None
  | Notify =>
      match watcher s with
      | Notifying (id :: l) =>
          g ← goroutines s !! id;
          g' ← offer (sys_db s) EvNotify g;
          Some (set_watcher (Notifying l) (set_goroutine id g' s))
      | _ => None
      end
  | Release =>
      match watcher s with Notifying [] => Some (set_watcher Idle s) | _ => None end
  | Subscribed t o =>
      if unlocked s then
        let (c', eff) := Subscribe (chan s) t o in
        match eff with
        | SendingReset id o => Some (set_resetting (Some (id, o)) s)
        | GoRead id o | GoReadFromIndex id o =>
            Some (mkSystem (sys_db s) (subscribers c') (pending s) (watcher s) (resetting s)
                    (<[id:=Started o]> (goroutines s)) (cancelled s ∖ {[id]}) (watching s))
        | SubscribePanic => None
        end
      else None
  | ResetSent =>
      '(id, o) ← resetting s;
      g ← goroutines s !! id;
      g' ← offer (sys_db s) (EvReset o) g;
      Some (set_resetting None (set_goroutine id g' s))
  | Begin id =>
      g ← goroutines s !! id;
      if is_started g then g' ← turn (sys_db s) EvDefault g; Some (set_goroutine id g' s) else None
  | Turn id =>
      g ← goroutines s !! id;
      if is_started g then None
      else if decide (id ∈ cancelled s) then None
      else g' ← turn (sys_db s) EvDefault g; Some (set_goroutine id g' s)
  | Cancel id =>
      if decide (id ∈ dom (goroutines s))
      then Some (mkSystem (sys_db s) (subs s) (pending s) (watcher s) (resetting s)
                   (goroutines s) ({[id]} ∪ cancelled s) (watching s))
      else None
  | Done id =>
      g ← goroutines s !! id;
      if is_started g then None
      else if decide (id ∈ cancelled s) then
        g' ← turn (sys_db s) EvDone g; Some (set_goroutine id g' s)
      else None
  | Unsubscribe id =>
      g ← goroutines s !! id;
      if finished g && unlocked s then
        Some (mkSystem (sys_db s) (subscribers (unsubscribe (chan s) id)) (pending s) (watcher s)
                (resetting s) (delete id (goroutines s)) (cancelled s) (watching s))
      else None
  | Watch =>
      if watching s then None
      else Some (mkSystem (sys_db s) (subs s) (pending s) (watcher s) (resetting s) (goroutines s)
                   (cancelled s) true)
  end.

(** A channel just registered, on a database that may hold entries of it. *)
Definition sys_init (d : DB) : system := mkSystem d ∅ 0 Idle None ∅ ∅ false.

(** The moves of the vault's own goroutines: no new request, no new commit. *)
Definition internal (l : label) : Prop :=
  match l with Commit _ _ _ | Subscribed _ _ | Cancel _ => False | _ => True end.
End sync.

(* ------------------------------------------------------------------ *)
(** * The step as a relation *)

Section rules.
Context `{Badger} `{!ProtoCodec Msg.t} {T : Type} `{!SubscriptionTarget T} (c : Channel T).

(** The enabled steps, one rule each: what [sync_step] computes. *)
Inductive trans (s : system (T:=T)) : label (T:=T) → system (T:=T) → Prop :=
  | tr_commit c' now entry d r :
      Append (sys_db s) c' now entry = (d, r) →
      trans s (Commit c' now entry)
        (mkSystem d (subs s)
           (if existsb (has_prefix (prefix c)) (written c' entry r) && watching s
            then S (pending s) else pending s)
           (watcher s) (resetting s) (goroutines s) (cancelled s) (watching s))
  | tr_callback n l :
      (0 < n ≤ pending s)%nat → watcher s = Idle → resetting s = None →
      NoDup l → list_to_set (C:=gset UUID) l = dom (subs s) →
      trans s (Callback n l)
        (mkSystem (sys_db s) (subs s) (pending s - n) (Notifying l) (resetting s)
           (goroutines s) (cancelled s) (watching s))
  | tr_notify id l g g' :
      watcher s = Notifying (id :: l) → goroutines s !! id = Some g →
      offer c (sys_db s) EvNotify g = Some g' →
      trans s Notify (set_watcher (Notifying l) (set_goroutine id g' s))
  | tr_release : watcher s = Notifying [] → trans s Release (set_watcher Idle s)
  | tr_resubscribe t o sub :
      watcher s = Idle → resetting s = None → subs s !! target_ID t = Some sub →
      trans s (Subscribed t o) (set_resetting (Some (sub_id sub, o)) s)
  | tr_subscribe t o :
      watcher s = Idle → resetting s = None → subs s !! target_ID t = None →
      trans s (Subscribed t (Some o))
        (mkSystem (sys_db s) (<[target_ID t := mkSubscriber (target_ID t) t]> (subs s)) (pending s)
           (watcher s) (resetting s) (<[target_ID t := Started o]> (goroutines s))
           (cancelled s ∖ {[target_ID t]}) (watching s))
  | tr_reset id o g g' :
      resetting s = Some (id, o) → goroutines s !! id = Some g →
      offer c (sys_db s) (EvReset o) g = Some g' →
      trans s ResetSent (set_resetting None (set_goroutine id g' s))
  | tr_begin id o g' :
      goroutines s !! id = Some (Started o) → turn c (sys_db s) EvDefault (Started o) = Some g' →
      trans s (Begin id) (set_goroutine id g' s)
  | tr_turn id g g' :
      goroutines s !! id = Some g → is_started g = false → id ∉ cancelled s →
      turn c (sys_db s) EvDefault g = Some g' → trans s (Turn id) (set_goroutine id g' s)
  | tr_cancel id :
      id ∈ dom (goroutines s) →
      trans s (Cancel id)
        (mkSystem (sys_db s) (subs s) (pending s) (watcher s) (resetting s) (goroutines s)
           ({[id]} ∪ cancelled s) (watching s))
  | tr_done id g g' :
      goroutines s !! id = Some g → is_started g = false → id ∈ cancelled s →
      turn c (sys_db s) EvDone g = Some g' → trans s (Done id) (set_goroutine id g' s)
  | tr_unsubscribe id g :
      goroutines s !! id = Some g → finished g = true → watcher s = Idle → resetting s = None →
      trans s (Unsubscribe id)
        (mkSystem (sys_db s) (delete id (subs s)) (pending s) (watcher s) (resetting s)
           (delete id (goroutines s)) (cancelled s) (watching s))
  | tr_watch :
      watching s = false →
      trans s Watch
        (mkSystem (sys_db s) (subs s) (pending s) (watcher s) (resetting s) (goroutines s) (cancelled s) true).

Lemma unlocked_spec (s : system (T:=T)) : unlocked s = true ↔ watcher s = Idle ∧ resetting s = None.
Proof. unfold unlocked. destruct (watcher s), (resetting s); split; try done; by intros [? ?]. Qed.

Lemma trans_sync_step l s s' : trans s l s' → sync_step c l s = Some s'.
Proof.
  destruct 1 as [c' now entry d r Ha|n l Hn Hw Hr Hl Hd|id l g g' Hw Hg Ho|Hw|t o sub Hw Hr Hs
    |t o Hw Hr Hs|id o g g' Hr Hg Ho|id o g' Hg Ht|id g g' Hg Hs Hc Ht|id Hg|id g g' Hg Hs Hc Ht
    |id g Hg Hf Hw Hr|Hwatch]; unfold sync_step, unlocked; simpl.
  - by rewrite Ha.
  - rewrite decide_True; [done|]. by rewrite Hw, Hr.
  - by rewrite Hw, Hg; simpl; rewrite Ho.
  - by rewrite Hw.
  - rewrite Hw, Hr. unfold Subscribe, chan. simpl. by rewrite Hs.
  - rewrite Hw, Hr. unfold Subscribe, chan. simpl. rewrite Hs. by destruct (fromIndex o).
  - by rewrite Hr; simpl; rewrite Hg; simpl; rewrite Ho.
  - by rewrite Hg; simpl; injection Ht as <-.
  - rewrite Hg; simpl. by rewrite Hs, decide_False, Ht by done.
  - by rewrite decide_True.
  - rewrite Hg; simpl. by rewrite Hs, decide_True, Ht by done.
  - by rewrite Hg; simpl; rewrite Hf, Hw, Hr.
  - by rewrite Hwatch.
Qed.

Lemma sync_step_trans l s s' : sync_step c l s = Some s' → trans s l s'.
Proof.
  intros Hstep. destruct l as [c' now entry|n l| | |t o| |id|id|id|id|id|]; unfold sync_step in Hstep.
  - destruct (Append _ _ _ _) as [d r] eqn:Ha. injection Hstep as <-. by constructor.
  - case_decide as Hc; [|done]. destruct Hc as (Hn & [Hw Hr]%unlocked_spec & Hl & Hd).
    injection Hstep as <-. by constructor.
  - destruct (watcher s) as [|[|id l]] eqn:Hw; simplify_option_eq. by econstructor.
  - destruct (watcher s) as [|[|id l]] eqn:Hw; simplify_option_eq. by constructor.
  - destruct (unlocked s) eqn:Hu; [|done]. apply unlocked_spec in Hu as [Hw Hr]. unfold Subscribe, chan in Hstep.
    simpl in Hstep. destruct (subs s !! target_ID t) as [sub|] eqn:Hs; [injection Hstep as <-; by constructor|].
    destruct o as [o|]; [|done]. destruct (fromIndex o); injection Hstep as <-; by constructor.
  - destruct (resetting s) as [[id o]|] eqn:Hr; simplify_option_eq. by econstructor.
  - destruct (goroutines s !! id) as [[o|r|r]|] eqn:Hg; simplify_option_eq. by econstructor.
  - destruct (goroutines s !! id) as [g|] eqn:Hg; [|done]. simpl in Hstep.
    destruct (is_started g) eqn:Hs; simplify_option_eq. by econstructor.
  - simplify_option_eq. by constructor.
  - destruct (goroutines s !! id) as [g|] eqn:Hg; [|done]. simpl in Hstep.
    destruct (is_started g) eqn:Hs; simplify_option_eq. by econstructor.
  - destruct (goroutines s !! id) as [g|] eqn:Hg; [|done]. simpl in Hstep.
    destruct (finished g) eqn:Hf; [|done]. destruct (unlocked s) eqn:Hu; [|done]. apply unlocked_spec in Hu as [Hw Hr].
    injection Hstep as <-. by econstructor.
  - destruct (watching s) eqn:Hwatch; [done|]. injection Hstep as <-. by constructor.
Qed.
End rules.

(* ------------------------------------------------------------------ *)
(** * Well-formed systems *)

Section wf.
Context `{Badger} `{!ProtoCodec Msg.t} {T : Type} `{!SubscriptionTarget T} (c : Channel T).
Implicit Types (s : system (T:=T)) (l : label (T:=T)) (g : goroutine).

(** Goroutines and registered subscribers correspond; the lock is held once;
    who is being sent to is registered. *)
Definition sys_wf s : Prop :=
  dom (goroutines s) = dom (subs s)
  ∧ map_Forall (λ id sub, sub_id sub = id) (subs s)
  ∧ match watcher s with
    | Notifying ids => resetting s = None ∧ NoDup ids ∧ ∀ id, id ∈ ids → id ∈ dom (goroutines s)
    | Idle => True
    end
  ∧ (∀ id o, resetting s = Some (id, o) → id ∈ dom (goroutines s)).

Lemma sys_init_wf d : sys_wf (sys_init d).
Proof. by split_and!. Qed.

Lemma dom_set_goroutine s id g g' :
  goroutines s !! id = Some g → dom (<[id:=g']> (goroutines s)) = dom (goroutines s).
Proof. intros Hg. apply dom_insert_lookup_L. by exists g. Qed.

Lemma set_goroutine_wf s id g g' :
  goroutines s !! id = Some g → sys_wf s → sys_wf (set_goroutine id g' s).
Proof.
  intros Hg. unfold sys_wf. simpl. by rewrite (dom_set_goroutine s id g) by done.
Qed.

Lemma trans_wf s l s' : sys_wf s → trans c s l s' → sys_wf s'.
Proof.
  intros Hs Htr. pose proof Hs as (Hdom & Hid & Hw & Hr).
  destruct Htr as [c' now entry d r Ha|n l Hn Hw' Hr' Hl Hd|id l g g' Hw' Hg Ho|Hw'|t o sub Hw' Hr' Hsub
    |t o Hw' Hr' Hsub|id o g g' Hr' Hg Ho|id o g' Hg Ht|id g g' Hg _ _ Ht|id Hg|id g g' Hg _ _ Ht
    |id g Hg Hf Hw' Hr'|]; try done; try by eapply set_goroutine_wf.
  - unfold sys_wf; simpl. split_and!; try done. intros id Hin. rewrite Hdom, <-Hd.
    by apply elem_of_list_to_set.
  - rewrite Hw' in Hw. destruct Hw as (Hn & Hnd & Hin). apply NoDup_cons in Hnd as [_ Hnd].
    destruct (set_goroutine_wf s id g g' Hg Hs) as (Hdom' & Hid' & _ & Hr').
    split_and!; [exact Hdom'|exact Hid'| |exact Hr']. simpl. split_and!; [done..|].
    intros id0 Hid0. rewrite (dom_set_goroutine s id g) by done. apply Hin. by right.
  - unfold sys_wf; simpl. rewrite Hw'. split_and!; try done. intros id o' [= <- <-].
    rewrite (Hid _ _ Hsub), Hdom. apply elem_of_dom. by exists sub.
  - unfold sys_wf; simpl. rewrite Hw', Hr'. split_and!; [by rewrite !dom_insert_L, Hdom| |done..].
    by apply map_Forall_insert_2.
  - destruct (set_goroutine_wf s id g g' Hg Hs) as (Hdom' & Hid' & Hw' & _).
    split_and!; [exact Hdom'|exact Hid'| |done]. simpl in *. destruct (watcher s); [done|].
    by destruct Hw' as (_ & ? & ?).
  - unfold sys_wf; simpl. rewrite Hw', Hr'. split_and!; [by rewrite !dom_delete_L, Hdom| |done..].
    by apply map_Forall_delete.
Qed.

Lemma step_wf : preserved (sync_step c) (λ _ _, True) sys_wf.
Proof. intros l s s' Hs _ Hstep%sync_step_trans. by eapply trans_wf. Qed.

(** ** The two deadlocks *)

(** A reader that has no [resetRx] in the [select] it is at, and will not get
    to one before it has been notified or has unsubscribed. *)
Definition deaf g : Prop :=
  match g with
  | Started _ => False
  | Reading r => match pos r with Waiting | Returned _ => True | _ => False end
  | Indexing _ => True
  end.

(** [Subscribe] sends to it. *)
Definition reset_blocked (id : UUID) (o : option StreamOpts) s : Prop :=
  watcher s = Idle ∧ resetting s = Some (id, o) ∧ ∃ g, goroutines s !! id = Some g ∧ deaf g.

(** The callback has still to notify a reader that has returned. *)
Definition notify_blocked (id : UUID) s : Prop :=
  resetting s = None ∧ (∃ ids, watcher s = Notifying ids ∧ id ∈ ids)
  ∧ ∃ g, goroutines s !! id = Some g ∧ finished g = true.

Lemma deaf_offer d o g : deaf g → offer c d (EvReset o) g = None.
Proof.
  destruct g as [|r|r]; [done| |].
  - simpl. unfold read_step. by destruct (pos r).
  - simpl. intros _. unfold index_step. case_match; [done|]. by destruct (ix_pos r).
Qed.

Lemma deaf_turn d ev g g' :
  ev = EvDefault ∨ ev = EvDone → deaf g → turn c d ev g = Some g' → deaf g'.
Proof.
  intros Hev. destruct g as [|r|r]; [done| |]; simpl.
  - unfold read_step. destruct (pos r), Hev as [-> | ->]; try done. by intros _ [= <-].
  - intros _. destruct (index_step c ev r); [|done]. by intros [= <-].
Qed.

Lemma offer_reading d ev r g' :
  offer c d ev (Reading r) = Some g' →
  ∃ r', g' = Reading r' ∧ read_step d c ev r = Some r' ∧ ∀ it, pos r = Iterating it → count r < max r.
Proof.
  simpl. destruct (match pos r with Iterating _ => count r >=? max r | _ => false end) eqn:Hlt; [done|].
  destruct (read_step d c ev r) as [r'|]; [|done]. intros [= <-]. exists r'. split_and!; [done..|].
  intros it Hp. by rewrite Hp, Z.geb_leb, Z.leb_gt in Hlt.
Qed.

Lemma finished_offer d ev g : finished g = true → offer c d ev g = None.
Proof.
  destruct g as [|r|r]; [done| |]; simpl.
  - unfold read_step. by destruct (pos r).
  - unfold index_step. destruct (ix_pos r); try done. by case_match.
Qed.

Lemma finished_turn d ev g : finished g = true → turn c d ev g = None.
Proof.
  destruct g as [|r|r]; [done| |]; simpl.
  - unfold read_step. by destruct (pos r), ev.
  - unfold index_step. by destruct (ix_pos r).
Qed.

Lemma reset_blocked_forever id o s0 :
  preserved (sync_step c) (λ _ _, True) (λ s, reset_blocked id o s ∧ subs s = subs s0).
Proof.
  intros l s s' [(Hw & Hr & g & Hg & Hd) Hsub] _ Htr%sync_step_trans.
  destruct Htr as [c' now entry d r Ha| | | | | |id' o' g0 g' Hr' Hg' Ho|id' o' g' Hg' Ht
    |id' g0 g' Hg' _ _ Ht| |id' g0 g' Hg' _ _ Ht| |]; try congruence.
  - split; [|done]. split_and!; simpl; eauto.
  - rewrite Hr in Hr'. simplify_eq. rewrite deaf_offer in Ho by done; done.
  - split; [|done]. split_and!; [done..|]. exists g. simpl. destruct (decide (id' = id)) as [->|Hne].
    + simplify_eq. done.
    + by rewrite lookup_insert_ne.
  - split; [|done]. split_and!; [done..|]. simpl. destruct (decide (id' = id)) as [->|Hne].
    + simplify_eq. exists g'. rewrite lookup_insert_eq. split; [done|]. eapply deaf_turn; [by left|done..].
    + exists g. by rewrite lookup_insert_ne.
  - split; [|done]. split_and!; simpl; eauto.
  - split; [|done]. split_and!; [done..|]. simpl. destruct (decide (id' = id)) as [->|Hne].
    + simplify_eq. exists g'. rewrite lookup_insert_eq. split; [done|]. eapply deaf_turn; [by right|done..].
    + exists g. by rewrite lookup_insert_ne.
  - split; [|done]. split_and!; simpl; eauto.
Qed.

Lemma notify_blocked_forever id s0 :
  preserved (sync_step c) (λ _ _, True)
    (λ s, notify_blocked id s ∧ subs s = subs s0 ∧ (pending s0 ≤ pending s)%nat).
Proof.
  intros l s s' [(Hr & (l0 & Hw & Hin) & g & Hg & Hf) [Hsub Hp]] _ Htr%sync_step_trans.
  assert (∀ id' g0 g', goroutines s !! id' = Some g0 → (finished g0 = true → g0 = g') →
    ∃ g1, <[id':=g']> (goroutines s) !! id = Some g1 ∧ finished g1 = true) as Hkeep.
  { intros id' g0 g' Hg0 Heq. destruct (decide (id' = id)) as [->|Hne].
    - simplify_eq. rewrite lookup_insert_eq. exists g. rewrite <-Heq by done. done.
    - exists g. by rewrite lookup_insert_ne. }
  destruct Htr as [c' now entry d r Ha| |id' l' g0 g' Hw' Hg' Ho|Hw' | | |id' o' g0 g' Hr' Hg' Ho
    |id' o' g' Hg' Ht|id' g0 g' Hg' _ _ Ht| |id' g0 g' Hg' _ _ Ht| |]; try congruence.
  - split; [|simpl; split; [done|case_match; lia]]. split_and!; simpl; eauto.
  - rewrite Hw in Hw'. injection Hw' as ->. split; [|done]. apply elem_of_cons in Hin as [->|Hin].
    + simplify_eq. rewrite finished_offer in Ho by done; done.
    + split_and!; simpl; [done|eauto|]. apply (Hkeep _ g0); [done|].
      intros Hf0. rewrite finished_offer in Ho by done; done.
  - rewrite Hw in Hw'. injection Hw' as ->. by apply not_elem_of_nil in Hin.
  - split; [|done]. split_and!; simpl; eauto. by apply (Hkeep _ (Started o')).
  - split; [|done]. split_and!; simpl; eauto. apply (Hkeep _ g0); [done|].
    intros Hf0. rewrite finished_turn in Ht by done; done.
  - split; [|done]. split_and!; simpl; eauto.
  - split; [|done]. split_and!; simpl; eauto. apply (Hkeep _ g0); [done|].
    intros Hf0. rewrite finished_turn in Ht by done; done.
  - split; [|done]. split_and!; simpl; eauto.
Qed.
End wf.

(* ------------------------------------------------------------------ *)
(** * Properties *)

Section properties.
Context `{Badger} `{!ProtoCodec Msg.t} {T : Type} `{!SubscriptionTarget T} (c : Channel T).
Implicit Types (s : system (T:=T)) (ls : list (label (T:=T))).

(** Whoever is let go from [s], nobody gets the lock or a notification. *)
Definition seized s : Prop :=
  ∀ ls s', play (sync_step c) ls s = Some s' →
    unlocked s' = false ∧ subs s' = subs s ∧
    (∀ t o, sync_step c (Subscribed t o) s' = None) ∧
    (∀ n l, sync_step c (Callback n l) s' = None) ∧
    (∀ id, sync_step c (Unsubscribe id) s' = None).

Lemma unlocked_needed s : unlocked s = false →
  (∀ t o, sync_step c (Subscribed t o) s = None) ∧ (∀ n l, sync_step c (Callback n l) s = None) ∧
  (∀ id, sync_step c (Unsubscribe id) s = None).
Proof.
  intros Hu. unfold sync_step. rewrite Hu. split_and!; [done| |].
  - intros n l. rewrite decide_False; [done|]. by intros (_ & ? & _).
  - intros id. destruct (goroutines s !! id) as [g|]; [|done]. simpl. by rewrite andb_false_r.
Qed.

(** C27: the channel lock is held by at most one of the callback and a
    re-opening [Subscribe], subscribers and goroutines correspond, and whoever
    is sent to has a goroutine: in every schedule. *)
Theorem sync_type_invariant d ls s :
  play (sync_step c) ls (sys_init d) = Some s → sys_wf s.
Proof. apply play_forever; [apply step_wf|apply sys_init_wf]. Qed.

(** Re-opening a stream whose reader is waiting for new entries (or
    reads the arrival index, or has just returned) seizes the channel up for
    good: [Subscribe] keeps the lock, whatever else happens, so that entries
    appended from then on are announced to nobody, nobody can subscribe, and
    no reader can unsubscribe. *)
Lemma reopen_deadlocks s t o g :
  sys_wf s → unlocked s = true → goroutines s !! target_ID t = Some g → deaf g →
  ∃ s', sync_step c (Subscribed t o) s = Some s' ∧ resetting s' = Some (target_ID t, o) ∧ seized s'.
Proof.
  intros (Hdom & Hid & _) Hu Hg Hd. pose proof (proj1 (unlocked_spec s) Hu) as [Hw Hr].
  assert (target_ID t ∈ dom (subs s)) as [sub Hsub]%elem_of_dom by (rewrite <-Hdom; by eapply elem_of_dom_2).
  pose proof (tr_resubscribe c s t o sub Hw Hr Hsub) as Htr%trans_sync_step.
  rewrite (Hid _ _ Hsub) in Htr. eexists. split; [exact Htr|]. split; [done|].
  intros ls s2 Hp.
  eapply (play_forever _ _ _ _ _ (reset_blocked_forever c (target_ID t) o _)) in Hp as [(Hw2 & Hr2 & _) Hs2].
  2: { split; [|done]. split_and!; [done..|]. by exists g. }
  assert (unlocked s2 = false) as Hu2 by (unfold unlocked; by rewrite Hw2, Hr2).
  split; [done|]. split; [done|]. by apply unlocked_needed.
Qed.

(** C16: a reader that reaches its limit while a commit is being announced
    seizes the channel up for good: it waits for the lock to unsubscribe, and
    the callback, which holds it, waits for the reader to take its
    notification. *)
Theorem limit_deadlocks s ids id r it :
  sys_wf s → watcher s = Notifying ids → id ∈ ids → id ∉ cancelled s →
  goroutines s !! id = Some (Reading r) → pos r = Iterating it → max r ≤ count r →
  ∃ s' r', sync_step c (Turn id) s = Some s' ∧ goroutines s' !! id = Some (Reading r') ∧
    pos r' = Returned None ∧ published r' = published r ∧ seized s'.
Proof.
  intros (_ & _ & Hwf & _) Hw Hin Hc Hg Hpos Hmax. rewrite Hw in Hwf. destruct Hwf as (Hr & _).
  set (r' := set_pos (Returned None) r).
  exists (set_goroutine id (Reading r') s), r'.
  split; [|split; [by simpl; rewrite lookup_insert_eq|split; [done|split; [done|]]]].
  { apply trans_sync_step. eapply tr_turn; [done..|]. simpl. unfold read_step, after_iterate.
    by rewrite Hpos, geb_true by lia. }
  intros ls s2 Hp.
  eapply (play_forever _ _ _ _ _ (notify_blocked_forever c id _)) in Hp as [(Hr2 & (ids2 & Hw2 & _) & _) [Hs2 _]].
  2: { split; [|done]. split_and!; simpl; [done|by exists ids|].
    exists (Reading r'). by rewrite lookup_insert_eq. }
  assert (unlocked s2 = false) as Hu2 by (unfold unlocked; by rewrite Hw2).
  split; [done|]. split; [done|]. by apply unlocked_needed.
Qed.
End properties.
