(* ===== verification/Wakeup.v ===== *)
(** [store/store.go]: no wake-up is lost.

    [read] relies on its [dirty] flag and on the callback of [watch] to see
    what is committed while it iterates or waits.  Over the interleavings of
    [Sync.v]: a reader that waits has seen everything from its key on, or is
    about to be notified, unless an entry was committed while it read and
    badger had not been asked to report commits yet, or it seeks from a key
    before the channel's; the goroutines of a channel come to rest a bounded
    number of moves after the last commit, in a state where every such reader
    has delivered all it should, unless one of the two deadlocks of [Sync.v]
    has struck. *)
From S2P Require Import Prelude Protos Helpers Badger Channel Store Reader Delivery Lts Sync.

(* ------------------------------------------------------------------ *)
(** * What a reader has left *)

Section cursor.
Context `{BadgerReliable} `{!ProtoCodec Msg.t} {T : Type} (c : Channel T) (Hc : channel_ok c).
Implicit Types (d : DB) (r : reader) (k : bytes).

(** A key of the channel in [d], at or after the reader's. *)
Definition ahead d r k : Prop :=
  is_Some (contents d !! k) ∧ has_prefix (prefix c) k = true ∧ bytes_le (sbytes (key r)) k.

(** Nothing ahead but what it saw last.  A reader whose key is one of the
    channel's, or none, that has come to the end of a snapshot has got there.  A
    seek key that sorts before the channel's prefix stops at whatever lies in
    between, see [seek_by_entry_id]. *)
Definition caught_up d r : Prop := ∀ k, ahead d r k → k = sbytes (lastSeen r).

(** Iterating over [d], the reader has all that is ahead still to come. *)
Definition cursor d r (it : Iterator) : Prop :=
  iter_ok d c it
  ∧ Forall (λ k, (seek_ok c (sbytes (key r)) → bytes_le (prefix c) k) ∧ bytes_le (sbytes (key r)) k) (it_rest it)
  ∧ ∀ k, ahead d r k → k ∈ it_rest it ∨ (k = sbytes (lastSeen r) ∧ Forall (bytes_le k) (it_rest it)).

(** [d'] has the entries of [d]; [d'] has no others. *)
Definition older d d' : Prop :=
  ∀ k v, has_prefix (prefix c) k = true → contents d !! k = Some v → contents d' !! k = Some v.
Definition same d d' : Prop :=
  ∀ k, has_prefix (prefix c) k = true → contents d !! k = contents d' !! k.

(** The reader has seen what is in [d], or knows better ([dirty]), or somebody
    will tell it. *)
Definition fresh (told cancelled : Prop) d r : Prop :=
  match pos r with
  | Iterating it => ∃ d0, cursor d0 r it ∧ older d0 d ∧ (dirty r = true ∨ told ∨ same d0 d)
  | Waiting => told ∨ cancelled ∨ (seek_ok c (sbytes (key r)) → caught_up d r)
  | _ => True
  end.

Lemma same_older d d' : same d d' → older d d'.
Proof. intros Hs k v Hp Hk. by rewrite <-Hs. Qed.

Lemma older_trans d d' d'' : older d d' → older d' d'' → older d d''.
Proof. unfold older. eauto. Qed.

Lemma same_refl d : same d d.
Proof. done. Qed.

Lemma same_caught_up d d' r : same d d' → caught_up d r → caught_up d' r.
Proof. intros Hs Hr k (Hk & Hp & Hl). apply Hr. split_and!; [by rewrite Hs|done..]. Qed.

(** A fresh iterator has everything ahead. *)
Lemma begin_cursor d r it :
  pos (begin_iterate d c r) = Iterating it → cursor d (begin_iterate d c r) it.
Proof.
  intros Hp. destruct (begin_iterate_Ok d c r it Hp) as (-> & Hit & Hrest).
  split; [done|]. rewrite Hrest. simpl. unfold seek_keys. split.
  - apply Forall_forall. intros k [Hle _]%list_elem_of_filter. destruct (sbytes (key r)) as [|x k0]; [by auto with vault|].
    split; [|done]. intros [Hk|Hk]; [done|by etrans].
  - intros k (Hs & Hpk & Hle). left. apply list_elem_of_filter, conj; [|by apply elem_of_sorted_keys].
    simpl in Hle. destruct (sbytes (key r)); [by auto with vault|done].
Qed.

Lemma begin_iterate_not_waiting d r : pos (begin_iterate d c r) ≠ Waiting.
Proof. unfold begin_iterate. by destruct (NewTransaction d false). Qed.

Lemma begin_fresh told cancelled d r : fresh told cancelled d (begin_iterate d c r).
Proof.
  unfold fresh. destruct (pos (begin_iterate d c r)) as [it| |e|] eqn:Hp; [|by apply begin_iterate_not_waiting in Hp|done..].
  exists d. split; [by apply begin_cursor|]. split; [by intros ???|]. right; right; by apply same_refl.
Qed.

Lemma after_fresh (told cancelled : Prop) d r :
  (count r < max r → dirty r = false → told ∨ cancelled ∨ (seek_ok c (sbytes (key r)) → caught_up d r)) →
  fresh told cancelled d (after_iterate d c r).
Proof.
  intros Hd. unfold after_iterate. destruct (count r >=? max r) eqn:Hlt; [done|].
  rewrite Z.geb_leb, Z.leb_gt in Hlt. specialize (Hd Hlt).
  destruct (dirty r); [by apply begin_fresh|]. by apply Hd.
Qed.

(** At the end of a snapshot nothing is left of it. *)
Lemma cursor_end d r it :
  cursor d r it → It_Valid it = false → seek_ok c (sbytes (key r)) → caught_up d r.
Proof.
  intros (Hit & Hrest & Hall) Hv Hseek k Hk. rewrite (iter_valid d c it Hit) in Hv.
  destruct (Hall k Hk) as [Hin|[-> _]]; [|done].
  destruct (it_rest it) as [|k0 l] eqn:Hr; [by apply not_elem_of_nil in Hin|].
  destruct Hk as (_ & Hp & _). pose proof Hit as (_ & _ & _ & Hs & _). rewrite Hr in Hs.
  apply Forall_cons in Hrest as [[Hk0 _] _]. specialize (Hk0 Hseek).
  assert (bytes_le k0 k) as Hle.
  { apply elem_of_cons in Hin as [->|Hin]; [done|]. apply StronglySorted_inv in Hs as [_ Hs].
    rewrite Forall_forall in Hs. by apply Hs. }
  by rewrite (has_prefix_convex (prefix c) k0 k Hk0 Hle Hp) in Hv.
Qed.

(** Past the head of the iterator, if that is what the reader saw last, or has
    just published. *)
Lemma cursor_skip d r it k l :
  cursor d r it → it_rest it = k :: l → k = sbytes (lastSeen r) →
  cursor d (set_pos (Iterating (It_Next it)) r) (It_Next it).
Proof.
  intros (Hit & Hrest & Hall) Hr Hk. pose proof Hit as (_ & _ & _ & Hs & _). rewrite Hr in Hs, Hrest, Hall.
  apply StronglySorted_inv in Hs as [_ Hs]. apply Forall_cons in Hrest as [_ Hrest].
  split; [by apply iter_ok_next|]. destruct (It_Next_state it) as (_ & _ & ->). rewrite Hr. simpl.
  split; [done|]. intros k' Hk'. destruct (Hall k' Hk') as [Hin|[-> Hle]].
  - apply elem_of_cons in Hin as [->|Hin]; [|by left]. right. by split.
  - right. split; [done|]. by apply Forall_cons in Hle as [_ ?].
Qed.

Lemma cursor_publish d r it k l msg :
  cursor d r it → it_rest it = k :: l → has_prefix (prefix c) k = true →
  cursor d (publish k msg it r) (It_Next it).
Proof.
  intros (Hit & Hrest & Hall) Hr Hpk%has_prefix_le. pose proof Hit as (_ & _ & _ & Hs & _). rewrite Hr in Hs, Hrest, Hall.
  apply StronglySorted_inv in Hs as [_ Hs]. apply Forall_cons in Hrest as [[_ Hk] Hrest].
  split; [by apply iter_ok_next|]. destruct (It_Next_state it) as (_ & _ & ->). rewrite Hr. simpl. split.
  - rewrite Forall_forall in Hs |- *. intros x Hx. split; [intros _; etrans; [exact Hpk|]|]; by apply Hs.
  - intros k' (Hk' & Hp & Hle). simpl in Hle.
    destruct (Hall k') as [Hin|[-> Hle']]; [split_and!; [done..|by etrans]| |].
    + apply elem_of_cons in Hin as [->|Hin]; [|by left]. right. by split.
    + apply Forall_cons in Hle' as [Hle' _].
      right. split; [by apply (anti_symm bytes_le)|]. rewrite Forall_forall in Hs |- *.
      intros x Hx. etrans; [exact Hle'|by apply Hs].
Qed.

(** ** Steps *)

Lemma fresh_mono (told told' cancelled cancelled' : Prop) d r :
  (told → told') → (cancelled → cancelled') → fresh told cancelled d r → fresh told' cancelled' d r.
Proof.
  intros Ht Hcn. unfold fresh. destruct (pos r); [intros Hp|tauto|done..].
  destruct Hp as (d0 & ? & ? & ?). exists d0. split_and!; [done..|]. tauto.
Qed.

Lemma fresh_commit (told told' cancelled : Prop) d d' r :
  (told → told') → older d d' → told' ∨ same d d' →
  fresh told cancelled d r → fresh told' cancelled d' r.
Proof.
  intros Ht Ho Hs. unfold fresh. destruct (pos r); intros Hp; [| |done..].
  - destruct Hp as (d0 & ? & ? & Hd). exists d0. split_and!; [done|by eapply older_trans|].
    destruct Hs as [?|Hs]; [tauto|]. destruct Hd as [?|[?|Hd]]; [tauto..|].
    right; right. intros k Hk'. by rewrite Hd, Hs.
  - destruct Hs as [?|Hs]; [tauto|]. destruct Hp as [?|[?|Hp]]; [tauto..|].
    right; right. intros Hk. eapply same_caught_up; [done|by apply Hp].
Qed.

Lemma turn_fresh told cancelled d r r' :
  fresh told cancelled d r → read_step d c EvDefault r = Some r' → fresh told cancelled d r'.
Proof.
  unfold fresh at 1, read_step. destruct (pos r) as [it| |e|] eqn:Hpos; intros Hp; [|done..].
  intros [= <-]. destruct (count r >=? max r) eqn:Hlt.
  { apply after_fresh. rewrite Z.geb_leb, Z.leb_le in Hlt. lia. }
  destruct Hp as (d0 & Hcur & Hold & Hd). pose proof Hcur as (Hit & _). unfold read_item.
  destruct (It_Valid it) eqn:Hv; simpl.
  2: { apply after_fresh. intros _ Hdirty. rewrite Hdirty in Hd.
    destruct Hd as [?|[?|Hs]]; [done|by left|]. right; right. intros Hk.
    by eapply same_caught_up, cursor_end. }
  rewrite (iter_valid d0 c it Hit) in Hv. destruct (it_rest it) as [|k l] eqn:Hr; [done|].
  rewrite (It_Key_spec it k l Hr). destruct (slice_equal (Some k) (lastSeen r)) eqn:Heq.
  - apply slice_equal_spec in Heq. exists d0. split_and!; [|done..].
    by eapply cursor_skip.
  - destruct (item_msg _ _) as [m|e|]; [|done..].
    exists d0. split_and!; [|done..]. by eapply cursor_publish.
Qed.

Lemma notify_fresh told told' cancelled d r r' :
  fresh told cancelled d r → read_step d c EvNotify r = Some r' →
  (∀ it, pos r = Iterating it → count r < max r) → fresh told' cancelled d r'.
Proof.
  unfold fresh at 1, read_step. destruct (pos r) as [it| |e|] eqn:Hpos; intros Hp; [| |done..].
  - intros [= <-] Hlt. rewrite geb_false by (by eapply Hlt). unfold fresh. simpl. rewrite Hpos.
    destruct Hp as (d0 & ? & ? & _). exists d0. split_and!; [done..|]. by left.
  - intros [= <-] _. by apply begin_fresh.
Qed.

Lemma done_fresh (told cancelled : Prop) d r r' :
  cancelled → fresh told cancelled d r → read_step d c EvDone r = Some r' → fresh told cancelled d r'.
Proof.
  intros Hcn Hp. unfold read_step. destruct (pos r) as [it| |e|] eqn:Hpos; [| |done..].
  - intros [= <-]. assert (fresh told cancelled d (after_iterate d c r)) by (apply after_fresh; tauto).
    by case_match.
  - by intros [= <-].
Qed.

Lemma reset_fresh told told' cancelled d o r r' :
  fresh told cancelled d r → read_step d c (EvReset (Some o)) r = Some r' →
  (∀ it, pos r = Iterating it → count r < max r) → fresh told' cancelled d r'.
Proof.
  intros Hp. unfold read_step. destruct (pos r) as [it| |e|] eqn:Hpos; [|done..].
  intros [= <-] Hlt. rewrite geb_false by (by eapply Hlt). unfold read_reset.
  destruct (if fromHead o then _ else _); [by apply after_fresh|done..].
Qed.

Lemma start_fresh told cancelled d o : fresh told cancelled d (read_start d c (Some o)).
Proof.
  unfold read_start. destruct (if fromHead o then _ else _); [by apply begin_fresh|done..].
Qed.
End cursor.

(* ------------------------------------------------------------------ *)
(** * The invariant of a system *)

(** What holds however commits are timed does not ask for the watch, what
    holds of the readers' progress does ([strict]); see
    [unwatched_commit_missed]. *)

Section invariant.
Context `{BadgerReliable} `{!ProtoCodec Msg.t} {T : Type} `{!SubscriptionTarget T}.
Context (strict : Prop) (c : Channel T) (Hc : channel_ok c).
Implicit Types (s : system (T:=T)) (lb : label (T:=T)) (d : DB) (g : goroutine).

(** A notification is on its way to the subscriber. *)
Definition told s (id : UUID) : Prop :=
  (0 < pending s)%nat ∨ match watcher s with Notifying ids => id ∈ ids | Idle => False end.

(** The limit of a subscription is a [uint64]. *)
Definition opts_ok (o : StreamOpts) : Prop := 0 ≤ Max o ≤ Tail.

(** Nobody has begun to read. *)
Definition unread s : Prop :=
  map_Forall (λ _ g, if g is Reading _ then False else True) (goroutines s).

(** If [strict], an entry of the channel is committed when the watch is on or
    nobody reads yet.  A subscription has options. *)
Definition label_ok s lb : Prop :=
  match lb with
  | Commit c' now _ =>
      channel_ok c' ∧ time_ok now ∧ (strict → watching s = true ∨ unread s ∨ c_id c' ≠ c_id c)
  | Subscribed _ o => ∃ o', o = Some o' ∧ opts_ok o'
  | _ => True
  end.

Definition index_reader_ok (r : index_reader) : Prop :=
  match ix_pos r with
  | IxIterating txn it => ∃ d, index_ok c (contents d) ∧ index_iter_ok c d txn it
  | IxReturned _ => True
  | IxPanicked => False
  end.

Definition goroutine_ok s (id : UUID) (g : goroutine) : Prop :=
  match g with
  | Started o => opts_ok o
  | Reading r =>
      reader_inv c (λ _, True) Tail r ∧ (strict → fresh c (told s id) (id ∈ cancelled s) (sys_db s) r)
  | Indexing r => index_reader_ok r
  end.

Definition sys_inv s : Prop :=
  sys_wf s ∧ index_ok c (contents (sys_db s))
  ∧ map_Forall (goroutine_ok s) (goroutines s)
  ∧ (∀ id o, resetting s = Some (id, o) → ∃ o', o = Some o' ∧ opts_ok o').

Lemma Tail_range : 0 ≤ Tail ≤ Tail.
Proof. unfold Tail. lia. Qed.

(** ** One goroutine *)

Lemma index_msg_no_panic d txn it ik l ko :
  index_ok c (contents d) → index_iter_ok c d txn it → it_rest it = ik :: l →
  has_prefix (indexPrefix c) ik = true → index_msg ko c txn ik ≠ Panic.
Proof.
  intros [Hix _] (_ & _ & Hin) Hr Hp.
  destruct (Hix ik) as [Hlen _]; [apply Hin; rewrite Hr; left|done|].
  unfold index_msg, entryIDFromIndex, entryKeyFromIndex, slice_from. rewrite decide_True by lia.
  destruct ko; simpl; [done|].
  match goal with |- context [Txn_Get txn ?k] => pose proof (Txn_Get_ok txn k) as Hok end.
  destruct (Txn_Get txn _).1 as [[v|e|]| |e]; try done. simpl. unfold checked.
  by destruct (Unmarshal v) as [m [e|]].
Qed.

Lemma index_step_ok ev r r' : index_step c ev r = Some r' → index_reader_ok r → index_reader_ok r'.
Proof.
  unfold index_step, index_reader_ok. destruct (ix_pos r) as [txn it|e|] eqn:Hpos; [|done..].
  intros Hstep (d & Hix & Hit). destruct (ix_count r >=? Max (ix_opts r)); [by injection Hstep as <-|].
  destruct ev as [| |o|]; [by injection Hstep as <-|injection Hstep as <-; rewrite Hpos; eauto|done|].
  rewrite It_Valid_spec in Hstep. pose proof Hit as (_ & Hp & _).
  destruct (it_rest it) as [|ik l] eqn:Hr; simpl in Hstep; [by injection Hstep as <-|].
  destruct (has_prefix (Prefix (it_opts it)) ik) eqn:Hpk; simpl in Hstep; [|by injection Hstep as <-].
  rewrite (It_Key_spec it ik l Hr) in Hstep. rewrite Hp in Hpk.
  pose proof (index_msg_no_panic d txn it ik l (keysOnly (ix_opts r)) Hix Hit Hr Hpk).
  destruct (index_msg _ _ _ _) as [m|e|]; [|by injection Hstep as <-|done].
  injection Hstep as <-. simpl. exists d. split; [done|]. by apply index_iter_next.
Qed.

Lemma index_start_ok d o : index_ok c (contents d) → index_reader_ok (index_start d c o).
Proof.
  intros Hix. unfold index_start, index_reader_ok. pose proof (NewTransaction_no_panic d false).
  destruct (NewTransaction d false) as [txn|e|] eqn:Ht; [|done..]. simpl.
  apply NewTransaction_spec in Ht as (Hb & Hw & _). set (io := mkIterOpts _ _ _ _).
  destruct (NewIterator_spec txn io) as [Ho Hv].
  destruct (It_Seek_state (NewIterator txn io) (sbytes (Seek o))) as [Hso _].
  exists d. split; [done|]. split_and!; [by apply fresh_view|by rewrite Hso, Ho|].
  intros k. rewrite It_Seek_rest by (by rewrite Ho). rewrite Hv, (fresh_view txn d Hb Hw).
  apply elem_of_seek_keys.
Qed.

Lemma goroutine_ok_mono s s' id g :
  sys_db s' = sys_db s → (told s id → told s' id) → (id ∈ cancelled s → id ∈ cancelled s') →
  goroutine_ok s id g → goroutine_ok s' id g.
Proof.
  intros Hd Ht Hcn. destruct g as [o|r|r]; simpl; [done| |done]. intros [Hr Hf]. split; [done|].
  rewrite Hd. intros Hst. by eapply fresh_mono, Hf.
Qed.

(** A step of the goroutine itself. *)
Lemma turn_ok s id ev g g' :
  ev = EvDefault ∨ (ev = EvDone ∧ id ∈ cancelled s) → index_ok c (contents (sys_db s)) →
  turn c (sys_db s) ev g = Some g' → goroutine_ok s id g → goroutine_ok s id g'.
Proof.
  intros Hev Hix. destruct g as [o|r|r]; simpl.
  - intros [= <-] Hm. destruct (fromIndex o); simpl; [by apply index_start_ok|]. split.
    + apply read_start_inv; [by apply Tail_range|done|by apply Hm].
    + intros _. by apply start_fresh.
  - destruct (read_step _ _ _ _) as [r'|] eqn:Hr; [|done]. intros [= <-] [Hinv Hf]. split.
    + eapply (read_step_inv c Hc (λ _, True) Tail Tail_range); [done| |done|exact Hr].
      by destruct Hev as [->|[-> _]].
    + intros Hst. specialize (Hf Hst). destruct Hev as [->|[-> Hcn]]; [by eapply turn_fresh|by eapply done_fresh].
  - destruct (index_step _ _ _) as [r'|] eqn:Hr; [|done]. intros [= <-]. by eapply index_step_ok.
Qed.

Lemma offer_notify_ok s s' id g g' :
  sys_db s' = sys_db s → cancelled s' = cancelled s →
  offer c (sys_db s) EvNotify g = Some g' → goroutine_ok s id g → goroutine_ok s' id g'.
Proof.
  intros Hd Hcn. destruct g as [o|r|r]; [done| |].
  - intros (r' & -> & Hr & Hlt)%offer_reading [Hinv Hf]. split.
    + eapply (read_step_inv c Hc (λ _, True) Tail Tail_range _ EvNotify r); done.
    + rewrite Hd, Hcn. intros Hst. by eapply notify_fresh; [apply Hf|..].
  - simpl. case_match; [done|]. destruct (index_step _ _ _) as [r'|] eqn:Hr; [|done]. intros [= <-].
    by eapply index_step_ok.
Qed.

Lemma offer_reset_ok s s' id o g g' :
  opts_ok o → sys_db s' = sys_db s → cancelled s' = cancelled s →
  offer c (sys_db s) (EvReset (Some o)) g = Some g' → goroutine_ok s id g → goroutine_ok s' id g'.
Proof.
  intros Hm Hd Hcn. destruct g as [o'|r|r]; [done| |].
  - intros (r' & -> & Hr & Hlt)%offer_reading [Hinv Hf]. split.
    + eapply (read_step_inv c Hc (λ _, True) Tail Tail_range _ (EvReset (Some o)) r); [done| |done|done].
      intros o' [= <-]. apply Hm.
    + rewrite Hd, Hcn. intros Hst. by eapply reset_fresh; [apply Hf|..].
  - simpl. case_match; [done|]. unfold index_step. destruct (ix_pos r); [|done..]. by case_match.
Qed.

(** ** The whole system *)

(** What a commit does to the channel: nothing, or an announced entry. *)
Lemma commit_cases d (c' : Channel T) now (entry : option Msg.t) d' r :
  channel_ok c' → time_ok now → Append d c' now entry = (d', r) →
  older c d d' ∧ (existsb (has_prefix (prefix c)) (written c' entry r) = true ∨ same c d d').
Proof.
  intros Hc' Hn Ha.
  apply Append_cases in Ha as [[-> Hr]|(e & id & m & -> & Hid & _ & -> & Hnone & Hd)];
    [by split; [by intros ???|right]|].
  assert (has_prefix (prefix c) (arrivalKey c' now id) = false) as Hak by by apply arrivalKey_not_entry.
  split.
  - intros k v Hp Hk. rewrite Hd, !lookup_insert_ne; [done|congruence|congruence].
  - unfold written. rewrite Hid. simpl.
    destruct (has_prefix (prefix c) (EntryKey c' id)) eqn:He; [by left|right].
    intros k Hp. rewrite Hd, !lookup_insert_ne; [done|congruence|congruence].
Qed.

Lemma reading_or_not g : (if g is Reading _ then False else True) ∨ ∃ r, g = Reading r.
Proof. destruct g; eauto. Qed.

(** An append to another channel writes no key of this one. *)
Lemma written_elsewhere (c' : Channel T) now (entry : option Msg.t) d d' r :
  channel_ok c' → time_ok now → c_id c' ≠ c_id c → Append d c' now entry = (d', r) →
  existsb (has_prefix (prefix c)) (written c' entry r) = false.
Proof.
  intros Hc' Hn Hne Ha. apply Append_cases in Ha as [[_ Hr]|(e & id & m & -> & Hid & _ & -> & _)].
  - unfold written. destruct (entryID entry), r; try done. by destruct (Hr a0).
  - unfold written. rewrite Hid. simpl. by rewrite EntryKey_other_prefix, arrivalKey_not_entry.
Qed.

Lemma goroutines_ok_set s s' id g' :
  sys_db s' = sys_db s → goroutines s' = <[id:=g']> (goroutines s) →
  (∀ id', id' ≠ id → told s id' → told s' id') →
  (∀ id', id' ≠ id → id' ∈ cancelled s → id' ∈ cancelled s') →
  map_Forall (goroutine_ok s) (goroutines s) → goroutine_ok s' id g' →
  map_Forall (goroutine_ok s') (goroutines s').
Proof.
  intros Hd Hg Ht Hcn Hall Hok id' g. rewrite Hg, lookup_insert_Some.
  intros [[<- <-]|[Hne Hl]]; [done|]. eapply (goroutine_ok_mono s); [done|by apply Ht|by apply Hcn|by apply Hall].
Qed.

Lemma goroutines_ok_same s s' :
  sys_db s' = sys_db s → goroutines s' ⊆ goroutines s →
  (∀ id, id ∈ dom (goroutines s) → told s id → told s' id) →
  (∀ id, id ∈ cancelled s → id ∈ cancelled s') →
  map_Forall (goroutine_ok s) (goroutines s) → map_Forall (goroutine_ok s') (goroutines s').
Proof.
  intros Hd Hg Ht Hcn Hall id g Hl. assert (goroutines s !! id = Some g) by by eapply lookup_weaken.
  eapply (goroutine_ok_mono s); [done|apply Ht; by eapply elem_of_dom_2|by apply Hcn|by apply Hall].
Qed.

Lemma commit_goroutine_ok s s' id g :
  (told s id → told s' id) → cancelled s' = cancelled s → older c (sys_db s) (sys_db s') →
  (strict → told s' id ∨ same c (sys_db s) (sys_db s')) → goroutine_ok s id g → goroutine_ok s' id g.
Proof.
  intros Ht Hcn Ho Hs. destruct g as [o|r|r]; simpl; [done| |done]. rewrite Hcn. intros [Hr Hf].
  split; [done|]. intros Hst. eapply fresh_commit; [exact Ht|exact Ho|by apply Hs|by apply Hf].
Qed.

Lemma step_inv : preserved (sync_step c) label_ok sys_inv.
Proof.
  intros lb s s' (Hwf & Hix & Hall & Hres) Hlb Htr%sync_step_trans.
  pose proof (trans_wf c s lb s' Hwf Htr) as Hwf'. pose proof Hwf as (Hdom & Hid & Hwat & _).
  destruct Htr as [c' now entry d r Ha|n ids Hn Hw Hr Hl Hd|id ids g g' Hw Hg Ho|Hw|t o sub Hw Hr Hsub
    |t o Hw Hr Hsub|id o g g' Hr Hg Ho|id o g' Hg Ht|id g g' Hg _ _ Ht|id Hg|id g g' Hg _ Hcn Ht
    |id g Hg Hf Hw Hr|Hw]; split; try done.
  - destruct Hlb as (Hc' & Hnow & Hwatch). split; [by eapply Append_index|]. split; [|done].
    destruct (commit_cases _ _ _ _ _ _ Hc' Hnow Ha) as [Hold Hs]. intros id g Hg.
    destruct (reading_or_not g) as [Hun|[r0 ->]]; [specialize (Hall id g Hg); by destruct g|].
    eapply (commit_goroutine_ok s); [|done|exact Hold| |by apply Hall].
    + unfold told; simpl. intros [?|?]; [left; destruct (_ && _); lia|by right].
    + intros Hst. unfold told; simpl. destruct (Hwatch Hst) as [->|[Hun|Hne]].
      * rewrite andb_true_r. destruct Hs as [->|Hs]; [left; left; simpl; lia|by right].
      * by specialize (Hun id _ Hg).
      * destruct Hs as [Hs|Hs]; [|by right]. by rewrite (written_elsewhere _ _ _ _ _ _ Hc' Hnow Hne Ha) in Hs.
  - split; [done|]. split; [|done]. apply (goroutines_ok_same s); try done.
    intros id Hin _. right. simpl. rewrite <-(elem_of_list_to_set (C:=gset UUID)), Hd, <-Hdom. done.
  - split; [done|]. split; [|done]. eapply (goroutines_ok_set s _ id g'); try done.
    + intros id' Hne. unfold told; simpl. rewrite Hw. intros [?|Hin]; [by left|right].
      by apply elem_of_cons in Hin as [->|?].
    + by eapply (offer_notify_ok s _ id g); try apply Hall.
  - split; [done|]. split; [|done]. apply (goroutines_ok_same s); try done.
    intros id _. unfold told; simpl. rewrite Hw. intros [?|Hin]; [by left|].
    by apply not_elem_of_nil in Hin.
  - destruct Hlb as (o' & -> & Ho'). split; [done|]. split; [by apply (goroutines_ok_same s)|].
    intros id o [= _ <-]. eauto.
  - destruct Hlb as (o' & [= <-] & Ho'). split; [done|]. split; [|done].
    apply (goroutines_ok_set s _ (target_ID t) (Started o)); try done. set_solver.
  - split; [done|]. destruct (Hres _ _ Hr) as (o' & -> & Ho'). split; [|done].
    eapply (goroutines_ok_set s _ id g'); try done.
    by eapply (offer_reset_ok s _ id o' g); try apply Hall.
  - split; [done|]. split; [|done]. eapply (goroutines_ok_set s _ id g'); try done.
    eapply (goroutine_ok_mono s); [done..|]. eapply (turn_ok s id); [by left|done|done|by apply Hall].
  - split; [done|]. split; [|done]. eapply (goroutines_ok_set s _ id g'); try done.
    eapply (goroutine_ok_mono s); [done..|]. eapply (turn_ok s id); [by left|done|done|by apply Hall].
  - split; [done|]. split; [|done]. apply (goroutines_ok_same s); try done. set_solver.
  - split; [done|]. split; [|done]. eapply (goroutines_ok_set s _ id g'); try done.
    eapply (goroutine_ok_mono s); [done..|]. eapply (turn_ok s id); [by right|done|done|by apply Hall].
  - split; [done|]. split; [|done]. apply (goroutines_ok_same s); try done. simpl. apply delete_subseteq.
Qed.

Lemma sys_init_inv d : index_ok c (contents d) → sys_inv (sys_init d).
Proof. intros Hix. split; [apply sys_init_wf|]. split; [done|]. split; [apply map_Forall_empty|done]. Qed.
End invariant.

(* ------------------------------------------------------------------ *)
(** * Coming to rest *)

Section rest.
Context `{BadgerReliable} `{!ProtoCodec Msg.t} {T : Type} `{!SubscriptionTarget T}.
Context (strict : Prop) (c : Channel T) (Hc : channel_ok c).
Implicit Types (s : system (T:=T)) (lb : label (T:=T)) (d : DB) (g : goroutine).
#[local] Open Scope nat_scope.

(** ** How many moves are left *)

(** More than a pass over [d] takes. *)
Definition room d : nat := length (sorted_keys (contents d)) + 3.

Definition weight d g : nat :=
  match g with
  | Started _ => S (room d)
  | Reading r =>
      match pos r with
      | Iterating it => length (it_rest it) + 3 + if dirty r then room d else 0
      | Waiting => 2
      | _ => 1
      end
  | Indexing r => match ix_pos r with IxIterating _ it => length (it_rest it) + 2 | _ => 1 end
  end.

Definition energy s : nat :=
  let B := S (room (sys_db s)) in
  pending s * (size (goroutines s) * B + 2)
  + match watcher s with Idle => 0 | Notifying ids => S (length ids * B) end
  + (if resetting s is Some _ then B else 0)
  + (if watching s then 0 else 1)
  + map_sum (weight (sys_db s)) (goroutines s).

Lemma length_seek_keys d (p k : bytes) : length (seek_keys (contents d) p k) ≤ length (sorted_keys (contents d)).
Proof. apply length_filter. Qed.

Lemma begin_weight d r : weight d (Reading (begin_iterate d c r)) ≤ room d.
Proof.
  simpl. destruct (pos (begin_iterate d c r)) as [it| |e|] eqn:Hp; [|unfold room; lia..].
  destruct (begin_iterate_Ok d c r it Hp) as (-> & _ & Hr). simpl. rewrite Hr.
  pose proof (length_seek_keys d (prefix c) (sbytes (key r))). unfold room. lia.
Qed.

Lemma after_weight d r :
  weight d (Reading (after_iterate d c r)) ≤ if dirty r then room d else 2.
Proof.
  unfold after_iterate. pose proof (begin_weight d r). unfold room in *.
  destruct (count r >=? max r)%Z; [simpl; case_match; lia|].
  destruct (dirty r); [done|]. simpl. lia.
Qed.

Lemma valid_weight it : It_Valid it = true → S (length (it_rest (It_Next it))) = length (it_rest it).
Proof.
  rewrite It_Valid_spec. destruct (It_Next_state it) as (_ & _ & ->). by destruct (it_rest it).
Qed.

Lemma read_turn_weight d ev r r' :
  ev = EvDefault ∨ ev = EvDone → read_step d c ev r = Some r' → weight d (Reading r') < weight d (Reading r).
Proof.
  intros Hev. pose proof (after_weight d r) as Ha. unfold read_step.
  destruct (pos r) as [it| |e|] eqn:Hp; [|by destruct Hev as [-> | ->]; intros [= <-]; simpl; rewrite Hp; lia|done..].
  assert (weight d (Reading (after_iterate d c r)) < weight d (Reading r)) as Hlt.
  { change (weight d (Reading r)) with (match pos r with
      | Iterating it => length (it_rest it) + 3 + (if dirty r then room d else 0) | Waiting => 2 | _ => 1 end).
    rewrite Hp. destruct (dirty r); lia. }
  intros [= <-]. destruct (count r >=? max r)%Z; [done|]. destruct Hev as [-> | ->]; [|done].
  unfold read_item. destruct (It_Valid it) eqn:Hv; [|done]. simpl.
  apply valid_weight in Hv. rewrite Hp. destruct (slice_equal _ _); simpl; [lia|].
  destruct (item_msg _ _); simpl; lia.
Qed.

Lemma index_turn_weight d ev r r' :
  ev = EvDefault ∨ ev = EvDone → index_step c ev r = Some r' →
  weight d (Indexing r') < weight d (Indexing r).
Proof.
  intros Hev. unfold index_step. simpl. destruct (ix_pos r) as [txn it|e|]; [|done..].
  destruct (ix_count r >=? Max (ix_opts r))%Z; [intros [= <-]; simpl; lia|].
  destruct Hev as [-> | ->]; [|intros [= <-]; simpl; lia].
  destruct (It_Valid it) eqn:Hv; [|intros [= <-]; simpl; lia]. simpl.
  apply valid_weight in Hv. destruct (index_msg _ _ _ _); intros [= <-]; simpl; lia.
Qed.

Lemma start_weight d o : weight d (Reading (read_start d c (Some o))) ≤ room d.
Proof.
  unfold read_start. destruct (if fromHead o then _ else _); [apply begin_weight|simpl; unfold room; lia..].
Qed.

Lemma turn_weight d ev g g' :
  ev = EvDefault ∨ ev = EvDone → turn c d ev g = Some g' → weight d g' < weight d g.
Proof.
  intros Hev. destruct g as [o|r|r].
  - cbn [turn]. intros [= <-]. change (weight d (Started o)) with (S (room d)).
    destruct (fromIndex o); [|by apply Nat.lt_succ_r, start_weight]. unfold index_start. destruct (NewTransaction d false) as [txn|e|] eqn:Ht; simpl; [|unfold room; lia..].
    apply NewTransaction_spec in Ht as (Hb & Hw & _). set (io := mkIterOpts _ _ _ _).
    destruct (NewIterator_spec txn io) as [Ho Hv]. rewrite It_Seek_rest by (by rewrite Ho).
    rewrite Ho, Hv, (fresh_view txn d Hb Hw).
    pose proof (length_seek_keys d (Prefix io) (sbytes (Seek o))). unfold room. lia.
  - cbn [turn]. destruct (read_step _ _ _ _) eqn:Hr; [|done]. intros [= <-].
    by apply (read_turn_weight d ev).
  - cbn [turn]. destruct (index_step _ _ _) eqn:Hr; [|done]. intros [= <-].
    by apply (index_turn_weight d ev).
Qed.

Lemma offer_weight d ev g g' :
  ev = EvNotify ∨ (∃ o, ev = EvReset o) → offer c d ev g = Some g' → weight d g' ≤ weight d g + room d.
Proof.
  intros Hev. destruct g as [o|r|r]; [done| |].
  - intros (r' & -> & Hr & Hlt)%offer_reading. revert Hr. unfold read_step.
    destruct (pos r) as [it| |e|] eqn:Hp; [| |done..].
    + rewrite geb_false by (by eapply Hlt). intros [= <-].
      destruct Hev as [->|[o ->]]; [simpl; rewrite Hp; destruct (dirty r); lia|].
      unfold read_reset. destruct o as [o|].
      * destruct (if fromHead o then _ else _) as [o'|e|]; [|unfold room; simpl; lia..].
        etrans; [apply after_weight|]. simpl. lia.
      * pose proof (after_weight d r). unfold room in *. destruct (dirty r); lia.
    + destruct Hev as [->|[o ->]]; [|done]. intros [= <-]. pose proof (begin_weight d r). lia.
  - simpl. case_match; [done|]. unfold index_step. destruct (ix_pos r) eqn:Hp; [|done..].
    case_match; [done|]. destruct Hev as [->|[o ->]]; [|done]. intros [= <-]. simpl. rewrite Hp. lia.
Qed.

Lemma weights_pos d gs (id : UUID) g : gs !! id = Some g →
  map_sum (weight d) (delete id gs) < map_sum (weight d) gs.
Proof.
  intros Hg. rewrite (map_sum_delete (weight d) gs id g Hg).
  destruct g as [o|r|r]; simpl; [lia|destruct (pos r); lia|destruct (ix_pos r); lia].
Qed.

Lemma size_insert_existing (gs : gmap UUID goroutine) (id : UUID) g g' :
  gs !! id = Some g → size (<[id:=g']> gs) = size gs.
Proof. intros Hg. rewrite map_size_insert_Some; [done|by exists g]. Qed.

(** Everybody who is told is registered, once. *)
Lemma all_subscribers s ids :
  sys_wf s → NoDup ids → list_to_set (C:=gset UUID) ids = dom (subs s) → length ids = size (goroutines s).
Proof.
  intros (Hdom & _) Hnd Hids. rewrite <-(size_dom (goroutines s)), Hdom, <-Hids.
  by rewrite size_list_to_set.
Qed.

Lemma energy_goroutine s id g g' :
  goroutines s !! id = Some g → weight (sys_db s) g' < weight (sys_db s) g →
  energy (set_goroutine id g' s) < energy s.
Proof.
  intros Hg Hw. unfold energy. simpl. rewrite (size_insert_existing _ id g) by done.
  pose proof (map_sum_insert (weight (sys_db s)) _ id g g' Hg). lia.
Qed.

Lemma internal_energy lb s s' :
  internal lb → sys_wf s → sync_step c lb s = Some s' → energy s' < energy s.
Proof.
  intros Hint Hwf Htr%sync_step_trans.
  destruct Htr as [c' now entry d r Ha|n ids Hn Hw Hr Hl Hd|id ids g g' Hw Hg Ho|Hw|t o sub Hw Hr Hsub
    |t o Hw Hr Hsub|id o g g' Hr Hg Ho|id o g' Hg Ht|id g g' Hg _ _ Ht|id Hg|id g g' Hg _ Hcn Ht
    |id g Hg Hf Hw Hr|Hw]; try done.
  - unfold energy. simpl. rewrite Hw, (all_subscribers s ids) by done.
    set (B := S (room (sys_db s))). set (N := size (goroutines s)). set (p := pending s) in *.
    assert (p * (N * B + 2) = n * (N * B + 2) + (p - n) * (N * B + 2)) as ->
      by (rewrite <-Nat.mul_add_distr_r; f_equal; lia).
    destruct n as [|n]; [lia|]. lia.
  - unfold energy. simpl. rewrite Hw, (size_insert_existing _ id g) by done. simpl.
    pose proof (map_sum_insert (weight (sys_db s)) _ id g g' Hg).
    apply (offer_weight (sys_db s)) in Ho; [lia|by left].
  - unfold energy. simpl. rewrite Hw. simpl. lia.
  - unfold energy. simpl. rewrite Hr, (size_insert_existing _ id g) by done.
    pose proof (map_sum_insert (weight (sys_db s)) _ id g g' Hg).
    apply (offer_weight (sys_db s)) in Ho; [lia|right; by exists o].
  - eapply energy_goroutine; [done|]. eapply turn_weight; [by left|done].
  - eapply energy_goroutine; [done|]. eapply turn_weight; [by left|done].
  - eapply energy_goroutine; [done|]. eapply turn_weight; [by right|done].
  - unfold energy. simpl. rewrite Hw, Hr. pose proof (weights_pos (sys_db s) _ id g Hg).
    assert (size (delete id (goroutines s)) ≤ size (goroutines s)).
    { rewrite map_size_delete_Some; [lia|by exists g]. }
    enough (pending s * (size (delete id (goroutines s)) * S (room (sys_db s)) + 2)
      ≤ pending s * (size (goroutines s) * S (room (sys_db s)) + 2)) by lia.
    apply Nat.mul_le_mono_l, Nat.add_le_mono_r. by apply Nat.mul_le_mono_r.
  - unfold energy. simpl. rewrite Hw. lia.
Qed.

(** ** Who can move *)

(** A reader in its outer [select], not cancelled: it needs somebody else. *)
Definition waiting s (id : UUID) g : Prop :=
  match g with Reading r => pos r = Waiting ∧ id ∉ cancelled s | _ => False end.

#[local] Instance waiting_dec s id g : Decision (waiting s id g).
Proof.
  unfold waiting. destruct g as [o|r|r]; [right; by intros []| |right; by intros []].
  destruct (pos r); try (right; by intros [? _]).
  destruct (decide (id ∉ cancelled s)); [by left|right; by intros [_ ?]].
Defined.

Definition at_rest s : Prop :=
  pending s = 0 ∧ watcher s = Idle ∧ resetting s = None ∧ watching s = true
  ∧ map_Forall (waiting s) (goroutines s).

(** The same, as a check. *)
Definition waitingb s : bool :=
  bool_decide (map_Forall (λ id g, match g with
    | Reading r => match pos r with Waiting => bool_decide (id ∉ cancelled s) | _ => false end
    | _ => false
    end = true) (goroutines s)).

Definition at_restb s : bool :=
  (pending s =? 0)%nat && watching s && waitingb s
  && match watcher s, resetting s with Idle, None => true | _, _ => false end.

Lemma at_restb_spec s : at_restb s = true → at_rest s.
Proof.
  unfold at_restb. intros [[[Hp Hwatch]%andb_true_iff Hw]%andb_true_iff Hl]%andb_true_iff.
  apply Nat.eqb_eq in Hp. apply bool_decide_eq_true in Hw.
  split; [exact Hp|]. destruct (watcher s), (resetting s); try discriminate Hl.
  do 3 (split; [done|]). intros id g Hg. specialize (Hw id g Hg). simpl in Hw.
  destruct g as [o|r|r]; try discriminate Hw. destruct (pos r) eqn:Hpos; try discriminate Hw.
  split; [exact Hpos|]. by apply bool_decide_eq_true in Hw.
Qed.

(** One of the two deadlocks of [Sync.v]. *)
Definition deadlocked s : Prop :=
  (∃ id o, reset_blocked id o s) ∨ ∃ id, notify_blocked id s.

(** A goroutine that neither waits nor has returned has a turn. *)
Lemma active_moves s id g :
  goroutine_ok strict c s id g → goroutines s !! id = Some g → ¬ waiting s id g → finished g = false →
  ∃ lb s', internal lb ∧ sync_step c lb s = Some s'.
Proof.
  intros Hok Hg Hw Hf.
  assert (∀ ev, ev = (if decide (id ∈ cancelled s) then EvDone else EvDefault) → is_started g = false →
    is_Some (turn c (sys_db s) ev g) → ∃ lb s', internal lb ∧ sync_step c lb s = Some s') as Hmove.
  { intros ev -> Hs [g' Ht]. case_decide.
    - exists (Done id), (set_goroutine id g' s). split; [done|]. by eapply trans_sync_step, tr_done.
    - exists (Turn id), (set_goroutine id g' s). split; [done|]. by eapply trans_sync_step, tr_turn. }
  destruct g as [o|r|r].
  - exists (Begin id). eexists. split; [done|]. by eapply trans_sync_step, tr_begin.
  - destruct Hok as [(_ & _ & _ & _ & Hp) _]. eapply Hmove; [done..|]. simpl in *. unfold read_step.
    destruct (pos r) as [it| |e|]; [by case_decide; eexists| |done..].
    case_decide; [by eexists|]. by destruct Hw.
  - eapply Hmove; [done..|]. simpl in *. unfold index_reader_ok in Hok. unfold index_step.
    destruct (ix_pos r) as [txn it|e|] eqn:Hp; [|done..].
    destruct (ix_count r >=? Max (ix_opts r))%Z; [by eexists|]. case_decide; [by eexists|].
    destruct (It_Valid it); [|by eexists]. simpl. destruct (index_msg _ _ _ _); by eexists.
Qed.

Lemma waiting_offer s id g : waiting s id g → is_Some (offer c (sys_db s) EvNotify g).
Proof. destruct g as [o|r|r]; simpl; [done| |done]. intros [Hp _]. unfold read_step. rewrite Hp. by eexists. Qed.

Lemma finished_deaf g : finished g = true → deaf g.
Proof. destruct g as [o|r|r]; simpl; [done| |done]. by destruct (pos r). Qed.

Lemma rest_stuck s lb : at_rest s → internal lb → sync_step c lb s = None.
Proof.
  intros (Hp & Hw & Hr & Hwatch & Hwait) Hi. destruct (sync_step c lb s) as [s'|] eqn:Hs; [|done].
  apply sync_step_trans in Hs.
  assert (∀ id g, goroutines s !! id = Some g → ∃ r, g = Reading r ∧ pos r = Waiting ∧ id ∉ cancelled s) as Hg.
  { intros id g Hl. specialize (Hwait id g Hl). destruct g; [done|by destruct Hwait; eauto|done]. }
  destruct Hs as [ |n ids Hn| | | | | |id o g' Hl|id g g' Hl _ _ Ht| |id g g' Hl _ Hcn Ht|id g Hl Hf|];
    try done; try congruence; try lia; destruct (Hg _ _ Hl) as (r & Heq & Hpos & ?); simplify_eq/=.
  - unfold read_step in Ht. by rewrite Hpos in Ht.
  - done.
  - by rewrite Hpos in Hf.
Qed.

(** The only states where nothing moves are rest and the two deadlocks. *)
Lemma progress s :
  sys_inv strict c s → (at_rest s ∨ deadlocked s) ∨ ∃ lb s', internal lb ∧ sync_step c lb s = Some s'.
Proof.
  intros (Hwf & _ & Hall & _). pose proof Hwf as (Hdom & _ & Hwat & Hres).
  destruct (decide (map_Forall (λ id g, waiting s id g ∨ finished g = true) (goroutines s))) as [Hq|Hq].
  2: { apply map_not_Forall in Hq as (id & g & Hg & Hn); [|apply _]. right.
    apply (active_moves s id g); [by apply Hall|done|tauto|]. destruct (finished g); naive_solver. }
  destruct (watcher s) as [|[|id ids]] eqn:Hw.
  - destruct (resetting s) as [[id o]|] eqn:Hr.
    { left; right; left. exists id, o. split; [done|]. split; [done|].
      pose proof (Hres id o eq_refl) as [g Hg]%elem_of_dom. exists g. split; [done|].
      destruct (Hq id g Hg) as [Hwait|]; [|by apply finished_deaf].
      destruct g as [|r|]; [done| |done]. simpl in *. by destruct Hwait as [-> _]. }
    destruct (watching s) eqn:Hwatch; [|right; exists Watch; eexists; split; [done|];
      by eapply trans_sync_step, tr_watch].
    destruct (decide (map_Forall (waiting s) (goroutines s))) as [Hwait|Hn].
    + destruct (pending s) as [|p] eqn:Hp; [by left; left|]. right.
      exists (Callback 1 (elements (dom (subs s)))). eexists. split; [done|].
      apply trans_sync_step, tr_callback; [lia|done|done|apply NoDup_elements|apply list_to_set_elements_L].
    + apply map_not_Forall in Hn as (id & g & Hg & Hn); [|apply _]. right.
      destruct (Hq id g Hg) as [|Hf]; [done|]. exists (Unsubscribe id). eexists. split; [done|].
      by eapply trans_sync_step, tr_unsubscribe.
  - right. exists Release. eexists. split; [done|]. by eapply trans_sync_step, tr_release.
  - destruct Hwat as (Hr & _ & Hin).
    assert (id ∈ dom (goroutines s)) as [g Hg]%elem_of_dom by (apply Hin; left).
    destruct (Hq id g Hg) as [Hwait|Hf].
    + destruct (waiting_offer s id g Hwait) as [g' Ho]. right. exists Notify. eexists. split; [done|].
      by eapply trans_sync_step, tr_notify.
    + left; right; right. exists id. split; [done|]. split; [|by exists g].
      exists (id :: ids). split; [done|left].
Qed.
End rest.

(* ------------------------------------------------------------------ *)
(** * Following one entry *)

Section follow.
Context `{BadgerReliable} `{!ProtoCodec Msg.t} {T : Type} `{!SubscriptionTarget T}.
Context (c : Channel T) (Hc : channel_ok c) (D : DB) (k : bytes) (ko : bool).
Implicit Types (s : system (T:=T)) (lb : label (T:=T)) (r : reader).

(** [k] is an entry of the channel, and its last. *)
Definition newest : Prop :=
  has_prefix (prefix c) k = true ∧ is_Some (contents D !! k)
  ∧ ∀ k', has_prefix (prefix c) k' = true → is_Some (contents D !! k') → bytes_le k' k.

(** Published, or still ahead of the reader, on a way that gets there. *)
Definition tracked r : Prop :=
  keysOnly (opts r) = ko ∧
  (msg_at D ko k ∈ published r ∨
   (seek_ok c (sbytes (key r)) ∧ bytes_le (sbytes (key r)) k ∧ sbytes (lastSeen r) ≠ k)).

Lemma tracked_begin r : tracked r → tracked (begin_iterate D c r).
Proof. unfold tracked, begin_iterate. by destruct (NewTransaction D false). Qed.

Lemma tracked_after r : tracked r → tracked (after_iterate D c r).
Proof.
  intros Hr. unfold after_iterate. case_match; [done|]. case_match; [by apply tracked_begin|done].
Qed.

Lemma msg_at_older d : older c d D → is_Some (contents d !! k) → has_prefix (prefix c) k = true →
  msg_at d ko k = msg_at D ko k.
Proof. intros Ho [v Hk] Hp. unfold msg_at. destruct ko; [done|]. by rewrite Hk, (Ho k v Hp Hk). Qed.

(** What is published is the entry, or one before it. *)
Lemma tracked_item told cancelled r it :
  newest → fresh c told cancelled D r → pos r = Iterating it → tracked r → tracked (read_item D c it r).
Proof.
  intros (Hpk & _ & Hmax) Hf Hpos Hr. unfold fresh in Hf. rewrite Hpos in Hf.
  destruct Hf as (d0 & (Hit & _) & Hold & _). unfold read_item.
  destruct (It_Valid it) eqn:Hv; [|by apply tracked_after]. simpl.
  rewrite (iter_valid d0 c it Hit) in Hv. destruct (it_rest it) as [|k1 l] eqn:Hl; [done|].
  rewrite (It_Key_spec it k1 l Hl). case_match; [done|].
  destruct (item_msg (keysOnly (opts r)) it) as [m|e|] eqn:Hm; [|done..].
  destruct Hr as [Hko Hr]. split; [done|]. simpl.
  apply (item_msg_Ok d0 c it k1 l _ m Hc Hit Hl Hv) in Hm. rewrite Hko in Hm.
  pose proof Hit as (_ & _ & _ & _ & _ & Hin).
  assert (is_Some (contents d0 !! k1)) as Hk1 by (apply Hin; rewrite Hl; left).
  destruct Hr as [Hr|(_ & Hle & Hne)]; [left; apply elem_of_app; by left|].
  destruct (decide (k1 = k)) as [->|Hne1].
  - left. apply elem_of_app; right. rewrite Hm, (msg_at_older d0) by done. left.
  - right. split; [right; by apply has_prefix_le|]. split; [|done]. apply Hmax; [done|]. destruct Hk1 as [v Hk1]. exists v. by apply Hold.
Qed.

Lemma tracked_step told cancelled ev r r' :
  ev = EvDefault ∨ ev = EvDone ∨ ev = EvNotify → newest → fresh c told cancelled D r →
  read_step D c ev r = Some r' → tracked r → tracked r'.
Proof.
  intros Hev Hk Hf. unfold read_step. destruct (pos r) as [it| |e|] eqn:Hpos; [| |done..].
  - intros [= <-] Hr. case_match; [by apply tracked_after|].
    destruct Hev as [->|[->| ->]]; [by eapply tracked_item|by apply tracked_after|done].
  - destruct Hev as [->|[->| ->]]; [done|by intros [= <-]|intros [= <-]]. by apply tracked_begin.
Qed.

(** No commit, no new request: the reader of [id] keeps track. *)
Definition following (id : UUID) s : Prop :=
  sys_inv True c s ∧ sys_db s = D ∧ resetting s = None
  ∧ ∀ g, goroutines s !! id = Some g → ∃ r, g = Reading r ∧ tracked r.

Lemma following_step id : newest → preserved (sync_step c) (λ _, internal) (following id).
Proof.
  intros Hk lb s s' (Hinv & Hdb & Hres & Hg) Hint Hstep.
  assert (sys_inv True c s') as Hinv' by (eapply step_inv; [done|exact Hinv| |exact Hstep]; by destruct lb).
  apply sync_step_trans in Hstep. destruct Hinv as (_ & _ & Hall & _).
  assert (∀ id' g0 g1, goroutines s !! id' = Some g0 →
    (∀ r, g0 = Reading r → tracked r → ∃ r', g1 = Reading r' ∧ tracked r') →
    ∀ g, <[id':=g1]> (goroutines s) !! id = Some g → ∃ r, g = Reading r ∧ tracked r) as Hset.
  { intros id' g0 g1 Hg0 Htr g. rewrite lookup_insert_Some. intros [[-> <-]|[_ Hl]]; [|by apply Hg].
    destruct (Hg g0 Hg0) as (r & -> & Hr). by apply (Htr r). }
  assert (∀ id' r, goroutines s !! id' = Some (Reading r) →
    fresh c (told s id') (id' ∈ cancelled s) D r) as Hfresh
    by (intros id' r Hr; destruct (Hall _ _ Hr) as [_ Hf]; by rewrite Hdb in Hf; apply Hf).
  split; [done|].
  destruct Hstep as [ | |id' ids g g' Hw Hg' Ho| | | |id' o g g' Hr Hg' Ho|id' o g' Hg' Ht|id' g g' Hg' _ _ Ht
    | |id' g g' Hg' _ Hcn Ht|id' g Hg' Hf Hw Hr|]; try done; try congruence;
    (split; [done|]; split; [done|]); simpl.
  - apply (Hset _ g); [done|]. intros r -> Hr. apply offer_reading in Ho as (r' & -> & Hr' & _).
    exists r'. split; [done|]. rewrite Hdb in Hr'. eapply tracked_step; [|done|by eapply Hfresh|done|done]. tauto.
  - by apply (Hset _ (Started o)).
  - apply (Hset _ g); [done|]. intros r -> Hr. simpl in Ht. rewrite Hdb in Ht.
    destruct (read_step D c EvDefault r) as [r'|] eqn:Hs; [|done]. injection Ht as <-. exists r'.
    split; [done|]. eapply tracked_step; [|done|by eapply Hfresh|done|done]. tauto.
  - apply (Hset _ g); [done|]. intros r -> Hr. simpl in Ht. rewrite Hdb in Ht.
    destruct (read_step D c EvDone r) as [r'|] eqn:Hs; [|done]. injection Ht as <-. exists r'.
    split; [done|]. eapply tracked_step; [|done|by eapply Hfresh|done|done]. tauto.
  - intros g0 [_ Hl]%lookup_delete_Some. by apply Hg.
Qed.
End follow.

(* ------------------------------------------------------------------ *)
(** * Properties *)

Section properties.
Context `{BadgerReliable} `{!ProtoCodec Msg.t} {T : Type} `{!SubscriptionTarget T}.
Context (c : Channel T).
Implicit Types (s : system (T:=T)) (ls : list (label (T:=T))).

(** The schedules of a channel: any commits (the channel's own while the watch
    is on or nobody reads), subscriptions, re-openings and cancellations, on a
    database whose arrival index is in order. *)
Definition reachable s : Prop :=
  ∃ d ls, index_ok c (contents d) ∧ allowed (sync_step c) (label_ok True c) ls (sys_init d)
    ∧ play (sync_step c) ls (sys_init d) = Some s.

(** With the watch on, a label is allowed or not whatever the state is. *)
Lemma allowed_watched ls s :
  watching s = true → Forall (λ lb, ∀ s, watching s = true → label_ok True c s lb) ls →
  allowed (sync_step c) (label_ok True c) ls s.
Proof.
  intros Hw Hls.
  apply (allowed_under _ _ (λ lb, ∀ s, watching s = true → label_ok True c s lb) (λ s, watching s = true));
    [|by auto|exact Hls|done].
  intros lb s0 s1 Hs0 _ Htr%sync_step_trans. by destruct Htr.
Qed.

Lemma reachable_inv s : channel_ok c → reachable s → sys_inv True c s.
Proof.
  intros Hc (d & ls & Hix & Hls & Hp).
  eapply play_allowed; [by apply step_inv|exact Hls|by apply sys_init_inv|exact Hp].
Qed.

Lemma internal_inv : channel_ok c → preserved (sync_step c) (λ _, internal) (sys_inv True c).
Proof. intros Hc lb s s' Hs Hi Hst. eapply step_inv; [done|exact Hs| |exact Hst]. by destruct lb. Qed.

(** A reader that waits, and that nobody is about to tell. *)
Lemma waits_caught_up s id r :
  goroutine_ok True c s id (Reading r) → pos r = Waiting → id ∉ cancelled s → ¬ told s id →
  seek_ok c (sbytes (key r)) → caught_up c (sys_db s) r.
Proof.
  intros [_ Hf] Hp Hcn Ht Hk. specialize (Hf I). unfold fresh in Hf. rewrite Hp in Hf.
  destruct Hf as [?|[?|Hf]]; [done..|by apply Hf].
Qed.

Lemma rest_untold s id : at_rest s → ¬ told s id.
Proof. intros (Hpend & Hw & _) [?|Ht]; [lia|by rewrite Hw in Ht]. Qed.


(** At rest, everybody has all there is. *)
Lemma at_rest_caught_up s :
  sys_inv True c s → at_rest s →
  ∀ id g, goroutines s !! id = Some g → ∃ r, g = Reading r ∧
    (seek_ok c (sbytes (key r)) → caught_up c (sys_db s) r).
Proof.
  intros (_ & _ & Hall & _) Hrest id g Hg. pose proof (rest_untold s id Hrest).
  destruct Hrest as (_ & _ & _ & _ & Hwait). specialize (Hwait id g Hg).
  destruct g as [|r|]; [done| |done]. destruct Hwait. exists r. split; [done|].
  apply (waits_caught_up s id); [by apply Hall|done..].
Qed.

(** The goroutines of a channel come to rest.  From any state that a
    schedule reaches, without new requests and commits, they make at most
    [energy] moves; and where they cannot move any more, either one of the two
    deadlocks has struck, or no commit is unannounced, the lock is free, and
    every subscriber that is left waits, having delivered all there is. *)
Lemma comes_to_rest s :
  channel_ok c → reachable s →
  (∀ ls s', Forall internal ls → play (sync_step c) ls s = Some s' → (length ls ≤ energy s)%nat) ∧
  (∃ ls s', Forall internal ls ∧ play (sync_step c) ls s = Some s' ∧ (at_rest s' ∨ deadlocked s')) ∧
  ∀ ls s', Forall internal ls → play (sync_step c) ls s = Some s' →
    (∀ lb, internal lb → sync_step c lb s' = None) →
    deadlocked s' ∨
    (at_rest s' ∧ ∀ id g, goroutines s' !! id = Some g → ∃ r, g = Reading r ∧
      (seek_ok c (sbytes (key r)) → caught_up c (sys_db s') r)).
Proof.
  intros Hc Hs%reachable_inv; [|done]. pose proof (internal_inv Hc) as Hpres.
  assert (∀ lb s s', internal lb → sys_inv True c s → sync_step c lb s = Some s' → (energy s' < energy s)%nat) as Hen
    by (intros lb s0 s1 Hi (Hwf & _); by apply internal_energy).
  split_and!.
  - intros ls s' Hls Hp. pose proof (play_bounded _ internal (sys_inv True c) energy ls s s' Hpres Hen Hls Hs Hp). lia.
  - destruct (play_to_rest _ internal (sys_inv True c) (λ s, at_rest s ∨ deadlocked s) energy s Hpres Hen)
      as (ls & s' & Hls & Hp & _ & HR); [by apply (progress True c)|done|]. by exists ls, s'.
  - intros ls s' Hls Hp Hstuck.
    assert (sys_inv True c s') as Hs' by (eapply play_invariant; [exact Hpres|exact Hls|exact Hs|exact Hp]).
    destruct (progress True c s' Hs') as [[Hrest|?]|(lb & s2 & Hi & Hst)]; [right|by left|by rewrite Hstuck in Hst].
    split; [done|]. by apply at_rest_caught_up.
Qed.

Lemma newest_followed s id r k ls s' :
  channel_ok c → sys_inv True c s → newest c (sys_db s) k → resetting s = None →
  goroutines s !! id = Some (Reading r) → seek_ok c (sbytes (key r)) →
  bytes_le (sbytes (key r)) k → sbytes (lastSeen r) ≠ k → Forall internal ls → play (sync_step c) ls s = Some s' →
  (∀ lb, internal lb → sync_step c lb s' = None) →
  deadlocked s' ∨ goroutines s' !! id = None ∨
  ∃ r', goroutines s' !! id = Some (Reading r') ∧
    msg_at (sys_db s) (keysOnly (opts r)) k ∈ published r'.
Proof.
  intros Hc Hs Hk Hres Hg Hseek Hle Hne Hls Hp Hstuck.
  assert (following c (sys_db s) k (keysOnly (opts r)) id s') as (Hs' & Hdb & _ & Hf).
  { eapply play_invariant; [by apply following_step|exact Hls| |exact Hp].
    split; [done|]. split; [done|]. split; [done|]. intros g Hg'. simplify_eq.
    exists r. split; [done|]. split; [done|by right]. }
  destruct (progress True c s' Hs') as [[Hrest|?]|(lb & s2 & Hi & Hst)]; [right|by left|by rewrite Hstuck in Hst].
  destruct (goroutines s' !! id) as [g|] eqn:Hg'; [right|by left].
  destruct (Hf g eq_refl) as (r' & -> & _ & Hr'). exists r'. split; [done|].
  destruct Hr' as [Hr'|(Hseek' & Hle' & Hne')]; [done|]. destruct Hne'.
  destruct (at_rest_caught_up s' Hs' Hrest id _ Hg') as (r0 & [= <-] & Hcu).
  symmetry. apply (Hcu Hseek'). rewrite Hdb. destruct Hk as (? & ? & _). by split_and!.
Qed.

(** C15: badger reports what is committed after [db.Subscribe] has been
    called, and [watch] calls it in a goroutine of its own: when a reader that
    came first waits already, an entry committed before that call is announced
    to nobody, and the channel is at rest without the reader having got it. *)
Theorem unwatched_commit_missed s c' now entry d key :
  watching s = false → pending s = 0%nat → watcher s = Idle → resetting s = None →
  map_Forall (waiting s) (goroutines s) → Append (sys_db s) c' now entry = (d, Ok key) →
  ∃ s', play (sync_step c) [Commit c' now entry; Watch] s = Some s' ∧
    sys_db s' = d ∧ goroutines s' = goroutines s ∧ ∀ lb, internal lb → sync_step c lb s' = None.
Proof.
  intros Hwatch Hp Hw Hr Hwait Ha. cbn [play sync_step]. rewrite Ha. cbn. rewrite Hwatch, andb_false_r.
  eexists. split; [done|]. split; [done|]. split; [done|]. intros lb. by apply rest_stuck.
Qed.

(** A new entry reaches its subscribers: if an entry sorts after every
    other of its channel and after where a reader is, then once the channel's
    goroutines have come to rest the reader has published it, or has
    unsubscribed (limit, error or cancellation), or a deadlock has struck. *)
Lemma newest_entry_delivered s id r k ls s' :
  channel_ok c → reachable s → newest c (sys_db s) k → resetting s = None →
  goroutines s !! id = Some (Reading r) → seek_ok c (sbytes (key r)) →
  bytes_le (sbytes (key r)) k → sbytes (lastSeen r) ≠ k → Forall internal ls → play (sync_step c) ls s = Some s' →
  (∀ lb, internal lb → sync_step c lb s' = None) →
  deadlocked s' ∨ goroutines s' !! id = None ∨
  ∃ r', goroutines s' !! id = Some (Reading r') ∧
    msg_at (sys_db s) (keysOnly (opts r)) k ∈ published r'.
Proof. intros Hc Hs%reachable_inv; [|done]. by apply newest_followed. Qed.
End properties.

(* ------------------------------------------------------------------ *)
(** * Witnesses *)

(** A subscriber of an empty channel, entries it is woken for, and how the two
    deadlocks come about. *)
Module SyncExamples.
Import MemDB RefCodec StoreExamples DeliveryExamples.

#[export] Instance unit_target : SubscriptionTarget unit := λ _, str "stream".
Definition id_ : UUID := str "stream".
Definition c0 : Channel unit := ch x00.
Definition st (l : list (label (T:=unit))) : system (T:=unit) := default (sys_init d0) (play (sync_step c0) l (sys_init d0)).

(** subscribed, and waiting for the first entry *)
Definition until_waiting : list (label (T:=unit)) := [Watch; Subscribed tt (Some tail_opts); Begin id_; Turn id_].
(** an entry is committed; it is announced, published, and the reader waits again *)
Definition committed : list (label (T:=unit)) := until_waiting ++ [Commit c0 t0 (Some e0)].
Definition announced : list (label (T:=unit)) := [Callback 1 [id_]; Notify; Release; Turn id_; Turn id_].
(** the one entry wanted is published while a second one is announced *)
Definition limited : list (label (T:=unit)) :=
  [Watch; Commit c0 t0 (Some e0); Subscribed tt (Some (mkStreamOpts None 1 OptNone)); Begin id_;
   Commit c0 t1 (Some e1); Callback 1 [id_]; Turn id_].

Lemma st_play l : (if play (sync_step c0) l (sys_init d0) is Some _ then true else false) = true →
  play (sync_step c0) l (sys_init d0) = Some (st l).
Proof. unfold st. by destruct (play _ _ _). Qed.

Lemma st_wf l : (if play (sync_step c0) l (sys_init d0) is Some _ then true else false) = true →
  sys_wf (st l).
Proof.
  intros Hp%st_play. revert Hp. generalize (st l). intros s Hp.
  exact (play_forever _ _ _ _ _ (step_wf c0) (sys_init_wf d0) Hp).
Qed.

Lemma not_told s : pending s = 0%nat → watcher s = Idle → ¬ told (T:=unit) s id_.
Proof. intros Hp Hw. unfold told. rewrite Hp, Hw. by intros [?%Nat.lt_irrefl|?]. Qed.

Lemma label_ok_0 lb :
  match lb with
  | Commit c' now _ => channel_ok c' ∧ time_ok now
  | Subscribed _ o => ∃ m, o = Some (mkStreamOpts None m OptNone) ∧ 0 ≤ m ≤ Tail
  | _ => True
  end → ∀ s, watching s = true → label_ok (T:=unit) True c0 s lb.
Proof.
  destruct lb; try done.
  - intros [? ?] s Hw. split_and!; [done..|by left].
  - intros (m & -> & Hm) s Hw. eexists. by split.
Qed.

Lemma labels_ok : allowed (sync_step c0) (label_ok True c0) (committed ++ announced) (sys_init d0).
Proof.
  split; [done|]. intros s' [= <-]. apply allowed_watched; [done|].
  pose proof (ch_ok x00 : channel_ok c0). pose proof t0_ok.
  repeat (apply Forall_cons; split); try apply Forall_nil_2; apply label_ok_0; try done.
  exists Tail. split; [done|apply Tail_range].
Qed.

Lemma committed_reachable : reachable c0 (st committed).
Proof.
  exists d0, committed. split; [apply d0_index_ok|]. split.
  - eapply allowed_prefix, labels_ok.
  - apply st_play. by vm_compute.
Qed.

Lemma st_reader l (P : reader → bool) :
  (if goroutines (st l) !! id_ is Some (Reading r) then P r else false) = true →
  ∃ r, goroutines (st l) !! id_ = Some (Reading r) ∧ P r = true.
Proof. destruct (goroutines (st l) !! id_) as [[o|r|r]|]; try done. eauto. Qed.

Definition is_waiting (r : reader) : bool := match pos r with Waiting => true | _ => false end.
Definition is_full (r : reader) : bool :=
  match pos r with Iterating _ => max r <=? count r | _ => false end.

Lemma waits : ∃ r, goroutines (st committed) !! id_ = Some (Reading r) ∧ is_waiting r = true.
Proof. apply st_reader. by vm_compute. Qed.

Lemma committed_plays : play (sync_step c0) committed (sys_init d0) = Some (st committed).
Proof. apply st_play. by vm_compute. Qed.

Lemma sync_type_invariant_witness : sys_wf (st committed).
Proof. exact (sync_type_invariant c0 d0 committed (st committed) committed_plays). Defined.

Lemma reopen_deadlocks_witness :
  ∃ s', sync_step c0 (Subscribed tt (Some tail_opts)) (st until_waiting) = Some s' ∧ seized c0 s'.
Proof.
  destruct (st_reader until_waiting is_waiting) as (r & Hr & Hw); [by vm_compute|].
  destruct (reopen_deadlocks c0 (st until_waiting) tt (Some tail_opts) (Reading r)) as (s' & Hs & _ & Hd).
  - apply st_wf. by vm_compute.
  - by vm_compute.
  - exact Hr.
  - simpl. unfold is_waiting in Hw. destruct (pos r); (exact I || discriminate Hw).
  - exists s'. split; [exact Hs|exact Hd].
Defined.

Lemma limit_deadlocks_witness :
  ∃ s', sync_step c0 (Turn id_) (st limited) = Some s' ∧ seized c0 s'.
Proof.
  destruct (st_reader limited is_full) as (r & Hr & Hf); [by vm_compute|].
  unfold is_full in Hf. destruct (pos r) as [it| |e|] eqn:Hp; try discriminate Hf. apply Z.leb_le in Hf.
  destruct (limit_deadlocks c0 (st limited) [id_] id_ r it) as (s' & _ & Hs & _ & _ & _ & Hd).
  - apply st_wf. by vm_compute.
  - by vm_compute.
  - left.
  - apply (bool_decide_eq_true_1 _). by vm_compute.
  - exact Hr.
  - exact Hp.
  - exact Hf.
  - exists s'. split; [exact Hs|exact Hd].
Defined.


Lemma comes_to_rest_witness :
  ∃ ls s', Forall internal ls ∧ play (sync_step c0) ls (st committed) = Some s' ∧ (at_rest s' ∨ deadlocked s').
Proof.
  destruct (comes_to_rest c0 (st committed) (ch_ok x00) committed_reachable) as (_ & Hex & _). exact Hex.
Defined.

Definition rested : system := st (committed ++ announced).

Lemma waitings (s : system (T:=unit)) :
  bool_decide (map_Forall (λ id g, match g with
                                   | Reading r => is_waiting r && bool_decide (id ∉ cancelled s)
                                   | _ => false
                                   end = true) (goroutines s)) = true →
  map_Forall (waiting s) (goroutines s).
Proof.
  intros Hw%bool_decide_eq_true_1 id g Hg. specialize (Hw id g Hg). destruct g as [o|r|r]; try discriminate Hw.
  apply andb_true_iff in Hw as [Hp Hn]. apply bool_decide_eq_true in Hn. split; [|exact Hn].
  unfold is_waiting in Hp. destruct (pos r); (reflexivity || discriminate Hp).
Qed.

Lemma rested_plays : play (sync_step c0) announced (st committed) = Some rested.
Proof.
  apply (play_rest _ committed announced (sys_init d0) _ _ committed_plays).
  apply st_play. by vm_compute.
Qed.

Lemma rested_stuck lb : internal lb → sync_step c0 lb rested = None.
Proof.
  apply rest_stuck. unfold at_rest. do 4 (split; [by vm_compute|]).
  apply waitings. by vm_compute.
Qed.

(** Nobody watches yet. *)
Definition unwatched : list (label (T:=unit)) := tail until_waiting.

Lemma unwatched_commit_missed_witness :
  ∃ s', play (sync_step c0) [Commit c0 t0 (Some e0); Watch] (st unwatched) = Some s' ∧
    ∀ lb, internal lb → sync_step c0 lb s' = None.
Proof.
  destruct (unwatched_commit_missed c0 (st unwatched) c0 t0 (Some e0) d1 (arrivalKey c0 t0 id0))
    as (s' & Hp & _ & _ & Hs).
  - by vm_compute.
  - by vm_compute.
  - by vm_compute.
  - by vm_compute.
  - by apply waitings; vm_compute.
  - exact d1_append.
  - exists s'. split; [exact Hp|exact Hs].
Defined.

Lemma k0_newest : newest c0 (sys_db (st committed)) k0.
Proof.
  split; [by vm_compute|]. split; [apply (bool_decide_eq_true_1 _); by vm_compute|].
  assert (map_Forall (λ k' _, has_prefix (prefix c0) k' = true → bytes_le k' k0) (contents (sys_db (st committed)))) as Hall
    by (apply (bool_decide_eq_true_1 _); by vm_compute).
  intros k' Hp [v Hk]. by apply (Hall k' v).
Qed.

Lemma newest_entry_delivered_witness :
  ∃ r, goroutines (st committed) !! id_ = Some (Reading r) ∧
    (deadlocked rested ∨ goroutines rested !! id_ = None ∨
     ∃ r', goroutines rested !! id_ = Some (Reading r') ∧
       msg_at (sys_db (st committed)) (keysOnly (opts r)) k0 ∈ published r').
Proof.
  destruct (st_reader committed (λ r, bool_decide (sbytes (key r) = []) && bytes_leb (sbytes (key r)) k0
    && negb (bool_decide (sbytes (lastSeen r) = k0)))) as (r & Hr & Hb); [by vm_compute|].
  apply andb_true_iff in Hb as [[Hk%bool_decide_eq_true Hle]%andb_true_iff Hne]. apply negb_true_iff, bool_decide_eq_false in Hne.
  exists r. split; [exact Hr|].
  apply (newest_entry_delivered c0 (st committed) id_ r k0 announced rested).
  - apply ch_ok.
  - exact committed_reachable.
  - exact k0_newest.
  - by vm_compute.
  - exact Hr.
  - left. exact Hk.
  - exact Hle.
  - exact Hne.
  - by repeat constructor.
  - exact rested_plays.
  - exact rested_stuck.
Defined.
End SyncExamples.
