(* ===== verification/Server.v ===== *)
(** [server/server.go]: the gRPC session.

    One session is one [Connection].  A [*Stream] is its fields, which never
    change, and the identity [ptr] of the allocation; cancelling its context
    puts the identity in [cancelled].  A handler takes the session's state
    (the store, the connection, and the readers that its calls to [Subscribe]
    started) and returns it with its response, or, where [Subscribe] is sending
    on the [resetRx] of a subscriber it knows, with what it waits for.  [sent] lists what was passed
    to [conn.Send], whose failures are only logged.  The loop of
    [VaultSession] runs over what [conn.Recv] returns, the state of the
    session's context at each turn, and whether the reader that a [Subscribe]
    sends to comes to take the options; if it does not, the loop is stuck in
    that turn.  [Sync.v] and [Vault.v] say when readers do.

    A handler that panics takes the process with it. *)
From S2P Require Import Prelude Protos Helpers Badger Channel Store Reader Delivery.

Definition maxBodySize : Z := 10000000.

Definition ErrorInvalidRequest : error :=
  Sentinel (str "server.ErrorInvalidRequest") (str "invalid request").
Definition ErrorInvalidOpenReq : error :=
  Sentinel (str "server.ErrorInvalidOpenReq") (str "invalid open request").
Definition ErrorInvalidFeedURI : error :=
  Sentinel (str "server.ErrorInvalidFeedURI") (str "invalid feed URI").
Definition ErrorInvalidEntryBody : error :=
  Sentinel (str "server.ErrorInvalidEntryBody") (str "invalid entry body").
Definition ErrorInvalidUnsupportedOp : error :=
  Sentinel (str "server.ErrorInvalidUnsupportedOp") (str "unsupported operation").

(** [type Stream] *)
Record Stream := mkStream {
  ptr : nat;
  s_conn : UUID;
  s_id : Z;
}.
#[global] Instance Stream_eq_dec : EqDecision Stream.
Proof. solve_decision. Defined.

(** [Stream.ID] *)
#[global] Instance Stream_ID : SubscriptionTarget Stream := s_conn.

(** [type Connection] *)
Record Connection := mkConnection {
  conn_id : UUID;
  streams : gmap Z Stream;
  next_ptr : nat;
  cancelled : list nat;
  sent : list Msg.t;
}.

(** [newConnection(session, ctx)], with the id [helpers.NewUUID] made. *)
Definition newConnection (id : UUID) : Connection := mkConnection id ∅ 0 [] [].

(** [conn.Send(msg)] *)
Definition Send (msg : Msg.t) (c : Connection) : Connection :=
  mkConnection (conn_id c) (streams c) (next_ptr c) (cancelled c) (sent c ++ [msg]).

(** [Stream.Publish(msg)] *)
Definition Stream_Publish (s : Stream) (msg : Msg.t) (c : Connection) : Connection :=
  Send (Msg.set_ReqID (s_id s) msg) c.

(** [Stream.Done()] *)
Definition Stream_Done (s : Stream) (c : Connection) : Connection :=
  mkConnection (conn_id c) (delete (s_id s) (streams c)) (next_ptr c)
    (ptr s :: cancelled c) (sent c).

Definition newStreamOpts (req : option OpenFeedReq.t) : option StreamOpts :=
  let mode := OpenFeedReq.GetStreamMode req in
  let start := OpenFeedReq.GetSeekEntryID req in
  let idsOnly := if OpenFeedReq.GetSendEntryIDsOnly req then OptKeysOnly else OptNone in
  let i := OpenFeedReq.GetMaxEntriesToSend req in
  let max := if i >=? 0 then to_u64 i else 0 in
  let max := if max <=? 0 then Tail else max in
  let opts (start : slice) (skipFirst fromHead fromGenesis fromIndex : Z) :=
    Some (mkStreamOpts start max
            (Z.lor (Z.lor (Z.lor (Z.lor idsOnly skipFirst) fromHead) fromGenesis) fromIndex)) in
  if mode =? StreamMode_DontStream then None
  else if mode =? StreamMode_FromGenesis then opts (Some []) OptNone OptNone OptFromGenesis OptNone
  else if mode =? StreamMode_AtEntry then opts start OptNone OptNone OptNone OptNone
  else if mode =? StreamMode_AfterEntry then opts start OptSkipFirst OptNone OptNone OptNone
  else if mode =? StreamMode_AfterHead then opts (Some []) OptSkipFirst OptFromHead OptNone OptNone
  else if mode =? StreamMode_FromIndex then opts (Some []) OptNone OptNone OptNone OptFromIndex
  else opts start OptNone OptNone OptNone OptNone.

Definition errorResponse (reqID : Z) (code : Z) (err : error) : Msg.t :=
  Msg.mk MsgOp_ReqDiscarded reqID None None None (Some (ReqErr.mk code (Error err))).

Section server.
Context `{Badger} `{!ProtoCodec Msg.t} `{Sha256}.

(** [type VaultServer] and the session it serves; [started] lists the
    goroutines [Subscribe] started, by channel id. *)
Record session := mkSession {
  v_db : Store Stream;
  conn : Connection;
  started : list (bytes * subscribing);
}.

(** A handler's call: it has returned its response, or it waits in [Subscribe]
    for the reader of this subscriber to take the options, and then returns. *)
Inductive call :=
  | Responds (msg : Msg.t)
  | InReset (id : UUID) (o : option StreamOpts) (msg : Msg.t).

Definition response (r : call) : Msg.t :=
  match r with Responds msg => msg | InReset _ _ msg => msg end.

(** A change to the [*Channel] with its id. *)
Definition put_channel (c : Channel Stream) (s : Store Stream) : Store Stream :=
  mkStore (db s) (updateCh s) (updates s) (<[c_id c:=c]> (channels s)).

Definition open (st : session) (req : option FeedReq.t) : outcome (session * call) :=
  let reqID := FeedReq.GetReqID req in
  let openReq := FeedReq.GetOpenFeed req in
  if decide (openReq = None) then
    Ok (st, Responds (errorResponse reqID ErrCode_InvalidRequest ErrorInvalidOpenReq))
  else
  let uri := OpenFeedReq.GetFeedURI openReq in
  if decide (uri = []) then
    Ok (st, Responds (errorResponse reqID ErrCode_InvalidFeedURI ErrorInvalidFeedURI))
  else
  let channelID := ChannelURItoChannelID uri in
  let (s, r) := Store_Channel (v_db st) channelID in
  match r with
  | Err err =>
      Ok (mkSession s (conn st) (started st), Responds (errorResponse reqID ErrCode_DatabaseError err))
  | Panic => Panic
  | Ok channel =>
      let opts := newStreamOpts (FeedReq.GetOpenFeed req) in
      let cn := conn st in
      let stream := mkStream (next_ptr cn) (conn_id cn) reqID in
      let cn := mkConnection (conn_id cn) (<[reqID:=stream]> (streams cn)) (S (next_ptr cn))
                  (cancelled cn) (sent cn) in
      let (channel, sub) := Subscribe channel stream opts in
      let s := put_channel channel s in
      let resp := Msg.mk MsgOp_ReqComplete reqID None None
                    (Some (ReqStatus.of_code StatusCode_Working)) None in
      match sub with
      | SubscribePanic => Panic
      | SendingReset id opts => Ok (mkSession s cn (started st), InReset id opts resp)
      | _ => Ok (mkSession s cn (started st ++ [(channelID, sub)]), Responds resp)
      end
  end.

Definition close (st : session) (req : option FeedReq.t) : session * Msg.t :=
  let reqID := FeedReq.GetReqID req in
  let cn := match streams (conn st) !! reqID with
            | Some stream => Stream_Done stream (conn st)
            | None => conn st
            end in
  (mkSession (v_db st) cn (started st), Msg.mk MsgOp_ReqDiscarded reqID None None None None).

Definition append (st : session) (now : Time) (req : option FeedReq.t) : outcome (session * Msg.t) :=
  let reqID := FeedReq.GetReqID req in
  let entry := FeedReq.GetNewEntry req in
  let header := Msg.GetEntryHeader entry in
  let uri := EntryHeader.GetFeedURI header in
  if decide (uri = []) then
    Ok (st, errorResponse reqID ErrCode_InvalidFeedURI ErrorInvalidFeedURI)
  else
  let body := sbytes (Msg.GetBody entry) in
  if (Z.of_nat (length body) =? 0) || (Z.of_nat (length body) >? maxBodySize) then
    Ok (st, errorResponse reqID ErrCode_InvalidRequest ErrorInvalidEntryBody)
  else
  let channelID := ChannelURItoChannelID uri in
  let (s, r) := Store_Channel (v_db st) channelID in
  match r with
  | Err err =>
      Ok (mkSession s (conn st) (started st), errorResponse reqID ErrCode_DatabaseError err)
  | Panic => Panic
  | Ok channel =>
      let (d, r) := Append (db s) channel now entry in
      let st := mkSession (set_db d s) (conn st) (started st) in
      match r with
      | Err err => Ok (st, errorResponse reqID ErrCode_DatabaseError err)
      | Panic => Panic
      | Ok key =>
          Ok (st, Msg.mk MsgOp_ReqComplete reqID
                    (Some (EntryHeader.mk (Some key) None None [] [])) None None None)
      end
  end.

(** [new(req)] *)
Definition new (st : session) (now : Time) (req : option FeedReq.t) : outcome (session * Msg.t) :=
  append st now req.

Definition unsupported (req : option FeedReq.t) : Msg.t :=
  errorResponse (FeedReq.GetReqID req) ErrCode_InvalidRequest ErrorInvalidUnsupportedOp.

Definition responds (p : session * Msg.t) : session * call := (p.1, Responds p.2).

(** The [switch] of [VaultSession]. *)
Definition dispatch (st : session) (now : Time) (req : option FeedReq.t) : outcome (session * call) :=
  let op := FeedReq.GetReqOp req in
  if op =? ReqOp_ChannelGenesis then (p ← new st now req; Ok (responds p))
  else if op =? ReqOp_OpenFeed then open st req
  else if op =? ReqOp_CancelReq then Ok (responds (close st req))
  else if op =? ReqOp_AppendEntry then (p ← append st now req; Ok (responds p))
  else Ok (st, Responds (unsupported req)).

(** What [conn.Recv] returns. *)
Inductive received :=
  | Recv (req : FeedReq.t)
  | RecvEOF
  | RecvErr (e : error).

(** A turn of the loop: is the context done, the clock, what is received, and
    whether a reader that [Subscribe] sends options to takes them. *)
Record turn := mkTurn { ctx_done : bool; clock : Time; recv : received; reset_taken : bool }.

(** Where the call of [VaultSession] is: in its loop, returned, or in a
    [Subscribe] that sends to nobody. *)
Inductive loop_state := Looping | Returning (err : option error) | Hanging.

Definition send (msg : Msg.t) (st : session) : session :=
  mkSession (v_db st) (Send msg (conn st)) (started st).

(** [VaultSession], over the turns given: the session afterwards, and where
    the call is then. *)
Fixpoint VaultSession (st : session) (l : list turn) : outcome (session * loop_state) :=
  match l with
  | [] => Ok (st, Looping)
  | t :: l =>
      if ctx_done t then Ok (st, Returning None)
      else match recv t with
           | RecvEOF => Ok (st, Returning None)
           | RecvErr e => Ok (st, Returning (Some e))
           | Recv req =>
               '(st, r) ← dispatch st (clock t) (Some req);
               match r with
               | Responds msg => VaultSession (send msg st) l
               | InReset _ _ msg => if reset_taken t then VaultSession (send msg st) l else Ok (st, Hanging)
               end
           end
  end.
End server.

(* ------------------------------------------------------------------ *)
(** * Specification *)

Section spec.
Context `{BadgerLaws} `{!ProtoCodec Msg.t} `{Sha256}.

(** The requests a run of the loop serves, unless it hangs. *)
Fixpoint served (l : list turn) : list (Time * FeedReq.t) :=
  match l with
  | mkTurn false now (Recv req) _ :: l => (now, req) :: served l
  | _ => []
  end.

Definition feed_uri (req : FeedReq.t) : gostring :=
  EntryHeader.GetFeedURI (Msg.GetEntryHeader (FeedReq.NewEntry req)).

Definition body_length (req : FeedReq.t) : Z :=
  Z.of_nat (length (sbytes (Msg.GetBody (FeedReq.NewEntry req)))).

(** What the server checks of an entry before it goes to the store. *)
Definition acceptable (req : FeedReq.t) : Prop :=
  feed_uri req ≠ [] ∧ 0 < body_length req ≤ maxBodySize.

#[global] Instance acceptable_dec req : Decision (acceptable req).
Proof. unfold acceptable. apply _. Defined.

(** What a request asks of the feeds: to append an encoded entry to a
    channel, if it is an append the server accepts; nothing otherwise. *)
Definition wants (req : FeedReq.t) : option (bytes * bytes * bytes) :=
  if bool_decide (FeedReq.ReqOp req = ReqOp_AppendEntry ∨ FeedReq.ReqOp req = ReqOp_ChannelGenesis)
     && bool_decide (acceptable req)
  then match entryID (FeedReq.NewEntry req), FeedReq.NewEntry req with
       | Ok id, Some e =>
           if Marshal e is Ok v then Some (ChannelURItoChannelID (feed_uri req), fit 30 id, v) else None
       | _, _ => None
       end
  else None.

(** The abstract server: append-only feeds and the requests it completes. *)
Definition feed_request (F : AFeed) (req : FeedReq.t) : AFeed * bool :=
  match wants req with
  | Some (cid, eid, v) =>
      let (F', r) := feed_append F cid eid v in (F', if r is Ok _ then true else false)
  | None => (F, false)
  end.

Fixpoint feed_requests (F : AFeed) (l : list FeedReq.t) : AFeed * list bool :=
  match l with
  | [] => (F, [])
  | req :: l =>
      let (F, b) := feed_request F req in
      let (F, bs) := feed_requests F l in (F, b :: bs)
  end.

(** The response's op when the feed operation did or did not succeed; an
    [OpenFeed] is answered by its own rules. *)
Definition answers (req : FeedReq.t) (b : bool) (msg : Msg.t) : Prop :=
  Msg.ReqID msg = FeedReq.ReqID req ∧
  (FeedReq.ReqOp req ≠ ReqOp_OpenFeed →
   Msg.Op msg = if b then MsgOp_ReqComplete else MsgOp_ReqDiscarded).

(** The streams of a connection: live, filed under their ids, allocated once;
    the subscribers of a channel: filed under their connection. *)
Definition conn_ok (cn : Connection) : Prop :=
  map_Forall (λ i s, s_id s = i ∧ s_conn s = conn_id cn ∧ (ptr s < next_ptr cn)%nat
                     ∧ ptr s ∉ cancelled cn) (streams cn)
  ∧ (∀ i j s s', streams cn !! i = Some s → streams cn !! j = Some s' → ptr s = ptr s' → i = j)
  ∧ Forall (λ p, (p < next_ptr cn)%nat) (cancelled cn).

Definition subscribers_ok (s : Store Stream) : Prop :=
  map_Forall (λ _ c, map_Forall (λ id sub, sub_id sub = id ∧ s_conn (target sub) = id)
                       (subscribers c)) (channels s).

Definition session_ok (st : session) : Prop :=
  store_ok (v_db st) ∧ subscribers_ok (v_db st) ∧ conn_ok (conn st).

(** ** Handlers, one by one *)

Implicit Types (st : session) (c : Channel Stream) (s : Store Stream) (req : FeedReq.t).

Lemma channelID_length uri : length (ChannelURItoChannelID uri) = 32%nat.
Proof. apply Sum256_length. Qed.

Lemma Store_Channel_ok s id :
  store_ok s → subscribers_ok s → length id = 32%nat →
  ∃ s' c, Store_Channel s id = (s', Ok c) ∧ store_ok s' ∧ subscribers_ok s' ∧ db s' = db s
    ∧ c_id c = id ∧ channel_ok c ∧ channels s' !! id = Some c
    ∧ (∀ i, i ≠ id → channels s' !! i = channels s !! i)
    ∧ subscribers c = default ∅ (subscribers <$> channels s !! id).
Proof.
  intros Hs Hsub Hl. unfold Store_Channel. destruct (channels s !! id) as [c|] eqn:Hc.
  - destruct (Hs id c Hc) as (? & ? & ?). exists s, c. by split_and!.
  - pose proof (new_channel_ok id Hl : channel_ok (new_channel (T:=Stream) id)) as Hok.
    eexists _, (new_channel id). split; [done|]. split_and!; simpl; try done.
    + by apply map_Forall_insert_2.
    + apply map_Forall_insert_2; [apply map_Forall_empty|done].
    + by rewrite lookup_insert_eq.
    + intros i Hi. by rewrite lookup_insert_ne.
Qed.

Lemma close_response st req : Msg.ReqID (close st (Some req)).2 = FeedReq.ReqID req.
Proof. done. Qed.

Lemma append_response st now req st' msg :
  append st now (Some req) = Ok (st', msg) →
  Msg.ReqID msg = FeedReq.ReqID req ∧ sent (conn st') = sent (conn st).
Proof.
  unfold append. case_decide; [by intros [= <- <-]|]. case_match; [by intros [= <- <-]|].
  destruct (Store_Channel _ _) as [s [c|e|]]; [|by intros [= <- <-]|done].
  destruct (Append _ _ _ _) as [d [k|e|]]; [by intros [= <- <-]..|done].
Qed.

Lemma append_responds st now (req : option FeedReq.t) st' r :
  (p ← append st now req; Ok (responds p)) = Ok (st', r) →
  ∃ msg, r = Responds msg ∧ append st now req = Ok (st', msg).
Proof. destruct (append st now req) as [[st1 m]|e|]; [|done..]. intros [= <- <-]. by exists m. Qed.

Lemma open_response st req st' msg :
  open st (Some req) = Ok (st', msg) →
  Msg.ReqID (response msg) = FeedReq.ReqID req ∧ sent (conn st') = sent (conn st)
  ∧ db (v_db st') = db (v_db st).
Proof.
  unfold open. case_decide; [by intros [= <- <-]|]. case_decide; [by intros [= <- <-]|].
  assert (∀ id, db (Store_Channel (v_db st) id).1 = db (v_db st)) as Hdb
    by (intros id; unfold Store_Channel; by case_match).
  specialize (Hdb (ChannelURItoChannelID (OpenFeedReq.GetFeedURI (FeedReq.GetOpenFeed (Some req))))).
  destruct (Store_Channel _ _) as [s [c|e|]]; simpl in Hdb; [|by intros [= <- <-]|done].
  destruct (Subscribe _ _ _) as [c' [| | |]]; [by intros [= <- <-]..|done].
Qed.

Lemma dispatch_response st now req st' msg :
  dispatch st now (Some req) = Ok (st', msg) →
  Msg.ReqID (response msg) = FeedReq.ReqID req ∧ sent (conn st') = sent (conn st).
Proof.
  unfold dispatch, new.
  assert ((p ← append st now (Some req); Ok (responds p)) = Ok (st', msg) →
    Msg.ReqID (response msg) = FeedReq.ReqID req ∧ sent (conn st') = sent (conn st)) as Ha
    by (intros (m & -> & Hm)%append_responds; exact (append_response _ _ _ _ _ Hm)).
  case_match; [done|]. case_match; [intros (? & ? & _)%open_response; done|].
  case_match; [intros [= <- <-]; unfold close; simpl; by case_match|].
  case_match; [done|]. by intros [= <- <-].
Qed.
End spec.

(* ------------------------------------------------------------------ *)
(** * Invariant *)

Section invariant.
Context `{BadgerLaws} `{!ProtoCodec Msg.t} `{Sha256}.
Implicit Types (st : session) (c : Channel Stream) (s : Store Stream) (req : FeedReq.t).

Lemma conn_ok_new id : conn_ok (newConnection id).
Proof. split_and!; [apply map_Forall_empty|by intros ? ? ? ? [=]|constructor]. Qed.

Lemma conn_ok_send m cn : conn_ok cn → conn_ok (Send m cn).
Proof. done. Qed.

Lemma conn_ok_open cn (i : Z) :
  conn_ok cn →
  conn_ok (mkConnection (conn_id cn) (<[i:=mkStream (next_ptr cn) (conn_id cn) i]> (streams cn))
             (S (next_ptr cn)) (cancelled cn) (sent cn)).
Proof.
  intros (Hs & Hinj & Hc). split_and!; simpl.
  - apply map_Forall_insert_2; [split_and!; simpl; try done; [lia|]|].
    + intros Hin. rewrite Forall_forall in Hc. apply Hc in Hin. lia.
    + eapply map_Forall_impl; [done|]. intros j s' (? & ? & ? & ?). split_and!; try done; lia.
  - intros a b x y. rewrite !lookup_insert. repeat case_decide; intros Hx Hy; simplify_eq; try done.
    + apply Hs in Hy as (_ & _ & ? & _). simpl. intros ?. lia.
    + apply Hs in Hx as (_ & _ & ? & _). simpl. intros ?. lia.
    + eauto.
  - eapply Forall_impl; [done|]. intros p Hp; simpl in *; lia.
Qed.

Lemma conn_ok_done cn (i : Z) (s : Stream) : conn_ok cn → streams cn !! i = Some s → conn_ok (Stream_Done s cn).
Proof.
  intros (Hs & Hinj & Hc) Hi. destruct (Hs i s Hi) as (<- & _ & Hlt & _). split_and!; simpl.
  - intros j s' Hj. rewrite lookup_delete_Some in Hj. destruct Hj as [Hne Hj].
    destruct (Hs j s' Hj) as (? & ? & ? & ?). split_and!; try done.
    rewrite not_elem_of_cons. split; [|done]. intros Heq. by destruct Hne; eapply Hinj.
  - intros a b x y (_ & ?)%lookup_delete_Some (_ & ?)%lookup_delete_Some. eauto.
  - by constructor.
Qed.

Lemma store_ok_db d s : store_ok s → store_ok (set_db d s).
Proof. done. Qed.

Lemma put_channel_ok c s :
  store_ok s → subscribers_ok s → channel_ok c → c_uri c = [] →
  map_Forall (λ id sub, sub_id sub = id ∧ s_conn (target sub) = id) (subscribers c) →
  store_ok (put_channel c s) ∧ subscribers_ok (put_channel c s).
Proof. intros Hs Hsub Hc Hu Hm. split; by apply map_Forall_insert_2. Qed.

Lemma Subscribe_channel c (t : Stream) o :
  let c' := (Subscribe c t o).1 in
  c_id c' = c_id c ∧ c_uri c' = c_uri c ∧ prefix c' = prefix c ∧ indexPrefix c' = indexPrefix c
  ∧ subscribers c' = match subscribers c !! s_conn t with
                     | Some _ => subscribers c
                     | None => <[s_conn t := mkSubscriber (s_conn t) t]> (subscribers c)
                     end.
Proof.
  unfold Subscribe. change (target_ID t) with (s_conn t).
  by destruct (subscribers c !! s_conn t).
Qed.

Lemma open_inv st req st' msg :
  session_ok st → open st (Some req) = Ok (st', msg) → session_ok st'.
Proof.
  intros (Hs & Hsub & Hcn). unfold open.
  case_decide; [by intros [= <- <-]|]. case_decide; [by intros [= <- <-]|].
  destruct (Store_Channel_ok (v_db st) _ Hs Hsub (channelID_length (OpenFeedReq.GetFeedURI (FeedReq.GetOpenFeed (Some req)))))
    as (s & c & -> & Hs' & Hsub' & _ & Hid & Hc & Hreg & _).
  cbv beta iota. set (t := mkStream _ _ _). set (o := newStreamOpts _).
  pose proof (Subscribe_channel c t o) as (Hi & Hu & Hp & Hix & Hss).
  destruct (Subscribe c t o) as [c' eff]. simpl in Hi, Hu, Hp, Hix, Hss.
  assert (channel_ok c') as Hc' by (unfold channel_ok; by rewrite Hi, Hp, Hix).
  destruct (Hs' _ _ Hreg) as (_ & _ & Huc).
  destruct (put_channel_ok c' s) as [Hps Hpb]; [done|done|done|congruence| |].
  { rewrite Hss. specialize (Hsub' _ _ Hreg). simpl in Hsub'. case_match; [done|].
    by apply map_Forall_insert_2. }
  destruct eff; intros [= <- <-]; split_and!; simpl; try done; by apply conn_ok_open.
Qed.

Lemma close_inv st req : session_ok st → session_ok (close st (Some req)).1.
Proof.
  intros (Hs & Hsub & Hcn). unfold close. split_and!; simpl; try done.
  destruct (streams _ !! _) as [s|] eqn:Hi; [by eapply conn_ok_done|done].
Qed.

Lemma append_inv st now req st' msg :
  session_ok st → append st now (Some req) = Ok (st', msg) → session_ok st'.
Proof.
  intros (Hs & Hsub & Hcn). unfold append. case_decide; [by intros [= <- <-]|].
  case_match; [by intros [= <- <-]|].
  destruct (Store_Channel_ok (v_db st) _ Hs Hsub
    (channelID_length (EntryHeader.GetFeedURI (Msg.GetEntryHeader (FeedReq.GetNewEntry (Some req))))))
    as (s & c & -> & Hs' & Hsub' & _).
  destruct (Append _ _ _ _) as [d [k|e|]]; intros [= <- <-]; by split_and!.
Qed.

Lemma dispatch_inv st now req st' msg :
  session_ok st → dispatch st now (Some req) = Ok (st', msg) → session_ok st'.
Proof.
  intros Hst. unfold dispatch, new.
  case_match; [intros (m & _ & Hm)%append_responds; by eapply append_inv|].
  case_match; [by apply open_inv|].
  case_match; [pose proof (close_inv st req Hst) as Hc; intros [= <- _]; exact Hc|].
  case_match; [intros (m & _ & Hm)%append_responds; by eapply append_inv|]. by intros [= <- <-].
Qed.

(** Whatever a client sends, in whatever order, the session keeps its
    structure: the registry is well formed; every stream of the connection is
    filed under its request id, allocated once and not cancelled; and every
    subscriber of a channel is filed under the connection of its stream. *)
Lemma session_invariant (id : UUID) s (l : list turn) st r :
  store_ok s → subscribers_ok s →
  VaultSession (mkSession s (newConnection id) []) l = Ok (st, r) →
  session_ok st.
Proof.
  intros Hs Hsub.
  assert (session_ok (mkSession s (newConnection id) [])) as Hst
    by (split_and!; [done..|apply conn_ok_new]).
  revert Hst. generalize (mkSession s (newConnection id) []) as st0.
  induction l as [|[[] now [req| |e] tk] l IH]; intros st0 Hst; simpl; try by intros [= <- <-].
  destruct (dispatch st0 now (Some req)) as [[st1 c]|e|] eqn:Hd; simpl; [|done..].
  apply dispatch_inv in Hd; [|done]. destruct c as [msg|i o msg]; [by apply IH|].
  destruct tk; [by apply IH|by intros [= <- <-]].
Qed.
End invariant.

(* ------------------------------------------------------------------ *)
(** * Refinement and responses *)

Section refinement.
Context `{BadgerReliable} `{!ProtoCodec Msg.t} `{!ProtoLaws Msg.t} `{Sha256}.
Implicit Types (st : session) (c : Channel Stream) (s : Store Stream) (req : FeedReq.t).

(** What [Channel.Append] does to the feeds, on every branch. *)
Lemma Append_feed (d : DB) c now (entry : option Msg.t) :
  channel_ok c → time_ok now →
  ∃ d' r, Append d c now entry = (d', r) ∧
    match entryID entry, entry with
    | Ok id, Some e =>
        match Marshal e with
        | Ok v =>
            let (F, o) := feed_append (feed (contents d)) (c_id c) (fit 30 id) v in
            feed_equiv (feed (contents d')) F ∧
            match o with Ok _ => r = Ok (arrivalKey c now id) | _ => r = Err ErrorKeyExists end
        | Err x => d' = d ∧ r = Err x
        | Panic => False
        end
    | _, _ => d' = d ∧ r = Err ErrorInvalidEntryID
    end.
Proof.
  intros Hc Hn. destruct (entryID entry) as [id|x|] eqn:Hid.
  - destruct (entryID_Some _ _ Hid) as (e & -> & _).
    destruct (Marshal e) as [v|x|] eqn:Hm.
    + pose proof (Append_reliable d c now e id v Hid Hm) as Ha.
      unfold feed_append. rewrite feed_EntryKey by done.
      destruct (contents d !! EntryKey c id) as [w|]; [by eexists _, _|].
      destruct Ha as (d' & Ha & Hd). eexists _, _. split; [done|]. split; [|done].
      rewrite Hd. by apply feed_after_append.
    + unfold Append. rewrite Hid. simpl. rewrite Hm. simpl. eauto.
    + by destruct (Marshal_no_panic e).
  - assert (x = ErrorInvalidEntryID) as ->
      by (unfold entryID in Hid; destruct (EntryHeader.GetEntryID _); congruence).
    unfold Append. rewrite Hid. eauto.
  - unfold entryID in Hid. by destruct (EntryHeader.GetEntryID _).
Qed.

Lemma wants_channel req cid eid v : wants req = Some (cid, eid, v) → length cid = 32%nat.
Proof.
  unfold wants. case_match; [|done]. destruct (entryID _), (FeedReq.NewEntry req) as [x|]; try done.
  destruct (Marshal x); [|done..]. intros [= <- _ _]. apply channelID_length.
Qed.

#[global] Instance feed_request_proper req :
  Proper (feed_equiv ==> prod_relation feed_equiv eq) (λ F, feed_request F req).
Proof.
  intros F G HFG. unfold feed_request.
  destruct (wants req) as [[[cid eid] v]|] eqn:Hw; [|by split].
  apply wants_channel in Hw.
  destruct (feed_append_proper cid eid v Hw F G HFG) as [HF Hr].
  destruct (feed_append F cid eid v), (feed_append G cid eid v); simpl in *. subst. by split.
Qed.

Lemma feed_requests_proper l F G :
  feed_equiv F G → prod_relation feed_equiv eq (feed_requests F l) (feed_requests G l).
Proof.
  revert F G; induction l as [|req l IH]; intros F G HFG; [by split|]. simpl.
  destruct (feed_request_proper req F G HFG) as [HF Hb].
  destruct (feed_request F req) as [F1 b1], (feed_request G req) as [G1 b2]; simpl in *. subst.
  destruct (IH F1 G1 HF) as [HF' Hbs].
  destruct (feed_requests F1 l), (feed_requests G1 l); simpl in *. subst. by split.
Qed.

#[local] Ltac same_feeds := eexists _, _; split; [reflexivity|split; reflexivity].

(** [append] on a request that passes the server's checks is
    [Channel.Append], one on a request that does not is an error. *)
Lemma append_acceptable st now req :
  session_ok st → acceptable req →
  ∃ s c, store_ok s ∧ channel_ok c ∧ c_id c = ChannelURItoChannelID (feed_uri req)
    ∧ channels s !! c_id c = Some c ∧ Store_Channel (v_db st) (c_id c) = (s, Ok c) ∧
    append st now (Some req) =
      let (d, r) := Append (db (v_db st)) c now (FeedReq.NewEntry req) in
      match r with
      | Ok key => Ok (mkSession (set_db d s) (conn st) (started st),
                      Msg.mk MsgOp_ReqComplete (FeedReq.ReqID req)
                        (Some (EntryHeader.mk (Some key) None None [] [])) None None None)
      | Err err => Ok (mkSession (set_db d s) (conn st) (started st),
                       errorResponse (FeedReq.ReqID req) ErrCode_DatabaseError err)
      | Panic => Panic
      end.
Proof.
  intros (Hs & Hsub & _) [Hu Hb].
  destruct (Store_Channel_ok (v_db st) _ Hs Hsub (channelID_length (feed_uri req)))
    as (s & c & Hst & Hs' & _ & Hdb & Hid & Hc & Hreg & _).
  exists s, c. rewrite Hid. split_and!; [done..|exact Hst|]. unfold append.
  change (FeedReq.GetNewEntry (Some req)) with (FeedReq.NewEntry req). fold (feed_uri req).
  fold (body_length req). rewrite decide_False by done.
  rewrite (proj2 (Z.eqb_neq _ _)), Z.gtb_ltb, (proj2 (Z.ltb_ge _ _)) by lia. simpl.
  by rewrite Hst, Hdb.
Qed.

Lemma append_unacceptable st now req :
  ¬ acceptable req →
  append st now (Some req) =
    Ok (st, if decide (feed_uri req = [])
            then errorResponse (FeedReq.ReqID req) ErrCode_InvalidFeedURI ErrorInvalidFeedURI
            else errorResponse (FeedReq.ReqID req) ErrCode_InvalidRequest ErrorInvalidEntryBody).
Proof.
  intros Ha. unfold append.
  change (FeedReq.GetNewEntry (Some req)) with (FeedReq.NewEntry req). fold (feed_uri req).
  fold (body_length req). case_decide as Hu; [done|].
  assert ((body_length req =? 0) || (body_length req >? maxBodySize) = true) as ->; [|done].
  apply not_false_is_true. intros Hb. apply Ha. split; [done|].
  assert (0 ≤ body_length req) by (unfold body_length; lia). lia.
Qed.

Lemma append_refines st now req :
  session_ok st → time_ok now →
  FeedReq.ReqOp req = ReqOp_AppendEntry ∨ FeedReq.ReqOp req = ReqOp_ChannelGenesis →
  ∃ st' msg, append st now (Some req) = Ok (st', msg) ∧
    let (F, b) := feed_request (feed (contents (db (v_db st)))) req in
    feed_equiv (feed (contents (db (v_db st')))) F ∧
    Msg.Op msg = if b then MsgOp_ReqComplete else MsgOp_ReqDiscarded.
Proof.
  intros Hst Hn Hop. unfold feed_request, wants. rewrite (bool_decide_true (_ ∨ _)) by done.
  destruct (decide (acceptable req)) as [Ha|Ha].
  2: { rewrite append_unacceptable, bool_decide_false by done. simpl.
    eexists _, _. split; [done|]. split; [done|by case_decide]. }
  rewrite bool_decide_true by done. simpl.
  destruct (append_acceptable st now req Hst Ha) as (s & c & _ & Hc & Hid & _ & _ & ->). rewrite <-Hid.
  destruct (Append_feed (db (v_db st)) c now (FeedReq.NewEntry req) Hc Hn) as (d' & r & -> & Hr).
  destruct (entryID _) as [id|x|]; [|destruct Hr as [-> ->]; same_feeds..].
  destruct (FeedReq.NewEntry req) as [e|]; [|destruct Hr as [-> ->]; same_feeds].
  destruct (Marshal e) as [v|x|]; [|destruct Hr as [-> ->]; same_feeds|done].
  destruct (feed_append _ _ _ _) as [F o]. destruct Hr as [HF Hr].
  destruct o; subst r; eauto.
Qed.

Lemma dispatch_refines st now req st' msg :
  session_ok st → time_ok now → dispatch st now (Some req) = Ok (st', msg) →
  let (F, b) := feed_request (feed (contents (db (v_db st)))) req in
  feed_equiv (feed (contents (db (v_db st')))) F ∧ answers req b (response msg).
Proof.
  intros Hst Hn Hd. pose proof (dispatch_response st now req st' msg Hd) as [Hid _].
  unfold answers. destruct (decide (FeedReq.ReqOp req = ReqOp_AppendEntry ∨ FeedReq.ReqOp req = ReqOp_ChannelGenesis)) as [Hop|Hop].
  { destruct (append_refines st now req Hst Hn Hop) as (st1 & msg1 & Ha & HF).
    assert (dispatch st now (Some req) = Ok (responds (st1, msg1))) as Heq.
    { unfold dispatch, new. change (FeedReq.GetReqOp (Some req)) with (FeedReq.ReqOp req).
      rewrite Ha. by destruct Hop as [-> | ->]. }
    rewrite Heq in Hd. injection Hd as <- <-. simpl in *.
    destruct (feed_request _ req) as [F b]. naive_solver. }
  assert (wants req = None) as Hw by (unfold wants; by rewrite bool_decide_false by done).
  unfold feed_request. rewrite Hw. unfold dispatch in Hd.
  change (FeedReq.GetReqOp (Some req)) with (FeedReq.ReqOp req) in Hd.
  rewrite (proj2 (Z.eqb_neq _ ReqOp_ChannelGenesis)) in Hd by tauto.
  rewrite (proj2 (Z.eqb_neq _ ReqOp_AppendEntry)) in Hd by tauto.
  destruct (Z.eqb_spec (FeedReq.ReqOp req) ReqOp_OpenFeed) as [Ho|Ho].
  { apply open_response in Hd as (_ & _ & ->). done. }
  destruct (Z.eqb_spec (FeedReq.ReqOp req) ReqOp_CancelReq); apply (inj Ok) in Hd;
    injection Hd as <- <-; done.
Qed.

(** The session is subscribed to the channel that the request opens. *)
Definition reopens st req : Prop :=
  FeedReq.ReqOp req = ReqOp_OpenFeed ∧
  ∃ o c, FeedReq.OpenFeed req = Some o ∧ channels (v_db st) !! ChannelURItoChannelID (OpenFeedReq.FeedURI o) = Some c
    ∧ is_Some (subscribers c !! conn_id (conn st)).

(** The only call that does not return is a re-opening, and the request's
    stream is recorded by then. *)
Lemma dispatch_in_reset st now req st' id o msg :
  session_ok st → dispatch st now (Some req) = Ok (st', InReset id o msg) →
  reopens st' req ∧ db (v_db st') = db (v_db st).
Proof.
  intros (Hs & Hsub & _) Hd.
  assert (FeedReq.ReqOp req = ReqOp_OpenFeed ∧ open st (Some req) = Ok (st', InReset id o msg)) as [Hop Ho].
  { revert Hd. unfold dispatch, new. change (FeedReq.GetReqOp (Some req)) with (FeedReq.ReqOp req).
    case_match; [by intros (? & ? & _)%append_responds|].
    destruct (Z.eqb_spec (FeedReq.ReqOp req) ReqOp_OpenFeed); [done|].
    case_match; [done|]. case_match; [by intros (? & ? & _)%append_responds|done]. }
  pose proof (open_response _ _ _ _ Ho) as (_ & _ & Hdb). split; [split; [done|]|done].
  revert Ho. unfold open. change (FeedReq.GetOpenFeed (Some req)) with (FeedReq.OpenFeed req).
  destruct (FeedReq.OpenFeed req) as [q|] eqn:Hq; [|done]. rewrite decide_False by done.
  change (OpenFeedReq.GetFeedURI (Some q)) with (OpenFeedReq.FeedURI q). case_decide; [done|].
  destruct (Store_Channel_ok (v_db st) _ Hs Hsub (channelID_length (OpenFeedReq.FeedURI q)))
    as (s & c & -> & _ & _ & _ & Hid & _). cbv beta iota zeta. unfold Subscribe. change (target_ID _) with (conn_id (conn st)).
  destruct (subscribers c !! conn_id (conn st)) as [sub|] eqn:Hc; [|destruct (newStreamOpts _) as [so|]; [by destruct (fromIndex so)|done]].
  intros [= <- _ _ _]. exists q, c. simpl. by rewrite Hid, lookup_insert_eq, Hc.
Qed.

Definition hangs_at (l : list turn) (n : nat) st : Prop :=
  ∃ t req, l !! n = Some t ∧ recv t = Recv req ∧ reset_taken t = false ∧ reopens st req.

End refinement.

(* ------------------------------------------------------------------ *)
(** * Properties of the handlers *)

(** C40: the options of a stream say what the request's mode says, for
    every mode of the protocol and every unknown one (which reads as
    [AtEntry]): which flags are set, where the stream starts, and a limit
    between 1 and [Tail], an absent or negative count meaning no limit. *)
Theorem newStreamOpts_spec (req : OpenFeedReq.t) :
  - 2 ^ 31 ≤ OpenFeedReq.MaxEntriesToSend req < 2 ^ 31 →
  let mode := OpenFeedReq.StreamMode req in
  let n := OpenFeedReq.MaxEntriesToSend req in
  match newStreamOpts (Some req) with
  | None => mode = StreamMode_DontStream
  | Some o =>
      mode ≠ StreamMode_DontStream ∧
      Max o = (if 0 <? n then n else Tail) ∧ 1 ≤ Max o ≤ Tail ∧
      keysOnly o = OpenFeedReq.SendEntryIDsOnly req ∧
      skipFirst o = bool_decide (mode = StreamMode_AfterEntry ∨ mode = StreamMode_AfterHead) ∧
      fromHead o = bool_decide (mode = StreamMode_AfterHead) ∧
      fromGenesis o = bool_decide (mode = StreamMode_FromGenesis) ∧
      fromIndex o = bool_decide (mode = StreamMode_FromIndex) ∧
      Seek o = (if bool_decide (mode ∈ [StreamMode_FromGenesis; StreamMode_AfterHead; StreamMode_FromIndex])
                then Some [] else OpenFeedReq.SeekEntryID req) ∧
      0 ≤ Flags o < 2 ^ 8
  end.
Proof.
  intros Hn mode n. unfold newStreamOpts.
  change (OpenFeedReq.GetStreamMode (Some req)) with mode.
  change (OpenFeedReq.GetMaxEntriesToSend (Some req)) with n.
  change (OpenFeedReq.GetSendEntryIDsOnly (Some req)) with (OpenFeedReq.SendEntryIDsOnly req).
  set (max := if (if n >=? 0 then to_u64 n else 0) <=? 0 then Tail else _).
  assert (max = if 0 <? n then n else Tail) as Hm.
  { unfold max, to_u64, n. destruct (Z.ltb_spec 0 (OpenFeedReq.MaxEntriesToSend req)).
    - rewrite geb_true, Z.mod_small by lia. by rewrite (proj2 (Z.leb_gt _ _)) by lia.
    - destruct (_ >=? 0) eqn:Hge; [|done]. rewrite Z.geb_leb, Z.leb_le in Hge.
      by replace (OpenFeedReq.MaxEntriesToSend req) with 0 by lia. }
  assert (1 ≤ max ≤ Tail) as Hb
    by (rewrite Hm; unfold Tail, n; destruct (Z.ltb_spec 0 (OpenFeedReq.MaxEntriesToSend req)); lia).
  clearbody max mode n.
  repeat (match goal with |- context [mode =? ?m] => destruct (Z.eqb_spec mode m) as [->|?] end);
    [done|..]; destruct (OpenFeedReq.SendEntryIDsOnly req); split_and!; try done; simpl;
    try (rewrite bool_decide_false by (rewrite ?elem_of_cons, ?elem_of_nil; tauto)); (done || lia).
Qed.

Section handlers.
Context `{BadgerReliable} `{!ProtoCodec Msg.t} `{!ProtoLaws Msg.t} `{Sha256}.
Implicit Types (st : session) (c : Channel Stream) (s : Store Stream) (req : FeedReq.t).

(** Closing is idempotent and touches one stream: its context is
    cancelled, its id is free, no other stream and nothing in the store
    changes, and a second close changes nothing more and is answered the
    same. *)
Lemma close_idempotent st req :
  session_ok st →
  let (st', msg) := close st (Some req) in
  let i := FeedReq.ReqID req in
  close st' (Some req) = (st', msg) ∧ v_db st' = v_db st ∧
  streams (conn st') = delete i (streams (conn st)) ∧
  cancelled (conn st') = match streams (conn st) !! i with
                         | Some s => ptr s :: cancelled (conn st)
                         | None => cancelled (conn st)
                         end.
Proof.
  intros (_ & _ & Hcn & _). unfold close. change (FeedReq.GetReqID (Some req)) with (FeedReq.ReqID req).
  set (i := FeedReq.ReqID req). destruct (streams (conn st) !! i) as [s|] eqn:Hi; simpl.
  - destruct (Hcn i s Hi) as (-> & _). by rewrite lookup_delete_eq.
  - rewrite Hi, delete_id by done. by split_and!.
Qed.

(** C33: asking for no stream panics: on a channel the connection is not
    subscribed to, [OpenFeed] in the mode [DontStream] (the default of the
    request) dereferences nil options, in any state of the server. *)
Theorem open_dont_stream_panics st req (o : OpenFeedReq.t) :
  FeedReq.OpenFeed req = Some o → OpenFeedReq.FeedURI o ≠ [] →
  OpenFeedReq.StreamMode o = StreamMode_DontStream → session_ok st →
  (∀ c, channels (v_db st) !! ChannelURItoChannelID (OpenFeedReq.FeedURI o) = Some c →
        subscribers c !! conn_id (conn st) = None) →
  open st (Some req) = Panic.
Proof.
  intros Ho Hu Hm (Hs & Hsub & _) Hnone. unfold open.
  change (FeedReq.GetOpenFeed (Some req)) with (FeedReq.OpenFeed req). rewrite Ho.
  rewrite decide_False by done.
  change (OpenFeedReq.GetFeedURI (Some o)) with (OpenFeedReq.FeedURI o). rewrite decide_False by done.
  destruct (Store_Channel_ok (v_db st) _ Hs Hsub (channelID_length (OpenFeedReq.FeedURI o)))
    as (s & c & -> & _ & _ & _ & _ & _ & _ & _ & Hsc).
  assert (newStreamOpts (Some o) = None) as ->
    by (unfold newStreamOpts; change (OpenFeedReq.GetStreamMode (Some o)) with (OpenFeedReq.StreamMode o);
        by rewrite Hm).
  cbv beta iota. unfold Subscribe. change (target_ID _) with (conn_id (conn st)).
  assert (subscribers c !! conn_id (conn st) = None) as ->; [|done].
  rewrite Hsc. destruct (channels (v_db st) !! _) as [c'|] eqn:Hc'; simpl; [by apply Hnone|done].
Qed.

(** A stream on a channel the connection is subscribed to. *)
Lemma open_subscribed st req (o : OpenFeedReq.t) c sub :
  session_ok st → FeedReq.OpenFeed req = Some o → OpenFeedReq.FeedURI o ≠ [] →
  channels (v_db st) !! ChannelURItoChannelID (OpenFeedReq.FeedURI o) = Some c →
  subscribers c !! conn_id (conn st) = Some sub →
  let i := FeedReq.ReqID req in let cn := conn st in
  open st (Some req) =
    Ok (mkSession (v_db st)
          (mkConnection (conn_id cn) (<[i := mkStream (next_ptr cn) (conn_id cn) i]> (streams cn))
             (S (next_ptr cn)) (cancelled cn) (sent cn)) (started st),
        InReset (sub_id sub) (newStreamOpts (Some o))
          (Msg.mk MsgOp_ReqComplete i None None (Some (ReqStatus.of_code StatusCode_Working)) None)).
Proof.
  intros (Hs & _) Ho Hu Hc Hss. destruct (Hs _ _ Hc) as (Hid & _). unfold open.
  change (FeedReq.GetOpenFeed (Some req)) with (FeedReq.OpenFeed req). rewrite Ho, decide_False by done.
  change (OpenFeedReq.GetFeedURI (Some o)) with (OpenFeedReq.FeedURI o). rewrite decide_False by done.
  unfold Store_Channel. rewrite Hc. unfold Subscribe. change (target_ID _) with (conn_id (conn st)). rewrite Hss.
  assert (put_channel c (v_db st) = v_db st) as ->; [|done].
  unfold put_channel. rewrite Hid, insert_id by done. by destruct (v_db st).
Qed.

(** C34: a second [OpenFeed] on a channel of the same session hands its
    options to the reader of the first stream and records a stream of its own.
    If the reader takes them (see [reopen_hangs_session] for when it never
    does), the request is acknowledged and the session goes on; if not, the
    session is stuck there.  Either way the subscription stays with the first
    stream: entries keep carrying the first request id, and cancelling the
    second request cancels a context that nobody reads, the first stream's
    subscriber staying registered and live. *)
Theorem reopen_keeps_first st req now tk l (o : OpenFeedReq.t) c sub :
  session_ok st → FeedReq.ReqOp req = ReqOp_OpenFeed →
  FeedReq.OpenFeed req = Some o → OpenFeedReq.FeedURI o ≠ [] →
  channels (v_db st) !! ChannelURItoChannelID (OpenFeedReq.FeedURI o) = Some c →
  subscribers c !! conn_id (conn st) = Some sub →
  ptr (target sub) ∉ cancelled (conn st) → (ptr (target sub) < next_ptr (conn st))%nat →
  ∃ st' msg,
  open st (Some req) = Ok (st', InReset (sub_id sub) (newStreamOpts (Some o)) msg) ∧
  VaultSession st (mkTurn false now (Recv req) tk :: l) =
    (if tk then VaultSession (send msg st') l else Ok (st', Hanging)) ∧
  Msg.Op msg = MsgOp_ReqComplete ∧ Msg.ReqID msg = FeedReq.ReqID req ∧
  v_db st' = v_db st ∧ started st' = started st ∧ sent (conn st') = sent (conn st) ∧
  is_Some (streams (conn st') !! FeedReq.ReqID req) ∧
  (∀ m cn, last (sent (Stream_Publish (target sub) m cn))
           = Some (Msg.set_ReqID (s_id (target sub)) m)) ∧
  (ptr (target sub) ∉ cancelled (conn (close st' (Some req)).1)) ∧
  v_db (close st' (Some req)).1 = v_db st.
Proof.
  intros Hst Hop Ho Hu Hc Hss Hnc Hlt. pose proof (open_subscribed st req o c sub Hst Ho Hu Hc Hss) as Hopen.
  eexists _, _. split; [exact Hopen|]. split.
  { simpl. unfold dispatch. change (FeedReq.GetReqOp (Some req)) with (FeedReq.ReqOp req).
    rewrite Hop. simpl. by rewrite Hopen. }
  split_and!; simpl; try done; rewrite ?lookup_insert_eq; [done|intros m cn; apply last_snoc|].
  simpl. rewrite not_elem_of_cons. split; [lia|done].
Qed.

(** Why an append is refused, in the order the code checks; the body is
    measured before the entry id is looked at. *)
Inductive refused (d : DB) req : Z → error → Prop :=
  | refused_uri :
      feed_uri req = [] → refused d req ErrCode_InvalidFeedURI ErrorInvalidFeedURI
  | refused_body :
      feed_uri req ≠ [] → body_length req = 0 ∨ maxBodySize < body_length req →
      refused d req ErrCode_InvalidRequest ErrorInvalidEntryBody
  | refused_id :
      acceptable req → entryID (FeedReq.NewEntry req) = Err ErrorInvalidEntryID →
      refused d req ErrCode_DatabaseError ErrorInvalidEntryID
  | refused_encoding e id err :
      acceptable req → FeedReq.NewEntry req = Some e → entryID (Some e) = Ok id → Marshal e = Err err →
      refused d req ErrCode_DatabaseError err
  | refused_taken e id v :
      acceptable req → FeedReq.NewEntry req = Some e → entryID (Some e) = Ok id → Marshal e = Ok v →
      feed (contents d) (ChannelURItoChannelID (feed_uri req)) (fit 30 id) ≠ None →
      refused d req ErrCode_DatabaseError ErrorKeyExists.

(** [Channel.Append] refuses with [err] and changes no feed. *)
Definition Append_refuses (d : DB) now req (err : error) : Prop :=
  ∀ c, channel_ok c → c_id c = ChannelURItoChannelID (feed_uri req) →
  ∃ d', Append d c now (FeedReq.NewEntry req) = (d', Err err) ∧
    feed_equiv (feed (contents d')) (feed (contents d)).

Lemma open_ok st req :
  session_ok st →
  (∀ o, FeedReq.OpenFeed req = Some o → OpenFeedReq.StreamMode o ≠ StreamMode_DontStream) →
  ∃ st' msg, open st (Some req) = Ok (st', msg).
Proof.
  intros (Hs & Hsub & _) Hm. unfold open.
  change (FeedReq.GetOpenFeed (Some req)) with (FeedReq.OpenFeed req).
  destruct (FeedReq.OpenFeed req) as [o|] eqn:Ho; [|by eexists _, _].
  rewrite decide_False by done. case_decide; [by eexists _, _|].
  destruct (Store_Channel_ok (v_db st) _ Hs Hsub (channelID_length (OpenFeedReq.GetFeedURI (Some o))))
    as (s & c & -> & _). cbv beta iota. unfold Subscribe.
  destruct (newStreamOpts (Some o)) as [so|] eqn:Hso.
  - destruct (subscribers c !! _); [by eexists _, _|]. destruct (fromIndex so); by eexists _, _.
  - destruct (Hm o eq_refl). unfold newStreamOpts in Hso.
    change (OpenFeedReq.GetStreamMode (Some o)) with (OpenFeedReq.StreamMode o) in Hso.
    destruct (Z.eqb_spec (OpenFeedReq.StreamMode o) StreamMode_DontStream); [done|].
    by repeat case_match.
Qed.

Lemma dispatch_ok st now req :
  session_ok st → time_ok now →
  (∀ o, FeedReq.OpenFeed req = Some o → OpenFeedReq.StreamMode o ≠ StreamMode_DontStream) →
  ∃ st' msg, dispatch st now (Some req) = Ok (st', msg).
Proof.
  intros Hst Hn Hm. pose proof (append_refines st now req Hst Hn) as Ha.
  unfold dispatch, new. change (FeedReq.GetReqOp (Some req)) with (FeedReq.ReqOp req).
  destruct (Z.eqb_spec (FeedReq.ReqOp req) ReqOp_ChannelGenesis) as [Hg|_].
  { destruct (Ha (or_intror Hg)) as (st' & msg & -> & _). by eexists _, _. }
  destruct (FeedReq.ReqOp req =? ReqOp_OpenFeed); [by apply open_ok|].
  destruct (FeedReq.ReqOp req =? ReqOp_CancelReq); [by eexists _, _|].
  destruct (Z.eqb_spec (FeedReq.ReqOp req) ReqOp_AppendEntry) as [Hg|_]; [|by eexists _, _].
  destruct (Ha (or_introl Hg)) as (st' & msg & -> & _). by eexists _, _.
Qed.

(** An append that is refused, for whichever reason, is answered with
    that reason's code and text under the request's id, and leaves the feeds
    and the connection as they were. *)
Lemma append_refused st now req code err :
  session_ok st → time_ok now → refused (db (v_db st)) req code err →
  ∃ st', append st now (Some req) = Ok (st', errorResponse (FeedReq.ReqID req) code err) ∧
    conn st' = conn st ∧ feed_equiv (feed (contents (db (v_db st')))) (feed (contents (db (v_db st)))).
Proof.
  intros Hst Hn Hr.
  assert (∀ e, acceptable req → Append_refuses (db (v_db st)) now req e →
    ∃ st', append st now (Some req) = Ok (st', errorResponse (FeedReq.ReqID req) ErrCode_DatabaseError e)
      ∧ conn st' = conn st
      ∧ feed_equiv (feed (contents (db (v_db st')))) (feed (contents (db (v_db st))))) as Hacc.
  { intros e Ha He. destruct (append_acceptable st now req Hst Ha) as (s & c & _ & Hc & Hid & _ & _ & ->).
    destruct (He c Hc Hid) as (d' & -> & Hd). by eexists. }
  destruct Hr as [Hu|Hu Hb|Ha Hid|e id err Ha He Hid Hm|e id v Ha He Hid Hm Hf].
  - rewrite append_unacceptable, decide_True by (done || by intros [? _]). by eexists.
  - rewrite append_unacceptable, decide_False by (done || (intros [_ ?]; lia)). by eexists.
  - apply Hacc; [done|]. intros c Hc _. destruct (Append_feed (db (v_db st)) c now (FeedReq.NewEntry req) Hc Hn)
      as (d' & r & -> & Hr). rewrite Hid in Hr. destruct Hr as [-> ->]. by eexists.
  - apply Hacc; [done|]. intros c Hc _. destruct (Append_feed (db (v_db st)) c now (FeedReq.NewEntry req) Hc Hn)
      as (d' & r & -> & Hr). rewrite He, Hid, Hm in Hr. destruct Hr as [-> ->]. by eexists.
  - apply Hacc; [done|]. intros c Hc Hcid. destruct (Append_feed (db (v_db st)) c now (FeedReq.NewEntry req) Hc Hn)
      as (d' & r & -> & Hr). rewrite He, Hid, Hm in Hr. unfold feed_append in Hr. rewrite Hcid in Hr.
    destruct (feed _ _ _) as [w|] eqn:Hw; [|done]. destruct Hr as [HF ->]. by eexists.
Qed.

(** An append the server accepts, with an id that is new in its
    channel, is answered with the entry's index key, a bookmark that leads
    back to the entry's key, and under that key the entry now reads back as
    it was sent, the client's [Op] and [ReqID] included. *)
Lemma append_accepted st now req e id v :
  session_ok st → time_ok now → acceptable req →
  FeedReq.NewEntry req = Some e → entryID (Some e) = Ok id → Marshal e = Ok v →
  feed (contents (db (v_db st))) (ChannelURItoChannelID (feed_uri req)) (fit 30 id) = None →
  ∃ st' c, channels (v_db st') !! ChannelURItoChannelID (feed_uri req) = Some c ∧ channel_ok c ∧
    append st now (Some req) =
      Ok (st', Msg.mk MsgOp_ReqComplete (FeedReq.ReqID req)
                 (Some (EntryHeader.mk (Some (arrivalKey c now id)) None None [] [])) None None None) ∧
    entryKeyFromIndex c (arrivalKey c now id) = Ok (EntryKey c id) ∧
    Get (db (v_db st')) (EntryKey c id) = Ok (canon e).
Proof.
  intros Hst Hn Ha He Hid Hm Hf.
  destruct (append_acceptable st now req Hst Ha) as (s & c & _ & Hc & Hcid & Hreg & _ & ->).
  rewrite He. pose proof (Append_reliable (db (v_db st)) c now e id v Hid Hm) as Hr.
  rewrite <-Hcid, feed_EntryKey in Hf by done. rewrite Hf in Hr. destruct Hr as (d' & -> & Hd).
  exists (mkSession (set_db d' s) (conn st) (started st)), c. rewrite <-Hcid.
  split_and!; [exact Hreg|done|reflexivity|by apply entryKeyFromIndex_arrivalKey|].
  eapply Get_reliable; [|done]. simpl. rewrite Hd, lookup_insert_ne, lookup_insert_eq; [done|].
  intros Hk. pose proof (EntryKey_prefix c id Hc) as Hp. by rewrite <-Hk, arrivalKey_not_entry in Hp.
Qed.

(** C20: a session never panics unless it is asked for no stream on a
    channel: over any requests, of any shape, whose [OpenFeed]s ask for a
    stream, the loop comes through every turn, or gets to a request that opens
    again a channel the session is subscribed to while the subscription's
    reader does not take the new options, and hangs there. *)
Theorem session_no_panic st (l : list turn) :
  session_ok st → Forall (λ t, time_ok (clock t)) l →
  Forall (λ p, ∀ o, FeedReq.OpenFeed p.2 = Some o → OpenFeedReq.StreamMode o ≠ StreamMode_DontStream)
    (served l) →
  ∃ st' r, VaultSession st l = Ok (st', r) ∧ if r is Hanging then ∃ n, hangs_at l n st' else True.
Proof.
  intros Hst Hl. revert st Hst.
  induction Hl as [|[[] now [req| |e] tk] l Hn _ IH]; intros st Hst Hserved; simpl; try by eexists _, _.
  apply Forall_cons in Hserved as [Hreq Hserved].
  destruct (dispatch_ok st now req Hst Hn Hreq) as (st1 & c & Hd). rewrite Hd. simpl.
  assert (∃ st' r, VaultSession (send (response c) st1) l = Ok (st', r) ∧
    if r is Hanging then ∃ n, hangs_at (mkTurn false now (Recv req) tk :: l) n st' else True) as Hrec.
  { destruct (IH (send (response c) st1)) as (st' & r & Hr & Hh); [by apply dispatch_inv in Hd|done|].
    exists st', r. split; [done|]. destruct r; try done. destruct Hh as [n Hh]. by exists (S n). }
  destruct c as [msg|i o msg]; [done|]. destruct tk; [done|]. eexists _, _. split; [done|]. exists 0%nat.
  destruct (dispatch_in_reset st now req st1 i o msg Hst Hd) as [Hre _]. by eexists _, _.
Qed.
End handlers.

(* ------------------------------------------------------------------ *)
(** * Witnesses *)

(** A session on an empty store, and a client that appends and opens. *)
Module ServerExamples.
Import MemDB RefCodec RefHash StoreExamples.

Definition uri : gostring := str "/feed/0".
Definition cid : bytes := ChannelURItoChannelID uri.
Definition entry0 : Msg.t :=
  Msg.mk 0 77 (Some (EntryHeader.mk (Some id0) None None [] uri)) (Some (str "hello")) None None.
Definition req_append (i : Z) : FeedReq.t := FeedReq.mk ReqOp_AppendEntry i None (Some entry0).
Definition req_open (i mode : Z) : FeedReq.t :=
  FeedReq.mk ReqOp_OpenFeed i (Some (OpenFeedReq.mk uri mode None 0 false)) None.
Definition req_close (i : Z) : FeedReq.t := FeedReq.mk ReqOp_CancelReq i None None.
Definition s0 : Store Stream := mkStore d0 false [] ∅.
Definition st0 : session := mkSession s0 (newConnection (str "conn")) [].
Definition turns (l : list FeedReq.t) : list turn := (λ r, mkTurn false t0 (Recv r) true) <$> l.

Lemma s0_ok : store_ok s0 ∧ subscribers_ok s0.
Proof. split; apply map_Forall_empty. Qed.

Lemma st0_ok : session_ok st0.
Proof. split_and!; [apply s0_ok|apply s0_ok|apply conn_ok_new]. Qed.

(** The session after a stream was opened under id 1. *)
Definition st1 : session :=
  match open st0 (Some (req_open 1 StreamMode_FromGenesis)) with Ok (st, _) => st | _ => st0 end.

Lemma st1_open : ∃ msg, open st0 (Some (req_open 1 StreamMode_FromGenesis)) = Ok (st1, msg).
Proof. eexists. reflexivity. Qed.

Lemma st1_ok : session_ok st1.
Proof. destruct st1_open as [msg Hm]. by apply (open_inv st0 _ st1 msg st0_ok) in Hm. Qed.

Lemma turns_ok l : Forall (λ t, time_ok (clock t)) (turns l).
Proof. apply Forall_fmap, Forall_true. intros r. apply t0_ok. Qed.

Definition busy_turns : list turn :=
  turns [req_append 1; req_open 2 StreamMode_AtEntry; req_append 3; req_close 2].

Lemma busy_runs : ∃ st, VaultSession st0 busy_turns = Ok (st, Looping).
Proof.
  assert (∃ p, VaultSession st0 busy_turns = Ok p) as [[st r] Hp] by (apply ok_of_bool; vm_compute; reflexivity).
  assert (match VaultSession st0 busy_turns with Ok (_, Looping) => true | _ => false end = true) as Hb
    by (vm_compute; reflexivity).
  rewrite Hp in Hb |- *. destruct r; try discriminate Hb. by exists st.
Qed.

Lemma session_invariant_witness :
  ∃ st r, VaultSession st0 busy_turns = Ok (st, r) ∧ session_ok st.
Proof.
  destruct busy_runs as [st Hr]. exists st, Looping. split; [exact Hr|].
  exact (session_invariant (str "conn") s0 busy_turns st Looping (proj1 s0_ok) (proj2 s0_ok) Hr).
Defined.


Lemma newStreamOpts_spec_witness :
  match newStreamOpts (Some (OpenFeedReq.mk uri 7 None (-3) true)) with
  | Some o => skipFirst o = true ∧ Max o = Tail
  | None => False
  end.
Proof.
  pose proof (newStreamOpts_spec (OpenFeedReq.mk uri 7 None (-3) true)) as Hs.
  split; apply Hs; simpl; lia.
Defined.

Lemma close_idempotent_witness :
  cancelled (conn (close st1 (Some (req_close 1))).1) = [0%nat].
Proof.
  pose proof (close_idempotent st1 (req_close 1) st1_ok) as (_ & _ & _ & Hc).
  etrans; [apply Hc|reflexivity].
Defined.

Lemma open_dont_stream_panics_witness : open st0 (Some (req_open 1 StreamMode_DontStream)) = Panic.
Proof.
  apply (open_dont_stream_panics st0 (req_open 1 StreamMode_DontStream)
           (OpenFeedReq.mk uri StreamMode_DontStream None 0 false));
    [done|done|done|apply st0_ok|by intros c [=]].
Defined.

Lemma append_refused_witness :
  ∃ st', append st0 t0 (Some (FeedReq.mk ReqOp_AppendEntry 5 None None))
    = Ok (st', errorResponse 5 ErrCode_InvalidFeedURI ErrorInvalidFeedURI).
Proof.
  destruct (append_refused st0 t0 (FeedReq.mk ReqOp_AppendEntry 5 None None)
              ErrCode_InvalidFeedURI ErrorInvalidFeedURI) as (st' & Ha & _);
    [apply st0_ok|apply t0_ok|by constructor|by exists st'].
Defined.

Lemma append_accepted_witness :
  ∃ st' (c : Channel Stream), append st0 t0 (Some (req_append 5))
    = Ok (st', Msg.mk MsgOp_ReqComplete 5 (Some (EntryHeader.mk (Some (arrivalKey c t0 id0)) None None [] []))
                 None None None)
    ∧ Get (db (v_db st')) (EntryKey c id0) = Ok (canon entry0).
Proof.
  destruct (append_accepted st0 t0 (req_append 5) entry0 id0 (wire entry0))
    as (st' & c & _ & _ & Ha & _ & Hg); [apply st0_ok|apply t0_ok|split; [done|done]|done..|].
  by exists st', c.
Defined.

Lemma session_no_panic_witness : ∃ st r, VaultSession st0 busy_turns = Ok (st, r).
Proof.
  destruct (session_no_panic st0 busy_turns) as (st & r & Hr & _); [apply st0_ok|apply turns_ok| |].
  - repeat constructor; by intros o [= <-].
  - exists st, r. exact Hr.
Defined.

(** A stream on a channel with an entry, whose reader is at the entry. *)
Definition st2 : session :=
  match VaultSession st0 (turns [req_append 1; req_open 2 StreamMode_FromGenesis]) with
  | Ok (st, _) => st
  | _ => st0
  end.

Lemma st2_run : ∃ r, VaultSession st0 (turns [req_append 1; req_open 2 StreamMode_FromGenesis]) = Ok (st2, r).
Proof.
  assert (∃ p, VaultSession st0 (turns [req_append 1; req_open 2 StreamMode_FromGenesis]) = Ok p) as [[st r] Hp]
    by (apply ok_of_bool; vm_compute; reflexivity).
  exists r. unfold st2. by rewrite Hp.
Qed.

Lemma st2_ok : session_ok st2.
Proof.
  destruct st2_run as [r Hr].
  exact (session_invariant (str "conn") s0 _ st2 r (proj1 s0_ok) (proj2 s0_ok) Hr).
Qed.

(** The reader that [Subscribe] started, and what it does with the options of
    a second request. *)
Definition first_opts : StreamOpts := default (mkStreamOpts None 0 0) (newStreamOpts (FeedReq.OpenFeed (req_open 2 StreamMode_FromGenesis))).
Definition reopened : FeedReq.t := req_open 3 StreamMode_AfterHead.
Definition first_reader : reader := read_start (db (v_db st2)) (new_channel (T:=Stream) cid) (Some first_opts).
Definition takes_reset : bool :=
  match read_step (db (v_db st2)) (new_channel (T:=Stream) cid) (EvReset (newStreamOpts (FeedReq.OpenFeed reopened)))
          first_reader with
  | Some _ => count first_reader <? max first_reader
  | None => false
  end.

Lemma st2_subscribed : ∃ c sub,
  channels (v_db st2) !! cid = Some c ∧ subscribers c !! conn_id (conn st2) = Some sub
  ∧ ptr (target sub) ∉ cancelled (conn st2) ∧ (ptr (target sub) < next_ptr (conn st2))%nat.
Proof.
  assert (match channels (v_db st2) !! cid with
    | Some c => match subscribers c !! conn_id (conn st2) with
                | Some sub => bool_decide (ptr (target sub) ∉ cancelled (conn st2))
                                && (ptr (target sub) <? next_ptr (conn st2))%nat
                | None => false
                end
    | None => false
    end = true) as Hb by (vm_compute; reflexivity).
  destruct (channels (v_db st2) !! cid) as [c|]; [|discriminate Hb].
  destruct (subscribers c !! conn_id (conn st2)) as [sub|] eqn:Hs; [|discriminate Hb].
  apply andb_true_iff in Hb as [Hn%bool_decide_eq_true Hp%Nat.ltb_lt]. exists c, sub.
  split; [reflexivity|]. split; [exact Hs|]. split; [exact Hn|exact Hp].
Qed.

Lemma reopen_keeps_first_witness :
  takes_reset = true ∧
  ∃ st' msg, VaultSession st2 (turns [reopened]) = Ok (send msg st', Looping) ∧ Msg.ReqID msg = 3 ∧ v_db st' = v_db st2.
Proof.
  split; [vm_compute; reflexivity|]. destruct st2_subscribed as (c & sub & Hc & Hs & Hn & Hp).
  destruct (reopen_keeps_first st2 reopened t0 true [] (OpenFeedReq.mk uri StreamMode_AfterHead None 0 false) c sub)
    as (st' & msg & _ & Hr & _ & Hid & Hdb & _);
    [exact st2_ok|reflexivity|reflexivity|discriminate|exact Hc|exact Hs|exact Hn|exact Hp|].
  exists st', msg. split; [exact Hr|]. split; [exact Hid|exact Hdb].
Defined.
End ServerExamples.
