(* ===== verification/Vault.v ===== *)
(** The vault as a whole: [server/server.go] over [store/store.go], with all
    sessions and all channels at once.

    [Server.v] follows one session and sees what [Subscribe] sets going as a
    list; [Sync.v] follows the goroutines of one channel.  Here the sessions
    of the gRPC server ([client]s) and the goroutines of every registered
    channel ([systems]) run side by side on one database.  A step is a request
    a session handles ([dispatch] of [Server.v]), its response being sent, a
    session coming or going, an append by somebody else (the topic handlers of
    [p2p]), or a move of one channel's goroutines ([sync_step] of [Sync.v]).

    A request is one step: the registration of the channel, its transaction
    ([Race.v] says why that may be) or the locked part of [Subscribe].  The
    response is another: it has to wait until [Subscribe] has returned, that
    is, for a [Subscribe] that sends on [resetRx], until the reader takes the
    options ([held]), and entries may be sent before the
    response to the request that opened their stream. *)
From S2P Require Import Prelude Protos Helpers Badger Channel Store Reader Delivery Lts Sync Wakeup Server.

Section vault.
Context `{Badger} `{!ProtoCodec Msg.t} `{Sha256}.

(** A session: its [Connection], the requests handled with the responses made,
    oldest first, whether the last response is still to be sent, and whether
    [VaultSession] has returned. *)
Record client := mkClient {
  cl_conn : Connection;
  handled : list (FeedReq.t * Msg.t);
  replying : bool;
  gone : bool;
}.

Record vault := mkVault {
  vdb : DB;
  announces : bool;
  announced : list bytes;
  systems : gmap bytes (system (T:=Stream));
  clients : gmap UUID client;
}.

Definition set_systems (ss : gmap bytes (system (T:=Stream))) (v : vault) : vault :=
  mkVault (vdb v) (announces v) (announced v) ss (clients v).
Definition set_client (sid : UUID) (cl : client) (v : vault) : vault :=
  mkVault (vdb v) (announces v) (announced v) (systems v) (<[sid:=cl]> (clients v)).

(** What the channel with this id is to [Sync.v]. *)
Definition chan_of (cid : bytes) : Channel Stream := new_channel cid.

(** The [*Store] the handlers share. *)
Definition store_of (v : vault) : Store Stream :=
  mkStore (vdb v) (announces v) (announced v) (map_imap (λ cid s, Some (chan (chan_of cid) s)) (systems v)).

(** Every channel makes the move it is asked for, if all can. *)
Definition moved (move : bytes → system → option label) (cid : bytes) (s : system (T:=Stream)) : option system :=
  match move cid s with Some l => sync_step (chan_of cid) l s | None => Some s end.

Definition together (move : bytes → system → option label) (ss : gmap bytes (system (T:=Stream)))
  : option (gmap bytes (system (T:=Stream))) :=
  if decide (map_Forall (λ cid s, is_Some (moved move cid s)) ss)
  then Some (map_imap (moved move) ss) else None.

(** The systems of the channels of [s], the ones just registered included. *)
Definition register (s : Store Stream) (d : DB) (ss : gmap bytes (system (T:=Stream)))
  : gmap bytes (system (T:=Stream)) :=
  ss ∪ ((λ _, sys_init d) <$> channels s).

(** The channel whose entry a request appends, if it gets that far. *)
Definition appends (req : FeedReq.t) : option bytes :=
  if bool_decide (FeedReq.ReqOp req = ReqOp_AppendEntry ∨ FeedReq.ReqOp req = ReqOp_ChannelGenesis)
     && bool_decide (acceptable req)
  then Some (ChannelURItoChannelID (feed_uri req)) else None.

(** What a handled request, that left the connection [cn], does to a channel:
    its append, its subscription, or the end of a context. *)
Definition request_move (cn : Connection) (now : Time) (req : FeedReq.t) (cid : bytes) (s : system (T:=Stream))
  : option label :=
  match appends req with
  | Some cid' => Some (Commit (chan_of cid') now (FeedReq.NewEntry req))
  | None =>
      if decide (FeedReq.ReqOp req = ReqOp_OpenFeed) then
        let o := FeedReq.OpenFeed req in
        if decide (OpenFeedReq.GetFeedURI o ≠ [] ∧ ChannelURItoChannelID (OpenFeedReq.GetFeedURI o) = cid) then
          stream ← streams cn !! FeedReq.ReqID req;
          Some (Subscribed stream (newStreamOpts o))
        else None
      else if decide (FeedReq.ReqOp req = ReqOp_CancelReq) then
        sub ← subs s !! conn_id cn;
        if decide (ptr (target sub) ∈ cancelled cn) then Some (Cancel (conn_id cn)) else None
      else None
  end.

(** The messages a goroutine has passed to [target.Publish]. *)
Definition output (g : goroutine) : list Msg.t :=
  match g with Started _ => [] | Reading r => published r | Indexing r => ix_published r end.

(** A move of the channel is a turn of this subscriber's goroutine. *)
Definition mover (l : label (T:=Stream)) : option UUID :=
  match l with Turn id => Some id | _ => None end.

(** What the move published, and to which stream. *)
Definition deliveries (l : label) (s s' : system (T:=Stream)) : option (Stream * list Msg.t) :=
  id ← mover l;
  sub ← subs s !! id;
  g ← goroutines s !! id;
  g' ← goroutines s' !! id;
  Some (target sub, drop (length (output g)) (output g')).

Definition deliver (d : option (Stream * list Msg.t)) (v : vault) : vault :=
  match d with
  | Some (t, ms) =>
      match clients v !! s_conn t with
      | Some cl =>
          set_client (s_conn t)
            (mkClient (foldl (λ cn m, Stream_Publish t m cn) (cl_conn cl) ms) (handled cl) (replying cl) (gone cl)) v
      | None => v
      end
  | None => v
  end.

Inductive vlabel :=
  | Connected (sid : UUID)
  | Requested (sid : UUID) (now : Time) (req : FeedReq.t)
  | Replied (sid : UUID)
  | HungUp (sid : UUID)                         (* [VaultSession] returns *)
  | Written (cid : bytes) (now : Time) (entry : option Msg.t) (* a topic handler appends *)
  | Inside (cid : bytes) (l : label (T:=Stream)). (* the channel's goroutines *)

(** The session is in [Subscribe], sending on an old subscriber's [resetRx]. *)
Definition held (sid : UUID) (v : vault) : bool :=
  bool_decide (¬ map_Forall (λ _ s, fst <$> resetting s ≠ Some sid) (systems v)).

Definition own_move (l : label (T:=Stream)) : bool :=
  match l with Commit _ _ _ | Subscribed _ _ | Cancel _ => false | _ => true end.

Definition vault_step (l : vlabel) (v : vault) : option vault :=
  match l with
  | Connected sid =>
      match clients v !! sid with
      | Some _ => None
      | None => Some (set_client sid (mkClient (newConnection sid) [] false false) v)
      end
  | Requested sid now req =>
      cl ← clients v !! sid;
      if replying cl || gone cl then None
      else match dispatch (mkSession (store_of v) (cl_conn cl) []) now (Some req) with
           | Ok (st, r) =>
               ss ← together (request_move (conn st) now req) (register (v_db st) (vdb v) (systems v));
               Some (mkVault (db (v_db st)) (updateCh (v_db st)) (updates (v_db st)) ss
                       (<[sid := mkClient (conn st) (handled cl ++ [(req, response r)]) true false]> (clients v)))
           | _ => None
           end
  | Replied sid =>
      cl ← clients v !! sid;
      if replying cl && negb (held sid v) then
        p ← last (handled cl);
        Some (set_client sid (mkClient (Send p.2 (cl_conn cl)) (handled cl) false (gone cl)) v)
      else None
  | HungUp sid =>
      cl ← clients v !! sid;
      if replying cl || gone cl then None
      else
        ss ← together (λ _ s, if decide (sid ∈ dom (goroutines s)) then Some (Cancel sid) else None) (systems v);
        Some (set_client sid (mkClient (cl_conn cl) (handled cl) false true) (set_systems ss v))
  | Written cid now entry =>
      if decide (cid ∈ dom (systems v)) then
        ss ← together (λ _ _, Some (Commit (chan_of cid) now entry)) (systems v);
        Some (mkVault (Append (vdb v) (chan_of cid) now entry).1 (announces v) (announced v) ss (clients v))
      else None
  | Inside cid l =>
      if own_move l then
        s ← systems v !! cid;
        s' ← sync_step (chan_of cid) l s;
        Some (deliver (deliveries l s s') (set_systems (<[cid:=s']> (systems v)) v))
      else None
  end.

(** A vault that has just been started on a database. *)
Definition vault_init (d : DB) (HasDiscovery : bool) : vault := mkVault d HasDiscovery [] ∅ ∅.

(** The moves of the vault's own goroutines. *)
Definition inside (l : vlabel) : Prop :=
  match l with Inside _ _ | Replied _ => True | _ => False end.
End vault.

(* ------------------------------------------------------------------ *)
(** * Invariant *)

Section invariant.
Context `{BadgerReliable} `{!ProtoCodec Msg.t} `{!ProtoLaws Msg.t} `{Sha256}.
(** for what holds only of entries committed under a watch, see [sys_inv] *)
Context (strict : Prop).
Implicit Types (v : vault) (d : DB) (st : session) (s : system (T:=Stream)) (cl : client) (cls : gmap UUID client)
  (req : FeedReq.t) (lb : label (T:=Stream)) (cid : bytes)
  (move : bytes → system (T:=Stream) → option (label (T:=Stream))).

(** What the readers of a channel have published has been sent to their
    clients, in order, under the request ids of their streams. *)
Definition heard cls s : Prop :=
  ∀ id g sub, goroutines s !! id = Some g → subs s !! id = Some sub →
    ∃ cl, cls !! id = Some cl ∧
      (Msg.set_ReqID (s_id (target sub)) <$> output g) `sublist_of` sent (cl_conn cl).

Definition targets_ok s : Prop := map_Forall (λ id sub, s_conn (target sub) = id) (subs s).

Definition system_ok (d : DB) cls (cid : bytes) s : Prop :=
  length cid = 32%nat ∧ sys_db s = d ∧ sys_inv strict (chan_of cid) s ∧ targets_ok s ∧ heard cls s.

Definition client_ok (sid : UUID) cl : Prop :=
  conn_id (cl_conn cl) = sid ∧ conn_ok (cl_conn cl) ∧ (replying cl = true → handled cl ≠ []).

Definition vault_ok v : Prop :=
  (∀ cid, length cid = 32%nat → index_ok (chan_of cid) (contents (vdb v)))
  ∧ map_Forall (system_ok (vdb v) (clients v)) (systems v)
  ∧ map_Forall client_ok (clients v).

(** An entry of the channel may be committed: its watch is on, or nobody
    reads it yet. *)
Definition watched (cid : bytes) v : Prop :=
  ∀ s, systems v !! cid = Some s → watching s = true ∨ unread s.

(** A request for a stream: its limit is an [int32], and its mode is not
    [DontStream], which ends the process, see [open_dont_stream_panics]. *)
Definition request_ok req : Prop :=
  FeedReq.ReqOp req = ReqOp_OpenFeed → ∀ o, FeedReq.OpenFeed req = Some o →
    - 2 ^ 31 ≤ OpenFeedReq.MaxEntriesToSend o < 2 ^ 31 ∧ OpenFeedReq.StreamMode o ≠ StreamMode_DontStream.

(** The clock is one, and requests are such. *)
Definition sound (l : vlabel) : Prop :=
  match l with
  | Requested _ now req => time_ok now ∧ request_ok req
  | Written _ now _ => time_ok now
  | _ => True
  end.

(** The entry a step adds, if any, is of a channel whose watch is on, or that
    nobody reads yet. *)
Definition under_watch v (l : vlabel) : Prop :=
  match l with
  | Requested _ _ req => ∀ cid, appends req = Some cid → watched cid v
  | Written cid _ _ => watched cid v
  | _ => True
  end.

Definition vlabel_ok v (l : vlabel) : Prop := sound l ∧ (strict → under_watch v l).

(** ** Moving together *)

Lemma chan_of_ok cid : length cid = 32%nat → channel_ok (chan_of cid).
Proof. apply new_channel_ok. Qed.

Lemma together_lookup move (ss ss' : gmap bytes (system (T:=Stream))) cid :
  together move ss = Some ss' → ss' !! cid = ss !! cid ≫= moved move cid.
Proof. unfold together. case_decide; [|done]. intros [= <-]. apply map_lookup_imap. Qed.

Lemma together_Some move (ss ss' : gmap bytes (system (T:=Stream))) cid s :
  together move ss = Some ss' → ss !! cid = Some s → ∃ s', moved move cid s = Some s' ∧ ss' !! cid = Some s'.
Proof.
  intros Ht Hs. pose proof (together_lookup _ _ _ cid Ht) as Hl. rewrite Hs in Hl. simpl in Hl. rewrite Hl.
  unfold together in Ht. case_decide as Hall; [|done]. destruct (Hall cid s Hs) as [s' Hm]. eauto.
Qed.

Lemma together_inv move (ss ss' : gmap bytes (system (T:=Stream))) cid s' :
  together move ss = Some ss' → ss' !! cid = Some s' → ∃ s, ss !! cid = Some s ∧ moved move cid s = Some s'.
Proof.
  intros Ht Hs'. rewrite (together_lookup _ _ _ cid Ht) in Hs'. by apply bind_Some in Hs'.
Qed.

Lemma together_all move (ss : gmap bytes (system (T:=Stream))) :
  map_Forall (λ cid s, is_Some (moved move cid s)) ss → ∃ ss', together move ss = Some ss'.
Proof. intros Hall. unfold together. rewrite decide_True by done. eauto. Qed.

(** ** What a move publishes *)

Lemma begin_iterate_published d (c : Channel Stream) r : published (begin_iterate d c r) = published r.
Proof. unfold begin_iterate. by destruct (NewTransaction d false). Qed.

Lemma after_iterate_published d (c : Channel Stream) r : published (after_iterate d c r) = published r.
Proof. unfold after_iterate. repeat case_match; try done. apply begin_iterate_published. Qed.

Lemma read_step_published d (c : Channel Stream) ev r r' :
  read_step d c ev r = Some r' →
  published r `prefix_of` published r' ∧ (ev ≠ EvDefault → published r' = published r).
Proof.
  pose proof (after_iterate_published d c r) as Ha. unfold read_step.
  assert (∀ x, published x = published r →
    published r `prefix_of` published x ∧ (ev ≠ EvDefault → published x = published r)) as Hsame
    by (intros x ->; done).
  destruct (pos r) as [it| |e|]; [|destruct ev; intros [= <-]; apply Hsame; (done || apply begin_iterate_published)|done..].
  intros [= <-]. case_match; [by apply Hsame|]. destruct ev as [| |o|]; [by apply Hsame..| |].
  - apply Hsame. unfold read_reset. destruct o as [o|]; [|done].
    destruct (if fromHead o then _ else _) as [o'|e|]; [|done..]. by rewrite after_iterate_published.
  - split; [|by intros []]. unfold read_item. case_match; [by rewrite Ha|]. case_match; [done|].
    case_match; try done. simpl. by apply prefix_app_r.
Qed.

Lemma index_step_published (c : Channel Stream) ev r r' :
  index_step c ev r = Some r' →
  ix_published r `prefix_of` ix_published r' ∧ (ev ≠ EvDefault → ix_published r' = ix_published r).
Proof.
  unfold index_step. destruct (ix_pos r) as [txn it|e|]; [|done..]. intros Hs.
  repeat case_match; simplify_eq; simpl; split; try done; by apply prefix_app_r.
Qed.

Lemma read_start_published d (c : Channel Stream) o : published (read_start d c o) = [].
Proof.
  unfold read_start. destruct o as [o|]; [|done]. case_match; [|done..]. apply begin_iterate_published.
Qed.

Lemma turn_output d (c : Channel Stream) ev g g' :
  Sync.turn c d ev g = Some g' →
  output g `prefix_of` output g' ∧ (is_started g = true ∨ ev ≠ EvDefault → output g' = output g).
Proof.
  destruct g as [o|r|r]; cbn [Sync.turn].
  - intros [= <-]. split; [apply prefix_nil|]. intros _.
    destruct (fromIndex o); [|exact (read_start_published d c (Some o))]. simpl. unfold index_start. by case_match.
  - destruct (read_step d c ev r) as [r'|] eqn:Hr; [|done]. intros [= <-]. simpl.
    apply read_step_published in Hr as [? ?]. split; [done|]. by intros [?|?]; [|auto].
  - destruct (index_step c ev r) as [r'|] eqn:Hr; [|done]. intros [= <-]. simpl.
    apply index_step_published in Hr as [? ?]. split; [done|]. by intros [?|?]; [|auto].
Qed.

Lemma offer_output d (c : Channel Stream) ev g g' :
  ev ≠ EvDefault → offer c d ev g = Some g' → output g' = output g.
Proof.
  intros Hev. destruct g as [o|r|r]; [done| |].
  - intros (r' & -> & Hr & _)%offer_reading. simpl. by apply read_step_published in Hr as [_ ->].
  - simpl. case_match; [done|]. destruct (index_step c ev r) as [r'|] eqn:Hr; [|done]. intros [= <-]. simpl.
    by apply index_step_published in Hr as [_ ->].
Qed.

(** A goroutine after a move: as it was but for what its own turn published,
    or one that [Subscribe] has just started. *)
Lemma trans_output (c : Channel Stream) s lb s' id g' sub' :
  sys_wf s → trans c s lb s' → goroutines s' !! id = Some g' → subs s' !! id = Some sub' →
  (∃ g, goroutines s !! id = Some g ∧ subs s !! id = Some sub' ∧ output g `prefix_of` output g'
        ∧ (mover lb ≠ Some id → output g' = output g))
  ∨ (∃ t o, lb = Subscribed t o ∧ id = s_conn t ∧ sub' = mkSubscriber id t ∧ output g' = []).
Proof.
  intros Hwf Htr Hg' Hsub'.
  assert (∀ i g0 g1, goroutines s !! i = Some g0 → output g0 `prefix_of` output g1 →
    (mover lb ≠ Some i → output g1 = output g0) → <[i:=g1]> (goroutines s) !! id = Some g' →
    subs s !! id = Some sub' →
    ∃ g, goroutines s !! id = Some g ∧ subs s !! id = Some sub' ∧ output g `prefix_of` output g'
      ∧ (mover lb ≠ Some id → output g' = output g)) as Hset.
  { intros i g0 g1 Hg0 Hp Heq. rewrite lookup_insert_Some. intros [[<- <-]|[_ Hl]] Hs; eauto 6. }
  destruct Htr as [ |n ids Hn|i ids g g1 Hw Hg Ho|Hw|t o sub Hw Hr Hsub|t o Hw Hr Hsub|i o g g1 Hr Hg Ho
    |i o g1 Hg Ht|i g g1 Hg Hs _ Ht|i Hg|i g g1 Hg Hs Hc Ht|i g Hg Hf Hw Hr|]; simpl in Hg', Hsub';
    try (left; eauto 6; fail).
  - left. apply offer_output in Ho; [|done]. by apply (Hset i g g1); rewrite ?Ho.
  - rewrite lookup_insert_Some in Hg'. destruct Hg' as [[<- <-]|[Hne Hl]].
    + right. rewrite lookup_insert_eq in Hsub'. injection Hsub' as <-. by exists t, (Some o).
    + left. rewrite lookup_insert_ne in Hsub' by done. eauto 6.
  - left. apply offer_output in Ho; [|done]. by apply (Hset i g g1); rewrite ?Ho.
  - left. apply turn_output in Ht as [? Ht]. apply (Hset i (Started o) g1); auto.
  - left. apply turn_output in Ht as [? Ht]. apply (Hset i g g1); try done; by intros [].
  - left. apply turn_output in Ht as [? Ht]. apply (Hset i g g1); try done; intros _; apply Ht; by right.
  - rewrite lookup_delete_Some in Hg'. rewrite lookup_delete_Some in Hsub'. left. naive_solver.
Qed.

Lemma trans_targets (c : Channel Stream) s lb s' : trans c s lb s' → targets_ok s → targets_ok s'.
Proof.
  destruct 1; intros Ht; try done; [by apply map_Forall_insert_2|by apply map_Forall_delete].
Qed.

(** Clients stay, and what was sent to them. *)
Definition grown cls cls' : Prop :=
  ∀ id cl, cls !! id = Some cl →
    ∃ cl', cls' !! id = Some cl' ∧ sent (cl_conn cl) `prefix_of` sent (cl_conn cl').

Lemma grown_refl cls : grown cls cls.
Proof. intros id cl Hcl. eauto. Qed.

Lemma grown_insert cls id cl' :
  (∀ cl, cls !! id = Some cl → sent (cl_conn cl) `prefix_of` sent (cl_conn cl')) → grown cls (<[id:=cl']> cls).
Proof.
  intros Hs i cl Hcl. destruct (decide (id = i)) as [<-|Hne].
  - rewrite lookup_insert_eq. eauto.
  - rewrite lookup_insert_ne by done. eauto.
Qed.

Lemma sublist_prefix {A} (l k k' : list A) : l `sublist_of` k → k `prefix_of` k' → l `sublist_of` k'.
Proof. intros Hl [x ->]. by apply sublist_inserts_r. Qed.

Lemma heard_grown cls cls' s : grown cls cls' → heard cls s → heard cls' s.
Proof.
  intros Hg Hh id g sub Hgo Hsub. destruct (Hh id g sub Hgo Hsub) as (cl & Hcl & Hl).
  destruct (Hg id cl Hcl) as (cl' & Hcl' & Hp). exists cl'. split; [done|]. by eapply sublist_prefix.
Qed.

(** A move that publishes nothing. *)
Lemma heard_step (c : Channel Stream) cls cls' s lb s' :
  sys_wf s → trans c s lb s' → mover lb = None → grown cls cls' →
  (∀ t o, lb = Subscribed t o → is_Some (cls' !! s_conn t)) → heard cls s → heard cls' s'.
Proof.
  intros Hwf Htr Hm Hg Hsub Hh. apply (heard_grown _ _ _ Hg) in Hh. intros id g sub Hgo Hs.
  destruct (trans_output c s lb s' id g sub Hwf Htr Hgo Hs) as [(g0 & Hgo0 & Hs0 & _ & Ho)|(t & o & Hlb & -> & -> & ->)].
  - rewrite Ho by by rewrite Hm. by apply Hh.
  - destruct (Hsub t o Hlb) as [cl Hcl]. exists cl. split; [done|]. simpl. apply sublist_nil_l.
Qed.

Lemma publish_all (t : Stream) ms cn :
  sent (foldl (λ cn m, Stream_Publish t m cn) cn ms) = sent cn ++ (Msg.set_ReqID (s_id t) <$> ms)
  ∧ conn_id (foldl (λ cn m, Stream_Publish t m cn) cn ms) = conn_id cn
  ∧ (conn_ok cn → conn_ok (foldl (λ cn m, Stream_Publish t m cn) cn ms)).
Proof.
  revert cn. induction ms as [|m ms IH]; intros cn; simpl; [by rewrite app_nil_r|].
  destruct (IH (Stream_Publish t m cn)) as (-> & -> & Hok). split_and!; [|done|by intros ?; apply Hok].
  simpl. by rewrite <-app_assoc.
Qed.

Lemma deliver_frame x v :
  systems (deliver x v) = systems v ∧ vdb (deliver x v) = vdb v ∧ announces (deliver x v) = announces v
  ∧ announced (deliver x v) = announced v ∧ grown (clients v) (clients (deliver x v)).
Proof.
  unfold deliver. destruct x as [[t ms]|]; [|split_and!; (done || apply grown_refl)].
  destruct (clients v !! s_conn t) as [cl|] eqn:Hcl; [|split_and!; (done || apply grown_refl)].
  split_and!; try done. apply grown_insert. intros cl0 Hcl0. simplify_eq. simpl.
  rewrite (proj1 (publish_all t ms _)). by apply prefix_app_r.
Qed.

Lemma deliver_ok x v : map_Forall client_ok (clients v) → map_Forall client_ok (clients (deliver x v)).
Proof.
  intros Hcls. unfold deliver. destruct x as [[t ms]|]; [|done].
  destruct (clients v !! s_conn t) as [cl|] eqn:Hcl; [|done]. apply map_Forall_insert_2; [|done].
  destruct (Hcls _ _ Hcl) as (Hid & Hok & Hh). unfold client_ok. simpl.
  destruct (publish_all t ms (cl_conn cl)) as (_ & -> & Hok'). auto.
Qed.

(** What a turn publishes is delivered. *)
Lemma heard_turn (c : Channel Stream) v s lb s' :
  sys_wf s → targets_ok s → trans c s lb s' → own_move lb = true → heard (clients v) s →
  heard (clients (deliver (deliveries lb s s') v)) s'.
Proof.
  intros Hwf Ht Htr Hown Hh. destruct (mover lb) as [i|] eqn:Hm.
  2: { eapply heard_step; [done..|apply deliver_frame| |done]. by intros t o ->. }
  intros id g sub Hgo Hs. pose proof (heard_grown _ _ _ (proj2 (proj2 (proj2 (proj2 (deliver_frame (deliveries lb s s') v))))) Hh) as Hh'.
  destruct (trans_output c s lb s' id g sub Hwf Htr Hgo Hs) as [(g0 & Hgo0 & Hs0 & Hp & Ho)|(t & o & -> & _)]; [|done].
  destruct (decide (i = id)) as [->|Hne].
  2: { rewrite Ho by congruence. by apply Hh'. }
  destruct (Hh id g0 sub Hgo0 Hs0) as (cl & Hcl & Hl).
  unfold deliveries. rewrite Hm. simpl. rewrite Hs0. simpl. rewrite Hgo0. simpl. rewrite Hgo. simpl.
  rewrite (Ht id sub Hs0), Hcl. simpl. rewrite lookup_insert_eq. eexists. split; [done|]. simpl.
  rewrite (proj1 (publish_all _ _ _)). destruct Hp as [ms ->]. rewrite drop_app_length, fmap_app.
  by apply sublist_app.
Qed.

(** A channel's move, as part of a step of the vault. *)
Lemma system_ok_step d d' cls cls' cid s lb s' :
  system_ok d cls cid s → sync_step (chan_of cid) lb s = Some s' → label_ok strict (chan_of cid) s lb →
  sys_db s' = d' → (∀ t o, lb = Subscribed t o → is_Some (cls' !! s_conn t)) →
  mover lb = None → grown cls cls' → system_ok d' cls' cid s'.
Proof.
  intros (Hl & Hd & Hinv & Ht & Hh) Hstep Hlb Hd' Hsub Hm Hg. pose proof Hstep as Htr%sync_step_trans.
  split; [done|]. split; [done|]. split; [|split].
  - eapply step_inv; [by apply chan_of_ok|exact Hinv|exact Hlb|exact Hstep].
  - by eapply trans_targets.
  - eapply heard_step; [apply Hinv|exact Htr|done..].
Qed.

Lemma system_ok_grown d cls cls' cid s : grown cls cls' → system_ok d cls cid s → system_ok d cls' cid s.
Proof. intros Hg (? & ? & ? & ? & ?). split_and!; try done. by eapply heard_grown. Qed.

(** ** Steps *)

Lemma store_of_channels v cid :
  channels (store_of v) !! cid = chan (chan_of cid) <$> systems v !! cid.
Proof. simpl. rewrite map_lookup_imap. by destruct (systems v !! cid). Qed.

Lemma vault_session_ok v sid cl :
  vault_ok v → clients v !! sid = Some cl → session_ok (mkSession (store_of v) (cl_conn cl) []).
Proof.
  intros (_ & Hss & Hcls) Hcl. split_and!; [| |by apply (Hcls _ _ Hcl)].
  - intros cid c. simpl. rewrite map_lookup_imap. intros (s & Hs & [= <-])%bind_Some.
    destruct (Hss _ _ Hs) as (Hl & _). destruct (chan_of_ok cid Hl). by split_and!.
  - intros cid c. simpl. rewrite map_lookup_imap. intros (s & Hs & [= <-])%bind_Some.
    destruct (Hss _ _ Hs) as (_ & _ & ((_ & Hid & _) & _) & Ht & _). simpl. intros id sub Hsub.
    split; [by apply Hid|by apply Ht].
Qed.

(** What a handled request has done, in terms of its move. *)
Inductive dispatched (st : session) now req (st' : session) : Prop :=
  | dispatched_append cid :
      appends req = Some cid → length cid = 32%nat →
      v_db st' = set_db (Append (db (v_db st)) (chan_of cid) now (FeedReq.NewEntry req)).1
                   (Store_Channel (v_db st) cid).1 →
      conn st' = conn st → dispatched st now req st'
  | dispatched_open o (s : Store Stream) (c : Channel Stream) (t : Stream) :
      appends req = None → FeedReq.ReqOp req = ReqOp_OpenFeed → FeedReq.OpenFeed req = Some o →
      OpenFeedReq.FeedURI o ≠ [] →
      Store_Channel (v_db st) (ChannelURItoChannelID (OpenFeedReq.FeedURI o)) = (s, Ok c) →
      (subscribers c !! conn_id (conn st) = None → newStreamOpts (Some o) ≠ None) →
      v_db st' = put_channel (Subscribe c t (newStreamOpts (Some o))).1 s →
      s_conn t = conn_id (conn st) → streams (conn st') !! FeedReq.ReqID req = Some t →
      conn_id (conn st') = conn_id (conn st) → sent (conn st') = sent (conn st) →
      dispatched st now req st'
  | dispatched_close :
      appends req = None → FeedReq.ReqOp req = ReqOp_CancelReq → v_db st' = v_db st →
      conn_id (conn st') = conn_id (conn st) → sent (conn st') = sent (conn st) →
      dispatched st now req st'
  | dispatched_none :
      appends req = None → FeedReq.ReqOp req ≠ ReqOp_CancelReq →
      (FeedReq.ReqOp req = ReqOp_OpenFeed → OpenFeedReq.GetFeedURI (FeedReq.OpenFeed req) = []) →
      v_db st' = v_db st → conn st' = conn st → dispatched st now req st'.

Lemma append_dispatched st now req st' msg :
  session_ok st → FeedReq.ReqOp req = ReqOp_AppendEntry ∨ FeedReq.ReqOp req = ReqOp_ChannelGenesis →
  (p ← append st now (Some req); Ok (responds p)) = Ok (st', msg) → dispatched st now req st'.
Proof.
  intros Hst Hop (m & _ & Hr)%append_responds. revert Hr. assert (appends req = if decide (acceptable req)
    then Some (ChannelURItoChannelID (feed_uri req)) else None) as Hap.
  { unfold appends. rewrite (bool_decide_true (_ ∨ _)) by done. simpl. by case_decide; case_bool_decide. }
  case_decide as Ha.
  2: { rewrite append_unacceptable by done. intros [= <- <-]. eapply dispatched_none; try done.
    - by destruct Hop as [-> | ->].
    - by destruct Hop as [-> | ->]. }
  pose proof (channelID_length (feed_uri req)) as Hl.
  destruct (append_acceptable st now req Hst Ha) as (s & c & _ & Hc & Hid & _ & Hsc & ->).
  rewrite (Append_same c (chan_of (ChannelURItoChannelID (feed_uri req)))) by (done || by apply chan_of_ok).
  rewrite Hid in Hsc. intros Hr. eapply dispatched_append; [done..| |]; rewrite ?Hsc;
    destruct (Append _ _ _ _) as [d [k|e|]]; by simplify_eq.
Qed.

Lemma open_dispatched st now req st' msg :
  session_ok st → FeedReq.ReqOp req = ReqOp_OpenFeed →
  open st (Some req) = Ok (st', msg) → dispatched st now req st'.
Proof.
  intros (Hs & Hsub & _) Hop. assert (appends req = None) as Hap
    by (unfold appends; by rewrite bool_decide_false by (rewrite Hop; by intros [|])).
  unfold open. change (FeedReq.GetOpenFeed (Some req)) with (FeedReq.OpenFeed req).
  destruct (FeedReq.OpenFeed req) as [o|] eqn:Ho.
  2: { intros [= <- <-]. apply dispatched_none; try done; [by rewrite Hop|by rewrite Ho]. }
  rewrite decide_False by done. change (OpenFeedReq.GetFeedURI (Some o)) with (OpenFeedReq.FeedURI o).
  case_decide as Hu.
  { intros [= <- <-]. apply dispatched_none; try done; [by rewrite Hop|by rewrite Ho]. }
  destruct (Store_Channel_ok (v_db st) _ Hs Hsub (channelID_length (OpenFeedReq.FeedURI o)))
    as (s & c & Hsc & _). rewrite Hsc.
  set (t := mkStream (next_ptr (conn st)) (conn_id (conn st)) (FeedReq.ReqID req)).
  intros Hr. apply (dispatched_open st now req st' o s c t); try done; revert Hr; cbv beta iota zeta;
    unfold Subscribe; change (target_ID _) with (conn_id (conn st));
    destruct (subscribers c !! conn_id (conn st)); try (destruct (newStreamOpts (Some o)) as [so|]; [|done]);
    try (destruct (fromIndex so)); intros Hr%(inj Ok); simplify_eq/=; try done; by rewrite lookup_insert_eq.
Qed.

Lemma dispatch_dispatched st now req st' msg :
  session_ok st → dispatch st now (Some req) = Ok (st', msg) → dispatched st now req st'.
Proof.
  intros Hst. unfold dispatch, new. change (FeedReq.GetReqOp (Some req)) with (FeedReq.ReqOp req).
  destruct (Z.eqb_spec (FeedReq.ReqOp req) ReqOp_ChannelGenesis) as [Hg|Hg].
  { apply append_dispatched; [done|by right]. }
  destruct (Z.eqb_spec (FeedReq.ReqOp req) ReqOp_OpenFeed) as [Ho|Ho]; [by apply open_dispatched|].
  destruct (Z.eqb_spec (FeedReq.ReqOp req) ReqOp_CancelReq) as [Hc|Hc].
  { intros [= <- _]. apply dispatched_close; simpl; try done; [|by case_match..].
    unfold appends. by rewrite bool_decide_false by (rewrite Hc; by intros [|]). }
  destruct (Z.eqb_spec (FeedReq.ReqOp req) ReqOp_AppendEntry) as [Ha|Ha].
  { apply append_dispatched; [done|by left]. }
  intros [= <- _]. apply dispatched_none; try done.
  unfold appends. rewrite bool_decide_false; [done|]. by intros [|].
Qed.

Lemma newStreamOpts_opts_ok (o : OpenFeedReq.t) so :
  - 2 ^ 31 ≤ OpenFeedReq.MaxEntriesToSend o < 2 ^ 31 → newStreamOpts (Some o) = Some so → opts_ok so.
Proof.
  intros Hm. unfold newStreamOpts. change (OpenFeedReq.GetMaxEntriesToSend (Some o)) with (OpenFeedReq.MaxEntriesToSend o).
  set (mx := if _ <=? 0 then Tail else _).
  assert (0 ≤ mx ≤ Tail) as Hmx.
  { unfold mx, Tail, to_u64. destruct (OpenFeedReq.MaxEntriesToSend o >=? 0) eqn:Hge; simpl; [|lia].
    rewrite Z.geb_leb, Z.leb_le in Hge. rewrite Z.mod_small by lia. case_match; lia. }
  clearbody mx. intros Hso. repeat case_match; simplify_eq; exact Hmx.
Qed.

Lemma newStreamOpts_None (o : OpenFeedReq.t) :
  OpenFeedReq.StreamMode o ≠ StreamMode_DontStream → ∃ so, newStreamOpts (Some o) = Some so.
Proof.
  intros Hm. unfold newStreamOpts. change (OpenFeedReq.GetStreamMode (Some o)) with (OpenFeedReq.StreamMode o).
  rewrite (proj2 (Z.eqb_neq _ _)) by done. cbv zeta. repeat case_match; eauto.
Qed.

Lemma together_ok d d' cls cls' move ss ss' :
  together move ss = Some ss' → map_Forall (system_ok d cls) ss → grown cls cls' →
  (∀ cid s, ss !! cid = Some s → match move cid s with
    | Some lb => label_ok strict (chan_of cid) s lb ∧ mover lb = None
        ∧ (∀ t o, lb = Subscribed t o → is_Some (cls' !! s_conn t))
        ∧ ∀ s', sync_step (chan_of cid) lb s = Some s' → sys_db s' = d'
    | None => d' = d
    end) → map_Forall (system_ok d' cls') ss'.
Proof.
  intros Ht Hss Hg Hm cid s' Hs'. destruct (together_inv _ _ _ cid s' Ht Hs') as (s & Hs & Hmv).
  specialize (Hss cid s Hs). specialize (Hm cid s Hs). unfold moved in Hmv.
  destruct (move cid s) as [lb|].
  - destruct Hm as (Hlb & Hno & Hsub & Hd). eapply system_ok_step; eauto.
  - simplify_eq. by eapply system_ok_grown.
Qed.

Lemma register_lookup (sto : Store Stream) d (ss : gmap bytes (system (T:=Stream))) cid s :
  register sto d ss !! cid = Some s → ss !! cid = Some s ∨ (ss !! cid = None ∧ s = sys_init d ∧ is_Some (channels sto !! cid)).
Proof.
  unfold register. rewrite lookup_union_Some_raw, lookup_fmap, fmap_Some.
  intros [?|(? & c & Hc & ->)]; [by left|right]. eauto.
Qed.

(** The channels there are when a request moves them. *)
Lemma registered_ok v sid cl now req st msg :
  vault_ok v → clients v !! sid = Some cl →
  dispatch (mkSession (store_of v) (cl_conn cl) []) now (Some req) = Ok (st, msg) →
  map_Forall (system_ok (vdb v) (clients v)) (register (v_db st) (vdb v) (systems v)).
Proof.
  intros Hv Hcl Hd cid s [Hs|(_ & -> & [c Hc])]%register_lookup; [by apply Hv|].
  pose proof (vault_session_ok v sid cl Hv Hcl) as Hst. apply dispatch_inv in Hd as (Hso & _); [|done].
  destruct (Hso cid c Hc) as (Hid & (Hl & _) & _). rewrite Hid in Hl.
  split; [done|]. split; [done|]. split; [apply sys_init_inv; by apply Hv|].
  split; [apply map_Forall_empty|by intros ???].
Qed.

Lemma watched_registered v st cid s :
  watched cid v → register (v_db st) (vdb v) (systems v) !! cid = Some s → watching s = true ∨ unread s.
Proof. intros Hw [Hs|(_ & -> & _)]%register_lookup; [by apply Hw|]. right. apply map_Forall_empty. Qed.

Lemma commit_db c' now (entry : option Msg.t) cid s s' :
  sync_step (chan_of cid) (Commit c' now entry) s = Some s' → sys_db s' = (Append (sys_db s) c' now entry).1.
Proof. simpl. destruct (Append _ _ _ _) as [d r]. by intros [= <-]. Qed.

Lemma uncommitted_db (c : Channel Stream) lb s s' :
  sync_step c lb s = Some s' → (if lb is Commit _ _ _ then False else True) → sys_db s' = sys_db s.
Proof. by intros []%sync_step_trans. Qed.

(** The labels of a request are such that the channels stay in order. *)
Lemma request_moves v sid cl now req st msg cls' :
  vault_ok v → clients v !! sid = Some cl → vlabel_ok v (Requested sid now req) →
  dispatch (mkSession (store_of v) (cl_conn cl) []) now (Some req) = Ok (st, msg) →
  is_Some (cls' !! sid) → ∀ cid s, register (v_db st) (vdb v) (systems v) !! cid = Some s →
  match request_move (conn st) now req cid s with
  | Some lb => label_ok strict (chan_of cid) s lb ∧ mover lb = None
      ∧ (∀ t o, lb = Subscribed t o → is_Some (cls' !! s_conn t))
      ∧ ∀ s', sync_step (chan_of cid) lb s = Some s' → sys_db s' = db (v_db st)
  | None => db (v_db st) = vdb v
  end.
Proof.
  intros Hv Hcl [[Hn Hreq] Hw] Hd Hsid cid s Hs.
  pose proof (registered_ok v sid cl now req st msg Hv Hcl Hd cid s Hs) as (Hl & Hdb & _).
  pose proof (vault_session_ok v sid cl Hv Hcl) as Hst. unfold request_move.
  destruct (dispatch_dispatched _ _ _ _ _ Hst Hd) as [cid' Hap Hl' Hst' Hcn|o so c t Hap Hop Ho Hu Hsc Hnil Hst' Ht Hstr Hcn _
    |Hap Hop Hst' Hcn _|Hap Hop Hou Hst' Hcn]; rewrite Hap.
  - split; [|split; [done|split; [done|]]].
    + split; [by apply chan_of_ok|]. split; [done|]. intros Hstr.
      destruct (decide (cid' = cid)) as [->|Hne]; [|by right; right].
      destruct (watched_registered v st cid s (Hw Hstr _ Hap) Hs); tauto.
    + intros s' Hs'. rewrite (commit_db _ _ _ _ _ _ Hs'), Hst', Hdb. done.
  - assert (db (v_db st) = vdb v) as Hsame.
    { rewrite Hst'. simpl. apply (f_equal (λ p, db p.1)) in Hsc. simpl in Hsc. rewrite <-Hsc.
      unfold Store_Channel. by case_match. }
    rewrite decide_True, Ho by done. change (OpenFeedReq.GetFeedURI (Some o)) with (OpenFeedReq.FeedURI o).
    case_decide as Hc; [|done]. rewrite Hstr. simpl. destruct Hc as [_ <-].
    destruct (Hreq Hop o Ho) as [Hmax Hmode]. split; [|split; [done|split]].
    + destruct (newStreamOpts_None o Hmode) as [sopt Hsopt]. exists sopt. split; [done|].
      by eapply newStreamOpts_opts_ok.
    + intros t' o' [= <- _]. rewrite Ht. simpl. by destruct (proj2 (proj2 Hv) _ _ Hcl) as [-> _].
    + intros s' Hs'. rewrite Hsame, <-Hdb. by apply (uncommitted_db _ (Subscribed t (newStreamOpts (Some o))) _ _ Hs').
  - rewrite Hst'. rewrite decide_False by by rewrite Hop. rewrite decide_True by done.
    destruct (subs s !! conn_id (conn st)) as [sub|]; simpl; [|done]. case_decide; [|done].
    split; [done|]. split; [done|]. split; [done|].
    intros s' Hs'. rewrite <-Hdb. by apply (uncommitted_db _ (Cancel (conn_id (conn st))) _ _ Hs').
  - rewrite Hst'. case_decide as Hop'.
    + rewrite decide_False; [done|]. rewrite Hou by done. by intros [].
    + by rewrite decide_False by done.
Qed.

Lemma request_ok_step v sid now req v' :
  vault_ok v → vlabel_ok v (Requested sid now req) → vault_step (Requested sid now req) v = Some v' → vault_ok v'.
Proof.
  intros Hv Hlb. simpl. destruct (clients v !! sid) as [cl|] eqn:Hcl; [|done]. simpl.
  destruct (_ || _); [done|]. destruct (dispatch _ _ _) as [[st msg]|e|] eqn:Hd; [|done..].
  destruct (together _ _) as [ss|] eqn:Ht; [|done]. intros [= <-].
  pose proof (vault_session_ok v sid cl Hv Hcl) as Hst.
  pose proof (dispatch_inv _ _ _ _ _ Hst Hd) as (_ & _ & Hcn).
  pose proof (dispatch_response _ _ _ _ _ Hd) as [_ Hsent].
  assert (conn_id (conn st) = conn_id (cl_conn cl)) as Hid
    by (destruct (dispatch_dispatched _ _ _ _ _ Hst Hd); simpl in *; congruence).
  pose proof Hv as (Hix & _ & Hcls). destruct (Hcls _ _ Hcl) as [Hcid _].
  split; [|split]; simpl.
  - intros cid Hl. specialize (Hix cid Hl). destruct Hlb as [[Hn _] _].
    destruct (dispatch_dispatched _ _ _ _ _ Hst Hd) as [cid' Hap Hl' Hst' _|o so c t _ _ _ _ Hsc _ Hst' _ _ _ _
      |_ _ Hst' _ _|_ _ _ Hst' _]; rewrite Hst'; simpl; try done.
    + destruct (Append _ _ _ _) as [d r] eqn:Ha. simpl. eapply (Append_index _ (chan_of cid')); [..|exact Hix|exact Ha];
        try done; by apply chan_of_ok.
    + apply (f_equal (λ p, db p.1)) in Hsc. simpl in Hsc. rewrite <-Hsc. unfold Store_Channel. by case_match.
  - eapply (together_ok (vdb v) (db (v_db st)) (clients v)); [exact Ht|by eapply registered_ok|..].
    + apply grown_insert. intros cl0 Hcl0. simplify_eq. simpl. by rewrite Hsent.
    + eapply request_moves; [done..|]. by rewrite lookup_insert_eq.
  - apply map_Forall_insert_2; [|done]. split; [simpl; congruence|]. split; [done|]. simpl. intros _.
    by intros [_ ?]%app_nil.
Qed.

(** Steps that leave the database and the systems' goroutines as they are. *)
Lemma client_step v cls' :
  vault_ok v → grown (clients v) cls' → map_Forall client_ok cls' →
  vault_ok (mkVault (vdb v) (announces v) (announced v) (systems v) cls').
Proof.
  intros (Hix & Hss & _) Hg Hcls. split; [done|]. split; [|done].
  intros cid s Hs. by eapply system_ok_grown, Hss.
Qed.

Lemma written_ok_step v cid now entry v' :
  vault_ok v → vlabel_ok v (Written cid now entry) → vault_step (Written cid now entry) v = Some v' → vault_ok v'.
Proof.
  intros Hv [Hn Hw]. simpl. case_decide as Hin; [|done].
  destruct (together _ _) as [ss|] eqn:Ht; [|done]. intros [= <-]. pose proof Hv as (Hix & Hss & Hcls).
  apply elem_of_dom in Hin as [s0 Hs0]. destruct (Hss _ _ Hs0) as (Hl0 & _).
  split; [|split; [|done]]; simpl.
  - intros cid' Hl. specialize (Hix cid' Hl). destruct (Append _ _ _ _) as [d r] eqn:Ha. simpl.
    eapply (Append_index _ (chan_of cid)); [..|exact Hix|exact Ha]; try done; by apply chan_of_ok.
  - eapply (together_ok (vdb v) _ (clients v)); [exact Ht|done|apply grown_refl|].
    intros cid' s Hs. destruct (Hss _ _ Hs) as (Hl & Hdb & _). split; [|split; [done|split; [done|]]].
    + split; [by apply chan_of_ok|]. split; [done|]. intros Hst.
      destruct (decide (cid = cid')) as [<-|Hne]; [|by right; right]. destruct (Hw Hst _ Hs); tauto.
    + intros s' Hs'. by rewrite (commit_db _ _ _ _ _ _ Hs'), Hdb.
Qed.

Lemma inside_ok_step v cid lb v' : vault_ok v → vault_step (Inside cid lb) v = Some v' → vault_ok v'.
Proof.
  intros Hv. simpl. destruct (own_move lb) eqn:Hown; [|done].
  destruct (systems v !! cid) as [s|] eqn:Hs; [|done]. simpl.
  destruct (sync_step (chan_of cid) lb s) as [s'|] eqn:Hstep; [|done]. simpl. intros [= <-].
  set (v1 := set_systems _ v). destruct (deliver_frame (deliveries lb s s') v1) as (Hss' & Hd' & _ & _ & Hg).
  pose proof Hv as (Hix & Hss & Hcls). split; [|split].
  - rewrite Hd'. done.
  - rewrite Hd', Hss'. simpl. apply map_Forall_insert_2.
    + destruct (Hss _ _ Hs) as (Hl & Hdb & Hinv & Ht & Hh). pose proof Hstep as Htr%sync_step_trans.
      split; [done|]. split; [|split; [|split]].
      * rewrite <-Hdb. apply (uncommitted_db _ _ _ _ Hstep). by destruct lb.
      * eapply step_inv; [by apply chan_of_ok|exact Hinv| |exact Hstep]. by destruct lb.
      * by eapply trans_targets.
      * by eapply heard_turn; [apply Hinv|..].
    + intros i s0 Hs0. by eapply system_ok_grown, Hss.
  - by apply deliver_ok.
Qed.

Lemma vault_step_ok : preserved vault_step vlabel_ok vault_ok.
Proof.
  intros l v v' Hv Hlb Hstep. destruct l as [sid|sid now req|sid|sid|cid now entry|cid lb].
  - simpl in Hstep. destruct (clients v !! sid) as [cl|] eqn:Hcl; [done|]. injection Hstep as <-.
    apply client_step; [done|apply grown_insert; congruence|]. apply map_Forall_insert_2; [|apply Hv].
    split; [done|]. by split; [apply conn_ok_new|].
  - by eapply request_ok_step.
  - simpl in Hstep. destruct (clients v !! sid) as [cl|] eqn:Hcl; [|done]. simpl in Hstep.
    destruct (_ && _); [|done]. destruct (last _) as [[q m]|]; [|done]. injection Hstep as <-.
    pose proof Hv as (_ & _ & Hcls). apply client_step; [done|apply grown_insert|apply map_Forall_insert_2; [|done]].
    + intros cl0 Hcl0. simplify_eq. by apply prefix_app_r.
    + destruct (Hcls _ _ Hcl) as (? & ? & _). by split_and!.
  - simpl in Hstep. destruct (clients v !! sid) as [cl|] eqn:Hcl; [|done]. simpl in Hstep.
    destruct (_ || _); [done|]. destruct (together _ _) as [ss|] eqn:Ht; [|done]. injection Hstep as <-.
    pose proof Hv as (Hix & Hss & Hcls).
    assert (vault_ok (set_systems ss v)) as Hv1.
    { split; [done|]. split; [|done]. eapply (together_ok (vdb v) _ (clients v)); [exact Ht|done|apply grown_refl|].
      intros cid s Hs. cbv beta. destruct (decide _); [|done]. do 3 (split; [done|]). intros s' Hs'.
      rewrite (uncommitted_db _ (Cancel sid) _ _ Hs') by done. by apply (Hss _ _ Hs). }
    apply (client_step (set_systems ss v)); [done|apply grown_insert|apply map_Forall_insert_2; [|done]].
    + intros cl0 Hcl0. simpl in Hcl0. rewrite Hcl in Hcl0. by injection Hcl0 as <-.
    + destruct (Hcls _ _ Hcl) as (? & ? & _). by split_and!.
  - by eapply written_ok_step.
  - by eapply inside_ok_step.
Qed.

Lemma vault_init_ok d b : (∀ cid, length cid = 32%nat → index_ok (chan_of cid) (contents d)) → vault_ok (vault_init d b).
Proof. intros Hix. split; [done|]. split; apply map_Forall_empty. Qed.
End invariant.
