(* ===== verification/VaultSpec.v ===== *)
(** The vault as a whole: what it promises to its clients.

    Over the interleavings of [Vault.v]: every request takes effect at one
    moment on append-only feeds that all sessions share, and its answer is for
    what it did then; the server's handlers and the channels' goroutines agree
    on who is subscribed; the vault comes to rest after the last request; by
    then a new entry has been sent to the clients that follow its channel, if
    badger had been asked to report it; and a session that opens again a stream
    whose reader waits is never answered. *)
From S2P Require Import Prelude Protos Helpers Badger Channel Store Reader Delivery Lts Sync Wakeup Server Vault.

Section spec.
Context `{BadgerReliable} `{!ProtoCodec Msg.t} `{!ProtoLaws Msg.t} `{Sha256}.
Implicit Types (v : vault) (d : DB) (st : session) (s : system (T:=Stream)) (cl : client) (req : FeedReq.t)
  (lb : label (T:=Stream)) (l : vlabel) (ls : list vlabel) (cid : bytes) (sid : UUID) (F : AFeed).

(** ** The abstract vault: feeds, and who asked for what *)

(** An append that nobody answers for. *)
Definition feed_written F cid (entry : option Msg.t) : AFeed :=
  match entryID entry, entry with
  | Ok id, Some e => if Marshal e is Ok m then (feed_append F cid (fit 30 id) m).1 else F
  | _, _ => F
  end.

(** The requests of a schedule, in the order they are handled, and whether
    each adds its entry. *)
Fixpoint serve F ls : AFeed * list (UUID * FeedReq.t * bool) :=
  match ls with
  | [] => (F, [])
  | Requested sid _ req :: ls =>
      let (F, b) := feed_request F req in
      let (F, l) := serve F ls in (F, (sid, req, b) :: l)
  | Written cid _ entry :: ls => serve (feed_written F cid entry) ls
  | _ :: ls => serve F ls
  end.

(** What is asked by one session. *)
Definition asked sid (l : list (UUID * FeedReq.t * bool)) : list (UUID * FeedReq.t * bool) :=
  filter (λ a, a.1.1 = sid) l.

(** The answer is for that request and that effect. *)
Definition answered (a : UUID * FeedReq.t * bool) (p : FeedReq.t * Msg.t) : Prop :=
  p.1 = a.1.2 ∧ answers a.1.2 a.2 p.2.

Definition history v sid : list (FeedReq.t * Msg.t) := default [] (handled <$> clients v !! sid).

(** The responses that have been sent. *)
Definition replies cl : list Msg.t :=
  (if replying cl then removelast (handled cl) else handled cl).*2.

Definition replied v : Prop := map_Forall (λ _ cl, replies cl `sublist_of` sent (cl_conn cl)) (clients v).

(** The states of a vault started on a database whose arrival index is in
    order. *)
Definition vault_reachable v : Prop :=
  ∃ d b ls, (∀ cid, length cid = 32%nat → index_ok (chan_of cid) (contents d))
    ∧ Forall sound ls ∧ play vault_step ls (vault_init d b) = Some v.

(** Those in which no entry has been added to a channel that somebody read
    before badger was asked to report commits to it; such an entry is missed,
    see [unwatched_commit_missed]. *)
Definition watched_reachable v : Prop :=
  ∃ d b ls, (∀ cid, length cid = 32%nat → index_ok (chan_of cid) (contents d))
    ∧ allowed vault_step (λ v l, sound l ∧ under_watch v l) ls (vault_init d b)
    ∧ play vault_step ls (vault_init d b) = Some v.

Lemma any_step_ok : preserved vault_step (λ _, sound) (vault_ok False).
Proof. intros l v v' Hv Hl Hs. by eapply vault_step_ok; [exact Hv|split|exact Hs]. Qed.

Lemma vault_reachable_ok v : vault_reachable v → vault_ok False v.
Proof.
  intros (d & b & ls & Hix & Hls & Hp).
  eapply play_invariant; [apply any_step_ok|exact Hls|by apply vault_init_ok|exact Hp].
Qed.

Lemma watched_reachable_ok v : watched_reachable v → vault_ok True v.
Proof.
  intros (d & b & ls & Hix & Hls & Hp).
  eapply play_allowed; [|exact Hls|by apply vault_init_ok|exact Hp].
  intros l v0 v1 Hv [Hl Hw] Hs. by eapply vault_step_ok; [exact Hv|split|exact Hs].
Qed.

(** ** One step *)

Lemma feed_written_proper cid (entry : option Msg.t) F G :
  length cid = 32%nat → feed_equiv F G → feed_equiv (feed_written F cid entry) (feed_written G cid entry).
Proof.
  intros Hl HFG. unfold feed_written. destruct (entryID entry) as [id|x|], entry as [e|]; try done.
  destruct (Marshal e) as [m|x|]; [|done..]. by apply (feed_append_proper cid (fit 30 id) m Hl).
Qed.

Definition written_lengths ls : Prop :=
  Forall (λ l, if l is Written cid _ _ then length cid = 32%nat else True) ls.

Lemma serve_proper ls F G :
  written_lengths ls → feed_equiv F G → feed_equiv (serve F ls).1 (serve G ls).1 ∧ (serve F ls).2 = (serve G ls).2.
Proof.
  intros Hls. revert F G. induction Hls as [|l ls Hl _ IH]; intros F G HFG; [done|].
  destruct l as [sid|sid now req|sid|sid|cid now entry|cid lb]; try by apply IH.
  - simpl. destruct (feed_request_proper req F G HFG) as [HF Hb].
    destruct (feed_request F req) as [F1 b1], (feed_request G req) as [G1 b2]; simpl in HF, Hb. subst b2.
    destruct (IH F1 G1 HF) as [HF2 Hb2]. destruct (serve F1 ls), (serve G1 ls); simpl in *. by subst.
  - simpl. apply IH. by apply feed_written_proper.
Qed.

Lemma Append_written d cid now (entry : option Msg.t) :
  length cid = 32%nat → time_ok now →
  feed_equiv (feed (contents (Append d (chan_of cid) now entry).1)) (feed_written (feed (contents d)) cid entry).
Proof.
  intros Hl Hn. pose proof (chan_of_ok cid Hl) as Hc.
  destruct (Append_feed d (chan_of cid) now entry Hc Hn) as (d' & r & -> & Hr). simpl. unfold feed_written.
  destruct (entryID entry) as [id|x|]; [|by destruct Hr as [-> _]..].
  destruct entry as [e|]; [|by destruct Hr as [-> _]].
  destruct (Marshal e) as [m|x|]; [|by destruct Hr as [-> _]|done].
  change (c_id (chan_of cid)) with cid in Hr. destruct (feed_append _ cid _ m) as [F o]. by destruct Hr.
Qed.

Lemma history_insert v v' sid cl i :
  clients v' = <[sid:=cl]> (clients v) → history v' i = if decide (sid = i) then handled cl else history v i.
Proof. intros Heq. unfold history. rewrite Heq, lookup_insert. by case_decide. Qed.

Lemma deliver_history x v i : history (deliver x v) i = history v i.
Proof.
  unfold deliver. destruct x as [[t ms]|]; [|done]. destruct (clients v !! s_conn t) as [cl|] eqn:Hcl; [|done].
  erewrite history_insert by done. case_decide as Heq; [|done]. simpl. unfold history. by rewrite <-Heq, Hcl.
Qed.

(** A step is matched by the abstract vault's. *)
Lemma step_serves v l v' :
  vault_ok False v → sound l → vault_step l v = Some v' →
  written_lengths [l] ∧
  let (F, a) := serve (feed (contents (vdb v))) [l] in
  feed_equiv (feed (contents (vdb v'))) F ∧
  ∀ sid, ∃ new, history v' sid = history v sid ++ new ∧ Forall2 answered (asked sid a) new.
Proof.
  intros Hv Hlb Hstep.
  assert (∀ sid cl cl', clients v !! sid = Some cl → clients v' = <[sid:=cl']> (clients v) → handled cl' = handled cl →
    ∀ i, ∃ new, history v' i = history v i ++ new ∧ Forall2 answered (asked i []) new) as Hsame.
  { intros sid cl cl' Hcl Heq Hh i. exists []. rewrite app_nil_r. split; [|constructor].
    rewrite (history_insert v v' sid cl' i Heq). case_decide as Hi; [|done]. unfold history. by rewrite <-Hi, Hcl, Hh. }
  split.
  { destruct l as [ | | | |cid now entry| ]; repeat constructor. simpl in Hstep. case_decide as Hin; [|done].
    apply elem_of_dom in Hin as [s Hs]. by apply Hv in Hs as (? & _). }
  destruct l as [sid|sid now req|sid|sid|cid now entry|cid lb]; simpl in Hstep.
  - destruct (clients v !! sid) as [cl|] eqn:Hcl; [done|]. injection Hstep as <-. split; [done|].
    intros i. exists []. rewrite app_nil_r. split; [|constructor]. erewrite history_insert by done.
    case_decide as Hi; [|done]. unfold history. by rewrite <-Hi, Hcl.
  - destruct (clients v !! sid) as [cl|] eqn:Hcl; [|done]. simpl in Hstep.
    destruct (_ || _); [done|]. destruct (dispatch _ _ _) as [[st msg]|e|] eqn:Hd; [|done..].
    destruct (together _ _) as [ss|] eqn:Ht; [|done]. injection Hstep as <-.
    pose proof (dispatch_refines _ _ _ _ _ (vault_session_ok False v sid cl Hv Hcl) (proj1 Hlb) Hd) as Hr. simpl in Hr.
    simpl. destruct (feed_request _ req) as [F b]. destruct Hr as [HF Hans]. split; [done|].
    intros i. erewrite history_insert by done. unfold asked. rewrite filter_cons. simpl.
    destruct (decide (sid = i)) as [<-|Hne]; simpl.
    + exists [(req, response msg)]. unfold history. rewrite Hcl. split; [done|].
      constructor; [done|]. by rewrite filter_nil.
    + exists []. rewrite app_nil_r. by split; [|constructor].
  - destruct (clients v !! sid) as [cl|] eqn:Hcl; [|done]. simpl in Hstep.
    destruct (_ && _); [|done]. destruct (last _) as [p|]; [|done]. injection Hstep as <-.
    split; [done|]. by eapply Hsame.
  - destruct (clients v !! sid) as [cl|] eqn:Hcl; [|done]. simpl in Hstep.
    destruct (_ || _); [done|]. destruct (together _ _) as [ss|] eqn:Ht; [|done]. injection Hstep as <-.
    split; [done|]. by eapply Hsame.
  - case_decide as Hin; [|done]. destruct (together _ _) as [ss|] eqn:Ht; [|done]. injection Hstep as <-.
    apply elem_of_dom in Hin as [s Hs]. apply Hv in Hs as (Hl & _). split; [|intros i; exists []; by rewrite app_nil_r].
    by apply Append_written.
  - destruct (own_move lb); [|done]. destruct (systems v !! cid) as [s|]; [|done]. simpl in Hstep.
    destruct (sync_step _ lb s) as [s'|]; [|done]. injection Hstep as <-.
    destruct (deliver_frame (deliveries lb s s') (set_systems (<[cid:=s']> (systems v)) v)) as (_ & -> & _).
    split; [done|]. intros i. exists []. rewrite app_nil_r. split; [|constructor]. by rewrite deliver_history.
Qed.

(** What has been answered has been sent, in order. *)
Lemma replied_step v l v' : vault_step l v = Some v' → replied v → replied v'.
Proof.
  intros Hstep Hr. destruct l as [sid|sid now req|sid|sid|cid now entry|cid lb]; simpl in Hstep.
  - destruct (clients v !! sid) as [cl|] eqn:Hcl; [done|]. injection Hstep as <-. by apply map_Forall_insert_2.
  - destruct (clients v !! sid) as [cl|] eqn:Hcl; [|done]. simpl in Hstep.
    destruct (replying cl) eqn:Hrep; [done|]. destruct (gone cl); [done|]. simpl in Hstep.
    destruct (dispatch _ _ _) as [[st msg]|e|] eqn:Hd; [|done..]. destruct (together _ _) as [ss|]; [|done].
    injection Hstep as <-. apply map_Forall_insert_2; [|done]. specialize (Hr _ _ Hcl). unfold replies in *.
    simpl. rewrite Hrep in Hr. rewrite removelast_last.
    by rewrite (proj2 (dispatch_response _ _ _ _ _ Hd)).
  - destruct (clients v !! sid) as [cl|] eqn:Hcl; [|done]. simpl in Hstep.
    destruct (replying cl) eqn:Hrep; [|done]. destruct (held sid v); [done|]. simpl in Hstep.
    destruct (last (handled cl)) as [p|] eqn:Hl; [|done]. injection Hstep as <-.
    apply map_Forall_insert_2; [|done]. specialize (Hr _ _ Hcl). unfold replies in *. simpl. rewrite Hrep in Hr.
    apply last_Some in Hl as [l' Hl]. rewrite Hl, removelast_last in Hr. rewrite Hl, fmap_app.
    by apply sublist_app.
  - destruct (clients v !! sid) as [cl|] eqn:Hcl; [|done]. simpl in Hstep.
    destruct (replying cl) eqn:Hrep; [done|]. destruct (gone cl); [done|]. simpl in Hstep.
    destruct (together _ _) as [ss|]; [|done]. injection Hstep as <-. apply map_Forall_insert_2; [|done].
    specialize (Hr _ _ Hcl). unfold replies in *. by rewrite Hrep in Hr.
  - case_decide; [|done]. destruct (together _ _) as [ss|]; [|done]. by injection Hstep as <-.
  - destruct (own_move lb); [|done]. destruct (systems v !! cid) as [s|]; [|done]. simpl in Hstep.
    destruct (sync_step _ lb s) as [s'|]; [|done]. injection Hstep as <-. unfold deliver.
    destruct (deliveries lb s s') as [[t ms]|]; [|done]. simpl.
    destruct (clients v !! s_conn t) as [cl|] eqn:Hcl; [|done]. apply map_Forall_insert_2; [|done].
    specialize (Hr _ _ Hcl). unfold replies in *. simpl. rewrite (proj1 (publish_all _ _ _)).
    by apply sublist_inserts_r.
Qed.

Lemma schedule_serves ls v v' :
  vault_ok False v → Forall sound ls → play vault_step ls v = Some v' →
  written_lengths ls ∧
  let (F, a) := serve (feed (contents (vdb v))) ls in
  feed_equiv (feed (contents (vdb v'))) F ∧
  ∀ sid, ∃ new, history v' sid = history v sid ++ new ∧ Forall2 answered (asked sid a) new.
Proof.
  revert v. induction ls as [|l ls IH]; intros v Hv Hls; simpl.
  { intros [= <-]. split; [constructor|]. split; [done|]. intros sid. exists []. rewrite app_nil_r.
    by split; [|constructor]. }
  apply Forall_cons in Hls as [Hl Hls]. destruct (vault_step l v) as [v1|] eqn:Hstep; [|done]. simpl. intros Hp.
  pose proof (any_step_ok l v v1 Hv Hl Hstep) as Hv1.
  destruct (step_serves v l v1 Hv Hl Hstep) as [Hwl Hs1]. destruct (IH v1 Hv1 Hls Hp) as [Hwls Hs2].
  split; [apply Forall_cons; split; [by apply Forall_cons in Hwl as [? _]|done]|].
  assert (∀ F, serve F (l :: ls) =
    let (F1, a1) := serve F [l] in let (F2, a2) := serve F1 ls in (F2, a1 ++ a2)) as Hcons.
  { intros F. destruct l as [sid|sid now req|sid|sid|cid now entry|cid lb]; simpl;
      [|destruct (feed_request F req) as [F1 b]|..];
      match goal with |- context [serve ?G ls] => by destruct (serve G ls) end. }
  change (match l with
    | Requested sid _ req => let (F, b) := feed_request (feed (contents (vdb v))) req in
                             let (F, l) := serve F ls in (F, (sid, req, b) :: l)
    | Written cid _ entry => serve (feed_written (feed (contents (vdb v))) cid entry) ls
    | _ => serve (feed (contents (vdb v))) ls
    end) with (serve (feed (contents (vdb v))) (l :: ls)).
  rewrite Hcons. destruct (serve _ [l]) as [F1 a1]. destruct Hs1 as [HF1 Ha1].
  destruct (serve_proper ls _ _ Hwls HF1) as [HF2 Heq].
  destruct (serve (feed (contents (vdb v1))) ls) as [F2 a2], (serve F1 ls) as [F3 a3]; simpl in HF2, Heq.
  subst a3. destruct Hs2 as [HF Ha2]. split; [by trans F2|]. intros sid.
  destruct (Ha1 sid) as (new1 & Hh1 & Hn1), (Ha2 sid) as (new2 & Hh2 & Hn2). exists (new1 ++ new2).
  split; [by rewrite Hh2, Hh1, app_assoc|]. unfold asked in *. rewrite filter_app. by apply Forall2_app.
Qed.

(** C1: all sessions together are an append-only feed store: however the
    requests of any number of clients, the appends of the topic handlers and
    the goroutines of all channels interleave, there is one order, the one the
    requests are handled in, such that the entries stored are those the
    abstract feeds have after it; for every session, each request it has had
    handled has its answer, in the order it sent them and for what it did at
    its place in that order (to be sent once the handler's call returns, which
    it need not, see [reopen_hangs_session]); and the answers that have been
    sent reached the connection in that order.  Requests are any but an
    [OpenFeed] in the mode [DontStream], which ends the process
    ([open_dont_stream_panics]). *)
Theorem vault_refines d b ls v :
  (∀ cid, length cid = 32%nat → index_ok (chan_of cid) (contents d)) →
  Forall sound ls → play vault_step ls (vault_init d b) = Some v →
  let (F, l) := serve (feed (contents d)) ls in
  feed_equiv (feed (contents (vdb v))) F ∧
  (∀ sid, Forall2 answered (asked sid l) (history v sid)) ∧
  ∀ sid cl, clients v !! sid = Some cl → replies cl `sublist_of` sent (cl_conn cl).
Proof.
  intros Hix Hls Hp. destruct (schedule_serves ls _ v (vault_init_ok False d b Hix) Hls Hp) as [_ Hs].
  simpl in Hs. destruct (serve _ ls) as [F l]. destruct Hs as [HF Ha]. split; [done|]. split.
  - intros sid. destruct (Ha sid) as (new & -> & Hn). unfold history. simpl. by rewrite lookup_empty.
  - assert (replied v) as Hr; [|intros sid cl; apply Hr].
    eapply (play_forever vault_step replied); [intros l0 v0 v1 Hr _ Hs; by eapply replied_step| |exact Hp].
    apply map_Forall_empty.
Qed.

(** ** The handlers and the goroutines *)

Lemma map_store_eq (s1 s2 : Store Stream) :
  db s1 = db s2 → updateCh s1 = updateCh s2 → updates s1 = updates s2 →
  (∀ cid, channels s1 !! cid = channels s2 !! cid) → s1 = s2.
Proof.
  destruct s1, s2; simpl. intros -> -> -> Hc. f_equal. by apply map_eq.
Qed.

Lemma Store_Channel_lookup v cid' cid :
  channels (Store_Channel (store_of v) cid').1 !! cid =
    match systems v !! cid with
    | Some s => Some (chan (chan_of cid) s)
    | None => if decide (cid' = cid) then Some (chan_of cid) else None
    end.
Proof.
  unfold Store_Channel. rewrite store_of_channels. destruct (systems v !! cid') as [s'|] eqn:Hs'; simpl.
  - rewrite map_lookup_imap. destruct (systems v !! cid) as [s|] eqn:Hs; simpl; [done|].
    rewrite decide_False; [done|]. congruence.
  - rewrite lookup_insert, map_lookup_imap. case_decide as Hc; [by subst; rewrite Hs'|].
    by destruct (systems v !! cid).
Qed.

Lemma chan_init d cid : chan (chan_of cid) (sys_init d) = chan_of cid.
Proof. done. Qed.

(** Registering makes the systems of the channels there are. *)
Lemma register_chan v (sto : Store Stream) cid :
  (∀ s, systems v !! cid = Some s → is_Some (channels sto !! cid)) →
  chan (chan_of cid) <$> register sto (vdb v) (systems v) !! cid =
    match systems v !! cid with
    | Some s => Some (chan (chan_of cid) s)
    | None => if channels sto !! cid is Some _ then Some (chan_of cid) else None
    end.
Proof.
  intros Hsto. unfold register. rewrite lookup_union, lookup_fmap.
  destruct (systems v !! cid) as [s|] eqn:Hs.
  - destruct (Hsto s eq_refl) as [c ->]. done.
  - by destruct (channels sto !! cid).
Qed.

(** Only [Subscribed] changes who is subscribed, among the moves of a request. *)
Lemma request_move_subs (cn : Connection) now req cid s s' :
  moved (request_move cn now req) cid s = Some s' → appends req ≠ None ∨ FeedReq.ReqOp req ≠ ReqOp_OpenFeed →
  subs s' = subs s.
Proof.
  unfold moved, request_move. destruct (appends req) as [cid'|].
  - simpl. destruct (Append _ _ _ _) as [d r]. by intros [= <-].
  - intros Hm [Hap|Hop]; [done|]. rewrite decide_False in Hm by done. case_decide; [|by injection Hm as <-].
    destruct (subs s !! conn_id cn) as [sub|]; simpl in Hm; [|by injection Hm as <-].
    case_decide; [|by injection Hm as <-]. apply sync_step_trans in Hm. by inversion Hm.
Qed.

Lemma subscribed_chan cid s (t : Stream) o s' :
  sync_step (chan_of cid) (Subscribed t o) s = Some s' →
  chan (chan_of cid) s' = (Subscribe (chan (chan_of cid) s) t o).1.
Proof.
  simpl. destruct (unlocked s); [|done]. destruct (Subscribe _ t o) as [c eff] eqn:Hsub. simpl.
  pose proof (Subscribe_channel (chan (chan_of cid) s) t o) as Hc. rewrite Hsub in Hc. simpl in Hc.
  destruct Hc as (Hid & Hu & Hp & Hi & Hss).
  assert (chan (chan_of cid) (mkSystem (sys_db s) (subscribers c) (pending s) (watcher s) (resetting s)
    (goroutines s) (Sync.cancelled s) (watching s)) = c) as Hgo
    by (destruct c; unfold chan, set_subscribers, chan_of, new_channel in *; simpl in *; congruence).
  destruct eff as [id o'|id o'|id o'|]; [|by intros [= <-]..|done]. intros [= <-].
  revert Hsub Hgo. unfold Subscribe. destruct (subscribers (chan (chan_of cid) s) !! target_ID t) as [sub|];
    [|destruct o as [so|]; [destruct (fromIndex so)|]]; intros [= <-]; done.
Qed.

(** The channel a request opens, before it subscribes. *)
Lemma opened_channel v cid' (sto : Store Stream) (c : Channel Stream) :
  Store_Channel (store_of v) cid' = (sto, Ok c) →
  channels sto !! cid' = Some c ∧ c_id c = cid' ∧
  (∀ s, register sto (vdb v) (systems v) !! cid' = Some s → chan (chan_of cid') s = c).
Proof.
  intros Hsc. assert (channels sto !! cid' = Some c) as Hc.
  { revert Hsc. unfold Store_Channel. case_match eqn:Hl; intros [= <- <-]; [done|]. apply lookup_insert_eq. }
  pose proof (Store_Channel_lookup v cid' cid') as Hl. rewrite Hsc in Hl. simpl in Hl.
  rewrite Hc, (decide_True (P := cid' = cid')) in Hl by done.
  pose proof (register_chan v sto cid') as Hr. rewrite Hc in Hr.
  destruct (systems v !! cid') as [s0|] eqn:Hs0; injection Hl as ->; (split; [done|]; split; [done|]);
    intros s Hs; rewrite Hs in Hr; specialize (Hr (λ _ _, ltac:(by eexists))); exact (inj Some _ _ Hr).
Qed.

Lemma request_keeps v st now req ss cid (sto : Store Stream) :
  together (request_move (conn st) now req) (register (v_db st) (vdb v) (systems v)) = Some ss →
  (∀ i, channels sto !! i = match systems v !! i with
    | Some s => Some (chan (chan_of i) s)
    | None => channels sto !! i ≫= λ _, Some (chan_of i) end) →
  register sto (vdb v) (systems v) = register (v_db st) (vdb v) (systems v) →
  appends req ≠ None ∨ FeedReq.ReqOp req ≠ ReqOp_OpenFeed ∨ (∀ s, request_move (conn st) now req cid s = None) →
  chan (chan_of cid) <$> ss !! cid = channels sto !! cid.
Proof.
  intros Ht Hsto Hreg Hmv. rewrite (together_lookup _ _ _ cid Ht), Hsto.
  pose proof (register_chan v sto cid) as Hr. rewrite Hreg in Hr.
  destruct (register (v_db st) (vdb v) (systems v) !! cid) as [s|] eqn:Hs; simpl.
  - destruct (together_Some _ _ _ cid s Ht Hs) as (s' & Hm & _). rewrite Hm. simpl.
    assert (subs s' = subs s) as Hsub.
    { destruct Hmv as [?|[?|Hmv]]; [eapply request_move_subs; [exact Hm|tauto]..|].
      unfold moved in Hm. rewrite Hmv in Hm. by injection Hm as <-. }
    unfold chan in *. rewrite Hsub. simpl in Hr. rewrite Hr.
    + destruct (systems v !! cid); [done|]. by destruct (channels sto !! cid).
    + intros s0 Hs0. rewrite Hsto, Hs0. by eexists.
  - simpl in Hr. rewrite Hr.
    + destruct (systems v !! cid); [done|]. by destruct (channels sto !! cid).
    + intros s0 Hs0. rewrite Hsto, Hs0. by eexists.
Qed.

Lemma registered_channels v cid' i :
  let sto := (Store_Channel (store_of v) cid').1 in
  channels sto !! i = match systems v !! i with
    | Some s => Some (chan (chan_of i) s)
    | None => channels sto !! i ≫= λ _, Some (chan_of i) end.
Proof. simpl. rewrite Store_Channel_lookup. destruct (systems v !! i); [done|]. by case_decide. Qed.

(** The systems after a request are the channels the handler left. *)
Lemma request_channels v st' now req cl ss cid :
  dispatched (mkSession (store_of v) (cl_conn cl) []) now req st' →
  together (request_move (conn st') now req) (register (v_db st') (vdb v) (systems v)) = Some ss →
  chan (chan_of cid) <$> ss !! cid = channels (v_db st') !! cid.
Proof.
  intros Hd Ht.
  assert (v_db st' = store_of v → appends req ≠ None ∨ FeedReq.ReqOp req ≠ ReqOp_OpenFeed
    ∨ (∀ s, request_move (conn st') now req cid s = None) → chan (chan_of cid) <$> ss !! cid = channels (v_db st') !! cid) as Hsame.
  { intros Heq Hmv. apply (request_keeps v st' now req); [done| |done|done].
    intros i. rewrite Heq, store_of_channels. by destruct (systems v !! i). }
  destruct Hd as [cid' Hap Hl' Hst' Hcn|o sto c t Hap Hop Ho Hu Hsc Hnil Hst' Ht' Hstr Hcn _
    |Hap Hop Hst' Hcn _|Hap Hop Hou Hst' Hcn]; simpl in *.
  - apply (request_keeps v st' now req); [done| |done|left; by rewrite Hap].
    intros i. rewrite Hst'. apply registered_channels.
  - destruct (opened_channel v _ sto c Hsc) as (Hc & Hid & Hreg).
    set (cid' := ChannelURItoChannelID (OpenFeedReq.FeedURI o)) in *.
    pose proof (Subscribe_channel c t (newStreamOpts (Some o))) as (Hcid & _). rewrite Hid in Hcid.
    assert (channels (v_db st') = <[cid' := (Subscribe c t (newStreamOpts (Some o))).1]> (channels sto)) as Hch
      by (rewrite Hst'; simpl; by rewrite Hcid).
    assert (register sto (vdb v) (systems v) = register (v_db st') (vdb v) (systems v)) as Hr
      by (unfold register; rewrite Hch, fmap_insert, insert_id by (by rewrite lookup_fmap, Hc); done).
    rewrite Hch. destruct (decide (cid' = cid)) as [<-|Hne].
    + rewrite lookup_insert_eq.
      assert (is_Some (register (v_db st') (vdb v) (systems v) !! cid')) as [s Hs].
      { rewrite <-Hr. unfold register. rewrite lookup_union_is_Some, lookup_fmap, Hc. right. by eexists. }
      destruct (together_Some _ _ _ cid' s Ht Hs) as (s' & Hm & ->). simpl. rewrite <-Hr in Hs.
      unfold moved, request_move in Hm. rewrite Hap, decide_True, Ho, decide_True, Hstr in Hm by done.
      simpl in Hm. by rewrite (subscribed_chan cid' s t _ s' Hm), (Hreg s Hs).
    + rewrite lookup_insert_ne by done. apply (request_keeps v st' now req); [done| |done|].
      * intros i. rewrite <-(f_equal fst Hsc : _ = sto). apply registered_channels.
      * right; right. intros s. unfold request_move. rewrite Hap, decide_True, Ho by done.
        rewrite decide_False; [done|]. by intros [_ ?].
  - apply Hsame; [done|]. right; left. by rewrite Hop.
  - apply Hsame; [done|]. destruct (decide (FeedReq.ReqOp req = ReqOp_OpenFeed)) as [Hop'|]; [|tauto].
    right; right. intros s. unfold request_move. rewrite Hap, decide_True by done.
    rewrite decide_False; [done|]. rewrite Hou by done. by intros [].
Qed.

(** The two views of a channel agree, at every request of every
    reachable state: the handler of [Server.v], run on the store that shows
    the subscribers the goroutines of [Sync.v] have, leaves the store that
    shows the subscribers they have after the moves the request causes; the
    channels, their announcements and the database included. *)
Lemma request_coherent v sid now req v' :
  vault_reachable v → vault_step (Requested sid now req) v = Some v' →
  ∃ cl st msg, clients v !! sid = Some cl ∧
    dispatch (mkSession (store_of v) (cl_conn cl) []) now (Some req) = Ok (st, msg) ∧
    store_of v' = v_db st ∧ clients v' !! sid = Some (mkClient (conn st) (handled cl ++ [(req, response msg)]) true false).
Proof.
  intros Hv%vault_reachable_ok. simpl. destruct (clients v !! sid) as [cl|] eqn:Hcl; [|done]. simpl.
  destruct (_ || _); [done|]. destruct (dispatch _ _ _) as [[st msg]|e|] eqn:Hd; [|done..].
  destruct (together _ _) as [ss|] eqn:Ht; [|done]. intros [= <-]. exists cl, st, msg.
  split; [done|]. split; [done|]. split; [|by simpl; rewrite lookup_insert_eq].
  apply map_store_eq; [done..|]. intros cid. rewrite store_of_channels. simpl.
  eapply request_channels; [|exact Ht]. eapply dispatch_dispatched; [by eapply (vault_session_ok False)|exact Hd].
Qed.

(** ** The moves of one channel *)

Lemma moved_step move cid s s' :
  moved move cid s = Some s' → s' = s ∨ ∃ lb, sync_step (chan_of cid) lb s = Some s'.
Proof. unfold moved. destruct (move cid s) as [lb|]; [eauto|]. intros [= <-]. by left. Qed.

(** A step of the vault moves each channel once, or not. *)
Lemma vault_step_system v l v' cid s :
  vault_step l v = Some v' → systems v !! cid = Some s →
  ∃ s', systems v' !! cid = Some s' ∧ (s' = s ∨ ∃ lb, sync_step (chan_of cid) lb s = Some s').
Proof.
  intros Hstep Hs. destruct l as [sid|sid now req|sid|sid|cid' now entry|cid' lb]; simpl in Hstep.
  - destruct (clients v !! sid); [done|]. injection Hstep as <-. eauto.
  - destruct (clients v !! sid) as [cl|]; [|done]. simpl in Hstep. destruct (_ || _); [done|].
    destruct (dispatch _ _ _) as [[st msg]|e|]; [|done..]. destruct (together _ _) as [ss|] eqn:Ht; [|done].
    injection Hstep as <-. simpl.
    destruct (together_Some _ _ _ cid s Ht) as (s' & Hm & Hs'); [|exists s'; split; [done|by eapply moved_step]].
    unfold register. by apply lookup_union_Some_l.
  - destruct (clients v !! sid) as [cl|]; [|done]. simpl in Hstep. destruct (_ && _); [|done].
    destruct (last _) as [p|]; [|done]. injection Hstep as <-. eauto.
  - destruct (clients v !! sid) as [cl|]; [|done]. simpl in Hstep. destruct (_ || _); [done|].
    destruct (together _ _) as [ss|] eqn:Ht; [|done]. injection Hstep as <-. simpl.
    destruct (together_Some _ _ _ cid s Ht Hs) as (s' & Hm & Hs'). exists s'. split; [done|by eapply moved_step].
  - case_decide; [|done]. destruct (together _ _) as [ss|] eqn:Ht; [|done]. injection Hstep as <-. simpl.
    destruct (together_Some _ _ _ cid s Ht Hs) as (s' & Hm & Hs'). exists s'. split; [done|by eapply moved_step].
  - destruct (own_move lb); [|done]. destruct (systems v !! cid') as [s0|] eqn:Hs0; [|done]. simpl in Hstep.
    destruct (sync_step _ lb s0) as [s0'|] eqn:Hst; [|done]. injection Hstep as <-.
    destruct (deliver_frame (deliveries lb s0 s0') (set_systems (<[cid':=s0']> (systems v)) v)) as (-> & _).
    simpl. destruct (decide (cid' = cid)) as [->|Hne].
    + rewrite lookup_insert_eq. simplify_eq. eauto.
    + rewrite lookup_insert_ne by done. eauto.
Qed.

(** What the vault's own moves are to a channel. *)
Definition moves_of cid (ls : list vlabel) : list (label (T:=Stream)) :=
  omap (λ l, if l is Inside cid' lb then if decide (cid' = cid) then Some lb else None else None) ls.

Lemma own_move_internal lb : own_move lb = true ↔ internal lb.
Proof. by destruct lb. Qed.

Lemma inside_project ls v v' cid s :
  Forall inside ls → play vault_step ls v = Some v' → systems v !! cid = Some s →
  ∃ s', systems v' !! cid = Some s' ∧ Forall internal (moves_of cid ls)
    ∧ play (sync_step (chan_of cid)) (moves_of cid ls) s = Some s'.
Proof.
  intros Hls. revert v s. induction Hls as [|l ls Hl _ IH]; intros v s; simpl.
  { intros [= <-] Hs. exists s. by split_and!. }
  destruct (vault_step l v) as [v1|] eqn:Hstep; [|done]. simpl. intros Hp Hs.
  destruct l as [sid|sid now req|sid|sid|cid' now entry|cid' lb]; try done; simpl in Hstep.
  - destruct (clients v !! sid) as [cl|]; [|done]. simpl in Hstep. destruct (_ && _); [|done].
    destruct (last _) as [p|]; [|done]. injection Hstep as <-. by apply (IH _ s) in Hp.
  - destruct (own_move lb) eqn:Hown; [|done]. destruct (systems v !! cid') as [s0|] eqn:Hs0; [|done]. simpl in Hstep.
    destruct (sync_step _ lb s0) as [s0'|] eqn:Hst; [|done]. injection Hstep as <-.
    set (v2 := set_systems _ v) in Hp. destruct (deliver_frame (deliveries lb s0 s0') v2) as (Hss & _).
    unfold moves_of. simpl. destruct (decide (cid' = cid)) as [->|Hne]; simpl.
    + apply (IH _ s0') in Hp as (s' & Hs' & Hint & Hp); [|rewrite Hss; simpl; apply lookup_insert_eq].
      exists s'. split; [done|]. split; [constructor; [by apply own_move_internal|done]|].
      simplify_eq. simpl. rewrite Hst. done.
    + apply (IH _ s) in Hp; [done|]. rewrite Hss. simpl. by rewrite lookup_insert_ne.
Qed.

(** While nobody subscribes, a subscriber stays who it is. *)
Lemma internal_subs (c : Channel Stream) id sub :
  preserved (sync_step c) (λ _, internal) (λ s, ∀ sub', subs s !! id = Some sub' → sub' = sub).
Proof.
  intros lb s s' Hs Hint Htr%sync_step_trans. destruct Htr; simpl in *; try done; intros sub' Hsub';
    try (by apply Hs). apply lookup_delete_Some in Hsub' as [_ Hsub']. by apply Hs.
Qed.

(** Where the vault's own moves end. *)
Definition vault_stuck v : Prop := ∀ l, inside l → vault_step l v = None.

Lemma stuck_system v cid s :
  vault_stuck v → systems v !! cid = Some s → ∀ lb, internal lb → sync_step (chan_of cid) lb s = None.
Proof.
  intros Hv Hs lb Hint. specialize (Hv (Inside cid lb) I). simpl in Hv.
  rewrite (proj2 (own_move_internal lb) Hint), Hs in Hv. simpl in Hv. by destruct (sync_step _ lb s).
Qed.

Lemma inside_step_ok strict : preserved vault_step (λ _, inside) (vault_ok strict).
Proof. intros l v v' Hv Hl Hs. eapply vault_step_ok; [exact Hv| |exact Hs]. by destruct l. Qed.

Lemma inside_ok strict ls v v' :
  vault_ok strict v → Forall inside ls → play vault_step ls v = Some v' → vault_ok strict v'.
Proof. intros Hv Hls Hp. by eapply play_invariant; [apply inside_step_ok|exact Hls|..]. Qed.


(** ** A session that is never answered *)

Definition hung cid sid (o : option StreamOpts) v : Prop :=
  (∃ s, systems v !! cid = Some s ∧ reset_blocked sid o s)
  ∧ ∃ cl, clients v !! sid = Some cl ∧ replying cl = true.

Lemma hung_held cid sid o v : hung cid sid o v → held sid v = true.
Proof.
  intros [(s & Hs & _ & Hr & _) _]. apply bool_decide_eq_true. intros Hall. apply (Hall cid s Hs). by rewrite Hr.
Qed.

Lemma deliver_replying x v sid cl :
  clients v !! sid = Some cl → ∃ cl', clients (deliver x v) !! sid = Some cl' ∧ replying cl' = replying cl.
Proof.
  intros Hcl. unfold deliver. destruct x as [[t ms]|]; [|eauto].
  destruct (clients v !! s_conn t) as [cl0|] eqn:Hcl0; [|eauto]. simpl.
  destruct (decide (s_conn t = sid)) as [<-|Hne].
  - rewrite lookup_insert_eq. simplify_eq. eauto.
  - rewrite lookup_insert_ne by done. eauto.
Qed.

Lemma hung_forever cid sid o : preserved vault_step (λ _ _, True) (hung cid sid o).
Proof.
  intros l v v' Hv _ Hstep. pose proof (hung_held _ _ _ _ Hv) as Hheld.
  destruct Hv as [(s & Hs & Hb) (cl & Hcl & Hrep)].
  destruct (vault_step_system v l v' cid s Hstep Hs) as (s' & Hs' & Hmv). split.
  { exists s'. split; [done|]. destruct Hmv as [->|(lb & Hst)]; [done|].
    eapply (reset_blocked_forever (chan_of cid) sid o s lb s s'); done. }
  destruct l as [sid'|sid' now req|sid'|sid'|cid' now entry|cid' lb]; simpl in Hstep.
  - destruct (clients v !! sid') as [cl'|] eqn:Hcl'; [done|]. injection Hstep as <-. simpl.
    rewrite lookup_insert_ne by congruence. eauto.
  - destruct (clients v !! sid') as [cl'|] eqn:Hcl'; [|done]. simpl in Hstep.
    destruct (replying cl') eqn:Hr'; [done|]. destruct (gone cl'); [done|]. simpl in Hstep.
    destruct (dispatch _ _ _) as [[st msg]|e|]; [|done..]. destruct (together _ _) as [ss|]; [|done].
    injection Hstep as <-. simpl. rewrite lookup_insert_ne by congruence. eauto.
  - destruct (clients v !! sid') as [cl'|] eqn:Hcl'; [|done]. simpl in Hstep.
    destruct (decide (sid' = sid)) as [->|Hne]; [by rewrite Hheld, andb_false_r in Hstep|].
    destruct (_ && _); [|done]. destruct (last _) as [p|]; [|done]. injection Hstep as <-. simpl.
    rewrite lookup_insert_ne by done. eauto.
  - destruct (clients v !! sid') as [cl'|] eqn:Hcl'; [|done]. simpl in Hstep.
    destruct (replying cl') eqn:Hr'; [done|]. destruct (gone cl'); [done|]. simpl in Hstep.
    destruct (together _ _) as [ss|]; [|done]. injection Hstep as <-. simpl.
    rewrite lookup_insert_ne by congruence. eauto.
  - case_decide; [|done]. destruct (together _ _) as [ss|]; [|done]. injection Hstep as <-. eauto.
  - destruct (own_move lb); [|done]. destruct (systems v !! cid') as [s0|]; [|done]. simpl in Hstep.
    destruct (sync_step _ lb s0) as [s0'|]; [|done]. injection Hstep as <-.
    destruct (deliver_replying (deliveries lb s0 s0') (set_systems (<[cid':=s0']> (systems v)) v) sid cl Hcl)
      as (cl' & ? & ?). exists cl'. split; [done|congruence].
Qed.

(** C14: opening again a stream whose reader is waiting for new entries
    takes the session with it: the request is taken, and from then on,
    whatever any goroutine or any other client does, that request is never
    answered and the session handles no other and does not return, while the
    channel's lock stays taken. *)
Theorem reopen_hangs_session v sid now req (o : OpenFeedReq.t) s g v' :
  let cid := ChannelURItoChannelID (OpenFeedReq.FeedURI o) in
  vault_reachable v → FeedReq.ReqOp req = ReqOp_OpenFeed → FeedReq.OpenFeed req = Some o →
  OpenFeedReq.FeedURI o ≠ [] → systems v !! cid = Some s → goroutines s !! sid = Some g → deaf g →
  vault_step (Requested sid now req) v = Some v' →
  ∀ ls v'', play vault_step ls v' = Some v'' →
    vault_step (Replied sid) v'' = None ∧ vault_step (HungUp sid) v'' = None ∧
    (∀ now' req', vault_step (Requested sid now' req') v'' = None) ∧
    ∃ s'', systems v'' !! cid = Some s'' ∧ unlocked s'' = false.
Proof.
  intros cid Hv%vault_reachable_ok Hop Ho Hu Hs Hg Hd Hstep ls v'' Hp.
  assert (hung cid sid (newStreamOpts (Some o)) v') as Hh.
  { revert Hstep. simpl. destruct (clients v !! sid) as [cl|] eqn:Hcl; [|done]. simpl.
    destruct (_ || _); [done|]. destruct (dispatch _ _ _) as [[st msg]|e|] eqn:Hdis; [|done..].
    destruct (together _ _) as [ss|] eqn:Ht; [|done]. intros [= <-]. pose proof (vault_session_ok False v sid cl Hv Hcl) as Hst.
    split; [|simpl; rewrite lookup_insert_eq; eauto]. simpl.
    destruct (together_Some _ _ _ cid s Ht) as (s' & Hm & Hs'); [by apply lookup_union_Some_l|].
    exists s'. split; [done|]. unfold moved, request_move in Hm.
    destruct (dispatch_dispatched _ _ _ _ _ Hst Hdis) as [cid' Hap| o' sto c t Hap _ Ho' _ _ _ _ Htc Hstr _|Hap Hop'|Hap _ Hou].
    - unfold appends in Hap. rewrite bool_decide_false in Hap; [done|]. rewrite Hop. by intros [|].
    - rewrite Ho in Ho'. injection Ho' as <-. rewrite Hap, decide_True, Ho, decide_True, Hstr in Hm by done.
      simpl option_bind in Hm. apply sync_step_trans in Hm.
      destruct (proj1 (proj2 Hv) cid s Hs) as (_ & _ & ((Hdom & Hid & _) & _) & _).
      assert (target_ID t = sid) as Htid by (unfold target_ID, Stream_ID; rewrite Htc; by destruct (proj2 (proj2 Hv) _ _ Hcl)).
      inversion Hm; subst; [|exfalso].
      + split; [done|]. split; [|by exists g]. simpl. do 2 f_equal. by eapply Hid.
      + assert (target_ID t ∈ dom (subs s)) as [sub0 Hsub0]%elem_of_dom by (rewrite <-Hdom; by eapply elem_of_dom_2).
        congruence.
    - by rewrite Hop in Hop'.
    - rewrite Ho in Hou. by destruct Hu; apply Hou. }
  assert (hung cid sid (newStreamOpts (Some o)) v'') as Hh''
    by (eapply (play_forever vault_step); [apply hung_forever|exact Hh|exact Hp]).
  pose proof (hung_held _ _ _ _ Hh'') as Hheld. destruct Hh'' as [(s'' & Hs'' & _ & Hr & _) (cl & Hcl & Hrep)].
  simpl. rewrite Hcl. simpl. rewrite Hrep, Hheld. split_and!; [done..|].
  exists s''. split; [done|]. unfold unlocked. rewrite Hr. by destruct (watcher s'').
Qed.

(** ** Coming to rest *)

(** How many moves are left, at most. *)
Definition vault_energy v : nat :=
  (map_sum energy (systems v) + map_sum (λ cl, if replying cl then 1 else 0) (clients v))%nat.

(** Every channel is at rest or in a deadlock, every request is answered but
    those a deadlock holds. *)
Definition vault_rest v : Prop :=
  map_Forall (λ _ s, at_rest s ∨ deadlocked s) (systems v)
  ∧ map_Forall (λ sid cl, replying cl = true → held sid v = true) (clients v).

Lemma deliver_replies x v :
  map_sum (λ cl, if replying cl then 1 else 0)%nat (clients (deliver x v)) =
  map_sum (λ cl, if replying cl then 1 else 0)%nat (clients v).
Proof.
  unfold deliver. destruct x as [[t ms]|]; [|done]. destruct (clients v !! s_conn t) as [cl|] eqn:Hcl; [|done].
  simpl. set (cl' := mkClient _ _ _ _).
  pose proof (map_sum_insert (λ cl, if replying cl then 1 else 0)%nat _ _ cl cl' Hcl) as Hsum. simpl in Hsum. lia.
Qed.

Lemma inside_energy l v v' :
  inside l → vault_ok False v → vault_step l v = Some v' → (vault_energy v' < vault_energy v)%nat.
Proof.
  intros Hl Hv Hstep. destruct l as [sid|sid now req|sid|sid|cid now entry|cid lb]; try done; simpl in Hstep.
  - destruct (clients v !! sid) as [cl|] eqn:Hcl; [|done]. simpl in Hstep.
    destruct (replying cl) eqn:Hrep; [|done]. destruct (held sid v); [done|]. simpl in Hstep.
    destruct (last _) as [p|]; [|done]. injection Hstep as <-. unfold vault_energy. simpl.
    set (cl' := mkClient _ _ _ _).
    pose proof (map_sum_insert (λ cl, if replying cl then 1 else 0)%nat _ _ cl cl' Hcl) as Hsum.
    cbv beta in Hsum. rewrite Hrep in Hsum. simpl in Hsum. lia.
  - destruct (own_move lb) eqn:Hown; [|done]. destruct (systems v !! cid) as [s|] eqn:Hs; [|done]. simpl in Hstep.
    destruct (sync_step _ lb s) as [s'|] eqn:Hst; [|done]. injection Hstep as <-.
    set (v1 := set_systems _ v). unfold vault_energy. rewrite deliver_replies.
    destruct (deliver_frame (deliveries lb s s') v1) as (-> & _). simpl.
    pose proof (map_sum_insert energy _ _ s s' Hs) as Hsum. apply own_move_internal in Hown.
    pose proof (proj1 (proj2 Hv) cid s Hs) as (_ & _ & (Hwf & _) & _).
    pose proof (internal_energy _ lb s s' Hown Hwf Hst). lia.
Qed.

Lemma vault_progress v : vault_ok False v → vault_rest v ∨ ∃ l v', inside l ∧ vault_step l v = Some v'.
Proof.
  intros Hv. pose proof Hv as (_ & Hss & Hcls).
  destruct (map_Forall_or_exists (λ _ s, at_rest s ∨ deadlocked s)
    (λ cid s, ∃ lb s', internal lb ∧ sync_step (chan_of cid) lb s = Some s') (systems v)) as [Hrest|(cid & s & Hs & Hmv)].
  { intros cid s Hs. destruct (Hss cid s Hs) as (Hl & _ & Hinv & _). by apply (progress False). }
  2: { destruct Hmv as (lb & s' & Hi & Hst). right. exists (Inside cid lb). simpl.
    rewrite (proj2 (own_move_internal lb) Hi), Hs. simpl. rewrite Hst. by eexists. }
  destruct (map_Forall_or_exists (λ sid cl, replying cl = true → held sid v = true)
    (λ sid cl, replying cl = true ∧ held sid v = false) (clients v)) as [Hrep|(sid & cl & Hcl & Hrep & Hh)].
  { intros sid cl Hcl. destruct (replying cl), (held sid v); auto. }
  - by left.
  - right. exists (Replied sid). simpl. rewrite Hcl. simpl. rewrite Hrep, Hh. simpl.
    destruct (last (handled cl)) as [p|] eqn:Hlast; [by eexists|].
    apply last_None in Hlast. destruct (Hcls _ _ Hcl) as (_ & _ & Hne). by destruct Hne.
Qed.

End spec.

(* ------------------------------------------------------------------ *)
(** * Witnesses *)

(** Two clients of a vault that starts empty: one opens the channel and waits,
    the other appends to it; then the first opens it again. *)
Module VaultExamples.
Import MemDB RefCodec RefHash StoreExamples DeliveryExamples ServerExamples.

Definition A : UUID := str "conn A".
Definition B : UUID := str "conn B".
Definition v0 : vault := vault_init d0 false.
Definition at_ (ls : list vlabel) : vault := default v0 (play vault_step ls v0).
Definition in_ (l : list (label (T:=Stream))) : list vlabel := Inside cid <$> l.

Definition opened : list vlabel :=
  [Connected A; Connected B; Requested A t0 (req_open 1 StreamMode_FromGenesis)]
  ++ in_ [Watch; Begin A; Turn A] ++ [Replied A].
Definition appended : list vlabel := opened ++ [Requested B t0 (req_append 7)].
Definition settled : list vlabel :=
  in_ [Callback 1 [A]; Notify; Release; Turn A; Turn A] ++ [Replied B].
Definition reopen : vlabel := Requested A t0 (req_open 2 StreamMode_AfterHead).

Lemma at_play ls : (if play vault_step ls v0 is Some _ then true else false) = true →
  play vault_step ls v0 = Some (at_ ls).
Proof. unfold at_. by destruct (play _ _ _). Qed.

(** The conditions of [watched_reachable] that depend on the state, as a check. *)
Definition watchedb (cid : bytes) (v : vault) : bool :=
  match systems v !! cid with
  | Some s => watching s || bool_decide (map_Forall (λ _ g, (if g is Reading _ then false else true) = true) (goroutines s))
  | None => true
  end.

Definition checkb (v : vault) (l : vlabel) : bool :=
  match l with
  | Requested _ _ req => match appends req with Some cid => watchedb cid v | None => true end
  | Written cid _ _ => watchedb cid v
  | _ => true
  end.

Fixpoint checks (ls : list vlabel) (v : vault) : bool :=
  match ls with
  | [] => true
  | l :: ls => checkb v l && match vault_step l v with Some v' => checks ls v' | None => true end
  end.

Lemma watchedb_spec i v : watchedb i v = true → watched i v.
Proof.
  unfold watchedb, watched. intros Hw s Hs. rewrite Hs in Hw. apply orb_true_iff in Hw as [Hw|Hw]; [by left|right].
  apply bool_decide_eq_true in Hw. intros id g Hg. specialize (Hw id g Hg). by destruct g.
Qed.

Lemma checks_allowed ls v :
  Forall sound ls → checks ls v = true → allowed vault_step (λ v l, sound l ∧ under_watch v l) ls v.
Proof.
  intros Hls. revert v. induction Hls as [|l ls Hl _ IH]; intros v; [done|]. simpl.
  intros [Hc Hcs]%andb_true_iff. split; [split; [exact Hl|]|].
  - destruct l as [ |sid now req| | |i now entry| ]; try exact I.
    + intros i Hi. simpl in Hc. rewrite Hi in Hc. by apply watchedb_spec.
    + by apply watchedb_spec.
  - intros v' Hv'. rewrite Hv' in Hcs. by apply IH.
Qed.

Lemma open_static i mode : mode ≠ StreamMode_DontStream → request_ok (req_open i mode).
Proof. intros Hm _ o [= <-]. by split. Qed.

Lemma static l : Forall sound (opened ++ l) ↔ Forall sound l.
Proof.
  rewrite Forall_app. split; [by intros [_ ?]|]. intros Hl. split; [|done].
  repeat (apply Forall_cons; split); try exact I; try apply Forall_nil_2.
  split; [apply t0_ok|by apply open_static].
Qed.

Lemma append_static i : sound (Requested B t0 (req_append i)).
Proof. split; [apply t0_ok|]. by intros [=]. Qed.

Lemma in_static l : Forall sound (in_ l).
Proof. apply Forall_fmap, Forall_true. done. Qed.

Lemma all_static : Forall sound (appended ++ settled).
Proof.
  unfold appended, settled. rewrite <-app_assoc. apply static. constructor; [apply append_static|].
  apply Forall_app. split; [apply in_static|]. by repeat constructor.
Qed.

Lemma d0_index i : length i = 32%nat → index_ok (chan_of i) (contents d0).
Proof. intros _. split; [by intros k [v Hk]|]. by intros eid _ [v Hk]. Qed.

Lemma all_play : play vault_step (appended ++ settled) v0 = Some (at_ (appended ++ settled)).
Proof. apply at_play. by vm_compute. Qed.

Lemma all_allowed : allowed vault_step (λ v l, sound l ∧ under_watch v l) (appended ++ settled) v0.
Proof. apply checks_allowed; [apply all_static|]. by vm_compute. Qed.

Lemma appended_play : play vault_step appended v0 = Some (at_ appended).
Proof. apply at_play. by vm_compute. Qed.

Lemma appended_watched : watched_reachable (at_ appended).
Proof.
  exists d0, false, appended. split; [exact d0_index|].
  split; [eapply allowed_prefix, all_allowed|exact appended_play].
Qed.

Lemma appended_reachable : vault_reachable (at_ appended).
Proof.
  exists d0, false, appended. split; [exact d0_index|]. split; [|exact appended_play].
  eapply proj1. apply Forall_app. exact all_static.
Qed.

Lemma opened_reachable : vault_reachable (at_ opened).
Proof.
  exists d0, false, opened. split; [exact d0_index|]. split; [|apply at_play; by vm_compute].
  rewrite <-(app_nil_r opened). by apply static.
Qed.

Lemma vault_refines_witness :
  let (F, l) := serve (feed (contents d0)) (appended ++ settled) in
  feed_equiv (feed (contents (vdb (at_ (appended ++ settled))))) F.
Proof.
  pose proof (vault_refines d0 false (appended ++ settled) (at_ (appended ++ settled)) d0_index all_static all_play) as Hr.
  destruct (serve _ _) as [F l]. exact (proj1 Hr).
Defined.

Definition restedb (v : vault) : bool :=
  bool_decide (map_Forall (λ _ s, at_restb s = true) (systems v))
  && bool_decide (map_Forall (λ _ cl, replying cl = false) (clients v)).

Lemma restedb_stuck v : restedb v = true → vault_stuck v.
Proof.
  unfold restedb. intros [Hs Hc]%andb_true_iff. apply bool_decide_eq_true in Hs, Hc.
  intros [sid|sid now req|sid|sid|i now entry|i lb] Hl; try done; simpl.
  - destruct (clients v !! sid) as [cl|] eqn:Hcl; [|done]. simpl. by rewrite (Hc _ _ Hcl).
  - destruct (own_move lb) eqn:Ho; [|done]. destruct (systems v !! i) as [s|] eqn:Hi; [|done]. simpl.
    rewrite (rest_stuck (chan_of i) s lb); [done| |by apply own_move_internal].
    apply at_restb_spec. by apply (Hs i s).
Qed.

Lemma settled_play : play vault_step settled (at_ appended) = Some (at_ (appended ++ settled)).
Proof. exact (play_rest _ _ _ _ _ _ appended_play all_play). Qed.

Lemma settled_inside : Forall inside settled.
Proof. by repeat constructor. Qed.

Lemma settled_stuck : vault_stuck (at_ (appended ++ settled)).
Proof. apply restedb_stuck. by vm_compute. Qed.

(** The channel and the reader of the first client in a state. *)
Lemma at_reader (v : vault) (P : system (T:=Stream) → reader → subscriber Stream → bool) :
  (if systems v !! cid is Some s then
     match goroutines s !! A, subs s !! A with Some (Reading r), Some sub => P s r sub | _, _ => false end
   else false) = true →
  ∃ s r sub, systems v !! cid = Some s ∧ goroutines s !! A = Some (Reading r) ∧ subs s !! A = Some sub ∧ P s r sub = true.
Proof.
  destruct (systems v !! cid) as [s|]; [|done].
  destruct (goroutines s !! A) as [[o|r|r]|] eqn:Hg; [done| |done..].
  destruct (subs s !! A) as [sub|] eqn:Hs; [|done]. intros HP. exists s, r, sub. by split_and!.
Qed.

Definition key0 : bytes := EntryKey (chan_of cid) id0.

Lemma key0_newest : newest (chan_of cid) (vdb (at_ appended)) key0.
Proof.
  split; [by vm_compute|]. split; [apply (bool_decide_eq_true_1 _); by vm_compute|].
  assert (map_Forall (λ k' _, has_prefix (prefix (chan_of cid)) k' = true → bytes_le k' key0)
    (contents (vdb (at_ appended)))) as Hall by (apply (bool_decide_eq_true_1 _); by vm_compute).
  intros k' Hp [v Hk]. by apply (Hall k' v).
Qed.

Lemma rested_alive (v : vault) s :
  restedb v = true → systems v !! cid = Some s → ¬ deadlocked s.
Proof.
  unfold restedb. intros [Hs _]%andb_true_iff Hv. apply bool_decide_eq_true in Hs. specialize (Hs cid s Hv).
  apply at_restb_spec in Hs as (_ & Hw & Hr & _). intros [(id & o & _ & Hb & _)|(id & _ & (ids & Hb & _) & _)]; congruence.
Qed.



Lemma reopen_steps : ∃ v', vault_step reopen (at_ opened) = Some v'.
Proof. apply some_of_bool. by vm_compute. Qed.

Lemma reopen_hangs_session_witness :
  ∃ v', vault_step reopen (at_ opened) = Some v' ∧ vault_step (Replied A) v' = None.
Proof.
  destruct (at_reader (at_ opened) (λ _ r _, match pos r with Waiting => true | _ => false end))
    as (s & r & sub & Hs & Hg & _ & Hw); [by vm_compute|].
  destruct reopen_steps as [v' Hv']. exists v'. split; [exact Hv'|].
  refine (proj1 (reopen_hangs_session (at_ opened) A t0 (req_open 2 StreamMode_AfterHead)
    (OpenFeedReq.mk uri StreamMode_AfterHead None 0 false) s (Reading r) v' opened_reachable eq_refl eq_refl _ Hs Hg _ Hv' [] v' eq_refl)).
  - discriminate.
  - simpl. destruct (pos r); (exact I || discriminate Hw).
Defined.
End VaultExamples.
