(* ===== verification/Client.v ===== *)
(** [client/client.go]: the client side of a session.

    A client numbers its requests and remembers under which number it opened
    each URI.  The operations hold the client's lock throughout, so each is a
    function on its state; [wire] lists the requests that [session.Send] took,
    and each operation is given the error, if any, of its own send.  The program
    of tests/main.go is a client; the last theorem puts a client and the server of [Server.v] at the two ends of a
    session. *)
From S2P Require Import Prelude Lts Protos Helpers Badger Channel Store Reader Server.

Definition ErrorStreamClosed : error :=
  Sentinel (str "client.ErrorStreamClosed") (str "stream closed by server").

(** [type Client]; [ctx_cancelled] is whether [cancelFn] was called. *)
Record Client := mkClient {
  ctx_cancelled : bool;
  wire : list FeedReq.t;
  reqMapping : gmap gostring Z;
  counter : Z;
}.

(** [New(pctx, addr, opts)], given what [grpc.Dial] and [VaultSession]
    returned. *)
Definition New (dialed opened : option error) : outcome Client :=
  match dialed, opened with
  | Some err, _ => Err err
  | None, Some err => Err err
  | None, None => Ok (mkClient false [] ∅ 0)
  end.

(** [Client.Close] *)
Definition Close (c : Client) : Client := mkClient true (wire c) (reqMapping c) (counter c).

(** What [session.Recv] returns, and [Client.Recv]. *)
Inductive recv_result := GotMsg (msg : Msg.t) | GotEOF | GotErr (e : error).

Definition Client_Recv (c : Client) (r : recv_result) : Client * outcome Msg.t :=
  match r with
  | GotEOF => (mkClient true (wire c) (reqMapping c) (counter c), Err ErrorStreamClosed)
  | GotMsg msg => (c, Ok msg)
  | GotErr e => (c, Err e)
  end.

Definition sendImpl (c : Client) (fail : option error) (req : FeedReq.t) : Client * option error :=
  match fail with
  | Some e => (c, Some e)
  | None => (mkClient (ctx_cancelled c) (wire c ++ [req]) (reqMapping c) (counter c), None)
  end.

(** [Client.Send(req)], which numbers the caller's request. *)
Definition Client_Send (c : Client) (fail : option error) (req : FeedReq.t) : Client * option error :=
  let n := to_i32 (counter c + 1) in
  let c := mkClient (ctx_cancelled c) (wire c) (reqMapping c) n in
  sendImpl c fail
    (FeedReq.make (FeedReq.ReqOp req) n (FeedReq.OpenFeed req) (FeedReq.NewEntry req)
       (FeedReq.unknownFields req)).

Definition OpenURI (c : Client) (fail : option error) (uri : gostring) : Client * option error :=
  let n := to_i32 (counter c + 1) in
  let c := mkClient (ctx_cancelled c) (wire c) (<[uri:=n]> (reqMapping c)) n in
  sendImpl c fail
    (FeedReq.mk ReqOp_OpenFeed n
       (Some (OpenFeedReq.mk uri StreamMode_AfterHead None (-1) false)) None).

Section client.
(** [%q] of [fmt] *)
Context (quote : gostring → gostring).

Definition not_open (uri : gostring) : error :=
  Foreign (str "URI " ++ quote uri ++ str " was not open").

Definition CloseURI (c : Client) (fail : option error) (uri : gostring) : Client * option error :=
  match reqMapping c !! uri with
  | None => (c, Some (not_open uri))
  | Some reqID => sendImpl c fail (FeedReq.mk ReqOp_CancelReq reqID None None)
  end.

(** An operation of a program that uses a client, and the error of its send. *)
Inductive op :=
  | OpSend (req : FeedReq.t)
  | OpOpenURI (uri : gostring)
  | OpCloseURI (uri : gostring).

Definition step (c : Client) (o : op * option error) : Client :=
  match o with
  | (OpSend req, fail) => (Client_Send c fail req).1
  | (OpOpenURI uri, fail) => (OpenURI c fail uri).1
  | (OpCloseURI uri, fail) => (CloseURI c fail uri).1
  end.

Fixpoint steps (c : Client) (l : list (op * option error)) : Client :=
  match l with [] => c | o :: l => steps (step c o) l end.

(** The request numbers that operations take. *)
Fixpoint taken (c : Client) (l : list (op * option error)) : list Z :=
  match l with
  | [] => []
  | o :: l =>
      let c := step c o in
      match o.1 with OpCloseURI _ => taken c l | _ => counter c :: taken c l end
  end.

(* ------------------------------------------------------------------ *)
(** ** Lemmas *)

Lemma to_i32_range z : - 2 ^ 31 ≤ to_i32 z < 2 ^ 31.
Proof. unfold to_i32. pose proof (Z.mod_pos_bound (z + 2 ^ 31) (2 ^ 32)). lia. Qed.

Lemma to_i32_add a b : to_i32 (to_i32 a + b) = to_i32 (a + b).
Proof.
  unfold to_i32. f_equal.
  replace ((a + 2 ^ 31) `mod` 2 ^ 32 - 2 ^ 31 + b + 2 ^ 31)
    with ((a + 2 ^ 31) `mod` 2 ^ 32 + b) by lia.
  rewrite Zplus_mod_idemp_l. f_equal. lia.
Qed.

Lemma to_i32_inj a b : to_i32 a = to_i32 b → 0 ≤ a - b < 2 ^ 32 → a = b.
Proof.
  unfold to_i32. intros Heq Hr.
  assert ((a + 2 ^ 31) `mod` 2 ^ 32 = (b + 2 ^ 31) `mod` 2 ^ 32) as Hm by lia.
  Z.div_mod_to_equations. lia.
Qed.

Lemma step_counter c o :
  counter (step c o) = match o.1 with OpCloseURI _ => counter c | _ => to_i32 (counter c + 1) end.
Proof.
  destruct o as [[req|uri|uri] [e|]]; try done; simpl; unfold CloseURI; by case_match.
Qed.

(** The numbers are consecutive, wrapping around at 32 bits. *)
Lemma taken_seq l : ∀ c z (n : nat), counter c = to_i32 (z + Z.of_nat n) →
  taken c l = (λ i : nat, to_i32 (z + Z.of_nat i)) <$> seq (S n) (length (taken c l)).
Proof.
  induction l as [|o l IH]; intros c z n Hc; [done|]. cbn [taken].
  pose proof (step_counter c o) as Hs. destruct o as [[req|uri|uri] e]; cbn [fst] in Hs |- *.
  3: { apply IH. congruence. }
  all: rewrite Hc, to_i32_add in Hs; cbn [length seq fmap list_fmap];
    rewrite Hs; f_equal; [f_equal; lia|]; apply IH; rewrite Hs; f_equal; lia.
Qed.

Lemma NoDup_window z (n : nat) :
  Z.of_nat n ≤ 2 ^ 32 → NoDup ((λ i : nat, to_i32 (z + Z.of_nat i)) <$> seq 0 n).
Proof.
  intros Hn. apply NoDup_fmap_2_strong; [|apply NoDup_seq].
  intros i j Hi%elem_of_seq Hj%elem_of_seq Heq.
  destruct (decide (j ≤ i)%nat).
  - apply to_i32_inj in Heq; lia.
  - symmetry in Heq. apply to_i32_inj in Heq; lia.
Qed.

Lemma taken_NoDup c l :
  - 2 ^ 31 ≤ counter c < 2 ^ 31 → Z.of_nat (length (taken c l)) < 2 ^ 32 →
  NoDup (counter c :: taken c l).
Proof.
  intros Hr Hn. assert (counter c = to_i32 (counter c + Z.of_nat 0)) as Hc
    by (unfold to_i32; rewrite Z.mod_small; lia).
  rewrite (taken_seq l c (counter c) 0 Hc). rewrite Hc at 1.
  change (NoDup ((λ i : nat, to_i32 (counter c + Z.of_nat i)) <$> seq 0 (S (length (taken c l))))).
  apply NoDup_window. lia.
Qed.

(** ** What reaches the wire *)

Definition ok_ops (l : list op) : list (op * option error) := (λ o, (o, None)) <$> l.

(** A request that is not numbered [i], or cancels it. *)
Definition leaves (i : Z) (req : FeedReq.t) : Prop :=
  FeedReq.ReqID req ≠ i ∨ FeedReq.ReqOp req = ReqOp_CancelReq.

Lemma step_wire c o i :
  (if o is OpCloseURI _ then True else counter (step c (o, None)) ≠ i) →
  ∃ w, wire (step c (o, None)) = wire c ++ w ∧ Forall (leaves i) w.
Proof.
  destruct o as [req|uri|uri]; simpl; intros Hi.
  1,2: eexists; split; [done|]; constructor; [by left|constructor].
  unfold CloseURI. destruct (reqMapping c !! uri) as [j|]; simpl.
  - eexists; split; [done|]. constructor; [by right|constructor].
  - exists []. by rewrite app_nil_r.
Qed.

Lemma steps_wire l : ∀ c i, i ∉ taken c (ok_ops l) →
  ∃ w, wire (steps c (ok_ops l)) = wire c ++ w ∧ Forall (leaves i) w.
Proof.
  induction l as [|o l IH]; intros c i Hi; [exists []; by rewrite app_nil_r|].
  destruct (step_wire c o i) as (w & Hw & Hl); [|destruct (IH (step c (o, None)) i) as (w' & Hw' & Hl')].
  - destruct o; simpl in *; [| |done]; rewrite not_elem_of_cons in Hi; naive_solver.
  - destruct o; simpl in *; [rewrite not_elem_of_cons in Hi; naive_solver..|done].
  - exists (w ++ w'). change (steps c (ok_ops (o :: l))) with (steps (step c (o, None)) (ok_ops l)).
    rewrite Hw', Hw, app_assoc. split; [done|by apply Forall_app_2].
Qed.

(** A URI stays mapped until it is opened again. *)
Lemma steps_mapping l : ∀ c uri i,
  Forall (λ o, o ≠ OpOpenURI uri) l → reqMapping c !! uri = Some i →
  reqMapping (steps c (ok_ops l)) !! uri = Some i.
Proof.
  induction l as [|o l IH]; intros c uri i Hl Hi; [done|]. apply Forall_cons in Hl as [Ho Hl].
  apply IH; [done|]. destruct o as [req|u|u]; simpl; [done| |].
  - rewrite lookup_insert_ne by congruence. done.
  - unfold CloseURI. by case_match.
Qed.
Lemma steps_app c l1 l2 : steps c (l1 ++ l2) = steps (steps c l1) l2.
Proof. revert c; induction l1; intros c; simpl; [done|auto]. Qed.

Lemma taken_app c l1 l2 : taken c (l1 ++ l2) = taken c l1 ++ taken (steps c l1) l2.
Proof.
  revert c; induction l1 as [|o l1 IH]; intros c; simpl; [done|].
  destruct o as [[] ?]; simpl; by rewrite IH.
Qed.

(** The request of [OpenURI], and its cancellation. *)
Definition open_request (i : Z) (uri : gostring) : FeedReq.t :=
  FeedReq.mk ReqOp_OpenFeed i (Some (OpenFeedReq.mk uri StreamMode_AfterHead None (-1) false)) None.
Definition cancel_request (i : Z) : FeedReq.t := FeedReq.mk ReqOp_CancelReq i None None.

(** What a client sends from opening a URI to closing it. *)
Lemma program_wire c uri l :
  - 2 ^ 31 ≤ counter c < 2 ^ 31 → Forall (λ o, o ≠ OpOpenURI uri) l →
  let program := ok_ops (OpOpenURI uri :: l ++ [OpCloseURI uri]) in
  let i := to_i32 (counter c + 1) in
  Z.of_nat (length (taken c program)) < 2 ^ 32 →
  ∃ w, wire (steps c program) = wire c ++ open_request i uri :: w ++ [cancel_request i]
    ∧ Forall (leaves i) w.
Proof.
  intros Hr Hl program i Hn. set (c1 := (OpenURI c None uri).1).
  assert (steps c program = step (steps c1 (ok_ops l)) (OpCloseURI uri, None)) as ->
    by (unfold program, ok_ops; rewrite fmap_cons, fmap_app; simpl; by rewrite steps_app).
  assert (taken c program = i :: taken c1 (ok_ops l)) as Ht
    by (unfold program, ok_ops; rewrite fmap_cons, fmap_app; simpl; rewrite taken_app; simpl; by rewrite app_nil_r).
  rewrite Ht in Hn. simpl in Hn.
  assert (i ∉ taken c1 (ok_ops l)) as Hi.
  { apply (NoDup_cons_1_1 i), (taken_NoDup c1 (ok_ops l)); [apply to_i32_range|lia]. }
  destruct (steps_wire l c1 i Hi) as (w & Hw & Hlv).
  assert (reqMapping (steps c1 (ok_ops l)) !! uri = Some i) as Hmap
    by (apply steps_mapping; [done|apply lookup_insert_eq]).
  exists w. split; [|done]. simpl. unfold CloseURI. rewrite Hmap. simpl. rewrite Hw. simpl.
  by rewrite <-!app_assoc.
Qed.
End client.

(* ------------------------------------------------------------------ *)
(** * A client and a server *)

Section server_side.
Context `{BadgerLaws} `{!ProtoCodec Msg.t} `{Sha256}.
Implicit Types (st : session) (req : FeedReq.t).

(** A stream is where it was opened, or cancelled. *)
Definition tracked (i : Z) (s : Stream) st : Prop :=
  streams (conn st) !! i = Some s ∨ ptr s ∈ cancelled (conn st).

Lemma append_conn st now (req : option FeedReq.t) st' msg : append st now req = Ok (st', msg) → conn st' = conn st.
Proof.
  unfold append. case_decide; [by intros [= <- <-]|]. case_match; [by intros [= <- <-]|].
  destruct (Store_Channel _ _) as [s [c|e|]]; [|by intros [= <- <-]|done].
  destruct (Append _ _ _ _) as [d [k|e|]]; [by intros [= <- <-]..|done].
Qed.

Lemma open_tracked i s st req st' msg :
  tracked i s st → FeedReq.ReqID req ≠ i → open st (Some req) = Ok (st', msg) → tracked i s st'.
Proof.
  intros Ht Hi. unfold open. case_decide; [by intros [= <- <-]|]. case_decide; [by intros [= <- <-]|].
  destruct (Store_Channel _ _) as [s' [c|e|]]; [|by intros [= <- <-]|done].
  destruct (Subscribe _ _ _) as [c' eff]. unfold tracked.
  destruct eff; [..|done]; intros [= <- <-]; simpl; by rewrite lookup_insert_ne.
Qed.

(** [OpenURI]'s request opens a stream under its number. *)
Lemma open_stream i uri st st' msg :
  uri ≠ [] → open st (Some (open_request i uri)) = Ok (st', msg) → session_ok st →
  streams (conn st') !! i = Some (mkStream (next_ptr (conn st)) (conn_id (conn st)) i).
Proof.
  intros Hu Ho (Hs & Hsub & _). unfold open in Ho. rewrite decide_False in Ho by done.
  rewrite decide_False in Ho by done.
  destruct (Store_Channel_ok (v_db st) _ Hs Hsub (channelID_length uri)) as (s & c & Hc & _).
  change (OpenFeedReq.GetFeedURI _) with uri in Ho. rewrite Hc in Ho. cbv beta iota in Ho.
  destruct (Subscribe _ _ _) as [c' eff].
  destruct eff; [..|done]; apply (inj Ok) in Ho; injection Ho as <- _; simpl; by rewrite lookup_insert_eq.
Qed.

Lemma close_tracked i s st req :
  conn_ok (conn st) → tracked i s st → tracked i s (close st (Some req)).1.
Proof.
  intros [Hcn _]. unfold tracked, close. simpl. set (j := FeedReq.GetReqID (Some req)).
  destruct (streams (conn st) !! j) as [s'|] eqn:Hj; [|done]. simpl.
  destruct (Hcn j s' Hj) as (-> & _). intros [Hi|Hi]; [|right; by right].
  destruct (decide (j = i)) as [->|Hne]; [right; simplify_eq; left|left; by rewrite lookup_delete_ne].
Qed.

Lemma dispatch_tracked i s st now req st' msg :
  conn_ok (conn st) → tracked i s st → leaves i req →
  dispatch st now (Some req) = Ok (st', msg) → tracked i s st'.
Proof.
  intros Hcn Ht Hl. unfold dispatch, new. change (FeedReq.GetReqOp (Some req)) with (FeedReq.ReqOp req).
  assert (∀ o, o = conn st → ∀ s', conn s' = o → tracked i s s') as Hsame
    by (intros o -> s' Hs'; unfold tracked; by rewrite Hs').
  case_match; [intros (m & _ & Ha%append_conn)%append_responds; by eapply Hsame|].
  destruct (Z.eqb_spec (FeedReq.ReqOp req) ReqOp_OpenFeed) as [Ho|Ho].
  { apply open_tracked; [done|]. destruct Hl as [|Hl]; [done|]. by rewrite Ho in Hl. }
  case_match; [pose proof (close_tracked i s st req Hcn Ht) as Hc; intros [= <- _]; exact Hc|].
  case_match; [intros (m & _ & Ha%append_conn)%append_responds; by eapply Hsame|]. by intros [= <- <-].
Qed.

(** The requests of a session, one after the other. *)
Fixpoint serve_all st (l : list (Time * FeedReq.t)) : outcome session :=
  match l with
  | [] => Ok st
  | (now, req) :: l => '(st, r) ← dispatch st now (Some req); serve_all (send (response r) st) l
  end.

Lemma VaultSession_served l : ∀ st st' r,
  VaultSession st l = Ok (st', r) → r ≠ Hanging → serve_all st (served l) = Ok st'.
Proof.
  induction l as [|[[] now [req| |e] tk] l IH]; intros st st' r; simpl; try by intros [= <- <-].
  destruct (dispatch st now (Some req)) as [[st1 [msg|i o msg]]|e|]; simpl; [apply IH| |done..].
  destruct tk; [apply IH|by intros [= <- <-]].
Qed.

Lemma serve_all_app l1 l2 st : serve_all st (l1 ++ l2) = (st ← serve_all st l1; serve_all st l2).
Proof.
  revert st; induction l1 as [|[now req] l1 IH]; intros st; simpl; [done|].
  destruct (dispatch st now (Some req)) as [[st1 msg]|e|]; simpl; [apply IH|done..].
Qed.

Lemma serve_all_tracked i s l : ∀ st st',
  session_ok st → tracked i s st → Forall (leaves i) l.*2 →
  serve_all st l = Ok st' → session_ok st' ∧ tracked i s st'.
Proof.
  induction l as [|[now req] l IH]; intros st st' Hst Ht Hl; simpl; [by intros [= <-]|].
  apply Forall_cons in Hl as [Hreq Hl].
  destruct (dispatch st now (Some req)) as [[st1 msg]|e|] eqn:Hd; simpl; [|done..].
  apply IH; [by apply dispatch_inv in Hd| |done].
  destruct Hst as (_ & _ & Hcn). by eapply (dispatch_tracked i s st) in Hd.
Qed.

(** Cancelling a tracked stream cancels it. *)
Lemma close_cancels i s st :
  conn_ok (conn st) → tracked i s st →
  let st' := (close st (Some (FeedReq.mk ReqOp_CancelReq i None None))).1 in
  streams (conn st') !! i = None ∧ ptr s ∈ cancelled (conn st').
Proof.
  intros [Hcn _] Ht. unfold close. change (FeedReq.GetReqID _) with i. simpl.
  destruct (streams (conn st) !! i) as [s'|] eqn:Hi; simpl.
  - destruct (Hcn i s' Hi) as (-> & _). rewrite lookup_delete_eq. split; [done|].
    destruct Ht as [Ht|Ht]; [simplify_eq; left|by right].
  - split; [done|]. destruct Ht as [Ht|Ht]; [congruence|done].
Qed.
End server_side.

(* ------------------------------------------------------------------ *)
(** * The test program *)

(** [tests/main.go]: [main] closes its client, having no request to send, and
    waits for the goroutine that receives to close [waitc]. *)
Inductive test_end := Exited | Fatally (text : gostring).

Record test_program := mkTest {
  tp_client : Client;
  tp_closed : bool;        (* [main] has called [Close] *)
  tp_waitc : bool;         (* [waitc] is closed *)
  tp_end : option test_end;
}.

Inductive test_label :=
  | TReceives (r : recv_result)
  | TCloses
  | TExits.

(** [main] up to the goroutine, given what the client is started with. *)
Definition test_main (dialed opened : option error) : outcome test_program :=
  match New dialed opened with
  | Ok client => Ok (mkTest client false false None)
  | _ => Panic
  end.

Definition test_step (l : test_label) (s : test_program) : option test_program :=
  match tp_end s, l with
  | Some _, _ => None
  | None, TReceives r =>
      if tp_waitc s then None
      else match Client_Recv (tp_client s) r with
           | (c, Ok _) => Some (mkTest c (tp_closed s) false None)
           | (c, Err err) =>
               Some (if decide (err = ErrorStreamClosed) then mkTest c (tp_closed s) true None
                     else mkTest c (tp_closed s) false (Some (Fatally (str "Failed to receive a message : " ++ Error err))))
           | (_, Panic) => None
           end
  | None, TCloses =>
      if tp_closed s then None else Some (mkTest (Close (tp_client s)) true (tp_waitc s) None)
  | None, TExits =>
      if tp_closed s && tp_waitc s then Some (mkTest (tp_client s) true true (Some Exited)) else None
  end.

(** It ends well only if the server has closed the stream; but [main] itself
    cancels the context of the session, of which [Recv] reports another error,
    and that is fatal. *)
Lemma test_program_needs_eof s0 (ls : list test_label) s :
  test_main None None = Ok s0 → Forall (λ l, l ≠ TReceives (GotErr ErrorStreamClosed)) ls →
  play test_step ls s0 = Some s → tp_end s = Some Exited → TReceives GotEOF ∈ ls.
Proof.
  intros [= <-] Hls. assert (∀ s0, tp_end s0 ≠ Some Exited → tp_waitc s0 = false → play test_step ls s0 = Some s →
    tp_end s = Some Exited → TReceives GotEOF ∈ ls) as Hind; [|by apply Hind].
  induction Hls as [|l ls Hl _ IH]; intros s0 Hend Hw; [by intros [= ->]|]. cbn [play].
  destruct (test_step l s0) as [s1|] eqn:Hs; [|done]. simpl. intros Hp He.
  assert (l = TReceives GotEOF ∨ (tp_end s1 ≠ Some Exited ∧ tp_waitc s1 = false)) as [->|[He1 Hw1]]; [|left|right; by apply (IH s1)].
  revert Hs. unfold test_step. destruct (tp_end s0); [done|]. rewrite Hw.
  destruct l as [[msg| |err]| |]; simpl; [intros [= <-]; by right|by left| | |].
  - rewrite decide_False by congruence. intros [= <-]. by right.
  - destruct (tp_closed s0); [done|]. intros [= <-]. by right.
  - by rewrite andb_false_r.
Qed.

(* ------------------------------------------------------------------ *)
(** * Properties *)

(** Request numbers are consecutive, wrapping around at 32 bits, and
    no two of the last 2^32 are equal, whatever is sent and whichever sends
    fail. *)
Lemma client_ids_unique quote c (l : list (op * option error)) :
  - 2 ^ 31 ≤ counter c < 2 ^ 31 → Z.of_nat (length (taken quote c l)) < 2 ^ 32 →
  NoDup (counter c :: taken quote c l) ∧
  ∀ i n, taken quote c l !! i = Some n → n = to_i32 (counter c + Z.of_nat (S i)).
Proof.
  intros Hr Hn. split; [by apply taken_NoDup|]. intros i n.
  assert (counter c = to_i32 (counter c + Z.of_nat 0)) as Hc by (unfold to_i32; rewrite Z.mod_small; lia).
  rewrite (taken_seq quote l c (counter c) 0 Hc), list_lookup_fmap.
  destruct (seq 1 (length (taken quote c l)) !! i) as [j|] eqn:Hj; [|done].
  apply lookup_seq in Hj as [-> _]. by intros [= <-].
Qed.

(** C18: closing a URI at the client closes at the server the stream that
    opening it had opened: between the two the client may do anything but
    open the URI again, up to 2^32 numbered requests, and the server is in
    any state; when it has served what was sent (no re-opening has left the
    session hanging), the stream's context is cancelled and its request id is free. *)
Theorem client_close_cancels `{BadgerLaws} `{!ProtoCodec Msg.t} `{Sha256} quote
    c (uri : gostring) (l : list op) st (ts : list turn) st' r w :
  uri ≠ [] → - 2 ^ 31 ≤ counter c < 2 ^ 31 → Forall (λ o, o ≠ OpOpenURI uri) l →
  let program := ok_ops (OpOpenURI uri :: l ++ [OpCloseURI uri]) in
  Z.of_nat (length (taken quote c program)) < 2 ^ 32 →
  wire (steps quote c program) = wire c ++ w →
  session_ok st → (served ts).*2 = w → VaultSession st ts = Ok (st', r) → r ≠ Hanging →
  let i := to_i32 (counter c + 1) in
  streams (conn st') !! i = None ∧
  ∃ s, s = mkStream (next_ptr (conn st)) (conn_id (conn st)) i ∧ ptr s ∈ cancelled (conn st') ∧
    ∃ st1 msg, open st (Some (open_request i uri)) = Ok (st1, msg) ∧ streams (conn st1) !! i = Some s.
Proof.
  intros Hu Hr Hl program Hn Hw Hst Hserved Hrun Hend i.
  destruct (program_wire quote c uri l Hr Hl Hn) as (w1 & Hw1 & Hlv). fold i in Hw1, Hlv.
  unfold program in Hw. rewrite Hw1 in Hw. apply app_inv_head in Hw as <-.
  apply VaultSession_served in Hrun; [|done]. revert Hserved Hrun. generalize (served ts) as qs. intros qs Hqs.
  apply fmap_cons_inv in Hqs as ([now req] & qs1 & Hreq & Hqs1 & ->). simpl in Hreq. subst req.
  symmetry in Hqs1. apply fmap_app_inv in Hqs1 as (qs2 & qs3 & Hqs2 & Hqs3 & ->).
  symmetry in Hqs3. apply fmap_cons_inv in Hqs3 as ([now' req] & qs4 & Hreq & Hqs4 & ->). simpl in Hreq. subst req.
  symmetry in Hqs4. apply fmap_nil_inv in Hqs4 as ->. cbn [serve_all].
  destruct (dispatch st now (Some (open_request i uri))) as [[st1 msg]|e|] eqn:Hd; simpl; [|done..].
  assert (open st (Some (open_request i uri)) = Ok (st1, msg)) as Ho by done.
  set (s := mkStream (next_ptr (conn st)) (conn_id (conn st)) i).
  assert (streams (conn st1) !! i = Some s) as Hs by (eapply open_stream; done).
  rewrite serve_all_app. destruct (serve_all (send (response msg) st1) qs2) as [st2|e|] eqn:Hq2; simpl; [|done..].
  destruct (serve_all_tracked i s qs2 (send (response msg) st1) st2) as [[_ [_ Hcn2]] Ht2]; [..|done|];
    [by apply dispatch_inv in Hd|by left|by rewrite <-Hqs2|].
  pose proof (close_cancels i s st2 Hcn2 Ht2) as [Hnone Hin]. intros [= <-].
  split; [exact Hnone|]. exists s. split; [done|]. split; [exact Hin|]. by exists st1, msg.
Qed.

(* ------------------------------------------------------------------ *)
(** * Witnesses *)

Module ClientExamples.
Import MemDB RefCodec RefHash StoreExamples ServerExamples.

Definition c0 : Client := mkClient false [] ∅ 0.
Definition no_quote (s : gostring) : gostring := s.
Definition sent_requests : list FeedReq.t :=
  [open_request 1 uri; req_append 2; cancel_request 1].

Lemma session_runs : ∃ st, VaultSession st0 (turns sent_requests) = Ok (st, Looping).
Proof.
  assert (match VaultSession st0 (turns sent_requests) with Ok (_, Looping) => true | _ => false end = true) as Hb
    by (vm_compute; reflexivity).
  destruct (VaultSession _ _) as [[st []]|e|]; try discriminate Hb. by exists st.
Qed.

Lemma client_ids_unique_witness :
  taken no_quote (mkClient false [] ∅ (2 ^ 31 - 1)) (ok_ops [OpOpenURI uri]) = [- 2 ^ 31].
Proof.
  destruct (client_ids_unique no_quote (mkClient false [] ∅ (2 ^ 31 - 1)) (ok_ops [OpOpenURI uri]))
    as [_ Hi]; [simpl; lia|simpl; lia|].
  pose proof (Hi 0%nat _ eq_refl) as Hn. reflexivity.
Defined.

Lemma client_close_cancels_witness :
  ∃ st, VaultSession st0 (turns sent_requests) = Ok (st, Looping) ∧ streams (conn st) !! 1 = None.
Proof.
  destruct session_runs as [st Hr]. exists st. split; [exact Hr|].
  apply (client_close_cancels no_quote c0 uri [OpSend (req_append 9)] st0 (turns sent_requests) st Looping
           sent_requests); [done|simpl; lia|by repeat constructor|simpl; lia|done|apply st0_ok|done|exact Hr|done].
Defined.
End ClientExamples.
