(* ===== verification/Crypto.v ===== *)
(** The cryptography under [keyring]: [golang.org/x/crypto/nacl] and
    [github.com/libp2p/go-libp2p-core/crypto].

    Neither is part of the repository.  [NaCl] lists the four NaCl functions,
    keys being pointers as in Go (a nil key makes them panic or not, as they
    like); [NaClLaws] is what their documentation promises of honest use: what
    was sealed opens under the same key and nonce, what was signed opens under
    the matching public key.  Nothing is assumed about forgeries: the theorems
    about what is rejected say which check rejects it.  [P2PKeys] is the key
    interface of libp2p.  [RefCrypto] implements them for the examples. *)
From S2P Require Import Prelude.

Class NaCl := {
  (** [secretbox.Seal(out, message, nonce, key)] *)
  secretbox_Seal : bytes → bytes → bytes → option bytes → outcome bytes;
  (** [secretbox.Open(nil, box, nonce, key)] *)
  secretbox_Open : bytes → bytes → option bytes → outcome (option bytes);
  (** [sign.Sign(nil, message, privateKey)] *)
  sign_Sign : bytes → option bytes → outcome bytes;
  (** [sign.Open(nil, signedMessage, publicKey)] *)
  sign_Open : bytes → option bytes → outcome (option bytes);
}.

Class NaClLaws `{NaCl} := {
  (** a public key and its private key *)
  key_pair : bytes → bytes → Prop;
  Seal_ok out m n k : ∃ box, secretbox_Seal out m n (Some k) = Ok (out ++ box)
    ∧ secretbox_Open box n (Some k) = Ok (Some m);
  Open_no_panic box n k : secretbox_Open box n (Some k) ≠ Panic;
  Open_no_error box n k e : secretbox_Open box n (Some k) ≠ Err e;
  Sign_ok m pub priv : key_pair pub priv → ∃ s, sign_Sign m (Some priv) = Ok s
    ∧ s ≠ [] ∧ sign_Open s (Some pub) = Ok (Some m);
  sign_Open_no_panic s k : sign_Open s (Some k) ≠ Panic;
  sign_Open_no_error s k e : sign_Open s (Some k) ≠ Err e;
}.

(** Keys of [libp2p-core/crypto], and how the code converts them. *)
Class P2PKeys := {
  PrivKey : Type;
  PubKey : Type;
  GetPublic : PrivKey → PubKey;
  PubKey_Raw : PubKey → outcome bytes;
  PrivKey_Raw : PrivKey → outcome bytes;
  (** [libpeer.IDFromPublicKey] *)
  IDFromPublicKey : PubKey → outcome bytes;
  MarshalPrivateKey : PrivKey → outcome bytes;
  UnmarshalPrivateKey : bytes → outcome PrivKey;
  ConfigEncodeKey : bytes → gostring;
  ConfigDecodeKey : gostring → outcome bytes;
}.

Class P2PKeysLaws `{P2PKeys} := {
  Unmarshal_Marshal_key k b : MarshalPrivateKey k = Ok b → UnmarshalPrivateKey b = Ok k;
  Decode_Encode_key b : ConfigDecodeKey (ConfigEncodeKey b) = Ok b;
}.

Module RefCrypto.
(** The key in front of the message is the box; the public half of the private
    key and thirty-two zeros are the signature. *)
#[export] Instance nacl : NaCl := {|
  secretbox_Seal out m n k :=
    match k with Some k => Ok (out ++ k ++ m) | None => Panic end;
  secretbox_Open box n k :=
    match k with
    | Some k => Ok (if has_prefix k box then Some (drop (length k) box) else None)
    | None => Panic
    end;
  sign_Sign m k :=
    match k with Some k => Ok (drop 32 k ++ zeros 32 ++ m) | None => Panic end;
  sign_Open s k :=
    match k with
    | Some k =>
        Ok (if decide (take 64 s = k ++ zeros 32) then Some (drop 64 s) else None)
    | None => if decide (length s < 64)%nat then Ok None else Panic
    end;
|}.

#[export] Instance nacl_laws : NaClLaws.
Proof.
  refine {| key_pair pub priv := length pub = 32%nat ∧ drop 32 priv = pub |};
    cbn [secretbox_Seal secretbox_Open sign_Sign sign_Open nacl]; try done.
  - intros out m n k. exists (k ++ m). split; [done|].
    by rewrite has_prefix_app, drop_app_length.
  - intros m pub priv [Hl <-]. eexists. split; [done|]. split.
    + by destruct (drop 32 priv).
    + rewrite app_assoc. assert (length (drop 32 priv ++ zeros 32) = 64%nat) as H64 by (rewrite length_app, Hl; done).
      rewrite decide_True by (by rewrite take_app_length').
      by rewrite drop_app_length'.
Defined.

(** A private key is its sixty-four bytes, in which the public key is. *)
#[export] Instance p2p : P2PKeys := {|
  PrivKey := bytes;
  PubKey := bytes;
  GetPublic k := drop 32 k;
  PubKey_Raw k := Ok k;
  PrivKey_Raw k := Ok k;
  IDFromPublicKey k := Ok k;
  MarshalPrivateKey k := Ok k;
  UnmarshalPrivateKey b := Ok b;
  ConfigEncodeKey b := b;
  ConfigDecodeKey s := Ok s;
|}.

#[export] Instance p2p_laws : P2PKeysLaws.
Proof. split; simpl; [by intros k b [= <-]|done]. Qed.
End RefCrypto.
