(* ===== verification/Keyring.v ===== *)
(** [keyring/keyring.go] and [keyring/types.go]: the keys of a vault and the
    encoding of entries.

    A key ring has a key set per channel URI; a key is a pointer to an array,
    here an optional byte list, and nothing in the repository writes through
    such a pointer.  The operations hold the ring's lock, so each is a function
    on the ring.  [MemberID: ks.MemberID[:]] in [EncodeEntry] shares the key
    set's array with the message; the model takes its value, as it is until the
    next [AddKeyPair] on the channel.  The clock and the random bytes of
    [EncodeEntry] are arguments. *)
From S2P Require Import Prelude Protos Helpers Base64 Crypto.

Definition ErrorDecryptFailedAsym : error :=
  Sentinel (str "keyring.ErrorDecryptFailedAsym") (str "assymmetric decryption failed").
Definition ErrorDecryptFailedSym : error :=
  Sentinel (str "keyring.ErrorDecryptFailedSym") (str "symmetric decryption failed").
Definition ErrorInvalidSignature : error :=
  Sentinel (str "keyring.ErrorInvalidSignature") (str "invalid or missing signature").
Definition ErrorUnknownChannel : error :=
  Sentinel (str "keyring.ErrorUnknownChannel") (str "unknown channel").
Definition ErrorUnknownKey : error :=
  Sentinel (str "keyring.ErrorUnknownKey") (str "unknown key").

Definition saltLen : nat := 24.

(** [*[32]byte], [*[32]byte], [*[64]byte], [[20]byte] *)
Abbreviation CommunityKey := (option bytes) (only parsing).
Abbreviation MemberPublicKey := (option bytes) (only parsing).
Abbreviation MemberPrivateKey := (option bytes) (only parsing).
Abbreviation MemberID := bytes (only parsing).

(* ------------------------------------------------------------------ *)
(** * [types.go] *)

Definition MemberPrivateKeyFromBytes (b : bytes) : MemberPrivateKey := Some (copy_at (zeros 64) 0 b).
Definition MemberPublicKeyFromBytes (b : bytes) : MemberPublicKey := Some (copy_at (zeros 32) 0 b).
Definition MemberIDFromString (s : gostring) : MemberID := copy_at (zeros 20) 0 s.

Definition MemberPublicKeyDecodeBase64 (s : gostring) : outcome MemberPublicKey :=
  b ← DecodeString s; Ok (MemberPublicKeyFromBytes b).

(** A key that was written in base64 is read back. *)
Lemma base64_key_roundtrip k : length k = 32%nat → MemberPublicKeyDecodeBase64 (EncodeToString k) = Ok (Some k).
Proof.
  intros Hk. unfold MemberPublicKeyDecodeBase64, MemberPublicKeyFromBytes. rewrite DecodeString_EncodeToString. simpl.
  pose proof (copy_at_zeros [] 32 k) as Hc. rewrite fit_exact in Hc by done. simpl in Hc |- *. by rewrite Hc.
Qed.

Section types.
Context `{P2PKeys}.

Definition MemberPublicKeyFromP2PKey (k : PubKey) : outcome MemberPublicKey :=
  b ← PubKey_Raw k; Ok (MemberPublicKeyFromBytes b).

Definition MemberPrivateKeyFromP2PKey (k : PrivKey) : outcome MemberPrivateKey :=
  b ← PrivKey_Raw k; Ok (MemberPrivateKeyFromBytes b).

Definition MemberIDFromP2PPubKey (k : PubKey) : outcome MemberID :=
  id ← IDFromPublicKey k; Ok (MemberIDFromString id).

Definition DecodeP2PPrivKey (encoded : gostring) : outcome PrivKey :=
  b ← ConfigDecodeKey encoded; UnmarshalPrivateKey b.
End types.

(* ------------------------------------------------------------------ *)
(** * Key sets *)

Module KeySet.
Record t := mk {
  community : CommunityKey;
  member : MemberID;
  private : MemberPrivateKey;
  public : MemberPublicKey;
  memberKeys : gmap MemberID MemberPublicKey;
}.
End KeySet.

Definition NewKeySet : KeySet.t := KeySet.mk None (zeros 20) None None ∅.

Definition getMemberKey (k : KeySet.t) (id : MemberID) : outcome MemberPublicKey :=
  match KeySet.memberKeys k !! id with
  | Some key => Ok key
  | None => Err ErrorUnknownKey
  end.

Definition setMemberKey (id : MemberID) (key : MemberPublicKey) (k : KeySet.t) : KeySet.t :=
  KeySet.mk (KeySet.community k) (KeySet.member k) (KeySet.private k) (KeySet.public k)
    (<[id:=key]> (KeySet.memberKeys k)).

Definition removeMemberKey (id : MemberID) (k : KeySet.t) : KeySet.t * option error :=
  match KeySet.memberKeys k !! id with
  | None => (k, Some ErrorUnknownKey)
  | Some _ =>
      (KeySet.mk (KeySet.community k) (KeySet.member k) (KeySet.private k) (KeySet.public k)
         (delete id (KeySet.memberKeys k)), None)
  end.

(* ------------------------------------------------------------------ *)
(** * Key rings *)

Section keyring.
Context `{P2PKeys} `{NaCl}.

Record KeyRing := mkKeyRing {
  identity : option PrivKey;
  channelKeys : gmap gostring KeySet.t;
}.

Definition NewKeyRing : KeyRing := mkKeyRing None ∅.

(** [kr.channelKeys[channelURI]], made if it is missing, and changed. *)
Definition update_keyset (channelURI : gostring) (f : KeySet.t → KeySet.t) (kr : KeyRing) : KeyRing :=
  let ks := match channelKeys kr !! channelURI with Some ks => ks | None => NewKeySet end in
  mkKeyRing (identity kr) (<[channelURI:=f ks]> (channelKeys kr)).

Definition AddCommunityKey (channelURI : gostring) (key : CommunityKey) (kr : KeyRing) : KeyRing :=
  update_keyset channelURI (λ ks,
    KeySet.mk key (KeySet.member ks) (KeySet.private ks) (KeySet.public ks) (KeySet.memberKeys ks)) kr.

Definition AddKeyPair (channelURI : gostring) (id : MemberID) (pub : MemberPublicKey)
    (priv : MemberPrivateKey) (kr : KeyRing) : KeyRing :=
  update_keyset channelURI (λ ks,
    setMemberKey id pub (KeySet.mk (KeySet.community ks) id priv pub (KeySet.memberKeys ks))) kr.

Definition GetIdentityKey (kr : KeyRing) : option PrivKey := identity kr.

Definition AddMemberKey (channelURI : gostring) (id : MemberID) (pub : MemberPublicKey)
    (kr : KeyRing) : KeyRing :=
  update_keyset channelURI (setMemberKey id pub) kr.

(** The error of [removeMemberKey] is dropped. *)
Definition RemoveMemberKey (channelURI : gostring) (id : MemberID) (kr : KeyRing) : KeyRing * option error :=
  match channelKeys kr !! channelURI with
  | None => (kr, Some ErrorUnknownKey)
  | Some ks =>
      (mkKeyRing (identity kr) (<[channelURI:=(removeMemberKey id ks).1]> (channelKeys kr)), None)
  end.

Definition keyset (kr : KeyRing) (channelURI : gostring) : option KeySet.t :=
  channelKeys kr !! channelURI.

(** [encrypted[:saltLen]] and [encrypted[saltLen:]] panic on a short slice. *)
Definition decryptEntry (encrypted : bytes) (communityKey : CommunityKey) : outcome bytes :=
  if decide (length encrypted < saltLen)%nat then Panic
  else
    decrypted ← secretbox_Open (drop saltLen encrypted) (take saltLen encrypted) communityKey;
    match decrypted with
    | Some b => Ok b
    | None => Err ErrorDecryptFailedSym
    end.

(** [salt] is what [crand.Read] filled the array with. *)
Definition encryptEntry (communityKey : CommunityKey) (entry : bytes) (salt : outcome bytes) : outcome bytes :=
  salt ← salt; secretbox_Seal salt entry salt communityKey.

Definition signEntry (privateKey : MemberPrivateKey) (message : bytes) : outcome bytes :=
  sign_Sign message privateKey.

Definition verifyEntry (signed : bytes) (pubKey : MemberPublicKey) : outcome (option bytes) :=
  sign_Open signed pubKey.

Definition EncodeEntry (kr : KeyRing) (now : Time) (rnd : bytes) (salt : outcome bytes)
    (body : bytes) (channelURI : gostring) : outcome Msg.t :=
  match keyset kr channelURI with
  | None => Err ErrorUnknownChannel
  | Some ks =>
      cipherText ← encryptEntry (KeySet.community ks) body salt;
      signed ← signEntry (KeySet.private ks) cipherText;
      Ok (Msg.mk MsgOp_FeedEntry 0
            (Some (EntryHeader.mk (Some (NewEntryID now rnd)) (Some (KeySet.member ks)) None [] channelURI))
            (Some signed) None None)
  end.

Definition DecodeEntry (kr : KeyRing) (entry : option Msg.t) : outcome bytes :=
  match entry with
  | None => Panic
  | Some e =>
      let channelURI := EntryHeader.GetFeedURI (Msg.EntryHeader e) in
      match keyset kr channelURI with
      | None => Err ErrorUnknownChannel
      | Some ks =>
          match Msg.GetBody entry with
          | None => Err ErrorInvalidSignature
          | Some signed =>
              let memberID := EntryHeader.GetMemberID (Msg.EntryHeader e) in
              let mID := copy_at (zeros 20) 0 (sbytes memberID) in
              match getMemberKey ks mID with
              | Err _ => Err ErrorInvalidSignature
              | Panic => Panic
              | Ok sender =>
                  verified ← verifyEntry signed sender;
                  match verified with
                  | None => Err ErrorInvalidSignature
                  | Some verified => decryptEntry verified (KeySet.community ks)
                  end
              end
          end
      end
  end.
End keyring.

(* ------------------------------------------------------------------ *)
(** * Lemmas *)

Section lemmas.
Context `{P2PKeys} `{NaClLaws}.
Implicit Types (kr : KeyRing) (ks : KeySet.t) (uri : gostring) (id : MemberID) (e : Msg.t).

(** The id a message claims, as [DecodeEntry] reads it. *)
Definition claimed e : MemberID :=
  copy_at (zeros 20) 0 (sbytes (EntryHeader.GetMemberID (Msg.EntryHeader e))).

Definition entry_uri e : gostring := EntryHeader.GetFeedURI (Msg.EntryHeader e).

(** Every key set has its community key, and member keys that are not nil. *)
Definition ring_ok kr : Prop :=
  map_Forall (λ _ ks, is_Some (KeySet.community ks) ∧ map_Forall (λ _ k, is_Some k) (KeySet.memberKeys ks))
    (channelKeys kr).

(** A sender's and a receiver's rings agree on a channel: the same community
    key, and the receiver has the sender's public key under its id. *)
Definition shares kr kr' uri : Prop :=
  ∃ ks ks' k pub priv,
    keyset kr uri = Some ks ∧ keyset kr' uri = Some ks' ∧
    KeySet.community ks = Some k ∧ KeySet.community ks' = Some k ∧
    KeySet.private ks = Some priv ∧ key_pair pub priv ∧ length (KeySet.member ks) = 20%nat ∧
    KeySet.memberKeys ks' !! KeySet.member ks = Some (Some pub).

Lemma keyset_update uri uri' f kr :
  keyset (update_keyset uri f kr) uri' =
    if decide (uri' = uri) then Some (f (default NewKeySet (keyset kr uri))) else keyset kr uri'.
Proof.
  unfold keyset, update_keyset. simpl. case_decide as Hu.
  - subst. rewrite lookup_insert_eq. by destruct (channelKeys kr !! uri).
  - by rewrite lookup_insert_ne.
Qed.

(** What [DecodeEntry] does depends on the channel's key set alone. *)
Lemma DecodeEntry_keyset kr kr' e :
  keyset kr (entry_uri e) = keyset kr' (entry_uri e) → DecodeEntry kr (Some e) = DecodeEntry kr' (Some e).
Proof. unfold DecodeEntry, entry_uri. by intros ->. Qed.

Lemma EncodeEntry_keyset kr kr' now rnd salt body uri :
  keyset kr uri = keyset kr' uri → EncodeEntry kr now rnd salt body uri = EncodeEntry kr' now rnd salt body uri.
Proof. unfold EncodeEntry. by intros ->. Qed.

(** [DecodeEntry] once the channel, the body and the sender are known. *)
Lemma DecodeEntry_sender kr e ks signed sender :
  keyset kr (entry_uri e) = Some ks → Msg.Body e = Some signed →
  KeySet.memberKeys ks !! claimed e = Some sender →
  DecodeEntry kr (Some e) =
    verified ← sign_Open signed sender;
    match verified with
    | None => Err ErrorInvalidSignature
    | Some m => decryptEntry m (KeySet.community ks)
    end.
Proof.
  unfold DecodeEntry, entry_uri, claimed, getMemberKey. intros -> Hb Hk.
  change (Msg.GetBody (Some e)) with (Msg.Body e). by rewrite Hb, Hk.
Qed.

Lemma DecodeEntry_no_sender kr e ks :
  keyset kr (entry_uri e) = Some ks → KeySet.memberKeys ks !! claimed e = None →
  DecodeEntry kr (Some e) = Err ErrorInvalidSignature.
Proof.
  unfold DecodeEntry, entry_uri, claimed, getMemberKey. intros -> Hk.
  change (Msg.GetBody (Some e)) with (Msg.Body e). rewrite Hk. by destruct (Msg.Body e).
Qed.

Lemma decryptEntry_Seal salt box k b :
  length salt = saltLen → secretbox_Open box salt (Some k) = Ok (Some b) →
  decryptEntry (salt ++ box) (Some k) = Ok b.
Proof.
  intros Hs Hb. unfold decryptEntry. rewrite decide_False by (rewrite length_app; lia).
  rewrite drop_app_length', take_app_length' by done. by rewrite Hb.
Qed.

Lemma Encode_decodes kr kr' uri now rnd salt body :
  shares kr kr' uri → length salt = saltLen →
  ∃ msg, EncodeEntry kr now rnd (Ok salt) body uri = Ok msg ∧ entry_uri msg = uri ∧
    DecodeEntry kr' (Some msg) = Ok body ∧ DecodeEntry kr' (Some (canon msg)) = Ok body.
Proof.
  intros (ks & ks' & k & pub & priv & Hks & Hks' & Hk & Hk' & Hpriv & Hpair & Hlen & Hmem) Hsalt.
  destruct (Seal_ok salt body salt k) as (box & Hseal & Hopen).
  destruct (Sign_ok (salt ++ box) pub priv Hpair) as (signed & Hsign & Hne & Hver).
  set (msg := Msg.mk MsgOp_FeedEntry 0
    (Some (EntryHeader.mk (Some (NewEntryID now rnd)) (Some (KeySet.member ks)) None [] uri)) (Some signed) None None).
  exists msg. split; [|split; [done|]].
  { unfold EncodeEntry. rewrite Hks, Hk, Hpriv. unfold encryptEntry, signEntry. simpl.
    rewrite Hseal. simpl. by rewrite Hsign. }
  assert (∀ e, entry_uri e = uri → Msg.Body e = Some signed → claimed e = KeySet.member ks →
    DecodeEntry kr' (Some e) = Ok body) as Hdec.
  { intros e Hu Hb Hc. rewrite (DecodeEntry_sender kr' e ks' signed (Some pub)); [|congruence..].
    rewrite Hver, Hk'. by apply decryptEntry_Seal. }
  assert (copy_at (zeros 20) 0 (KeySet.member ks) = KeySet.member ks) as Hm
    by (rewrite copy_zeros; by apply fit_exact).
  split; apply Hdec; [done|done|exact Hm|done|by destruct signed|].
  unfold claimed. change (EntryHeader.GetMemberID _) with (canon_slice (Some (KeySet.member ks))).
  by rewrite canon_slice_bytes.
Qed.

(** ** Properties *)

(** ** Outcomes *)

(** [m] is what the entry's body carries under a signature of the member it
    names, whose key is known in the entry's channel. *)
Definition verifies kr e (m : bytes) : Prop :=
  ∃ ks signed pub, keyset kr (entry_uri e) = Some ks ∧ Msg.Body e = Some signed ∧
    KeySet.memberKeys ks !! claimed e = Some (Some pub) ∧ sign_Open signed (Some pub) = Ok (Some m).

(** The channel's community key, with the salt that [m] begins with, makes [r]
    of the rest. *)
Definition opens kr e (m : bytes) (r : option bytes) : Prop :=
  ∃ ks, keyset kr (entry_uri e) = Some ks ∧
    secretbox_Open (drop saltLen m) (take saltLen m) (KeySet.community ks) = Ok r.

Lemma verifies_inj kr e m m' : verifies kr e m → verifies kr e m' → m = m'.
Proof. intros (? & ? & ? & ? & ? & ? & ?) (? & ? & ? & ? & ? & ? & ?). congruence. Qed.

Lemma opens_inj kr e m r r' : opens kr e m r → opens kr e m r' → r = r'.
Proof. intros (? & ? & ?) (? & ? & ?). congruence. Qed.

Lemma verifies_channel kr e m : verifies kr e m → ∃ ks, keyset kr (entry_uri e) = Some ks.
Proof. intros (ks & ? & ? & ? & _). by exists ks. Qed.

Inductive decoding kr e : outcome bytes → Prop :=
  | decoding_no_channel : keyset kr (entry_uri e) = None → decoding kr e (Err ErrorUnknownChannel)
  | decoding_unverified :
      keyset kr (entry_uri e) ≠ None → (∀ m, ¬ verifies kr e m) → decoding kr e (Err ErrorInvalidSignature)
  | decoding_short m : verifies kr e m → (length m < saltLen)%nat → decoding kr e Panic
  | decoding_sealed m :
      verifies kr e m → (saltLen ≤ length m)%nat → opens kr e m None → decoding kr e (Err ErrorDecryptFailedSym)
  | decoding_opened m b :
      verifies kr e m → (saltLen ≤ length m)%nat → opens kr e m (Some b) → decoding kr e (Ok b).

Lemma DecodeEntry_decoding kr e : ring_ok kr → decoding kr e (DecodeEntry kr (Some e)).
Proof.
  intros Hok. destruct (keyset kr (entry_uri e)) as [ks|] eqn:Hks.
  2: { unfold DecodeEntry. pose proof Hks as Hks'. unfold entry_uri in Hks. rewrite Hks. by apply decoding_no_channel. }
  assert (keyset kr (entry_uri e) ≠ None) as Hne by by rewrite Hks.
  destruct (Hok (entry_uri e) ks Hks) as [[k Hk] Hmem].
  destruct (KeySet.memberKeys ks !! claimed e) as [sender|] eqn:Hsender.
  2: { rewrite (DecodeEntry_no_sender kr e ks) by done. apply decoding_unverified; [done|].
    intros m (ks1 & signed & pub & Hks1 & _ & Hs & _). congruence. }
  destruct (Msg.Body e) as [signed|] eqn:Hb.
  2: { assert (DecodeEntry kr (Some e) = Err ErrorInvalidSignature) as ->.
    { unfold DecodeEntry. unfold entry_uri in Hks. rewrite Hks.
      change (Msg.GetBody (Some e)) with (Msg.Body e). by rewrite Hb. }
    apply decoding_unverified; [done|]. intros m (ks1 & signed & pub & _ & Hb1 & _). congruence. }
  rewrite (DecodeEntry_sender kr e ks signed sender) by done.
  destruct (Hmem _ _ Hsender) as [pub ->].
  pose proof (sign_Open_no_panic signed pub). pose proof (sign_Open_no_error signed pub).
  destruct (sign_Open signed (Some pub)) as [[m|]|x|] eqn:Hv; simpl; [| |naive_solver..].
  2: { apply decoding_unverified; [done|]. intros m (ks1 & s1 & p1 & Hks1 & Hb1 & Hs1 & Hv1). congruence. }
  assert (verifies kr e m) as Hver by (by exists ks, signed, pub).
  unfold decryptEntry. case_decide as Hl; [by apply (decoding_short _ _ m)|]. apply not_lt in Hl.
  pose proof (Open_no_panic (drop saltLen m) (take saltLen m) k).
  pose proof (Open_no_error (drop saltLen m) (take saltLen m) k). rewrite <-Hk in *.
  destruct (secretbox_Open _ _ _) as [[b|]|x|] eqn:Ho; simpl; [| |naive_solver..].
  - apply (decoding_opened _ _ m); [done|done|by exists ks].
  - apply (decoding_sealed _ _ m); [done|done|by exists ks].
Qed.

(** Two of the conditions exclude each other. *)
Ltac one_case :=
  repeat match goal with
  | H : ∃ _, _ |- _ => destruct H
  | H : _ ∧ _ |- _ => destruct H
  | Hm : verifies ?kr ?e ?m, Hm' : verifies ?kr ?e ?m' |- _ =>
      assert (m' = m) by exact (verifies_inj kr e m' m Hm' Hm); subst m'; clear Hm'
  | Ho : opens ?kr ?e ?m ?r, Ho' : opens ?kr ?e ?m ?r' |- _ =>
      assert (r' = r) by exact (opens_inj kr e m r' r Ho' Ho); clear Ho'
  | Hm : verifies ?kr ?e _ |- _ =>
      lazymatch goal with
      | _ : keyset kr (entry_uri e) = Some _ |- _ => fail
      | _ => pose proof (verifies_channel kr e _ Hm)
      end
  end; first [congruence|lia|naive_solver].

(** C22: every outcome of [DecodeEntry] on a complete ring, and when exactly
    it comes: a body, if the channel is known, the sender is a registered
    member whose key verifies the signature, and the community key opens the box
    that follows the salt; [ErrorUnknownChannel], if the channel is not known;
    [ErrorInvalidSignature], if it is and nothing verifies;
    [ErrorDecryptFailedSym], if what verifies has a salt and the key does not
    open the rest; a panic, if what verifies has fewer than twenty-four bytes;
    and there is no other. *)
Theorem decode_outcomes kr e :
  ring_ok kr →
  (∀ b, DecodeEntry kr (Some e) = Ok b ↔
     ∃ m, verifies kr e m ∧ (saltLen ≤ length m)%nat ∧ opens kr e m (Some b)) ∧
  (DecodeEntry kr (Some e) = Err ErrorUnknownChannel ↔ keyset kr (entry_uri e) = None) ∧
  (DecodeEntry kr (Some e) = Err ErrorInvalidSignature ↔
     keyset kr (entry_uri e) ≠ None ∧ ∀ m, ¬ verifies kr e m) ∧
  (DecodeEntry kr (Some e) = Err ErrorDecryptFailedSym ↔
     ∃ m, verifies kr e m ∧ (saltLen ≤ length m)%nat ∧ opens kr e m None) ∧
  (DecodeEntry kr (Some e) = Panic ↔ ∃ m, verifies kr e m ∧ (length m < saltLen)%nat) ∧
  (∀ x, DecodeEntry kr (Some e) = Err x →
     x ∈ [ErrorUnknownChannel; ErrorInvalidSignature; ErrorDecryptFailedSym]).
Proof.
  intros Hok.
  destruct (DecodeEntry_decoding kr e Hok) as [Hn|Hne Hno|m Hm Hl|m Hm Hl Hop|m b Hm Hl Hop];
    split_and!; try intros b'; try split; try (intros [= <-]; eauto 6; fail); try (by intros [=]);
    try (intros [= <-]; rewrite !elem_of_cons; tauto); intros Hcase; one_case.
Qed.

(** Any member can bring down every other: an entry it signs over
    fewer than twenty-four bytes passes the signature check and then panics
    the decoder of whoever has its key. *)
Lemma short_entry_panics kr e ks pub priv m signed :
  keyset kr (entry_uri e) = Some ks → KeySet.memberKeys ks !! claimed e = Some (Some pub) →
  key_pair pub priv → (length m < saltLen)%nat →
  sign_Sign m (Some priv) = Ok signed → Msg.Body e = Some signed →
  DecodeEntry kr (Some e) = Panic.
Proof.
  intros Hks Hmem Hpair Hlen Hsign Hb.
  destruct (Sign_ok m pub priv Hpair) as (s & Hs & _ & Hv). rewrite Hsign in Hs. simplify_eq.
  rewrite (DecodeEntry_sender kr e ks s (Some pub)), Hv by done. simpl.
  unfold decryptEntry. by rewrite decide_True.
Qed.

(** A removed member is no longer believed, in that channel only: its
    entries there are refused, the others' decode as before, and so do all
    entries of other channels; removing a member nobody knew reports no
    error. *)
Lemma removed_member_refused kr uri id e :
  let (kr', r) := RemoveMemberKey uri id kr in
  (r = None ↔ is_Some (keyset kr uri)) ∧
  (entry_uri e = uri → claimed e = id → ∀ b, DecodeEntry kr' (Some e) ≠ Ok b) ∧
  (entry_uri e ≠ uri ∨ claimed e ≠ id → DecodeEntry kr' (Some e) = DecodeEntry kr (Some e)).
Proof.
  unfold RemoveMemberKey. destruct (channelKeys kr !! uri) as [ks|] eqn:Hks.
  2: { split; [by rewrite <-not_eq_None_Some; unfold keyset; rewrite Hks|]. split; [|done].
    intros Hu _ b. unfold DecodeEntry, keyset. unfold entry_uri in Hu. by rewrite Hu, Hks. }
  split; [unfold keyset; rewrite Hks; naive_solver|].
  set (ks' := (removeMemberKey id ks).1). set (kr' := mkKeyRing _ _).
  assert (keyset kr' uri = Some ks') as Hks' by (unfold keyset, kr'; simpl; by rewrite lookup_insert_eq).
  assert (KeySet.memberKeys ks' = delete id (KeySet.memberKeys ks)) as Hdel.
  { unfold ks', removeMemberKey. destruct (KeySet.memberKeys ks !! id) eqn:Hid; [done|].
    by rewrite delete_id. }
  split.
  - intros Hu Hc b. rewrite (DecodeEntry_no_sender kr' e ks'); [done|by rewrite Hu|].
    by rewrite Hdel, Hc, lookup_delete_eq.
  - intros [Hu|Hc].
    + apply DecodeEntry_keyset. unfold keyset, kr'. simpl. by rewrite lookup_insert_ne.
    + destruct (decide (entry_uri e = uri)) as [Hu|Hu];
        [|apply DecodeEntry_keyset; unfold keyset, kr'; simpl; by rewrite lookup_insert_ne].
      assert (KeySet.community ks' = KeySet.community ks) as Hcom
        by (unfold ks', removeMemberKey; by destruct (KeySet.memberKeys ks !! id)).
      unfold DecodeEntry. fold (entry_uri e) (claimed e). rewrite Hu, Hks'. unfold keyset. rewrite Hks.
      unfold getMemberKey. by rewrite Hdel, lookup_delete_ne, Hcom.
Qed.

(** Keys added to one channel change nothing in another, neither what
    is encoded for it nor what is decoded. *)
Theorem channels_isolated kr uri uri' k id pub priv now rnd salt body e :
  uri' ≠ uri → entry_uri e = uri' →
  Forall (λ kr', DecodeEntry kr' (Some e) = DecodeEntry kr (Some e) ∧
                 EncodeEntry kr' now rnd salt body uri' = EncodeEntry kr now rnd salt body uri')
    [AddCommunityKey uri k kr; AddKeyPair uri id pub priv kr; AddMemberKey uri id pub kr].
Proof.
  intros Hne He. unfold AddCommunityKey, AddKeyPair, AddMemberKey.
  repeat constructor; (apply DecodeEntry_keyset || apply EncodeEntry_keyset);
    rewrite ?He, keyset_update; by case_decide.
Qed.

(** C21: what one member encodes for a channel, another decodes: the set-up
    calls of the two, in whatever rings they had (the sender's key pair, the
    community key on both sides, the sender's public key at the receiver),
    give back the same body at the receiver, before and after the message's
    trip over the wire, and at the sender itself, whatever the clock and the
    random bytes were. *)
Theorem encode_decode kr kr' uri id pub priv k now rnd salt body :
  key_pair pub priv → length id = 20%nat → length salt = saltLen →
  let s := AddKeyPair uri id (Some pub) (Some priv) (AddCommunityKey uri (Some k) kr) in
  let r := AddCommunityKey uri (Some k) (AddMemberKey uri id (Some pub) kr') in
  ∃ msg, EncodeEntry s now rnd (Ok salt) body uri = Ok msg ∧
    Forall (λ e, DecodeEntry r (Some e) = Ok body ∧ DecodeEntry s (Some e) = Ok body) [msg; canon msg].
Proof.
  intros Hp Hid Hsalt s r.
  assert (keyset s uri = Some (setMemberKey id (Some pub) (KeySet.mk (Some k) id (Some priv) (Some pub)
      (KeySet.memberKeys (default NewKeySet (keyset kr uri)))))) as Hs
    by (unfold s, AddKeyPair, AddCommunityKey; by rewrite !keyset_update, !decide_True by done).
  assert (shares s s uri ∧ shares s r uri) as [Hss Hsr].
  { split; eexists _, _, k, pub, priv; (split; [exact Hs|]).
    - split; [exact Hs|]. simpl. by rewrite lookup_insert_eq.
    - split; [unfold r, AddMemberKey, AddCommunityKey; by rewrite !keyset_update, !decide_True by done|].
      simpl. by rewrite lookup_insert_eq. }
  destruct (Encode_decodes s r uri now rnd salt body Hsr Hsalt) as (msg & He & _ & Hr & Hr').
  destruct (Encode_decodes s s uri now rnd salt body Hss Hsalt) as (msg' & He' & _ & Hs1 & Hs2).
  assert (msg' = msg) as -> by congruence. exists msg. by repeat constructor.
Qed.
End lemmas.

(* ------------------------------------------------------------------ *)
(** * Witnesses *)

Module KeyringExamples.
Import RefCrypto.

Definition uri : gostring := str "/community".
Definition alice : MemberID := replicate 20 x0a.
Definition pubk : bytes := replicate 32 x01.
Definition privk : bytes := replicate 32 x02 ++ pubk.
Definition secret : bytes := replicate 32 x03.
Definition salt : bytes := replicate 24 x04.
Definition now : Time := mkTime 1600000000 5.
Definition ring : KeyRing :=
  AddKeyPair uri alice (Some pubk) (Some privk) (AddCommunityKey uri (Some secret) NewKeyRing).
(** An entry that [alice] signed over the body [m]. *)
Definition signed_by_alice (m : bytes) : Msg.t :=
  Msg.mk 0 0 (Some (EntryHeader.mk None (Some alice) None [] uri)) (Some (pubk ++ zeros 32 ++ m)) None None.

Lemma pair_ok : key_pair pubk privk.
Proof. split; [apply length_replicate|reflexivity]. Qed.

Lemma ring_is_ok : ring_ok ring.
Proof.
  apply map_Forall_insert_2; [|apply map_Forall_insert_2; [|apply map_Forall_empty]].
  - split; [by eexists|]. simpl. apply map_Forall_insert_2; [by eexists|apply map_Forall_empty].
  - split; [by eexists|apply map_Forall_empty].
Qed.

Lemma ring_shares : shares ring ring uri.
Proof.
  eexists _, _, secret, pubk, privk. split; [reflexivity|]. split; [reflexivity|].
  split_and!; try done; apply pair_ok.
Qed.

(** What [alice] signed, sealed with the community key or not, or too short. *)
Lemma decode_outcomes_witness :
  (∃ m, verifies ring (signed_by_alice (salt ++ secret ++ str "hello")) m ∧ (saltLen ≤ length m)%nat ∧
     opens ring (signed_by_alice (salt ++ secret ++ str "hello")) m (Some (str "hello"))) ∧
  (∃ m, verifies ring (signed_by_alice salt) m ∧ (saltLen ≤ length m)%nat ∧ opens ring (signed_by_alice salt) m None) ∧
  (∃ m, verifies ring (signed_by_alice (str "short")) m ∧ (length m < saltLen)%nat).
Proof.
  split_and!.
  - apply (decode_outcomes ring (signed_by_alice (salt ++ secret ++ str "hello")) ring_is_ok). vm_compute. reflexivity.
  - apply (decode_outcomes ring (signed_by_alice salt) ring_is_ok). vm_compute. reflexivity.
  - apply (decode_outcomes ring (signed_by_alice (str "short")) ring_is_ok). vm_compute. reflexivity.
Defined.

Lemma short_entry_panics_witness : DecodeEntry ring (Some (signed_by_alice (str "short"))) = Panic.
Proof.
  eapply (short_entry_panics ring (signed_by_alice (str "short")) _ pubk privk (str "short"));
    [reflexivity|reflexivity|apply pair_ok|vm_compute; lia|reflexivity|reflexivity].
Defined.

Lemma channels_isolated_witness :
  DecodeEntry (AddCommunityKey (str "/other") None ring) (Some (signed_by_alice []))
  = DecodeEntry ring (Some (signed_by_alice [])).
Proof.
  pose proof (channels_isolated ring (str "/other") uri None alice None None now [] (Ok salt) []
                (signed_by_alice [])) as Hi.
  assert (uri ≠ str "/other") as Hne by done. specialize (Hi Hne eq_refl).
  apply Forall_inv in Hi. apply Hi.
Defined.

Lemma encode_decode_witness :
  ∃ msg, EncodeEntry ring now (str "r") (Ok salt) (str "hello") uri = Ok msg ∧ DecodeEntry ring (Some msg) = Ok (str "hello").
Proof.
  destruct (encode_decode NewKeyRing NewKeyRing uri alice pubk privk secret now (str "r") salt (str "hello"))
    as (msg & He & Hd); [apply pair_ok|apply length_replicate..|].
  exists msg. split; [exact He|]. apply Forall_inv in Hd. apply Hd.
Defined.
End KeyringExamples.
