(* ===== verification/KeyFile.v ===== *)
(** [keyring/file.go]: the identity key on disk.

    The file system is a map from paths to contents.  What the environment
    decides, the key [crypto.GenerateKeyPair] makes and whether reading,
    opening and writing work, is an argument [env] of each run, so that two
    starts of a vault can differ in it.  A file is written over what it held,
    without truncation, as [os.OpenFile] is called. *)
From S2P Require Import Prelude Protos Helpers Crypto Keyring.

Definition InMemory : gostring := str ":memory:".

(** [os.ErrNotExist], and the error of [ioutil.ReadFile] on a missing file. *)
Definition ErrNotExist : error := Sentinel (str "os.ErrNotExist") (str "file does not exist").
Definition not_exist (path : gostring) : error := Wrapped (str "open " ++ path) ErrNotExist.

(** [errors.Is(err, target)] *)
Fixpoint errors_Is (err target : error) : bool :=
  bool_decide (err = target) || match err with Wrapped _ e => errors_Is e target | _ => false end.

Section file.
Context `{P2PKeys} `{NaCl}.

Abbreviation FS := (gmap gostring bytes) (only parsing).

Record env := mkEnv {
  generated : outcome (PrivKey * PubKey);
  read_err : option error;
  open_err : option error;
  wrote : nat → nat * option error;
}.

(** [generateKey()] *)
Definition generateKey (w : env) : outcome (PrivKey * PubKey) := generated w.

Definition ReadFile (w : env) (fs : FS) (path : gostring) : outcome bytes :=
  match read_err w, fs !! path with
  | Some e, _ => Err e
  | None, Some b => Ok b
  | None, None => Err (not_exist path)
  end.

Definition encodeKey (key : PrivKey) : outcome gostring :=
  b ← MarshalPrivateKey key; Ok (ConfigEncodeKey b).

Definition decodeKey (encoded : gostring) : outcome PrivKey :=
  b ← ConfigDecodeKey encoded; UnmarshalPrivateKey b.

Definition loadKey (w : env) (fs : FS) (path : gostring) : outcome PrivKey :=
  b ← ReadFile w fs path; decodeKey b.

(** [n] bytes of [s] written at the start of a file that held [old]. *)
Definition overwrite (old s : bytes) (n : nat) : bytes := take n s ++ drop n old.

Definition saveKey (w : env) (key : PrivKey) (fs : FS) (path : gostring) : FS * outcome unit :=
  match encodeKey key with
  | Err e => (fs, Err e)
  | Panic => (fs, Panic)
  | Ok s =>
      match open_err w with
      | Some e => (fs, Err e)
      | None =>
          let (n, err) := wrote w (length s) in
          let fs := <[path:=overwrite (default [] (fs !! path)) s n]> fs in
          (fs, match err with
               | Some e => Err (Wrapped (str "could not write key") e)
               | None => if decide (n ≠ length s) then Err (Foreign (str "partial write of key")) else Ok tt
               end)
      end
  end.

Definition getKeys (w : env) (fs : FS) (path : gostring) : FS * outcome (PrivKey * PubKey) :=
  if decide (path = InMemory) then (fs, generateKey w)
  else match loadKey w fs path with
       | Ok priv => (fs, Ok (priv, GetPublic priv))
       | Panic => (fs, Panic)
       | Err err =>
           if negb (errors_Is err ErrNotExist) then (fs, Err err)
           else match generateKey w with
                | Ok (priv, pub) =>
                    let (fs, saved) := saveKey w priv fs path in
                    (fs, _ ← saved; Ok (priv, pub))
                | Err err => (fs, Err err)
                | Panic => (fs, Panic)
                end
       end.

Definition restore (w : env) (kr : KeyRing) (uri path : gostring) (fs : FS) : FS * outcome KeyRing :=
  let (fs, keys) := getKeys w fs path in
  (fs, '(cpriv, cpub) ← keys;
       pub ← MemberPublicKeyFromP2PKey cpub;
       priv ← MemberPrivateKeyFromP2PKey cpriv;
       id ← MemberIDFromP2PPubKey cpub;
       Ok (AddKeyPair uri id pub priv (mkKeyRing (Some cpriv) (channelKeys kr)))).

(** [NewFromFile(uri, path)] *)
Definition NewFromFile (w : env) (uri path : gostring) (fs : FS) : FS * outcome KeyRing :=
  restore w NewKeyRing uri path fs.

(** The disk works: reads and opens succeed, writes are whole. *)
Definition healthy (w : env) : Prop :=
  read_err w = None ∧ open_err w = None ∧ ∀ n, wrote w n = (n, None).
End file.

(* ------------------------------------------------------------------ *)
(** * Properties *)

Section properties.
Context `{P2PKeysLaws} `{NaClLaws}.
Abbreviation FS := (gmap gostring bytes) (only parsing).
Implicit Types (w : env) (fs : FS) (uri path : gostring) (kr : KeyRing).

Lemma not_exist_is path : errors_Is (not_exist path) ErrNotExist = true.
Proof. reflexivity. Qed.

Lemma loadKey_missing w fs path :
  read_err w = None → fs !! path = None → loadKey w fs path = Err (not_exist path).
Proof. intros Hr Hp. unfold loadKey, ReadFile. by rewrite Hr, Hp. Qed.

(** A first start on a healthy disk. *)
Lemma getKeys_first w fs path priv pub s :
  path ≠ InMemory → fs !! path = None → healthy w → generated w = Ok (priv, pub) →
  encodeKey priv = Ok s → getKeys w fs path = (<[path:=s]> fs, Ok (priv, pub)).
Proof.
  intros Hp Hf (Hr & Ho & Hw) Hg Hs. unfold getKeys. rewrite decide_False by done.
  rewrite loadKey_missing by done. rewrite not_exist_is. simpl. unfold generateKey. rewrite Hg.
  unfold saveKey. rewrite Hs, Ho, Hw, Hf. unfold overwrite. simpl.
  rewrite take_ge, drop_nil, app_nil_r by done. by rewrite decide_False by tauto.
Qed.

Lemma decodeKey_encodeKey k s : encodeKey k = Ok s → decodeKey s = Ok k.
Proof.
  unfold encodeKey, decodeKey. destruct (MarshalPrivateKey k) as [b|e|] eqn:Hb; simpl; [|done..].
  intros [= <-]. rewrite Decode_Encode_key. simpl. by apply Unmarshal_Marshal_key.
Qed.

(** C36: a vault keeps its identity: started where there is no key file, it
    makes a key and saves it; started again, whatever key the random source
    would make now, it has the same identity, member id and member keys, and
    the file is as it was. *)
Theorem restart_same_identity w w' uri path fs fs' kr priv :
  path ≠ InMemory → fs !! path = None → healthy w → read_err w' = None →
  generated w = Ok (priv, GetPublic priv) →
  NewFromFile w uri path fs = (fs', Ok kr) →
  NewFromFile w' uri path fs' = (fs', Ok kr) ∧ GetIdentityKey kr = Some priv.
Proof.
  intros Hp Hf Hw Hr Hg. unfold NewFromFile, restore.
  destruct (encodeKey priv) as [s|e|] eqn:Hs.
  - rewrite (getKeys_first w fs path priv _ s) by done.
    destruct (MemberPublicKeyFromP2PKey (GetPublic priv)) as [pk|e|] eqn:H1'; simpl; rewrite H1'; [|done..]. simpl.
    destruct (MemberPrivateKeyFromP2PKey priv) as [sk|e|] eqn:H2'; [|done..]. simpl.
    destruct (MemberIDFromP2PPubKey (GetPublic priv)) as [id|e|] eqn:H3'; [|done..]. simpl.
    intros [= <- <-]. split; [|done].
    assert (getKeys w' (<[path:=s]> fs) path = (<[path:=s]> fs, Ok (priv, GetPublic priv))) as ->.
    { unfold getKeys. rewrite decide_False by done. unfold loadKey, ReadFile.
      rewrite Hr, lookup_insert_eq. simpl. by rewrite (decodeKey_encodeKey priv s). }
    simpl. by rewrite H1'; simpl; rewrite H2'; simpl; rewrite H3'.
  - unfold getKeys. rewrite decide_False, loadKey_missing, not_exist_is by (done || exact (proj1 Hw)). simpl.
    unfold generateKey, saveKey. by rewrite Hg, Hs.
  - unfold getKeys. rewrite decide_False, loadKey_missing, not_exist_is by (done || exact (proj1 Hw)). simpl.
    unfold generateKey, saveKey. by rewrite Hg, Hs.
Qed.

(** A key file that exists is never written: if it does not hold a
    key, the vault does not start, and it does not start the next time
    either; so a write that was cut short leaves a vault that needs its key
    file removed by hand. *)
Lemma existing_file_kept w uri path fs b :
  path ≠ InMemory → fs !! path = Some b →
  (∀ e, read_err w = Some e → errors_Is e ErrNotExist = false) →
  (∀ e, decodeKey b = Err e → errors_Is e ErrNotExist = false) →
  let (fs', r) := NewFromFile w uri path fs in
  fs' = fs ∧ ((∀ k, decodeKey b ≠ Ok k) → ∀ kr, r ≠ Ok kr).
Proof.
  intros Hp Hf Hre Hde. unfold NewFromFile, restore.
  assert (∃ r, getKeys w fs path = (fs, r) ∧ ((∀ k, decodeKey b ≠ Ok k) → ∀ p, r ≠ Ok p)) as (r & -> & Hr).
  { unfold getKeys. rewrite decide_False by done. unfold loadKey, ReadFile. rewrite Hf.
    destruct (read_err w) as [e|]; simpl.
    - rewrite (Hre e eq_refl). simpl. by eexists.
    - destruct (decodeKey b) as [k|e|] eqn:Hd; [|rewrite (Hde e eq_refl); simpl|]; eexists;
        (split; [done|]); [|done..]. intros Hk. by destruct (Hk k). }
  split; [done|]. intros Hk kr. specialize (Hr Hk). destruct r as [p|e|]; simpl; [by destruct (Hr p)|done..].
Qed.

(** A vault that starts from its key file cannot decode an entry: its
    ring has no community key, so an entry that its own, or any registered,
    key verifies makes the decoder open the box with a nil key. *)
Lemma restored_ring_cannot_decode w uri path fs fs' kr e signed m :
  (∀ box n, (16 ≤ length box)%nat → secretbox_Open box n None = Panic) →
  NewFromFile w uri path fs = (fs', Ok kr) →
  (∃ ks sender, keyset kr uri = Some ks ∧ KeySet.memberKeys ks !! claimed e = Some sender ∧
     sign_Open signed sender = Ok (Some m)) →
  entry_uri e = uri → Msg.Body e = Some signed → (saltLen + 16 ≤ length m)%nat →
  DecodeEntry kr (Some e) = Panic.
Proof.
  intros Hnil Hn (ks & sender & Hks & Hs & Hv) Hu Hb Hl.
  rewrite (DecodeEntry_sender kr e ks signed sender), Hv by (congruence || done). simpl.
  assert (KeySet.community ks = None) as ->.
  { revert Hn. unfold NewFromFile, restore. destruct (getKeys w fs path) as [fs1 [[cpriv cpub]|x|]]; simpl; [|done..].
    destruct (MemberPublicKeyFromP2PKey cpub); simpl; [|done..].
    destruct (MemberPrivateKeyFromP2PKey cpriv); simpl; [|done..].
    destruct (MemberIDFromP2PPubKey cpub); simpl; [|done..]. intros [= _ <-].
    unfold AddKeyPair in Hks. rewrite keyset_update, decide_True in Hks by done. by injection Hks as <-. }
  unfold decryptEntry. rewrite decide_False by lia.
  rewrite Hnil; [done|]. rewrite length_drop. lia.
Qed.
End properties.

(* ------------------------------------------------------------------ *)
(** * Witnesses *)

Module KeyFileExamples.
Import RefCrypto KeyringExamples.

Definition path : gostring := str "/etc/vault/key".
Definition no_files : gmap gostring bytes := ∅.
Definition world (k : bytes) : env := mkEnv (Ok (k, drop 32 k)) None None (λ n, (n, None)).
Definition started : gmap gostring bytes * outcome KeyRing := NewFromFile (world privk) uri path no_files.

Lemma started_ok : ∃ kr, started = (<[path:=privk]> no_files, Ok kr).
Proof. eexists. reflexivity. Qed.

Lemma world_healthy k : healthy (world k).
Proof. done. Qed.

Lemma restart_same_identity_witness :
  ∃ kr, started = (<[path:=privk]> no_files, Ok kr) ∧
    NewFromFile (world secret) uri path (<[path:=privk]> no_files) = (<[path:=privk]> no_files, Ok kr).
Proof.
  destruct started_ok as [kr Hk]. exists kr. split; [exact Hk|].
  apply (restart_same_identity (world privk) (world secret) uri path no_files _ kr privk);
    [done|done|apply world_healthy|done|done|exact Hk].
Defined.

Lemma existing_file_kept_witness :
  (NewFromFile (world privk) uri path (<[path:=str "x"]> no_files)).1 = <[path:=str "x"]> no_files.
Proof.
  pose proof (existing_file_kept (world privk) uri path (<[path:=str "x"]> no_files) (str "x")) as He.
  apply He; done.
Defined.

Lemma restored_ring_cannot_decode_witness :
  ∃ kr, started = (<[path:=privk]> no_files, Ok kr) ∧
    DecodeEntry kr (Some (Msg.mk 0 0 (Some (EntryHeader.mk None (Some (take 20 pubk)) None [] uri))
                     (Some (pubk ++ zeros 32 ++ zeros 40)) None None)) = Panic.
Proof.
  destruct started_ok as [kr Hk]. exists kr. split; [exact Hk|].
  eapply (restored_ring_cannot_decode (world privk) uri path no_files _ kr _ _ (zeros 40));
    [done|exact Hk| |reflexivity|reflexivity|vm_compute; lia].
  unfold started in Hk. injection Hk as <-. eexists _, _. split; [reflexivity|]. split; reflexivity.
Defined.
End KeyFileExamples.
