(* ===== verification/P2P.v ===== *)
(** [p2p/host.go], [p2p/topic_handler.go] and [p2p/discovery_channel.go]:
    peers, topics, and the snapshot of both.

    libp2p is not part of the repository: [LibP2P] is the state of a libp2p
    host and its pubsub router as the code uses them, [LibP2PLaws] what their
    documentation says of connecting and joining, [RefNet] an instance.  The
    methods of [Host] that hold its lock are functions on it.  The two kinds
    of [TopicHandler], which differ in their callbacks, are told apart by
    [handler_kind].  [joinChannel] returns whether it sends on
    [snapshotUpdateCh], the loop of [watchTopics] being a step function on the
    events it selects. *)
From S2P Require Import Prelude Protos Helpers Crypto Keyring KeyFile Badger Channel Store Reader.

(** [libpeer.AddrInfo] *)
Record AddrInfo (Multiaddr : Type) := mkAddrInfo { ai_ID : bytes; ai_Addrs : list Multiaddr }.
Arguments mkAddrInfo {_} _ _.
Arguments ai_ID {_} _.
Arguments ai_Addrs {_} _.

Class LibP2P `{P2PKeys} := {
  Multiaddr : Type;
  NewMultiaddrBytes : bytes → outcome Multiaddr;
  Multiaddr_Bytes : Multiaddr → bytes;
  (** [crypto.MarshalPublicKey], of a key that may be nil *)
  MarshalPublicKey : option PubKey → outcome bytes;
  (** the libp2p host and its pubsub router *)
  Net : Type;
  Net_ID : Net → bytes;
  (** [h.Connect(ctx, addrInfo)] *)
  Connect : Net → AddrInfo Multiaddr → Net * option error;
  (** [h.Peerstore()]: its peers, a peer's addresses and its key *)
  Peers : Net → list bytes;
  Addrs : Net → bytes → list Multiaddr;
  PubKeyOf : Net → bytes → option PubKey;
  (** [h.pubsub.Join(topic)], [topic.Subscribe()], [topic.Publish(data)] *)
  Join : Net → gostring → Net * option error;
  Topic_Subscribe : Net → gostring → Net * option error;
  Topic_Publish : Net → gostring → bytes → Net;
}.

Class LibP2PLaws `{LibP2P} := {
  NewMultiaddr_Bytes a : NewMultiaddrBytes (Multiaddr_Bytes a) = Ok a;
  (** topics joined *)
  joined : Net → gset gostring;
  Join_joined n t n' : Join n t = (n', None) → (t ∉ joined n) ∧ joined n' = {[t]} ∪ joined n;
  Join_refused n t n' e : Join n t = (n', Some e) → joined n' = joined n;
  Subscribe_joined n t : joined (Topic_Subscribe n t).1 = joined n;
  Publish_joined n t b : joined (Topic_Publish n t b) = joined n;
  Connect_joined n a : joined (Connect n a).1 = joined n;
}.

(** A network of well-behaved peers: everyone can be reached but those with the
    empty id, and a topic can be joined once. *)
Module RefNet.
Import RefCrypto.

Record net := mkNet { known : list (bytes * list bytes); topics : gset gostring }.

#[export] Instance libp2p : LibP2P := {|
  Multiaddr := bytes;
  NewMultiaddrBytes b := Ok b;
  Multiaddr_Bytes a := a;
  MarshalPublicKey k :=
    match k with Some k => Ok ([x08; x01; x12; x20] ++ k) | None => Panic end;
  Net := net;
  Net_ID _ := str "self";
  Connect n a :=
    if decide (ai_ID a = []) then (n, Some (Foreign (str "dial backoff")))
    else (mkNet (known n ++ [(ai_ID a, ai_Addrs a)]) (topics n), None);
  Peers n := (known n).*1;
  Addrs n p := default [] (snd <$> head (filter (λ q, q.1 = p) (known n)));
  PubKeyOf n p := Some (copy_at (zeros 32) 0 p);
  Join n t :=
    if decide (t ∈ topics n) then (n, Some (Foreign (str "topic already exists")))
    else (mkNet (known n) ({[t]} ∪ topics n), None);
  Topic_Subscribe n _ := (n, None);
  Topic_Publish n _ _ := n;
|}.

#[export] Instance libp2p_laws : LibP2PLaws.
Proof.
  refine {| joined := topics : Net → gset gostring |}; simpl; try done.
  - intros n t n'. case_decide; [done|]. by intros [= <-].
  - intros n t n' e. case_decide; [|done]. by intros [= <- _].
  - intros n a. by case_decide.
Defined.
End RefNet.

(* ------------------------------------------------------------------ *)
(** * Hosts *)

Section host.
Context `{P2PKeys} `{!LibP2P} `{NaCl} `{Badger} `{!ProtoCodec Msg.t} `{!ProtoCodec Peer.t}
  `{!ProtoCodec PubsubState.t} `{Sha256} {T : Type}.

(** The callbacks of a handler: those of [NewChannelDiscovery], or those of
    [joinChannel]. *)
Inductive handler_kind := Discovery | Relay.

(** [type TopicHandler]; the channel by its id. *)
Record TopicHandler := mkTopicHandler {
  th_kind : handler_kind;
  th_id : UUID;
  th_channel : bytes;
  th_topic : gostring;
  lastEntryID : slice;
}.

(** [type Host] *)
Record Host := mkHost {
  net : Net;
  store : Store T;
  keyring : KeyRing;
  handlers : gmap gostring TopicHandler;
  discoveryURI : gostring;
}.

Definition set_net (n : Net) (h : Host) : Host :=
  mkHost n (store h) (keyring h) (handlers h) (discoveryURI h).
Definition set_store (s : Store T) (h : Host) : Host :=
  mkHost (net h) s (keyring h) (handlers h) (discoveryURI h).

(** [snapshotKey] *)
Definition snapshotKey : bytes := [x51; x90].

(** ** Peers *)

Fixpoint map_outcome {A B} (f : A → outcome B) (l : list A) : outcome (list B) :=
  match l with
  | [] => Ok []
  | a :: l => b ← f a; bs ← map_outcome f l; Ok (b :: bs)
  end.

Definition encodePeer (peerID : bytes) (pubkey : option PubKey) (ma : list Multiaddr) : outcome Peer.t :=
  b ← MarshalPublicKey pubkey;
  Ok (Peer.mk PeerUpdateOp_Upsert peerID (Some b) (Multiaddr_Bytes <$> ma)).

Definition decodePeerAddr (encoded : Peer.t) : outcome (AddrInfo Multiaddr) :=
  addrs ← map_outcome NewMultiaddrBytes (Peer.Multiaddrs encoded);
  Ok (mkAddrInfo (Peer.GetID (Some encoded)) addrs).

Definition handleDiscoveryUpsert (h : Host) (update : Peer.t) : Host * outcome unit :=
  match decodePeerAddr update with
  | Err e => (h, Err e)
  | Panic => (h, Panic)
  | Ok addrInfo =>
      let (n, err) := Connect (net h) addrInfo in
      let h := set_net n h in
      match err with
      | Some e => (h, Err e)
      | None =>
          (mkHost (net h) (store h)
             (AddMemberKey (discoveryURI h) (MemberIDFromString (ai_ID addrInfo))
                (MemberPublicKeyFromBytes (sbytes (Peer.Key update))) (keyring h))
             (handlers h) (discoveryURI h), Ok tt)
      end
  end.

Definition handleDiscoveryEntry (h : Host) (entry : option Msg.t) : Host * outcome unit :=
  match (body ← DecodeEntry (keyring h) entry; checked (Unmarshal body)) with
  | Err e => (h, Err e)
  | Panic => (h, Panic)
  | Ok update =>
      let op := Peer.GetOp (Some update) in
      if op =? PeerUpdateOp_Upsert then handleDiscoveryUpsert h update
      else if op =? PeerUpdateOp_RemovePermanently then
        (h, _ ← decodePeerAddr update; Ok tt)
      else (h, Err (Foreign (str "unsupported operation")))
  end.

(** ** Topics *)

(** [NewTopicHandler(h, channel, start, onRecv, onPublish)], [id] being the
    new UUID. *)
Definition NewTopicHandler (h : Host) (k : handler_kind) (id : UUID) (channel : Channel T) (start : slice)
  : Host * outcome TopicHandler :=
  let uri := URI channel in
  match Join (net h) uri with
  | (n, Some e) => (set_net n h, Err (Wrapped (str "could not join channel " ++ uri) e))
  | (n, None) =>
      match Topic_Subscribe n uri with
      | (n, Some e) => (set_net n h, Err (Wrapped (str "could not subscribe to channel " ++ uri) e))
      | (n, None) => (set_net n h, Ok (mkTopicHandler k id (c_id channel) uri start))
      end
  end.

(** [NewChannelDiscovery(ctx, h, cfg)]; [New] files the handler. *)
Definition NewChannelDiscovery (h : Host) (id : UUID) (cfg_URI : gostring) : Host * outcome TopicHandler :=
  let (s, r) := Store_Channel (store h) (ChannelURItoChannelID cfg_URI) in
  let h := set_store s h in
  match r with
  | Ok channel => NewTopicHandler h Discovery id channel (Some [])
  | Err e => (h, Err e)
  | Panic => (h, Panic)
  end.

(** [joinChannel(channel, start)], and whether it sends on
    [snapshotUpdateCh]. *)
Definition joinChannel (h : Host) (id : UUID) (channel : Channel T) (start : slice) : Host * bool :=
  match handlers h !! URI channel with
  | Some _ => (h, false)
  | None =>
      let (h, r) := NewTopicHandler h Relay id channel start in
      match r with
      | Ok th =>
          (mkHost (net h) (store h) (keyring h) (<[URI channel:=th]> (handlers h)) (discoveryURI h), true)
      | _ => (h, false)
      end
  end.

(** The options [watchTopic] subscribes with. *)
Definition topic_opts (th : TopicHandler) : StreamOpts := mkStreamOpts (lastEntryID th) Tail OptNone.

(** [th.onReceive(entry)] at time [now]. *)
Definition onReceive (h : Host) (th : TopicHandler) (now : Time) (entry : option Msg.t) : Host * outcome unit :=
  match th_kind th with
  | Discovery => handleDiscoveryEntry h entry
  | Relay =>
      match channels (store h) !! th_channel th with
      | Some channel =>
          let (d, r) := Append (db (store h)) channel now entry in
          (set_store (set_db d (store h)) h, _ ← r; Ok tt)
      | None => (h, Panic)
      end
  end.

(** A message of [th.sub.Next]: who sent it, and its data. *)
Record pubsub_msg := mkPubsub { ReceivedFrom : bytes; data : bytes }.

(** What is left of a result whose error is only logged. *)
Definition logged {A} (r : outcome A) : outcome unit :=
  match r with Panic => Panic | _ => Ok tt end.

(** A turn of the loop of [watchTopic]; errors are logged. *)
Definition watchTopic_turn (h : Host) (th : TopicHandler) (now : Time) (msg : outcome pubsub_msg)
  : Host * outcome unit :=
  match msg with
  | Ok msg =>
      if decide (ReceivedFrom msg = Net_ID (net h)) then (h, Ok tt)
      else match checked (Unmarshal (data msg)) with
           | Ok entry => let (h, r) := onReceive h th now (Some entry) in (h, logged r)
           | r => (h, logged r)
           end
  | r => (h, logged r)
  end.

(** [TopicHandler.Publish(entry)], of the handler filed under [key]: the entry
    is sent to the topic, empty if it does not encode, and its id noted; the
    second result is the send on [snapshotUpdateCh]. *)
Definition TopicHandler_Publish (h : Host) (key : gostring) (entry : Msg.t) : Host * outcome bool :=
  match handlers h !! key with
  | None => (h, Panic)
  | Some th =>
      let body := match Marshal entry with Ok b => b | _ => [] end in
      let h := set_net (Topic_Publish (net h) (th_topic th) body) h in
      let (h, r) := match th_kind th with
                    | Discovery =>
                        let (h, r) := handleDiscoveryEntry h (Some entry) in (h, _ ← logged r; Ok false)
                    | Relay => (h, Ok true)
                    end in
      match r with
      | Ok sends =>
          let th := mkTopicHandler (th_kind th) (th_id th) (th_channel th) (th_topic th)
                      (EntryHeader.GetEntryID (Msg.GetEntryHeader (Some entry))) in
          (mkHost (net h) (store h) (keyring h) (<[key:=th]> (handlers h)) (discoveryURI h), Ok sends)
      | _ => (h, r)
      end
  end.

(** ** Snapshots *)

(** Go ranges over a map in any order; here it is that of [map_to_list]. *)
Definition takeSnapshot (h : Host) : outcome PubsubState.t :=
  peers ← map_outcome
    (λ peerID, encodePeer peerID (PubKeyOf (net h) peerID) (Addrs (net h) peerID)) (Peers (net h));
  Ok (PubsubState.mk
        ((λ p : gostring * TopicHandler, TopicPointer.mk p.1 (lastEntryID p.2)) <$> map_to_list (handlers h))
        peers).

Definition writeSnapshot (h : Host) (snap : PubsubState.t) : Host * outcome unit :=
  match Marshal snap with
  | Ok body =>
      let (d, r) := Upsert (db (store h)) snapshotKey (Msg.mk MsgOp_FeedEntry 0 None (Some body) None None) in
      (set_store (set_db d (store h)) h, r)
  | Err e => (h, Err e)
  | Panic => (h, Panic)
  end.

Definition snapshot (h : Host) (dirty : bool) : Host * outcome unit :=
  if negb dirty then (h, Ok tt)
  else match takeSnapshot h with
       | Ok snap => writeSnapshot h snap
       | Err e => (h, Err e)
       | Panic => (h, Panic)
       end.

Definition readSnapshot (h : Host) : outcome PubsubState.t :=
  match Get (db (store h)) snapshotKey with
  | Err e => if errors_Is e ErrorKeyNotFound then Ok PubsubState.empty else Err e
  | Panic => Panic
  | Ok entry => checked (Unmarshal (sbytes (Msg.GetBody (Some entry))))
  end.

Fixpoint restore_peers (h : Host) (peers : list Peer.t) : Host * outcome unit :=
  match peers with
  | [] => (h, Ok tt)
  | peerMsg :: peers =>
      match handleDiscoveryUpsert h peerMsg with
      | (h, Ok _) => restore_peers h peers
      | (h, Err e) => (h, Err e)
      | (h, Panic) => (h, Panic)
      end
  end.

Definition restore (h : Host) : Host * outcome unit :=
  match readSnapshot h with
  | Err e => (h, Err e)
  | Panic => (h, Panic)
  | Ok snap =>
      match handlers h !! discoveryURI h with
      | None => (h, Err (Foreign (str "no discovery channel found")))
      | Some _ => restore_peers h (PubsubState.Peers snap)
      end
  end.

(** The loop of [watchTopics]: what it selects, and [dirty]. *)
Inductive host_event :=
  | ChannelUpdate (id : UUID) (channel : option (Channel T))
  | SnapshotUpdate
  | Tick.

(** [joinChannel] runs in a goroutine of its own; its send is a
    [SnapshotUpdate] to come. *)
Definition watchTopics_turn (hd : Host * bool) (ev : host_event) : (Host * bool) * outcome unit :=
  let (h, dirty) := hd in
  match ev with
  | ChannelUpdate id (Some channel) => (((joinChannel h id channel (Some [])).1, dirty), Ok tt)
  | ChannelUpdate _ None => ((h, dirty), Ok tt)
  | SnapshotUpdate => ((h, true), Ok tt)
  | Tick =>
      match snapshot h dirty with
      | (h, Ok _) => ((h, false), Ok tt)
      | (h, r) => ((h, dirty), logged r)
      end
  end.

Fixpoint watchTopics (hd : Host * bool) (evs : list host_event) : (Host * bool) * outcome unit :=
  match evs with
  | [] => (hd, Ok tt)
  | ev :: evs =>
      match watchTopics_turn hd ev with
      | (hd, Ok _) => watchTopics hd evs
      | (hd, r) => (hd, r)
      end
  end.

(** ** mDNS *)

(** [mDNSNotifee.HandlePeerFound(pi)]; a failure is logged. *)
Definition HandlePeerFound (h : Host) (pi : AddrInfo Multiaddr) : Host :=
  set_net (Connect (net h) pi).1 h.

(** [mDNSInterval], in nanoseconds, and [mDNSServiceTag] *)
Definition mDNSInterval : Z := 60 * 10 ^ 9 * 10.
Definition mDNSServiceTag : gostring := str "plan-vault".

(** [setupDiscoverymDNS(ctx, h)], with [discovery.NewMdnsService]: what the
    service then does with a peer it finds. *)
Definition setupDiscoverymDNS (NewMdnsService : Z → gostring → outcome unit)
  : outcome (Host → AddrInfo Multiaddr → Host) :=
  _ ← NewMdnsService mDNSInterval mDNSServiceTag; Ok HandlePeerFound.

(** [New(ctx, db, cfg)]: the key ring, the libp2p host and pubsub router made
    for its identity ([new_net]), mDNS, the discovery channel, its handler, and
    the restored peers.  A standalone vault has no host. *)
Definition New (w : env) (new_net : option PrivKey → outcome Net) (service : Z → gostring → outcome unit)
    (s : Store T) (fs : gmap gostring bytes) (id : UUID) (cfg_MDNS : bool) (cfg_URI KeyFile : gostring)
  : gmap gostring bytes * outcome (option Host) :=
  if decide (cfg_URI = []) then (fs, Ok None)
  else
    let (fs, r) := NewFromFile w cfg_URI KeyFile fs in
    (fs,
     kr ← r;
     n ← new_net (GetIdentityKey kr);
     let host := mkHost n s kr ∅ cfg_URI in
     _ ← (if cfg_MDNS then _ ← setupDiscoverymDNS service; Ok tt else Ok tt);
     let (host, r) := NewChannelDiscovery host id cfg_URI in
     match r with
     | Err e => Err (Wrapped (str "could not configure channel discovery") e)
     | Panic => Panic
     | Ok disc =>
         let host := mkHost (net host) (store host) (keyring host) (<[cfg_URI:=disc]> (handlers host))
                       (discoveryURI host) in
         let (host, r) := restore host in
         match r with
         | Ok _ => Ok (Some host)
         | Err e => Err (Wrapped (str "could not start p2p topic monitoring")
                           (Wrapped (str "failed to restore from disk") e))
         | Panic => Panic
         end
     end).
End host.

(* ------------------------------------------------------------------ *)
(** * Properties *)

Section topics.
Context `{LibP2PLaws} `{NaCl} `{Badger} `{!ProtoCodec Msg.t} `{!ProtoCodec Peer.t}
  `{!ProtoCodec PubsubState.t} `{Sha256} {T : Type}.
Implicit Types (h : Host (T:=T)) (c : Channel T) (evs : list (host_event (T:=T))).

(** The events of a run carry channels as the store makes them, without a
    URI. *)
Definition nameless (ev : host_event (T:=T)) : Prop :=
  match ev with ChannelUpdate _ (Some c) => URI c = [] | _ => True end.

(** A host that has started went through every step. *)
Lemma New_started w new_net service (s : Store T) fs id cfg_MDNS cfg_URI KeyFile h :
  (New w new_net service s fs id cfg_MDNS cfg_URI KeyFile).2 = Ok (Some h) →
  ∃ n kr h1 disc, cfg_URI ≠ [] ∧
    NewChannelDiscovery (mkHost n s kr ∅ cfg_URI) id cfg_URI = (h1, Ok disc) ∧
    restore (mkHost (net h1) (store h1) (keyring h1) (<[cfg_URI:=disc]> (handlers h1)) (discoveryURI h1))
    = (h, Ok tt).
Proof.
  unfold New. case_decide; [done|].
  destruct (NewFromFile w cfg_URI KeyFile fs) as [fs' [kr|e|]]; simpl; [|done..].
  destruct (new_net (GetIdentityKey kr)) as [n|e|]; simpl; [|done..].
  destruct (if cfg_MDNS then _ ← setupDiscoverymDNS service; Ok tt else Ok tt) as [[]|e|]; simpl; [|done..].
  destruct (NewChannelDiscovery _ id cfg_URI) as [h1 [disc|e|]] eqn:Hd; simpl; [|done..].
  destruct (restore _) as [h2 [[]|e|]] eqn:Hr; [|done..]. intros [= <-]. by exists n, kr, h1, disc.
Qed.

Lemma New_standalone w new_net service (s : Store T) fs id cfg_MDNS cfg_URI KeyFile :
  (New w new_net service s fs id cfg_MDNS cfg_URI KeyFile).2 = Ok None → cfg_URI = [].
Proof.
  unfold New. case_decide; [done|].
  destruct (NewFromFile w cfg_URI KeyFile fs) as [fs' [kr|e|]]; simpl; [|done..].
  destruct (new_net (GetIdentityKey kr)) as [n|e|]; simpl; [|done..].
  destruct (if cfg_MDNS then _ ← setupDiscoverymDNS service; Ok tt else Ok tt) as [[]|e|]; simpl; [|done..].
  destruct (NewChannelDiscovery _ id cfg_URI) as [h1 [disc|e|]]; simpl; [|done..].
  by destruct (restore _) as [h2 [[]|e|]].
Qed.

Lemma NewTopicHandler_joined h k id c start h' r :
  URI c = [] → NewTopicHandler h k id c start = (h', r) →
  joined (net h) ⊆ joined (net h') ∧ handlers h' = handlers h ∧
  ([] ∈ joined (net h) → ∀ th, r ≠ Ok th) ∧
  (∀ th, r = Ok th → [] ∈ joined (net h') ∧ th_kind th = k).
Proof.
  intros Hu. unfold NewTopicHandler. rewrite Hu.
  destruct (Join (net h) []) as [n [e|]] eqn:Hj.
  - intros [= <- <-]. simpl. rewrite (Join_refused _ _ _ _ Hj). by split_and!.
  - apply Join_joined in Hj as [Hn Hj]. pose proof (Subscribe_joined n []) as Hs.
    destruct (Topic_Subscribe n []) as [n' [e|]]; simpl in Hs; intros [= <- <-]; simpl; rewrite Hs, Hj.
    + split_and!; [set_solver|done..].
    + split_and!; [set_solver|done|done|]. intros th [= <-]. split; [set_solver|done].
Qed.

Lemma joinChannel_refused h id c start :
  URI c = [] → [] ∈ joined (net h) →
  let (h', b) := joinChannel h id c start in
  handlers h' = handlers h ∧ [] ∈ joined (net h') ∧ b = false.
Proof.
  intros Hu Hj. unfold joinChannel. destruct (handlers h !! URI c); [done|].
  destruct (NewTopicHandler h Relay id c start) as [h' r] eqn:Hn.
  destruct (NewTopicHandler_joined h Relay id c start h' r Hu Hn) as (Hsub & Hh & Hno & _).
  specialize (Hno Hj). destruct r as [th|e|]; [by destruct (Hno th)|..];
    (split; [done|]; split; [set_solver|done]).
Qed.

Lemma snapshot_net h dirty : net (snapshot h dirty).1 = net h ∧ handlers (snapshot h dirty).1 = handlers h.
Proof.
  unfold snapshot. destruct dirty; [|done]. simpl. destruct (takeSnapshot h) as [snap|e|]; [|done..].
  unfold writeSnapshot. destruct (Marshal snap) as [b|e|]; [|done..]. by destruct (Upsert _ _ _).
Qed.

Lemma watchTopics_handlers evs h dirty :
  Forall nameless evs → [] ∈ joined (net h) →
  handlers (watchTopics (h, dirty) evs).1.1 = handlers h.
Proof.
  intros Hevs. revert h dirty. induction Hevs as [|ev evs Hev _ IH]; intros h dirty Hj; [done|].
  destruct ev as [id [c|]| |]; simpl; [|by apply IH..|].
  - pose proof (joinChannel_refused h id c (Some []) Hev Hj) as Hc.
    destruct (joinChannel h id c (Some [])) as [h' b]. destruct Hc as (<- & Hj' & _). by apply IH.
  - destruct (snapshot_net h dirty) as [Hn Hh].
    destruct (snapshot h dirty) as [h' [?|e|]]; simpl in Hn, Hh |- *; [..|done];
      rewrite <-Hh; apply IH; by rewrite Hn.
Qed.

Lemma handleDiscoveryUpsert_frame h (p : Peer.t) :
  let h' := (handleDiscoveryUpsert h p).1 in
  handlers h' = handlers h ∧ joined (net h') = joined (net h) ∧ store h' = store h
  ∧ discoveryURI h' = discoveryURI h.
Proof.
  unfold handleDiscoveryUpsert. destruct (decodePeerAddr p) as [a|e|]; [|done..].
  pose proof (Connect_joined (net h) a) as Hc. destruct (Connect (net h) a) as [n [e|]]; by split_and!.
Qed.

Lemma restore_peers_frame ps h :
  let h' := (restore_peers h ps).1 in
  handlers h' = handlers h ∧ joined (net h') = joined (net h) ∧ store h' = store h.
Proof.
  revert h. induction ps as [|p ps IH]; intros h; [done|]. simpl.
  destruct (handleDiscoveryUpsert_frame h p) as (Hh & Hj & Hs & _).
  destruct (handleDiscoveryUpsert h p) as [h' [?|e|]]; simpl in Hh, Hj, Hs |- *; [|done..].
  destruct (IH h') as (-> & -> & ->). done.
Qed.

Lemma restore_frame h :
  handlers (restore h).1 = handlers h ∧ joined (net (restore h).1) = joined (net h) ∧
  store (restore h).1 = store h.
Proof.
  unfold restore. destruct (readSnapshot h) as [snap|e|]; [|done..].
  destruct (handlers h !! discoveryURI h); [apply restore_peers_frame|done].
Qed.

(** mDNS touches the network only. *)
Lemma HandlePeerFound_frame h pi :
  let h' := HandlePeerFound h pi in
  store h' = store h ∧ keyring h' = keyring h ∧ handlers h' = handlers h ∧ joined (net h') = joined (net h).
Proof. split_and!; try done. apply Connect_joined. Qed.

(** The host keeps whether the store it is given announces channels. *)
Lemma New_updateCh w new_net service (s : Store T) fs id cfg_MDNS cfg_URI KeyFile h :
  (New w new_net service s fs id cfg_MDNS cfg_URI KeyFile).2 = Ok (Some h) →
  updateCh (store h) = updateCh s.
Proof.
  intros (n & kr & h1 & disc & _ & Hd & Hr)%New_started.
  destruct (restore_frame (mkHost (net h1) (store h1) (keyring h1) (<[cfg_URI:=disc]> (handlers h1))
              (discoveryURI h1))) as (_ & _ & Hs). rewrite Hr in Hs. simpl in Hs. rewrite Hs.
  revert Hd. unfold NewChannelDiscovery, Store_Channel, NewTopicHandler. simpl.
  by repeat case_match; intros; simplify_eq.
Qed.

(** A host that has started has the discovery handler, on the topic that is
    named after no channel. *)
Lemma New_discovers w new_net service (s : Store T) fs id cfg_MDNS cfg_URI KeyFile h :
  map_Forall (λ _ c, URI c = []) (channels s) →
  (New w new_net service s fs id cfg_MDNS cfg_URI KeyFile).2 = Ok (Some h) →
  ∃ disc, th_kind disc = Discovery ∧ handlers h = {[cfg_URI := disc]} ∧ [] ∈ joined (net h).
Proof.
  intros Hs (n & kr & h1 & disc & _ & Hd & Hr)%New_started.
  assert (handlers h1 = ∅ ∧ [] ∈ joined (net h1) ∧ th_kind disc = Discovery) as (Hh1 & Hj1 & Hk).
  { revert Hd. unfold NewChannelDiscovery. simpl.
    destruct (Store_Channel s (ChannelURItoChannelID cfg_URI)) as [s' [c|e|]] eqn:Hc; [|done..]. intros Hd.
    assert (URI c = []) as Hu.
    { revert Hc. unfold Store_Channel. case_match eqn:Hl; intros [= <- <-]; [by apply (Hs _ _ Hl)|done]. }
    destruct (NewTopicHandler_joined _ _ _ _ _ _ _ Hu Hd) as (_ & Hh & _ & Hdisc).
    destruct (Hdisc disc eq_refl). by rewrite Hh. }
  destruct (restore_frame (mkHost (net h1) (store h1) (keyring h1) (<[cfg_URI:=disc]> (handlers h1))
              (discoveryURI h1))) as (Hh2 & Hj2 & _). rewrite Hr in Hh2, Hj2. simpl in Hh2, Hj2.
  exists disc. split; [done|]. by rewrite Hh2, Hh1, Hj2.
Qed.

(** C37: no channel is ever relayed to the peers: the channels the store
    announces have no URI, the discovery handler has joined the topic of that
    name, and pubsub lets a topic be joined once; so whatever channels are
    created, and whatever else the host's loop sees, the only handler it has
    is the discovery one. *)
Theorem host_relays_nothing w new_net service (s : Store T) fs id cfg_MDNS cfg_URI KeyFile h dirty evs :
  map_Forall (λ _ c, URI c = []) (channels s) → Forall nameless evs →
  (New w new_net service s fs id cfg_MDNS cfg_URI KeyFile).2 = Ok (Some h) →
  ∃ disc, th_kind disc = Discovery ∧
    handlers (watchTopics (h, dirty) evs).1.1 = {[cfg_URI := disc]}.
Proof.
  intros Hs Hevs (disc & Hk & Hh & Hj)%New_discovers; [|done].
  exists disc. split; [done|]. by rewrite watchTopics_handlers.
Qed.
End topics.

Section snapshots.
Context `{LibP2PLaws} `{NaCl} `{BadgerReliable} `{!ProtoCodec Msg.t} `{!ProtoLaws Msg.t}
  `{!ProtoCodec Peer.t} `{!ProtoCodec PubsubState.t} `{!ProtoLaws PubsubState.t} `{Sha256} {T : Type}.
Implicit Types (h : Host (T:=T)) (c : Channel T).

(** The snapshot depends on what is stored under its key. *)
Lemma readSnapshot_stored h (body m : bytes) :
  Marshal (Msg.mk MsgOp_FeedEntry 0 None (Some body) None None) = Ok m →
  contents (db (store h)) !! snapshotKey = Some m →
  readSnapshot h = checked (Unmarshal body).
Proof.
  intros Hm Hk. unfold readSnapshot. rewrite (Get_reliable _ _ _ _ Hk Hm).
  assert (sbytes (Msg.GetBody (Some (canon (Msg.mk MsgOp_FeedEntry 0 None (Some body) None None)))) = body) as ->;
    [|done].
  change (Msg.GetBody _) with (canon_slice (Some body)). by rewrite canon_slice_bytes.
Qed.

(** An append leaves the keys no channel has. *)
Lemma Append_short_key (d : DB) c now (entry : option Msg.t) d' r k :
  channel_ok c → time_ok now → (length k < 33)%nat → Append d c now entry = (d', r) →
  contents d' !! k = contents d !! k.
Proof.
  intros Hc Hn Hk Ha.
  apply Append_cases in Ha as [[-> _]|(e & id & m & _ & _ & _ & _ & _ & ->)]; [done|].
  assert (∀ p k', length p = 33%nat → has_prefix p k' = true → k' ≠ k) as Hne
    by (intros p k' Hp [x ->]%has_prefix_spec <-; rewrite length_app in Hk; lia).
  rewrite !lookup_insert_ne; [done| |].
  - apply (Hne (prefix c)); [by apply length_prefix|by apply EntryKey_prefix].
  - apply (Hne (indexPrefix c)); [by apply length_indexPrefix|by apply arrivalKey_prefix].
Qed.

Lemma append_all_short_key l (d : DB) k :
  Forall (λ a : Channel T * Time * Msg.t, channel_ok a.1.1 ∧ time_ok a.1.2) l → (length k < 33)%nat →
  contents (append_all d l).1 !! k = contents d !! k.
Proof.
  intros Hl Hk. revert d. induction Hl as [|[[c now] e] l [Hc Hn] _ IH]; intros d; [done|].
  cbn [append_all]. destruct (Append d c now (Some e)) as [d1 r] eqn:Ha. specialize (IH d1).
  destruct (append_all d1 l) as [d2 rs]. simpl in *. rewrite IH. by eapply Append_short_key.
Qed.

(** C38: a snapshot survives: once one has been written, reading it back
    gives the topics and peers it was taken of, whatever entries are appended
    to whatever channels in between; and taking it touched no feed. *)
Theorem snapshot_roundtrip h h' (l : list (Channel T * Time * Msg.t)) :
  Forall (λ a, channel_ok a.1.1 ∧ time_ok a.1.2) l →
  snapshot h true = (h', Ok tt) →
  ∃ snap, takeSnapshot h = Ok snap ∧
    (∀ h'', db (store h'') = (append_all (db (store h')) l).1 → readSnapshot h'' = Ok (canon snap)) ∧
    feed_equiv (feed (contents (db (store h')))) (feed (contents (db (store h)))) ∧
    net h' = net h ∧ handlers h' = handlers h.
Proof.
  intros Hl. unfold snapshot. simpl. destruct (takeSnapshot h) as [snap|e|]; [|done..].
  unfold writeSnapshot. destruct (Marshal snap) as [body|e|] eqn:Hb; [|done..].
  set (e := Msg.mk MsgOp_FeedEntry 0 None (Some body) None None).
  destruct (Marshal e) as [m|x|] eqn:Hm; [|unfold Upsert; rewrite Hm; by intros [= _ ?]..].
  destruct (upsert_private (T:=T) (db (store h)) snapshotKey e m) as (d' & Hu & _ & Hf & _);
    [simpl; lia|done|].
  rewrite Hu. intros [= <-]. exists snap. split; [done|]. split; [|by split_and!].
  intros h'' Hd. rewrite (readSnapshot_stored h'' body m Hm).
  - by rewrite (Unmarshal_Marshal snap body Hb).
  - rewrite Hd, append_all_short_key by (done || (simpl; lia)). simpl.
    unfold Upsert in Hu. rewrite Hm in Hu. unfold Update in Hu.
    destruct (begin_ok (db (store h)) true) as (t & Ht & _). rewrite Ht in Hu. simpl in Hu.
    destruct (set_ok t snapshotKey m) as (t' & Ht' & _ & Hw & _). rewrite Ht' in Hu. simpl in Hu.
    destruct (Txn_Commit (db (store h)) t') as [d1| |] eqn:Hc; [|done..]. injection Hu as <-.
    apply Txn_Commit_spec in Hc as [-> _]. rewrite Hw. apply lookup_union_Some_l, lookup_insert_eq.
Qed.

Lemma NewChannelDiscovery_db h id uri : db (store (NewChannelDiscovery h id uri).1) = db (store h).
Proof.
  unfold NewChannelDiscovery.
  assert (∀ cid, db (Store_Channel (store h) cid).1 = db (store h)) as Hdb
    by (intros cid; unfold Store_Channel; by case_match).
  specialize (Hdb (ChannelURItoChannelID uri)).
  destruct (Store_Channel (store h) (ChannelURItoChannelID uri)) as [s [c|e|]]; [|done..].
  unfold NewTopicHandler. destruct (Join _ _) as [n [e|]]; [done|].
  by destruct (Topic_Subscribe _ _) as [n' [e|]].
Qed.

(** C39: one unreachable peer keeps the vault from starting: if a peer of
    the stored snapshot cannot be connected to, [New] fails, whoever else is
    reachable. *)
Theorem unreachable_peer_blocks_start w new_net service (s : Store T) fs id cfg_MDNS cfg_URI KeyFile snap (p : Peer.t) (a : AddrInfo Multiaddr) :
  cfg_URI ≠ [] →
  (∀ h, db (store h) = db s → readSnapshot h = Ok snap) → p ∈ PubsubState.Peers snap →
  decodePeerAddr p = Ok a → (∀ n, ∃ e, (Connect n a).2 = Some e) →
  ∀ h, (New w new_net service s fs id cfg_MDNS cfg_URI KeyFile).2 ≠ Ok (Some h).
Proof.
  intros Hu Hread Hp Ha Hcon h (n & kr & h1 & disc & _ & Hd & Hr)%New_started.
  assert (db (store h1) = db s) as Hdb.
  { apply (f_equal fst) in Hd. simpl in Hd. by rewrite <-Hd, NewChannelDiscovery_db. }
  set (h2 := mkHost _ _ _ _ _) in Hr.
  assert (∀ ps h0, p ∈ ps → (restore_peers h0 ps).2 ≠ Ok tt) as Hps.
  { clear -Ha Hcon. intros ps. induction ps as [|q ps IH]; intros h0 Hin; [by apply not_elem_of_nil in Hin|].
    simpl. apply elem_of_cons in Hin as [<-|Hin].
    - unfold handleDiscoveryUpsert. rewrite Ha. destruct (Hcon (net h0)) as [e He].
      destruct (Connect (net h0) a) as [n' [e'|]]; [done|]. simpl in He. done.
    - destruct (handleDiscoveryUpsert h0 q) as [h' [?|e|]]; [by apply IH|done..]. }
  specialize (Hps (PubsubState.Peers snap) h2 Hp). revert Hr. unfold restore.
  rewrite (Hread h2) by done. destruct (handlers h2 !! discoveryURI h2); [|done].
  intros Hr. by rewrite Hr in Hps.
Qed.

(** What a peer record makes of a public key: the first 32 bytes of its
    marshalled form, which are not the key's if the form has a header that
    the key does not begin with. *)
Lemma peer_key_mangled (k : PubKey) (peerID hdr raw : bytes) ma (update : Peer.t) :
  MarshalPublicKey (Some k) = Ok (hdr ++ raw) → PubKey_Raw k = Ok raw →
  length hdr = 4%nat → length raw = 32%nat → take 4 raw ≠ hdr →
  encodePeer peerID (Some k) ma = Ok update →
  MemberPublicKeyFromBytes (sbytes (Peer.Key update)) = Some (hdr ++ take 28 raw) ∧
  MemberPublicKeyFromP2PKey k ≠ Ok (MemberPublicKeyFromBytes (sbytes (Peer.Key update))).
Proof.
  intros Hm Hr Hh Hl Hne. unfold encodePeer. rewrite Hm. simpl. intros [= <-]. simpl.
  assert (MemberPublicKeyFromBytes (hdr ++ raw) = Some (hdr ++ take 28 raw)) as ->.
  { unfold MemberPublicKeyFromBytes. rewrite copy_zeros. unfold fit.
    rewrite take_app, length_app, Hh, Hl, take_ge by lia. simpl. by rewrite app_nil_r. }
  split; [done|]. unfold MemberPublicKeyFromP2PKey. rewrite Hr. simpl.
  unfold MemberPublicKeyFromBytes. rewrite copy_zeros, fit_exact by done.
  intros Heq%(inj Ok). injection Heq as Heq. apply Hne. rewrite Heq.
  by rewrite take_app_length'.
Qed.
End snapshots.

(* ------------------------------------------------------------------ *)
(** * Witnesses *)

(** A vault that starts, is told of a channel and takes a snapshot; and one
    whose snapshot names an unreachable peer. *)
Module P2PExamples.
Import MemDB RefCodec RefHash RefCrypto RefNet StoreExamples KeyringExamples KeyFileExamples.

Definition n0 : Net := mkNet [] ∅.
Definition s0 : Store unit := mkStore d0 true [] ∅.
Definition evs : list host_event := [ChannelUpdate (str "id") (Some (ch x07)); SnapshotUpdate; Tick].

Definition new_net (_ : option PrivKey) : outcome Net := Ok n0.
Definition no_mdns (_ : Z) (_ : gostring) : outcome unit := Ok tt.

Lemma host_starts : ∃ h, (New (world privk) new_net no_mdns s0 no_files (str "id") true uri path).2 = Ok (Some h).
Proof. by eexists. Qed.

Lemma host_relays_nothing_witness :
  ∃ h disc, (New (world privk) new_net no_mdns s0 no_files (str "id") true uri path).2 = Ok (Some h) ∧
    handlers (watchTopics (h, false) evs).1.1 = {[uri := disc]}.
Proof.
  destruct host_starts as [h Hh]. exists h.
  destruct (host_relays_nothing (world privk) new_net no_mdns s0 no_files (str "id") true uri path h false evs)
    as (disc & _ & Hd); [apply map_Forall_empty|by repeat constructor|exact Hh|].
  exists disc. split; [exact Hh|exact Hd].
Defined.

Definition h0 : Host (T:=unit) := mkHost (mkNet [(str "peer", [str "addr"])] ∅) s0 NewKeyRing ∅ uri.

Lemma h0_snapshot : ∃ h, snapshot h0 true = (h, Ok tt).
Proof. eexists. reflexivity. Qed.

Lemma snapshot_roundtrip_witness :
  ∃ h snap, snapshot h0 true = (h, Ok tt) ∧ takeSnapshot h0 = Ok snap ∧ readSnapshot h = Ok (canon snap).
Proof.
  destruct h0_snapshot as [h Hh]. exists h.
  destruct (snapshot_roundtrip h0 h [] (Forall_nil_2 _) Hh) as (snap & Ht & Hr & _).
  exists snap. split; [exact Hh|]. split; [exact Ht|]. by apply Hr.
Defined.

Definition lost : PubsubState.t := PubsubState.mk [] [Peer.mk PeerUpdateOp_Upsert [] (Some [x01]) []].
Definition s1 : Store unit :=
  store (writeSnapshot h0 lost).1.

Lemma s1_snapshot (h : Host (T:=unit)) : db (store h) = db s1 → readSnapshot h = Ok lost.
Proof. intros Hd. unfold readSnapshot. rewrite Hd. reflexivity. Qed.

Lemma unreachable_peer_blocks_start_witness :
  (New (world privk) new_net no_mdns s1 no_files (str "id") true uri path).2 ≠ Ok (Some h0).
Proof.
  apply (unreachable_peer_blocks_start (world privk) new_net no_mdns s1 no_files (str "id") true uri path lost
           (Peer.mk PeerUpdateOp_Upsert [] (Some [x01]) []) (mkAddrInfo [] []));
    [done|apply s1_snapshot|by left|done|by eexists].
Defined.
End P2PExamples.
