(* ===== verification/TopicLoop.v ===== *)
(** [p2p/topic_handler.go]: the goroutine of [watchTopic], and [Done].

    [watchTopic] takes the messages of its topic one by one ([watchTopic_turn]
    of [P2P.v]) and retries when [sub.Next] fails, as it does for good once
    [Done] has cancelled the subscription and the handler's context, or the
    host's context, which the handler's derives from, has ended. *)
From S2P Require Import Prelude Protos Helpers Crypto Keyring KeyFile Badger Channel Store Reader Lts P2P.

Section loop.
Context `{P2PKeys} `{!LibP2P} `{NaCl} `{Badger} `{!ProtoCodec Msg.t} `{!ProtoCodec Peer.t}
  `{!ProtoCodec PubsubState.t} `{Sha256} {T : Type}.
Context (th : TopicHandler).

(** The host, the messages that came in and are not taken yet, and whether the
    subscription and the context are still there. *)
Record topic_loop := mkTopicLoop {
  t_host : Host (T:=T);
  t_pending : list pubsub_msg;
  t_sub : bool;
  t_ctx : bool;
}.

Inductive topic_label :=
  | Arrives (m : pubsub_msg)
  | Takes (now : Time)        (* [th.sub.Next] returns the next message *)
  | Fails (err : error)       (* it returns an error *)
  | IsDone                    (* somebody calls [Done] *)
  | HostStops.

(** [TopicHandler.Done()] *)
Definition TopicHandler_Done (s : topic_loop) : topic_loop := mkTopicLoop (t_host s) (t_pending s) false false.

(** [Next] fails when there is no subscription or context to wait on; a
    message that is there may still be taken. A panic ends the process. *)
Definition topic_step (l : topic_label) (s : topic_loop) : option topic_loop :=
  match l with
  | Arrives m => if t_sub s then Some (mkTopicLoop (t_host s) (t_pending s ++ [m]) (t_sub s) (t_ctx s)) else None
  | Takes now =>
      match t_pending s with
      | m :: ms =>
          match watchTopic_turn (t_host s) th now (Ok m) with
          | (_, Panic) => None
          | (h, _) => Some (mkTopicLoop h ms (t_sub s) (t_ctx s))
          end
      | [] => None
      end
  | Fails err =>
      if t_sub s && t_ctx s then None
      else
        match watchTopic_turn (t_host s) th (mkTime 0 0) (Err err) with
        | (_, Panic) => None
        | (h, _) => Some (mkTopicLoop h (t_pending s) (t_sub s) (t_ctx s))
        end
  | IsDone => Some (TopicHandler_Done s)
  | HostStops => Some (mkTopicLoop (t_host s) (t_pending s) (t_sub s) false)
  end.

Definition is_take (l : topic_label) : bool := match l with Takes _ => true | _ => false end.

(** Nothing more comes in. *)
Definition unsubscribed s : Prop := t_sub s = false.

Lemma unsubscribed_step : preserved topic_step (λ _ _, True) unsubscribed.
Proof.
  intros [m|now|err| |] s s' Hs _; unfold topic_step; rewrite ?Hs; try by intros [= <-].
  destruct (t_pending s) as [|m ms]; [done|]. destruct (watchTopic_turn _ _ _ _) as [h []]; by intros [= <-].
Qed.

(** What is pending is taken, and nothing else. *)
Lemma unsubscribed_pending ls s s' :
  unsubscribed s → play topic_step ls s = Some s' →
  (length (filter is_take ls) + length (t_pending s') = length (t_pending s))%nat
  ∧ (filter is_take ls = [] → t_host s' = t_host s).
Proof.
  revert s. induction ls as [|l ls IH]; intros s Hs; [by intros [= <-]|]. cbn [play].
  destruct (topic_step l s) as [s1|] eqn:Hl; [|done]. simpl. intros Hp.
  pose proof (unsubscribed_step l s s1 Hs I Hl) as Hs1. destruct (IH s1 Hs1 Hp) as [Hn Hh].
  destruct l as [m|now|err| |]; unfold topic_step in Hl; rewrite ?Hs in Hl; [done| | | |].
  - rewrite filter_cons_True by done. destruct (t_pending s) as [|m ms] eqn:Hms; [done|].
    destruct (watchTopic_turn _ _ _ _) as [h []]; try done; injection Hl as <-; (split; [simpl in *; lia|intros Hx; discriminate Hx]).
  - rewrite filter_cons_False by by intros []. simpl in Hl. by injection Hl as <-.
  - rewrite filter_cons_False by by intros []. by injection Hl as <-.
  - rewrite filter_cons_False by by intros []. by injection Hl as <-.
Qed.

(** The goroutine of a handler that is done never ends: it takes what is left
    of its topic, at most, and whenever it does not, [Next] fails, it logs that
    and is where it was. *)
Lemma done_handler_spins s ls s' :
  play topic_step ls (TopicHandler_Done s) = Some s' →
  (∀ err, topic_step (Fails err) s' = Some s')
  ∧ (length (filter is_take ls) ≤ length (t_pending s))%nat
  ∧ (t_pending s' = [] → ∀ ls2 s2, play topic_step ls2 s' = Some s2 → t_host s2 = t_host s').
Proof.
  intros Hp. assert (unsubscribed s') as Hs' by exact (play_forever topic_step unsubscribed ls (TopicHandler_Done s) s' unsubscribed_step eq_refl Hp).
  pose proof (unsubscribed_pending ls (TopicHandler_Done s) s' eq_refl Hp) as [Hn _]. simpl in Hn.
  split; [|split; [lia|]].
  - intros err. destruct s' as [h p sub ctx]. unfold unsubscribed in Hs'. simpl in Hs'. by subst sub.
  - intros Hnil ls2 s2 Hp2. destruct (unsubscribed_pending ls2 s' s2 Hs' Hp2) as [Hn2 Hh2]. apply Hh2.
    rewrite Hnil in Hn2. simpl in Hn2. apply nil_length_inv. lia.
Qed.
End loop.
