(* ===== verification/HostLoop.v ===== *)
(** [p2p/host.go]: the goroutines of a host, interleaved.

    [watchTopics] of [P2P.v] runs the loop of the host over the events it
    selects, [joinChannel] and [Publish] being done at once.  In the process
    the loop is one goroutine; each call of [joinChannel] is another, as is
    each reader of a topic handler, which calls [Publish].  They meet on the
    lock of the host and on [snapshotUpdateCh], which is unbuffered:
    [joinChannel] sends on it with the lock held, [Publish] before it notes the
    entry's id, and the loop, which receives, takes the lock for reading in
    [snapshot].

    The write lock is [writer]; the read lock is held by [snapshot] only, which
    does not block once it has it and is one step.  [watchTopic], which a join
    starts, is in [P2P.v] and [Reader.v]. *)
From S2P Require Import Prelude Protos Helpers Crypto Keyring KeyFile Badger Channel Store Reader Lts P2P.

Section loop.
Context `{P2PKeys} `{!LibP2P} `{NaCl} `{Badger} `{!ProtoCodec Msg.t} `{!ProtoCodec Peer.t}
  `{!ProtoCodec PubsubState.t} `{Sha256} {T : Type}.

(** A goroutine in [joinChannel]: before the lock, or with it, at the send. *)
Inductive joiner :=
  | JoinWants (id : UUID) (channel : Channel T)
  | JoinSends.

(** A reader in [Publish]: at the send of [onPublish], or past it. *)
Inductive publisher :=
  | PubSends (entry : Msg.t)
  | PubNotes (entry : Msg.t).

(** [announcing] are the channels the store's goroutines send on [updateCh];
    [snapping] says that the loop is in [snapshot], before the read lock. *)
Record host_loop := mkHostLoop {
  host : Host (T:=T);
  announcing : list (Channel T);
  joiners : gmap nat joiner;
  publishers : gmap gostring publisher;
  writer : option nat;
  snapping : bool;
  ldirty : bool;
}.

Inductive host_label :=
  | Announce (channel : Channel T)          (* the store registers a channel *)
  | Update (i n : nat) (id : UUID)          (* the loop receives it, and starts [joinChannel] *)
  | Join_ (n : nat)                         (* [joinChannel] gets the lock *)
  | JoinSent (n : nat)
  | PublishStarts (key : gostring) (entry : Msg.t)
  | PublishSent (key : gostring)
  | PublishNotes (key : gostring)           (* [th.lastEntryID = ...] *)
  | Tick_
  | Snap.                                   (* [snapshot] gets the lock *)

(** [Publish] up to the end of [onPublish], but for the send, if there is one. *)
Definition publish_starts (h : Host (T:=T)) (key : gostring) (entry : Msg.t) : Host (T:=T) * outcome bool :=
  match handlers h !! key with
  | None => (h, Panic)
  | Some th =>
      let body := match Marshal entry with Ok b => b | _ => [] end in
      let h := set_net (Topic_Publish (net h) (th_topic th) body) h in
      match th_kind th with
      | Discovery => let (h, r) := handleDiscoveryEntry h (Some entry) in (h, _ ← logged r; Ok false)
      | Relay => (h, Ok true)
      end
  end.

(** The last statement of [Publish]. *)
Definition publish_notes (h : Host (T:=T)) (key : gostring) (entry : Msg.t) : Host (T:=T) :=
  match handlers h !! key with
  | None => h
  | Some th =>
      mkHost (net h) (store h) (keyring h)
        (<[key := mkTopicHandler (th_kind th) (th_id th) (th_channel th) (th_topic th)
                    (EntryHeader.GetEntryID (Msg.GetEntryHeader (Some entry)))]> (handlers h)) (discoveryURI h)
  end.

Definition set_host (h : Host (T:=T)) (s : host_loop) : host_loop :=
  mkHostLoop h (announcing s) (joiners s) (publishers s) (writer s) (snapping s) (ldirty s).
Definition set_joiners (j : gmap nat joiner) (w : option nat) (s : host_loop) : host_loop :=
  mkHostLoop (host s) (announcing s) j (publishers s) w (snapping s) (ldirty s).
Definition set_publishers (p : gmap gostring publisher) (s : host_loop) : host_loop :=
  mkHostLoop (host s) (announcing s) (joiners s) p (writer s) (snapping s) (ldirty s).
Definition set_loop (snap b : bool) (s : host_loop) : host_loop :=
  mkHostLoop (host s) (announcing s) (joiners s) (publishers s) (writer s) snap b.

Definition host_step (l : host_label) (s : host_loop) : option host_loop :=
  match l with
  | Announce c =>
      Some (mkHostLoop (host s) (announcing s ++ [c]) (joiners s) (publishers s) (writer s) (snapping s) (ldirty s))
  | Update i n id =>
      if snapping s then None
      else
        c ← announcing s !! i;
        match joiners s !! n with
        | Some _ => None
        | None =>
            Some (mkHostLoop (host s) (delete i (announcing s)) (<[n := JoinWants id c]> (joiners s))
                    (publishers s) (writer s) (snapping s) (ldirty s))
        end
  | Join_ n =>
      match joiners s !! n, writer s with
      | Some (JoinWants id c), None =>
          let (h, sends) := joinChannel (host s) id c (Some []) in
          Some (set_host h (if (sends : bool) then set_joiners (<[n := JoinSends]> (joiners s)) (Some n) s
                            else set_joiners (delete n (joiners s)) None s))
      | _, _ => None
      end
  | JoinSent n =>
      match joiners s !! n, snapping s with
      | Some JoinSends, false => Some (set_loop false true (set_joiners (delete n (joiners s)) None s))
      | _, _ => None
      end
  | PublishStarts key entry =>
      match publishers s !! key with
      | Some _ => None
      | None =>
          match publish_starts (host s) key entry with
          | (h, Ok sends) =>
              Some (set_host h (set_publishers
                     (<[key := if (sends : bool) then PubSends entry else PubNotes entry]> (publishers s)) s))
          | _ => None
          end
      end
  | PublishSent key =>
      match publishers s !! key, snapping s with
      | Some (PubSends entry), false =>
          Some (set_loop false true (set_publishers (<[key := PubNotes entry]> (publishers s)) s))
      | _, _ => None
      end
  | PublishNotes key =>
      match publishers s !! key with
      | Some (PubNotes entry) =>
          Some (set_host (publish_notes (host s) key entry) (set_publishers (delete key (publishers s)) s))
      | _ => None
      end
  | Tick_ => if snapping s then None else Some (set_loop (ldirty s) (ldirty s) s)
  | Snap =>
      match snapping s, writer s with
      | true, None =>
          match snapshot (host s) true with
          | (h, Ok _) => Some (set_host h (set_loop false false s))
          | (h, Err _) => Some (set_host h (set_loop false true s))
          | (_, Panic) => None
          end
      | _, _ => None
      end
  end.

(** A host that [New] has just returned, its loop running. *)
Definition host_start (h : Host (T:=T)) (announced : list (Channel T)) : host_loop :=
  mkHostLoop h announced ∅ ∅ None false false.

(** The two halves are [Publish]. *)
Lemma publish_halves (h : Host (T:=T)) key (entry : Msg.t) :
  TopicHandler_Publish h key entry =
    match publish_starts h key entry with
    | (h', Ok sends) => (publish_notes h' key entry, Ok sends)
    | r => r
    end.
Proof.
  unfold TopicHandler_Publish, publish_starts, publish_notes. destruct (handlers h !! key) as [th|] eqn:Hth; [|done].
  set (h1 := set_net _ h). destruct (th_kind th) eqn:Hk.
  - assert (∀ e, handlers (handleDiscoveryEntry h1 e).1 = handlers h) as Hh.
    { intros e. unfold handleDiscoveryEntry, handleDiscoveryUpsert. repeat case_match; done. }
    specialize (Hh (Some entry)). destruct (handleDiscoveryEntry h1 (Some entry)) as [h2 r]. simpl in Hh.
    destruct (logged r) as [[]|e|]; simpl; [|done..]. by rewrite Hh, Hth, Hk.
  - simpl. by rewrite Hth, Hk.
Qed.
End loop.

(* ------------------------------------------------------------------ *)
(** * The host this program starts *)

Section nameless.
Context `{LibP2PLaws} `{NaCl} `{Badger} `{!ProtoCodec Msg.t} `{!ProtoCodec Peer.t}
  `{!ProtoCodec PubsubState.t} `{Sha256} {T : Type}.
Implicit Types (h : Host (T:=T)) (c : Channel T) (s : host_loop (T:=T)).

(** Only the discovery handler, nobody sending, nothing to write. *)
Definition idle_host h0 s : Prop :=
  (∀ key th, handlers (host s) !! key = Some th → th_kind th = Discovery)
  ∧ dom (handlers (host s)) = dom (handlers h0) ∧ [] ∈ joined (net (host s)) ∧ store (host s) = store h0
  ∧ Forall (λ c, URI c = []) (announcing s)
  ∧ map_Forall (λ _ j, ∃ id c, j = JoinWants id c ∧ URI c = []) (joiners s)
  ∧ map_Forall (λ _ p, ∃ entry, p = PubNotes entry) (publishers s)
  ∧ snapping s = false ∧ ldirty s = false.

(** The store announces channels as it makes them. *)
Definition announces_nameless (l : host_label (T:=T)) : Prop :=
  match l with Announce c => URI c = [] | _ => True end.

Lemma joinChannel_store h id c start : store (joinChannel h id c start).1 = store h.
Proof. unfold joinChannel, NewTopicHandler. by repeat case_match; simplify_eq. Qed.

Lemma discovery_frame h (e : option Msg.t) :
  handlers (handleDiscoveryEntry h e).1 = handlers h ∧ store (handleDiscoveryEntry h e).1 = store h
  ∧ joined (net (handleDiscoveryEntry h e).1) = joined (net h).
Proof.
  unfold handleDiscoveryEntry. destruct (body ← _; _) as [u|x|]; [|done..]. cbv zeta.
  destruct (_ =? PeerUpdateOp_Upsert).
  - destruct (handleDiscoveryUpsert_frame h u) as (-> & -> & -> & _). done.
  - by destruct (_ =? PeerUpdateOp_RemovePermanently).
Qed.

Lemma publish_starts_frame h key (entry : Msg.t) h' b :
  (∀ th, handlers h !! key = Some th → th_kind th = Discovery) → publish_starts h key entry = (h', Ok b) →
  handlers h' = handlers h ∧ store h' = store h ∧ joined (net h') = joined (net h) ∧ b = false.
Proof.
  intros Hk. unfold publish_starts. destruct (handlers h !! key) as [th|]; [|done]. rewrite (Hk th eq_refl).
  set (h1 := set_net _ h). destruct (discovery_frame h1 (Some entry)) as (Hh & Hs & Hj).
  destruct (handleDiscoveryEntry h1 (Some entry)) as [h2 r]. simpl in Hh, Hs, Hj.
  destruct (logged r) as [[]|e|]; simpl; intros [= <- <-]. rewrite Hh, Hs, Hj. simpl. by rewrite Publish_joined.
Qed.

Lemma idle_step h0 : preserved host_step (λ _, announces_nameless) (idle_host h0).
Proof.
  intros l s s' (Hk & Hdom & Hj & Hst & Han & Hjo & Hpu & Hsn & Hdi) Hl Hstep.
  destruct l as [c|i n id|n|n|key entry|key|key| |]; simpl in Hstep.
  - injection Hstep as <-. split_and!; simpl; try done. apply Forall_app. split; [done|]. by constructor.
  - rewrite Hsn in Hstep. destruct (announcing s !! i) as [c|] eqn:Hi; [|done]. simpl in Hstep.
    destruct (joiners s !! n); [done|]. injection Hstep as <-. split_and!; simpl; try done.
    + by apply Forall_delete.
    + apply map_Forall_insert_2; [|done]. exists id, c. split; [done|]. by eapply Forall_lookup_1 in Han.
  - destruct (joiners s !! n) as [j|] eqn:Hn; [|done]. destruct (Hjo n j Hn) as (id & c & -> & Hu).
    destruct (writer s); [done|]. pose proof (joinChannel_refused (host s) id c (Some []) Hu Hj) as Hr.
    pose proof (joinChannel_store (host s) id c (Some [])) as Hs1.
    destruct (joinChannel (host s) id c (Some [])) as [h' b]. destruct Hr as (Hh & Hj' & ->). injection Hstep as <-.
    split_and!; simpl; try done; [by rewrite Hh|by rewrite Hh| |by apply map_Forall_delete]. simpl in Hs1. by rewrite Hs1.
  - destruct (joiners s !! n) as [j|] eqn:Hn; [|done]. by destruct (Hjo n j Hn) as (id & c & -> & _).
  - destruct (publishers s !! key) eqn:Hp; [done|].
    destruct (publish_starts (host s) key entry) as [h' [b|e|]] eqn:Hpub; [|done..]. injection Hstep as <-.
    apply publish_starts_frame in Hpub as (Hh & Hs1 & Hj1 & ->); [|by apply Hk].
    split_and!; simpl; rewrite ?Hh, ?Hs1, ?Hj1; try done. apply map_Forall_insert_2; [by eexists|done].
  - destruct (publishers s !! key) as [p|] eqn:Hp; [|done]. by destruct (Hpu key p Hp) as [entry ->].
  - destruct (publishers s !! key) as [p|] eqn:Hp; [|done]. destruct (Hpu key p Hp) as [entry ->].
    injection Hstep as <-. unfold publish_notes. destruct (handlers (host s) !! key) as [th|] eqn:Hth.
    + split_and!; simpl; try done; [|by rewrite dom_insert_lookup_L|by apply map_Forall_delete].
      intros key' th'. rewrite lookup_insert_Some. intros [[_ <-]|[_ Hl']]; [by apply (Hk key th)|by eapply Hk].
    + split_and!; simpl; try done. by apply map_Forall_delete.
  - rewrite Hsn in Hstep. injection Hstep as <-. split_and!; simpl; try done.
  - by rewrite Hsn in Hstep.
Qed.

(** C24: no snapshot is ever taken: the only handler a host gets is the
    discovery one, whose callback does not send on [snapshotUpdateCh], and no
    channel can be joined; so however the goroutines of the host interleave,
    whatever is published and however often the ticker fires, the loop never
    becomes dirty and the host never writes to the store: there is nothing to
    restore from when it starts again. *)
Theorem host_never_snapshots w new_net service (s0 : Store T) fs id cfg_MDNS cfg_URI KeyFile h announced ls s :
  map_Forall (λ _ c, URI c = []) (channels s0) → Forall (λ c, URI c = []) announced →
  (P2P.New w new_net service s0 fs id cfg_MDNS cfg_URI KeyFile).2 = Ok (Some h) →
  Forall announces_nameless ls → play host_step ls (host_start h announced) = Some s →
  ldirty s = false ∧ snapping s = false ∧ store (host s) = store h ∧
  dom (handlers (host s)) = {[cfg_URI]}.
Proof.
  intros Hs0 Han (disc & Hk & Hh & Hj)%New_discovers Hls Hp; [|done].
  assert (idle_host h s) as (_ & Hdom & _ & Hst & _ & _ & _ & Hsn & Hdi).
  { eapply (play_invariant host_step); [apply idle_step|exact Hls| |exact Hp].
    split_and!; simpl; try done. intros key th. rewrite Hh, lookup_singleton_Some. by intros [_ <-]. }
  rewrite Hh, dom_singleton_L in Hdom. by split_and!.
Qed.
End nameless.

(* ------------------------------------------------------------------ *)
(** * Channels with a name *)

(** What the same code does once channels have URIs, as it is written for. *)
Section named.
Context `{P2PKeys} `{!LibP2P} `{NaCl} `{Badger} `{!ProtoCodec Msg.t} `{!ProtoCodec Peer.t}
  `{!ProtoCodec PubsubState.t} `{Sha256} {T : Type}.
Implicit Types (h : Host (T:=T)) (c : Channel T) (s : host_loop (T:=T)).

(** A joiner sends with the lock held; the loop waits for the lock. *)
Definition join_deadlocked (n : nat) s : Prop :=
  joiners s !! n = Some JoinSends ∧ writer s = Some n ∧ snapping s = true.

Lemma join_deadlocked_forever n : preserved host_step (λ _ _, True) (join_deadlocked n).
Proof.
  intros l s s' (Hj & Hw & Hsn) _ Hstep.
  destruct l as [c|i m id|m|m|key entry|key|key| |]; simpl in Hstep; rewrite ?Hsn, ?Hw in Hstep.
  - by injection Hstep as <-.
  - done.
  - by repeat case_match.
  - by repeat case_match.
  - destruct (publishers s !! key); [done|].
    destruct (publish_starts (host s) key entry) as [h' [b|e|]]; [|done..]. by injection Hstep as <-.
  - by repeat case_match.
  - destruct (publishers s !! key) as [[entry|entry]|]; [done| |done]. by injection Hstep as <-.
  - done.
  - done.
Qed.

(** C23: a host that joins a channel can seize up: if the ticker fires,
    with something to write, while a [joinChannel] that has taken the lock is
    about to tell the loop, the loop waits for the lock and the joiner for the
    loop; from then on, whatever happens, no channel is joined, no snapshot is
    written, and no relay handler gets past the send of its callback (the
    discovery handler's callback does not send). *)
Theorem join_deadlocks_loop s n id c h' :
  joiners s !! n = Some (JoinWants id c) → writer s = None → snapping s = false → ldirty s = true →
  joinChannel (host s) id c (Some []) = (h', true) →
  ∃ s', play host_step [Join_ n; Tick_] s = Some s' ∧
    ∀ ls s'', play host_step ls s' = Some s'' →
      host_step Snap s'' = None ∧ host_step Tick_ s'' = None ∧
      (∀ i m id', host_step (Update i m id') s'' = None) ∧ (∀ m, host_step (Join_ m) s'' = None) ∧
      (∀ m, host_step (JoinSent m) s'' = None) ∧ (∀ key, host_step (PublishSent key) s'' = None).
Proof.
  intros Hj Hw Hsn Hdi Hjoin. eexists. split.
  { simpl. rewrite Hj, Hw, Hjoin. simpl. rewrite Hsn. simpl. done. }
  intros ls s'' Hp.
  assert (join_deadlocked n s'') as (Hj' & Hw' & Hsn').
  { eapply (play_forever host_step); [apply join_deadlocked_forever| |exact Hp].
    split_and!; simpl; [by rewrite lookup_insert_eq|done|done]. }
  simpl. rewrite Hsn', Hw'. split_and!; try done.
  - intros m. by repeat case_match.
  - intros m. by repeat case_match.
  - intros key. by repeat case_match.
Qed.

(** A send on [snapshotUpdateCh]. *)
Definition tells_loop (l : host_label (T:=T)) : bool :=
  match l with JoinSent _ | PublishSent _ => true | _ => false end.

Lemma publish_starts_store h key (entry : Msg.t) : store (publish_starts h key entry).1 = store h.
Proof.
  unfold publish_starts. destruct (handlers h !! key) as [th|]; [|done]. destruct (th_kind th); [|done].
  set (h1 := set_net _ h). assert (store (handleDiscoveryEntry h1 (Some entry)).1 = store h) as Hs
    by (unfold handleDiscoveryEntry, handleDiscoveryUpsert; by repeat case_match).
  by destruct (handleDiscoveryEntry h1 (Some entry)).
Qed.

(** A clean loop writes nothing before somebody tells it to. *)
Lemma clean_step (st : Store T) :
  preserved host_step (λ _ l, tells_loop l = false)
    (λ s, ldirty s = false ∧ snapping s = false ∧ store (host s) = st).
Proof.
  intros l s s' (Hd & Hsn & Hst) Hl Hstep.
  destruct l as [c|i n id|n|n|key entry|key|key| |]; simpl in Hstep; rewrite ?Hsn, ?Hd in Hstep; try done.
  - by injection Hstep as <-.
  - destruct (announcing s !! i); [|done]. simpl in Hstep. destruct (joiners s !! n); [done|]. by injection Hstep as <-.
  - destruct (joiners s !! n) as [[id c|]|]; [|done..]. destruct (writer s); [done|].
    pose proof (joinChannel_store (host s) id c (Some [])) as Hj.
    destruct (joinChannel (host s) id c (Some [])) as [h sends]. injection Hstep as <-. simpl in Hj |- *.
    rewrite Hj. by destruct sends.
  - destruct (publishers s !! key); [done|]. pose proof (publish_starts_store (host s) key entry) as Hp.
    destruct (publish_starts (host s) key entry) as [h [b|e|]]; [|done..]. injection Hstep as <-. simpl in Hp |- *.
    by rewrite Hp.
  - destruct (publishers s !! key) as [[entry|entry]|]; [done| |done]. injection Hstep as <-.
    unfold publish_notes. simpl. by destruct (handlers (host s) !! key).
  - by injection Hstep as <-.
Qed.

(** C25: the snapshot can miss the entry it is taken for: [Publish] tells
    the loop before it notes the entry's id, so a tick in between writes the id
    before it and leaves the loop clean; the handler then knows the new id, but
    what the store has stays what that tick wrote, however the goroutines go
    on, until a [Publish] or a [joinChannel] tells the loop again. *)
Theorem snapshot_misses_entry s key th (entry : Msg.t) h' :
  publishers s !! key = Some (PubSends entry) → handlers (host s) !! key = Some th →
  writer s = None → snapping s = false → snapshot (host s) true = (h', Ok tt) →
  handlers h' = handlers (host s) →
  ∃ s', play host_step [PublishSent key; Tick_; Snap; PublishNotes key] s = Some s' ∧
    (∃ th', handlers (host s') !! key = Some th' ∧
       lastEntryID th' = EntryHeader.GetEntryID (Msg.GetEntryHeader (Some entry))) ∧
    (∃ snap, takeSnapshot (host s) = Ok snap ∧ writeSnapshot (host s) snap = (h', Ok tt) ∧
       TopicPointer.mk key (lastEntryID th) ∈ PubsubState.Topics snap) ∧
    ∀ ls s'', Forall (λ l, tells_loop l = false) ls → play host_step ls s' = Some s'' →
      store (host s'') = store h'.
Proof.
  intros Hp Hth Hw Hsn Hsnap Hh. eexists. split.
  { simpl. rewrite Hp, Hsn. simpl. rewrite Hw. simpl. unfold snapshot in Hsnap |- *. simpl in Hsnap |- *.
    destruct (takeSnapshot (host s)) as [snap|e|]; [|done..]. rewrite Hsnap. simpl. by rewrite lookup_insert_eq. }
  set (s' := set_host _ _).
  assert (store (host s') = store h') as Hst
    by (unfold s'; simpl; unfold publish_notes; by rewrite Hh, Hth).
  split; [|split].
  - unfold s'. simpl. unfold publish_notes. rewrite Hh, Hth. simpl. eexists. by rewrite lookup_insert_eq.
  - revert Hsnap. unfold snapshot. simpl. destruct (takeSnapshot (host s)) as [snap|e|] eqn:Ht; [|done..].
    intros Hwr. exists snap. split; [done|]. split; [done|]. revert Ht. unfold takeSnapshot.
    destruct (map_outcome _ _) as [peers|e|]; simpl; [|done..]. intros [= <-]. simpl.
    apply list_elem_of_fmap. exists (key, th). split; [done|]. by apply elem_of_map_to_list.
  - intros ls s'' Hls Hplay.
    apply (play_invariant host_step _ _ ls s' s'' (clean_step (store h')) Hls); [|exact Hplay]. by split_and!.
Qed.
End named.

(* ------------------------------------------------------------------ *)
(** * Witnesses *)

(** The host of [P2PExamples], and one that is told of a channel with a URI. *)
Module HostLoopExamples.
Import MemDB RefCodec RefHash RefCrypto RefNet StoreExamples KeyringExamples KeyFileExamples P2PExamples.

Definition busy : list (host_label (T:=unit)) :=
  [Announce (ch x07); Update 0 1 (str "id1"); Tick_; Join_ 1; PublishStarts uri e0; Tick_; PublishNotes uri].

Lemma busy_plays h :
  (New (world privk) new_net no_mdns s0 no_files (str "id") true uri path).2 = Ok (Some h) →
  ∃ s, play host_step busy (host_start h []) = Some s.
Proof.
  intros Hh. apply some_of_bool. revert Hh. intros [= <-]. vm_compute. reflexivity.
Qed.

Lemma host_never_snapshots_witness :
  ∃ h s, play host_step busy (host_start h []) = Some s ∧ ldirty s = false ∧ store (host s) = store h.
Proof.
  destruct host_starts as [h Hh]. destruct (busy_plays h Hh) as [s Hs]. exists h, s. split; [exact Hs|].
  destruct (host_never_snapshots (world privk) new_net no_mdns s0 no_files (str "id") true uri path h [] busy s)
    as (Hd & _ & Hst & _); [apply map_Forall_empty|constructor|exact Hh|by repeat constructor|exact Hs|].
  split; [exact Hd|exact Hst].
Defined.

Definition named : Channel unit := mkChannel (c_id (ch x07)) (str "/feed/0") (prefix (ch x07)) (indexPrefix (ch x07)) ∅.
Definition joining : host_loop := mkHostLoop h0 [] {[1%nat := JoinWants (str "id1") named]} ∅ None false true.

Lemma named_joins : ∃ h, joinChannel h0 (str "id1") named (Some []) = (h, true).
Proof. eexists. reflexivity. Qed.

Lemma join_deadlocks_loop_witness :
  ∃ s', play host_step [Join_ 1; Tick_] joining = Some s' ∧ host_step Snap s' = None.
Proof.
  destruct named_joins as [h Hh].
  destruct (join_deadlocks_loop joining 1 (str "id1") named h eq_refl eq_refl eq_refl eq_refl Hh) as (s' & Hs & Hd).
  exists s'. split; [exact Hs|]. exact (proj1 (Hd [] s' eq_refl)).
Defined.

Definition relay : TopicHandler := mkTopicHandler Relay (str "id1") (c_id (ch x07)) (str "/feed/0") (Some []).
Definition publishing : host_loop :=
  mkHostLoop (mkHost (P2P.net h0) s0 (P2P.keyring h0) {[str "/feed/0" := relay]} uri) [] ∅
    {[str "/feed/0" := PubSends e0]} None false false.

Lemma publishing_snapshot : ∃ h, snapshot (host publishing) true = (h, Ok tt) ∧ handlers h = handlers (host publishing).
Proof. eexists. split; reflexivity. Qed.

Lemma snapshot_misses_entry_witness :
  ∃ s' h, play host_step [PublishSent (str "/feed/0"); Tick_; Snap; PublishNotes (str "/feed/0")] publishing = Some s'
    ∧ snapshot (host publishing) true = (h, Ok tt)
    ∧ ∀ s'', play host_step [Tick_; Tick_] s' = Some s'' → store (host s'') = store h.
Proof.
  destruct publishing_snapshot as (h & Hh & Hhh).
  destruct (snapshot_misses_entry publishing (str "/feed/0") relay e0 h eq_refl eq_refl eq_refl eq_refl Hh Hhh)
    as (s' & Hs & _ & _ & Hd). exists s', h. split; [exact Hs|]. split; [exact Hh|].
  intros s''. apply Hd. by repeat constructor.
Defined.
End HostLoopExamples.
