(* ===== verification/Relay.v ===== *)
(** [p2p/topic_handler.go] and [store/store.go], on several vaults: a channel
    that peers relay to each other.

    Each vault has a host whose relay handler for the channel does two things:
    its store subscription publishes what is stored to the topic ([Publish]),
    and [watchTopic] appends what peers publish to the store.  The topic, which
    is libp2p's, may deliver a message to a peer late, out of order, several
    times or never.  Entries come in through [Channel.Append] at any vault.

    A state is the hosts and the messages that have been published; the two
    handlers are those of [P2P.v].  Which stored entries the subscription
    publishes, and when, is [Reader.v]'s; here it publishes any stored entry at
    any time.  [received] and [authored] keep what the theorem speaks of:
    deliveries, and the entries accepted from clients. *)
From S2P Require Import Prelude Protos Helpers Crypto Keyring KeyFile Badger Channel Store Reader Lts P2P.

Section relay.
Context `{P2PKeys} `{!LibP2P} `{NaCl} `{Badger} `{!ProtoCodec Msg.t} `{!ProtoCodec Peer.t}
  `{!ProtoCodec PubsubState.t} `{Sha256} {T : Type}.
(** the channel, and its URI, which names the topic *)
Context (cid : bytes) (topic : gostring).

Record gossip := mkGossip {
  peers : gmap nat (Host (T:=T));
  wire : list (nat * bytes);
  received : list (nat * bytes);
  authored : list Msg.t;
}.

Inductive gossip_label :=
  | Author (i : nat) (now : Time) (entry : option Msg.t)   (* a client of vault [i] appends *)
  | Gossip (i : nat) (entryID : bytes)                     (* its subscription publishes an entry *)
  | Deliver (j : nat) (now : Time) (from : bytes) (i : nat) (data : bytes).

Definition chan_ : Channel T := new_channel cid.

(** The subscription of the relay handler publishes the entry with this id. *)
Definition relay_publish (h : Host (T:=T)) (id : bytes) : option (Host (T:=T) * bytes) :=
  match Get (db (store h)) (EntryKey chan_ id) with
  | Ok entry =>
      match TopicHandler_Publish h topic entry with
      | (h', Ok _) => Some (h', match Marshal entry with Ok b => b | _ => [] end)
      | _ => None
      end
  | _ => None
  end.

Definition gossip_step (l : gossip_label) (s : gossip) : option gossip :=
  match l with
  | Author i now entry =>
      h ← peers s !! i;
      let (d, r) := Append (db (store h)) chan_ now entry in
      Some (mkGossip (<[i := set_store (set_db d (store h)) h]> (peers s)) (wire s) (received s)
              (authored s ++ match r, entry with Ok _, Some e => [e] | _, _ => [] end))
  | Gossip i id =>
      h ← peers s !! i;
      '(h', data) ← relay_publish h id;
      Some (mkGossip (<[i := h']> (peers s)) (wire s ++ [(i, data)]) (received s) (authored s))
  | Deliver j now from i data =>
      h ← peers s !! j;
      th ← handlers h !! topic;
      if decide ((i, data) ∈ wire s ∧ from ≠ Net_ID (net h)) then
        match watchTopic_turn h th now (Ok (mkPubsub from data)) with
        | (h', Ok _) => Some (mkGossip (<[j := h']> (peers s)) (wire s) (received s ++ [(j, data)]) (authored s))
        | _ => None
        end
      else None
  end.

Definition gossip_init (hs : gmap nat (Host (T:=T))) : gossip := mkGossip hs [] [] [].
End relay.

(* ------------------------------------------------------------------ *)
(** * Convergence *)

Section converge.
Context `{P2PKeys} `{!LibP2P} `{NaCl} `{BadgerReliable} `{!ProtoCodec Msg.t} `{!ProtoLaws Msg.t} `{!ProtoCodec Peer.t}
  `{!ProtoCodec PubsubState.t} `{Sha256} {T : Type}.
Context (cid : bytes) (Hcid : length cid = 32%nat) (topic : gostring).
(** what has come over the wire can go over it again *)
Context (Marshal_canon : ∀ (e : Msg.t) b, Marshal e = Ok b → ∃ b', Marshal (canon e) = Ok b').
Implicit Types (h : Host (T:=T)) (s : gossip (T:=T)) (e : Msg.t) (c : Channel T).

#[local] Abbreviation chan := (chan_ (T:=T) cid).

(** A host that relays the channel. *)
Definition relays h : Prop :=
  ∃ th c, handlers h !! topic = Some th ∧ th_kind th = Relay ∧ th_channel th = cid
    ∧ channels (store h) !! cid = Some c ∧ c_id c = cid ∧ channel_ok c.

(** The id of an entry, as it is in its key; an entry that was accepted. *)
Definition entry_of e (eid : bytes) : Prop :=
  ∃ id b, entryID (Some e) = Ok id ∧ id ≠ [] ∧ fit 30 id = eid ∧ Marshal e = Ok b.

(** [data] is [e] on the wire. *)
Definition encodes (data : bytes) e : Prop := Unmarshal data = (canon e, None).

Definition stored h (eid : bytes) : option bytes := contents (db (store h)) !! EntryKey chan eid.

(** Whatever is stored or under way is an authored entry, and is stored where
    it was sent from and where it has been received. *)
Definition holds s i (data : bytes) : Prop :=
  ∃ e eid h v, e ∈ authored s ∧ entry_of e eid ∧ encodes data e ∧ peers s !! i = Some h ∧ stored h eid = Some v.

Definition gossip_ok s : Prop :=
  (∀ i h, peers s !! i = Some h → relays h ∧
     ∀ eid v, length eid = 30%nat → stored h eid = Some v → ∃ e, e ∈ authored s ∧ entry_of e eid ∧ encodes v e)
  ∧ (∀ i data, (i, data) ∈ wire s → holds s i data)
  ∧ (∀ j data, (j, data) ∈ received s → holds s j data).

Definition glabel_ok (l : gossip_label) : Prop :=
  match l with
  | Author _ now entry => time_ok now ∧ entryID entry ≠ Ok []
  | Deliver _ now _ _ _ => time_ok now
  | _ => True
  end.

Lemma chan_ok : channel_ok chan.
Proof. by apply new_channel_ok. Qed.

Lemma canon_idemp e : canon (canon e) = canon e.
Proof.
  destruct e as [o r hd b st er]. unfold canon, Msg_canonical, canon_Msg. simpl.
  rewrite canon_slice_idemp. f_equal.
  - destruct hd as [hd|]; [|done]. simpl. unfold canon_EntryHeader. simpl. by rewrite !canon_slice_idemp.
  - destruct st as [st|]; [|done]. simpl. unfold canon_ReqStatus. simpl. by rewrite canon_slice_idemp.
Qed.

Lemma canon_entryID e id : entryID (Some e) = Ok id → id ≠ [] → entryID (Some (canon e)) = Ok id.
Proof.
  destruct e as [o r hd b st er]. unfold entryID. simpl. destruct hd as [hd|]; [|done]. simpl.
  destruct (EntryHeader.EntryID hd) as [i|]; simpl; [|done]. intros [= ->] Hne. by destruct id.
Qed.

Lemma Get_decodes (d : DB) k v e : contents d !! k = Some v → encodes v e → Get d k = Ok (canon e).
Proof.
  intros Hk Hv. unfold Get, View. destruct (begin_ok d false) as (t & -> & Hb & Hw & _). simpl.
  pose proof (get_ok t k) as Hok. rewrite (fresh_view t d Hb Hw), Hk in Hok. rewrite Hok. simpl. by rewrite Hv.
Qed.

(** What [Append] does to the entries of the channel. *)
Lemma Append_stored (d : DB) c now (entry : option Msg.t) d' r :
  channel_ok c → c_id c = cid → time_ok now → Append d c now entry = (d', r) →
  ((∀ eid, length eid = 30%nat → contents d' !! EntryKey chan eid = contents d !! EntryKey chan eid) ∧ ∀ k, r ≠ Ok k) ∨
  ∃ e id b, entry = Some e ∧ entryID (Some e) = Ok id ∧ Marshal e = Ok b ∧ (∃ k, r = Ok k) ∧
    ∀ eid, length eid = 30%nat → contents d' !! EntryKey chan eid =
      if decide (fit 30 id = eid) then Some b else contents d !! EntryKey chan eid.
Proof.
  intros Hc Hid Hn Ha. rewrite (Append_same c chan) in Ha by (done || apply chan_ok).
  apply Append_cases in Ha as [[-> Hr]|(e & id & b & -> & Hi & Hb & -> & Hnone & Hd)]; [by left|right].
  exists e, id, b. split_and!; [done..|by eexists|]. intros eid Hl. rewrite Hd.
  assert (∀ x : bytes, EntryKey chan x ≠ arrivalKey chan now id) as Hne.
  { intros x Hx. pose proof (arrivalKey_not_entry chan chan now id chan_ok chan_ok Hn) as Hf.
    by rewrite <-Hx, EntryKey_prefix in Hf by apply chan_ok. }
  rewrite lookup_insert_ne by (by apply not_eq_sym). rewrite lookup_insert.
  rewrite (EntryKey_bytes _ id), (EntryKey_bytes _ eid) by apply chan_ok. rewrite (fit_exact 30 eid) by done.
  destruct (decide (fit 30 id = eid)) as [->|Hne']; [by rewrite decide_True|].
  rewrite decide_False; [done|]. by intros ?%app_inv_head.
Qed.

(** An append refused where it could have been accepted finds the entry there. *)
Lemma Append_present (d : DB) c now e id b d' r :
  channel_ok c → c_id c = cid → time_ok now → Append d c now (Some e) = (d', r) →
  entryID (Some e) = Ok id → Marshal e = Ok b → is_Some (contents d' !! EntryKey chan (fit 30 id)).
Proof.
  intros Hc Hid Hn Ha Hi Hb. rewrite (Append_same c chan) in Ha by (done || apply chan_ok).
  assert (EntryKey chan (fit 30 id) = EntryKey chan id) as ->
    by (rewrite !EntryKey_bytes by apply chan_ok; by rewrite fit_fit).
  pose proof (Append_reliable d chan now e id b Hi Hb) as Hr.
  destruct (contents d !! EntryKey chan id) as [w|] eqn:Hw.
  - rewrite Hr in Ha. injection Ha as <- _. by eexists.
  - destruct Hr as (d1 & Ha' & Hd). rewrite Ha' in Ha. injection Ha as <- _. rewrite Hd.
    apply lookup_insert_is_Some', or_intror, lookup_insert_is_Some'. by left.
Qed.

Lemma entry_of_length e eid : entry_of e eid → length eid = 30%nat.
Proof. intros (id & b & _ & _ & <- & _). apply length_fit. Qed.

Lemma entry_of_canon e eid : entry_of e eid → ∃ id b, entryID (Some (canon e)) = Ok id ∧ fit 30 id = eid
  ∧ Marshal (canon e) = Ok b ∧ encodes b e.
Proof.
  intros (id & b & Hid & Hne & Hfit & Hb). destruct (Marshal_canon e b Hb) as [b' Hb'].
  exists id, b'. split; [by apply canon_entryID|]. split; [done|]. split; [done|].
  unfold encodes. rewrite (Unmarshal_Marshal _ _ Hb'). by rewrite canon_idemp.
Qed.

(** A message is of one entry only. *)
Lemma encodes_inj data e e' eid eid' :
  entry_of e eid → entry_of e' eid' → encodes data e → encodes data e' → eid = eid'.
Proof.
  unfold encodes. intros (a & b & Ha & Hna & <- & _) (a' & b' & Ha' & Hna' & <- & _) He He'.
  apply canon_entryID in Ha, Ha'; [|done..]. assert (canon e = canon e') as Hce by congruence.
  rewrite Hce, Ha' in Ha. by injection Ha as <-.
Qed.

(** A host that becomes [h'], keeping what it has, new entries being authored. *)
Definition becomes (es : list Msg.t) h h' : Prop :=
  relays h' ∧
  ∀ eid, length eid = 30%nat → stored h' eid = stored h eid
    ∨ (stored h eid = None ∧ ∃ e v, e ∈ es ∧ entry_of e eid ∧ stored h' eid = Some v ∧ encodes v e).

Lemma holds_becomes s s' i h h' j data :
  peers s !! i = Some h → peers s' = <[i := h']> (peers s) → (∃ es, authored s' = authored s ++ es) →
  becomes (authored s') h h' → holds s j data → holds s' j data.
Proof.
  intros Hi Hp [es Hes] [_ Hb] (e & eid & g & v & He & Hee & Henc & Hg & Hv).
  assert (e ∈ authored s') as He' by (rewrite Hes; apply elem_of_app; by left).
  destruct (decide (i = j)) as [<-|Hne].
  - simplify_eq. destruct (Hb eid (entry_of_length _ _ Hee)) as [Heq|[Hn _]]; [|congruence].
    exists e, eid, h', v. split_and!; try done; [by rewrite Hp, lookup_insert_eq|by rewrite Heq].
  - exists e, eid, g, v. split_and!; try done. by rewrite Hp, lookup_insert_ne.
Qed.

Lemma peers_become s s' i h h' :
  gossip_ok s → peers s !! i = Some h → peers s' = <[i := h']> (peers s) → (∃ es, authored s' = authored s ++ es) →
  becomes (authored s') h h' →
  ∀ j g, peers s' !! j = Some g → relays g ∧
    ∀ eid v, length eid = 30%nat → stored g eid = Some v → ∃ e, e ∈ authored s' ∧ entry_of e eid ∧ encodes v e.
Proof.
  intros (Hpe & _) Hi Hp [es Hes] [Hrel Hb] j g Hg.
  assert (∀ e, e ∈ authored s → e ∈ authored s') as Hin by (intros e He; rewrite Hes; apply elem_of_app; by left).
  rewrite Hp, lookup_insert_Some in Hg. destruct Hg as [[<- <-]|[_ Hg]].
  - split; [done|]. intros eid v Hl Hv. destruct (Hb eid Hl) as [Heq|(_ & e & v' & He & Hee & Hv' & Henc)].
    + rewrite Heq in Hv. destruct (proj2 (Hpe i h Hi) eid v Hl Hv) as (e & ? & ? & ?). eauto.
    + simplify_eq. eauto.
  - destruct (Hpe j g Hg) as [Hr Hs]. split; [done|]. intros eid v Hl Hv.
    destruct (Hs eid v Hl Hv) as (e & ? & ? & ?). eauto.
Qed.

(** The three steps, on the host they change. *)

Lemma append_becomes h d c now (entry : option Msg.t) r es :
  relays h → channel_ok c → c_id c = cid → time_ok now → Append (db (store h)) c now entry = (d, r) →
  (∀ e id b k, entry = Some e → entryID (Some e) = Ok id → Marshal e = Ok b → r = Ok k →
     ∃ e0, e0 ∈ es ∧ entry_of e0 (fit 30 id) ∧ encodes b e0) →
  becomes es h (set_store (set_db d (store h)) h).
Proof.
  intros Hrel Hc Hid Hn Ha Hes. split; [exact Hrel|]. intros eid Hl. unfold stored. simpl.
  pose proof (Append_stored (db (store h)) c now entry d r Hc Hid Hn Ha) as [[Hsame _]|(e & id & b & -> & Hi & Hb & [k Hk] & Hd)].
  - left. by apply Hsame.
  - rewrite (Hd eid Hl). case_decide as Hfit; [|by left].
    destruct (contents (db (store h)) !! EntryKey chan eid) as [w|] eqn:Hw.
    + exfalso. rewrite (Append_same c chan) in Ha by (done || apply chan_ok).
      pose proof (Append_reliable (db (store h)) chan now e id b Hi Hb) as Hr.
      assert (EntryKey chan id = EntryKey chan eid) as Hkey
        by (rewrite !EntryKey_bytes by apply chan_ok; by rewrite <-Hfit, fit_fit).
      rewrite Hkey, Hw in Hr. rewrite Hr in Ha. congruence.
    + right. split; [done|]. destruct (Hes e id b k eq_refl Hi Hb Hk) as (e0 & He0 & Hee & Henc).
      exists e0, b. rewrite Hfit in Hee. by split_and!.
Qed.

Lemma publish_becomes h (id : bytes) h' data es :
  relays h → relay_publish cid topic h id = Some (h', data) →
  becomes es h h' ∧ ∃ entry, Get (db (store h)) (EntryKey chan id) = Ok entry
    ∧ data = match Marshal entry with Ok b => b | _ => [] end.
Proof.
  intros (th & c & Hth & Hk & Hch & Hc & Hid & Hok). unfold relay_publish.
  destruct (Get _ _) as [entry|e|] eqn:Hg; [|done..]. unfold TopicHandler_Publish. rewrite Hth, Hk. simpl.
  intros [= <- <-]. split; [|by exists entry]. split; [|by left].
  eexists _, c. simpl. rewrite lookup_insert_eq. split; [done|]. by split_and!.
Qed.

Lemma deliver_becomes h th now from data h' e eid es :
  relays h → handlers h !! topic = Some th → time_ok now → from ≠ Net_ID (net h) →
  watchTopic_turn h th now (Ok (mkPubsub from data)) = (h', Ok tt) →
  encodes data e → entry_of e eid → e ∈ es →
  becomes es h h' ∧ is_Some (stored h' eid).
Proof.
  intros Hrel Hth Hn Hf Hw Henc Hee He. pose proof Hrel as (th' & c & Hth' & Hk & Hch & Hc & Hid & Hok). simplify_eq.
  revert Hw. unfold watchTopic_turn. simpl. rewrite decide_False by done. unfold checked. rewrite Henc.
  unfold onReceive. rewrite Hk, Hch, Hc. destruct (Append _ c now (Some (canon e))) as [d r] eqn:Ha.
  intros Hr. assert (h' = set_store (set_db d (store h)) h) as -> by congruence.
  destruct (entry_of_canon e eid Hee) as (id & b & Hi & Hfit & Hb & Hbe). split.
  - eapply append_becomes; [done..|]. intros e1 id1 b1 k [= <-] Hi1 Hb1 _. exists e. rewrite Hi in Hi1.
    rewrite Hb in Hb1. injection Hi1 as <-. injection Hb1 as <-. by rewrite Hfit.
  - unfold stored. simpl. rewrite <-Hfit. by eapply Append_present.
Qed.

#[local] Arguments watchTopic_turn : simpl never.

(** A vault that becomes another, and what is on the wire and has come in then. *)
Lemma vault_becomes s s' i h h' :
  gossip_ok s → peers s !! i = Some h → peers s' = <[i := h']> (peers s) → (∃ es, authored s' = authored s ++ es) →
  becomes (authored s') h h' →
  (∀ j data, (j, data) ∈ wire s' → (j, data) ∈ wire s ∨ holds s' j data) →
  (∀ j data, (j, data) ∈ received s' → (j, data) ∈ received s ∨ holds s' j data) →
  gossip_ok s'.
Proof.
  intros Hs Hi Hp Hes Hb Hw Hr. pose proof Hs as (_ & Hwi & Hre). split; [|split].
  - by eapply (peers_become s _ i h).
  - intros j data [Hin|?]%Hw; [|done]. eapply (holds_becomes s _ i h); [done..|by apply Hwi].
  - intros j data [Hin|?]%Hr; [|done]. eapply (holds_becomes s _ i h); [done..|by apply Hre].
Qed.

Lemma same_authored s : ∃ es, authored s = authored s ++ es.
Proof. exists []. by rewrite app_nil_r. Qed.

Lemma author_ok i now (entry : option Msg.t) s s' :
  gossip_ok s → glabel_ok (Author i now entry) → gossip_step cid topic (Author i now entry) s = Some s' → gossip_ok s'.
Proof.
  intros Hs [Hn Hne] Hstep. simpl in Hstep. destruct (peers s !! i) as [h|] eqn:Hi; [|done]. simpl in Hstep.
  destruct (Append _ _ _ _) as [d r] eqn:Ha. injection Hstep as <-.
  eapply (vault_becomes s _ i h); simpl; [done..|by eexists| |by left|by left].
  apply (append_becomes h d chan now entry r); try done; [by apply (proj1 Hs) in Hi as [? _]|apply chan_ok|].
  intros e id b k -> Hid Hm ->. exists e. split; [apply elem_of_app; right; left|].
  split; [exists id, b; split_and!; try done; congruence|]. by apply Unmarshal_Marshal.
Qed.

(** What a vault publishes it holds. *)
Lemma published_held s i h (id : bytes) h' data :
  gossip_ok s → peers s !! i = Some h → relay_publish cid topic h id = Some (h', data) →
  becomes (authored s) h h' ∧ holds s i data.
Proof.
  intros (Hpe & _) Hi Hp.
  destruct (publish_becomes h id h' data (authored s) (proj1 (Hpe i h Hi)) Hp) as [Hb (entry & Hg & Hd)].
  split; [done|]. assert (EntryKey chan id = EntryKey chan (fit 30 id)) as Hkey
    by (rewrite !EntryKey_bytes by apply chan_ok; by rewrite fit_fit).
  rewrite Hkey in Hg. destruct (stored h (fit 30 id)) as [v|] eqn:Hv; [|by rewrite Get_absent in Hg].
  destruct (proj2 (Hpe i h Hi) (fit 30 id) v (length_fit _ _) Hv) as (e & He & Hee & Henc).
  rewrite (Get_decodes _ _ v e Hv Henc) in Hg. injection Hg as <-.
  destruct (entry_of_canon e _ Hee) as (id' & b & _ & _ & Hm & Hbe). rewrite Hm in Hd. subst data.
  exists e, (fit 30 id), h, v. by split_and!.
Qed.

Lemma publish_ok i (id : bytes) s s' :
  gossip_ok s → gossip_step cid topic (Gossip i id) s = Some s' → gossip_ok s'.
Proof.
  intros Hs Hstep. simpl in Hstep. destruct (peers s !! i) as [h|] eqn:Hi; [|done]. simpl in Hstep.
  destruct (relay_publish cid topic h id) as [[h' data]|] eqn:Hp; [|done]. injection Hstep as <-.
  destruct (published_held s i h id h' data Hs Hi Hp) as [Hb Hh].
  eapply (vault_becomes s _ i h); simpl; [done..|exact (same_authored s)|done| |by left].
  intros j x [Hin|Hin]%elem_of_app; [by left|right]. apply list_elem_of_singleton in Hin. injection Hin as -> ->.
  eapply (holds_becomes s _ i h h'); [done..|exact (same_authored s)|done|done].
Qed.

Lemma received_ok j now from i data s s' :
  gossip_ok s → glabel_ok (Deliver j now from i data) → gossip_step cid topic (Deliver j now from i data) s = Some s' →
  gossip_ok s'.
Proof.
  intros Hs Hl Hstep. pose proof Hs as (Hpe & Hwi & _). simpl in Hstep.
  destruct (peers s !! j) as [h|] eqn:Hj; [|done]. simpl in Hstep.
  destruct (handlers h !! topic) as [th|] eqn:Hth; [|done]. simpl in Hstep. case_decide as Hc; [|done].
  destruct Hc as [Hin Hf]. destruct (watchTopic_turn h th now _) as [h' [[]|e|]] eqn:Hw; [|done..].
  injection Hstep as <-. destruct (Hwi i data Hin) as (e & eid & g & v & He & Hee & Henc & _).
  destruct (deliver_becomes h th now from data h' e eid (authored s) (proj1 (Hpe j h Hj)) Hth Hl Hf Hw Henc Hee He)
    as [Hb [v' Hv']].
  eapply (vault_becomes s _ j h); simpl; [done..|exact (same_authored s)|done|by left|].
  intros k x [Hx|Hx]%elem_of_app; [by left|right]. apply list_elem_of_singleton in Hx. injection Hx as -> ->.
  exists e, eid, h', v'. simpl. rewrite lookup_insert_eq. by split_and!.
Qed.

Lemma gossip_step_ok : preserved (gossip_step cid topic) (λ _, glabel_ok) gossip_ok.
Proof.
  intros [i now entry|i id|j now from i data] s s' Hs Hl Hstep.
  - by eapply author_ok.
  - by eapply publish_ok.
  - by eapply received_ok.
Qed.

(** ** The theorem *)

(** Vaults that relay the channel and have no entry of it yet. *)
Definition fresh_peers (hs : gmap nat (Host (T:=T))) : Prop :=
  map_Forall (λ _ h, relays h ∧ ∀ eid, stored h eid = None) hs.

(** No two entries were authored under one id. *)
Definition unique_ids s : Prop :=
  ∀ e e' eid, e ∈ authored s → e' ∈ authored s → entry_of e eid → entry_of e' eid → canon e = canon e'.

(** Everything stored has been published, by somebody, and everything published
    has come to everybody else. *)
Definition settled s : Prop :=
  (∀ i h eid v, peers s !! i = Some h → length eid = 30%nat → stored h eid = Some v →
     ∃ i0 data e, (i0, data) ∈ wire s ∧ entry_of e eid ∧ encodes data e) ∧
  ∀ i0 data j, (i0, data) ∈ wire s → is_Some (peers s !! j) → j = i0 ∨ (j, data) ∈ received s.

(** C8: vaults that relay a channel to each other converge.  However
    appends at any of them, publications and deliveries interleave, with
    messages late, repeated, out of order or lost: provided no two entries are
    accepted under one id, no two vaults ever have different entries under one
    key; every entry a vault has was accepted from a client of one of them; and
    once every stored entry has been published and what was published has
    arrived, all vaults have the same entries. *)
Theorem replicas_converge hs ls s :
  fresh_peers hs → Forall glabel_ok ls → play (gossip_step cid topic) ls (gossip_init hs) = Some s → unique_ids s →
  ∀ i j h h' id, peers s !! i = Some h → peers s !! j = Some h' → length id = 30%nat →
    let get h := Get (db (store h)) (EntryKey chan id) in
    (∀ m m', get h = Ok m → get h' = Ok m' → m = m') ∧
    (∀ m, get h = Ok m → ∃ e, e ∈ authored s ∧ m = canon e ∧ entry_of e id) ∧
    (settled s → get h = get h').
Proof.
  intros Hhs Hls Hp Hu i j h h' id Hi Hj Hl get.
  assert (gossip_ok s) as (Hpe & Hwi & Hre).
  { eapply (play_invariant (gossip_step cid topic)); [apply gossip_step_ok|exact Hls| |exact Hp].
    split; [|by split; intros ? ? ?%not_elem_of_nil]. intros k g Hg. destruct (Hhs k g Hg) as [Hr Hn].
    split; [done|]. intros eid v _ Hv. by rewrite Hn in Hv. }
  assert (∀ k g, peers s !! k = Some g → match stored g id with
    | Some v => ∃ e, e ∈ authored s ∧ entry_of e id ∧ get g = Ok (canon e)
    | None => get g = Err ErrorKeyNotFound end) as Hget.
  { intros k g Hg. destruct (stored g id) as [v|] eqn:Hv; [|by apply Get_absent].
    destruct (proj2 (Hpe k g Hg) id v Hl Hv) as (e & ? & ? & ?). exists e. split_and!; try done.
    by eapply Get_decodes. }
  pose proof (Hget i h Hi) as Hgi. pose proof (Hget j h' Hj) as Hgj. split_and!.
  - intros m m' Hm Hm'. destruct (stored h id), (stored h' id); try congruence.
    destruct Hgi as (e & He & Hee & Hge), Hgj as (e' & He' & Hee' & Hge'). rewrite Hge in Hm. rewrite Hge' in Hm'.
    simplify_eq. by eapply Hu.
  - intros m Hm. destruct (stored h id); [|congruence]. destruct Hgi as (e & He & Hee & Hge).
    exists e. rewrite Hge in Hm. by simplify_eq.
  - intros [Hpub Harr].
    assert (∀ k g k' g', peers s !! k = Some g → peers s !! k' = Some g' → is_Some (stored g id) → is_Some (stored g' id)) as Hall.
    { intros k g k' g' Hg Hg' [v Hv]. destruct (Hpub k g id v Hg Hl Hv) as (i0 & data & e & Hin & Hee & Henc).
      assert (holds s k' data) as (e' & eid' & g0 & v' & He' & Hee' & Henc' & Hg0 & Hv').
      { destruct (Harr i0 data k' Hin) as [->|Hrec]; [by eexists|by apply Hwi|by apply Hre]. }
      simplify_eq. rewrite (encodes_inj data e e' id eid' Hee Hee' Henc Henc'). by eexists. }
    destruct (stored h id) as [v|] eqn:Hv, (stored h' id) as [v'|] eqn:Hv'.
    + destruct Hgi as (e & He & Hee & ->), Hgj as (e' & He' & Hee' & ->). f_equal. by eapply Hu.
    + destruct (Hall i h j h' Hi Hj) as [? ?]; [by eexists|congruence].
    + destruct (Hall j h' i h Hj Hi) as [? ?]; [by eexists|congruence].
    + congruence.
Qed.
End converge.

(* ------------------------------------------------------------------ *)
(** * Witnesses *)

(** Two vaults that relay a channel; an entry is appended at the first, and
    reaches the second. *)
Module RelayExamples.
Import MemDB RefCodec RefHash RefCrypto RefNet StoreExamples KeyringExamples KeyFileExamples P2PExamples.

Definition rcid : bytes := c_id (ch x07).
Definition rtopic : gostring := str "/feed/0".
Definition rhandler : TopicHandler := mkTopicHandler Relay (str "id1") rcid rtopic (Some []).
Definition rhost {T} : Host (T:=T) :=
  mkHost (mkNet [] {[rtopic]}) (mkStore d0 true [] {[rcid := new_channel rcid]}) NewKeyRing {[rtopic := rhandler]} uri.
Definition two : gmap nat (Host (T:=unit)) := <[0%nat := rhost]> {[1%nat := rhost]}.
Definition rdata : bytes := StoreExamples.wire e0.
Definition relayed : list gossip_label :=
  [Author 0 t0 (Some e0); Gossip 0 id0; Deliver 1 t1 (str "peer") 0 rdata; Deliver 1 t1 (str "peer") 0 rdata].
Definition after : gossip := default (gossip_init two) (play (gossip_step rcid rtopic) relayed (gossip_init two)).

Lemma relayed_plays : play (gossip_step rcid rtopic) relayed (gossip_init two) = Some after.
Proof.
  assert ((if play (gossip_step rcid rtopic) relayed (gossip_init two) is Some _ then true else false) = true) as Hp
    by (vm_compute; reflexivity).
  unfold after. by destruct (play _ _ _).
Qed.

Lemma rcid_length : length rcid = 32%nat.
Proof. reflexivity. Qed.

Lemma codec_canon (e : Msg.t) b : Marshal e = Ok b → ∃ b', Marshal (canon e) = Ok b'.
Proof. intros _. by eexists. Qed.

Lemma rhost_relays {T} : relays rcid rtopic (rhost (T:=T)).
Proof.
  exists rhandler, (new_channel rcid). split_and!; try reflexivity. by apply new_channel_ok.
Qed.

Lemma two_fresh : fresh_peers rcid rtopic two.
Proof.
  intros i h Hi. assert (h = rhost) as ->.
  { unfold two in Hi. rewrite lookup_insert_Some, lookup_singleton_Some in Hi. by destruct Hi as [[_ <-]|[_ [_ <-]]]. }
  split; [apply rhost_relays|]. intros eid. exact (lookup_empty (M:=gmap bytes) _).
Qed.

Lemma relayed_ok : Forall glabel_ok relayed.
Proof. repeat constructor; simpl; try discriminate; apply t0_ok || apply t1_ok. Qed.

Lemma after_unique : unique_ids after.
Proof.
  assert (authored after = [e0]) as Ha by (vm_compute; reflexivity).
  intros e e' eid. rewrite Ha, !list_elem_of_singleton. by intros -> ->.
Qed.

(** What the channel holds at a vault, as a check. *)
Definition only_e0 (h : Host (T:=unit)) : bool :=
  bool_decide (map_Forall (λ k _, has_prefix (prefix (chan_ (T:=unit) rcid)) k = true → k = EntryKey (chan_ (T:=unit) rcid) id0)
    (contents (db (store h)))).

Lemma after_only : bool_decide (map_Forall (λ _ h, only_e0 h = true) (peers after)) = true.
Proof. vm_compute. reflexivity. Qed.

Lemma after_wire : Relay.wire after = [(0%nat, rdata)].
Proof. apply (bool_decide_eq_true_1 _). vm_compute. reflexivity. Qed.

Lemma after_received : received after = [(1%nat, rdata); (1%nat, rdata)].
Proof. apply (bool_decide_eq_true_1 _). vm_compute. reflexivity. Qed.

Lemma after_peers j : is_Some (peers after !! j) → j = 0%nat ∨ j = 1%nat.
Proof.
  assert (bool_decide (map_Forall (λ j _, j = 0%nat ∨ j = 1%nat) (peers after)) = true) as Hp
    by (vm_compute; reflexivity).
  apply bool_decide_eq_true in Hp. intros [h Hh]. exact (Hp j h Hh).
Qed.

Lemma e0_entry : entryID (Some e0) = Ok id0.
Proof. vm_compute. reflexivity. Qed.

Lemma e0_marshals : Marshal e0 = Ok rdata.
Proof. reflexivity. Qed.

(** An entry either vault has is the one that was appended. *)
Lemma after_stored i h eid v :
  peers after !! i = Some h → length eid = 30%nat → stored rcid h eid = Some v → fit 30 id0 = eid.
Proof.
  intros Hi Hl Hv. pose proof after_only as Ha. apply bool_decide_eq_true in Ha. specialize (Ha i h Hi).
  apply bool_decide_eq_true in Ha. pose proof (chan_ok (T:=unit) rcid rcid_length) as Hok.
  specialize (Ha _ v Hv (EntryKey_prefix _ eid Hok)). rewrite !EntryKey_bytes in Ha by exact Hok.
  apply app_inv_head in Ha. by rewrite (fit_exact 30 eid Hl) in Ha.
Qed.

Lemma after_settled : settled rcid after.
Proof.
  split.
  - intros i h eid v Hi Hl Hv. exists 0%nat, rdata, e0. rewrite after_wire. split; [left|].
    split; [|exact (Unmarshal_Marshal e0 rdata e0_marshals)].
    exists id0, rdata. split; [exact e0_entry|]. split; [discriminate|].
    split; [exact (after_stored i h eid v Hi Hl Hv)|exact e0_marshals].
  - intros i0 data j. rewrite after_wire, after_received, list_elem_of_singleton.
    intros [= -> ->] [->| ->]%after_peers; [left; reflexivity|right; left].
Qed.

Lemma replicas_converge_witness :
  ∃ h h', peers after !! 0%nat = Some h ∧ peers after !! 1%nat = Some h' ∧
    Get (db (store h)) (EntryKey (chan_ (T:=unit) rcid) (fit 30 id0)) =
    Get (db (store h')) (EntryKey (chan_ (T:=unit) rcid) (fit 30 id0)).
Proof.
  destruct (some_of_bool (peers after !! 0%nat)) as [h Hh]; [vm_compute; reflexivity|].
  destruct (some_of_bool (peers after !! 1%nat)) as [h' Hh']; [vm_compute; reflexivity|].
  destruct (replicas_converge rcid rcid_length rtopic codec_canon two relayed after two_fresh relayed_ok relayed_plays
    after_unique 0 1 h h' (fit 30 id0) Hh Hh' (length_fit _ _)) as (_ & _ & Hc).
  exists h, h'. split; [exact Hh|]. split; [exact Hh'|]. exact (Hc after_settled).
Defined.
End RelayExamples.
