(* ===== verification/RelayReaders.v ===== *)
(** [p2p/topic_handler.go] over [store/store.go], on several vaults: relay
    handlers as the subscribers of the store that they are.

    [Relay.v] lets a relay handler publish any stored entry at any time.  Here
    it publishes what its reader hands to it: each vault has, besides its host,
    the goroutines of the channel ([Sync.v]), one of which reads for the handler
    from the start of the channel, as [watchTopic] has asked ([topic_opts]).  An
    append, by a client or on behalf of a peer, is a commit those goroutines
    learn of.  Other subscribers may come and go; the handler's stays.  The
    lemmas here show what one reader does to what is due, and that each step is
    a run of [Relay.v]; the theorems are in [RelaySpec.v]. *)
From S2P Require Import Prelude Protos Helpers Crypto Keyring KeyFile Badger Channel Store Reader Delivery Lts Sync Wakeup.
From S2P Require Import P2P Relay.

Section model.
Context `{P2PKeys} `{!LibP2P} `{NaCl} `{Badger} `{!ProtoCodec Msg.t} `{!ProtoCodec Peer.t}
  `{!ProtoCodec PubsubState.t} `{Sha256} {T : Type} `{!SubscriptionTarget T}.
Context (cid : bytes) (topic : gostring).

#[local] Abbreviation chan := (chan_ (T:=T) cid).

(** A vault: its host, and the goroutines of the channel. *)
Record node := mkNode { n_host : Host (T:=T); n_sys : system (T:=T) }.

Record network := mkNetwork {
  nodes : gmap nat node;
  n_wire : list (nat * bytes);
  n_received : list (nat * bytes);
  n_authored : list Msg.t;
}.

Inductive net_label :=
  | Writes (i : nat) (now : Time) (entry : option Msg.t)    (* a client of vault [i] appends *)
  | Moves (i : nat) (l : label (T:=T))                      (* a goroutine of its channel *)
  | Hears (j : nat) (now : Time) (from : bytes) (i : nat) (data : bytes).

(** What a move of the channel hands to [Publish] of the subscriber [id]. *)
Definition said (id : UUID) (l : label (T:=T)) (s s' : system (T:=T)) : list Msg.t :=
  match l with
  | Turn id' =>
      if decide (id' = id) then
        match goroutines s !! id, goroutines s' !! id with
        | Some (Reading r), Some (Reading r') => drop (length (published r)) (published r')
        | _, _ => []
        end
      else []
  | _ => []
  end.

(** [Publish] of the relay handler, for each of them. *)
Fixpoint speak (h : Host (T:=T)) (ms : list Msg.t) : option (Host (T:=T) * list bytes) :=
  match ms with
  | [] => Some (h, [])
  | m :: ms =>
      match TopicHandler_Publish h topic m with
      | (h', Ok _) =>
          '(h'', out) ← speak h' ms;
          Some (h'', match Marshal m with Ok b => b | _ => [] end :: out)
      | _ => None
      end
  end.

(** What a message that came in makes the handler append. *)
Definition incoming (data : bytes) : option Msg.t :=
  match Unmarshal data with (e, None) => Some e | _ => None end.

(** Commits are [Writes] and [Hears]. *)
Definition is_commit (l : label (T:=T)) : bool := match l with Commit _ _ _ => true | _ => false end.

Definition net_step (l : net_label) (n : network) : option network :=
  match l with
  | Writes i now entry =>
      nd ← nodes n !! i;
      let (d, r) := Append (db (store (n_host nd))) chan now entry in
      s ← sync_step chan (Commit chan now entry) (n_sys nd);
      Some (mkNetwork (<[i := mkNode (set_store (set_db d (store (n_host nd))) (n_host nd)) s]> (nodes n))
              (n_wire n) (n_received n)
              (n_authored n ++ match r, entry with Ok _, Some e => [e] | _, _ => [] end))
  | Moves i l =>
      nd ← nodes n !! i;
      th ← handlers (n_host nd) !! topic;
      if is_commit l then None
      else
        s ← sync_step chan l (n_sys nd);
        '(h, out) ← speak (n_host nd) (said (th_id th) l (n_sys nd) s);
        Some (mkNetwork (<[i := mkNode h s]> (nodes n)) (n_wire n ++ (pair i <$> out)) (n_received n) (n_authored n))
  | Hears j now from i data =>
      nd ← nodes n !! j;
      th ← handlers (n_host nd) !! topic;
      if decide ((i, data) ∈ n_wire n ∧ from ≠ Net_ID (net (n_host nd))) then
        match watchTopic_turn (n_host nd) th now (Ok (mkPubsub from data)) with
        | (h, Ok _) =>
            s ← match incoming data with
                | Some e => sync_step chan (Commit chan now (Some e)) (n_sys nd)
                | None => Some (n_sys nd)
                end;
            Some (mkNetwork (<[j := mkNode h s]> (nodes n)) (n_wire n) (n_received n ++ [(j, data)]) (n_authored n))
        | _ => None
        end
      else None
  end.

(** The id of the handler's subscription. *)
Definition id_of (h : Host (T:=T)) : UUID :=
  match handlers h !! topic with Some th => th_id th | None => [] end.

(** [watchTopic] has subscribed, for a target that has the handler's id. *)
Definition listening (nd : node) : Prop :=
  ∃ th t, handlers (n_host nd) !! topic = Some th ∧ target_ID t = th_id th ∧
    play (sync_step chan) [Watch; Subscribed t (Some (topic_opts th)); Begin (th_id th)]
      (sys_init (db (store (n_host nd)))) = Some (n_sys nd).

Definition net_init (ns : gmap nat node) : network := mkNetwork ns [] [] [].

(** What [Relay.v] sees of it. *)
Definition abs (n : network) : gossip (T:=T) := mkGossip (n_host <$> nodes n) (n_wire n) (n_received n) (n_authored n).
End model.

(* ------------------------------------------------------------------ *)
(** * One reader *)

Section place.
Context `{BadgerReliable} `{!ProtoCodec Msg.t} {T : Type} (c : Channel T) (Hc : channel_ok c).
Implicit Types (d : DB) (r : reader) (k : bytes) (told cancelled : Prop).

Definition stored_key d k : Prop := has_prefix (prefix c) k = true ∧ is_Some (contents d !! k).

(** Where a reader of the whole channel stands: nowhere yet, or at an entry. *)
Definition place_ok d r : Prop :=
  keysOnly (opts r) = false
  ∧ (sbytes (key r) = [] ∨ stored_key d (sbytes (key r)))
  ∧ (sbytes (lastSeen r) = [] ∨ stored_key d (sbytes (lastSeen r))).

(** The reader has yet to come to [k]. *)
Definition due r k : Prop :=
  bytes_le (sbytes (key r)) k ∧ sbytes (lastSeen r) ≠ k ∧
  match pos r with
  | Iterating it => k ∈ it_rest it ∨ ∀ k1, k1 ∈ it_rest it → has_prefix (prefix c) k1 = true → bytes_le k1 k
  | _ => True
  end.

(** The reader is as it was but for where it is in the loop. *)
Definition stays r r' : Prop :=
  opts r' = opts r ∧ key r' = key r ∧ lastSeen r' = lastSeen r ∧ published r' = published r.

Lemma stays_place d r r' : stays r r' → place_ok d r → place_ok d r'.
Proof. unfold place_ok. by intros (-> & -> & -> & _). Qed.

Lemma begin_stays d r : stays r (begin_iterate d c r).
Proof. unfold begin_iterate. by destruct (NewTransaction d false). Qed.

Lemma after_stays d r : stays r (after_iterate d c r).
Proof. unfold after_iterate. repeat case_match; try done. apply begin_stays. Qed.

Lemma begin_due d r k : stored_key d k → due r k → due (begin_iterate d c r) k.
Proof.
  intros [Hp Hk] (Hle & Hne & _). destruct (begin_stays d r) as (_ & Hkey & Hseen & _).
  split; [by rewrite Hkey|]. split; [by rewrite Hseen|].
  destruct (pos (begin_iterate d c r)) as [it| |e|] eqn:Hpos; [|done..].
  destruct (begin_iterate_Ok d c r it Hpos) as (_ & _ & ->). left. unfold seek_keys.
  apply list_elem_of_filter, conj; [|by apply elem_of_sorted_keys].
  destruct (sbytes (key r)); [by apply has_prefix_le|done].
Qed.

Lemma after_due d r k : stored_key d k → due r k → due (after_iterate d c r) k.
Proof.
  intros Hk Hd. pose proof Hd as (? & ? & _). unfold after_iterate.
  case_match; [by split; [|split]|]. case_match; [by apply begin_due|by split; [|split]].
Qed.

(** A turn: it publishes the entry at the head of its iterator, or none. *)
Lemma item_moves d told cancelled it r :
  fresh c told cancelled d r → pos r = Iterating it → place_ok d r →
  stays r (read_item d c it r)
  ∨ ∃ k, stored_key d k ∧ bytes_le (sbytes (key r)) k ∧ sbytes (lastSeen r) ≠ k ∧
      read_item d c it r = publish k (msg_at d false k) it r.
Proof.
  intros Hf Hpos [Hko _]. unfold fresh in Hf. rewrite Hpos in Hf. destruct Hf as (d0 & (Hit & Hrest & _) & Hold & _).
  unfold read_item. destruct (It_Valid it) eqn:Hv; [|left; apply after_stays]. simpl.
  rewrite (iter_valid d0 c it Hit) in Hv. destruct (it_rest it) as [|k l] eqn:Hl; [done|].
  rewrite (It_Key_spec it k l Hl). destruct (slice_equal (Some k) (lastSeen r)) eqn:Hseen; [by left|].
  destruct (item_msg (keysOnly (opts r)) it) as [m|e|] eqn:Hm; [right|by left..].
  apply (item_msg_Ok d0 c it k l _ m Hc Hit Hl Hv) in Hm. rewrite Hko in Hm.
  pose proof Hit as (_ & _ & _ & _ & _ & Hin).
  assert (is_Some (contents d0 !! k)) as Hk by (apply Hin; rewrite Hl; left).
  exists k. rewrite (msg_at_older c d k false d0 Hold Hk Hv) in Hm. rewrite Hm.
  apply Forall_cons in Hrest as [[_ Hle] _]. split_and!; try done.
  - split; [done|]. destruct Hk as [v Hk]. exists v. by apply Hold.
  - intros Heq. by rewrite (proj2 (slice_equal_spec (Some k) (lastSeen r)) (eq_sym Heq)) in Hseen.
Qed.

(** What a reader that is not reset publishes. *)
Lemma step_moves d told cancelled ev r r' :
  (∀ o, ev ≠ EvReset o) → fresh c told cancelled d r → place_ok d r → read_step d c ev r = Some r' →
  place_ok d r' ∧
  (stays r r' ∨ ∃ k, ev = EvDefault ∧ stored_key d k ∧ bytes_le (sbytes (key r)) k ∧ sbytes (key r') = k
     ∧ published r' = published r ++ [msg_at d false k] ∧ sbytes (lastSeen r) ≠ k ∧ sbytes (lastSeen r') = k).
Proof.
  intros Hev Hf Hp Hstep.
  assert (∀ x, stays r x → place_ok d x ∧ (stays r x ∨ ∃ k, ev = EvDefault ∧ stored_key d k ∧ bytes_le (sbytes (key r)) k
    ∧ sbytes (key x) = k ∧ published x = published r ++ [msg_at d false k] ∧ sbytes (lastSeen r) ≠ k ∧ sbytes (lastSeen x) = k)) as Hst
    by (intros x Hx; split; [by eapply stays_place|by left]).
  unfold read_step in Hstep. destruct (pos r) as [it| |e|] eqn:Hpos; [|destruct ev; try done; injection Hstep as <-..|done|done].
  - injection Hstep as <-. case_match; [by apply Hst, after_stays|].
    destruct ev as [| |o|]; [by apply Hst, after_stays|by apply Hst|by destruct (Hev o)|].
    destruct (item_moves d told cancelled it r Hf Hpos Hp) as [Hs|(k & Hk & Hle & Hne & ->)]; [by apply Hst|].
    split; [|right; by exists k]. destruct Hp as (Hko & _). split_and!; [done|by right..].
  - by apply Hst.
  - by apply Hst, begin_stays.
Qed.

(** An entry that is due stays so, or is published. *)
Lemma step_due d told cancelled ev r r' k :
  (∀ o, ev ≠ EvReset o) → fresh c told cancelled d r → place_ok d r → read_step d c ev r = Some r' →
  stored_key d k → due r k →
  due r' k ∨ (ev = EvDefault ∧ sbytes (key r') = k ∧ published r' = published r ++ [msg_at d false k]).
Proof.
  intros Hev Hf Hp Hstep Hk Hd. unfold read_step in Hstep.
  destruct (pos r) as [it| |e|] eqn:Hpos; [|destruct ev; try done; injection Hstep as <-..|done|done].
  - injection Hstep as <-. case_match; [left; by apply after_due|].
    destruct ev as [| |o|]; [left; by apply after_due|by left|by destruct (Hev o)|].
    pose proof Hf as Hf'. unfold fresh in Hf'. rewrite Hpos in Hf'. destruct Hf' as (d0 & (Hit & Hrest & _) & Hold & _).
    unfold read_item. destruct (It_Valid it) eqn:Hv; [|left; by apply after_due]. simpl.
    rewrite (iter_valid d0 c it Hit) in Hv. destruct (it_rest it) as [|k1 l] eqn:Hl; [done|].
    rewrite (It_Key_spec it k1 l Hl). destruct Hd as (Hle & Hne & Hd). rewrite Hpos, Hl in Hd.
    destruct (It_Next_state it) as (_ & _ & Hnext). rewrite Hl in Hnext. simpl in Hnext.
    pose proof Hit as (_ & _ & _ & Hsort & _). rewrite Hl in Hsort. apply StronglySorted_inv in Hsort as [_ Hsort].
    assert (k1 ≠ k → k ∈ l ∨ ∀ k2, k2 ∈ l → has_prefix (prefix c) k2 = true → bytes_le k2 k) as Hrem.
    { intros Hk1. destruct Hd as [Hin|Hb]; [left; apply elem_of_cons in Hin as [?|?]; congruence|right].
      intros k2 Hin. apply Hb. by right. }
    assert (bytes_le k1 k) as Hle1.
    { destruct Hd as [Hin|Hb]; [|apply Hb; [left|done]]. apply elem_of_cons in Hin as [->|Hin]; [done|].
      rewrite Forall_forall in Hsort. by apply Hsort. }
    destruct (slice_equal (Some k1) (lastSeen r)) eqn:Heq.
    + apply slice_equal_spec in Heq. simpl in Heq. left. split; [done|]. split; [done|]. simpl. rewrite Hnext.
      apply Hrem. congruence.
    + destruct (item_msg (keysOnly (opts r)) it) as [m|e|] eqn:Hm; [|by left..].
      destruct (decide (k1 = k)) as [->|Hk1]; [right|left].
      * apply (item_msg_Ok d0 c it k l _ m Hc Hit Hl Hv) in Hm. destruct Hp as [Hko _]. rewrite Hko in Hm.
        pose proof Hit as (_ & _ & _ & _ & _ & Hin). simpl. split; [done|]. split; [done|].
        by rewrite Hm, (msg_at_older c d k false d0 Hold) by (done || (apply Hin; rewrite Hl; left)).
      * split; [done|]. split; [done|]. simpl. rewrite Hnext. by apply Hrem.
  - left. destruct Hd as (? & ? & _). by split; [|split].
  - left. by apply begin_due.
Qed.
End place.

(* ------------------------------------------------------------------ *)
(** * The handler's reader among the goroutines of its channel *)

Section reads.
Context `{BadgerReliable} `{!ProtoCodec Msg.t} {T : Type} `{!SubscriptionTarget T} (c : Channel T) (Hc : channel_ok c).
Context (id : UUID).
Implicit Types (d : DB) (r : reader) (k : bytes) (s : system (T:=T)) (l : label (T:=T)) (ms : list Msg.t).

(** The subscriber [id], while it is there, reads the whole channel. *)
Definition reads s : Prop :=
  sys_inv True c s ∧ watching s = true ∧ (∀ o, resetting s ≠ Some (id, o))
  ∧ ∀ g, goroutines s !! id = Some g → ∃ r, g = Reading r ∧ place_ok c (sys_db s) r.

(** Nobody subscribes under its id, or cancels it. *)
Definition move_ok l : Prop :=
  match l with
  | Commit _ _ _ => False
  | Subscribed t o => target_ID t ≠ id ∧ ∃ o', o = Some o' ∧ opts_ok o'
  | Cancel id' => id' ≠ id
  | _ => True
  end.

(** Such a reader's key is none or one of the channel's. *)
Lemma place_seek_ok d r : place_ok c d r → seek_ok c (sbytes (key r)).
Proof. intros (_ & [?|[Hp _]] & _); [by left|right; by apply has_prefix_le]. Qed.

(** At rest it has seen all there is. *)
Lemma reads_at_rest s r k :
  reads s → at_rest s → goroutines s !! id = Some (Reading r) → stored_key c (sys_db s) k →
  bytes_le (sbytes (key r)) k → sbytes (lastSeen r) = k.
Proof.
  intros (Hinv & _ & _ & Hg) Hrest Hr [Hp Hk] Hle.
  destruct (at_rest_caught_up c s Hinv Hrest id _ Hr) as (r' & [= <-] & Hcu).
  destruct (Hg _ Hr) as (r' & [= <-] & Hpl). symmetry. apply Hcu; [by eapply place_seek_ok|by split_and!].
Qed.

(** From [r] to [r'] the reader has handed [ms] to its target. *)
Definition hands d r r' ms : Prop :=
  place_ok c d r'
  ∧ (ms = [] ∧ sbytes (key r') = sbytes (key r)
     ∨ ∃ k, stored_key c d k ∧ bytes_le (sbytes (key r)) k ∧ sbytes (key r') = k ∧ ms = [msg_at d false k])
  ∧ (∀ k, stored_key c d k → due c r k → due c r' k ∨ (sbytes (key r') = k ∧ ms = [msg_at d false k]))
  ∧ published r' = published r ++ ms
  ∧ if ms is [] then sbytes (lastSeen r') = sbytes (lastSeen r)
    else sbytes (lastSeen r) ≠ sbytes (key r') ∧ sbytes (lastSeen r') = sbytes (key r').

Definition reader_moves s ms s' : Prop :=
  (goroutines s' !! id = None ∧ ms = [])
  ∨ ∃ r r', goroutines s !! id = Some (Reading r) ∧ goroutines s' !! id = Some (Reading r') ∧ hands (sys_db s) r r' ms.

Lemma reader_same s s' : reads s → goroutines s' !! id = goroutines s !! id → reader_moves s [] s'.
Proof.
  intros (_ & _ & _ & Hg) Heq. destruct (goroutines s !! id) as [g|] eqn:Hs; [right|by left].
  destruct (Hg g eq_refl) as (r & -> & Hp). exists r, r. split; [done|]. split; [done|]. split; [done|]. split; [by left|]. split; [by left|].
  split; [by rewrite app_nil_r|done].
Qed.

Lemma step_hands told cancelled ev d r r' :
  (∀ o, ev ≠ EvReset o) → fresh c told cancelled d r → place_ok c d r → read_step d c ev r = Some r' →
  hands d r r' (drop (length (published r)) (published r')) ∧ (ev ≠ EvDefault → published r' = published r).
Proof.
  intros Hev Hf Hp Hs. destruct (step_moves c Hc d told cancelled ev r r' Hev Hf Hp Hs) as [Hp' Hm].
  split; [split; [done|split; [|split; [|split]]]|].
  - destruct Hm as [(_ & -> & _ & ->)|(k & _ & Hk & Hle & Hkey & -> & _)]; [left; by rewrite drop_all|right].
    exists k. by rewrite drop_app_length.
  - intros k Hk Hd. destruct (step_due c Hc d told cancelled ev r r' k Hev Hf Hp Hs Hk Hd) as [?|(_ & Hkey & ->)]; [by left|].
    right. by rewrite drop_app_length.
  - destruct Hm as [(_ & _ & _ & ->)|(k & _ & _ & _ & _ & -> & _)]; [by rewrite drop_all, app_nil_r|by rewrite drop_app_length].
  - destruct Hm as [(_ & _ & -> & ->)|(k & _ & _ & _ & -> & -> & Hne & ->)]; [by rewrite drop_all|by rewrite drop_app_length].
  - intros Hne. destruct Hm as [(_ & _ & _ & ->)|(k & ? & _)]; done.
Qed.

(** A goroutine other than the handler's reader does not touch it; its own
    steps are [read_step]'s. *)
Lemma reader_step s s' id' ev g g' ms :
  reads s → goroutines s !! id' = Some g → goroutines s' = <[id' := g']> (goroutines s) →
  (∀ o, ev ≠ EvReset o) → (id' ≠ id → ms = []) →
  (∀ r, id' = id → g = Reading r → ∃ r', g' = Reading r' ∧ read_step (sys_db s) c ev r = Some r'
     ∧ (ms = drop (length (published r)) (published r') ∨ (ev ≠ EvDefault ∧ ms = []))) →
  reader_moves s ms s'.
Proof.
  intros Hr Hg' Hgs Hev Hms Hstep. pose proof Hr as (Hinv & _ & _ & Hg).
  destruct (decide (id' = id)) as [->|Hne].
  - destruct (Hg g Hg') as (r & -> & Hp). destruct (Hstep r eq_refl eq_refl) as (r' & -> & Hs & Hm).
    pose proof Hinv as (_ & _ & Hall & _). destruct (Hall id _ Hg') as [_ Hf]. specialize (Hf I).
    destruct (step_hands _ _ ev (sys_db s) r r' Hev Hf Hp Hs) as [Hh Hsame].
    right. exists r, r'. rewrite Hgs, lookup_insert_eq. split_and!; [done..|].
    destruct Hm as [->|[Hm ->]]; [done|]. by rewrite (Hsame Hm), drop_all in Hh.
  - rewrite (Hms Hne). apply reader_same; [done|]. by rewrite Hgs, lookup_insert_ne.
Qed.

Lemma reads_step l s s' :
  reads s → move_ok l → sync_step c l s = Some s' →
  reads s' ∧ sys_db s' = sys_db s ∧ reader_moves s (said id l s s') s'.
Proof.
  intros Hr Hl Hstep. pose proof Hr as (Hinv & Hw & Hres & Hg).
  assert (sys_inv True c s') as Hinv'
    by (eapply step_inv; [done|exact Hinv| |exact Hstep]; destruct l; try done; by destruct Hl).
  assert (sys_db s' = sys_db s ∧ watching s' = true ∧ (∀ o, resetting s' ≠ Some (id, o)) ∧ reader_moves s (said id l s s') s')
    as (Hdb & Hw' & Hres' & Hm).
  { apply sync_step_trans in Hstep.
    destruct Hstep as [ | |id' ids g g' Hwa Hg' Ho| |t o sub Hwa Hre Hsub|t o Hwa Hre Hsub|id' o g g' Hre Hg' Ho
      |id' o g' Hg' Ht|id' g g' Hg' Hst Hcn Ht| |id' g g' Hg' Hst Hcn Ht|id' g Hg' Hf Hwa Hre|]; try done; simpl;
      (split; [done|split; [done|split; [try done|]]]).
    - by apply reader_same.
    - eapply (reader_step s _ id' EvNotify g g'); try done. intros r -> ->.
      apply offer_reading in Ho as (r' & -> & Hs & _). exists r'. split; [done|]. split; [done|]. by right.
    - by apply reader_same.
    - intros o' [= Heq _]. destruct Hinv as ((_ & Hid & _) & _). specialize (Hid _ _ Hsub). by destruct Hl; congruence.
    - by apply reader_same.
    - apply reader_same; [done|]. simpl. by rewrite lookup_insert_ne by (by destruct Hl).
    - apply reader_same; [done|]. simpl. rewrite lookup_insert_ne; [done|]. intros ->. by destruct (Hres o).
    - apply reader_same; [done|]. simpl. rewrite lookup_insert_ne; [done|]. intros ->.
      by destruct (Hg _ Hg') as (? & ? & _).
    - eapply (reader_step s _ id' EvDefault g g'); try done; [intros Hne; by rewrite decide_False|].
      intros r -> ->. simpl in Ht. destruct (read_step _ _ _ _) as [r'|] eqn:Hs; [|done]. injection Ht as <-.
      exists r'. split; [done|]. split; [done|]. left. rewrite decide_True, Hg' by done. simpl. by rewrite lookup_insert_eq.
    - by apply reader_same.
    - eapply (reader_step s _ id' EvDone g g'); try done. intros r -> ->. simpl in Ht.
      destruct (read_step _ _ _ _) as [r'|] eqn:Hs; [|done]. injection Ht as <-. exists r'. split; [done|].
      split; [done|]. by right.
    - destruct (decide (id' = id)) as [->|Hne]; [left; simpl; by rewrite lookup_delete_eq|].
      apply reader_same; [done|]. simpl. by rewrite lookup_delete_ne.
    - congruence. }
  split; [|done]. split; [done|]. split; [done|]. split; [done|]. intros g Hg'.
  destruct Hm as [[Hn _]|(r & r' & _ & Hr' & Hp & _)]; [congruence|]. rewrite Hr' in Hg'. injection Hg' as <-.
  exists r'. split; [done|]. by rewrite Hdb.
Qed.
End reads.

(* ------------------------------------------------------------------ *)
(** * Implementing the relay *)

Section network.
Context `{P2PKeys} `{!LibP2P} `{NaCl} `{BadgerReliable} `{!ProtoCodec Msg.t} `{!ProtoLaws Msg.t} `{!ProtoCodec Peer.t}
  `{!ProtoCodec PubsubState.t} `{Sha256} {T : Type} `{!SubscriptionTarget T}.
Context (cid : bytes) (Hcid : length cid = 32%nat) (topic : gostring).
Context (Marshal_canon : ∀ (e : Msg.t) b, Marshal e = Ok b → ∃ b', Marshal (canon e) = Ok b').
Implicit Types (h : Host (T:=T)) (n : network (T:=T)) (nd : node (T:=T)) (s : system (T:=T)) (d : DB) (e : Msg.t)
  (l : label (T:=T)) (ms : list Msg.t) (k : bytes).

#[local] Abbreviation chan := (chan_ (T:=T) cid).
#[local] Abbreviation Hchan := (chan_ok (T:=T) cid Hcid).

(** The keys of the channel are those of entries. *)
Definition entry_keys d : Prop := ∀ k, stored_key chan d k → length k = 63%nat.

Definition node_ok nd : Prop :=
  sys_db (n_sys nd) = db (store (n_host nd))
  ∧ reads chan (id_of topic (n_host nd)) (n_sys nd)
  ∧ entry_keys (db (store (n_host nd))).

Definition net_ok n : Prop := gossip_ok cid topic (abs n) ∧ map_Forall (λ _, node_ok) (nodes n).

(** Entries that have an id, on clocks that make sense; what the other
    goroutines of a channel may do. *)
Definition nlabel_ok n (lb : net_label (T:=T)) : Prop :=
  match lb with
  | Writes _ now entry => time_ok now ∧ entryID entry ≠ Ok []
  | Hears _ now _ _ _ => time_ok now
  | Moves i l => ∀ nd, nodes n !! i = Some nd → move_ok (id_of topic (n_host nd)) l
  end.

(** ** Appends *)

Lemma stored_key_append d now (entry : option Msg.t) d' r k :
  Append d chan now entry = (d', r) → stored_key chan d k → stored_key chan d' k.
Proof.
  intros Ha [Hp [v Hk]]. split; [done|].
  apply Append_cases in Ha as [[-> _]|(e & id & b & _ & _ & _ & _ & Hn & ->)]; [by eexists|].
  apply lookup_insert_is_Some', or_intror, lookup_insert_is_Some', or_intror. by eexists.
Qed.

Lemma entry_keys_append d now (entry : option Msg.t) d' r :
  time_ok now → Append d chan now entry = (d', r) → entry_keys d → entry_keys d'.
Proof.
  intros Hn Ha Hd k [Hp Hk].
  apply Append_cases in Ha as [[-> _]|(e & id & b & _ & _ & _ & _ & _ & Heq)]; [by apply Hd|].
  rewrite Heq in Hk. apply lookup_insert_is_Some' in Hk as [<-|Hk].
  { by rewrite (arrivalKey_not_entry chan chan now id Hchan Hchan Hn) in Hp. }
  apply lookup_insert_is_Some' in Hk as [<-|Hk]; [|by apply Hd].
  by rewrite length_EntryKey by apply Hchan.
Qed.

Lemma reads_commit id s now (entry : option Msg.t) d r s' :
  reads chan id s → time_ok now → Append (sys_db s) chan now entry = (d, r) →
  sync_step chan (Commit chan now entry) s = Some s' →
  reads chan id s' ∧ sys_db s' = d ∧ goroutines s' = goroutines s.
Proof.
  intros (Hinv & Hw & Hres & Hg) Hn Ha Hstep.
  assert (sys_inv True chan s') as Hinv'.
  { eapply step_inv; [apply Hchan|exact Hinv| |exact Hstep]. split; [apply Hchan|]. split; [done|]. intros _. by left. }
  simpl in Hstep. rewrite Ha in Hstep. injection Hstep as <-. split; [|done]. split; [done|]. split; [done|].
  split; [done|]. intros g Hg'. destruct (Hg g Hg') as (r0 & -> & Hko & Hk & Hs). exists r0. split; [done|].
  split; [done|]. simpl. split; [destruct Hk as [?|Hk]|destruct Hs as [?|Hs]]; [by left|right|by left|right];
    by eapply stored_key_append.
Qed.

Lemma commit_enabled s now (entry : option Msg.t) : ∃ s', sync_step chan (Commit chan now entry) s = Some s'.
Proof. simpl. destruct (Append _ _ _ _). by eexists. Qed.

(** ** Publishing *)

Lemma speak_relay h ms h' (out : list bytes) :
  relays cid topic h → speak topic h ms = Some (h', out) →
  store h' = store h ∧ id_of topic h' = id_of topic h.
Proof.
  revert h h' out. induction ms as [|m ms IH]; intros h h' out Hr; simpl; [by intros [= <- <-]|].
  destruct Hr as (th & c & Hth & Hk & Hch & Hc & Hid & Hok). unfold TopicHandler_Publish. rewrite Hth, Hk. simpl.
  destruct (speak _ _ ms) as [[h2 out2]|] eqn:Hs; [|done]. simpl. intros [= <- <-].
  apply IH in Hs as [-> ->]; [|by eexists _, c; simpl; rewrite lookup_insert_eq; split_and!].
  unfold id_of. simpl. by rewrite lookup_insert_eq, Hth.
Qed.

(** An entry of the channel, as its reader hands it over, is what [Get] finds. *)
Lemma published_entry h k :
  entry_keys (db (store h)) →
  (∀ eid v, length eid = 30%nat → stored cid h eid = Some v → ∃ e, encodes v e) →
  stored_key chan (db (store h)) k →
  ∃ eid, length eid = 30%nat ∧ k = EntryKey chan eid ∧
    Get (db (store h)) (EntryKey chan eid) = Ok (msg_at (db (store h)) false k).
Proof.
  intros Hlen Hdec Hk. pose proof (Hlen k Hk) as Hl. destruct Hk as [Hp [v Hv]].
  pose proof Hp as Hp'. apply has_prefix_spec in Hp' as [eid ->].
  rewrite length_app, length_prefix in Hl by apply Hchan. assert (length eid = 30%nat) as Heid by lia.
  assert (prefix chan ++ eid = EntryKey chan eid) as Hkey
    by (rewrite EntryKey_bytes by apply Hchan; by rewrite fit_exact).
  exists eid. rewrite Hkey in Hv |- *. split; [done|]. split; [done|].
  destruct (Hdec eid v Heid Hv) as [e He]. rewrite (Get_decodes _ _ v e Hv He). unfold msg_at. rewrite Hv. simpl.
  unfold encodes in He. by rewrite He.
Qed.

(** ** Steps *)

Lemma node_ok_insert n i nd' (wi re : list (nat * bytes)) (au : list Msg.t) :
  net_ok n → node_ok nd' → gossip_ok cid topic (abs (mkNetwork (<[i := nd']> (nodes n)) wi re au)) →
  net_ok (mkNetwork (<[i := nd']> (nodes n)) wi re au).
Proof. intros [_ Hn] Hnd Hg. split; [done|]. by apply map_Forall_insert_2. Qed.

Definition simulated n n' : Prop :=
  ∃ ls, Forall glabel_ok ls ∧ play (gossip_step cid topic) ls (abs n) = Some (abs n').

Lemma simulated_ok n n' : net_ok n → simulated n n' → gossip_ok cid topic (abs n').
Proof.
  intros [Hg _] (ls & Hls & Hp).
  eapply (play_invariant (gossip_step cid topic)); [by apply gossip_step_ok|exact Hls|exact Hg|exact Hp].
Qed.

Lemma abs_node n i nd : nodes n !! i = Some nd → peers (abs n) !! i = Some (n_host nd).
Proof. intros Hi. simpl. by rewrite lookup_fmap, Hi. Qed.

Lemma writes_ok i now (entry : option Msg.t) n n' :
  net_ok n → nlabel_ok n (Writes i now entry) → net_step cid topic (Writes i now entry) n = Some n' →
  net_ok n' ∧ simulated n n'.
Proof.
  intros Hn Hl Hstep. pose proof Hl as [Hnow Hid]. cbn [net_step] in Hstep.
  destruct (nodes n !! i) as [nd|] eqn:Hi; [|done]. cbn [mbind option_bind] in Hstep.
  destruct (Append _ _ _ _) as [d r] eqn:Ha. destruct (sync_step _ _ _) as [s'|] eqn:Hs; [|done]. injection Hstep as <-.
  assert (simulated n (mkNetwork (<[i := mkNode (set_store (set_db d (store (n_host nd))) (n_host nd)) s']> (nodes n))
    (n_wire n) (n_received n) (n_authored n ++ match r, entry with Ok _, Some e => [e] | _, _ => [] end))) as Hsim.
  { exists [Author i now entry]. split; [by constructor|]. rewrite play_one. cbn [gossip_step].
    rewrite (abs_node n i nd Hi). simpl. rewrite Ha. unfold abs. simpl. by rewrite fmap_insert. }
  split; [|done]. apply node_ok_insert; [done| |by eapply simulated_ok].
  destruct (proj2 Hn i nd Hi) as (Hdb & Hr & Hk). rewrite <-Hdb in Ha.
  destruct (reads_commit _ _ now entry d r s' Hr Hnow Ha Hs) as (Hr' & Hdb' & _).
  split; [done|]. split; [done|]. simpl. rewrite Hdb in Ha. by eapply entry_keys_append.
Qed.
(** What a move changes at its vault. *)
Lemma move_inv i l n n' :
  net_ok n → nlabel_ok n (Moves i l) → net_step cid topic (Moves i l) n = Some n' →
  ∃ nd h s' out, nodes n !! i = Some nd ∧ sync_step chan l (n_sys nd) = Some s'
    ∧ speak topic (n_host nd) (said (id_of topic (n_host nd)) l (n_sys nd) s') = Some (h, out)
    ∧ reader_moves chan (id_of topic (n_host nd)) (n_sys nd) (said (id_of topic (n_host nd)) l (n_sys nd) s') s'
    ∧ node_ok (mkNode h s') ∧ store h = store (n_host nd) ∧ id_of topic h = id_of topic (n_host nd)
    ∧ n' = mkNetwork (<[i := mkNode h s']> (nodes n)) (n_wire n ++ (pair i <$> out)) (n_received n) (n_authored n).
Proof.
  intros [(Hpe & _) Hn] Hl Hstep. cbn [net_step] in Hstep.
  destruct (nodes n !! i) as [nd|] eqn:Hi; [|done]. cbn [mbind option_bind] in Hstep.
  destruct (handlers (n_host nd) !! topic) as [th|] eqn:Hth; [|done].
  assert (id_of topic (n_host nd) = th_id th) as Hid by (unfold id_of; by rewrite Hth).
  cbn [mbind option_bind] in Hstep. destruct (is_commit l); [done|].
  destruct (sync_step _ l _) as [s'|] eqn:Hs; [|done]. cbn [mbind option_bind] in Hstep.
  rewrite <-Hid in Hstep. destruct (speak _ _ _) as [[h out]|] eqn:Hsp; [|done]. injection Hstep as <-.
  destruct (Hn i nd Hi) as (Hdb & Hr & Hk).
  destruct (reads_step chan Hchan _ l (n_sys nd) s' Hr (Hl nd Hi) Hs) as (Hr' & Hdb' & Hm).
  destruct (speak_relay _ _ _ _ (proj1 (Hpe i _ (abs_node n i nd Hi))) Hsp) as [Hst Hid'].
  exists nd, h, s', out. split_and!; try done. split; simpl; [by rewrite Hst, Hdb'|]. by rewrite Hid', Hst.
Qed.

Lemma moves_ok i l n n' :
  net_ok n → nlabel_ok n (Moves i l) → net_step cid topic (Moves i l) n = Some n' → net_ok n' ∧ simulated n n'.
Proof.
  intros Hn Hl Hstep.
  destruct (move_inv i l n n' Hn Hl Hstep) as (nd & h & s' & out & Hi & Hs & Hsp & Hm & Hnd & Hst & Hid & ->).
  assert (simulated n (mkNetwork (<[i := mkNode h s']> (nodes n)) (n_wire n ++ (pair i <$> out)) (n_received n) (n_authored n)))
    as Hsim; [|split; [|done]; by apply node_ok_insert; [| |eapply simulated_ok]].
  destruct Hn as [(Hpe & _) Hn]. destruct (Hn i nd Hi) as (Hdb & _ & Hk). destruct (Hpe i _ (abs_node n i nd Hi)) as [Hrel Hdec].
  assert ((said (id_of topic (n_host nd)) l (n_sys nd) s' = []) ∨ ∃ k, stored_key chan (sys_db (n_sys nd)) k ∧
    said (id_of topic (n_host nd)) l (n_sys nd) s' = [msg_at (sys_db (n_sys nd)) false k]) as [Hsaid|(k & Hsk & Hsaid)].
  { destruct Hm as [[_ ?]|(r & r' & _ & _ & _ & [[? _]|(k & ? & _ & _ & ?)] & _)]; [by left|by left|right; by exists k]. }
  - rewrite Hsaid in Hsp. injection Hsp as <- <-. exists []. split; [constructor|]. simpl. unfold abs. simpl.
    rewrite app_nil_r, fmap_insert. simpl. by rewrite insert_id by (by rewrite lookup_fmap, Hi).
  - rewrite Hsaid, Hdb in Hsp. rewrite Hdb in Hsk.
    destruct (published_entry (n_host nd) k Hk) as (eid & Heid & -> & Hg); [|done|].
    { intros eid v Hlen Hv. destruct (Hdec eid v Hlen Hv) as (e & _ & _ & ?). by exists e. }
    exists [Gossip i eid]. split; [by constructor|]. rewrite play_one. cbn [gossip_step].
    rewrite (abs_node n i nd Hi). cbn [mbind option_bind]. unfold relay_publish. rewrite Hg.
    cbn [speak] in Hsp. destruct (TopicHandler_Publish _ _ _) as [h' [b|e|]]; [|done..]. simpl in Hsp.
    injection Hsp as <- <-. simpl. unfold abs. simpl. by rewrite fmap_insert.
Qed.

(** Hearing is committing what was said. *)
Lemma hear_inv j now from i data n n' :
  net_ok n → nlabel_ok n (Hears j now from i data) → net_step cid topic (Hears j now from i data) n = Some n' →
  ∃ nd h s', nodes n !! j = Some nd ∧ node_ok (mkNode h s')
    ∧ (∀ k, stored_key chan (db (store (n_host nd))) k → stored_key chan (db (store h)) k)
    ∧ id_of topic h = id_of topic (n_host nd) ∧ goroutines s' = goroutines (n_sys nd)
    ∧ (∀ eid, length eid = 30%nat → stored cid h eid = stored cid (n_host nd) eid ∨ ∃ e, entry_of e eid ∧ encodes data e)
    ∧ gossip_step cid topic (Deliver j now from i data) (abs n) = Some (abs n')
    ∧ n' = mkNetwork (<[j := mkNode h s']> (nodes n)) (n_wire n) (n_received n ++ [(j, data)]) (n_authored n).
Proof.
  intros [(Hpe & Hwi & _) Hn] Hl Hstep. cbn [net_step] in Hstep.
  destruct (nodes n !! j) as [nd|] eqn:Hj; [|done]. cbn [mbind option_bind] in Hstep.
  destruct (handlers (n_host nd) !! topic) as [th|] eqn:Hth; [|done]. cbn [mbind option_bind] in Hstep.
  case_decide as Hc; [|done]. destruct (watchTopic_turn _ _ _ _) as [h [[]|e|]] eqn:Hw; [|done..].
  destruct (match incoming data with Some _ => _ | None => _ end) as [s'|] eqn:Hs; [|done]. injection Hstep as <-.
  destruct (Hn j nd Hj) as (Hdb & Hr & Hk). assert (time_ok now) as Hnow by exact Hl.
  destruct (proj1 (Hpe j _ (abs_node n j nd Hj))) as (th' & c & Hth' & Hkd & Hch & Hcc & Hcid' & Hok).
  rewrite Hth in Hth'. injection Hth' as <-.
  assert (gossip_step cid topic (Deliver j now from i data) (abs n)
    = Some (abs (mkNetwork (<[j := mkNode h s']> (nodes n)) (n_wire n) (n_received n ++ [(j, data)]) (n_authored n)))) as Hg.
  { cbn [gossip_step]. rewrite (abs_node n j nd Hj). cbn [mbind option_bind]. rewrite Hth. cbn [mbind option_bind].
    rewrite decide_True by done. rewrite Hw. unfold abs. simpl. by rewrite fmap_insert. }
  assert (node_ok (mkNode h s') ∧ (∀ k, stored_key chan (db (store (n_host nd))) k → stored_key chan (db (store h)) k)
    ∧ id_of topic h = id_of topic (n_host nd) ∧ goroutines s' = goroutines (n_sys nd)
    ∧ ∀ eid, length eid = 30%nat → stored cid h eid = stored cid (n_host nd) eid ∨ ∃ e, entry_of e eid ∧ encodes data e)
    as (? & ? & ? & ? & ?); [clear Hg|by exists nd, h, s'; split_and!].
  destruct (Hwi i data (proj1 Hc)) as (e0 & eid0 & _ & _ & _ & Hee0 & Henc0 & _).
  revert Hw Hs. unfold watchTopic_turn, incoming. simpl. rewrite decide_False by apply Hc.
  destruct (Unmarshal data) as [e [err|]] eqn:Hu; simpl.
  - intros [= <-] [= <-]. destruct nd. split; [done|]. split; [done|]. split; [done|]. split; [done|]. by left.
  - unfold onReceive. rewrite Hkd, Hch, Hcc. destruct (Append _ c now _) as [d r] eqn:Ha. intros Hh Hs.
    assert (h = set_store (set_db d (store (n_host nd))) (n_host nd)) as -> by congruence.
    rewrite (Append_same c chan) in Ha by (done || apply Hchan). pose proof Ha as Ha'. rewrite <-Hdb in Ha'.
    destruct (reads_commit _ _ now (Some e) d r s' Hr Hnow Ha' Hs) as (Hr' & Hdb' & Hgs).
    split; [split; [done|]; split; [done|]; exact (entry_keys_append _ now _ _ _ Hnow Ha Hk)|].
    split; [intros k Hkk; exact (stored_key_append _ now _ _ _ k Ha Hkk)|]. split; [done|]. split; [done|].
    intros eid Hlen. destruct (Append_stored cid Hcid _ chan now (Some e) d r Hchan eq_refl Hnow Ha)
      as [[Hsame _]|(e1 & id & b & [= <-] & Hid & _ & _ & Hd)]; [left; by apply Hsame|].
    unfold stored. simpl. rewrite (Hd eid Hlen). case_decide as Hfit; [right|by left].
    unfold encodes in Henc0. rewrite Hu in Henc0. injection Henc0 as ->. exists e0. split; [|exact Hu].
    destruct (entry_of_canon Marshal_canon e0 eid0 Hee0) as (id' & b' & Hid' & Hfit' & _).
    rewrite Hid in Hid'. injection Hid' as <-. by rewrite <-Hfit, Hfit'.
Qed.

Lemma net_step_ok lb n n' :
  net_ok n → nlabel_ok n lb → net_step cid topic lb n = Some n' → net_ok n' ∧ simulated n n'.
Proof.
  destruct lb as [i now entry|i l|j now from i data]; [apply writes_ok|apply moves_ok|].
  intros Hn Hl Hstep.
  destruct (hear_inv j now from i data n n' Hn Hl Hstep) as (nd & h & s' & Hj & Hnd & _ & _ & _ & _ & Hg & ->).
  assert (simulated n (mkNetwork (<[j := mkNode h s']> (nodes n)) (n_wire n) (n_received n ++ [(j, data)]) (n_authored n)))
    as Hsim by (exists [Deliver j now from i data]; split; [by constructor|by rewrite play_one]).
  split; [|done]. by apply node_ok_insert; [| |eapply simulated_ok].
Qed.

(** ** The start *)

(** Vaults that relay the channel, have nothing of it yet, and listen. *)
Definition fresh_node nd : Prop :=
  relays cid topic (n_host nd) ∧ (∀ k, ¬ stored_key chan (db (store (n_host nd))) k)
  ∧ index_ok chan (contents (db (store (n_host nd)))) ∧ listening cid topic nd
  ∧ ∀ th, handlers (n_host nd) !! topic = Some th → sbytes (lastEntryID th) = [].

Lemma listening_reads nd : fresh_node nd → node_ok nd.
Proof.
  intros (_ & Hno & Hix & (th & t & Hth & Ht & Hp) & Hle). specialize (Hle th Hth).
  assert (id_of topic (n_host nd) = th_id th) as Hid by (unfold id_of; by rewrite Hth).
  set (d := db (store (n_host nd))) in *.
  assert (allowed (sync_step chan) (label_ok True chan) [Watch; Subscribed t (Some (topic_opts th)); Begin (th_id th)] (sys_init d)) as Hal.
  { repeat (split; [|intros ? _]); try done. eexists. split; [done|]. by unfold opts_ok, Tail. }
  assert (sys_inv True chan (n_sys nd)) as Hinv
    by (eapply play_allowed; [by apply step_inv, Hchan|exact Hal|by apply sys_init_inv|exact Hp]).
  revert Hp. cbn [play]. simpl. unfold Subscribe. simpl. rewrite lookup_empty, Ht. simpl.
  rewrite lookup_insert_eq. simpl. intros [= Hs].
  assert (sys_db (n_sys nd) = d) as Hdb by (by rewrite <-Hs).
  split; [done|]. split; [|intros k Hk; by destruct (Hno k)]. rewrite Hid.
  split; [done|]. split; [by rewrite <-Hs|]. split; [by rewrite <-Hs|].
  intros g. rewrite <-Hs. simpl. rewrite insert_insert_eq, lookup_insert_eq. intros [= <-]. eexists. split; [done|].
  destruct (begin_stays chan d (mkReader (topic_opts th) 0 false None (lastEntryID th) Tail Waiting [])) as (Ho & Hk & Hse & _).
  split; [by rewrite Ho|]. rewrite Hk, Hse. split; [by left|by left].
Qed.

Lemma net_init_ok (ns : gmap nat node) : map_Forall (λ _, fresh_node) ns → net_ok (net_init ns).
Proof.
  intros Hns. split; [|intros i nd Hi; by apply listening_reads, (Hns i)].
  split; [|by split; intros ? ? ?%not_elem_of_nil]. intros i h Hi. simpl in Hi. rewrite lookup_fmap in Hi.
  destruct (ns !! i) as [nd|] eqn:Hnd; [|done]. injection Hi as <-. destruct (Hns i nd Hnd) as (Hrel & Hno & _).
  split; [done|]. intros eid v Hl Hv. destruct (Hno (EntryKey chan eid)). split; [by apply EntryKey_prefix, Hchan|by eexists].
Qed.
End network.
