(* ===== verification/RelaySpec.v ===== *)
(** [p2p/topic_handler.go] over [store/store.go]: what becomes of an entry that
    a relay handler is to publish.

    The theorems about the network of [RelayReaders.v]: it implements [Relay.v];
    what is written in key order at its vault gets to all the others; and what
    is not, may never. *)
From S2P Require Import Prelude Protos Helpers Crypto Keyring KeyFile Badger Channel Store Reader Delivery Lts Sync Wakeup.
From S2P Require Import P2P Relay RelayReaders.

(* ------------------------------------------------------------------ *)
(** * Properties *)

Section properties.
Context `{P2PKeys} `{!LibP2P} `{NaCl} `{BadgerReliable} `{!ProtoCodec Msg.t} `{!ProtoLaws Msg.t} `{!ProtoCodec Peer.t}
  `{!ProtoCodec PubsubState.t} `{Sha256} {T : Type} `{!SubscriptionTarget T}.
Context (cid : bytes) (Hcid : length cid = 32%nat) (topic : gostring).
Context (Marshal_canon : ∀ (e : Msg.t) b, Marshal e = Ok b → ∃ b', Marshal (canon e) = Ok b').
Implicit Types (h : Host (T:=T)) (n : network (T:=T)) (nd : node (T:=T)) (s : system (T:=T)) (d : DB) (e : Msg.t)
  (l : label (T:=T)) (lb : net_label (T:=T)) (ls : list (net_label (T:=T))) (ns : gmap nat (node (T:=T)))
  (ms : list Msg.t) (k eid : bytes) (r : reader).

#[local] Abbreviation chan := (chan_ (T:=T) cid).
#[local] Abbreviation Hchan := (chan_ok (T:=T) cid Hcid).
#[local] Abbreviation step := (net_step (T:=T) cid topic).

Lemma net_ok_preserved : preserved step (nlabel_ok topic) (net_ok cid topic).
Proof. intros lb n n' Hn Hl Hs. by apply (net_step_ok cid Hcid topic Marshal_canon lb n n' Hn Hl Hs). Qed.

(** C7: the relay is implemented by readers: whatever the clients, the
    goroutines of the channel at every vault and the peers do, the hosts, the
    messages sent and received and the entries accepted are those of some run
    of [Relay.v], so that what holds of every such run, [replicas_converge]
    first, holds of handlers that publish what their store's readers hand to
    them. *)
Theorem relay_refines ns ls n :
  map_Forall (λ _, fresh_node cid topic) ns →
  allowed step (nlabel_ok topic) ls (net_init ns) → play step ls (net_init ns) = Some n →
  ∃ gs, Forall glabel_ok gs ∧ play (gossip_step cid topic) gs (gossip_init (n_host <$> ns)) = Some (abs n).
Proof.
  intros Hns Hls Hp.
  assert (net_ok cid topic n ∧ ∃ gs, Forall glabel_ok gs
    ∧ play (gossip_step cid topic) gs (gossip_init (n_host <$> ns)) = Some (abs n)) as [_ ?]; [|done].
  eapply (play_allowed step (nlabel_ok topic) (λ n, net_ok cid topic n ∧ ∃ gs, Forall glabel_ok gs
    ∧ play (gossip_step cid topic) gs (gossip_init (n_host <$> ns)) = Some (abs n))); [|exact Hls| |exact Hp].
  - intros lb n0 n1 [Hn (gs0 & Hls0 & Hp0)] Hl Hs.
    destruct (net_step_ok cid Hcid topic Marshal_canon lb n0 n1 Hn Hl Hs) as [Hn' (gs1 & Hls1 & Hp1)].
    split; [done|]. exists (gs0 ++ gs1). split; [by apply Forall_app|]. by rewrite play_app, Hp0.
  - split; [by apply (net_init_ok cid Hcid topic)|]. by exists [].
Qed.

(** ** What is written in order gets everywhere *)

(** A client's entry sorts after what its vault has of the channel. *)
Definition in_order n lb : Prop :=
  match lb with
  | Writes i _ entry => ∀ nd id k, nodes n !! i = Some nd → entryID entry = Ok id →
      stored_key chan (db (store (n_host nd))) k → bytes_le k (EntryKey chan id)
  | _ => True
  end.

Definition said_by n (i : nat) eid : Prop := ∃ data e, (i, data) ∈ n_wire n ∧ entry_of e eid ∧ encodes data e.

(** Vault [i] has the entry, and has published it or will. *)
Definition carries n (i : nat) nd eid : Prop :=
  nodes n !! i = Some nd ∧ stored_key chan (db (store (n_host nd))) (EntryKey chan eid)
  ∧ (said_by n i eid ∨ ∀ r, goroutines (n_sys nd) !! id_of topic (n_host nd) = Some (Reading r) → due chan r (EntryKey chan eid)).

Definition tracked_all n : Prop := ∀ e eid, e ∈ n_authored n → entry_of e eid → ∃ i nd, carries n i nd eid.

(** A vault that changes still carries what it carried, and the others do. *)
Lemma carries_frame n n' i nd nd' j nd0 eid :
  nodes n !! i = Some nd → nodes n' = <[i := nd']> (nodes n) → (∀ x, x ∈ n_wire n → x ∈ n_wire n') →
  (stored_key chan (db (store (n_host nd))) (EntryKey chan eid) → stored_key chan (db (store (n_host nd'))) (EntryKey chan eid)) →
  (stored_key chan (db (store (n_host nd))) (EntryKey chan eid) →
   (∀ r, goroutines (n_sys nd) !! id_of topic (n_host nd) = Some (Reading r) → due chan r (EntryKey chan eid)) →
   said_by n' i eid ∨ ∀ r, goroutines (n_sys nd') !! id_of topic (n_host nd') = Some (Reading r) → due chan r (EntryKey chan eid)) →
  carries n j nd0 eid → ∃ i' nd1, carries n' i' nd1 eid.
Proof.
  intros Hi Hn Hw Hst Hdue (Hj & Hk & Hs).
  assert (∀ x, said_by n x eid → said_by n' x eid) as Hsaid by (intros x (data & e & ? & ? & ?); exists data, e; auto).
  destruct (decide (j = i)) as [->|Hne].
  - simplify_eq. exists i, nd'. split; [by rewrite Hn, lookup_insert_eq|]. split; [by apply Hst|].
    destruct Hs as [Hs|Hs]; [left; by apply Hsaid|by apply Hdue].
  - exists j, nd0. split; [by rewrite Hn, lookup_insert_ne|]. split; [done|].
    destruct Hs as [Hs|Hs]; [left; by apply Hsaid|by right].
Qed.

(** An accepted entry that is past all others is due. *)
Lemma accepted_due id s eid :
  reads chan id s → (∀ k, stored_key chan (sys_db s) k → bytes_le k (EntryKey chan eid)) →
  contents (sys_db s) !! EntryKey chan eid = None →
  ∀ r, goroutines s !! id = Some (Reading r) → due chan r (EntryKey chan eid).
Proof.
  intros (Hinv & _ & _ & Hg) Hord Hnone r Hr. destruct (Hg _ Hr) as (r' & [= <-] & _ & Hkey & Hseen).
  destruct Hinv as (_ & _ & Hall & _). destruct (Hall id _ Hr) as [_ Hf]. specialize (Hf I).
  unfold fresh in Hf. split; [|split].
  - destruct Hkey as [->|Hk]; [by auto with vault|by apply Hord].
  - intros Heq. destruct Hseen as [Hs|[_ [v Hv]]]; rewrite Heq in *; [|congruence].
    apply (f_equal length) in Hs. by rewrite length_EntryKey in Hs by apply Hchan.
  - destruct (pos r) as [it| |er|]; [|done..]. right. intros k1 Hin Hp. apply Hord. split; [done|].
    destruct Hf as (d0 & ((_ & _ & _ & _ & _ & Hst) & _) & Hold & _). destruct (Hst k1 Hin) as [v Hv].
    exists v. by apply Hold.
Qed.

(** What a move publishes: a stored entry, which the message is of. *)
Lemma published_message n i nd h (out : list bytes) k :
  net_ok cid topic n → nodes n !! i = Some nd → stored_key chan (sys_db (n_sys nd)) k →
  speak topic (n_host nd) [msg_at (sys_db (n_sys nd)) false k] = Some (h, out) →
  ∃ eid e data, out = [data] ∧ length eid = 30%nat ∧ k = EntryKey chan eid ∧ entry_of e eid ∧ encodes data e.
Proof.
  intros [(Hpe & _) Hn] Hi Hk Hsp. destruct (Hn i nd Hi) as (Hdb & _ & Hkeys). rewrite Hdb in Hk, Hsp.
  destruct (Hpe i _ (abs_node n i nd Hi)) as [_ Hdec].
  destruct (published_entry cid Hcid (n_host nd) k Hkeys) as (eid & Heid & -> & Hg); [|done|].
  { intros eid v Hlen Hv. destruct (Hdec eid v Hlen Hv) as (e & _ & _ & ?). by exists e. }
  destruct Hk as [_ [v Hv]]. destruct (Hdec eid v Heid Hv) as (e & _ & Hee & Henc).
  destruct (entry_of_canon Marshal_canon e eid Hee) as (id & b & _ & _ & Hm & Hb).
  rewrite (Get_decodes _ _ v e Hv Henc) in Hg.
  assert (canon e = msg_at (db (store (n_host nd))) false (EntryKey chan eid)) as Hmsg by congruence. rewrite <-Hmsg in Hsp.
  revert Hsp. cbn [speak]. destruct (TopicHandler_Publish _ _ _) as [h' [a|x|]]; [|done..]. simpl. rewrite Hm.
  intros [= <- <-]. exists eid, e, b. by split_and!.
Qed.
Lemma EntryKey_same (eid1 eid2 : bytes) :
  length eid1 = 30%nat → length eid2 = 30%nat → EntryKey chan eid1 = EntryKey chan eid2 → eid1 = eid2.
Proof.
  intros Hl1 Hl2 [_ Hf]%EntryKey_inj; [|apply Hchan..]. by rewrite !fit_exact in Hf.
Qed.

Lemma EntryKey_of e id (b : bytes) eid : fit 30 id = eid → EntryKey chan id = EntryKey chan eid.
Proof. intros <-. rewrite !EntryKey_bytes by apply Hchan. by rewrite fit_fit. Qed.

Lemma writes_tracked i now (entry : option Msg.t) n n' :
  net_ok cid topic n → tracked_all n → nlabel_ok topic n (Writes i now entry) → in_order n (Writes i now entry) →
  step (Writes i now entry) n = Some n' → tracked_all n'.
Proof.
  intros Hn Htr [Hnow _] Hord Hstep. cbn [net_step] in Hstep.
  destruct (nodes n !! i) as [nd|] eqn:Hi; [|done]. cbn [mbind option_bind] in Hstep.
  destruct (Append _ _ _ _) as [d r] eqn:Ha. destruct (sync_step _ _ _) as [s'|] eqn:Hs; [|done]. injection Hstep as <-.
  destruct (proj2 Hn i nd Hi) as (Hdb & Hr & _). pose proof Ha as Ha'. rewrite <-Hdb in Ha'.
  destruct (reads_commit cid Hcid _ _ now entry d r s' Hr Hnow Ha' Hs) as (_ & _ & Hgs).
  intros e eid [He|He]%elem_of_app Hee.
  - destruct (Htr e eid He Hee) as (j & nd0 & Hc). simpl.
    eapply (carries_frame n _ i nd (mkNode _ s')); [exact Hi|done|done| | |exact Hc].
    + intros Hk. exact (stored_key_append cid _ now entry _ r _ Ha Hk).
    + intros _ Hdue. right. simpl. rewrite Hgs. exact Hdue.
  - destruct r as [key|x|]; [|by apply not_elem_of_nil in He..]. destruct entry as [e1|]; [|by apply not_elem_of_nil in He].
    apply list_elem_of_singleton in He as ->. destruct Hee as (id & b & Hid & Hne & Hfit & Hb).
    pose proof Ha' as Hc. apply Append_cases in Hc as [[_ Hc]|(e' & id' & b' & [= <-] & Hid' & _ & _ & Hnone & Hd)];
      [by destruct (Hc key)|]. rewrite Hid in Hid'. injection Hid' as <-.
    rewrite (EntryKey_of e1 id b eid Hfit) in Hnone, Hd.
    exists i, (mkNode (set_store (set_db d (store (n_host nd))) (n_host nd)) s'). split; [by simpl; rewrite lookup_insert_eq|].
    split; [split; [by apply EntryKey_prefix, Hchan|]|right].
    + simpl. rewrite Hd. apply lookup_insert_is_Some', or_intror, lookup_insert_is_Some'. by left.
    + simpl. rewrite Hgs. apply (accepted_due _ (n_sys nd) eid Hr); [|done]. intros k Hk.
      rewrite <-(EntryKey_of e1 id b eid Hfit). rewrite Hdb in Hk. by apply (Hord nd id k).
Qed.

Lemma moves_tracked i l n n' :
  net_ok cid topic n → tracked_all n → nlabel_ok topic n (Moves i l) → step (Moves i l) n = Some n' → tracked_all n'.
Proof.
  intros Hn Htr Hl Hstep.
  destruct (move_inv cid Hcid topic i l n n' Hn Hl Hstep) as (nd & h & s' & out & Hi & Hs & Hsp & Hm & Hnd & Hst & Hid & ->).
  intros e eid He Hee. destruct (Htr e eid He Hee) as (j & nd0 & Hc).
  destruct (proj2 Hn i nd Hi) as (Hdb & _).
  eapply (carries_frame n _ i nd (mkNode h s')); [exact Hi|done| | | |exact Hc]; simpl.
  - intros x Hx. apply elem_of_app. by left.
  - by rewrite Hst.
  - intros Hk Hdue. rewrite Hid. destruct Hm as [[Hnone _]|(r & r' & Hr & Hr' & _ & _ & Hh & _)]; [right; congruence|].
    rewrite <-Hdb in Hk. destruct (Hh _ Hk (Hdue r Hr)) as [Hd|[_ Hms]]; [right; congruence|left].
    rewrite Hms in Hsp. destruct (published_message n i nd h out _ Hn Hi Hk Hsp) as (eid1 & e1 & data & -> & Hl1 & Hkey & Hee1 & Henc).
    apply EntryKey_same in Hkey as <-; [|by apply (entry_of_length e)|done].
    exists data, e1. split; [|done]. apply elem_of_app. right. left.
Qed.

Lemma tracked_all_step : preserved step (λ n lb, nlabel_ok topic n lb ∧ in_order n lb) (λ n, net_ok cid topic n ∧ tracked_all n).
Proof.
  intros lb n n' [Hn Htr] [Hl Hord] Hstep. split; [by eapply net_ok_preserved|].
  destruct lb as [i now entry|i l|j now from i data]; [by eapply writes_tracked|by eapply moves_tracked|].
  destruct (hear_inv cid Hcid topic Marshal_canon j now from i data n n' Hn Hl Hstep)
    as (nd & h & s' & Hj & _ & Hst & Hid & Hgs & _ & _ & ->).
  intros e eid He Hee. destruct (Htr e eid He Hee) as (i' & nd0 & Hc).
  eapply (carries_frame n _ j nd (mkNode h s')); [exact Hj|done|done|by apply Hst| |exact Hc].
  intros _ Hdue. right. simpl. by rewrite Hgs, Hid.
Qed.

(** Nobody's channel has anything to do, and the handlers still listen. *)
Definition quiet_net n : Prop :=
  map_Forall (λ _ nd, at_rest (n_sys nd) ∧ is_Some (goroutines (n_sys nd) !! id_of topic (n_host nd))) (nodes n).

(** What was published has come to everybody else. *)
Definition all_heard n : Prop :=
  ∀ i data j, (i, data) ∈ n_wire n → is_Some (nodes n !! j) → j = i ∨ (j, data) ∈ n_received n.

(** A vault at rest that carries an entry has published it. *)
Lemma quiet_said n i nd eid : net_ok cid topic n → quiet_net n → carries n i nd eid → said_by n i eid.
Proof.
  intros [_ Hn] Hq (Hi & Hk & [Hs|Hdue]); [done|exfalso]. destruct (Hn i nd Hi) as (Hdb & Hrd & _).
  destruct (Hq i nd Hi) as [Hrest [g Hg]]. pose proof (proj2 (proj2 (proj2 Hrd)) g Hg) as (r & -> & _).
  destruct (Hdue r Hg) as (Hle & Hne & _). destruct Hne.
  eapply (reads_at_rest chan); [exact Hrd|exact Hrest|exact Hg| |exact Hle]. by rewrite Hdb.
Qed.

(** What was published and heard is there. *)
Lemma heard_stored n i eid j nd :
  net_ok cid topic n → all_heard n → said_by n i eid → nodes n !! j = Some nd → is_Some (stored cid (n_host nd) eid).
Proof.
  intros [(_ & Hwi & Hre) _] Hall (data & e & Hin & Hee & Henc) Hj.
  assert (holds cid (abs n) j data) as (e' & eid' & h & v & _ & Hee' & Henc' & Hh & Hv).
  { destruct (Hall i data j Hin) as [->|Hrec]; [by eexists|by apply Hwi|by apply Hre]. }
  rewrite (abs_node n j nd Hj) in Hh. injection Hh as <-.
  rewrite (encodes_inj data e e' eid eid' Hee Hee' Henc Henc'). by eexists.
Qed.

(** C4: entries written in order get everywhere.  Suppose that every entry a
    client writes has an id and sorts after what its vault has of the channel at
    that moment, that no two different entries are accepted under one id
    ([unique_ids]; if they are, vaults keep different ones), and that nobody
    cancels or re-opens the subscription of a vault's relay handler.  Then, whatever the order in which
    vaults hear of each other's entries, once all channels have come to rest,
    the handler of every vault still listening to its store ([quiet_net]), and
    everything published has been heard by all ([all_heard]), every entry any
    vault has accepted is at every vault, as it was written, and all vaults have
    the same.  All vaults began without entries of the channel and with a
    handler that listens ([fresh_node]). *)
Theorem ordered_entries_spread ns ls n :
  map_Forall (λ _, fresh_node cid topic) ns →
  allowed step (λ n lb, nlabel_ok topic n lb ∧ in_order n lb) ls (net_init ns) →
  play step ls (net_init ns) = Some n → unique_ids (abs n) → quiet_net n → all_heard n →
  (∀ e eid j nd, e ∈ n_authored n → entry_of e eid → nodes n !! j = Some nd →
     Get (db (store (n_host nd))) (EntryKey chan eid) = Ok (canon e)) ∧
  ∀ i j nd nd' eid, nodes n !! i = Some nd → nodes n !! j = Some nd' → length eid = 30%nat →
    Get (db (store (n_host nd))) (EntryKey chan eid) = Get (db (store (n_host nd'))) (EntryKey chan eid).
Proof.
  intros Hns Hls Hp Hu Hq Hall.
  assert (net_ok cid topic n ∧ tracked_all n) as [Hn Htr].
  { eapply (play_allowed step _ (λ n, net_ok cid topic n ∧ tracked_all n)); [apply tracked_all_step|exact Hls| |exact Hp].
    split; [by apply (net_init_ok cid Hcid topic)|]. by intros e eid ?%not_elem_of_nil. }
  assert (∀ e eid j nd, e ∈ n_authored n → entry_of e eid → nodes n !! j = Some nd →
     Get (db (store (n_host nd))) (EntryKey chan eid) = Ok (canon e)) as Hev.
  { intros e eid j nd He Hee Hj. destruct (Htr e eid He Hee) as (i & nd0 & Hc).
    destruct (heard_stored n i eid j nd Hn Hall (quiet_said n i nd0 eid Hn Hq Hc) Hj) as [v Hv].
    destruct Hn as [(Hpe & _) _].
    destruct (proj2 (Hpe j _ (abs_node n j nd Hj)) eid v (entry_of_length e eid Hee) Hv) as (e' & He' & Hee' & Henc).
    rewrite (Get_decodes _ _ v e' Hv Henc). f_equal. by apply (Hu e' e eid). }
  split; [done|]. intros i j nd nd' eid Hi Hj Hl. destruct Hn as [(Hpe & _) _].
  assert (∀ x y nx ny, nodes n !! x = Some nx → nodes n !! y = Some ny → is_Some (stored cid (n_host nx) eid) →
    Get (db (store (n_host nx))) (EntryKey chan eid) = Get (db (store (n_host ny))) (EntryKey chan eid)) as Hsame.
  { intros x y nx ny Hx Hy [v Hv].
    destruct (proj2 (Hpe x _ (abs_node n x nx Hx)) eid v Hl Hv) as (e & He & Hee & _).
    by rewrite (Hev e eid x nx He Hee Hx), (Hev e eid y ny He Hee Hy). }
  destruct (stored cid (n_host nd) eid) eqn:Hv; [apply (Hsame i j); [done..|by eexists]|].
  destruct (stored cid (n_host nd') eid) eqn:Hv'; [symmetry; apply (Hsame j i); [done..|by eexists]|].
  by rewrite !Get_absent.
Qed.
(** ** What is written late may never leave *)

(** Vault [i] alone has the entry, its handler's reader is past it, and
    nothing of it is on the wire. *)
Definition unheard (i : nat) eid n : Prop :=
  (∃ nd, nodes n !! i = Some nd ∧ is_Some (stored cid (n_host nd) eid)
    ∧ ∀ r, goroutines (n_sys nd) !! id_of topic (n_host nd) = Some (Reading r) →
        bytes_lt (EntryKey chan eid) (sbytes (key r)))
  ∧ (∀ j nd, j ≠ i → nodes n !! j = Some nd → stored cid (n_host nd) eid = None)
  ∧ ∀ x data e, (x, data) ∈ n_wire n → encodes data e → ¬ entry_of e eid.

(** Nobody writes that entry at another vault. *)
Definition not_written_elsewhere (i : nat) eid lb : Prop :=
  match lb with Writes j _ (Some e) => j = i ∨ ¬ entry_of e eid | _ => True end.

(** A vault changes; what it sends is of other entries. *)
Lemma unheard_frame i eid n n' j nd nd' (out : list bytes) :
  unheard i eid n → nodes n !! j = Some nd → nodes n' = <[j := nd']> (nodes n) →
  n_wire n' = n_wire n ++ (pair j <$> out) → (∀ data e, data ∈ out → encodes data e → ¬ entry_of e eid) →
  (j = i → (is_Some (stored cid (n_host nd) eid) → is_Some (stored cid (n_host nd') eid))
    ∧ ((∀ r, goroutines (n_sys nd) !! id_of topic (n_host nd) = Some (Reading r) → bytes_lt (EntryKey chan eid) (sbytes (key r))) →
       ∀ r, goroutines (n_sys nd') !! id_of topic (n_host nd') = Some (Reading r) → bytes_lt (EntryKey chan eid) (sbytes (key r)))) →
  (j ≠ i → stored cid (n_host nd) eid = None → stored cid (n_host nd') eid = None) →
  unheard i eid n'.
Proof.
  intros ((nd0 & Hi & Hst & Hr) & Hoth & Hwi) Hj Hn Hw Hout Hsame Hne. split; [|split].
  - destruct (decide (j = i)) as [->|Hji].
    + simplify_eq. exists nd'. destruct (Hsame eq_refl) as [Hs1 Hs2]. rewrite Hn, lookup_insert_eq. auto.
    + exists nd0. by rewrite Hn, lookup_insert_ne.
  - intros x ndx Hx. rewrite Hn, lookup_insert_Some. intros [[<- <-]|[_ Hl]]; [apply Hne; [done|by apply (Hoth j)]|by apply (Hoth x)].
  - intros x data e. rewrite Hw, elem_of_app. intros [Hin|Hin]; [by apply (Hwi x)|].
    apply list_elem_of_fmap in Hin as (b & [= -> ->] & Hin). by apply Hout.
Qed.

Lemma unheard_writes i eid j now (entry : option Msg.t) n n' :
  length eid = 30%nat → net_ok cid topic n → unheard i eid n → nlabel_ok topic n (Writes j now entry) →
  not_written_elsewhere i eid (Writes j now entry) → step (Writes j now entry) n = Some n' → unheard i eid n'.
Proof.
  intros Hl Hn Hun [Hnow Hidne] Hwe Hstep. cbn [net_step] in Hstep.
  destruct (nodes n !! j) as [nd|] eqn:Hj; [|done]. cbn [mbind option_bind] in Hstep.
  destruct (Append _ _ _ _) as [d r] eqn:Ha. destruct (sync_step _ _ _) as [s'|] eqn:Hs; [|done]. injection Hstep as <-.
  destruct (proj2 Hn j nd Hj) as (Hdb & Hr & _). pose proof Ha as Ha'. rewrite <-Hdb in Ha'.
  destruct (reads_commit cid Hcid _ _ now entry d r s' Hr Hnow Ha' Hs) as (_ & _ & Hgs).
  eapply (unheard_frame i eid n _ j nd (mkNode _ s') []); [exact Hun|exact Hj|done|by rewrite app_nil_r|by intros ? ? ?%not_elem_of_nil| |].
  - intros ->. simpl. rewrite Hgs. split; [|done]. intros Hst.
    refine (proj2 (stored_key_append cid _ now entry _ r (EntryKey chan eid) Ha (conj _ Hst))). by apply EntryKey_prefix, Hchan.
  - intros Hji Hnone. unfold stored in *. simpl.
    destruct (Append_stored cid Hcid _ chan now entry d r Hchan eq_refl Hnow Ha)
      as [[Hsame _]|(e & id & b & -> & Hid & Hb & _ & Hd)]; [by rewrite Hsame|].
    rewrite (Hd eid Hl). case_decide as Hfit; [|done]. exfalso. destruct Hwe as [?|Hwe]; [done|]. apply Hwe.
    exists id, b. split_and!; try done. intros ->. by apply Hidne.
Qed.

Lemma unheard_step i eid : length eid = 30%nat →
  preserved step (λ n lb, nlabel_ok topic n lb ∧ not_written_elsewhere i eid lb)
    (λ n, net_ok cid topic n ∧ unheard i eid n).
Proof.
  intros Hlen lb n n' [Hn Hun] [Hl Hwe] Hstep. split; [by eapply net_ok_preserved|].
  destruct lb as [j now entry|j l|j now from x data]; [by eapply unheard_writes| |].
  - destruct (move_inv cid Hcid topic j l n n' Hn Hl Hstep) as (nd & h & s' & out & Hj & Hs & Hsp & Hm & Hnd & Hst & Hid & ->).
    pose proof Hun as ((nd0 & Hi & _ & Hpast) & Hoth & _).
    assert (∀ k, stored_key chan (sys_db (n_sys nd)) k → k ≠ EntryKey chan eid →
      said (id_of topic (n_host nd)) l (n_sys nd) s' = [msg_at (sys_db (n_sys nd)) false k] →
      ∀ data e, data ∈ out → encodes data e → ¬ entry_of e eid) as Hother.
    { intros k Hk Hne Hms data e Hin Henc Hee. rewrite Hms in Hsp.
      destruct (published_message n j nd h out k Hn Hj Hk Hsp) as (eid1 & e1 & b & -> & _ & -> & Hee1 & Henc1).
      apply list_elem_of_singleton in Hin as ->. destruct Hne. f_equal. by apply (encodes_inj b e1 e). }
    destruct (proj2 Hn j nd Hj) as (Hdb & _).
    eapply (unheard_frame i eid n _ j nd (mkNode h s') out); [exact Hun|exact Hj|done|done| | |].
    + intros data e Hin. destruct Hm as [[_ Hms]|(r & r' & Hr & Hr' & _ & [[Hms _]|(k & Hk & Hle & _ & Hms)] & _)].
      1-2: rewrite Hms in Hsp; injection Hsp as _ <-; by apply not_elem_of_nil in Hin.
      apply (Hother k Hk); [|done|done]. intros ->. destruct (decide (j = i)) as [->|Hji].
      * simplify_eq. specialize (Hpast r Hr). by apply bytes_not_le in Hpast.
      * specialize (Hoth j nd Hji Hj). destruct Hk as [_ [v Hv]]. rewrite Hdb in Hv. unfold stored in Hoth. congruence.
    + intros ->. simpl. unfold stored. rewrite Hst, Hid. split; [done|]. intros Hp r' Hr'.
      destruct Hm as [[Hnone _]|(r & r2 & Hr & Hr2 & _ & Hk & _)]; [congruence|]. simplify_eq.
      destruct Hk as [[_ ->]|(k & _ & Hle & -> & _)]; [by apply Hp|]. eapply bytes_lt_le_trans; [by apply Hp|done].
    + intros _. simpl. unfold stored. by rewrite Hst.
  - destruct (hear_inv cid Hcid topic Marshal_canon j now from x data n n' Hn Hl Hstep)
      as (nd & h & s' & Hj & _ & Hst & Hid & Hgs & Hsto & Hg & ->).
    assert ((x, data) ∈ n_wire n) as Hin.
    { revert Hstep. cbn [net_step]. rewrite Hj. cbn [mbind option_bind].
      destruct (handlers _ !! _); [|done]. cbn [mbind option_bind]. case_decide as Hc; [|done]. intros _. apply Hc. }
    eapply (unheard_frame i eid n _ j nd (mkNode h s') []);
      [exact Hun|exact Hj|done|by rewrite app_nil_r|by intros ? ? ?%not_elem_of_nil| |].
    + intros ->. simpl. rewrite Hgs, Hid. split; [|done]. intros Hs.
      refine (proj2 (Hst (EntryKey chan eid) (conj _ Hs))). by apply EntryKey_prefix, Hchan.
    + intros _ Hnone. simpl. destruct (Hsto eid Hlen) as [->|(e & Hee & Henc)]; [done|].
      destruct Hun as (_ & _ & Hwi). by destruct (Hwi x data e Hin Henc).
Qed.

(** C6: an entry that is written late may never leave its vault: if it
    sorts before where the reader of the relay handler has got to, and no
    other vault has it yet, then whatever the goroutines and the peers do from
    there, and whatever else is written, no other vault ever gets it; the
    handler asked for no arrival order, so nothing will make it look back. *)
Theorem late_entry_never_leaves ns ls n i nd r eid ls2 n2 :
  map_Forall (λ _, fresh_node cid topic) ns →
  allowed step (nlabel_ok topic) ls (net_init ns) → play step ls (net_init ns) = Some n →
  length eid = 30%nat → nodes n !! i = Some nd → is_Some (stored cid (n_host nd) eid) →
  goroutines (n_sys nd) !! id_of topic (n_host nd) = Some (Reading r) → bytes_lt (EntryKey chan eid) (sbytes (key r)) →
  (∀ j nd', j ≠ i → nodes n !! j = Some nd' → stored cid (n_host nd') eid = None) →
  (∀ x data e, (x, data) ∈ n_wire n → encodes data e → ¬ entry_of e eid) →
  allowed step (λ n lb, nlabel_ok topic n lb ∧ not_written_elsewhere i eid lb) ls2 n →
  play step ls2 n = Some n2 →
  (∃ nd2, nodes n2 !! i = Some nd2 ∧ is_Some (stored cid (n_host nd2) eid)) ∧
  ∀ j nd2, j ≠ i → nodes n2 !! j = Some nd2 →
    Get (db (store (n_host nd2))) (EntryKey chan eid) = Err ErrorKeyNotFound.
Proof.
  intros Hns Hls Hp Hlen Hi Hst Hr Hlt Hoth Hwi Hls2 Hp2.
  assert (net_ok cid topic n) as Hn.
  { eapply play_allowed; [apply net_ok_preserved|exact Hls|by apply (net_init_ok cid Hcid topic)|exact Hp]. }
  assert (net_ok cid topic n2 ∧ unheard i eid n2) as [_ ((nd2 & Hi2 & Hs2 & _) & Hoth2 & _)].
  { eapply (play_allowed step _ (λ n, net_ok cid topic n ∧ unheard i eid n)); [by apply unheard_step|exact Hls2| |exact Hp2].
    split; [done|]. split; [|done]. exists nd. split; [done|]. split; [done|]. intros r' Hr'. by simplify_eq. }
  split; [by exists nd2|]. intros j nd' Hj Hnd'. apply Get_absent. by apply (Hoth2 j).
Qed.
End properties.

(* ------------------------------------------------------------------ *)
(** * Witnesses *)

(** Two vaults whose relay handlers listen to a channel. *)
Module RelaySpecExamples.
Import MemDB RefCodec RefHash RefCrypto RefNet StoreExamples KeyringExamples KeyFileExamples P2PExamples RelayExamples.

(** The relay handler, and a subscriber besides. *)
#[export] Instance relay_target : SubscriptionTarget bool := λ relay, if relay then str "id1" else str "id2".
Definition rid : UUID := str "id1".
#[local] Abbreviation rchan := (chan_ (T:=bool) rcid).
#[local] Abbreviation rstep := (net_step (T:=bool) rcid rtopic).

Definition listens : list (label (T:=bool)) := [Watch; Subscribed true (Some (topic_opts rhandler)); Begin rid].
Definition rnode : node (T:=bool) := mkNode rhost (default (sys_init d0) (play (sync_step rchan) listens (sys_init d0))).
Definition pair_ : gmap nat (node (T:=bool)) := <[0%nat := rnode]> {[1%nat := rnode]}.

(** what makes a commit known, and the reader wait again *)
Definition told_ (i : nat) : list (net_label (T:=bool)) :=
  Moves i <$> [Callback 1 [rid]; Notify; Release; Turn rid; Turn rid].
Definition spread : list (net_label (T:=bool)) :=
  [Moves 0 (Turn rid); Moves 1 (Turn rid); Writes 0 t0 (Some e0)] ++ told_ 0
  ++ [Hears 1 t1 (str "peer") 0 rdata] ++ told_ 1 ++ [Hears 0 t1 (str "peer") 1 rdata].
(** the later entry first *)
Definition late : list (net_label (T:=bool)) :=
  [Moves 0 (Turn rid); Moves 1 (Turn rid); Writes 0 t0 (Some e1)] ++ told_ 0 ++ [Writes 0 t1 (Some e0)].
Definition after_net (ls : list (net_label (T:=bool))) : network (T:=bool) :=
  default (net_init pair_) (play rstep ls (net_init pair_)).

Lemma net_plays ls : (if play rstep ls (net_init pair_) is Some _ then true else false) = true →
  play rstep ls (net_init pair_) = Some (after_net ls).
Proof. unfold after_net. by destruct (play _ _ _). Qed.

(** The labels used here are allowed anywhere; whether entries come in order is checked. *)
Definition static_label (lb : net_label (T:=bool)) : bool :=
  match lb with
  | Writes _ now entry => bool_decide (time_ok now) && match entryID entry with Ok [] => false | _ => true end
  | Hears _ now _ _ _ => bool_decide (time_ok now)
  | Moves _ l => match l with Commit _ _ _ | Subscribed _ _ | Cancel _ => false | _ => true end
  end.

Lemma static_label_ok lb n : static_label lb = true → nlabel_ok rtopic n lb.
Proof.
  destruct lb as [i now entry|i l|j now from i data]; simpl.
  - intros [Hn He]%andb_true_iff. apply bool_decide_eq_true in Hn. split; [done|]. intros Hid. by rewrite Hid in He.
  - intros Hl nd _. by destruct l.
  - intros Hn. by apply bool_decide_eq_true in Hn.
Qed.

Definition orderedb (n : network (T:=bool)) (lb : net_label (T:=bool)) : bool :=
  match lb with
  | Writes i _ entry =>
      match nodes n !! i, entryID entry with
      | Some nd, Ok id => bool_decide (map_Forall (λ k _, has_prefix (prefix rchan) k = true → bytes_le k (EntryKey rchan id))
          (contents (db (store (n_host nd)))))
      | _, _ => true
      end
  | _ => true
  end.

Fixpoint net_checks (ls : list (net_label (T:=bool))) (n : network (T:=bool)) : bool :=
  match ls with
  | [] => true
  | lb :: ls => static_label lb && orderedb n lb && match rstep lb n with Some n' => net_checks ls n' | None => true end
  end.

Lemma orderedb_ok n lb : orderedb n lb = true → in_order rcid n lb.
Proof.
  destruct lb as [i now entry| |]; [|done..]. simpl. intros Ho nd id k Hi Hid [Hp [v Hk]].
  rewrite Hi, Hid in Ho. apply bool_decide_eq_true in Ho. exact (Ho k v Hk Hp).
Qed.

Lemma net_checks_allowed ls n :
  net_checks ls n = true → allowed rstep (λ n lb, nlabel_ok rtopic n lb ∧ in_order rcid n lb) ls n.
Proof.
  revert n. induction ls as [|lb ls IH]; intros n; [done|]. cbn [net_checks allowed].
  intros [[Hs Ho]%andb_true_iff Hr]%andb_true_iff. split; [split; [by apply static_label_ok|by apply orderedb_ok]|].
  intros n' Hn'. rewrite Hn' in Hr. by apply IH.
Qed.

Lemma static_allowed ls n : forallb static_label ls = true → allowed rstep (nlabel_ok rtopic) ls n.
Proof.
  revert n. induction ls as [|lb ls IH]; intros n; [done|]. cbn [forallb allowed].
  intros [Hs Hr]%andb_true_iff. split; [by apply static_label_ok|]. intros n' _. by apply IH.
Qed.

Lemma nothing_yet k (v : bytes) : contents d0 !! k = Some v → False.
Proof. intros Hv. pose proof (lookup_empty (M:=gmap bytes) (A:=bytes) k) as Hn. assert (contents d0 !! k = None) as Hd by exact Hn. congruence. Qed.

Lemma rnode_fresh : fresh_node rcid rtopic rnode.
Proof.
  split; [exact rhost_relays|]. split.
  { intros k [_ [v Hv]]. exact (nothing_yet k v Hv). }
  split.
  { split; [intros k [v Hv]|intros eid _ [v Hv]]; destruct (nothing_yet _ _ Hv). }
  split; [|intros th [= <-]; reflexivity]. exists rhandler, true. split; [reflexivity|]. split; [reflexivity|].
  assert ((if play (sync_step rchan) listens (sys_init d0) is Some _ then true else false) = true) as Hp
    by (vm_compute; reflexivity).
  change (play (sync_step rchan) listens (sys_init d0)
    = Some (default (sys_init d0) (play (sync_step rchan) listens (sys_init d0)))).
  by destruct (play (sync_step rchan) listens (sys_init d0)).
Qed.

Lemma pair_fresh : map_Forall (λ _, fresh_node rcid rtopic) pair_.
Proof.
  apply map_Forall_insert_2; [exact rnode_fresh|]. intros j nd Hj. apply lookup_singleton_Some in Hj as [_ <-].
  exact rnode_fresh.
Qed.

Lemma spread_plays : play rstep spread (net_init pair_) = Some (after_net spread).
Proof. apply net_plays. vm_compute. reflexivity. Qed.

Lemma relay_refines_witness :
  ∃ gs, Forall glabel_ok gs ∧
    play (gossip_step rcid rtopic) gs (gossip_init (n_host <$> pair_)) = Some (abs (after_net spread)).
Proof.
  apply (relay_refines rcid rcid_length rtopic codec_canon pair_ spread (after_net spread) pair_fresh);
    [apply static_allowed; vm_compute; reflexivity|exact spread_plays].
Defined.

Lemma one_author (n : network (T:=bool)) : n_authored n = [e0] → unique_ids (abs n).
Proof. intros Ha e e' eid. simpl. rewrite Ha, !list_elem_of_singleton. by intros -> ->. Qed.

Definition quietb (nd : node (T:=bool)) : bool :=
  at_restb (n_sys nd) && (if goroutines (n_sys nd) !! id_of rtopic (n_host nd) is Some _ then true else false).

Lemma quietb_net (n : network (T:=bool)) : bool_decide (map_Forall (λ _ nd, quietb nd = true) (nodes n)) = true → quiet_net rtopic n.
Proof.
  intros Hq%bool_decide_eq_true i nd Hi. specialize (Hq i nd Hi). apply andb_true_iff in Hq as [Hr Hg].
  split; [exact (at_restb_spec _ Hr)|].
  destruct (goroutines (n_sys nd) !! id_of rtopic (n_host nd)) as [g|]; [exists g; reflexivity|discriminate Hg].
Qed.

(** Each has heard what the other has said. *)
Lemma both_heard (n : network (T:=bool)) :
  n_wire n = [(0%nat, rdata); (1%nat, rdata)] → n_received n = [(1%nat, rdata); (0%nat, rdata)] →
  bool_decide (map_Forall (λ j _, j = 0%nat ∨ j = 1%nat) (nodes n)) = true → all_heard n.
Proof.
  intros Hw Hr Hj%bool_decide_eq_true i data j Hin [nd Hnd]. rewrite Hw in Hin. rewrite Hr.
  specialize (Hj j nd Hnd). apply elem_of_cons in Hin as [[= -> ->]|Hin].
  - destruct Hj as [->| ->]; [left; reflexivity|right; left].
  - apply list_elem_of_singleton in Hin as [= -> ->]. destruct Hj as [->| ->]; [right; right; left|left; reflexivity].
Qed.

Lemma spread_unique : unique_ids (abs (after_net spread)).
Proof. apply one_author. vm_compute. reflexivity. Qed.

Lemma spread_quiet : quiet_net rtopic (after_net spread).
Proof. apply quietb_net. vm_compute. reflexivity. Qed.

Lemma spread_heard : all_heard (after_net spread).
Proof. apply both_heard; [apply (bool_decide_eq_true_1 _); vm_compute; reflexivity..|vm_compute; reflexivity]. Qed.

Lemma ordered_entries_spread_witness :
  ∃ nd, nodes (after_net spread) !! 1%nat = Some nd ∧
    Get (db (store (n_host nd))) (EntryKey rchan (fit 30 id0)) = Ok (canon e0).
Proof.
  destruct (some_of_bool (nodes (after_net spread) !! 1%nat)) as [nd Hnd]; [vm_compute; reflexivity|].
  destruct (ordered_entries_spread rcid rcid_length rtopic codec_canon pair_ spread (after_net spread) pair_fresh)
    as [Hev _]; [apply net_checks_allowed; vm_compute; reflexivity|exact spread_plays|exact spread_unique|
      exact spread_quiet|exact spread_heard|].
  exists nd. split; [exact Hnd|]. apply (Hev e0 (fit 30 id0) 1%nat nd); [|exists id0, rdata|exact Hnd].
  - assert (n_authored (after_net spread) = [e0]) as -> by (vm_compute; reflexivity). left.
  - split; [exact e0_entry|]. split; [discriminate|]. split; [reflexivity|exact e0_marshals].
Defined.
(** The entry of an earlier time, written after the later one was published. *)
Definition lid : bytes := fit 30 id0.
Definition ldata : bytes := StoreExamples.wire e1.

Lemma late_plays : play rstep late (net_init pair_) = Some (after_net late).
Proof. apply net_plays. vm_compute. reflexivity. Qed.

Definition beyond : list (net_label (T:=bool)) := told_ 0 ++ [Hears 1 t1 (str "peer") 0 ldata] ++ told_ 1.

Lemma beyond_plays : play rstep beyond (after_net late) = Some (after_net (late ++ beyond)).
Proof. apply (play_rest _ late _ _ _ _ late_plays), net_plays. vm_compute. reflexivity. Qed.

Lemma beyond_allowed :
  allowed rstep (λ n lb, nlabel_ok rtopic n lb ∧ not_written_elsewhere 0 lid lb) beyond (after_net late).
Proof.
  apply (allowed_under _ _ (λ lb, static_label lb = true ∧ not_written_elsewhere 0 lid lb) (λ _, True)); [done| | |done].
  - intros n lb _ [Hs Hn]. split; [by apply static_label_ok|exact Hn].
  - unfold beyond, told_. simpl. repeat constructor.
Qed.

Definition past (g : goroutine) : option reader :=
  match g with
  | Reading r => if bytes_leb (sbytes (key r)) (EntryKey rchan lid) then None else Some r
  | _ => None
  end.

Lemma past_reader g r : past g = Some r → g = Reading r ∧ bytes_lt (EntryKey rchan lid) (sbytes (key r)).
Proof.
  destruct g as [o|r'|r']; [done| |done]. simpl. destruct (bytes_leb _ _) eqn:Hle; [done|]. intros [= <-]. split; [done|].
  apply bytes_not_le. unfold bytes_le. by rewrite Hle.
Qed.

Lemma e1_entry : entry_of e1 (fit 30 id1).
Proof. exists id1, ldata. split; [vm_compute; reflexivity|]. split; [discriminate|]. by split. Qed.

Lemma late_wire x data e : (x, data) ∈ n_wire (after_net late) → encodes data e → ¬ entry_of e lid.
Proof.
  assert (n_wire (after_net late) = [(0%nat, ldata)]) as ->
    by (apply (bool_decide_eq_true_1 _); vm_compute; reflexivity).
  intros Hin Henc Hee. apply list_elem_of_singleton in Hin as [= -> ->].
  pose proof (encodes_inj ldata e e1 lid (fit 30 id1) Hee e1_entry Henc (Unmarshal_Marshal e1 ldata eq_refl)) as Heq.
  revert Heq. apply (bool_decide_eq_false_1 _). vm_compute. reflexivity.
Qed.

Lemma late_others j nd : j ≠ 0%nat → nodes (after_net late) !! j = Some nd → stored rcid (n_host nd) lid = None.
Proof.
  assert (bool_decide (map_Forall (λ j nd, j = 0%nat ∨ stored rcid (n_host nd) lid = None) (nodes (after_net late))) = true) as Ho
    by (vm_compute; reflexivity).
  apply bool_decide_eq_true in Ho. intros Hj Hnd. destruct (Ho j nd Hnd) as [Heq|Heq]; [destruct (Hj Heq)|exact Heq].
Qed.

Lemma late_entry_never_leaves_witness :
  ∃ nd, nodes (after_net (late ++ beyond)) !! 1%nat = Some nd ∧
    Get (db (store (n_host nd))) (EntryKey rchan lid) = Err ErrorKeyNotFound.
Proof.
  destruct (some_of_bool (nodes (after_net (late ++ beyond)) !! 1%nat)) as [nd2 Hnd2]; [vm_compute; reflexivity|].
  destruct (some_of_bool (nd ← nodes (after_net late) !! 0%nat; _ ← stored rcid (n_host nd) lid;
    g ← goroutines (n_sys nd) !! id_of rtopic (n_host nd); r ← past g; Some (nd, r))) as [[nd r] Hr]; [vm_compute; reflexivity|].
  apply bind_Some in Hr as (nd' & Hnd & (v & Hv & (g & Hg & (r' & Hp & [= -> ->])%bind_Some)%bind_Some)%bind_Some).
  apply past_reader in Hp as [-> Hlt].
  destruct (late_entry_never_leaves rcid rcid_length rtopic codec_canon pair_ late (after_net late) 0%nat nd r lid
    beyond (after_net (late ++ beyond)) pair_fresh) as [_ Hno];
    [apply static_allowed; vm_compute; reflexivity|exact late_plays|apply length_fit|exact Hnd|exists v; exact Hv|exact Hg
    |exact Hlt|exact late_others|exact late_wire|exact beyond_allowed|exact beyond_plays|].
  exists nd2. split; [exact Hnd2|]. apply (Hno 1%nat nd2); [discriminate|exact Hnd2].
Defined.
End RelaySpecExamples.
