(* ===== verification/RelayFollowers.v ===== *)
(** [p2p/topic_handler.go] over [store/store.go]: what a client that follows a
    channel at one vault is told of what clients of the others write.

    Over the network of [RelayReaders.v]: a subscriber of one vault's channel,
    other than the relay handler, while the entries of all vaults come in.  The
    theorem puts together what gets an entry to the vault ([RelaySpec.v]) and
    what gets it from the vault to its readers ([Wakeup.v]). *)
From S2P Require Import Prelude Protos Helpers Crypto Keyring KeyFile Badger Channel Store Reader Delivery Lts Sync Wakeup.
From S2P Require Import P2P Relay RelayReaders RelaySpec.

Section followers.
Context `{P2PKeys} `{!LibP2P} `{NaCl} `{BadgerReliable} `{!ProtoCodec Msg.t} `{!ProtoLaws Msg.t} `{!ProtoCodec Peer.t}
  `{!ProtoCodec PubsubState.t} `{Sha256} {T : Type} `{!SubscriptionTarget T}.
Context (cid : bytes) (Hcid : length cid = 32%nat) (topic : gostring).
Context (Marshal_canon : ∀ (e : Msg.t) b, Marshal e = Ok b → ∃ b', Marshal (canon e) = Ok b').
(** the subscriber and its vault *)
Context (id : UUID) (j : nat).
Implicit Types (h : Host (T:=T)) (n : network (T:=T)) (nd : node (T:=T)) (s : system (T:=T)) (d : DB) (e : Msg.t)
  (l : label (T:=T)) (lb : net_label (T:=T)) (ls : list (net_label (T:=T))) (ns : gmap nat (node (T:=T)))
  (ms : list Msg.t) (k eid : bytes) (ks : list bytes) (r : reader).

#[local] Abbreviation chan := (chan_ (T:=T) cid).
#[local] Abbreviation Hchan := (chan_ok (T:=T) cid Hcid).
#[local] Abbreviation step := (net_step (T:=T) cid topic).

(** The entry is there, or sorts after all that is. *)
Definition newest_or_known d (entry : option Msg.t) : Prop :=
  ∀ eid, entryID entry = Ok eid → contents d !! EntryKey chan eid = None →
    ∀ k, stored_key chan d k → bytes_le k (EntryKey chan eid).

(** Nobody subscribes under the subscriber's id or cancels it; what its vault
    hears sorts after what is there. *)
Definition undisturbed n lb : Prop :=
  match lb with
  | Hears x _ _ _ data => x = j → ∀ nd e, nodes n !! j = Some nd → incoming data = Some e →
      newest_or_known (db (store (n_host nd))) (Some e)
  | Moves x l => x = j → move_ok id l
  | Writes _ _ _ => True
  end.

(** The subscriber reads the channel; it is at its start or at an entry. *)
Definition follows_at s r : Prop :=
  goroutines s !! id = Some (Reading r) ∧ place_ok chan (sys_db s) r ∧ ∀ o, resetting s ≠ Some (id, o).

(** What the subscriber has had since it had [told], its channel then having
    the keys of [d0]: entries in the strict order of their keys; and of those
    that came since, each is among them or still due. *)
Definition followed d0 (told : list Msg.t) s : Prop :=
  reads chan id s ∧ ∀ r, goroutines s !! id = Some (Reading r) →
    ∃ ks, published r = told ++ (msg_at (sys_db s) false <$> ks) ∧ Forall (stored_key chan (sys_db s)) ks
      ∧ StronglySorted bytes_lt ks ∧ Forall (λ k, bytes_le k (sbytes (key r))) ks
      ∧ (ks = [] ∨ sbytes (lastSeen r) = sbytes (key r))
      ∧ ∀ k, stored_key chan (sys_db s) k → ¬ stored_key chan d0 k → due chan r k ∨ k ∈ ks.

Lemma StronglySorted_snoc ks k :
  StronglySorted bytes_lt ks → Forall (λ k1, bytes_lt k1 k) ks → StronglySorted bytes_lt (ks ++ [k]).
Proof.
  induction ks as [|k1 ks IH]; simpl; [intros _ _; by repeat constructor|].
  intros [Hs Hk]%StronglySorted_inv [Hle Hall]%Forall_cons. constructor; [by apply IH|]. apply Forall_app. by repeat constructor.
Qed.

(** ** Moves *)

Lemma followed_move d0 (told : list Msg.t) l s s' :
  followed d0 told s → move_ok id l → sync_step chan l s = Some s' → followed d0 told s'.
Proof.
  intros [Hr Hf] Hl Hs. destruct (reads_step chan Hchan id l s s' Hr Hl Hs) as (Hr' & Hdb & Hm).
  split; [done|]. intros r' Hg. rewrite Hdb.
  destruct Hm as [[Hn _]|(r & r1 & Hg0 & Hg1 & _ & Hms & Hdue & Hpub & Hseen)]; [congruence|]. simplify_eq.
  destruct (Hf r Hg0) as (ks & Hks & Hst & Hsort & Hle & Hlast & Hnew).
  destruct Hms as [[Hms Hkey]|(k & Hk & Hlek & Hkey & Hms)]; rewrite Hms in Hpub, Hdue, Hseen.
  - exists ks. split; [by rewrite Hpub, app_nil_r|]. split; [done|]. split; [done|]. rewrite Hkey. split; [done|].
    split; [by rewrite Hseen|]. intros k Hk Hold. destruct (Hnew k Hk Hold) as [Hd|?]; [|by right]. left. by destruct (Hdue k Hk Hd) as [?|[_ ?]].
  - destruct Hseen as [Hne Hseen]. rewrite Hkey in Hne, Hseen.
    exists (ks ++ [k]). rewrite Forall_forall in Hle. assert (Forall (λ k1, bytes_lt k1 k) ks) as Hall.
    { apply Forall_forall. intros k1 Hin. destruct Hlast as [->|Heq]; [by apply not_elem_of_nil in Hin|].
      apply bytes_lt_alt. split; [etrans; [by apply Hle|done]|]. intros ->. apply Hne. rewrite Heq.
      apply (anti_symm bytes_le); [done|by apply Hle]. }
    split; [by rewrite Hpub, Hks, fmap_app, <-app_assoc|]. split; [by rewrite Forall_app, Forall_singleton|].
    split; [by apply StronglySorted_snoc|]. split.
    { rewrite Hkey, Forall_app, Forall_singleton. split; [|done]. eapply Forall_impl; [exact Hall|]. intros k1. apply bytes_lt_le. }
    split; [right; congruence|].
    intros k' Hk' Hold. rewrite elem_of_app, list_elem_of_singleton.
    destruct (Hnew k' Hk' Hold) as [Hd|?]; [|tauto]. destruct (Hdue k' Hk' Hd) as [?|[Heq _]]; [by left|].
    right. right. congruence.
Qed.

(** ** Commits *)

Lemma followed_commit d0 (told : list Msg.t) now (entry : option Msg.t) d (r0 : outcome bytes) s s' :
  followed d0 told s → time_ok now → Append (sys_db s) chan now entry = (d, r0) →
  sync_step chan (Commit chan now entry) s = Some s' → newest_or_known (sys_db s) entry → followed d0 told s'.
Proof.
  intros [Hr Hf] Hnow Ha Hs Hord. destruct (reads_commit cid Hcid id s now entry d r0 s' Hr Hnow Ha Hs) as (Hr' & Hdb & Hgs).
  split; [done|]. intros r Hg. rewrite Hgs in Hg. rewrite Hdb. destruct (Hf r Hg) as (ks & Hks & Hst & Hsort & Hle & Hlast & Hnew).
  assert (∀ k, stored_key chan (sys_db s) k → msg_at (sys_db s) false k = msg_at d false k) as Hsame.
  { intros k [Hp Hk]. apply (msg_at_older chan d k false (sys_db s)); [|done..].
    by apply (commit_cases chan Hchan (sys_db s) chan now entry d r0 Hchan Hnow Ha). }
  exists ks. rewrite Forall_forall in Hst. split; [|split; [|split; [done|split; [done|split; [done|]]]]].
  - rewrite Hks. f_equal. apply list_fmap_ext. intros i k Hk%list_elem_of_lookup_2. by apply Hsame, Hst.
  - apply Forall_forall. intros k Hk. eapply stored_key_append; [done|by apply Hst].
  - intros k Hk Hold. apply Append_cases in Ha as [[-> _]|(e & eid & b & -> & Hid & _ & _ & Hnone & Heq)]; [by apply Hnew|].
    destruct Hk as [Hp Hk]. rewrite Heq in Hk. apply lookup_insert_is_Some' in Hk as [<-|Hk].
    { by rewrite (arrivalKey_not_entry chan chan now eid Hchan Hchan Hnow) in Hp. }
    apply lookup_insert_is_Some' in Hk as [<-|Hk]; [|by apply Hnew]. left.
    apply (accepted_due cid id s eid Hr); [|done|done]. intros k' Hk'. by apply (Hord eid).
Qed.

(** ** The network *)

Definition following n d0 (told : list Msg.t) : Prop :=
  ∃ nd, nodes n !! j = Some nd ∧ followed d0 told (n_sys nd).

(** The other vaults do not matter. *)
Lemma following_elsewhere n n' i nd d0 (told : list Msg.t) :
  i ≠ j → nodes n' = <[i := nd]> (nodes n) → following n d0 told → following n' d0 told.
Proof. intros Hne Hn (nd0 & Hj & Hf). exists nd0. by rewrite Hn, lookup_insert_ne. Qed.

Lemma following_here n n' nd d0 (told : list Msg.t) :
  nodes n' = <[j := nd]> (nodes n) → followed d0 told (n_sys nd) → following n' d0 told.
Proof. intros Hn Hf. exists nd. by rewrite Hn, lookup_insert_eq. Qed.

Definition quiet_label n lb : Prop := (nlabel_ok topic n lb ∧ in_order cid n lb) ∧ undisturbed n lb.

Lemma remote_following_step d0 (told : list Msg.t) :
  preserved step quiet_label (λ n, net_ok cid topic n ∧ following n d0 told).
Proof.
  intros lb n n' [Hn Hf] [[Hl Hord] Hund] Hstep. split; [by eapply net_ok_preserved|].
  pose proof Hf as (nd & Hj & Hfd). destruct (proj2 Hn j nd Hj) as (Hdb & _).
  destruct lb as [i now entry|i l|i now from x data]; cbn [net_step] in Hstep;
    (destruct (nodes n !! i) as [ndi|] eqn:Hi; [|done]); cbn [mbind option_bind] in Hstep.
  - destruct (Append _ _ _ _) as [d r] eqn:Ha. destruct (sync_step _ _ _) as [s'|] eqn:Hs; [|done]. injection Hstep as <-.
    destruct (decide (i = j)) as [->|Hne]; [|by eapply following_elsewhere]. rewrite Hj in Hi. injection Hi as <-. rewrite <-Hdb in Ha.
    eapply following_here; [done|]. eapply followed_commit; [exact Hfd|apply Hl|exact Ha|exact Hs|].
    rewrite Hdb. intros eid Hid _ k Hk. by apply (Hord nd eid k).
  - destruct (handlers _ !! topic) as [th|]; [|done]. cbn [mbind option_bind] in Hstep. destruct (is_commit l); [done|].
    destruct (sync_step _ l _) as [s'|] eqn:Hs; [|done]. cbn [mbind option_bind] in Hstep.
    destruct (speak _ _ _) as [[h out]|]; [|done]. injection Hstep as <-.
    destruct (decide (i = j)) as [->|Hne]; [|by eapply following_elsewhere]. rewrite Hj in Hi. injection Hi as <-.
    eapply following_here; [done|]. eapply followed_move; [exact Hfd|by apply Hund|exact Hs].
  - destruct (handlers _ !! topic) as [th|]; [|done]. cbn [mbind option_bind] in Hstep. case_decide; [|done].
    destruct (watchTopic_turn _ _ _ _) as [h [[]|e|]]; [|done..].
    destruct (match incoming data with Some _ => _ | None => _ end) as [s'|] eqn:Hs; [|done]. injection Hstep as <-.
    destruct (decide (i = j)) as [->|Hne]; [|by eapply following_elsewhere]. rewrite Hj in Hi. injection Hi as <-.
    eapply following_here; [done|]. simpl. destruct (incoming data) as [e|] eqn:Hin; [|by injection Hs as <-].
    destruct (Append (sys_db (n_sys nd)) chan now (Some e)) as [d r] eqn:Ha.
    eapply followed_commit; [exact Hfd|exact Hl|exact Ha|exact Hs|]. rewrite Hdb. by apply (Hund eq_refl nd e).
Qed.

(** A key of the channel is that of an authored entry, which [Get] and the
    readers find under it. *)
Lemma stored_authored n i nd k :
  net_ok cid topic n → nodes n !! i = Some nd → stored_key chan (sys_db (n_sys nd)) k →
  ∃ e eid, e ∈ n_authored n ∧ entry_of e eid ∧ k = EntryKey chan eid ∧ msg_at (sys_db (n_sys nd)) false k = canon e.
Proof.
  intros [(Hpe & _) Hn] Hi Hk. destruct (Hn i nd Hi) as (Hdb & _ & Hkeys). rewrite Hdb in Hk |- *.
  destruct (Hpe i _ (abs_node n i nd Hi)) as [_ Hdec].
  destruct (published_entry cid Hcid (n_host nd) k Hkeys) as (eid & Hlen & -> & Hg); [|done|].
  { intros eid v Hlen Hv. destruct (Hdec eid v Hlen Hv) as (e & _ & _ & ?). by exists e. }
  destruct Hk as [_ [v Hv]]. destruct (Hdec eid v Hlen Hv) as (e & He & Hee & Henc).
  rewrite (Get_decodes _ _ v e Hv Henc) in Hg. injection Hg as Hg. by exists e, eid.
Qed.

(** Where the subscriber starts: it has had nothing since. *)
Lemma following_start n0 nd0 r0 :
  net_ok cid topic n0 → nodes n0 !! j = Some nd0 → follows_at (n_sys nd0) r0 →
  following n0 (sys_db (n_sys nd0)) (published r0).
Proof.
  intros [_ Hn] Hj (Hg & Hp & Hres). destruct (Hn j nd0 Hj) as (_ & (Hinv & Hw & _) & _). exists nd0. split; [done|]. split.
  - split; [done|]. split; [done|]. split; [done|]. intros g Hg'. rewrite Hg in Hg'. injection Hg' as <-. by exists r0.
  - intros r Hr. simplify_eq. exists []. rewrite app_nil_r. split_and!; [done|constructor..|by left|]. by intros k Hk [].
Qed.

(** C5: what is written in order at any vault reaches the followers of every
    vault.  Suppose that every entry a client writes has an id and sorts after
    what its vault has of the channel at that moment, that no two different
    entries are accepted under one id ([unique_ids]), that vaults began empty of
    the channel, with a relay handler that listens ([fresh_node]), and that nobody
    cancels or re-opens the subscription of such a handler.  Take a subscriber [id] of vault [j]
    that asked for whole entries and reads from the start of the channel or from
    an entry of it ([follows_at]); from then on nobody cancels it or subscribes
    under its id again, and entries that its vault hears of and does not have
    come in order too, each sorting after what is there ([undisturbed]).  As long
    as it reads, it is told of entries that vaults had accepted from their
    clients, as they were written, in the order of their keys and none of them
    twice; and once all channels have come to rest, the handler of every vault
    still listening ([quiet_net]), and everything published has been heard by all
    ([all_heard]), it has been told of every entry that its vault did not have
    when it began. *)
Theorem entries_reach_remote_followers ns ls0 n0 nd0 r0 ls n nd r :
  map_Forall (λ _, fresh_node cid topic) ns →
  allowed step (λ n lb, nlabel_ok topic n lb ∧ in_order cid n lb) ls0 (net_init ns) → play step ls0 (net_init ns) = Some n0 →
  nodes n0 !! j = Some nd0 → follows_at (n_sys nd0) r0 →
  allowed step quiet_label ls n0 → play step ls n0 = Some n → unique_ids (abs n) →
  nodes n !! j = Some nd → goroutines (n_sys nd) !! id = Some (Reading r) →
  let at_ k := msg_at (db (store (n_host nd))) false k in
  ∃ ks, published r = published r0 ++ (at_ <$> ks) ∧ StronglySorted bytes_lt ks
    ∧ (∀ k, k ∈ ks → ∃ e eid, e ∈ n_authored n ∧ entry_of e eid ∧ k = EntryKey chan eid ∧ at_ k = canon e)
    ∧ (quiet_net topic n → all_heard n → ∀ e eid, e ∈ n_authored n → entry_of e eid →
         stored cid (n_host nd0) eid = None → EntryKey chan eid ∈ ks ∧ at_ (EntryKey chan eid) = canon e).
Proof.
  intros Hns Hls0 Hp0 Hj0 Hat Hls Hp Hu Hj Hr at_.
  pose proof (tracked_all_step cid Hcid topic Marshal_canon) as Htr.
  assert (net_ok cid topic n0 ∧ tracked_all cid topic n0) as Hn0.
  { eapply (play_allowed step _ (λ n, net_ok cid topic n ∧ tracked_all cid topic n)); [exact Htr|exact Hls0| |exact Hp0]. split; [by apply (net_init_ok cid Hcid topic)|].
    by intros e eid ?%not_elem_of_nil. }
  assert ((net_ok cid topic n ∧ tracked_all cid topic n) ∧ following n (sys_db (n_sys nd0)) (published r0))
    as [[Hn Htn] (nd' & Hj' & Hrd & Hf)].
  { eapply (play_allowed step quiet_label (λ n, (net_ok cid topic n ∧ tracked_all cid topic n)
      ∧ following n (sys_db (n_sys nd0)) (published r0))); [|exact Hls| |exact Hp].
    - intros lb m m' [Hm Hfm] Hlb Hs. split; [exact (Htr lb m m' Hm (proj1 Hlb) Hs)|].
      by eapply remote_following_step; [split; [apply Hm|exact Hfm]|..].
    - split; [done|]. by eapply following_start; [apply Hn0|..]. }
  simplify_eq. destruct (Hf r Hr) as (ks & Hks & Hst & Hsort & _ & _ & Hnew). rewrite Forall_forall in Hst.
  destruct (proj2 Hn j nd Hj) as (Hdb & _). subst at_. cbv beta. rewrite <-Hdb. exists ks.
  split; [done|]. split; [done|]. split; [intros k Hk; by eapply stored_authored, Hst|].
  intros Hq Hall e eid He Hee Hnone. destruct (Htn e eid He Hee) as (i & nd1 & Hc).
  destruct (heard_stored cid topic n i eid j nd Hn Hall (quiet_said cid topic n i nd1 eid Hn Hq Hc) Hj) as [v Hv].
  assert (stored_key chan (sys_db (n_sys nd)) (EntryKey chan eid)) as Hk
    by (rewrite Hdb; split; [by apply EntryKey_prefix, Hchan|by eexists]).
  split.
  - destruct (Hnew _ Hk) as [(Hle & Hne & _)|?]; [|exfalso|done].
    { intros [_ [v0 Hv0]]. destruct (proj2 (proj1 Hn0) j nd0 Hj0) as (Hdb0 & _). rewrite Hdb0 in Hv0.
      unfold stored in Hnone. congruence. }
    destruct Hne. by eapply (reads_at_rest chan id); [exact Hrd|apply (Hq j nd Hj)|..].
  - destruct (stored_authored n j nd _ Hn Hj Hk) as (e' & eid' & He' & Hee' & Hkey & Hm). rewrite Hm.
    apply (EntryKey_same cid Hcid) in Hkey as <-; [by apply (Hu e' e eid)|by apply (entry_of_length e)|by apply (entry_of_length e')].
Qed.
End followers.

(* ------------------------------------------------------------------ *)
(** * Witness *)

(** A client follows the channel at the second of two vaults; a client of the
    first one writes. *)
Module RelayFollowerExamples.
Import MemDB RefCodec RefHash RefCrypto RefNet StoreExamples KeyringExamples KeyFileExamples P2PExamples RelayExamples
  RelaySpecExamples.

#[local] Abbreviation rchan := (chan_ (T:=bool) rcid).
#[local] Abbreviation rstep := (net_step (T:=bool) rcid rtopic).

Definition fid : UUID := str "id2".
Definition from_start : StreamOpts := mkStreamOpts (Some []) Tail OptNone.
Definition joins : list (net_label (T:=bool)) :=
  [Moves 0 (Turn rid); Moves 1 (Turn rid); Moves 1 (Subscribed false (Some from_start)); Moves 1 (Begin fid)].
Definition tells : list (net_label (T:=bool)) :=
  [Moves 1 (Turn fid); Writes 0 t0 (Some e0)] ++ told_ 0 ++ [Hears 1 t1 (str "peer") 0 rdata]
  ++ (Moves 1 <$> [Callback 1 [rid; fid]; Notify; Notify; Release; Turn rid; Turn rid; Turn fid; Turn fid])
  ++ [Hears 0 t1 (str "peer") 1 rdata].

(** The conditions on the labels, as checks. *)
Definition arrivesb (d : DB) (e : Msg.t) : bool :=
  match entryID (Some e) with
  | Ok eid => bool_decide (map_Forall (λ k _, has_prefix (prefix rchan) k = true → bytes_le k (EntryKey rchan eid)) (contents d))
  | _ => true
  end.

Definition joinsb (n : network (T:=bool)) (lb : net_label (T:=bool)) : bool :=
  match lb with
  | Moves _ (Subscribed false (Some o)) =>
      bool_decide (sbytes (Seek o) = []) && bool_decide (Max o = Tail)
      && bool_decide (map_Forall (λ _ nd, id_of rtopic (n_host nd) = rid) (nodes n))
  | _ => static_label lb && orderedb n lb
  end.

Definition undisturbedb (n : network (T:=bool)) (lb : net_label (T:=bool)) : bool :=
  match lb with
  | Hears _ _ _ _ data =>
      match incoming data with
      | Some e => bool_decide (map_Forall (λ _ nd, arrivesb (db (store (n_host nd))) e = true) (nodes n))
      | None => true
      end
  | _ => true
  end.

Fixpoint run_checks (check : network (T:=bool) → net_label (T:=bool) → bool) (ls : list (net_label (T:=bool)))
    (n : network (T:=bool)) : bool :=
  match ls with
  | [] => true
  | lb :: ls => check n lb && match rstep lb n with Some n' => run_checks check ls n' | None => true end
  end.

Lemma run_checks_allowed check P ls n :
  (∀ n lb, check n lb = true → P n lb) → run_checks check ls n = true → allowed rstep P ls n.
Proof.
  intros HP. revert n. induction ls as [|lb ls IH]; intros n; [done|]. cbn [run_checks allowed].
  intros [Hc Hr]%andb_true_iff. split; [by apply HP|]. intros n' Hn'. rewrite Hn' in Hr. by apply IH.
Qed.

Lemma ordered_label n lb : static_label lb && orderedb n lb = true → nlabel_ok rtopic n lb ∧ in_order rcid n lb.
Proof. intros [Hs Ho]%andb_true_iff. split; [by apply static_label_ok|by apply orderedb_ok]. Qed.

Lemma joinsb_ok n lb : joinsb n lb = true → nlabel_ok rtopic n lb ∧ in_order rcid n lb.
Proof.
  destruct lb as [i now entry|i l|i now from x data]; [exact (ordered_label n _)| |exact (ordered_label n _)].
  destruct l as [| | | |t o| | | | | | |]; try exact (ordered_label n (Moves i _)).
  destruct t; [exact (ordered_label n _)|]. destruct o as [o|]; [|exact (ordered_label n _)].
  intros [[Hs%bool_decide_eq_true Hm%bool_decide_eq_true]%andb_true_iff Hid%bool_decide_eq_true]%andb_true_iff.
  split; [|exact I]. intros nd Hnd. rewrite (Hid i nd Hnd). split; [discriminate|]. exists o. split; [reflexivity|].
  unfold opts_ok. rewrite Hm. exact Tail_range.
Qed.

Lemma undisturbedb_ok n lb :
  (static_label lb && orderedb n lb) && undisturbedb n lb = true → quiet_label rcid rtopic fid 1 n lb.
Proof.
  intros [Hs Hu]%andb_true_iff. split; [by apply ordered_label|]. apply andb_true_iff in Hs as [Hs _].
  destruct lb as [i now entry|i l|i now from x data]; [exact I| |].
  - intros _. destruct l; try exact I; discriminate Hs.
  - intros -> nd e Hnd Hin eid Hid _ k [Hp [v Hk]]. simpl in Hu. rewrite Hin in Hu.
    apply bool_decide_eq_true in Hu. specialize (Hu 1%nat nd Hnd). unfold arrivesb in Hu. simpl in Hu. rewrite Hid in Hu.
    apply bool_decide_eq_true in Hu. exact (Hu k v Hk Hp).
Qed.

Lemma joins_plays : play rstep joins (net_init pair_) = Some (after_net joins).
Proof. apply net_plays. vm_compute. reflexivity. Qed.

Lemma tells_plays : play rstep tells (after_net joins) = Some (after_net (joins ++ tells)).
Proof. apply (play_rest _ joins _ _ _ _ joins_plays), net_plays. vm_compute. reflexivity. Qed.

Definition reader_of (nd : node (T:=bool)) : option reader :=
  match goroutines (n_sys nd) !! fid with Some (Reading r) => Some r | _ => None end.

Lemma reader_of_Some nd r : reader_of nd = Some r → goroutines (n_sys nd) !! fid = Some (Reading r).
Proof. unfold reader_of. destruct (goroutines _ !! _) as [[o|r0|r0]|]; intros [= <-]; reflexivity. Qed.

Definition at_start (nd : node (T:=bool)) (r : reader) : bool :=
  negb (keysOnly (opts r)) && bool_decide (sbytes (key r) = []) && bool_decide (sbytes (lastSeen r) = [])
  && (if resetting (n_sys nd) is None then true else false).

Lemma at_start_ok nd r : reader_of nd = Some r → at_start nd r = true → follows_at rcid fid (n_sys nd) r.
Proof.
  intros Hr [[[Hk Hs]%andb_true_iff Hl]%andb_true_iff Hn]%andb_true_iff. apply negb_true_iff in Hk.
  apply bool_decide_eq_true in Hs, Hl. split; [exact (reader_of_Some nd r Hr)|].
  split; [split; [exact Hk|]; split; left; [exact Hs|exact Hl]|]. intros o Ho. rewrite Ho in Hn. discriminate Hn.
Qed.

Lemma told_quiet : quiet_net rtopic (after_net (joins ++ tells)).
Proof. apply quietb_net. vm_compute. reflexivity. Qed.

Lemma told_heard : all_heard (after_net (joins ++ tells)).
Proof. apply both_heard; [apply (bool_decide_eq_true_1 _); vm_compute; reflexivity..|vm_compute; reflexivity]. Qed.

Lemma entries_reach_remote_followers_witness :
  ∃ nd r, nodes (after_net (joins ++ tells)) !! 1%nat = Some nd ∧ reader_of nd = Some r ∧ canon e0 ∈ published r.
Proof.
  destruct (some_of_bool (nd ← nodes (after_net joins) !! 1%nat; r ← reader_of nd;
    if at_start nd r && bool_decide (stored rcid (n_host nd) (fit 30 id0) = None) then Some (nd, r) else None))
    as [[nd0 r0] H0]; [vm_compute; reflexivity|].
  apply bind_Some in H0 as (nd0' & Hnd0 & (r0' & Hr0 & Hat)%bind_Some).
  destruct (at_start nd0' r0' && _) eqn:Hb; [|discriminate Hat]. injection Hat as -> ->.
  apply andb_true_iff in Hb as [Hat Hnone]. apply bool_decide_eq_true in Hnone.
  destruct (some_of_bool (nd ← nodes (after_net (joins ++ tells)) !! 1%nat; r ← reader_of nd; Some (nd, r)))
    as [[nd r] Hr]; [vm_compute; reflexivity|].
  apply bind_Some in Hr as (nd' & Hnd & (r' & Hr & [= -> ->])%bind_Some).
  destruct (entries_reach_remote_followers rcid rcid_length rtopic codec_canon fid 1%nat pair_ joins (after_net joins) nd0 r0
    tells (after_net (joins ++ tells)) nd r pair_fresh) as (ks & Hpub & _ & _ & Hev);
    [apply (run_checks_allowed joinsb _ _ _ joinsb_ok); vm_compute; reflexivity|exact joins_plays|exact Hnd0
    |exact (at_start_ok nd0 r0 Hr0 Hat)
    |apply (run_checks_allowed _ _ _ _ undisturbedb_ok); vm_compute; reflexivity|exact tells_plays
    |apply one_author; vm_compute; reflexivity|exact Hnd|exact (reader_of_Some nd r Hr)|].
  exists nd, r. split; [exact Hnd|]. split; [exact Hr|].
  destruct (Hev told_quiet told_heard e0 (fit 30 id0)) as [Hin Hm]; [| |exact Hnone|].
  - assert (n_authored (after_net (joins ++ tells)) = [e0]) as -> by (vm_compute; reflexivity). left.
  - exists id0, rdata. split; [exact e0_entry|]. split; [discriminate|]. split; [reflexivity|exact e0_marshals].
  - rewrite Hpub. apply elem_of_app. right. apply list_elem_of_fmap. exists (EntryKey rchan (fit 30 id0)).
    split; [symmetry; exact Hm|exact Hin].
Defined.
End RelayFollowerExamples.
