(* ===== verification/Config.v ===== *)
(** config/config.go, and the configuration records of store/config.go,
    server/config.go, p2p/config.go and metrics/config.go: where a vault's
    configuration comes from, what [-print] writes, and what each service is
    handed.

    [World] is what the code sees of the process: the flags, the files, the
    environment.  A function of this file returns, or ends the process:
    [log.Fatalf] is [Fatal], [os.Exit(0)] after printing is [Exit], a panic is
    [Crash]. *)
From S2P Require Import Prelude Protos Json GoJson.

(* ------------------------------------------------------------------ *)
(** * The process *)

Inductive prog (A : Type) :=
  | Returns (a : A)
  | Exit (stdout : bytes)
  | Fatal (msg : gostring)
  | Crash.
Arguments Returns {_} _. Arguments Exit {_} _. Arguments Fatal {_} _. Arguments Crash {_}.

#[global] Instance prog_ret : MRet prog := @Returns.
#[global] Instance prog_bind : MBind prog := λ A B f m,
  match m with Returns a => f a | Exit out => Exit out | Fatal msg => Fatal msg | Crash => Crash end.

(** An error of the file system: [os.IsNotExist] or not. *)
Inductive fs_error := ErrNotExist | ErrOther.
Definition IsNotExist (e : fs_error) : bool := match e with ErrNotExist => true | ErrOther => false end.

(** [Stdout_Mode] is [None] when [os.Stdout.Stat] fails; [UserConfigDir] is
    [None] when it fails. *)
Record World := mkWorld {
  flagConfigPath : gostring;
  flagLogLevel : gostring;
  flagDataDir : gostring;
  flagKeyringDir : gostring;
  flagPrintConfig : bool;
  Stat : gostring → option fs_error;
  ReadFile : gostring → fs_error + bytes;
  UserConfigDir : option gostring;
  Stdout_Mode : option Z;
}.

Definition defaultEtcDir : gostring := str "/etc/plan-vault".
Definition defaultDataDir : gostring := str "/var/run/plan-vault".

(** [init], of a process started without flags. *)
Definition init (Stat : gostring → option fs_error) (ReadFile : gostring → fs_error + bytes)
    (UserConfigDir : option gostring) (Stdout_Mode : option Z) : World :=
  mkWorld [] (str "debug") defaultDataDir defaultEtcDir false Stat ReadFile UserConfigDir Stdout_Mode.

(** [homedir.Expand] and the log levels of apex/log are not code of this
    repository. *)
Class Libraries := {
  Expand : gostring → option gostring;
  known_level : gostring → bool;
}.

(** ** [filepath] *)

Fixpoint split_slash (s : bytes) : list bytes :=
  match s with
  | [] => [[]]
  | x2f :: r => [] :: split_slash r
  | b :: r => match split_slash r with c :: cs => (b :: c) :: cs | [] => [[b]] end
  end.

Definition join_slash (cs : list bytes) : bytes :=
  match cs with [] => [] | c :: cs => c ++ concat ((λ c, x2f :: c) <$> cs) end.

Definition dot : bytes := [x2e].
Definition dotdot : bytes := [x2e; x2e].

(** One element of a path: [acc] is the part before it, last element first. *)
Definition clean_step (rooted : bool) (acc : list bytes) (c : bytes) : list bytes :=
  if bool_decide (c = [] ∨ c = dot) then acc
  else if bool_decide (c = dotdot) then
    match acc with
    | top :: acc' => if bool_decide (top = dotdot) then c :: acc else acc'
    | [] => if rooted then acc else [c]
    end
  else c :: acc.

Definition Clean (path : bytes) : bytes :=
  let rooted := match path with x2f :: _ => true | _ => false end in
  let out := join_slash (rev (foldl (clean_step rooted) [] (split_slash path))) in
  if rooted then x2f :: out
  else match out with [] => dot | _ => out end.

(** Empty elements at the front are dropped. *)
Fixpoint filepath_Join (elems : list bytes) : bytes :=
  match elems with
  | [] => []
  | [] :: es => filepath_Join es
  | es => Clean (join_slash es)
  end.

(* ------------------------------------------------------------------ *)
(** * The configuration file *)

Record storeConfig := mkStoreConfig { sc_DataDir : gostring }.

Record grpcConfig := mkGrpcConfig {
  gc_BindAddr : gostring;
  gc_Port : Z;
  gc_Insecure : bool;
  gc_TLSCert : gostring;
  gc_TLSKey : gostring;
}.

Record p2pConfig := mkP2pConfig {
  pc_MDNS : bool;
  pc_URI : gostring;
  pc_TCPAddr : gostring;
  pc_TCPPort : Z;
  pc_QUICAddr : gostring;
  pc_QUICPort : Z;
}.

Record metricsConfig := mkMetricsConfig {
  mc_LogLevel : gostring;
  mc_LogFormat : gostring;
  mc_DebugAddr : gostring;
  mc_DebugPort : Z;
  mc_DisableDebug : bool;
}.

Record configSource := mkConfigSource {
  cs_KeyDir : gostring;
  cs_Store : option storeConfig;
  cs_Server : option grpcConfig;
  cs_P2P : option p2pConfig;
  cs_Metrics : option metricsConfig;
}.

(** ** The tags *)

Definition storeConfig_fields : list (field storeConfig) :=
  [mk_field "data_dir" sc_DataDir (λ v c, mkStoreConfig v)].

#[global] Instance storeConfig_json : GoJson storeConfig :=
  struct_json storeConfig_fields (mkStoreConfig []).

Definition grpcConfig_fields : list (field grpcConfig) :=
  [mk_field "addr" gc_BindAddr (λ v '(mkGrpcConfig _ p i c k), mkGrpcConfig v p i c k);
   mk_field "port" gc_Port (λ v '(mkGrpcConfig a _ i c k), mkGrpcConfig a v i c k);
   mk_field "insecure" gc_Insecure (λ v '(mkGrpcConfig a p _ c k), mkGrpcConfig a p v c k);
   mk_field "tls_cert_file" gc_TLSCert (λ v '(mkGrpcConfig a p i _ k), mkGrpcConfig a p i v k);
   mk_field "tls_key_file" gc_TLSKey (λ v '(mkGrpcConfig a p i c _), mkGrpcConfig a p i c v)].

#[global] Instance grpcConfig_json : GoJson grpcConfig :=
  struct_json grpcConfig_fields (mkGrpcConfig [] 0 false [] []).

Definition p2pConfig_fields : list (field p2pConfig) :=
  [mk_field "mdns" pc_MDNS (λ v '(mkP2pConfig _ u a p q r), mkP2pConfig v u a p q r);
   mk_field "channel" pc_URI (λ v '(mkP2pConfig m _ a p q r), mkP2pConfig m v a p q r);
   mk_field "tcp_addr" pc_TCPAddr (λ v '(mkP2pConfig m u _ p q r), mkP2pConfig m u v p q r);
   mk_field "tcp_port" pc_TCPPort (λ v '(mkP2pConfig m u a _ q r), mkP2pConfig m u a v q r);
   mk_field "quic_addr" pc_QUICAddr (λ v '(mkP2pConfig m u a p _ r), mkP2pConfig m u a p v r);
   mk_field "quic_port" pc_QUICPort (λ v '(mkP2pConfig m u a p q _), mkP2pConfig m u a p q v)].

#[global] Instance p2pConfig_json : GoJson p2pConfig :=
  struct_json p2pConfig_fields (mkP2pConfig false [] [] 0 [] 0).

Definition metricsConfig_fields : list (field metricsConfig) :=
  [mk_field "log_level" mc_LogLevel (λ v '(mkMetricsConfig _ f a p d), mkMetricsConfig v f a p d);
   mk_field "log_format" mc_LogFormat (λ v '(mkMetricsConfig l _ a p d), mkMetricsConfig l v a p d);
   mk_field "addr" mc_DebugAddr (λ v '(mkMetricsConfig l f _ p d), mkMetricsConfig l f v p d);
   mk_field "port" mc_DebugPort (λ v '(mkMetricsConfig l f a _ d), mkMetricsConfig l f a v d);
   mk_field "disable" mc_DisableDebug (λ v '(mkMetricsConfig l f a p _), mkMetricsConfig l f a p v)].

#[global] Instance metricsConfig_json : GoJson metricsConfig :=
  struct_json metricsConfig_fields (mkMetricsConfig [] [] [] 0 false).

Definition configSource_fields : list (field configSource) :=
  [mk_field "keyring_dir" cs_KeyDir (λ v '(mkConfigSource _ s g p m), mkConfigSource v s g p m);
   mk_field "store" cs_Store (λ v '(mkConfigSource k _ g p m), mkConfigSource k v g p m);
   mk_field "server" cs_Server (λ v '(mkConfigSource k s _ p m), mkConfigSource k s v p m);
   mk_field "p2p" cs_P2P (λ v '(mkConfigSource k s g _ m), mkConfigSource k s g v m);
   mk_field "debug" cs_Metrics (λ v '(mkConfigSource k s g p _), mkConfigSource k s g p v)].

#[global] Instance configSource_json : GoJson configSource :=
  struct_json configSource_fields (mkConfigSource [] None None None None).

(* ------------------------------------------------------------------ *)
(** * What each service is handed *)

(** [store.Config]; [Options] is badger's, of which the code sets the
    directory. *)
Record StoreConfig := mkStore_Config {
  s_DataDir : gostring;
  s_DB : option gostring;
  s_HasDiscovery : bool;
}.

Record ServerConfig := mkServer_Config {
  Addr : gostring;
  Port : Z;
  Insecure : bool;
  TLSCertPath : gostring;
  TLSKeyPath : gostring;
}.

Record P2PConfig := mkP2P_Config {
  MDNS : bool;
  URI : gostring;
  TCPAddr : gostring;
  TCPPort : Z;
  QUICAddr : gostring;
  QUICPort : Z;
  KeyFile : gostring;
}.

Record MetricsConfig := mkMetrics_Config {
  LogLevel : gostring;
  LogFormat : gostring;
  DebugAddr : gostring;
  DebugPort : Z;
  DisableDebug : bool;
}.

Record Config := mkConfig {
  c_ServerConfig : ServerConfig;
  c_StoreConfig : StoreConfig;
  c_P2PConfig : P2PConfig;
  c_Metrics : MetricsConfig;
}.

(** The package state of apex/log. *)
Inductive handler := CliHandler | JsonHandler | TextHandler.
Record logger := mkLogger { log_level : gostring; log_handler : handler }.

Definition handler_of (format : gostring) : handler :=
  if bool_decide (format = str "cli") then CliHandler
  else if bool_decide (format = str "json") then JsonHandler
  else TextHandler.

(** [badger.DefaultOptions(cfg.DataDir)] *)
Definition StoreConfig_Init (cfg : StoreConfig) : StoreConfig :=
  mkStore_Config (s_DataDir cfg) (Some (s_DataDir cfg)) (s_HasDiscovery cfg).

Definition ServerConfig_Init (cfg : ServerConfig) : ServerConfig := cfg.
Definition P2PConfig_Init (cfg : P2PConfig) : P2PConfig := cfg.

Definition MetricsConfig_Init (cfg : MetricsConfig) (l : logger) : logger :=
  mkLogger (log_level l) (handler_of (LogFormat cfg)).

Definition Store_DevConfig : StoreConfig := mkStore_Config (str "/tmp/db") (Some (str "/tmp/db")) false.

Definition Server_DevConfig : ServerConfig :=
  mkServer_Config (str "127.0.0.1") Const_DefaultGrpcServicePort true
    (filepath_Join [str "/tmp"; str "vault_cert.pem"]) (filepath_Join [str "/tmp"; str "vault_key.pem"]).

Definition P2P_DevConfig : P2PConfig :=
  mkP2P_Config true (str "/DISCOVERY") (str "127.0.0.1") 9051 (str "127.0.0.1") 9051 (str "/tmp/vault.key").

(* ------------------------------------------------------------------ *)
(** * Where it comes from *)

Section config.
Context `{Libraries}.

(** A nil [fileInfo] when [Stat] fails: calling its [Mode] panics. *)
Definition ModeCharDevice : Z := 2 ^ 21.
Definition isTTY (w : World) : prog bool :=
  match Stdout_Mode w with
  | Some mode => Returns (negb (Z.land mode ModeCharDevice =? 0))
  | None => Crash
  end.

Definition or_fatal {A} (msg : gostring) (o : option A) : prog A :=
  match o with Some a => Returns a | None => Fatal msg end.

(** The expanded directories are locals, the flags keep their value. *)
Definition defaultConfigSrc (w : World) : prog configSource :=
  keyringDir ← or_fatal (str "could not parse keyring_dir path") (Expand (flagKeyringDir w));
  dataDir ← or_fatal (str "could not parse data_dir path") (Expand (flagDataDir w));
  let src format :=
    mkConfigSource keyringDir
      (Some (mkStoreConfig dataDir))
      (Some (mkGrpcConfig (str "127.0.0.1") (to_i64 Const_DefaultGrpcServicePort) false
               (filepath_Join [keyringDir; str "vault_cert.pem"])
               (filepath_Join [keyringDir; str "vault_key.pem"])))
      (Some (mkP2pConfig true (str "/DISCOVERY") (str "127.0.0.1") 9051 (str "127.0.0.1") 9051))
      (Some (mkMetricsConfig (flagLogLevel w) format (str "127.0.0.1") 9052 false)) in
  tty ← isTTY w;
  Returns (src (if tty : bool then str "cli" else str "text")).

(** The file at [path] if there is one; an error other than its absence is
    fatal. *)
Definition try_path (w : World) (path : gostring) : prog (option gostring) :=
  match Stat w path with
  | None => Returns (Some path)
  | Some e => if IsNotExist e then Returns None else Fatal (str "could not read config file")
  end.

Definition configFilePath (w : World) : prog gostring :=
  path ← or_fatal (str "could not parse config file path") (Expand (flagConfigPath w));
  if bool_decide (path ≠ []) then
    match Stat w path with
    | Some _ => Fatal (str "could not read config file")
    | None => Returns path
    end
  else
    user ← match UserConfigDir w with
           | Some userDir => try_path w (filepath_Join [userDir; str "plan-vault"; str "vault.json"])
           | None => Returns None
           end;
    match user with
    | Some path => Returns path
    | None =>
        etc ← try_path w (filepath_Join [defaultEtcDir; str "vault.json"]);
        Returns (default [] etc)
    end.

(** A file that has gone since [Stat] is read as no bytes, which do not
    decode. *)
Definition read_config (w : World) (path : gostring) (cfg : configSource) : prog configSource :=
  cfgData ← match ReadFile w path with
            | inr data => Returns data
            | inl e => if IsNotExist e then Returns [] else Fatal (str "could not read config file")
            end;
  or_fatal (str "could not decode configuration file") (Unmarshal cfgData cfg).

(** What [Print] writes: the indented JSON and the newline of [Println]. *)
Definition Print_ (src : configSource) : bytes := MarshalIndent src ++ [x0a].

(** The first half of [newConfigSource]: defaults, then the file. *)
Definition load (w : World) : prog configSource :=
  cfg ← defaultConfigSrc w;
  path ← configFilePath w;
  if bool_decide (path ≠ []) then read_config w path cfg else Returns cfg.

Definition newConfigSource (w : World) : prog configSource :=
  cfg ← load w;
  if flagPrintConfig w then Exit (Print_ cfg) else Returns cfg.

(** A dereference of a nil section. *)
Definition deref {A} (p : option A) : prog A :=
  match p with Some a => Returns a | None => Crash end.

(** [log.SetLevelFromString] panics when there is no such level. *)
Definition SetLevelFromString (l : logger) (level : gostring) : prog logger :=
  if known_level level then Returns (mkLogger level (log_handler l)) else Crash.

Definition NewConfig (w : World) (l : logger) : prog (Config * logger) :=
  src ← newConfigSource w;
  metrics ← deref (cs_Metrics src);
  l ← SetLevelFromString l (mc_LogLevel metrics);
  let l := mkLogger (log_level l) (handler_of (mc_LogFormat metrics)) in
  store ← deref (cs_Store src);
  p2p ← deref (cs_P2P src);
  server ← deref (cs_Server src);
  let sc := mkStore_Config (sc_DataDir store) None (bool_decide (pc_URI p2p ≠ [])) in
  let vc := mkServer_Config (gc_BindAddr server) (gc_Port server) (gc_Insecure server)
              (gc_TLSCert server) (gc_TLSKey server) in
  let pc := mkP2P_Config (pc_MDNS p2p) (pc_URI p2p) (pc_TCPAddr p2p) (pc_TCPPort p2p)
              (pc_QUICAddr p2p) (pc_QUICPort p2p) (filepath_Join [cs_KeyDir src; str "vault.key"]) in
  let mc := mkMetrics_Config (mc_LogLevel metrics) (mc_LogFormat metrics) (mc_DebugAddr metrics)
              (mc_DebugPort metrics) (mc_DisableDebug metrics) in
  Returns (mkConfig (ServerConfig_Init vc) (StoreConfig_Init sc) (P2PConfig_Init pc) mc,
           MetricsConfig_Init mc l).
End config.

(* ------------------------------------------------------------------ *)
(** * What JSON can carry *)

Definition storeConfig_ok (c : storeConfig) : bool := valid_utf8 (sc_DataDir c).
Definition grpcConfig_ok (c : grpcConfig) : bool :=
  valid_utf8 (gc_BindAddr c) && int_ok (gc_Port c) && valid_utf8 (gc_TLSCert c) && valid_utf8 (gc_TLSKey c).
Definition p2pConfig_ok (c : p2pConfig) : bool :=
  valid_utf8 (pc_URI c) && valid_utf8 (pc_TCPAddr c) && int_ok (pc_TCPPort c) &&
  valid_utf8 (pc_QUICAddr c) && int_ok (pc_QUICPort c).
Definition metricsConfig_ok (c : metricsConfig) : bool :=
  valid_utf8 (mc_LogLevel c) && valid_utf8 (mc_LogFormat c) && valid_utf8 (mc_DebugAddr c) && int_ok (mc_DebugPort c).

Definition configSource_ok (c : configSource) : bool :=
  valid_utf8 (cs_KeyDir c) && pointer_ok storeConfig_ok (cs_Store c) && pointer_ok grpcConfig_ok (cs_Server c) &&
  pointer_ok p2pConfig_ok (cs_P2P c) && pointer_ok metricsConfig_ok (cs_Metrics c).

Ltac names_differ := by apply (bool_decide_eq_true_1 _); vm_compute.

(** A structure by the laws of its fields; [fs] and [ok] are its table and its
    predicate. *)
Ltac struct_by fs ok :=
  apply struct_laws;
  [ names_differ
  | by vm_compute
  | intros a old Ha; unfold ok in Ha; repeat rewrite andb_true_iff in Ha; destruct_and?;
    unfold fs; cbn [foldr];
    repeat (first [rewrite (read_field (A:=bool)) by done | erewrite read_field by eassumption];
            cbn [mbind option_bind]);
    by destruct a, old
  | intros a Ha; unfold ok in Ha; repeat rewrite andb_true_iff in Ha; destruct_and?;
    unfold fs; cbn [forallb]; rewrite !andb_true_iff;
    repeat split; try (eapply print_field; first [eassumption|done])
  | intros a; unfold fs; repeat (constructor; [eapply Nat.le_trans; [eapply height_field|lia]|]); constructor ].

#[global] Instance storeConfig_laws : GoJsonLaws storeConfig storeConfig_ok 1.
Proof. struct_by storeConfig_fields storeConfig_ok. Qed.

#[global] Instance grpcConfig_laws : GoJsonLaws grpcConfig grpcConfig_ok 1.
Proof. struct_by grpcConfig_fields grpcConfig_ok. Qed.

#[global] Instance p2pConfig_laws : GoJsonLaws p2pConfig p2pConfig_ok 1.
Proof. struct_by p2pConfig_fields p2pConfig_ok. Qed.

#[global] Instance metricsConfig_laws : GoJsonLaws metricsConfig metricsConfig_ok 1.
Proof. struct_by metricsConfig_fields metricsConfig_ok. Qed.

#[global] Instance storeConfig_pointer_laws : GoJsonLaws (option storeConfig) (pointer_ok storeConfig_ok) 1.
Proof. by apply pointer_laws. Qed.
#[global] Instance grpcConfig_pointer_laws : GoJsonLaws (option grpcConfig) (pointer_ok grpcConfig_ok) 1.
Proof. by apply pointer_laws. Qed.
#[global] Instance p2pConfig_pointer_laws : GoJsonLaws (option p2pConfig) (pointer_ok p2pConfig_ok) 1.
Proof. by apply pointer_laws. Qed.
#[global] Instance metricsConfig_pointer_laws : GoJsonLaws (option metricsConfig) (pointer_ok metricsConfig_ok) 1.
Proof. by apply pointer_laws. Qed.

#[global] Instance configSource_laws : GoJsonLaws configSource configSource_ok 2.
Proof. struct_by configSource_fields configSource_ok. Qed.

(* ------------------------------------------------------------------ *)
(** * Theorems *)

(** The same process without, with [-print]. *)
Definition printing (b : bool) (w : World) : World :=
  mkWorld (flagConfigPath w) (flagLogLevel w) (flagDataDir w) (flagKeyringDir w) b
    (Stat w) (ReadFile w) (UserConfigDir w) (Stdout_Mode w).

(** The file a process reads its configuration from, and what is in it. *)
Definition config_file (w : World) `{Libraries} (data : bytes) : Prop :=
  ∃ path, configFilePath w = Returns path ∧ path ≠ [] ∧ ReadFile w path = inr data.

(** Some member of the file is for the field [name]. *)
Definition mentions {S} (fs : list (field S)) (kvs : list (bytes * json)) (name : string) : Prop :=
  ∃ kv, kv ∈ kvs ∧ f_name <$> find_field fs kv.1 = Some (str name).

Section theorems.
Context `{Libraries}.

Lemma load_file w data base :
  config_file w data → defaultConfigSrc w = Returns base →
  load w = or_fatal (str "could not decode configuration file") (Unmarshal data base).
Proof.
  intros (path & Hpath & Hne & Hread) Hbase. unfold load. rewrite Hbase. cbn.
  rewrite Hpath. cbn. rewrite bool_decide_true by done. unfold read_config. by rewrite Hread.
Qed.

Lemma newConfigSource_returns w src :
  newConfigSource w = Returns src → load w = Returns src ∧ flagPrintConfig w = false.
Proof. unfold newConfigSource. destruct (load w), (flagPrintConfig w); cbn; naive_solver. Qed.

Lemma load_printing b w : load (printing b w) = load w.
Proof. done. Qed.

(** C31: what [vault -print] writes is a configuration file: a vault that
    reads it is configured as the one that printed it, whatever its own
    flags, terminal and defaults are, provided that the strings of the
    configuration are UTF-8 and its numbers within their Go types
    ([configSource_ok]; other bytes [encoding/json] replaces). *)
Theorem printed_config_roundtrip w src w' base out :
  newConfigSource (printing false w) = Returns src →
  configSource_ok src = true →
  newConfigSource (printing true w) = Exit out →
  flagPrintConfig w' = false →
  config_file w' out →
  defaultConfigSrc w' = Returns base →
  newConfigSource w' = Returns src.
Proof.
  intros [Hsrc _]%newConfigSource_returns Hok Hout Hp Hfile Hbase. rewrite load_printing in Hsrc.
  unfold newConfigSource in *. rewrite load_printing, Hsrc in Hout.
  change (@Exit configSource (Print_ src) = Exit out) in Hout. injection Hout as <-.
  rewrite (load_file w' _ base) by done. unfold Print_. rewrite Unmarshal_MarshalIndent by done.
  cbn. by rewrite Hp.
Qed.

Lemma NewConfig_returns w l cfg l' :
  NewConfig w l = Returns (cfg, l') →
  ∃ src s g p m, newConfigSource w = Returns src ∧
    src = mkConfigSource (cs_KeyDir src) (Some s) (Some g) (Some p) (Some m) ∧
    known_level (mc_LogLevel m) = true ∧
    URI (c_P2PConfig cfg) = pc_URI p ∧
    KeyFile (c_P2PConfig cfg) = filepath_Join [cs_KeyDir src; str "vault.key"] ∧
    TLSCertPath (c_ServerConfig cfg) = gc_TLSCert g ∧ TLSKeyPath (c_ServerConfig cfg) = gc_TLSKey g ∧
    s_DB (c_StoreConfig cfg) = Some (sc_DataDir s) ∧
    s_HasDiscovery (c_StoreConfig cfg) = bool_decide (URI (c_P2PConfig cfg) ≠ []) ∧
    l' = mkLogger (mc_LogLevel m) (handler_of (mc_LogFormat m)).
Proof.
  unfold NewConfig. destruct (newConfigSource w) as [[k [s|] [g|] [p|] [m|]]| | |]; cbn; try done;
    unfold SetLevelFromString; destruct (known_level (mc_LogLevel m)) eqn:Hl; cbn; try done.
  intros [= <- <-]. exists (mkConfigSource k (Some s) (Some g) (Some p) (Some m)), s, g, p, m. done.
Qed.

(** A section that the configuration file sets to [null] is not left at
    its defaults: the vault panics when it builds its configuration. *)
Lemma null_section_crashes w l src data kvs key name :
  newConfigSource w = Returns src →
  config_file w data →
  parse data = Some (JObj (kvs ++ [(key, JNull)])) →
  f_name <$> find_field configSource_fields key = Some name →
  name ≠ str "keyring_dir" →
  NewConfig w l = Crash.
Proof.
  intros Hsrc Hfile Hparse Hkey Hname.
  pose proof (newConfigSource_returns _ _ Hsrc) as [Hload Hp].
  destruct (defaultConfigSrc w) as [base| | |] eqn:Hbase; [|by unfold load in Hload; rewrite Hbase in Hload..].
  rewrite (load_file w data base) in Hload by done. unfold Unmarshal in Hload. rewrite Hparse in Hload.
  cbn [mbind option_bind unmarshal configSource_json struct_json] in Hload.
  rewrite read_members_app in Hload.
  destruct (read_members configSource_fields kvs base) as [[k s g p m]|]; [|done].
  cbn [mbind option_bind read_members] in Hload. unfold read_member in Hload. cbn [fst snd] in Hload.
  destruct (find_field configSource_fields key) as [f|] eqn:Hf; [|done]. cbn in Hkey. injection Hkey as <-.
  apply find_field_elem in Hf. unfold configSource_fields in Hf. rewrite !elem_of_cons, elem_of_nil in Hf.
  unfold NewConfig. rewrite Hsrc.
  destruct Hf as [-> |[-> |[-> |[-> |[-> |[]]]]]]; [done|..]; cbn in Hload; injection Hload as <-;
    destruct s, g, p, m; cbn; try done; unfold SetLevelFromString; by case_match.
Qed.

Lemma default_certificate w base dir :
  defaultConfigSrc w = Returns base → Expand (flagKeyringDir w) = Some dir →
  ∃ g, cs_Server base = Some g ∧ gc_TLSCert g = filepath_Join [dir; str "vault_cert.pem"].
Proof.
  unfold defaultConfigSrc. intros Hb Hdir. rewrite Hdir in Hb. cbn in Hb.
  destruct (Expand (flagDataDir w)); [|done]. cbn in Hb. destruct (isTTY w); [|done..]. cbn in Hb.
  injection Hb as <-. by eexists.
Qed.

(** A file that does not name the certificate leaves it alone. *)
Lemma read_members_certificate kvs base src g :
  (∀ kv, kv ∈ kvs → f_name <$> find_field configSource_fields kv.1 = Some (str "server") →
    ∃ sub, kv.2 = JObj sub ∧ ¬ mentions grpcConfig_fields sub "tls_cert_file") →
  cs_Server base = Some g →
  read_members configSource_fields kvs base = Some src →
  ∃ g', cs_Server src = Some g' ∧ gc_TLSCert g' = gc_TLSCert g.
Proof.
  intros Hserver Hg. 
  apply (read_members_ind _ (λ c, ∃ g', cs_Server c = Some g' ∧ gc_TLSCert g' = gc_TLSCert g)); [|by exists g].
  intros kv f s1 s2 Hkv Hf (g1 & Hg1 & Hc1) Hread. specialize (Hserver kv Hkv). rewrite Hf in Hserver.
  apply find_field_elem in Hf. unfold configSource_fields in Hf. rewrite !elem_of_cons, elem_of_nil in Hf.
  destruct s1 as [k s ? p m]. cbn in Hg1. subst. destruct Hf as [-> |[-> |[-> |[-> |[-> |[]]]]]].
  1,2,4,5: cbn in Hread; destruct (kv.2); cbn in Hread; simplify_option_eq; by exists g1.
  destruct Hserver as (sub & Hsub & Hno); [done|]. rewrite Hsub in Hread. cbn in Hread.
  destruct (read_members grpcConfig_fields sub g1) as [g2|] eqn:Hr; [|done]. cbn in Hread. injection Hread as <-.
  exists g2. split; [done|]. revert Hr. rewrite <-Hc1.
  apply (read_members_ind _ (λ g2, gc_TLSCert g2 = gc_TLSCert g1)); [|done].
  intros kv' f' s1 s2 Hkv' Hf' <- Hread. assert (f_name f' ≠ str "tls_cert_file") as Hne.
  { intros Hn. apply Hno. exists kv'. rewrite Hf'. cbn. by rewrite Hn. }
  apply find_field_elem in Hf'. unfold grpcConfig_fields in Hf'. rewrite !elem_of_cons, elem_of_nil in Hf'.
  destruct s1. destruct Hf' as [-> |[-> |[-> |[-> |[-> |[]]]]]]; [| | |done|];
    cbn in Hread; destruct (kv'.2); cbn in Hread; simplify_option_eq; done.
Qed.

(** The identity key follows [keyring_dir] of the configuration file,
    the TLS certificate does not: unless the file names [tls_cert_file] it
    stays in the directory of the [-keyring_dir] flag. *)
Lemma certificate_stays_with_flag w l cfg l' data kvs dir :
  NewConfig w l = Returns (cfg, l') →
  Expand (flagKeyringDir w) = Some dir →
  config_file w data →
  parse data = Some (JObj kvs) →
  (∀ kv, kv ∈ kvs → f_name <$> find_field configSource_fields kv.1 = Some (str "server") →
    ∃ sub, kv.2 = JObj sub ∧ ¬ mentions grpcConfig_fields sub "tls_cert_file") →
  TLSCertPath (c_ServerConfig cfg) = filepath_Join [dir; str "vault_cert.pem"] ∧
  ∀ pre key d, kvs = pre ++ [(key, JStr d)] →
    f_name <$> find_field configSource_fields key = Some (str "keyring_dir") →
    KeyFile (c_P2PConfig cfg) = filepath_Join [d; str "vault.key"].
Proof.
  intros Hcfg Hdir Hfile Hparse Hserver.
  apply NewConfig_returns in Hcfg as (src & s & g & p & m & Hsrc & Heq & _ & _ & Hkf & Hcert & _).
  apply newConfigSource_returns in Hsrc as [Hload _].
  destruct (defaultConfigSrc w) as [base| | |] eqn:Hbase; [|by unfold load in Hload; rewrite Hbase in Hload..].
  rewrite (load_file w data base) in Hload by done. unfold Unmarshal in Hload. rewrite Hparse in Hload.
  destruct (read_members configSource_fields kvs base) as [src'|] eqn:Hr;
    unfold unmarshal, configSource_json in Hload; cbn in Hload; rewrite Hr in Hload; [|done].
  cbn in Hload. injection Hload as ->. split.
  - destruct (default_certificate w base dir Hbase Hdir) as (g0 & Hg0 & Hc0).
    destruct (read_members_certificate kvs base src g0) as (g' & Hg' & Hc'); [done..|].
    rewrite Heq in Hg'. cbn in Hg'. simplify_eq. congruence.
  - intros pre key d -> Hkey. rewrite Hkf. do 2 f_equal.
    rewrite read_members_app in Hr. destruct (read_members configSource_fields pre base) as [src0|]; [|done].
    cbn in Hr. unfold read_member in Hr. cbn in Hr.
    destruct (find_field configSource_fields key) as [f|] eqn:Hf; [|done]. cbn in Hkey, Hr.
    apply find_field_elem in Hf. unfold configSource_fields in Hf. rewrite !elem_of_cons, elem_of_nil in Hf.
    destruct Hf as [-> |[-> |[-> |[-> |[-> |[]]]]]]; try done. destruct src0. cbn in Hr. by injection Hr as <-.
Qed.
End theorems.

(* ------------------------------------------------------------------ *)
(** * Examples *)

Module ConfigExamples.
(** A home directory, and apex/log's levels. *)
#[export] Instance RefLibraries : Libraries := {
  Expand p := match p with x7e :: r => Some (str "/home/vault" ++ r) | _ => Some p end;
  known_level l := bool_decide (l ∈ (str <$> ["debug"; "info"; "warn"; "warning"; "error"; "fatal"]%string));
}.

(** A process started with [-keyring_dir ~/etc] and the file [data], if any,
    as [-config]. *)
Definition started (data : option bytes) (print : bool) : World :=
  mkWorld (if data is Some _ then str "/vault.json" else []) (str "info") defaultDataDir (str "~/etc") print
    (λ p, if data is Some _ then
            if bool_decide (p = str "/vault.json") then None else Some ErrNotExist
          else Some ErrNotExist)
    (λ p, match data with Some d => inr d | None => inl ErrNotExist end)
    (Some (str "/home/vault/.config")) (Some 0).

Definition returned {A} (a : A) (p : prog A) : A := match p with Returns a => a | _ => a end.
Definition no_source : configSource := mkConfigSource [] None None None None.
Definition no_config : Config * logger :=
  (mkConfig (mkServer_Config [] 0 false [] []) (mkStore_Config [] None false)
     (mkP2P_Config false [] [] 0 [] 0 []) (mkMetrics_Config [] [] [] 0 false), mkLogger [] TextHandler).

(** No flags, no files, a terminal. *)
Example defaults :
  let w := init (λ _, Some ErrNotExist) (λ _, inl ErrNotExist) None (Some (2 ^ 21)) in
  match newConfigSource w with
  | Returns src =>
      (mc_LogFormat <$> cs_Metrics src) = Some (str "cli") ∧ cs_KeyDir src = defaultEtcDir ∧
      (gc_TLSCert <$> cs_Server src) = Some (str "/etc/plan-vault/vault_cert.pem")
  | _ => False
  end.
Proof. vm_compute. done. Qed.

(** A file that moves the identity key and turns discovery off; the tag of
    the [channel] field in capitals. *)
Definition members : list (bytes * json) :=
  [(str "server", JObj [(str "port", JNum (str "5091"))]);
   (str "p2p", JObj [(str "CHANNEL", JStr [])]);
   (str "keyring_dir", JStr (str "/keys"))].
Definition file : bytes := print 0 (JObj members).
Definition w : World := started (Some file) false.
Definition src : configSource := returned no_source (newConfigSource w).
Definition printed : bytes :=
  match newConfigSource (started (Some file) true) with Exit out => out | _ => [] end.

Example file_read :
  cs_KeyDir src = str "/keys" ∧ (gc_Port <$> cs_Server src) = Some 5091 ∧ (pc_URI <$> cs_P2P src) = Some [] ∧
  (gc_TLSKey <$> cs_Server src) = Some (str "/home/vault/etc/vault_key.pem").
Proof. vm_compute. done. Qed.

Lemma printed_config_roundtrip_witness : newConfigSource (started (Some printed) false) = Returns src.
Proof.
  apply (printed_config_roundtrip w src _ (returned no_source (defaultConfigSrc (started None false))) printed).
  - by vm_compute.
  - by vm_compute.
  - by vm_compute.
  - done.
  - exists (str "/vault.json"). split; [by vm_compute|done].
  - by vm_compute.
Defined.

Definition null_members : list (bytes * json) := members ++ [(str "debug", JNull)].
Definition null_file : bytes := print 0 (JObj null_members).

Lemma null_section_crashes_witness :
  NewConfig (started (Some null_file) false) (mkLogger [] TextHandler) = Crash.
Proof.
  apply (null_section_crashes _ _ (returned no_source (newConfigSource (started (Some null_file) false)))
           null_file members (str "debug") (str "debug")).
  - by vm_compute.
  - exists (str "/vault.json"). split; [by vm_compute|done].
  - by vm_compute.
  - by vm_compute.
  - by vm_compute.
Defined.

Definition configured : Config * logger := returned no_config (NewConfig w (mkLogger [] TextHandler)).

Lemma certificate_stays_with_flag_witness :
  TLSCertPath (c_ServerConfig configured.1) = str "/home/vault/etc/vault_cert.pem" ∧
  KeyFile (c_P2PConfig configured.1) = str "/keys/vault.key".
Proof.
  destruct (certificate_stays_with_flag w (mkLogger [] TextHandler) configured.1 configured.2 file members
              (str "/home/vault/etc")) as [Hc Hk].
  - by vm_compute.
  - by vm_compute.
  - exists (str "/vault.json"). split; [by vm_compute|done].
  - by vm_compute.
  - intros kv Hkv. unfold members in Hkv. rewrite !elem_of_cons, elem_of_nil in Hkv.
    destruct Hkv as [-> |[-> |[-> |[]]]]; intros Hf; [|vm_compute in Hf; discriminate Hf..].
    eexists. split; [reflexivity|]. clear Hf.
    intros (kv & Hkv & Hf). apply list_elem_of_singleton in Hkv as ->. by vm_compute in Hf.
  - split; [exact Hc|]. by apply (Hk (take 2 members) (str "keyring_dir") (str "/keys")).
Defined.
End ConfigExamples.
