(* ===== verification/Main.v ===== *)
(** main.go with [server.Run] and [metrics.Run]: how a vault starts, and how
    it stops.

    [main_start] is [main] up to [grpcServer.Serve]: the configuration, the store,
    the host and the server, in that order, each handed its part of the
    configuration.  [lifecycle] is the process from there on, as the goroutines
    and signals that remain see it: [main] in [Serve], the goroutine of
    [waitForShutdown], and those that wait for the context. *)
From S2P Require Import Prelude Lts Protos Helpers Crypto Keyring KeyFile Badger Channel Store Reader P2P.
From S2P Require Import Json GoJson Config.

(* ------------------------------------------------------------------ *)
(** * The services *)

(** Whether sessions are encrypted. *)
Inductive security := Plaintext | TLS.

(** [fmt.Sprintf("%s:%d", addr, port)] *)
Definition listen_addr (addr : gostring) (port : Z) : gostring := addr ++ str ":" ++ FormatInt port.

(** [server.Run] up to [Serve], given what [net.Listen] and
    [credentials.NewServerTLSFromFile] return. *)
Definition server_Run (Listen : gostring → option error) (NewServerTLSFromFile : gostring → gostring → option error)
    (cfg : ServerConfig) : prog security :=
  match Listen (listen_addr (Addr cfg) (Port cfg)) with
  | Some _ => Fatal (str "failed to set up listener")
  | None =>
      if negb (Insecure cfg) && bool_decide (TLSCertPath cfg ≠ []) && bool_decide (TLSKeyPath cfg ≠ []) then
        match NewServerTLSFromFile (TLSCertPath cfg) (TLSKeyPath cfg) with
        | Some _ => Fatal (str "failed to generate tls creds")
        | None => Returns TLS
        end
      else Returns Plaintext
  end.

(** [metrics.Run]: where the debug server listens, if there is one. *)
Definition metrics_Run (cfg : MetricsConfig) : option gostring :=
  if DisableDebug cfg then None else Some (listen_addr (DebugAddr cfg) (DebugPort cfg)).

(** [log.Fatal(err)] *)
Definition fatal {A} (r : outcome A) : prog A :=
  match r with Ok a => Returns a | Err e => Fatal (Error e) | Panic => Crash end.

(* ------------------------------------------------------------------ *)
(** * Starting *)

Section start.
Context `{Libraries} `{P2PKeys} `{!LibP2P} `{NaCl} `{Badger} `{!ProtoCodec Msg.t} `{!ProtoCodec Peer.t}
  `{!ProtoCodec PubsubState.t} `{Sha256} {T : Type}.

(** What the process finds: its flags and files, the database, libp2p, the
    network. *)
Record Machine := mkMachine {
  m_world : World;
  m_logger : logger;
  badger_Open : gostring → outcome DB;
  m_env : env;
  m_new_net : option PrivKey → outcome Net;
  NewMdnsService : Z → gostring → outcome unit;
  m_keyfiles : gmap gostring bytes;
  m_uuid : UUID;
  m_Listen : gostring → option error;
  m_NewServerTLSFromFile : gostring → gostring → option error;
}.

(** A vault that serves. *)
Record Vault := mkVault {
  v_config : Config;
  v_logger : logger;
  v_debug : option gostring;
  v_store : Store T;
  v_host : option (Host (T:=T));
  v_security : security;
}.

Definition main_start (m : Machine) : prog Vault :=
  '(cfg, l) ← NewConfig (m_world m) (m_logger m);
  let debug := metrics_Run (c_Metrics cfg) in
  dir ← deref (s_DB (c_StoreConfig cfg));
  db ← fatal (Store.New (badger_Open m dir) (s_HasDiscovery (c_StoreConfig cfg)));
  let p := c_P2PConfig cfg in
  host ← fatal (P2P.New (m_env m) (m_new_net m) (NewMdnsService m) db (m_keyfiles m) (m_uuid m)
                  (MDNS p) (URI p) (KeyFile p)).2;
  sec ← server_Run (m_Listen m) (m_NewServerTLSFromFile m) (c_ServerConfig cfg);
  Returns (mkVault cfg l debug (match host with Some h => store h | None => db end) host sec).

End start.

Lemma server_Run_security Listen NewServerTLSFromFile cfg sec :
  server_Run Listen NewServerTLSFromFile cfg = Returns sec →
  (sec = Plaintext ↔ Insecure cfg = true ∨ TLSCertPath cfg = [] ∨ TLSKeyPath cfg = []).
Proof.
  unfold server_Run. destruct (Listen _); [done|].
  destruct (Insecure cfg); simpl; [intros [= <-]; tauto|].
  destruct (TLSCertPath cfg), (TLSKeyPath cfg); simpl;
    repeat case_match; intros; simplify_eq; naive_solver.
Qed.

Section wiring.
Context `{Libraries} `{LibP2PLaws} `{NaCl} `{Badger} `{!ProtoCodec Msg.t} `{!ProtoCodec Peer.t}
  `{!ProtoCodec PubsubState.t} `{Sha256} {T : Type}.

(** C30: a vault that serves is wired as its configuration says: it has a host
    exactly if it has a discovery channel, its store announces channels exactly
    if there is a host to read them, and host and server share the store.  Its
    sessions are in plain text not only where the configuration asks for it:
    an empty path of certificate or key does the same. *)
Theorem start_wiring m (v : Vault (T:=T)) :
  main_start m = Returns v →
  (v_host v = None ↔ URI (c_P2PConfig (v_config v)) = []) ∧
  (updateCh (v_store v) = true ↔ ∃ h, v_host v = Some h) ∧
  (∀ h, v_host v = Some h → v_store v = store h) ∧
  (v_security v = Plaintext ↔
     let sc := c_ServerConfig (v_config v) in
     Insecure sc = true ∨ TLSCertPath sc = [] ∨ TLSKeyPath sc = []).
Proof.
  unfold main_start. destruct (NewConfig (m_world m) (m_logger m)) as [[cfg l]| | |] eqn:Hcfg; simpl; [|done..].
  apply NewConfig_returns in Hcfg as (src & s & g & p & mc & _ & _ & _ & _ & _ & _ & _ & -> & Hdisc & _).
  simpl. unfold Store.New. destruct (badger_Open m _) as [d|e|]; simpl; [|done..].
  destruct (P2P.New _ _ _ _ _ _ _ _ _).2 as [host|e|] eqn:Hhost; simpl; [|done..].
  destruct (server_Run _ _ _) as [sec| | |] eqn:Hsec; simpl; [|done..]. intros [= <-]. simpl.
  apply server_Run_security in Hsec. destruct host as [h|].
  - pose proof (New_updateCh _ _ _ _ _ _ _ _ _ _ Hhost) as Hup. simpl in Hup. rewrite Hdisc in Hup.
    apply New_started in Hhost as (_ & _ & _ & _ & Hne & _). rewrite Hup, bool_decide_true by done.
    split_and!; [done|naive_solver|naive_solver|done].
  - apply New_standalone in Hhost. simpl. rewrite Hdisc, bool_decide_false by naive_solver.
    split_and!; [done| |done|done]. split; [done|]. by intros [h ?].
Qed.
End wiring.

(* ------------------------------------------------------------------ *)
(** * Stopping *)

(** How a process ends: by the default action of a signal, or with a code. *)
Inductive status := Killed | Code (n : Z).

(** [main], in [Serve], past [waitForShutdown], or gone. *)
Inductive main_thread := Serving | Returning | Exited (s : status).

(** The goroutine [waitForShutdown] starts: not there yet, before
    [signal.Notify], waiting on [sigint] (which buffers one signal), past
    [cancel]. *)
Inductive shutdown_goroutine := NotStarted | Spawned | Waiting (pending : bool) | Finished.

Record lifecycle := mkLifecycle {
  main : main_thread;
  handler : shutdown_goroutine;
  cancelled : bool;       (** the context's *)
  db_open : bool;
  grpc_serving : bool;
  debug_serving : bool;
}.

Inductive life_event :=
  | Interrupt            (** SIGINT *)
  | ServeReturns (accept_failed : bool)
  | MainReturns
  | HandlerNotifies
  | HandlerWakes
  | StoreCloses          (** [<-ctx.Done(); store.close()] *)
  | GrpcStops            (** [<-ctx.Done(); grpcServer.GracefulStop()] *)
  | DebugShutdown        (** [<-ctx.Done(); srv.Shutdown(...)] *)
  | DebugFails.

Definition ended (s : status) (p : lifecycle) : lifecycle :=
  mkLifecycle (Exited s) (handler p) (cancelled p) (db_open p) (grpc_serving p) (debug_serving p).

(** [ListenAndServe] returns an error in any case, [http.ErrServerClosed] after
    [Shutdown], and the error is fatal.  When [main] returns the process is
    over, whatever other goroutines are doing. *)
Definition life_step (ev : life_event) (p : lifecycle) : option lifecycle :=
  match main p with
  | Exited _ => None
  | m =>
      match ev with
      | Interrupt =>
          match handler p with
          | NotStarted | Spawned => Some (ended Killed p)
          | Waiting _ =>
              Some (mkLifecycle m (Waiting true) (cancelled p) (db_open p) (grpc_serving p) (debug_serving p))
          | Finished => Some p
          end
      | ServeReturns accept_failed =>
          match m with
          | Serving =>
              if accept_failed || negb (grpc_serving p) then
                Some (mkLifecycle Returning Spawned (cancelled p) (db_open p) (grpc_serving p) (debug_serving p))
              else None
          | _ => None
          end
      | MainReturns => match m with Returning => Some (ended (Code 0) p) | _ => None end
      | HandlerNotifies =>
          match handler p with
          | Spawned =>
              Some (mkLifecycle m (Waiting false) (cancelled p) (db_open p) (grpc_serving p) (debug_serving p))
          | _ => None
          end
      | HandlerWakes =>
          match handler p with
          | Waiting true => Some (mkLifecycle m Finished true (db_open p) (grpc_serving p) (debug_serving p))
          | _ => None
          end
      | StoreCloses =>
          if cancelled p && db_open p
          then Some (mkLifecycle m (handler p) true false (grpc_serving p) (debug_serving p)) else None
      | GrpcStops =>
          if cancelled p && grpc_serving p
          then Some (mkLifecycle m (handler p) true (db_open p) false (debug_serving p)) else None
      | DebugShutdown => if cancelled p && debug_serving p then Some (ended (Code 1) p) else None
      | DebugFails => if debug_serving p then Some (ended (Code 1) p) else None
      end
  end.

(** [main] when it has called [Serve]. *)
Definition serving (debug : bool) : lifecycle := mkLifecycle Serving NotStarted false true true debug.

(** As long as the listener does not fail, nothing that shutting down needs
    has happened. *)
Definition not_stopping (p : lifecycle) : Prop :=
  handler p = NotStarted ∧ cancelled p = false ∧ db_open p = true ∧ grpc_serving p = true ∧ main p ≠ Returning.

Lemma not_stopping_preserved :
  preserved life_step (λ _ ev, ev ≠ ServeReturns true) not_stopping.
Proof.
  intros ev [m h c o g d] p' (? & ? & ? & ? & Hm) Hev Hstep. simpl in *; subst.
  destruct m, ev as [|[]| | | | | | |]; cbn in Hstep; try destruct d; simplify_eq/=; try congruence;
    unfold not_stopping; simpl; by split_and!.
Qed.

(** C29: a vault does not shut down: [main] installs its signal handler only
    when [Serve] has returned, which it does only if the listener fails.
    Until then the context is never cancelled and the database never closed,
    and an interrupt kills the process with the database open. *)
Theorem interrupt_kills evs debug p :
  play life_step evs (serving debug) = Some p →
  ServeReturns true ∉ evs →
  cancelled p = false ∧ db_open p = true ∧
  (main p = Serving → life_step Interrupt p = Some (ended Killed p) ∧ db_open (ended Killed p) = true).
Proof.
  intros Hplay Hevs. assert (not_stopping p) as (Hh & Hc & Ho & _).
  { eapply (play_invariant _ (λ ev, ev ≠ ServeReturns true)); [apply not_stopping_preserved| | |exact Hplay].
    - apply Forall_forall. by intros ev Hin ->.
    - done. }
  split; [done|]. split; [done|]. intros Hm. unfold life_step. by rewrite Hm, Hh.
Qed.

(* ------------------------------------------------------------------ *)
(** * Examples *)

Module MainExamples.
Import MemDB RefCodec RefHash RefCrypto RefNet StoreExamples KeyringExamples KeyFileExamples P2PExamples.
Import ConfigExamples.

(** A configuration file that asks for encryption and names no key. *)
Definition keyless : bytes :=
  print 0 (JObj [(str "server", JObj [(str "insecure", JBool false); (str "tls_key_file", JStr [])])]).

Definition machine : Machine :=
  mkMachine (ConfigExamples.started (Some keyless) false) (mkLogger [] TextHandler)
    (λ _, Ok (d0 : DB)) (world privk) new_net no_mdns no_files (str "id") (λ _, None) (λ _ _, None).

Definition returns {A} (p : prog A) : bool := match p with Returns _ => true | _ => false end.

Lemma machine_starts : ∃ v : Vault (T:=unit), main_start machine = Returns v.
Proof.
  assert (returns (main_start (T:=unit) machine) = true) as Hr by (vm_compute; reflexivity).
  destruct (main_start (T:=unit) machine) as [v| | |]; [by exists v|discriminate Hr..].
Qed.

Lemma start_wiring_witness :
  ∃ v : Vault (T:=unit), main_start machine = Returns v ∧
    (updateCh (v_store v) = true ↔ ∃ h, v_host v = Some h) ∧
    (v_security v = Plaintext ↔
       let sc := c_ServerConfig (v_config v) in
       Insecure sc = true ∨ TLSCertPath sc = [] ∨ TLSKeyPath sc = []).
Proof.
  destruct machine_starts as [v Hv]. exists v.
  destruct (start_wiring machine v Hv) as (_ & Hup & _ & Hsec).
  split; [exact Hv|]. split; [exact Hup|exact Hsec].
Defined.

(** It serves in plain text all the same. *)
Example keyless_is_plaintext :
  match main_start (T:=unit) machine with
  | Returns v => match v_security v with Plaintext => negb (Insecure (c_ServerConfig (v_config v))) | TLS => false end
  | _ => false
  end = true.
Proof. vm_compute. reflexivity. Qed.

Lemma interrupt_kills_witness :
  play life_step [Interrupt] (serving true) = Some (ended Killed (serving true)) ∧
  db_open (ended Killed (serving true)) = true.
Proof.
  split; [reflexivity|].
  destruct (interrupt_kills [Interrupt] true (ended Killed (serving true))) as (_ & Ho & _);
    [reflexivity|intros Hin; by apply list_elem_of_singleton in Hin|exact Ho].
Defined.
End MainExamples.
